(* ===== verification/_CoqProject ===== *)
-Q . S2P
Prelude.v
Probing.v
FlowTable.v
SeqArith.v
Dpdk.v
DpdkSim.v
Packet.v
Headers.v
Udp.v
Segment.v
SegmentWire.v
Arp.v
Port.v
Runtime.v
Pool.v
Usage.v
Stats.v
Bench.v
Tap.v
TcpState.v
TcpReceiver.v
TcpSender.v
Scenario.v
Echo.v
RingThreads.v
TcpConn.v
TcpInv.v
TcpPoll.v
TcpDiagram.v
TcpLive.v
TcpValues.v
TcpSystem.v
TcpSetup.v
TcpStream.v
TcpIds.v
TcpThreads.v
TcpRely.v
TcpCalls.v
TcpFine.v
TcpRaces.v
EchoLoop.v
EchoInv.v
EchoServer.v
EchoFine.v
EchoStop.v
EchoMain.v
TcpTheorems.v
TcpFineStream.v
Tests.v
