(* ===== verification/Prelude.v ===== *)
(** * dpdk-wrapper-library: a verification development

    The repository is a C++ library over DPDK: RAII objects for the EAL, ports,
    queues, pools and packets, builders for Ethernet, IPv4, TCP and UDP headers,
    ARP, and a passive-open TCP stack run by two threads, with an echo server
    on top.  This development translates that code into Rocq functions and
    proves what makes it correct.

    ** How the program is put together

    A [runtime] brings up the EAL and owns [port]s; a port owns a device, its
    pool and its queues, which are claimed once each.  A [tcp_stack] is built on
    a port and hands out two handles.  The inbound thread polls a receive queue
    and gives each burst to [tcp_receiver::poll], which answers ARP, runs the
    connection state machines, reports events and queues control packets.  The
    outbound thread calls [tcp_sender::send] and [close].  They share the array
    of connection slots; an application id is a slot and its generation.  The
    echo server ties the handles together through a single-producer ring.

    ** Files, in order of dependency

    - Prelude.v (this file): machine integers with their wrap-around, reads and
      writes of byte strings, shared lemmas and tactics.
    - Probing.v: theory of linear probing, used by the two hash tables.
    - FlowTable.v: [flow_table] of src/tcp_stack.cpp.
    - SeqArith.v: sequence numbers and the packed window, src/tcp_connection.h.
    - Dpdk.v: DPDK as an interface, with classes [DpdkOps] (functions),
      [DpdkLaws] (documented behaviour), [DpdkAccount] (who holds which mbuf)
      and [DpdkWire] (what was transmitted).  DpdkSim.v: an instance of them.
    - Packet.v: src/packet.cpp, packet_burst.cpp, rx_queue.cpp, tx_queue.cpp and
      the packets of packet_pool.cpp.
    - Headers.v: src/ethernet_header.cpp, ipv4_header.cpp, tcp_header.cpp,
      udp_header.cpp.  Udp.v: a whole datagram, and the multicast address.
    - Segment.v, SegmentWire.v: [build_segment], [parse_mss_option] and the
      parsing halves of [process] and [process_tcp]; the bytes of a segment.
    - Arp.v: src/arp.cpp.  Port.v: src/port.cpp.  Runtime.v: src/runtime.cpp with
      the [packet_pool] objects its ports share, and whole programs over them.
    - Pool.v: the ownership of pools among the application, the runtime and its
      ports.
    - Usage.v: the loops of examples/easy_usage.cpp and advanced_usage.cpp and the
      round trips of benchmarks/.  Stats.v: benchmarks/bench_common.h, in IEEE 754
      binary64.  Bench.v: the timing loop, and the [main]s of both benchmarks and
      both examples.  Tap.v: src/tap_interface.cpp.
    - TcpState.v: slots, ids, events, parameters, the [tcp_stack] object.
    - TcpReceiver.v: every member of [tcp_receiver::impl], and [poll].
    - TcpSender.v: [lookup], [sendable], [send_space], [send], [close].
    - Scenario.v: a concrete stack and frames, for the witnesses.
    - Echo.v: ring, overflow queue, event handler and [close_once] of
      examples/tcp_echo_server.h.  RingThreads.v: ring, overflow queue and event
      handler as programs of single memory accesses, run by two threads.
    - TcpConn.v: what one segment does to one connection, as a function of that
      connection.  TcpInv.v, TcpPoll.v: the invariant of the connection table and
      of one poll.  TcpDiagram.v: the TCP state diagram as labelled, guarded
      edges, and a segment's way through it.  TcpLive.v: progress of the sender.  TcpValues.v: what the
      fields of a live slot say.  TcpSystem.v: the two threads' calls
      interleaved.  TcpSetup.v: the constructor and the set-up calls.
      TcpStream.v: the byte stream.  TcpIds.v: which ids a poll's events carry.
      TcpTheorems.v: what all this says of every reachable state of a stack.
    - TcpThreads.v: [lookup], [send] and [close] as programs, one step per access to
      a slot's atomics or call into DPDK, and [poll] in steps; their
      interleavings.  TcpRely.v: what the inbound thread's steps leave to the
      sender.  TcpCalls.v: a call under interference, by what its thread owns.
      TcpFine.v: the invariant of the interleaved threads, and what it says.
      TcpRaces.v: the two places where the threads meet, load by load and store
      by store.  TcpFineStream.v: the byte stream under interference.
    - EchoLoop.v: the two threads of the echo server, turn by turn.  EchoInv.v,
      EchoServer.v: their invariant over the stack, and what it says.
      EchoFine.v: the same two threads where every access to the ring is a step.
      EchoStop.v: how they end.
    - EchoMain.v: examples/tcp_echo.cpp and the server's constructor.
    - Tests.v: the repository's unit tests, run on the definitions.

    Definitions keep the source's names; a C++ member becomes a function on the
    object's record; exceptions and null pointers become the left side of a sum
    or [None]; integers are [Z] with every narrowing written as [u8], [u16],
    [u32] or [u64].  Everything a definition does to DPDK threads an abstract
    environment [E], so allocation failures, refused transmissions and the
    contents of uninitialized buffers are arbitrary in every theorem.

    ** What the theorems show

    - Stream (C1, C25, C26): a SYN opens a stream at its first byte, from then on
      data events are exactly its next bytes, and an acceptable segment that
      continues it is delivered at once.
    - Table and slots (C2, C16, C17, C22): in every reachable state flow table,
      slots, free list and waiting list agree, the published values are right
      and every field is in its type; a slot taken again refuses its old ids.
    - Two threads over the stack, access by access (C8 to C13): between any
      two accesses the shared state is consistent; a [send] or [close] with the
      inbound thread running does what it promises at every moment; a [poll] with
      the sender running still reports the peer's stream; a handler that loads
      twice acts as if it had loaded once; an old id is refused while its slot is
      given away.  [TcpFine.programs_run_alone] ties the programs of accesses to
      the functions of the other files.
    - The echo server over the stack (C3, C6, C18): under any schedule of its two
      threads each peer gets back its own bytes in order, every connection is
      closed once and not too early, and a request to stop ends both threads.
    - The echo server's ring, access by access (C4, C5): no interleaving and
      no stale load makes a data race, loses, repeats, reorders or tears an item,
      and the server on top of it still returns every stream.
      [RingThreads.ring_calls_alone] ties the programs of accesses to Echo.v.
    - State machine (C15): every segment takes its connection along the edges of
      the TCP diagram, as far as they go, with exactly their events and replies.
    - Output (C7, C21, C26, C27): what [send], [close], a SYN and an unwanted
      segment put on the wire.
    - Resources (C19, C20, C34): fixed buffers suffice, no mbuf is leaked or freed
      twice, and every pool is freed once, by its last owner.
    - Data structures (C14, C28): the hash tables refine finite maps.
    - Wire formats (C23, C24, C30, C31, C40): round trip, bounds and termination of
      the parsers, exact datagrams.
    - ARP (C29) and the constructor of the stack (C32); the arithmetic they and the
      state machine rest on is in SeqArith.v.
    - Devices, EAL and kernel (C33, C37, C38, C39): the EAL is one, its ports are
      shut and their pools freed before it goes, queues are handed out once, a
      port comes up in order or names the call that failed, and the tap
      interface is configured in order.
    - Programs (C35, C36): the exact DPDK calls of tcp_echo.cpp on every way out,
      and bench_library.cpp, whose statistics are exactly those of its samples.
      Bench.v has the same for the other programs, and
      [Usage.library_matches_bare] compares the library's round trips with
      hand-written DPDK code.
    - [Tests.unit_tests_pass] evaluates 31 of the repository's own tests on the
      definitions.

    [TcpSetup.value_initialized_id_is_valid], [Arp.arp_probe_answered_not_learned],
    [EchoMain.port_option_unchecked], [EchoMain.second_thread_refused],
    [TcpFine.ack_overtakes_send] and the last case of [Usage.library_matches_bare] record where the code differs from its
    comments or from what it means to do.

    ** Interfaces, bounds and fuel

    Interleavings come in two grains.  TcpSystem.v, the theorems of
    TcpTheorems.v and EchoLoop.v take a call of [poll], [send] or [close]
    as one step and let the steps come in any order ([sys_step]): what they say
    of reachable states is said of calls that do not overlap.  For the table,
    the published values and the stream the finer grain below says it of
    overlapping calls too (C8 to C11); the bound of C16 on the bytes in flight is
    the one that needs whole calls, as [TcpFine.ack_overtakes_send] shows.
    TcpThreads.v splits the sender's calls into their accesses and [poll] into
    the slots and packets it deals with ([fine_step]); a load of a value the
    inbound thread publishes may return what the slot held at any moment since
    the call began, which covers a handler caught halfway and a load that sees
    an older store.  That a handler may be one step although it loads the
    sender's values more than once is C12; the six stores of [open], with what
    release and acquire allow a late [lookup] to see, are C13.

    RingThreads.v has a memory for the ring in which each counter has one writer
    and keeps all its values: a load of the other thread's counter returns any
    value not older than one seen before, and an access to a slot is recorded as
    a race unless the other side's last access is ordered before it by a release
    store that was acquired.  The promise between the two files is [threads_ok],
    which EchoFine.v uses without looking inside a program ([call_safe]).

    The application's part of the contract is [permitted], respectively
    [usable]: it uses an id the stack has given out and not one it has invented
    for a slot that was never opened ([value_initialized_id_is_valid] shows what
    happens otherwise).  Between calls the environment may move on
    ([world_step]).  The sender's transmit queue is its own ([own_queues]), as
    tcp_stack.h asks.  The echo server's schedules add that generations do not
    wrap past 2^32 within a run ([turn_ok]).

    Loops carry fuel only where the recursion is not structural, and running
    out is a separate result: the hash-table loops have one unit per slot and
    are shown to end (FlowTable.v, Arp.v); [mss_loop] has one per option byte
    and one more (C30); [send]'s outer loop one per byte it may send and one
    more, since every turn but the last sends at least one byte (C7); the data
    loop of the echo server's [handle] one per byte and one more
    ([handle_queues_event]); the hand-out of queues one per queue and one more
    ([workers_cover_queues]).  The round trips of the benchmarks poll until a
    packet comes, possibly for ever: their number of polls is a parameter, and
    [Usage.library_matches_bare] and C36 hold for every value of it.
    [kCloseRetries] is the source's 2^20 and is the fuel of [close]'s retry loop
    by definition of the code.

    ** Not modelled

    The C++ memory model beyond what is said above (no proof about relaxed
    accesses to different slots of the stack or about its fields that are not
    atomic); the echo server with its accesses to the ring and those inside the
    stack's calls interleaved at once (each is done with the other as whole
    steps); pinning a thread to a core; the text the programs print;
    include/dpdk_error.h (an exception with a message: the throwing calls return a
    sum whose left side names the refusal); of the tests, those that need a
    second thread, a kernel interface or a device. *)

From stdpp Require Export base list list_numbers gmap.
From Stdlib Require Export ZArith Lia.

#[global] Open Scope Z_scope.

(** ** Machine integers

    A [uintN_t] is a [Z]; every assignment that narrows or can wrap goes
    through [uN], which is the conversion C++ prescribes for unsigned types. *)

Definition u8 (x : Z) : Z := x mod 2 ^ 8.
Definition u16 (x : Z) : Z := x mod 2 ^ 16.
Definition u32 (x : Z) : Z := x mod 2 ^ 32.
Definition u64 (x : Z) : Z := x mod 2 ^ 64.

(** [static_cast<int32_t>] of a [uint32_t] value. *)
Definition s32 (x : Z) : Z := if x <? 2 ^ 31 then x else x - 2 ^ 32.

Definition is_u8 (x : Z) : Prop := 0 <= x < 2 ^ 8.
Definition is_u16 (x : Z) : Prop := 0 <= x < 2 ^ 16.
Definition is_u32 (x : Z) : Prop := 0 <= x < 2 ^ 32.
Definition is_u64 (x : Z) : Prop := 0 <= x < 2 ^ 64.

Create HintDb dpdk.
Create HintDb wire.

(** Arithmetic with the wrap-around written out: unfolds the casts, turns
    every [mod] by a constant into its quotient equation and calls [lia]. *)
Ltac unfold_ints :=
  unfold u8, u16, u32, u64, s32, is_u8, is_u16, is_u32, is_u64 in *;
  change (2 ^ 8) with 256 in *; change (2 ^ 16) with 65536 in *;
  change (2 ^ 31) with 2147483648 in *; change (2 ^ 32) with 4294967296 in *;
  change (2 ^ 64) with 18446744073709551616 in *.

Ltac split_ifs :=
  repeat match goal with
  | |- context [if ?b then _ else _] => destruct b eqn:?
  | H : context [if ?b then _ else _] |- _ => destruct b eqn:?
  end.

Ltac mlia := unfold_ints; split_ifs; Z.div_mod_to_equations; lia.

Lemma u8_range x : is_u8 (u8 x). Proof. mlia. Qed.
Lemma u16_range x : is_u16 (u16 x). Proof. mlia. Qed.
Lemma u32_range x : is_u32 (u32 x). Proof. mlia. Qed.
Lemma u64_range x : is_u64 (u64 x). Proof. mlia. Qed.
Lemma u8_id x : is_u8 x → u8 x = x. Proof. mlia. Qed.
Lemma u16_id x : is_u16 x → u16 x = x. Proof. mlia. Qed.
Lemma u32_id x : is_u32 x → u32 x = x. Proof. mlia. Qed.
#[export] Hint Resolve u8_range u16_range u32_range u64_range : dpdk.

Lemma u32_add_l x y : u32 (u32 x + y) = u32 (x + y).
Proof. unfold u32. apply Zplus_mod_idemp_l. Qed.
Lemma u32_sub_l x y : u32 (u32 x - y) = u32 (x - y).
Proof. unfold u32. apply Zminus_mod_idemp_l. Qed.
Lemma u32_sub_r x y : u32 (x - u32 y) = u32 (x - y).
Proof. unfold u32. apply Zminus_mod_idemp_r. Qed.

(** ** Byte order *)

(** Network byte order: what [rte_cpu_to_be_16]/[rte_cpu_to_be_32] followed
    by the store puts in memory. *)
Definition be16 (x : Z) : list Z := [u8 (x / 2 ^ 8); u8 x].
Definition be32 (x : Z) : list Z :=
  [u8 (x / 2 ^ 24); u8 (x / 2 ^ 16); u8 (x / 2 ^ 8); u8 x].

(** A 16-bit store with no conversion, on the little-endian hosts DPDK's
    x86 and arm64 builds run on. *)
Definition le16 (x : Z) : list Z := [u8 x; u8 (x / 2 ^ 8)].

Definition rd8 (bs : list Z) (off : nat) : Z := bs !!! off.
Definition rd16 (bs : list Z) (off : nat) : Z := rd8 bs off * 2 ^ 8 + rd8 bs (off + 1).
Definition rd32 (bs : list Z) (off : nat) : Z :=
  rd8 bs off * 2 ^ 24 + rd8 bs (off + 1) * 2 ^ 16 + rd8 bs (off + 2) * 2 ^ 8 + rd8 bs (off + 3).
Definition rd16le (bs : list Z) (off : nat) : Z := rd8 bs off + rd8 bs (off + 1) * 2 ^ 8.

(** [bs[off .. off + n)], the view a pointer and a length give. *)
Definition sub (bs : list Z) (off n : nat) : list Z := take n (drop off bs).

(** A store of [v] at [off]. *)
Definition wr (bs : list Z) (off : nat) (v : list Z) : list Z :=
  take off bs ++ v ++ drop (off + length v) bs.

Definition bytes (bs : list Z) : Prop := Forall is_u8 bs.

(** ** Bit fields *)

(** Disjoint fields combined with [|] add up. *)
Lemma lor_shift_add x y b : 0 <= b → 0 <= y < 2 ^ b → Z.lor (Z.shiftl x b) y = x * 2 ^ b + y.
Proof.
  intros Hb Hy. rewrite Z.shiftl_mul_pow2 by done. symmetry. apply Z.add_nocarry_lor.
  apply Z.bits_inj'. intros n Hn. rewrite Z.land_spec, Z.bits_0, <- Z.shiftl_mul_pow2 by done.
  destruct (Z.lt_ge_cases n b).
  - rewrite Z.shiftl_spec_low by lia. done.
  - rewrite <- (Z.mod_small y (2 ^ b)) by done. rewrite Z.mod_pow2_bits_high by lia. apply andb_false_r.
Qed.

Lemma lor_add_shift x y b : 0 <= b → 0 <= y < 2 ^ b → Z.lor (x * 2 ^ b) y = x * 2 ^ b + y.
Proof. intros. rewrite <- (lor_shift_add x y b) by done. by rewrite Z.shiftl_mul_pow2. Qed.

(** ** Byte strings *)

Lemma length_wr bs off v : (off + length v <= length bs)%nat → length (wr bs off v) = length bs.
Proof. intros. unfold wr. rewrite !length_app, length_take, length_drop. lia. Qed.

Lemma length_sub bs off n : (off + n <= length bs)%nat → length (sub bs off n) = n.
Proof. intros. unfold sub. rewrite length_take, length_drop. lia. Qed.

Lemma bytes_nil : bytes [].
Proof. by apply Forall_nil. Qed.
Lemma bytes_cons x l : is_u8 x → bytes l → bytes (x :: l).
Proof. by apply Forall_cons_2. Qed.
Lemma bytes_app a b : bytes (a ++ b) ↔ bytes a ∧ bytes b.
Proof. apply Forall_app. Qed.
Lemma bytes_be16 x : bytes (be16 x).
Proof. repeat constructor; mlia. Qed.
Lemma bytes_be32 x : bytes (be32 x).
Proof. repeat constructor; mlia. Qed.
Lemma bytes_le16 x : bytes (le16 x).
Proof. repeat constructor; mlia. Qed.
Lemma bytes_sub bs off n : bytes bs → bytes (sub bs off n).
Proof. intros. by apply Forall_take, Forall_drop. Qed.
Lemma bytes_wr bs off v : bytes bs → bytes v → bytes (wr bs off v).
Proof. intros. unfold wr. apply Forall_app_2; [by apply Forall_take|]. apply Forall_app_2; [done|by apply Forall_drop]. Qed.
#[export] Hint Resolve bytes_nil bytes_be16 bytes_be32 bytes_le16 bytes_sub bytes_wr : wire.


Ltac solve_bytes :=
  repeat match goal with
  | |- bytes [] => apply bytes_nil
  | |- bytes (_ :: _) => apply bytes_cons
  | |- bytes (_ ++ _) => apply bytes_app; split
  end; try solve [auto with wire]; try mlia.

Lemma rd8_range bs off : bytes bs → is_u8 (rd8 bs off).
Proof.
  intros Hb. unfold rd8. rewrite list_lookup_total_alt. destruct (bs !! off) eqn:E; simpl; [|mlia].
  by eapply (Forall_lookup_1 is_u8).
Qed.
Lemma rd16_range bs off : bytes bs → is_u16 (rd16 bs off).
Proof. intros Hb. pose proof (rd8_range bs off Hb). pose proof (rd8_range bs (off + 1) Hb). unfold rd16. mlia. Qed.
Lemma rd32_range bs off : bytes bs → is_u32 (rd32 bs off).
Proof.
  intros Hb. pose proof (rd8_range bs off Hb). pose proof (rd8_range bs (off + 1) Hb).
  pose proof (rd8_range bs (off + 2) Hb). pose proof (rd8_range bs (off + 3) Hb).
  unfold rd32. unfold_ints. change (2 ^ 24) with 16777216. lia.
Qed.
#[export] Hint Resolve rd8_range rd16_range rd32_range : wire.

(** Reads past a prefix, and of what was written. *)
Lemma rd8_app a b off : rd8 (a ++ b) (length a + off) = rd8 b off.
Proof. unfold rd8. rewrite lookup_total_app_r by lia. f_equal. lia. Qed.
Lemma rd16_app a b off : rd16 (a ++ b) (length a + off) = rd16 b off.
Proof. unfold rd16. by rewrite <- !Nat.add_assoc, !rd8_app. Qed.
Lemma rd32_app a b off : rd32 (a ++ b) (length a + off) = rd32 b off.
Proof. unfold rd32. by rewrite <- !Nat.add_assoc, !rd8_app. Qed.
Lemma sub_app a b off n : sub (a ++ b) (length a + off) n = sub b off n.
Proof. unfold sub. by rewrite drop_app_add. Qed.

Lemma rd16_be16 x r : rd16 (be16 x ++ r) 0 = u16 x.
Proof. unfold rd16, rd8, be16. simpl. mlia. Qed.
Lemma rd32_be32 x r : rd32 (be32 x ++ r) 0 = u32 x.
Proof.
  unfold rd32, rd8, be32. simpl. unfold u8, u32. change (2 ^ 8) with 256. change (2 ^ 16) with 65536.
  change (2 ^ 24) with 16777216. change (2 ^ 32) with 4294967296. Z.div_mod_to_equations; lia.
Qed.

Lemma sum_list_with_insert {A} (f : A → nat) (l : list A) i x y : l !! i = Some x →
  (sum_list_with f (<[i := y]> l) + f x = sum_list_with f l + f y)%nat.
Proof.
  revert i. induction l as [|z l IH]; intros i Hi; [done|]. destruct i as [|i]; simpl in *; [simplify_eq; lia|].
  specialize (IH i Hi). lia.
Qed.
