(* ===== verification/Probing.v ===== *)
(** * Open addressing with linear probing

    The theory behind the two hash tables of the library, [flow_table]
    (src/tcp_stack.cpp) and [neighbor_table] (src/arp.cpp): an array of
    [(key, value)] entries in which key [0] marks an empty slot, searched from
    a key's home slot by stepping to the next slot, cyclically.

    The array is a list of length [N], positions are integers in [[0, N)].
    [dist a b] is the number of steps from [a] to [b]; the invariant says that
    every slot a probe for a stored key passes before reaching it is occupied.
    The lemmas on the probe loop, on filling the slot it stops at and on
    closing a hole by backward shifting are what FlowTable.v and Arp.v use. *)

From S2P Require Import Prelude.

Section probing.
Context {V : Type} `{Inhabited V}.
Context (N : Z) (home : Z → Z).

Definition dist (a b : Z) : Z := if a <=? b then b - a else b - a + N.
Definition nxt (i : Z) : Z := if i + 1 =? N then 0 else i + 1.
Definition inr (i : Z) : Prop := 0 <= i < N.

Definition ent (es : list (Z * V)) (p : Z) : Z * V := es !!! Z.to_nat p.
Definition key_at (es : list (Z * V)) (p : Z) : Z := (ent es p).1.
Definition put (es : list (Z * V)) (p : Z) (e : Z * V) : list (Z * V) := <[Z.to_nat p := e]> es.

(** The first position from [i] on that holds [k] or is empty. *)
Fixpoint probe (fuel : nat) (es : list (Z * V)) (i k : Z) : option Z :=
  match fuel with
  | O => None
  | S f => if (key_at es i =? k) || (key_at es i =? 0) then Some i
           else probe f es (nxt i) k
  end.

Record probe_wf (es : list (Z * V)) : Prop := {
  pw_len : Z.of_nat (length es) = N;
  pw_path : ∀ m p, inr m → inr p → key_at es m ≠ 0 →
    dist (home (key_at es m)) p < dist (home (key_at es m)) m → key_at es p ≠ 0;
  pw_uniq : ∀ m m', inr m → inr m' → key_at es m ≠ 0 → key_at es m = key_at es m' → m = m' }.

Definition has_empty (es : list (Z * V)) : Prop := ∃ p, inr p ∧ key_at es p = 0.

(** The finite map the array stands for. *)
Definition rep (es : list (Z * V)) (m : gmap Z V) : Prop :=
  ∀ k v, m !! k = Some v ↔ k ≠ 0 ∧ ∃ p, inr p ∧ ent es p = (k, v).

(** ** Cyclic distances *)

Lemma dist_spec a b : inr a → inr b →
  0 <= dist a b < N ∧ (a <= b ∧ dist a b = b - a ∨ b < a ∧ dist a b = b - a + N).
Proof using. unfold dist, inr. intros. split_ifs; lia. Qed.

Lemma nxt_spec i : inr i →
  inr (nxt i) ∧ (i + 1 = N ∧ nxt i = 0 ∨ i + 1 < N ∧ nxt i = i + 1).
Proof using. unfold nxt, inr. intros. split_ifs; lia. Qed.

Hypothesis home_range : ∀ k, inr (home k).

(* Adds the linear facts about every [dist] and [nxt] in sight, then [lia]. *)
Ltac pose_dist a b :=
  let D := fresh "D" in
  pose proof (dist_spec a b ltac:(eauto using home_range) ltac:(eauto using home_range)) as D;
  revert D; generalize (dist a b); intros ? ?.
Ltac dlia :=
  repeat match goal with
  | H : context [dist ?a ?b] |- _ => revert H
  end;
  repeat match goal with
  | |- context [dist ?a ?b] => pose_dist a b
  end;
  unfold inr in *; intros; try lia.

Lemma dist_inj h p q : inr h → inr p → inr q → dist h p = dist h q → p = q.
Proof using home_range. intros. dlia. Qed.

Lemma dist_nxt i p : inr i → inr p → p ≠ i → dist (nxt i) p = dist i p - 1.
Proof using home_range. intros Hi Hp Hne. destruct (nxt_spec i Hi) as [Hn ?]. dlia. Qed.

Lemma dist_nxt_r i j : inr i → inr j → nxt j ≠ i → dist i (nxt j) = dist i j + 1.
Proof using home_range. intros Hi Hj Hne. destruct (nxt_spec j Hj) as [Hn ?]. dlia. Qed.

(** ** Reading and writing positions *)

Lemma ent_put es p q e : Z.of_nat (length es) = N → inr p → inr q →
  ent (put es p e) q = if decide (p = q) then e else ent es q.
Proof using.
  unfold ent, put, inr. intros HN Hp Hq. case_decide as E.
  - subst q. apply list_lookup_total_insert_eq. lia.
  - apply list_lookup_total_insert_ne. lia.
Qed.

Lemma key_put es p q e : Z.of_nat (length es) = N → inr p → inr q →
  key_at (put es p e) q = if decide (p = q) then e.1 else key_at es q.
Proof using. intros. unfold key_at. rewrite ent_put by done. by case_decide. Qed.

Lemma length_put es p e : length (put es p e) = length es.
Proof using. apply length_insert. Qed.

(** ** The probe loop *)

Lemma probe_stops es k e : inr e → key_at es e = 0 → ∀ fuel i, inr i → dist i e < Z.of_nat fuel →
  ∃ p, probe fuel es i k = Some p ∧ inr p ∧ (key_at es p = k ∨ key_at es p = 0) ∧
    ∀ q, inr q → dist i q < dist i p → key_at es q ≠ k ∧ key_at es q ≠ 0.
Proof using home_range.
  intros He Hz. induction fuel as [|f IH]; intros i Hi Hf; [dlia|]. simpl.
  destruct ((key_at es i =? k) || (key_at es i =? 0)) eqn:E.
  - exists i. split_and!; [done|done|lia|]. intros q Hqr Hd. exfalso. dlia.
  - assert (e ≠ i) by (intros ->; lia).
    destruct (IH (nxt i)) as (p & Hp & Hpr & Hk & Hq); [by apply nxt_spec|rewrite dist_nxt by done; lia|].
    exists p. split_and!; [done..|]. intros q Hqr Hd. destruct (decide (q = i)) as [->|Hne]; [lia|].
    apply Hq; [done|]. assert (p ≠ i) by (intros ->; dlia). rewrite !dist_nxt by done. lia.
Qed.

Lemma probe_total es i k : has_empty es → inr i → ∃ p, probe (Z.to_nat N) es i k = Some p ∧ inr p ∧
    (key_at es p = k ∨ key_at es p = 0) ∧
    ∀ q, inr q → dist i q < dist i p → key_at es q ≠ k ∧ key_at es q ≠ 0.
Proof using home_range.
  intros (e & He & Hz) Hi. apply (probe_stops es k e He Hz); [done|].
  pose proof (dist_spec i e Hi He). unfold inr in *. lia.
Qed.

(** From its home slot a stored key is found where it is stored. *)
Lemma probe_hit es m p k : probe_wf es → k ≠ 0 → inr m → key_at es m = k →
  inr p → (key_at es p = k ∨ key_at es p = 0) →
  (∀ q, inr q → dist (home k) q < dist (home k) p → key_at es q ≠ k ∧ key_at es q ≠ 0) → p = m.
Proof using home_range.
  intros [_ Hpath Huniq] Hk Hm Hkm Hp Hkp Hq.
  destruct (Z.lt_trichotomy (dist (home k) p) (dist (home k) m)) as [Hd|[Hd|Hd]].
  - assert (key_at es p ≠ 0) by (apply (Hpath m p); [done..|rewrite Hkm; lia|by rewrite Hkm]).
    symmetry. apply Huniq; [done..|rewrite Hkm; lia|]. destruct Hkp; congruence.
  - apply (dist_inj (home k)); auto.
  - apply Hq in Hd as [? _]; done.
Qed.

(** ** Occupancy *)

Lemma rep_has_empty es m : probe_wf es → rep es m → Z.of_nat (size m) < N → has_empty es.
Proof using.
  intros [Hlen _ Huniq] Hrep Hsz.
  destruct (decide (Exists (λ e, e.1 = 0) es)) as [He|Hn].
  - apply Exists_exists in He as (e & He & Hz). apply list_elem_of_lookup in He as [i Hi].
    exists (Z.of_nat i). pose proof (lookup_lt_Some _ _ _ Hi). split; [unfold inr; lia|].
    unfold key_at, ent. rewrite Nat2Z.id. by rewrite (list_lookup_total_correct _ _ _ Hi).
  - exfalso. assert (length es.*1 <= size (dom m))%nat; [|rewrite size_dom, length_fmap in *; lia].
    assert (Hkey : ∀ i e, es !! i = Some e → key_at es (Z.of_nat i) = e.1 ∧ inr (Z.of_nat i) ∧ e.1 ≠ 0).
    { intros i e Hi. pose proof (lookup_lt_Some _ _ _ Hi). unfold key_at, ent, inr.
      rewrite Nat2Z.id, (list_lookup_total_correct _ _ _ Hi). split_and!; [done|lia|lia|].
      intros Hz. apply Hn, Exists_exists. exists e. split; [|done]. apply list_elem_of_lookup. eauto. }
    rewrite <- (size_list_to_set (C := gset Z) es.*1).
    + apply subseteq_size. intros k. rewrite elem_of_list_to_set, list_elem_of_fmap, elem_of_dom.
      intros ([k' v] & -> & He). apply list_elem_of_lookup in He as [i Hi].
      exists v. apply Hrep. destruct (Hkey _ _ Hi) as (Hk & Hir & Hnz). split; [done|].
      exists (Z.of_nat i). split; [done|]. unfold ent. by rewrite Nat2Z.id, (list_lookup_total_correct _ _ _ Hi).
    + apply NoDup_fmap_2_strong; [|apply NoDup_alt; intros i j e Hi Hj];
        [intros x y Hx Hy Hxy; apply list_elem_of_lookup in Hx as [i Hi];
         apply list_elem_of_lookup in Hy as [j Hj]|].
      * destruct (Hkey _ _ Hi) as (Hk & Hir & Hnz), (Hkey _ _ Hj) as (Hk' & Hjr & _).
        assert (Z.of_nat i = Z.of_nat j) by (apply Huniq; congruence).
        assert (i = j) by lia. congruence.
      * destruct (Hkey _ _ Hi) as (Hk & Hir & Hnz), (Hkey _ _ Hj) as (Hk' & Hjr & _).
        assert (Z.of_nat i = Z.of_nat j) by (apply Huniq; congruence). lia.
Qed.

(** What a probe for [k] from its home says about the represented map. *)
Lemma probe_rep es m k p : probe_wf es → rep es m → k ≠ 0 → inr p →
  (key_at es p = k ∨ key_at es p = 0) →
  (∀ q, inr q → dist (home k) q < dist (home k) p → key_at es q ≠ k ∧ key_at es q ≠ 0) →
  m !! k = if key_at es p =? k then Some (ent es p).2 else None.
Proof using home_range.
  intros Hwf Hrep Hk Hp Hkp Hq. destruct (Z.eqb_spec (key_at es p) k) as [E|E].
  - apply Hrep. split; [done|]. exists p. split; [done|]. unfold key_at in E. destruct (ent es p); simpl in *; congruence.
  - apply eq_None_not_Some. intros [v (_ & p' & Hp' & He)%Hrep].
    assert (p = p') as -> by (eapply probe_hit; eauto; unfold key_at; by rewrite He).
    apply E. unfold key_at. by rewrite He.
Qed.

(** ** Filling the slot the probe stopped at *)

Lemma fill_wf es k v p : probe_wf es → k ≠ 0 → inr p →
  (key_at es p = k ∨ key_at es p = 0) →
  (∀ q, inr q → dist (home k) q < dist (home k) p → key_at es q ≠ k ∧ key_at es q ≠ 0) →
  probe_wf (put es p (k, v)).
Proof using home_range.
  intros Hwf Hk Hp Hkp Hq. pose proof Hwf as [Hlen Hpath Huniq]. split.
  - by rewrite length_put.
  - intros m q Hm Hqr. rewrite !key_put by done. simpl. case_decide as E1; case_decide as E2; subst; try done.
    + intros _ Hd. by apply Hq in Hd as [_ ?].
    + apply Hpath; done.
  - intros m m' Hm Hm'. rewrite !key_put by done. simpl. case_decide as E1; case_decide as E2; subst; try done.
    + intros _ E. symmetry in E. eapply probe_hit; eauto.
    + intros _ E. symmetry. eapply probe_hit; eauto.
    + apply Huniq; done.
Qed.

Lemma fill_rep es m k v p : probe_wf es → rep es m → k ≠ 0 → inr p →
  (key_at es p = k ∨ key_at es p = 0) →
  (∀ q, inr q → dist (home k) q < dist (home k) p → key_at es q ≠ k ∧ key_at es q ≠ 0) →
  rep (put es p (k, v)) (<[k := v]> m).
Proof using home_range.
  intros Hwf Hrep Hk Hp Hkp Hq k' v'. pose proof (pw_len _ Hwf) as Hlen.
  destruct (decide (k = k')) as [->|Hne].
  - rewrite lookup_insert_eq. split.
    + intros [= ->]. split; [done|]. exists p. split; [done|]. rewrite ent_put by done. by rewrite decide_True.
    + intros (_ & q & Hqr & He). rewrite ent_put in He by done. case_decide as E; [congruence|].
      exfalso. apply E. eapply probe_hit; eauto. unfold key_at. by rewrite He.
  - rewrite lookup_insert_ne by done. rewrite (Hrep k' v'). split; intros (Hnz & q & Hqr & He); (split; [done|]);
      exists q; (split; [done|]); rewrite ent_put in * by done.
    + case_decide as E; [|done]. subst q. unfold key_at in Hkp. rewrite He in Hkp. simpl in Hkp. destruct Hkp; congruence.
    + case_decide as E; [|done]. congruence.
Qed.

(** ** Deletion by backward shift

    [shift] is the loop of [flow_table::erase]: [i] is the hole, [j] the slot
    looked at next.  [hole_inv es i j] is its invariant: every probe path is
    unbroken except possibly at the hole, and no entry strictly between the
    hole and [j] needs to pass the hole. *)

Definition stays (i j h : Z) : bool :=
  if i <=? j then (i <? h) && (h <=? j) else (i <? h) || (h <=? j).

Fixpoint shift (fuel : nat) (es : list (Z * V)) (i j : Z) : option (list (Z * V) * Z) :=
  match fuel with
  | O => None
  | S f =>
    if key_at es j =? 0 then Some (es, i)
    else if stays i j (home (key_at es j)) then shift f es i (nxt j)
    else shift f (put es i (ent es j)) j (nxt j)
  end.

Record hole_inv (es : list (Z * V)) (i j : Z) : Prop := {
  hi_len : Z.of_nat (length es) = N;
  hi_path : ∀ m p, inr m → inr p → m ≠ i → key_at es m ≠ 0 →
    dist (home (key_at es m)) p < dist (home (key_at es m)) m → key_at es p ≠ 0 ∨ p = i;
  hi_done : ∀ m, inr m → m ≠ i → key_at es m ≠ 0 → dist i m < dist i j →
    dist (home (key_at es m)) m <= dist (home (key_at es m)) i;
  hi_uniq : ∀ m m', inr m → inr m' → m ≠ i → m' ≠ i → key_at es m ≠ 0 →
    key_at es m = key_at es m' → m = m' }.

(** The entries outside the hole. *)
Definition held (es : list (Z * V)) (i : Z) (e : Z * V) : Prop :=
  e.1 ≠ 0 ∧ ∃ m, inr m ∧ m ≠ i ∧ ent es m = e.

Lemma stays_path i j h : inr i → inr j → inr h → i ≠ j →
  stays i j h = true ↔ dist h j <= dist h i.
Proof using home_range.
  intros Hi Hj Hh Hne. pose proof (dist_spec h j Hh Hj). pose proof (dist_spec h i Hh Hi).
  unfold stays, inr in *. destruct (i <=? j) eqn:E; lia.
Qed.

Lemma hole_start es i : probe_wf es → inr i → 1 < N → hole_inv es i (nxt i).
Proof using home_range.
  intros [Hlen Hpath Huniq] Hi HN. destruct (nxt_spec i Hi) as [Hn Hni]. split; [done| | |].
  - intros m p Hm Hp _ Hk Hd. left. by apply (Hpath m p).
  - intros m Hm Hne Hk Hd. exfalso. assert (dist i (nxt i) = 1) by dlia. dlia.
  - intros m m' Hm Hm' _ _. by apply Huniq.
Qed.

Lemma hole_stays es i j : hole_inv es i j → inr i → inr j → i ≠ j → key_at es j ≠ 0 → nxt j ≠ i →
  stays i j (home (key_at es j)) = true → hole_inv es i (nxt j).
Proof using home_range.
  intros [Hlen Hpath Hdone Huniq] Hi Hj Hne Hk Hnx Hst. split; try done.
  intros m Hm Hmi Hkm Hd. rewrite dist_nxt_r in Hd by done.
  destruct (decide (m = j)) as [->|Hmj].
  - apply stays_path in Hst; auto.
  - apply Hdone; [done..|]. assert (dist i m ≠ dist i j) by (intros E; apply Hmj; by eapply (dist_inj i)). lia.
Qed.

Lemma hole_move es i j : hole_inv es i j → inr i → inr j → i ≠ j → key_at es j ≠ 0 → 1 < N →
  stays i j (home (key_at es j)) = false → hole_inv (put es i (ent es j)) j (nxt j).
Proof using home_range.
  intros [Hlen Hpath Hdone Huniq] Hi Hj Hne Hk HN Hst.
  assert (Hij : dist (home (key_at es j)) i < dist (home (key_at es j)) j).
  { pose proof (stays_path i j (home (key_at es j)) Hi Hj (home_range _) Hne). rewrite Hst in *.
    destruct (Z.lt_ge_cases (dist (home (key_at es j)) i) (dist (home (key_at es j)) j)); [done|].
    exfalso. assert (false = true) by tauto. done. }
  split.
  - by rewrite length_put.
  - intros m p Hm Hp Hmj. rewrite !key_put by done. fold (key_at es j).
    case_decide as E1; case_decide as E2; subst; try tauto.
    + intros _ Hd. destruct (Hpath j p) as [?| ->]; auto; lia.
    + intros Hkm Hd. destruct (Hpath m p) as [?| ->]; auto; congruence.
  - intros m Hm Hmj _ Hd. exfalso. destruct (nxt_spec j Hj) as [Hn ?].
    assert (dist j (nxt j) = 1) by dlia. dlia.
  - intros m m' Hm Hm' Hmj Hmj'. rewrite !key_put by done. fold (key_at es j).
    case_decide as E1; case_decide as E2; subst; try tauto.
    + intros _ E. exfalso. apply Hmj'. symmetry. apply Huniq; auto.
    + intros _ E. exfalso. apply Hmj. apply Huniq; auto; congruence.
    + by apply Huniq.
Qed.

Lemma held_move es i j e : Z.of_nat (length es) = N → inr i → inr j → i ≠ j →
  held (put es i (ent es j)) j e ↔ held es i e.
Proof using.
  intros Hlen Hi Hj Hne. unfold held. split; intros (Hk & m & Hm & Hmj & He); (split; [done|]).
  - rewrite ent_put in He by done. case_decide; [exists j|exists m]; naive_solver.
  - destruct (decide (m = j)) as [->|]; [exists i|exists m]; rewrite ent_put by done; case_decide; naive_solver.
Qed.

(** The loop ends, at a table whose only broken slot is the final hole and
    which holds the same entries outside it. *)
Lemma shift_spec e : inr e → 1 < N → ∀ fuel es i j,
  hole_inv es i j → inr i → inr j → i ≠ j → i ≠ e → key_at es e = 0 →
  dist i j <= dist i e → dist j e < Z.of_nat fuel →
  ∃ es' i' j', shift fuel es i j = Some (es', i') ∧ hole_inv es' i' j' ∧ inr i' ∧ inr j' ∧ i' ≠ j' ∧
    key_at es' j' = 0 ∧ ∀ x, held es' i' x ↔ held es i x.
Proof using home_range.
  intros He HN. induction fuel as [|f IH]; intros es i j Hinv Hi Hj Hij Hie Hz Hd Hf; [dlia|]. simpl.
  destruct (Z.eqb_spec (key_at es j) 0) as [E|E]; [by exists es, i, j|].
  assert (j ≠ e) by (intros ->; congruence).
  destruct (nxt_spec j Hj) as [Hn Hnj].
  assert (Hfuel : dist (nxt j) e < Z.of_nat f) by (rewrite dist_nxt by done; lia).
  destruct (stays i j (home (key_at es j))) eqn:Est.
  - assert (nxt j ≠ i) by (clear Est E Hinv IH; intros Eq; dlia).
    apply IH; auto; [by apply hole_stays|].
    rewrite dist_nxt_r by done. assert (dist i j ≠ dist i e) by (intros Eq; by apply (dist_inj i) in Eq). lia.
  - assert (j ≠ nxt j) by lia.
    destruct (IH (put es i (ent es j)) j (nxt j)) as (es' & i' & j' & Hs & Hrest); auto.
    + by apply hole_move.
    + rewrite key_put by (done || apply (hi_len _ _ _ Hinv)). by case_decide.
    + clear Est E Hinv IH. dlia.
    + exists es', i', j'. split; [done|]. destruct Hrest as (? & ? & ? & ? & ? & Hheld). split_and!; try done.
      intros x. rewrite Hheld. apply held_move; auto. by apply (hi_len _ _ _ Hinv).
Qed.

(** Emptying the final hole restores the invariant. *)
Lemma hole_close es i j v : hole_inv es i j → inr i → inr j → i ≠ j → key_at es j = 0 →
  probe_wf (put es i (0, v)).
Proof using home_range.
  intros [Hlen Hpath Hdone Huniq] Hi Hj Hij Hz. split; [by rewrite length_put| |].
  - intros m p Hm Hp. rewrite !key_put by done. simpl. case_decide as E1; case_decide as E2; subst; try done.
    + intros Hk Hd. exfalso.
      assert (Hlt : ¬ dist p m < dist p j) by (intros Hl; apply Hdone in Hl; auto; lia).
      assert (m ≠ j) by congruence.
      assert (Hne : dist p m ≠ dist p j) by (intros Eq; by apply (dist_inj p) in Eq).
      destruct (Hpath m j) as [?|?]; auto.
      pose proof (home_range (key_at es m)). clear Hk Hpath Hdone Huniq. dlia.
    + intros Hk Hd. destruct (Hpath m p); auto.
  - intros m m' Hm Hm'. rewrite !key_put by done. simpl. case_decide as E1; case_decide as E2; subst; try done.
    all: intros; (congruence || by apply Huniq).
Qed.

Lemma hole_close_rep es i j v (m : gmap Z V) : hole_inv es i j → inr i →
  (∀ k' v', m !! k' = Some v' ↔ held es i (k', v')) → rep (put es i (0, v)) m.
Proof using.
  intros Hinv Hi Hm k' v'. pose proof (hi_len _ _ _ Hinv) as Hlen. rewrite Hm. split.
  - intros (Hk & p & Hp & Hpi & He). split; [done|]. exists p.
    split; [done|]. rewrite ent_put by done. by rewrite decide_False.
  - intros (Hk & p & Hp & He). rewrite ent_put in He by done. case_decide as E; [congruence|].
    split; [done|]. exists p. naive_solver.
Qed.

Lemma held_start es m i : probe_wf es → rep es m → inr i → key_at es i ≠ 0 →
  ∀ k' v', delete (key_at es i) m !! k' = Some v' ↔ held es i (k', v').
Proof using.
  intros [Hlen _ Huniq] Hrep Hi Hk k' v'. rewrite lookup_delete_Some, (Hrep k' v'). split.
  - intros (Hne & Hk' & p & Hp & He). split; [done|]. exists p. split_and!; [done| |done].
    intros ->. apply Hne. unfold key_at. by rewrite He.
  - intros (Hk' & p & Hp & Hpi & He). split; [|by eauto].
    intros E. apply Hpi, Huniq; auto; unfold key_at in *; rewrite He; simpl in *; congruence.
Qed.

End probing.
