(* ===== verification/FlowTable.v ===== *)
(** * flow_table (src/tcp_stack.cpp)

    The connection lookup of the inbound thread: open addressing with linear
    probing and backward-shift deletion over a power-of-two array.  The three
    loops are translated as they are written, with a fuel equal to the number
    of slots; running out of fuel ([None]) stands for a loop that never ends,
    and the theorems show it never happens.  [flow_rep cap t m] says that the
    table [t], built for [cap] connections, stands for the finite map [m];
    [find], [insert] and [erase] are shown to be lookup, insertion and deletion
    in that map. *)

From S2P Require Import Prelude Probing.

(** [std::bit_ceil]: the smallest power of two that is not below [n]. *)
Definition bit_ceil (n : Z) : Z := 2 ^ Z.log2_up n.

Module flow_table.

Record flow_table := { entries_ : list (Z * Z); mask_ : Z }.

Definition npos : Z := 2 ^ 32 - 1.

Definition make (capacity : Z) : flow_table :=
  let n := bit_ceil (Z.max (capacity * 2) 2) in
  {| entries_ := replicate (Z.to_nat n) (0, 0); mask_ := n - 1 |}.

Definition key (peer_ip peer_port local_port : Z) : Z :=
  Z.lor (Z.lor (Z.shiftl peer_ip 32) (Z.shiftl peer_port 16)) local_port.

Definition home (mask k : Z) : Z :=
  let h := u64 (k * 0x9e3779b97f4a7c15) in
  Z.land (Z.lxor h (Z.shiftr h 32)) mask.

Definition step (mask i : Z) : Z := Z.land (i + 1) mask.

Fixpoint find_loop (fuel : nat) (es : list (Z * Z)) (mask i k : Z) : option Z :=
  match fuel with
  | O => None
  | S f =>
    if key_at es i =? k then Some (ent es i).2
    else if key_at es i =? 0 then Some npos
    else find_loop f es mask (step mask i) k
  end.

Definition find (t : flow_table) (k : Z) : Z :=
  default npos (find_loop (length (entries_ t)) (entries_ t) (mask_ t) (home (mask_ t) k) k).

(** The [while] loop of [insert]: the slot the pair is stored in. *)
Fixpoint insert_loop (fuel : nat) (es : list (Z * Z)) (mask i k : Z) : option Z :=
  match fuel with
  | O => None
  | S f =>
    if negb (key_at es i =? 0) && negb (key_at es i =? k) then insert_loop f es mask (step mask i) k
    else Some i
  end.

Definition insert (t : flow_table) (k value : Z) : flow_table :=
  match insert_loop (length (entries_ t)) (entries_ t) (mask_ t) (home (mask_ t) k) k with
  | Some i => {| entries_ := put (entries_ t) i (k, value); mask_ := mask_ t |}
  | None => t
  end.

(** The first loop of [erase]: the slot holding [k], or [None] for the early
    return on an empty slot. *)
Fixpoint locate_loop (fuel : nat) (es : list (Z * Z)) (mask i k : Z) : option (option Z) :=
  match fuel with
  | O => None
  | S f =>
    if negb (key_at es i =? k) then
      if key_at es i =? 0 then Some None
      else locate_loop f es mask (step mask i) k
    else Some (Some i)
  end.

(** The second loop of [erase]: [i] is the hole, [j] the slot looked at. *)
Fixpoint shift_loop (fuel : nat) (es : list (Z * Z)) (mask i j : Z) : option (list (Z * Z) * Z) :=
  match fuel with
  | O => None
  | S f =>
    if negb (key_at es j =? 0) then
      let h := home mask (key_at es j) in
      let stays := if i <=? j then (i <? h) && (h <=? j) else (i <? h) || (h <=? j) in
      if negb stays then shift_loop f (put es i (ent es j)) mask j (step mask j)
      else shift_loop f es mask i (step mask j)
    else Some (es, i)
  end.

Definition erase_entries (es : list (Z * Z)) (mask k : Z) : option (list (Z * Z)) :=
  match locate_loop (length es) es mask (home mask k) k with
  | None => None
  | Some None => Some es
  | Some (Some i) =>
    match shift_loop (length es) es mask i (step mask i) with
    | None => None
    | Some (es', hole) => Some (put es' hole (0, 0))
    end
  end.

Definition erase (t : flow_table) (k : Z) : flow_table :=
  match erase_entries (entries_ t) (mask_ t) k with
  | Some es => {| entries_ := es; mask_ := mask_ t |}
  | None => t
  end.

(** ** The represented map *)

Record flow_rep (cap : Z) (t : flow_table) (m : gmap Z Z) : Prop := {
  fr_pow : ∃ b, 1 <= b ∧ mask_ t + 1 = 2 ^ b;
  fr_cap : 0 <= 2 * cap <= mask_ t + 1;
  fr_wf : probe_wf (mask_ t + 1) (home (mask_ t)) (entries_ t);
  fr_rep : rep (mask_ t + 1) (entries_ t) m;
  fr_size : Z.of_nat (size m) <= cap }.

Lemma land_mask b mask x : 0 <= b → mask + 1 = 2 ^ b → Z.land x mask = x mod (mask + 1).
Proof.
  intros Hb Hm. rewrite Hm. replace mask with (Z.ones b) by (rewrite Z.ones_equiv; lia).
  by apply Z.land_ones.
Qed.

Lemma home_inr b mask : 0 <= b → mask + 1 = 2 ^ b → ∀ k, inr (mask + 1) (home mask k).
Proof.
  intros Hb Hm k. unfold home, inr. rewrite (land_mask b) by done. apply Z.mod_pos_bound. lia.
Qed.

Lemma step_nxt b mask i : 0 <= b → mask + 1 = 2 ^ b → inr (mask + 1) i → step mask i = nxt (mask + 1) i.
Proof.
  intros Hb Hm Hi. unfold step, nxt, inr in *. rewrite (land_mask b) by done.
  destruct (Z.eqb_spec (i + 1) (mask + 1)) as [E|E].
  - rewrite E. apply Z.mod_same. lia.
  - apply Z.mod_small. lia.
Qed.

Section loops.
Context (b mask : Z) (Hb : 0 <= b) (Hm : mask + 1 = 2 ^ b).

Lemma find_loop_probe fuel es i k : inr (mask + 1) i →
  find_loop fuel es mask i k =
  (λ p, if key_at es p =? k then (ent es p).2 else npos) <$> probe (mask + 1) fuel es i k.
Proof using Hb Hm.
  revert i. induction fuel as [|f IH]; intros i Hi; [done|]. simpl.
  destruct (key_at es i =? k) eqn:E; simpl; [by rewrite E|].
  destruct (key_at es i =? 0) eqn:E0; simpl; [by rewrite E|].
  rewrite (step_nxt b) by done. apply IH. by apply nxt_spec.
Qed.

Lemma insert_loop_probe fuel es i k : inr (mask + 1) i →
  insert_loop fuel es mask i k = probe (mask + 1) fuel es i k.
Proof using Hb Hm.
  revert i. induction fuel as [|f IH]; intros i Hi; [done|]. simpl.
  destruct (key_at es i =? k), (key_at es i =? 0); simpl; try done.
  rewrite (step_nxt b) by done. apply IH. by apply nxt_spec.
Qed.

Lemma locate_loop_probe fuel es i k : inr (mask + 1) i →
  locate_loop fuel es mask i k =
  (λ p, if key_at es p =? k then Some p else None) <$> probe (mask + 1) fuel es i k.
Proof using Hb Hm.
  revert i. induction fuel as [|f IH]; intros i Hi; [done|]. simpl.
  destruct (key_at es i =? k) eqn:E; simpl; [by rewrite E|].
  destruct (key_at es i =? 0) eqn:E0; simpl; [by rewrite E|].
  rewrite (step_nxt b) by done. apply IH. by apply nxt_spec.
Qed.

Lemma shift_loop_shift fuel es i j : inr (mask + 1) j →
  shift_loop fuel es mask i j = shift (mask + 1) (home mask) fuel es i j.
Proof using Hb Hm.
  revert es i j. induction fuel as [|f IH]; intros es i j Hj; [done|]. simpl.
  destruct (key_at es j =? 0); simpl; [done|]. fold (stays i j (home mask (key_at es j))).
  rewrite (step_nxt b) by done.
  destruct (stays i j (home mask (key_at es j))); simpl; apply IH; by apply nxt_spec.
Qed.
End loops.

(** ** Facts about [flow_rep] *)

Lemma flow_rep_empty cap t m : flow_rep cap t m → has_empty (mask_ t + 1) (entries_ t).
Proof.
  intros [(b & Hb & Hp) Hcap Hwf Hrep Hsz]. eapply rep_has_empty; eauto.
  pose proof (Z.pow_pos_nonneg 2 b). lia.
Qed.

(** Every probe for a real key ends, at the key or at the first empty slot. *)
Lemma flow_probe cap t m k : flow_rep cap t m → k ≠ 0 →
  ∃ p, probe (mask_ t + 1) (length (entries_ t)) (entries_ t) (home (mask_ t) k) k = Some p ∧
    inr (mask_ t + 1) p ∧ (key_at (entries_ t) p = k ∨ key_at (entries_ t) p = 0) ∧
    (∀ q, inr (mask_ t + 1) q →
       dist (mask_ t + 1) (home (mask_ t) k) q < dist (mask_ t + 1) (home (mask_ t) k) p →
       key_at (entries_ t) q ≠ k ∧ key_at (entries_ t) q ≠ 0) ∧
    m !! k = if key_at (entries_ t) p =? k then Some (ent (entries_ t) p).2 else None.
Proof.
  intros Hr Hk. pose proof (flow_rep_empty _ _ _ Hr) as He. destruct Hr as [(b & Hb & Hp) Hcap Hwf Hrep Hsz].
  assert (Hh := home_inr b (mask_ t) ltac:(lia) Hp).
  destruct (probe_total _ _ Hh (entries_ t) (home (mask_ t) k) k He (Hh k)) as (p & Hpr & Hi & Hkp & Hq).
  exists p. replace (length (entries_ t)) with (Z.to_nat (mask_ t + 1)) by (pose proof (pw_len _ _ _ Hwf); lia).
  split_and!; [done..|]. eapply probe_rep; eauto.
Qed.
(** ** The three operations against the map *)

Lemma find_total cap t m k : flow_rep cap t m → k ≠ 0 →
  find_loop (length (entries_ t)) (entries_ t) (mask_ t) (home (mask_ t) k) k = Some (default npos (m !! k)).
Proof.
  intros Hr Hk. destruct (flow_probe _ _ _ _ Hr Hk) as (p & Hp & Hi & _ & _ & Hl).
  destruct Hr as [(b & Hb & Hpow) _ _ _ _].
  rewrite (find_loop_probe b), Hp by (try lia; apply (home_inr b); lia). simpl. rewrite Hl.
  by destruct (key_at (entries_ t) p =? k).
Qed.

Lemma find_spec cap t m k : flow_rep cap t m → k ≠ 0 → find t k = default npos (m !! k).
Proof. intros Hr Hk. unfold find. by rewrite (find_total _ _ _ _ Hr Hk). Qed.

Lemma insert_spec cap t m k v : flow_rep cap t m → k ≠ 0 → Z.of_nat (size (<[k := v]> m)) <= cap →
  is_Some (insert_loop (length (entries_ t)) (entries_ t) (mask_ t) (home (mask_ t) k) k) ∧
  flow_rep cap (insert t k v) (<[k := v]> m).
Proof.
  intros Hr Hk Hsz. destruct (flow_probe _ _ _ _ Hr Hk) as (p & Hp & Hi & Hkp & Hq & _).
  destruct Hr as [(b & Hb & Hpow) Hcap Hwf Hrep _].
  assert (Hh := home_inr b (mask_ t) ltac:(lia) Hpow).
  unfold insert. rewrite (insert_loop_probe b), Hp by (auto; lia). split; [done|].
  split; simpl; [by eauto|done| | |done].
  - by apply fill_wf.
  - eapply fill_rep; eauto.
Qed.

Lemma erase_spec cap t m k : flow_rep cap t m → k ≠ 0 →
  is_Some (erase_entries (entries_ t) (mask_ t) k) ∧ flow_rep cap (erase t k) (delete k m).
Proof.
  intros Hr Hk. pose proof (flow_rep_empty _ _ _ Hr) as (e & He & Hez).
  destruct (flow_probe _ _ _ _ Hr Hk) as (p & Hp & Hi & Hkp & _ & Hl).
  pose proof Hr as [(b & Hb & Hpow) Hcap Hwf Hrep Hsz].
  assert (HN : 1 < mask_ t + 1) by (rewrite Hpow; pose proof (Z.pow_le_mono_r 2 1 b); lia).
  assert (Hh := home_inr b (mask_ t) ltac:(lia) Hpow).
  unfold erase, erase_entries. rewrite (locate_loop_probe b), Hp by (auto; lia). simpl.
  destruct (Z.eqb_spec (key_at (entries_ t) p) k) as [E|E].
  2:{ split; [done|]. rewrite delete_id by done. by destruct t. }
  assert (Hpe : p ≠ e) by (intros ->; lia).
  destruct (nxt_spec _ p Hi) as [Hn Hne]. rewrite (step_nxt b), (shift_loop_shift b) by (lia || done).
  destruct (shift_spec _ _ Hh e He HN (length (entries_ t)) (entries_ t) p (nxt (mask_ t + 1) p))
    as (es' & i' & j' & Hs & Hinv & Hi' & Hj' & Hij & Hz & Hheld); try tauto; try lia.
  - by apply hole_start.
  - pose proof (dist_spec _ p e Hi He). pose proof (dist_spec _ p (nxt (mask_ t + 1) p) Hi Hn). unfold inr in *. lia.
  - pose proof (dist_spec _ (nxt (mask_ t + 1) p) e Hn He). pose proof (pw_len _ _ _ Hwf). lia.
  - rewrite Hs. split; [done|]. split; simpl; [by eauto|done| | |].
    + by eapply hole_close.
    + eapply hole_close_rep; eauto. intros k' v'. rewrite Hheld, <- E. eapply held_start; eauto. congruence.
    + pose proof (map_size_delete k m). destruct (m !! k); simpl in *; lia.
Qed.

Lemma make_spec cap : 1 <= cap → flow_rep cap (make cap) ∅.
Proof.
  intros Hc. unfold make, bit_ceil. set (n := Z.max (cap * 2) 2).
  pose proof (Z.log2_up_spec n ltac:(lia)). pose proof (Z.log2_up_le_mono 2 n ltac:(lia)) as Hl.
  change (Z.log2_up 2) with 1 in Hl. set (b := Z.log2_up n) in *.
  assert (Hk : ∀ q, inr (2 ^ b) q → ent (replicate (Z.to_nat (2 ^ b)) (0, 0)) q = (0, 0)).
  { intros q Hq. apply lookup_total_replicate_2. unfold inr in Hq. lia. }
  assert (Hm : 2 ^ b - 1 + 1 = 2 ^ b) by lia.
  split; simpl; rewrite ?Hm.
  - exists b. lia.
  - lia.
  - split; [rewrite length_replicate; lia| |]; intros x y Hx Hy; unfold key_at; rewrite !Hk by done; done.
  - intros k v. rewrite lookup_empty. split; [done|]. intros (Hnz & q & Hq & Eq). rewrite Hk in Eq by done. congruence.
  - rewrite map_size_empty. lia.
Qed.

(** ** Keys *)

Lemma key_arith ip pp lp : is_u32 ip → is_u16 pp → is_u16 lp →
  key ip pp lp = ip * 2 ^ 32 + pp * 2 ^ 16 + lp.
Proof.
  intros Hi Hp Hl. unfold key. rewrite lor_shift_add by (rewrite ?Z.shiftl_mul_pow2 by lia; mlia).
  replace (ip * 2 ^ 32 + Z.shiftl pp 16) with ((ip * 2 ^ 16 + pp) * 2 ^ 16)
    by (rewrite Z.shiftl_mul_pow2 by lia; lia).
  rewrite lor_add_shift by mlia. lia.
Qed.

Lemma key_inj ip pp lp ip' pp' lp' : is_u32 ip → is_u16 pp → is_u16 lp →
  is_u32 ip' → is_u16 pp' → is_u16 lp' →
  key ip pp lp = key ip' pp' lp' → ip = ip' ∧ pp = pp' ∧ lp = lp'.
Proof. intros. rewrite !key_arith in * by done. mlia. Qed.

Lemma key_nonzero ip pp lp : is_u32 ip → is_u16 pp → is_u16 lp → ip ≠ 0 → key ip pp lp ≠ 0.
Proof. intros. rewrite key_arith by done. mlia. Qed.
(** ** Histories of operations *)

Inductive op := Insert (k v : Z) | Erase (k : Z).

Definition run_op (t : flow_table) (o : op) : flow_table :=
  match o with Insert k v => insert t k v | Erase k => erase t k end.
Definition spec_op (m : gmap Z Z) (o : op) : gmap Z Z :=
  match o with Insert k v => <[k := v]> m | Erase k => delete k m end.
Definition op_key (o : op) : Z := match o with Insert k _ | Erase k => k end.

(** Real keys only, and never more than [cap] connections at a time. *)
Fixpoint ops_ok (cap : Z) (m : gmap Z Z) (os : list op) : Prop :=
  match os with
  | [] => True
  | o :: os => op_key o ≠ 0 ∧ Z.of_nat (size (spec_op m o)) <= cap ∧ ops_ok cap (spec_op m o) os
  end.

Lemma run_ops_rep cap os t m : flow_rep cap t m → ops_ok cap m os →
  flow_rep cap (foldl run_op t os) (foldl spec_op m os).
Proof.
  revert t m. induction os as [|[k v|k] os IH]; intros t m Hr; [done| |]; simpl; intros (Hk & Hsz & Hos);
    apply IH; try done.
  - by apply insert_spec.
  - by apply erase_spec.
Qed.

(** C14. [flow_table] refines a finite map: after any history of [insert] and
    [erase] calls on a table built for [cap] connections, [find] of any real
    key returns the value the map holds for it and [npos] if it holds none,
    and the search loop ends. *)
Theorem flow_table_refines_map (cap : Z) (os : list op) (k : Z) :
  1 <= cap → ops_ok cap ∅ os → k ≠ 0 →
  let t := foldl run_op (make cap) os in
  find t k = default npos (foldl spec_op ∅ os !! k) ∧
  is_Some (find_loop (length (entries_ t)) (entries_ t) (mask_ t) (home (mask_ t) k) k).
Proof.
  intros Hc Hos Hk t. assert (Hr : flow_rep cap t (foldl spec_op ∅ os)) by (apply run_ops_rep; [by apply make_spec|done]).
  split; [by apply (find_spec cap)|]. rewrite (find_total cap _ _ _ Hr Hk). done.
Qed.

(** Three keys that collide in one run, then the middle one erased. *)
Lemma flow_table_refines_map_witness :
  let os := [Insert 5 1; Insert 13 2; Insert 21 3; Erase 13] in
  let t := foldl run_op (make 3) os in
  (find t 5 = 1 ∧ find t 13 = npos ∧ find t 21 = 3) ∧
  is_Some (find_loop (length (entries_ t)) (entries_ t) (mask_ t) (home (mask_ t) 21) 21).
Proof.
  split; [repeat split; vm_compute; reflexivity|].
  apply (flow_table_refines_map 3 [Insert 5 1; Insert 13 2; Insert 21 3; Erase 13] 21); [lia| |lia].
  simpl. repeat split; vm_compute; discriminate.
Defined.

(** Deleting with the backward shift ends and is exact: on a table that
    stands for [m], [erase] of a real key terminates and leaves a table that
    stands for [m] without that key, so every other connection is still
    found and the probe-path invariant is kept without tombstones. *)
Theorem flow_erase_exact (cap : Z) (t : flow_table) (m : gmap Z Z) (k k' : Z) :
  flow_rep cap t m → k ≠ 0 → k' ≠ 0 →
  is_Some (erase_entries (entries_ t) (mask_ t) k) ∧
  probe_wf (mask_ t + 1) (home (mask_ t)) (entries_ (erase t k)) ∧
  find (erase t k) k' = if decide (k = k') then npos else find t k'.
Proof.
  intros Hr Hk Hk'. destruct (erase_spec _ _ _ _ Hr Hk) as [Hs Hr']. split; [done|]. split.
  - pose proof (fr_wf _ _ _ Hr') as Hw. replace (mask_ t) with (mask_ (erase t k)); [done|].
    unfold erase. by destruct (erase_entries (entries_ t) (mask_ t) k).
  - rewrite (find_spec _ _ _ _ Hr' Hk'), (find_spec _ _ _ _ Hr Hk'), lookup_delete. by case_decide.
Qed.

Lemma flow_erase_exact_witness :
  find (erase (insert (insert (make 2) 7 1) 9 2) 7) 9 = find (insert (insert (make 2) 7 1) 9 2) 9.
Proof.
  refine (proj2 (proj2 (flow_erase_exact 2 (insert (insert (make 2) 7 1) 9 2) (<[9 := 2]> (<[7 := 1]> ∅)) 7 9 _ _ _)));
    [|lia|lia].
  apply insert_spec; [apply insert_spec; [by apply make_spec|lia|vm_compute; discriminate]|lia|vm_compute; discriminate].
Defined.
End flow_table.
