(* ===== verification/SeqArith.v ===== *)
(** * Sequence numbers and the send window (src/tcp_connection.h)

    RFC 793 modular comparisons on 32-bit sequence numbers, the packing of
    {snd_una, window} into the one 64-bit atomic the two threads share, and
    [window_space] (src/tcp_stack.cpp).  The bridge lemmas relate the modular
    tests to the order of unbounded stream positions: a 32-bit number is the
    image [u32 x] of a position [x], and within half the sequence space the
    modular test decides the order of the positions. *)

From S2P Require Import Prelude.

Definition seq_lt (a b : Z) : bool := s32 (u32 (a - b)) <? 0.
Definition seq_leq (a b : Z) : bool := s32 (u32 (a - b)) <=? 0.
Definition seq_gt (a b : Z) : bool := seq_lt b a.
Definition seq_geq (a b : Z) : bool := seq_leq b a.

Definition pack_window (una wnd : Z) : Z := Z.lor (Z.shiftl una 32) wnd.
Definition window_una (w : Z) : Z := u32 (Z.shiftr w 32).
Definition window_size (w : Z) : Z := u32 w.

(** Bytes the peer's window still has room for. *)
Definition window_space (window snd_nxt : Z) : Z :=
  let right_edge := u32 (window_una window + window_size window) in
  let space := s32 (u32 (right_edge - snd_nxt)) in
  if 0 <? space then space else 0.

(** ** Modular order and stream positions *)

Lemma s32_range x : - 2 ^ 31 <= s32 (u32 x) < 2 ^ 31.
Proof. mlia. Qed.

Lemma s32_sub x y : - 2 ^ 31 <= x - y < 2 ^ 31 → s32 (u32 (u32 x - u32 y)) = x - y.
Proof. intros H. rewrite u32_sub_l, u32_sub_r. mlia. Qed.

Lemma seq_lt_pos x y : - 2 ^ 31 <= x - y < 2 ^ 31 → seq_lt (u32 x) (u32 y) = (x <? y).
Proof. intros H. unfold seq_lt. rewrite s32_sub by done. lia. Qed.
Lemma seq_leq_pos x y : - 2 ^ 31 <= x - y < 2 ^ 31 → seq_leq (u32 x) (u32 y) = (x <=? y).
Proof. intros H. unfold seq_leq. rewrite s32_sub by done. lia. Qed.
Lemma seq_gt_pos x y : - 2 ^ 31 < x - y <= 2 ^ 31 → seq_gt (u32 x) (u32 y) = (y <? x).
Proof. intros H. apply seq_lt_pos. lia. Qed.
Lemma seq_geq_pos x y : - 2 ^ 31 < x - y <= 2 ^ 31 → seq_geq (u32 x) (u32 y) = (y <=? x).
Proof. intros H. apply seq_leq_pos. lia. Qed.

(** Two 32-bit numbers are [d] apart in exactly one way within half the space. *)
Lemma seq_lt_diff a b : is_u32 a → is_u32 b → seq_lt a b = true ↔ 2 ^ 31 <= u32 (a - b).
Proof. intros. unfold seq_lt. mlia. Qed.
Lemma seq_gt_diff a b : is_u32 a → is_u32 b → seq_gt a b = true ↔ 2 ^ 31 <= u32 (b - a).
Proof. intros. by apply seq_lt_diff. Qed.
Lemma seq_leq_refl a : is_u32 a → seq_leq a a = true.
Proof. intros. unfold seq_leq. mlia. Qed.

(** ** The packed window *)

Lemma pack_window_arith una wnd : is_u32 wnd → pack_window una wnd = una * 2 ^ 32 + wnd.
Proof. intros. apply lor_shift_add; mlia. Qed.

Lemma window_una_pack una wnd : is_u32 una → is_u32 wnd → window_una (pack_window una wnd) = una.
Proof.
  intros Hu Hw. unfold window_una. rewrite pack_window_arith, Z.shiftr_div_pow2 by (done || lia).
  rewrite Z.div_add_l, Z.div_small by mlia. rewrite Z.add_0_r. by apply u32_id.
Qed.

Lemma window_size_pack una wnd : is_u32 una → is_u32 wnd → window_size (pack_window una wnd) = wnd.
Proof. intros Hu Hw. unfold window_size. rewrite pack_window_arith by done. mlia. Qed.

Lemma pack_window_range una wnd : is_u32 una → is_u32 wnd → is_u64 (pack_window una wnd).
Proof. intros Hu Hw. rewrite pack_window_arith by done. mlia. Qed.

Lemma window_space_range w nxt : 0 <= window_space w nxt < 2 ^ 31.
Proof.
  unfold window_space. match goal with |- context [s32 (u32 ?x)] => pose proof (s32_range x) end.
  split_ifs; lia.
Qed.

(** [window_space] for a sender at stream position [nxt] whose peer has
    acknowledged [una]. *)
Lemma window_space_pos una nxt wnd : is_u32 wnd → - 2 ^ 31 <= una + wnd - nxt < 2 ^ 31 →
  window_space (pack_window (u32 una) wnd) (u32 nxt) = Z.max 0 (una + wnd - nxt).
Proof.
  intros Hw Hr. unfold window_space. rewrite window_una_pack, window_size_pack by auto using u32_range.
  rewrite u32_add_l, s32_sub by done. split_ifs; lia.
Qed.

(** ** Properties *)

(** Within half of the sequence space the RFC 793 comparisons decide
    the order of stream positions, whatever the wrap-around: for positions [x]
    and [y] less than 2^31 apart, [seq_lt], [seq_leq], [seq_gt] and [seq_geq]
    of their 32-bit images are [<], [<=], [>] and [>=] of the positions. *)
Theorem seq_comparisons_decide_order (x y : Z) : - 2 ^ 31 < x - y < 2 ^ 31 →
  seq_lt (u32 x) (u32 y) = (x <? y) ∧ seq_leq (u32 x) (u32 y) = (x <=? y) ∧
  seq_gt (u32 x) (u32 y) = (x >? y) ∧ seq_geq (u32 x) (u32 y) = (x >=? y).
Proof.
  intros H. rewrite seq_lt_pos, seq_leq_pos, seq_gt_pos, seq_geq_pos by lia. lia.
Qed.

(** Across the wrap-around at 2^32. *)
Lemma seq_comparisons_decide_order_witness :
  seq_lt 4294967290 10 = true ∧ seq_gt 4294967290 10 = false.
Proof.
  destruct (seq_comparisons_decide_order 4294967290 (2 ^ 32 + 10) ltac:(lia)) as (H1 & _ & H2 & _).
  split; [exact H1|exact H2].
Defined.

(** The window published to the outbound thread is exact: what
    [pack_window] stores in the shared 64-bit word is read back unchanged by
    [window_una] and [window_size], and [window_space] then yields the peer's
    window minus the bytes in flight, never a negative number and never more
    than the window. *)
Theorem published_window_is_exact (una flight wnd : Z) :
  is_u32 wnd → 0 <= flight < 2 ^ 31 → wnd < 2 ^ 31 →
  window_una (pack_window (u32 una) wnd) = u32 una ∧ window_size (pack_window (u32 una) wnd) = wnd ∧
  window_space (pack_window (u32 una) wnd) (u32 (una + flight)) = Z.max 0 (wnd - flight).
Proof.
  intros Hw Hf Hb. rewrite window_una_pack, window_size_pack by auto using u32_range.
  split_and!; [done..|]. rewrite window_space_pos by (done || mlia). lia.
Qed.

Lemma published_window_is_exact_witness :
  window_space (pack_window (u32 4294967000) 1000) (u32 (4294967000 + 400)) = 600.
Proof. apply (published_window_is_exact 4294967000 400 1000); unfold is_u32; lia. Defined.
