(* ===== verification/Dpdk.v ===== *)
(** * The DPDK interface the library is written against

    DPDK itself is not part of the repository: its functions are operations of
    the class [DpdkOps] over an abstract environment [E] (the mempools, the
    device queues, the random state), and what the library relies on is the
    class [DpdkLaws], stated from DPDK's API documentation.  Every component is
    modelled over an arbitrary instance, and its theorems are proved against
    the laws.  [sim] is a concrete instance (bounded pool, RFC 1071 checksums)
    that discharges the laws, so no theorem rests on laws that cannot hold.

    Only data of DPDK is defined outright: the fields of [rte_mbuf] the library
    reads, and the protocol numbers its headers define. *)

From S2P Require Import Prelude.

(** ** Protocol constants (rte_ether.h, rte_ip.h, rte_tcp.h, rte_arp.h) *)

Definition RTE_ETHER_TYPE_IPV4 : Z := 0x0800.
Definition RTE_ETHER_TYPE_ARP : Z := 0x0806.
Definition RTE_ETHER_ADDR_LEN : Z := 6.
Definition RTE_ETHER_MTU : Z := 1500.
Definition RTE_IPV4_VHL_DEF : Z := 0x45.
Definition RTE_IPV4_HDR_MF_FLAG : Z := 0x2000.
Definition RTE_IPV4_HDR_OFFSET_MASK : Z := 0x1fff.
Definition IPPROTO_TCP : Z := 6.
Definition IPPROTO_UDP : Z := 17.
Definition RTE_TCP_FIN_FLAG : Z := 0x01.
Definition RTE_TCP_SYN_FLAG : Z := 0x02.
Definition RTE_TCP_RST_FLAG : Z := 0x04.
Definition RTE_TCP_PSH_FLAG : Z := 0x08.
Definition RTE_TCP_ACK_FLAG : Z := 0x10.
Definition RTE_ARP_HRD_ETHER : Z := 1.
Definition RTE_ARP_OP_REQUEST : Z := 1.
Definition RTE_ARP_OP_REPLY : Z := 2.

Definition sizeof_ether_hdr : nat := 14.
Definition sizeof_ipv4_hdr : nat := 20.
Definition sizeof_tcp_hdr : nat := 20.
Definition sizeof_udp_hdr : nat := 8.
Definition sizeof_arp_hdr : nat := 28.

(** [rte_ether_addr]: six bytes. *)
Definition mac_ok (a : list Z) : Prop := length a = 6%nat ∧ bytes a.

(** ** mbufs *)

(** What the library sees of an [rte_mbuf]: the bytes at [rte_pktmbuf_mtod]
    (the first segment), [pkt_len], [nb_segs], what [rte_pktmbuf_tailroom]
    reports, and the two offload fields. *)
Record rte_mbuf := Mbuf {
  m_data : list Z; m_pkt_len : Z; m_nb_segs : Z; m_tailroom : Z; m_l2_len : Z; m_l3_len : Z }.

(** Stores through pointers into the buffer, and into the offload fields. *)
Definition mbuf_write (m : rte_mbuf) (off : nat) (v : list Z) : rte_mbuf :=
  Mbuf (wr (m_data m) off v) (m_pkt_len m) (m_nb_segs m) (m_tailroom m) (m_l2_len m) (m_l3_len m).
Definition mbuf_set_l2 (m : rte_mbuf) (x : Z) : rte_mbuf :=
  Mbuf (m_data m) (m_pkt_len m) (m_nb_segs m) (m_tailroom m) x (m_l3_len m).
Definition mbuf_set_l3 (m : rte_mbuf) (x : Z) : rte_mbuf :=
  Mbuf (m_data m) (m_pkt_len m) (m_nb_segs m) (m_tailroom m) (m_l2_len m) x.

(** A whole packet in one buffer. *)
Definition contiguous (m : rte_mbuf) : Prop :=
  m_nb_segs m = 1 ∧ m_pkt_len m = Z.of_nat (length (m_data m)).

(** The IPv4 header an [rte_ipv4_hdr *] at [off] points to: its length is its
    own IHL field.  The L4 bytes behind it end where [total_length] says. *)
Definition ip_hdr_len_at (bs : list Z) (off : nat) : Z := Z.land (rd8 bs off) 0x0f * 4.
Definition ipv4_hdr_at (bs : list Z) (off : nat) : list Z := sub bs off (Z.to_nat (ip_hdr_len_at bs off)).
Definition l4_len_at (bs : list Z) (off : nat) : Z := rd16 bs (off + 2) - ip_hdr_len_at bs off.

(** ** Operations *)

Class DpdkOps (E : Type) := {
  rte_pktmbuf_append : rte_mbuf → Z → option rte_mbuf;
  rte_pktmbuf_alloc : Z → E → option rte_mbuf * E;
  rte_pktmbuf_free : rte_mbuf → E → E;
  rte_eth_rx_burst : Z → Z → Z → E → list rte_mbuf * E;
  rte_eth_tx_burst : Z → Z → list rte_mbuf → E → Z * E;
  rte_rand : E → Z * E;
  rte_ipv4_cksum : list Z → Z;
  rte_ipv4_phdr_cksum : list Z → Z;
  rte_ipv4_udptcp_cksum : list Z → list Z → Z;
  rte_raw_cksum : list Z → Z → Z;
  rte_raw_cksum_reduce : Z → Z }.

(** ** Documented behaviour *)

Class DpdkLaws (E : Type) `{DpdkOps E} : Prop := {
  (* rte_pktmbuf_append: grows the packet at its end, or returns NULL and
     leaves it alone if the tailroom is too small.  The new bytes are whatever
     the buffer held. *)
  append_ok m len : m_nb_segs m = 1 → 0 <= len <= m_tailroom m → ∃ junk,
    length junk = Z.to_nat len ∧ bytes junk ∧
    rte_pktmbuf_append m len = Some (Mbuf (m_data m ++ junk) (m_pkt_len m + len) (m_nb_segs m)
                                      (m_tailroom m - len) (m_l2_len m) (m_l3_len m));
  append_full m len : m_tailroom m < len → rte_pktmbuf_append m len = None;
  (* rte_pktmbuf_alloc: a fresh, empty, single-segment mbuf, or NULL. *)
  alloc_fresh pool w m w' : rte_pktmbuf_alloc pool w = (Some m, w') →
    contiguous m ∧ m_data m = [] ∧ 0 <= m_tailroom m;
  (* rte_eth_tx_burst: how many of the packets the driver took, a prefix. *)
  tx_count p q ms w n w' : rte_eth_tx_burst p q ms w = (n, w') → 0 <= n <= Z.of_nat (length ms);
  rx_count p q k w ms w' : rte_eth_rx_burst p q k w = (ms, w') → Z.of_nat (length ms) <= Z.max 0 k;
  (* Checksums: 16-bit results; storing the computed value makes the header,
     respectively pseudo-header and segment, verify. *)
  ipv4_cksum_range h : is_u16 (rte_ipv4_cksum h);
  ipv4_cksum_ok h : length h = 20%nat → bytes h → sub h 10 2 = [0; 0] →
    rte_ipv4_cksum (wr h 10 (le16 (rte_ipv4_cksum h))) = 0;
  udptcp_cksum_range h l4 : is_u16 (rte_ipv4_udptcp_cksum h l4);
  tcp_cksum_ok h l4 : length h = 20%nat → bytes h → bytes l4 → 20 <= Z.of_nat (length l4) <= 65535 →
    sub l4 16 2 = [0; 0] → rd8 h 9 = IPPROTO_TCP →
    rte_raw_cksum_reduce (rte_raw_cksum (wr l4 16 (le16 (rte_ipv4_udptcp_cksum h l4))) (rte_ipv4_phdr_cksum h)) = 0xffff }.

(** Who holds which mbuf: [held w] counts the mbufs that are neither in their
    pool nor with a driver, that is, those the library must free or send. *)
Class DpdkAccount (E : Type) `{DpdkOps E} := {
  held : E → Z;
  held_alloc pool w : held (rte_pktmbuf_alloc pool w).2 =
    held w + match (rte_pktmbuf_alloc pool w).1 with Some _ => 1 | None => 0 end;
  held_free m w : held (rte_pktmbuf_free m w) = held w - 1;
  held_tx p q ms w : held (rte_eth_tx_burst p q ms w).2 = held w - (rte_eth_tx_burst p q ms w).1;
  held_rx p q k w : held (rte_eth_rx_burst p q k w).2 = held w + Z.of_nat (length (rte_eth_rx_burst p q k w).1);
  held_rand w : held (rte_rand w).2 = held w }.

(** What each transmit queue has been given, in order: the observable output
    of the program. *)
Class DpdkWire (E : Type) `{DpdkOps E} := {
  wire : Z → Z → E → list rte_mbuf;
  wire_alloc p q pool w : wire p q (rte_pktmbuf_alloc pool w).2 = wire p q w;
  wire_free p q m w : wire p q (rte_pktmbuf_free m w) = wire p q w;
  wire_rand p q w : wire p q (rte_rand w).2 = wire p q w;
  wire_tx p q ms w : wire p q (rte_eth_tx_burst p q ms w).2 =
    wire p q w ++ take (Z.to_nat (rte_eth_tx_burst p q ms w).1) ms;
  (* The queues of a port are independent. *)
  wire_other p q q' ms w : q' ≠ q → wire p q (rte_eth_tx_burst p q' ms w).2 = wire p q w }.
