(* ===== verification/DpdkSim.v ===== *)
(** * A concrete DPDK environment

    The instance of [DpdkOps] the witnesses run on: one mempool with a bounded
    number of buffers of a fixed size, one transmit ring with bounded room that
    records what it took, scripted receive and random streams, and the Internet
    checksum of RFC 1071 computed over native (little-endian) 16-bit words.
    It satisfies [DpdkLaws] and [DpdkAccount]. *)

From S2P Require Import Prelude Dpdk.

(** ** RFC 1071 *)

Fixpoint sum16 (bs : list Z) : Z :=
  match bs with
  | a :: b :: r => a + b * 2 ^ 8 + sum16 r
  | [a] => a
  | [] => 0
  end.

Definition fold16 (s : Z) : Z := s / 2 ^ 16 + s mod 2 ^ 16.

Module sim.

Definition raw_cksum (bs : list Z) (sum : Z) : Z := u32 (sum + sum16 bs).
Definition raw_cksum_reduce (sum : Z) : Z := u16 (fold16 (fold16 sum)).
Definition complement (x : Z) : Z := 2 ^ 16 - 1 - x.
Definition ipv4_cksum (h : list Z) : Z := complement (raw_cksum_reduce (raw_cksum h 0)).
Definition phdr_cksum (h : list Z) : Z :=
  raw_cksum_reduce (raw_cksum (sub h 12 8 ++ [0; rd8 h 9] ++ be16 (l4_len_at h 0)) 0).
Definition udptcp_cksum (h l4 : list Z) : Z :=
  let c := complement (raw_cksum_reduce (raw_cksum l4 (phdr_cksum h))) in
  if (c =? 0) && (rd8 h 9 =? IPPROTO_UDP) then 2 ^ 16 - 1 else c.

Lemma fold16_twice x : 0 <= x < 2 ^ 32 →
  is_u16 (fold16 (fold16 x)) ∧ fold16 (fold16 x) mod 65535 = x mod 65535 ∧ (0 < x ↔ 0 < fold16 (fold16 x)).
Proof.
  intros Hx. unfold fold16. unfold_ints.
  assert (E : ∀ y, 0 <= y → (y / 65536 + y mod 65536) mod 65535 = y mod 65535).
  { intros y Hy. rewrite (Z.div_mod y 65536) at 3 by lia.
    replace (65536 * (y / 65536) + y mod 65536) with (y / 65536 + y mod 65536 + (y / 65536) * 65535) by lia.
    by rewrite Z.mod_add. }
  split; [Z.div_mod_to_equations; lia|]. split; [|Z.div_mod_to_equations; lia].
  rewrite !E; [done|lia|Z.div_mod_to_equations; lia].
Qed.

Lemma reduce_spec x : 0 <= x < 2 ^ 32 →
  is_u16 (raw_cksum_reduce x) ∧ raw_cksum_reduce x mod 65535 = x mod 65535 ∧ (0 < x ↔ 0 < raw_cksum_reduce x).
Proof. intros Hx. unfold raw_cksum_reduce. destruct (fold16_twice x Hx) as (H1 & H2 & H3). by rewrite u16_id. Qed.

(** A positive sum congruent to 0 reduces to all-ones. *)
Lemma reduce_all_ones x : 0 < x < 2 ^ 32 → x mod 65535 = 0 → raw_cksum_reduce x = 0xffff.
Proof. intros Hx Hm. destruct (reduce_spec x) as (H1 & H2 & H3); [lia|]. mlia. Qed.

Lemma reduce_range x : is_u16 (raw_cksum_reduce x).
Proof. apply u16_range. Qed.

Lemma sum16_app_even a b n : length a = (2 * n)%nat → sum16 (a ++ b) = sum16 a + sum16 b.
Proof.
  revert a. induction n as [|n IH]; intros a Ha.
  - by destruct a.
  - destruct a as [|x [|y a]]; simpl in *; try lia. rewrite IH by lia. lia.
Qed.

Lemma sum16_range bs : bytes bs → 0 <= sum16 bs <= 65535 * Z.of_nat ((length bs + 1) / 2).
Proof.
  intros Hb. remember (length bs) as n. revert bs Heqn Hb. induction n as [n IH] using lt_wf_ind.
  intros [|a [|b r]] -> Hb; simpl sum16; [simpl; lia| |].
  - inversion Hb; subst. unfold_ints. simpl. lia.
  - inversion Hb as [|? ? Ha Hb']; inversion Hb' as [|? ? Hbb Hr]; subst.
    destruct (IH (length r) ltac:(simpl; lia) r eq_refl Hr). unfold_ints.
    replace ((length (a :: b :: r) + 1) / 2)%nat with (S ((length r + 1) / 2)).
    + lia.
    + simpl length. replace (S (S (length r)) + 1)%nat with (length r + 1 + 1 * 2)%nat by lia.
      rewrite Nat.div_add by lia. lia.
Qed.

(** Storing [c] over two zero bytes at an even offset adds [c] to the sum. *)
Lemma sum16_wr bs n c : is_u16 c → (2 * n + 2 <= length bs)%nat → sub bs (2 * n) 2 = [0; 0] →
  sum16 (wr bs (2 * n) (le16 c)) = sum16 bs + c.
Proof.
  intros Hc Hl Hz. unfold wr, sub in *. change (length (le16 c)) with 2%nat.
  assert (Hd : drop (2 * n) bs = 0 :: 0 :: drop (2 * n + 2) bs).
  { rewrite <- drop_drop, <- (take_drop 2 (drop (2 * n) bs)) at 1. by rewrite Hz. }
  rewrite <- (take_drop (2 * n) bs) at 3. rewrite !(sum16_app_even _ _ n) by (rewrite length_take; lia).
  rewrite Hd, (sum16_app_even _ (0 :: _) n) by (rewrite length_take; lia). unfold le16. cbn [sum16 app]. mlia.
Qed.

Lemma ipv4_cksum_verifies h : length h = 20%nat → bytes h → sub h 10 2 = [0; 0] →
  ipv4_cksum (wr h 10 (le16 (ipv4_cksum h))) = 0.
Proof.
  intros Hl Hb Hz. pose proof (sum16_range h Hb) as Hs. rewrite Hl in Hs. change (Z.of_nat ((20 + 1) / 2)) with 10 in Hs.
  destruct (reduce_spec (sum16 h)) as (H1 & H2 & H3); [mlia|].
  assert (Hc : ipv4_cksum h = 65535 - raw_cksum_reduce (sum16 h)).
  { unfold ipv4_cksum, complement, raw_cksum. by rewrite Z.add_0_l, u32_id by mlia. }
  rewrite Hc. revert H1 H2 H3. generalize (raw_cksum_reduce (sum16 h)). intros r H1 H2 H3.
  unfold ipv4_cksum, raw_cksum. rewrite Z.add_0_l, (sum16_wr h 5) by (mlia || lia || done).
  rewrite u32_id by mlia. rewrite reduce_all_ones; [done|mlia|mlia].
Qed.

Lemma tcp_cksum_verifies h l4 : bytes l4 → 20 <= Z.of_nat (length l4) <= 65535 →
  sub l4 16 2 = [0; 0] → rd8 h 9 = IPPROTO_TCP →
  raw_cksum_reduce (raw_cksum (wr l4 16 (le16 (udptcp_cksum h l4))) (phdr_cksum h)) = 0xffff.
Proof.
  intros Hb Hl Hz Hp. pose proof (sum16_range l4 Hb) as Hs.
  assert (Hs' : 0 <= sum16 l4 <= 65535 * 32768).
  { assert ((length l4 + 1) / 2 <= Z.to_nat 32768)%nat by (apply Nat.Div0.div_le_upper_bound; lia). lia. }
  assert (Hph : is_u16 (phdr_cksum h)) by apply reduce_range. set (p := phdr_cksum h) in *.
  assert (Hc : udptcp_cksum h l4 = 65535 - raw_cksum_reduce (p + sum16 l4)).
  { unfold udptcp_cksum, complement, raw_cksum. fold p. rewrite (u32_id (p + _)) by mlia. rewrite Hp. simpl.
    by rewrite andb_false_r. }
  destruct (reduce_spec (p + sum16 l4)) as (H1 & H2 & H3); [mlia|].
  rewrite Hc. revert H1 H2 H3. generalize (raw_cksum_reduce (p + sum16 l4)). intros r H1 H2 H3.
  unfold raw_cksum. rewrite (sum16_wr l4 8) by (mlia || lia || done).
  rewrite u32_id by mlia. apply reduce_all_ones; mlia.
Qed.

(** ** The environment *)

Record env := Env {
  e_room : Z;                    (* tailroom of a fresh mbuf *)
  e_pool : Z;                    (* mbufs left in the pool *)
  e_limits : list Z;             (* how many packets the next tx bursts take; then all *)
  e_tx : list (Z * rte_mbuf);    (* what was transmitted, with its queue *)
  e_rx : list rte_mbuf;          (* what the next rx burst returns *)
  e_rand : list Z;
  e_held : Z }.

Definition append (m : rte_mbuf) (len : Z) : option rte_mbuf :=
  if len <=? m_tailroom m then
    Some (Mbuf (m_data m ++ replicate (Z.to_nat len) 0xaa) (m_pkt_len m + len) (m_nb_segs m)
            (m_tailroom m - len) (m_l2_len m) (m_l3_len m))
  else None.

Definition alloc (pool : Z) (w : env) : option rte_mbuf * env :=
  if 0 <? e_pool w then
    (Some (Mbuf [] 0 1 (Z.max 0 (e_room w)) 0 0),
     Env (e_room w) (e_pool w - 1) (e_limits w) (e_tx w) (e_rx w) (e_rand w) (e_held w + 1))
  else (None, w).

Definition free (m : rte_mbuf) (w : env) : env :=
  Env (e_room w) (e_pool w + 1) (e_limits w) (e_tx w) (e_rx w) (e_rand w) (e_held w - 1).

Definition tx_burst (p q : Z) (ms : list rte_mbuf) (w : env) : Z * env :=
  let n := match e_limits w with
           | [] => Z.of_nat (length ms)
           | l :: _ => Z.max 0 (Z.min l (Z.of_nat (length ms)))
           end in
  (n, Env (e_room w) (e_pool w) (tail (e_limits w)) (e_tx w ++ ((λ m, (q, m)) <$> take (Z.to_nat n) ms))
        (e_rx w) (e_rand w) (e_held w - n)).

Definition rx_burst (p q k : Z) (w : env) : list rte_mbuf * env :=
  let ms := take (Z.to_nat k) (e_rx w) in
  (ms, Env (e_room w) (e_pool w) (e_limits w) (e_tx w) (drop (Z.to_nat k) (e_rx w)) (e_rand w)
         (e_held w + Z.of_nat (length ms))).

Definition rand (w : env) : Z * env :=
  (match e_rand w with [] => 0 | r :: _ => u64 r end,
   Env (e_room w) (e_pool w) (e_limits w) (e_tx w) (e_rx w) (tail (e_rand w)) (e_held w)).

Definition ops : DpdkOps env := {|
  rte_pktmbuf_append := append;
  rte_pktmbuf_alloc := alloc;
  rte_pktmbuf_free := free;
  rte_eth_rx_burst := rx_burst;
  rte_eth_tx_burst := tx_burst;
  rte_rand := rand;
  rte_ipv4_cksum := ipv4_cksum;
  rte_ipv4_phdr_cksum := phdr_cksum;
  rte_ipv4_udptcp_cksum := udptcp_cksum;
  rte_raw_cksum := raw_cksum;
  rte_raw_cksum_reduce := raw_cksum_reduce |}.

#[local] Existing Instance ops.

Lemma laws : DpdkLaws env.
Proof.
  split; simpl.
  - intros m len _ Hl. exists (replicate (Z.to_nat len) 0xaa). rewrite length_replicate. split; [done|].
    split; [apply Forall_replicate; mlia|]. unfold append. destruct (Z.leb_spec len (m_tailroom m)); [done|lia].
  - intros m len Hl. unfold append. destruct (Z.leb_spec len (m_tailroom m)); [lia|done].
  - intros pool w m w'. unfold alloc. destruct (0 <? e_pool w); [|done]. intros [= <- <-]. split; [done|]. simpl. split; [done|lia].
  - intros p q ms w n w' [= <- <-]. destruct (e_limits w); lia.
  - intros p q k w ms w' [= <- <-]. rewrite length_take. lia.
  - intros h. unfold ipv4_cksum, complement. pose proof (reduce_range (raw_cksum h 0)). mlia.
  - apply ipv4_cksum_verifies.
  - intros h l4. unfold udptcp_cksum, complement. pose proof (reduce_range (raw_cksum l4 (phdr_cksum h))).
    destruct (_ && _); mlia.
  - intros h l4 _ _. apply tcp_cksum_verifies.
Qed.

Definition account : DpdkAccount env.
Proof.
  refine {| held := e_held |}; simpl; try done.
  - intros pool w. unfold alloc. destruct (0 <? e_pool w); simpl; lia.
Defined.

Definition wires : DpdkWire env.
Proof.
  refine {| wire := λ p q w, (filter (λ x, x.1 = q) (e_tx w)).*2 |}; simpl; try done.
  - intros p q pool w. unfold alloc. by destruct (0 <? e_pool w).
  - intros p q ms w. rewrite filter_app, fmap_app. f_equal.
    match goal with |- context [take ?k ms] => generalize (take k ms) end. intros l.
    induction l as [|m l IH]; [done|]. simpl. rewrite filter_cons_True by done. simpl. by f_equal.
  - intros p q q' ms w Hq. rewrite filter_app, fmap_app.
    match goal with |- context [take ?k ms] => generalize (take k ms) end. intros l.
    induction l as [|m l IH]; [by rewrite app_nil_r|]. simpl. by rewrite filter_cons_False.
Defined.

Definition start (pool room : Z) : env := Env room pool [] [] [] [] 0.
End sim.
