(* ===== verification/Packet.v ===== *)
(** * packet, packet_pool, packet_burst, rx_queue, tx_queue

    The RAII layer (src/packet.cpp, src/packet_pool.cpp, src/packet_burst.cpp,
    src/rx_queue.cpp, src/tx_queue.cpp and their headers).  A [packet] is the
    pointer it holds, [None] for null; ownership is unique, so a packet that
    owns an mbuf carries its contents.  Destructors, moves and the driver calls
    thread the environment, in which every free is visible: the accounting
    theorems count the mbufs the program still has to give back. *)

From S2P Require Import Prelude Dpdk DpdkSim.

Definition packet : Type := option rte_mbuf.
Definition burst_max_size : Z := 32.

Section ops.
Context {E : Type} `{DpdkOps E}.

(** ** packet *)

Definition packet_move (other : packet) : packet * packet := (other, None).

(** [ps[i] = std::move(ps[j])], with the self-assignment guard. *)
Definition packet_assign (ps : list packet) (i j : nat) (w : E) : list packet * E :=
  if decide (i = j) then (ps, w)
  else
    let w := match ps !! i with Some (Some m) => rte_pktmbuf_free m w | _ => w end in
    match ps !! j with
    | Some pj => (<[j := None]> (<[i := pj]> ps), w)
    | None => (ps, w)
    end.

Definition packet_dtor (p : packet) (w : E) : E :=
  match p with Some m => rte_pktmbuf_free m w | None => w end.

Definition packet_release (p : packet) : packet * packet := (p, None).

Definition packet_length (m : rte_mbuf) : Z := u16 (m_pkt_len m).
Definition is_contiguous (m : rte_mbuf) : bool := m_nb_segs m =? 1.

(** [append(len)]: the offset of the new region and the grown packet. *)
Definition packet_append (m : rte_mbuf) (len : Z) : option (nat * rte_mbuf) :=
  match rte_pktmbuf_append m len with
  | Some m' => Some (length (m_data m), m')
  | None => None
  end.

Definition packet_append_payload (m : rte_mbuf) (payload : list Z) : option (nat * rte_mbuf) :=
  if 2 ^ 16 - 1 <? Z.of_nat (length payload) then None
  else
    match packet_append m (u16 (Z.of_nat (length payload))) with
    | None => None
    | Some (dst, m) => Some (dst, if bool_decide (payload = []) then m else mbuf_write m dst payload)
    end.

Definition set_l2_len (m : rte_mbuf) (len : Z) : rte_mbuf := mbuf_set_l2 m len.
Definition set_l3_len (m : rte_mbuf) (len : Z) : rte_mbuf := mbuf_set_l3 m len.

(** ** packet_pool *)

Definition get_packet (mbuf : packet) : packet := mbuf.
Definition pool_get (pool : Z) (w : E) : packet * E :=
  let '(mbuf, w) := rte_pktmbuf_alloc pool w in (get_packet mbuf, w).

(** ** packet_burst: the constructed slots [0, count_) *)

Definition packet_burst : Type := list packet.

Definition burst_push_back (b : packet_burst) (p : packet) : packet_burst := b ++ [(packet_move p).1].
Definition burst_dtor (b : packet_burst) (w : E) : E := foldl (λ w p, packet_dtor p w) w b.

(** The move constructor: the source keeps its count, its packets are empty. *)
Definition burst_move (other : packet_burst) : packet_burst * packet_burst :=
  (foldl burst_push_back [] other, (λ p, (packet_move p).2) <$> other).

(** Move assignment between two different bursts. *)
Definition burst_assign (this other : packet_burst) (w : E) : packet_burst * packet_burst * E :=
  let w := burst_dtor this w in
  let '(this, other) := burst_move other in (this, other, w).

(** ** rx_queue and tx_queue: a (port, queue) pair *)

Record queue := { q_port : Z; q_id : Z }.

Definition receive_burst (q : queue) (max_count : Z) (w : E) : packet_burst * E :=
  let max_count := if burst_max_size <? max_count then burst_max_size else max_count in
  let '(raw, w) := rte_eth_rx_burst (q_port q) (q_id q) (u16 max_count) w in
  (foldl burst_push_back [] (get_packet ∘ Some <$> raw), w).

(** [send_burst] on a span of packets that own their mbufs: how many the
    driver took, and the span afterwards. *)
Definition send_burst (q : queue) (pkts : list rte_mbuf) (w : E) : Z * list packet * E :=
  let '(n, w) := rte_eth_tx_burst (q_port q) (q_id q)
                   (take (Z.to_nat (u16 (Z.of_nat (length pkts)))) pkts) w in
  (n, ((λ m, (packet_release (Some m)).2) <$> take (Z.to_nat n) pkts) ++ (Some <$> drop (Z.to_nat n) pkts), w).

End ops.

(** How many mbufs a span of packets owns. *)
Definition owned (b : packet_burst) : Z := Z.of_nat (length (omap id b)).

Lemma owned_app a b : owned (a ++ b) = owned a + owned b.
Proof. unfold owned. rewrite omap_app, length_app. lia. Qed.
Lemma owned_some l : owned (Some <$> l) = Z.of_nat (length l).
Proof. unfold owned. f_equal. induction l; simpl; auto. Qed.
Lemma omap_some (l : list rte_mbuf) : omap id (Some <$> l) = l.
Proof. induction l as [|x l IH]; [done|]. change (x :: omap id (Some <$> l) = x :: l). by rewrite IH. Qed.
Lemma owned_none {A} (l : list A) : owned ((λ _, None) <$> l) = 0.
Proof. unfold owned. by induction l. Qed.

Lemma burst_push_all acc b : foldl burst_push_back acc b = acc ++ b.
Proof.
  revert acc. induction b as [|p b IH]; intros acc; simpl; [by rewrite app_nil_r|].
  rewrite IH. unfold burst_push_back. simpl. by rewrite <- app_assoc.
Qed.

Section facts.
Context {E : Type} `{DpdkOps E}.

Lemma packet_append_spec `{!DpdkLaws E} m len : contiguous m → 0 <= len <= m_tailroom m → ∃ junk m',
  length junk = Z.to_nat len ∧ bytes junk ∧ packet_append m len = Some (length (m_data m), m') ∧
  m_data m' = m_data m ++ junk ∧ contiguous m' ∧ m_tailroom m' = m_tailroom m - len.
Proof.
  intros [H1 H2] Hl. destruct (append_ok m len H1 Hl) as (junk & Hj & Hb & Ha). unfold packet_append. rewrite Ha.
  exists junk. eexists. split_and!; [done|done|reflexivity|done| |done]. split; simpl; [done|].
  rewrite length_app. lia.
Qed.

Lemma packet_append_None `{!DpdkLaws E} m len : m_tailroom m < len → packet_append m len = None.
Proof. intros Hl. unfold packet_append. by rewrite append_full. Qed.

(** A full receive, without the copying through [burst_push_back]. *)
Lemma receive_burst_all q w : receive_burst q burst_max_size w =
  let '(raw, w) := rte_eth_rx_burst (q_port q) (q_id q) burst_max_size w in (Some <$> raw, w).
Proof.
  unfold receive_burst. replace (u16 _) with burst_max_size by done. destruct (rte_eth_rx_burst _ _ _ w) as [raw w']. by rewrite burst_push_all.
Qed.

Section accounting.
Context `{!DpdkAccount E}.

Lemma held_dtor p w : held (packet_dtor p w) = held w - owned [p].
Proof. destruct p; simpl; [rewrite held_free|]; unfold owned; simpl; lia. Qed.

Lemma held_burst_dtor b w : held (burst_dtor b w) = held w - owned b.
Proof.
  revert w. induction b as [|p b IH]; intros w; [unfold owned; simpl; lia|].
  change (burst_dtor (p :: b) w) with (burst_dtor b (packet_dtor p w)). rewrite IH, held_dtor.
  change (p :: b) with ([p] ++ b). rewrite owned_app. lia.
Qed.

(** Sending moves the accepted prefix to the driver and keeps the rest. *)
Lemma held_send_burst `{!DpdkLaws E} q pkts w n rest w' : Z.of_nat (length pkts) < 2 ^ 16 →
  send_burst q pkts w = (n, rest, w') →
  0 <= n <= Z.of_nat (length pkts) ∧ length rest = length pkts ∧
  owned rest = Z.of_nat (length pkts) - n ∧ held w' = held w - n.
Proof.
  intros Hl. unfold send_burst. rewrite u16_id, Nat2Z.id, firstn_all by mlia.
  destruct (rte_eth_tx_burst _ _ pkts w) as [k w1] eqn:Et. intros [= <- <- <-].
  pose proof (tx_count _ _ _ _ _ _ Et) as Hn. pose proof (held_tx (q_port q) (q_id q) pkts w) as Hh. rewrite Et in Hh.
  rewrite owned_app, (owned_none (take _ _)), owned_some, length_app, !length_fmap, length_take, length_drop. simpl in *. lia.
Qed.
End accounting.
End facts.

(** ** Properties *)

(** A burst never overflows its fixed storage: whatever count the
    caller asks for, [receive_burst] returns at most [packet_burst::max_size]
    packets, all of them owning an mbuf, in the order the driver delivered
    them. *)
Theorem receive_burst_bounded {E} `{DpdkOps E} `{!DpdkLaws E} (q : queue) (max_count : Z) (w : E) :
  0 <= max_count →
  let b := (receive_burst q max_count w).1 in
  Z.of_nat (length b) <= burst_max_size ∧ owned b = Z.of_nat (length b).
Proof.
  intros Hm b. subst b. unfold receive_burst.
  destruct (rte_eth_rx_burst _ _ _ w) as [raw w'] eqn:Er. apply rx_count in Er. rewrite burst_push_all. simpl.
  rewrite length_fmap. split.
  - unfold burst_max_size in *. mlia.
  - change (get_packet ∘ Some <$> raw) with (Some <$> raw : list packet). apply owned_some.
Qed.

Section receive_burst_bounded_run.
#[local] Existing Instances sim.ops sim.laws sim.account.
Lemma receive_burst_bounded_witness :
Z.of_nat (length (receive_burst {| q_port := 0; q_id := 0 |} 1000
  (sim.Env 2048 0 [] [] (replicate 40 (Mbuf [] 0 1 0 0 0)) [] 0)).1) <= burst_max_size.
Proof. apply receive_burst_bounded. lia. Defined.
End receive_burst_bounded_run.
