(* ===== verification/Headers.v ===== *)
(** * Header builders (src/ethernet_header.cpp, src/ipv4_header.cpp,
      src/tcp_header.cpp, src/udp_header.cpp)

    Each builder appends its header to the packet and stores the fields one by
    one; the pointer it returns is the header's offset in the packet.  The
    [_spec] lemmas give the exact bytes a builder leaves behind, in the wire
    formats of RFC 894, 791, 793 and 768, whatever the buffer held before. *)

From S2P Require Import Prelude Dpdk Packet.

Section builders.
Context {E : Type} `{DpdkOps E}.

Definition build_ethernet_header (pkt : rte_mbuf) (dst src : list Z) (ether_type : Z)
    : option (nat * rte_mbuf) :=
  match packet_append pkt (Z.of_nat sizeof_ether_hdr) with
  | None => None
  | Some (hdr, pkt) =>
    let pkt := mbuf_write pkt hdr dst in
    let pkt := mbuf_write pkt (hdr + 6) src in
    let pkt := mbuf_write pkt (hdr + 12) (be16 ether_type) in
    Some (hdr, set_l2_len pkt (Z.of_nat sizeof_ether_hdr))
  end.

Definition build_ipv4_header (pkt : rte_mbuf) (src_addr dst_addr next_proto ttl tos : Z)
    : option (nat * rte_mbuf) :=
  match packet_append pkt (Z.of_nat sizeof_ipv4_hdr) with
  | None => None
  | Some (hdr, pkt) =>
    let pkt := mbuf_write pkt hdr (replicate sizeof_ipv4_hdr 0) in
    let pkt := mbuf_write pkt hdr [RTE_IPV4_VHL_DEF] in
    let pkt := mbuf_write pkt (hdr + 1) [tos] in
    let pkt := mbuf_write pkt (hdr + 8) [ttl] in
    let pkt := mbuf_write pkt (hdr + 9) [next_proto] in
    let pkt := mbuf_write pkt (hdr + 12) (be32 src_addr) in
    let pkt := mbuf_write pkt (hdr + 16) (be32 dst_addr) in
    Some (hdr, set_l3_len pkt (Z.of_nat sizeof_ipv4_hdr))
  end.

Definition finalize_ipv4_header (pkt : rte_mbuf) (hdr : nat) : rte_mbuf :=
  let total_length := u16 (packet_length pkt - Z.of_nat hdr) in
  let pkt := mbuf_write pkt (hdr + 2) (be16 total_length) in
  let pkt := mbuf_write pkt (hdr + 10) [0; 0] in
  mbuf_write pkt (hdr + 10) (le16 (rte_ipv4_cksum (ipv4_hdr_at (m_data pkt) hdr))).

Definition build_tcp_header (pkt : rte_mbuf) (src_port dst_port seq ack flags window : Z)
    : option (nat * rte_mbuf) :=
  match packet_append pkt (Z.of_nat sizeof_tcp_hdr) with
  | None => None
  | Some (hdr, pkt) =>
    let pkt := mbuf_write pkt hdr (replicate sizeof_tcp_hdr 0) in
    let pkt := mbuf_write pkt hdr (be16 src_port) in
    let pkt := mbuf_write pkt (hdr + 2) (be16 dst_port) in
    let pkt := mbuf_write pkt (hdr + 4) (be32 seq) in
    let pkt := mbuf_write pkt (hdr + 8) (be32 ack) in
    let pkt := mbuf_write pkt (hdr + 12) [u8 (Z.shiftl 5 4)] in
    let pkt := mbuf_write pkt (hdr + 13) [flags] in
    let pkt := mbuf_write pkt (hdr + 14) (be16 window) in
    Some (hdr, pkt)
  end.

(** The L4 bytes [rte_ipv4_udptcp_cksum] reads: from the L4 header on, as
    many as the IPv4 header's [total_length] leaves. *)
Definition l4_at (bs : list Z) (ip_hdr hdr : nat) : list Z :=
  sub bs hdr (Z.to_nat (l4_len_at bs ip_hdr)).

Definition finalize_tcp_header (pkt : rte_mbuf) (ip_hdr hdr : nat) : rte_mbuf :=
  let pkt := mbuf_write pkt (hdr + 16) [0; 0] in
  mbuf_write pkt (hdr + 16)
    (le16 (rte_ipv4_udptcp_cksum (ipv4_hdr_at (m_data pkt) ip_hdr) (l4_at (m_data pkt) ip_hdr hdr))).

Definition build_udp_header (pkt : rte_mbuf) (src_port dst_port : Z) : option (nat * rte_mbuf) :=
  match packet_append pkt (Z.of_nat sizeof_udp_hdr) with
  | None => None
  | Some (hdr, pkt) =>
    let pkt := mbuf_write pkt hdr (be16 src_port) in
    let pkt := mbuf_write pkt (hdr + 2) (be16 dst_port) in
    Some (hdr, pkt)
  end.

Definition finalize_udp_header (pkt : rte_mbuf) (ip_hdr hdr : nat) : rte_mbuf :=
  let dgram_len := u16 (packet_length pkt - Z.of_nat hdr) in
  let pkt := mbuf_write pkt (hdr + 4) (be16 dgram_len) in
  let pkt := mbuf_write pkt (hdr + 6) [0; 0] in
  mbuf_write pkt (hdr + 6)
    (le16 (rte_ipv4_udptcp_cksum (ipv4_hdr_at (m_data pkt) ip_hdr) (l4_at (m_data pkt) ip_hdr hdr))).
End builders.

Definition ipv4_multicast_mac (group : Z) : list Z :=
  [0x01; 0x00; 0x5e; u8 (Z.land (Z.shiftr group 16) 0x7f); u8 (Z.land (Z.shiftr group 8) 0xff);
   u8 (Z.land group 0xff)].

(** ** Wire formats *)

Definition eth_bytes (dst src : list Z) (ether_type : Z) : list Z := dst ++ src ++ be16 ether_type.
Definition ip_bytes (tos len ttl proto : Z) (ck : list Z) (src dst : Z) : list Z :=
  [RTE_IPV4_VHL_DEF; tos] ++ be16 len ++ [0; 0; 0; 0] ++ [ttl; proto] ++ ck ++ be32 src ++ be32 dst.
Definition tcp_bytes (sp dp seq ack doff flags win : Z) (ck : list Z) : list Z :=
  be16 sp ++ be16 dp ++ be32 seq ++ be32 ack ++ [doff; flags] ++ be16 win ++ ck ++ [0; 0].
Definition udp_bytes (sp dp : Z) (len ck : list Z) : list Z := be16 sp ++ be16 dp ++ len ++ ck.

(** ** Stores into an appended region *)

Lemma wr_app a b k v : wr (a ++ b) (length a + k) v = a ++ wr b k v.
Proof.
  unfold wr. rewrite take_app_add, <- app_assoc. do 2 f_equal. f_equal.
  rewrite <- Nat.add_assoc. apply drop_app_add.
Qed.
Lemma wr_app_0 a b v : wr (a ++ b) (length a) v = a ++ wr b 0 v.
Proof. rewrite <- (wr_app a b 0 v). f_equal. lia. Qed.

(* Names the elements of a list whose length is a numeral. *)
Ltac explode l H :=
  lazymatch type of H with
  | length l = O => apply nil_length_inv in H; subst l
  | length l = S _ =>
    let x := fresh "b" in
    destruct l as [|x l]; [discriminate H|]; cbn [length] in H; apply Nat.succ_inj in H; explode l H
  end.

Lemma contiguous_write m off v : (off + length v <= length (m_data m))%nat → contiguous m →
  contiguous (mbuf_write m off v).
Proof. intros Hl [H1 H2]. split; [done|]. simpl. by rewrite length_wr. Qed.

Lemma length_eth_bytes dst src t : mac_ok dst → mac_ok src → length (eth_bytes dst src t) = 14%nat.
Proof. intros [Hd _] [Hs _]. unfold eth_bytes. rewrite !length_app, Hd, Hs. done. Qed.
Lemma length_ip_bytes tos len ttl proto ck src dst : length ck = 2%nat →
  length (ip_bytes tos len ttl proto ck src dst) = 20%nat.
Proof. intros Hc. unfold ip_bytes. rewrite !length_app, Hc. done. Qed.
Lemma length_tcp_bytes sp dp seq ack doff flags win ck : length ck = 2%nat →
  length (tcp_bytes sp dp seq ack doff flags win ck) = 20%nat.
Proof. intros Hc. unfold tcp_bytes. rewrite !length_app, Hc. done. Qed.
#[export] Hint Resolve length_eth_bytes length_ip_bytes length_tcp_bytes : wire.

Section specs.
Context {E : Type} `{DpdkOps E} `{!DpdkLaws E}.

(** Where a successful builder leaves the packet. *)
Definition extends (m m' : rte_mbuf) (bs : list Z) : Prop :=
  m_data m' = m_data m ++ bs ∧ contiguous m' ∧ m_tailroom m' = m_tailroom m - Z.of_nat (length bs).

(* Appends [n] bytes, then evaluates the stores into them. *)
Ltac build m n :=
  let Hj := fresh "Hj" in
  intros Hm Hl; destruct (packet_append_spec m (Z.of_nat n) Hm ltac:(unfold n; lia))
    as (junk & m1 & Hj & _ & Ha & Hd & [Hs Hp] & Ht);
  rewrite Ha; change (Z.to_nat (Z.of_nat n)) with n in Hj; unfold n in Hj; explode junk Hj;
  eexists; split; [reflexivity|];
  unfold extends, contiguous, set_l2_len, set_l3_len; cbn [m_data m_nb_segs m_pkt_len m_tailroom mbuf_write mbuf_set_l2 mbuf_set_l3];
  rewrite Hd, !wr_app_0, ?wr_app.

Lemma build_ethernet_spec m dst src t : mac_ok dst → mac_ok src → contiguous m → 14 <= m_tailroom m →
  ∃ m', build_ethernet_header m dst src t = Some (length (m_data m), m') ∧ extends m m' (eth_bytes dst src t).
Proof.
  intros [Hdst _] [Hsrc _]. unfold build_ethernet_header. explode dst Hdst. explode src Hsrc.
  build m sizeof_ether_hdr. split_and!; [done|done| |rewrite Ht; done].
  rewrite Hp, Hd, !length_app. done.
Qed.

Lemma build_ipv4_spec m src dst proto ttl tos : contiguous m → 20 <= m_tailroom m →
  ∃ m', build_ipv4_header m src dst proto ttl tos = Some (length (m_data m), m') ∧
    extends m m' (ip_bytes tos 0 ttl proto [0; 0] src dst).
Proof.
  unfold build_ipv4_header. build m sizeof_ipv4_hdr. split_and!; [done|done| |rewrite Ht; done].
  rewrite Hp, Hd, !length_app. done.
Qed.

Lemma build_tcp_spec m sp dp seq ack flags win : contiguous m → 20 <= m_tailroom m →
  ∃ m', build_tcp_header m sp dp seq ack flags win = Some (length (m_data m), m') ∧
    extends m m' (tcp_bytes sp dp seq ack 0x50 flags win [0; 0]).
Proof.
  unfold build_tcp_header. build m sizeof_tcp_hdr. split_and!; [done|done| |rewrite Ht; done].
  rewrite Hp, Hd, !length_app. done.
Qed.

Lemma append_payload_spec m bs : contiguous m → Z.of_nat (length bs) <= Z.min (m_tailroom m) 65535 →
  ∃ m', packet_append_payload m bs = Some (length (m_data m), m') ∧ extends m m' bs.
Proof.
  intros Hm Hl. unfold packet_append_payload. destruct (Z.ltb_spec (2 ^ 16 - 1) (Z.of_nat (length bs))); [lia|].
  rewrite u16_id by mlia.
  destruct (packet_append_spec m (Z.of_nat (length bs)) Hm ltac:(lia)) as (junk & m1 & Hj & _ & Ha & Hd & [Hs Hp] & Ht).
  rewrite Ha. eexists. split; [reflexivity|]. rewrite Nat2Z.id in Hj.
  assert (Hw : m_data m ++ bs = wr (m_data m1) (length (m_data m)) bs).
  { rewrite Hd, wr_app_0. unfold wr. simpl. by rewrite drop_ge, app_nil_r by lia. }
  case_bool_decide as Eb.
  - subst bs. destruct junk; [|done]. unfold extends. rewrite Hd. done.
  - unfold extends, contiguous. cbn. rewrite <- Hw, Hp, Hd, !length_app, Ht. split_and!; [done|done|lia|done].
Qed.

Lemma append_payload_None m bs : m_tailroom m < Z.of_nat (length bs) → packet_append_payload m bs = None.
Proof.
  intros Hl. unfold packet_append_payload. destruct (Z.ltb_spec (2 ^ 16 - 1) (Z.of_nat (length bs))); [done|].
  rewrite u16_id by mlia. by rewrite packet_append_None.
Qed.

Lemma ipv4_hdr_at_app pre tos len ttl proto ck src dst rest : length ck = 2%nat →
  ipv4_hdr_at (pre ++ ip_bytes tos len ttl proto ck src dst ++ rest) (length pre) =
    ip_bytes tos len ttl proto ck src dst ∧
  l4_len_at (pre ++ ip_bytes tos len ttl proto ck src dst ++ rest) (length pre) = u16 len - 20.
Proof.
  intros Hc. explode ck Hc. unfold ipv4_hdr_at, l4_len_at, ip_hdr_len_at, rd8.
  rewrite lookup_total_app_r, Nat.sub_diag by lia. split.
  - unfold sub. rewrite drop_app_length. done.
  - rewrite rd16_app. change (Z.land _ 15 * 4) with 20. unfold rd16, rd8. cbn. mlia.
Qed.

Lemma finalize_ipv4_spec m pre tos ttl proto src dst rest :
  contiguous m → m_data m = pre ++ ip_bytes tos 0 ttl proto [0; 0] src dst ++ rest →
  Z.of_nat (length (m_data m)) < 2 ^ 16 →
  let L := 20 + Z.of_nat (length rest) in
  let m' := finalize_ipv4_header m (length pre) in
  m_data m' = pre ++ ip_bytes tos L ttl proto
                (le16 (rte_ipv4_cksum (ip_bytes tos L ttl proto [0; 0] src dst))) src dst ++ rest ∧
  contiguous m' ∧ m_tailroom m' = m_tailroom m.
Proof.
  intros [Hs Hp] Hd Hlt L m'. subst m'. unfold finalize_ipv4_header, packet_length.
  assert (HL : u16 (u16 (m_pkt_len m) - Z.of_nat (length pre)) = L).
  { rewrite Hp, Hd, !length_app, length_ip_bytes in * by done. subst L. mlia. }
  rewrite HL. cbn [mbuf_write m_data m_tailroom]. rewrite Hd, !wr_app.
  assert (Hw : wr (wr (ip_bytes tos 0 ttl proto [0; 0] src dst ++ rest) 2 (be16 L)) 10 [0; 0] =
               ip_bytes tos L ttl proto [0; 0] src dst ++ rest) by done.
  rewrite Hw. rewrite (proj1 (ipv4_hdr_at_app pre tos L ttl proto [0; 0] src dst rest eq_refl)).
  split; [done|]. split; [|done]. split; [done|]. cbn [mbuf_write m_data m_pkt_len].
  rewrite Hp, Hd, !wr_app, Hw. change (10%nat) with (10 + 0)%nat. rewrite !length_app, !length_ip_bytes by done.
  by rewrite length_wr, length_app, length_ip_bytes by (rewrite ?length_app, ?length_ip_bytes by done; simpl; lia).
Qed.

Lemma finalize_tcp_spec m pre tos L ttl ck src dst sp dp seq ack doff flags win rest :
  length ck = 2%nat →
  contiguous m → L = 40 + Z.of_nat (length rest) → L < 2 ^ 16 →
  let iph := ip_bytes tos L ttl IPPROTO_TCP ck src dst in
  m_data m = pre ++ iph ++ tcp_bytes sp dp seq ack doff flags win [0; 0] ++ rest →
  let m' := finalize_tcp_header m (length pre) (length pre + 20) in
  m_data m' = pre ++ iph ++ tcp_bytes sp dp seq ack doff flags win
    (le16 (rte_ipv4_udptcp_cksum iph (tcp_bytes sp dp seq ack doff flags win [0; 0] ++ rest))) ++ rest ∧
  contiguous m' ∧ m_tailroom m' = m_tailroom m.
Proof.
  intros Hck [Hs Hp] HL HLb iph Hd m'. subst m'. unfold finalize_tcp_header.
  assert (Hi : length iph = 20%nat) by (by apply length_ip_bytes).
  destruct (ipv4_hdr_at_app pre tos L ttl IPPROTO_TCP ck src dst
    (tcp_bytes sp dp seq ack doff flags win [0; 0] ++ rest) Hck) as [Hh Hl]. fold iph in Hh, Hl.
  assert (Hw1 : ∀ v, length v = 2%nat → wr (m_data m) (length pre + 20 + 16) v =
    pre ++ iph ++ tcp_bytes sp dp seq ack doff flags win v ++ rest).
  { intros v Hv. explode v Hv. rewrite Hd, <- Nat.add_assoc, wr_app, <- Hi, wr_app. done. }
  cbn [mbuf_write m_data m_tailroom]. rewrite (Hw1 [0; 0]), <- Hd by done.
  unfold l4_at. rewrite Hd, Hh, Hl, <- Hd.
  replace (sub (m_data m) (length pre + 20) (Z.to_nat (u16 L - 20)))
    with (tcp_bytes sp dp seq ack doff flags win [0; 0] ++ rest).
  2:{ rewrite Hd, sub_app. replace 20%nat with (length iph + 0)%nat by lia. rewrite sub_app. unfold sub. rewrite drop_0.
      symmetry. apply take_ge. rewrite length_app, length_tcp_bytes by done. rewrite u16_id by mlia. lia. }
  rewrite Hw1 by done. split; [done|]. split; [|done]. split; [done|]. cbn [mbuf_write m_data m_pkt_len].
  rewrite (Hw1 [0; 0]), <- Hd, Hw1, Hp, Hd, !length_app, !length_tcp_bytes by done. done.
Qed.
End specs.
