(* ===== verification/Udp.v ===== *)
(** * UDP datagrams (src/udp_header.cpp, src/ipv4_header.cpp,
      include/ethernet_header.h)

    The builders put together the way a publisher of multicast datagrams uses
    them: three headers, the payload, and then the two finalizers. *)

From S2P Require Import Prelude Dpdk DpdkSim Packet Headers.

(** ** The multicast address *)

Lemma multicast_mac_arith g : ipv4_multicast_mac g =
  [1; 0; 0x5e; (g / 2 ^ 16) mod 2 ^ 7; (g / 2 ^ 8) mod 2 ^ 8; g mod 2 ^ 8].
Proof.
  unfold ipv4_multicast_mac. change 0x7f with (Z.ones 7). change 0xff with (Z.ones 8).
  rewrite !Z.land_ones, !Z.shiftr_div_pow2 by lia. repeat f_equal; mlia.
Qed.

Lemma low_23_bits g : g mod 2 ^ 23 = g mod 2 ^ 8 + 2 ^ 8 * ((g / 2 ^ 8) mod 2 ^ 8 + 2 ^ 8 * ((g / 2 ^ 16) mod 2 ^ 7)).
Proof.
  change (2 ^ 23) with (2 ^ 8 * (2 ^ 8 * 2 ^ 7)). rewrite !Z.rem_mul_r by lia. do 4 f_equal. by rewrite Z.div_div by lia.
Qed.

Lemma digits_inj a b c a' b' c' : 0 <= a < 2 ^ 8 → 0 <= a' < 2 ^ 8 → 0 <= b < 2 ^ 8 → 0 <= b' < 2 ^ 8 →
  a + 2 ^ 8 * (b + 2 ^ 8 * c) = a' + 2 ^ 8 * (b' + 2 ^ 8 * c') → a = a' ∧ b = b' ∧ c = c'.
Proof. intros. lia. Qed.

Lemma multicast_mac_ok g : mac_ok (ipv4_multicast_mac g) ∧ take 3 (ipv4_multicast_mac g) = [1; 0; 0x5e].
Proof.
  rewrite multicast_mac_arith. split; [|reflexivity]. split; [reflexivity|].
  unfold bytes. repeat apply Forall_cons_2; try apply Forall_nil_2; mlia.
Qed.

(** The multicast MAC is 01:00:5e and the group's low 23 bits: it is
    a proper six-byte address, and two groups share one exactly if they agree
    in those bits. *)
Theorem multicast_mac_low_23_bits g g' :
  mac_ok (ipv4_multicast_mac g) ∧ take 3 (ipv4_multicast_mac g) = [1; 0; 0x5e] ∧
  (ipv4_multicast_mac g = ipv4_multicast_mac g' ↔ g mod 2 ^ 23 = g' mod 2 ^ 23).
Proof.
  split; [apply multicast_mac_ok|]. split; [apply multicast_mac_ok|]. rewrite !multicast_mac_arith. split.
  - intros Hx. injection Hx as H1 H2 H3. by rewrite !low_23_bits, H1, H2, H3.
  - rewrite !low_23_bits. intros Hx. apply digits_inj in Hx as (-> & -> & ->); auto using Z.mod_pos_bound with lia.
Qed.

(** ** A whole datagram *)

Section udp.
Context {E : Type} `{DpdkOps E} `{!DpdkLaws E}.

Lemma build_udp_spec m sp dp : contiguous m → 8 <= m_tailroom m →
  ∃ m' len ck, build_udp_header m sp dp = Some (length (m_data m), m') ∧ length len = 2%nat ∧ length ck = 2%nat ∧
    extends m m' (udp_bytes sp dp len ck).
Proof using DpdkLaws0.
  intros Hm Hl. unfold build_udp_header.
  destruct (packet_append_spec m (Z.of_nat sizeof_udp_hdr) Hm ltac:(unfold sizeof_udp_hdr; lia))
    as (junk & m1 & Hj & _ & Ha & Hd & [Hs Hp] & Ht).
  rewrite Ha. change (Z.to_nat (Z.of_nat sizeof_udp_hdr)) with 8%nat in Hj. explode junk Hj.
  eexists _, [b3; b4], [b5; b6]. split; [reflexivity|]. split; [done|]. split; [done|].
  unfold extends, contiguous. cbn [m_data m_nb_segs m_pkt_len m_tailroom mbuf_write].
  rewrite Hd, !wr_app_0, ?wr_app. split_and!; [done|done| |rewrite Ht; done]. rewrite Hp, Hd, !length_app. done.
Qed.

Lemma finalize_udp_spec m pre tos L ttl ick src dst sp dp len0 ck0 rest :
  length ick = 2%nat → length len0 = 2%nat → length ck0 = 2%nat →
  contiguous m → L = 28 + Z.of_nat (length rest) → Z.of_nat (length (m_data m)) < 2 ^ 16 →
  let iph := ip_bytes tos L ttl IPPROTO_UDP ick src dst in
  m_data m = pre ++ iph ++ udp_bytes sp dp len0 ck0 ++ rest →
  let len := be16 (8 + Z.of_nat (length rest)) in
  let m' := finalize_udp_header m (length pre) (length pre + 20) in
  m_data m' = pre ++ iph ++ udp_bytes sp dp len (le16 (rte_ipv4_udptcp_cksum iph (udp_bytes sp dp len [0; 0] ++ rest))) ++ rest ∧
  contiguous m'.
Proof using.
  intros Hick Hlen0 Hck0 [Hs Hp] HL Hlt iph Hd len m'. subst m'.
  assert (Hi : length iph = 20%nat) by (by apply length_ip_bytes).
  assert (Hw1 : ∀ v, length v = 2%nat → wr (m_data m) (length pre + 20 + 4) v = pre ++ iph ++ udp_bytes sp dp v ck0 ++ rest).
  { intros v Hv. explode v Hv. explode len0 Hlen0. rewrite Hd, <- Nat.add_assoc, wr_app, <- Hi, wr_app. done. }
  assert (Hw2 : ∀ c v, length c = 2%nat → length v = 2%nat →
    wr (pre ++ iph ++ udp_bytes sp dp len c ++ rest) (length pre + 20 + 6) v = pre ++ iph ++ udp_bytes sp dp len v ++ rest).
  { intros c v Hc Hv. explode v Hv. explode c Hc. rewrite <- Nat.add_assoc, wr_app, <- Hi, wr_app. done. }
  assert (Htot : length (m_data m) = (length pre + (20 + (8 + length rest)))%nat).
  { rewrite Hd, !length_app, Hi. unfold udp_bytes. rewrite !length_app, Hlen0, Hck0. done. }
  unfold finalize_udp_header, packet_length.
  assert (HL2 : u16 (u16 (m_pkt_len m) - Z.of_nat (length pre + 20)) = 8 + Z.of_nat (length rest)).
  { rewrite Hp, Htot in *. mlia. }
  rewrite HL2. cbn [mbuf_write m_data]. rewrite Hw1 by done. fold len. rewrite (Hw2 ck0 [0; 0]) by done.
  destruct (ipv4_hdr_at_app pre tos L ttl IPPROTO_UDP ick src dst (udp_bytes sp dp len [0; 0] ++ rest) Hick) as [Hh Hl]. fold iph in Hh, Hl.
  unfold l4_at. rewrite Hh, Hl.
  replace (sub (pre ++ iph ++ udp_bytes sp dp len [0; 0] ++ rest) (length pre + 20) (Z.to_nat (u16 L - 20)))
    with (udp_bytes sp dp len [0; 0] ++ rest).
  2: { rewrite sub_app. replace 20%nat with (length iph + 0)%nat by lia. rewrite sub_app. unfold sub. rewrite drop_0.
       symmetry. apply take_ge. rewrite length_app. change (length (udp_bytes sp dp len [0; 0])) with 8%nat. rewrite u16_id by mlia. lia. }
  rewrite Hw2 by done. split; [done|]. split; [done|]. cbn [mbuf_write m_data m_pkt_len].
  rewrite Hw1 by done. fold len. rewrite (Hw2 ck0 [0; 0]), Hw2 by done. rewrite Hp, Htot, !length_app, Hi. unfold udp_bytes.
  rewrite !length_app. done.
Qed.

(** The calls of a publisher, in order. *)
Definition publish (m : rte_mbuf) (dmac smac : list Z) (sip dip ttl tos sp dp : Z) (payload : list Z) : option rte_mbuf :=
  match build_ethernet_header m dmac smac RTE_ETHER_TYPE_IPV4 with
  | None => None
  | Some (_, m) =>
    match build_ipv4_header m sip dip IPPROTO_UDP ttl tos with
    | None => None
    | Some (ip, m) =>
      match build_udp_header m sp dp with
      | None => None
      | Some (udp, m) =>
        match packet_append_payload m payload with
        | None => None
        | Some (_, m) => Some (finalize_udp_header (finalize_ipv4_header m ip) ip udp)
        end
      end
    end
  end.

(** C40. A datagram built with the UDP builders is exact on the wire: in an
    empty packet with room for it, Ethernet, IPv4 and UDP header and payload
    follow each other with every field in network order, both lengths right,
    the IPv4 checksum over the final header, the UDP checksum over the final
    pseudo-header and datagram, and no byte of what the buffer held before. *)
Theorem udp_datagram_exact m dmac smac sip dip ttl tos sp dp payload :
  mac_ok dmac → mac_ok smac → contiguous m → m_data m = [] →
  42 + Z.of_nat (length payload) <= m_tailroom m → 42 + Z.of_nat (length payload) < 2 ^ 16 →
  let L := 28 + Z.of_nat (length payload) in
  let iph := ip_bytes tos L ttl IPPROTO_UDP (le16 (rte_ipv4_cksum (ip_bytes tos L ttl IPPROTO_UDP [0; 0] sip dip))) sip dip in
  let len := be16 (8 + Z.of_nat (length payload)) in
  ∃ m', publish m dmac smac sip dip ttl tos sp dp payload = Some m' ∧ contiguous m' ∧
    m_data m' = eth_bytes dmac smac RTE_ETHER_TYPE_IPV4 ++ iph ++
      udp_bytes sp dp len (le16 (rte_ipv4_udptcp_cksum iph (udp_bytes sp dp len [0; 0] ++ payload))) ++ payload.
Proof using DpdkLaws0.
  intros Hdm Hsm Hm He Hroom Hlt L iph len. unfold publish.
  destruct (build_ethernet_spec m dmac smac RTE_ETHER_TYPE_IPV4 Hdm Hsm Hm) as (m1 & -> & D1 & C1 & T1); [lia|].
  rewrite He in D1. cbn [app] in D1. rewrite length_eth_bytes in T1 by done.
  destruct (build_ipv4_spec m1 sip dip IPPROTO_UDP ttl tos C1) as (m2 & -> & D2 & C2 & T2); [lia|].
  rewrite length_ip_bytes in T2 by done.
  destruct (build_udp_spec m2 sp dp C2) as (m3 & len0 & ck0 & -> & Hlen0 & Hck0 & D3 & C3 & T3); [lia|].
  assert (Hu : ∀ a b, length a = 2%nat → length b = 2%nat → length (udp_bytes sp dp a b) = 8%nat)
    by (intros a b Ha Hb; unfold udp_bytes; rewrite !length_app, Ha, Hb; done).
  rewrite Hu in T3 by done.
  destruct (append_payload_spec m3 payload C3) as (m4 & -> & D4 & C4 & T4); [lia|].
  set (eth := eth_bytes dmac smac RTE_ETHER_TYPE_IPV4) in *. assert (Hle : length eth = 14%nat) by (by apply length_eth_bytes).
  assert (Hd4 : m_data m4 = eth ++ ip_bytes tos 0 ttl IPPROTO_UDP [0; 0] sip dip ++ udp_bytes sp dp len0 ck0 ++ payload).
  { rewrite D4, D3, D2, D1, <- !app_assoc. done. }
  assert (Hl4 : length (m_data m4) = (42 + length payload)%nat).
  { rewrite Hd4, !length_app, Hle, length_ip_bytes, Hu by done. done. }
  destruct (finalize_ipv4_spec m4 eth tos ttl IPPROTO_UDP sip dip _ C4 Hd4) as (Hd5 & C5 & _); [lia|].
  rewrite length_app, Hu in Hd5 by done. replace (20 + Z.of_nat (8 + length payload)) with L in Hd5 by (unfold L; lia). fold iph in Hd5.
  rewrite D1. replace (length (m_data m2)) with (length eth + 20)%nat by (rewrite D2, D1, length_app, length_ip_bytes; done).
  eexists. split; [reflexivity|]. apply and_comm.
  apply (finalize_udp_spec _ eth tos L ttl _ sip dip sp dp len0 ck0 payload); try done.
  rewrite Hd5, !length_app, Hle, Hu by done. unfold iph. rewrite length_ip_bytes by done. lia.
Qed.
End udp.

Section udp_run.
#[local] Existing Instances sim.ops sim.laws.

Lemma udp_datagram_exact_witness :
  let m := Mbuf [] 0 1 2048 0 0 in
  ∃ m', publish m (ipv4_multicast_mac 0xef010203) [2; 0; 0; 0; 0; 1] 0x0a000001 0xef010203 16 0 5000 5000 [104; 105] = Some m' ∧
    contiguous m' ∧ length (m_data m') = 44%nat.
Proof.
  intros m.
  destruct (udp_datagram_exact m (ipv4_multicast_mac 0xef010203) [2; 0; 0; 0; 0; 1] 0x0a000001 0xef010203 16 0 5000 5000 [104; 105])
    as (m' & Hp & Hc & Hd); try (cbn; lia); try reflexivity.
  - exact (proj1 (multicast_mac_ok 0xef010203)).
  - split; [reflexivity|]. unfold bytes. repeat apply Forall_cons_2; try apply Forall_nil_2; unfold is_u8; cbn; lia.
  - split; reflexivity.
  - exists m'. rewrite Hd. split; [exact Hp|]. split; [exact Hc|]. reflexivity.
Defined.
End udp_run.
