(* ===== verification/SegmentWire.v ===== *)
(** * The bytes of a segment and the build / parse round trip

    [frame] is the wire image of a segment written down directly; the first
    half shows that [build_segment] produces exactly it, or nothing; the second
    half that [parse_frame] reads it back. *)

From S2P Require Import Prelude Dpdk DpdkSim Packet Headers Segment.

Definition mss_bytes (mss : Z) : list Z :=
  if mss =? 0 then [] else [kTcpOptMss; kTcpOptMssLen] ++ be16 mss.
Definition data_off_byte (mss : Z) : Z := if mss =? 0 then 0x50 else 0x60.

Section frame.
Context {E : Type} `{DpdkOps E}.

Definition ip_header (a : segment_addr) (L : Z) : list Z :=
  ip_bytes 0 L 64 IPPROTO_TCP
    (le16 (rte_ipv4_cksum (ip_bytes 0 L 64 IPPROTO_TCP [0; 0] (src_ip a) (dst_ip a)))) (src_ip a) (dst_ip a).

Definition tcp_header (a : segment_addr) (seq ack flags window mss : Z) (ck : list Z) : list Z :=
  tcp_bytes (src_port a) (dst_port a) seq ack (data_off_byte mss) flags window ck.

Definition frame (a : segment_addr) (seq ack flags window : Z) (payload : list Z) (mss : Z) : list Z :=
  let rest := mss_bytes mss ++ payload in
  let iph := ip_header a (40 + Z.of_nat (length rest)) in
  eth_bytes (dst_mac a) (src_mac a) RTE_ETHER_TYPE_IPV4 ++ iph ++
  tcp_header a seq ack flags window mss
    (le16 (rte_ipv4_udptcp_cksum iph (tcp_header a seq ack flags window mss [0; 0] ++ rest))) ++ rest.

Definition frame_len (payload : list Z) (mss : Z) : Z :=
  54 + Z.of_nat (length (mss_bytes mss)) + Z.of_nat (length payload).

Lemma length_mss_bytes mss : length (mss_bytes mss) = if mss =? 0 then 0%nat else 4%nat.
Proof using. unfold mss_bytes. by destruct (mss =? 0). Qed.
End frame.

Section build_proofs.
Context {E : Type} `{DpdkOps E}.

(** The MSS option block of [build_segment]. *)
Definition put_mss (pkt : rte_mbuf) (tcp : nat) (mss_option : Z) : option rte_mbuf :=
  if mss_option =? 0 then Some pkt
  else
    match packet_append pkt kTcpOptMssLen with
    | None => None
    | Some (opt, pkt) =>
      let pkt := mbuf_write pkt opt [kTcpOptMss] in
      let pkt := mbuf_write pkt (opt + 1) [kTcpOptMssLen] in
      let pkt := mbuf_write pkt (opt + 2) [u8 (Z.shiftr mss_option 8)] in
      let pkt := mbuf_write pkt (opt + 3) [u8 mss_option] in
      Some (mbuf_write pkt (tcp + 12) [u8 (Z.shiftl ((Z.of_nat sizeof_tcp_hdr + kTcpOptMssLen) / 4) 4)])
    end.

Lemma put_mss_spec `{!DpdkLaws E} m pre sp dp seq ack flags win mss : contiguous m →
  Z.of_nat (length (mss_bytes mss)) <= m_tailroom m →
  m_data m = pre ++ tcp_bytes sp dp seq ack 0x50 flags win [0; 0] →
  ∃ m', put_mss m (length pre) mss = Some m' ∧ contiguous m' ∧
    m_tailroom m' = m_tailroom m - Z.of_nat (length (mss_bytes mss)) ∧
    m_data m' = pre ++ tcp_bytes sp dp seq ack (data_off_byte mss) flags win [0; 0] ++ mss_bytes mss.
Proof.
  intros Hm Hl Hd. unfold put_mss, mss_bytes, data_off_byte in *. destruct (mss =? 0).
  { exists m. rewrite app_nil_r. split_and!; [done|done|simpl; lia|done]. }
  destruct (packet_append_spec m kTcpOptMssLen Hm ltac:(unfold kTcpOptMssLen in *; simpl in Hl; lia)) as (junk & m1 & Hj & _ & Ha & Hd1 & [Hs Hp] & Ht).
  rewrite Ha. change (Z.to_nat kTcpOptMssLen) with 4%nat in Hj. explode junk Hj. eexists. split; [reflexivity|].
  unfold contiguous. cbn [mbuf_write m_data m_nb_segs m_pkt_len m_tailroom].
  assert (Hw : wr (wr (wr (wr (wr (m_data m1) (length (m_data m)) [kTcpOptMss]) (length (m_data m) + 1) [kTcpOptMssLen])
      (length (m_data m) + 2) [u8 (Z.shiftr mss 8)]) (length (m_data m) + 3) [u8 mss]) (length pre + 12)
      [u8 (Z.shiftl ((Z.of_nat sizeof_tcp_hdr + kTcpOptMssLen) / 4) 4)] =
    pre ++ tcp_bytes sp dp seq ack 0x60 flags win [0; 0] ++ [kTcpOptMss; kTcpOptMssLen] ++ be16 mss).
  { rewrite Hd1, wr_app_0, !wr_app, Hd, <- app_assoc, wr_app. unfold be16. rewrite <- Z.shiftr_div_pow2 by lia. done. }
  rewrite Hw. split_and!; [done| |rewrite Ht; done|done].
  rewrite Hp, Hd1, Hd, !length_app, !length_tcp_bytes by done. simpl. lia.
Qed.

Lemma build_segment_alloc pool a seq ack flags win payload mss w :
  build_segment pool a seq ack flags win payload mss w =
  match rte_pktmbuf_alloc pool w with
  | (None, w) => (None, w)
  | (Some m, w) =>
    match build_ethernet_header m (dst_mac a) (src_mac a) RTE_ETHER_TYPE_IPV4 with
    | None => drop_packet m w
    | Some (_, m) =>
      match build_ipv4_header m (src_ip a) (dst_ip a) IPPROTO_TCP 64 0 with
      | None => drop_packet m w
      | Some (ip, m) =>
        match build_tcp_header m (src_port a) (dst_port a) seq ack flags win with
        | None => drop_packet m w
        | Some (tcp, m) =>
          match put_mss m tcp mss with
          | None => drop_packet m w
          | Some m =>
            match (if bool_decide (payload = []) then Some m else snd <$> packet_append_payload m payload) with
            | None => drop_packet m w
            | Some m => (Some (finalize_tcp_header (finalize_ipv4_header m ip) ip tcp), w)
            end
          end
        end
      end
    end
  end.
Proof. unfold build_segment, pool_get, get_packet, put_mss. destruct (rte_pktmbuf_alloc pool w) as [[m|] w']; reflexivity. Qed.

(** Every mbuf [build_segment] takes from the pool it returns or frees. *)
Lemma held_build_segment `{!DpdkAccount E} pool a seq ack flags win payload mss w :
  held (build_segment pool a seq ack flags win payload mss w).2 =
  held w + owned [(build_segment pool a seq ack flags win payload mss w).1].
Proof.
  rewrite build_segment_alloc. pose proof (held_alloc pool w) as Ha.
  destruct (rte_pktmbuf_alloc pool w) as [[m|] w']; simpl in Ha; [|unfold owned; simpl; lia].
  repeat case_match; unfold drop_packet; simpl; rewrite ?held_free; unfold owned; simpl; lia.
Qed.

Lemma build_segment_ok `{!DpdkLaws E} pool a seq ack flags win payload mss w m w' :
  mac_ok (src_mac a) → mac_ok (dst_mac a) → rte_pktmbuf_alloc pool w = (Some m, w') →
  frame_len payload mss <= m_tailroom m → frame_len payload mss < 2 ^ 16 →
  ∃ pkt, build_segment pool a seq ack flags win payload mss w = (Some pkt, w') ∧
    m_data pkt = frame a seq ack flags win payload mss ∧ contiguous pkt.
Proof.
  intros Hsm Hdm Ha Hr Hb. unfold frame_len in *. rewrite build_segment_alloc, Ha.
  apply alloc_fresh in Ha as (Hc & Hd & Ht). 
  destruct (build_ethernet_spec m (dst_mac a) (src_mac a) RTE_ETHER_TYPE_IPV4) as (m1 & -> & Hd1 & Hc1 & Ht1); [done..|lia|].
  rewrite Hd in Hd1. simpl in Hd1. rewrite length_eth_bytes in Ht1 by done.
  destruct (build_ipv4_spec m1 (src_ip a) (dst_ip a) IPPROTO_TCP 64 0) as (m2 & -> & Hd2 & Hc2 & Ht2); [done|lia|].
  rewrite length_ip_bytes in Ht2 by done.
  destruct (build_tcp_spec m2 (src_port a) (dst_port a) seq ack flags win) as (m3 & -> & Hd3 & Hc3 & Ht3); [done|lia|].
  rewrite length_tcp_bytes in Ht3 by done.
  destruct (put_mss_spec m3 (m_data m2) (src_port a) (dst_port a) seq ack flags win mss) as (m4 & -> & Hc4 & Ht4 & Hd4);
    [done|lia|done|].
  assert (Hp : ∃ m5, (if bool_decide (payload = []) then Some m4 else snd <$> packet_append_payload m4 payload) = Some m5 ∧
      contiguous m5 ∧ m_data m5 = m_data m4 ++ payload).
  { case_bool_decide as Ep; [exists m4; subst payload; by rewrite app_nil_r|].
    destruct (append_payload_spec m4 payload) as (m5 & -> & ? & ? & ?); [done|lia|]. by exists m5. }
  destruct Hp as (m5 & -> & Hc5 & Hd5). eexists. split; [reflexivity|].
  set (rest := mss_bytes mss ++ payload). 
  assert (Hl1 : length (m_data m1) = 14%nat) by (rewrite Hd1; by apply length_eth_bytes).
  assert (Hl2 : length (m_data m2) = (length (m_data m1) + 20)%nat) by (rewrite Hd2, length_app, length_ip_bytes by done; lia).
  assert (Hd5' : m_data m5 = m_data m1 ++ ip_bytes 0 0 64 IPPROTO_TCP [0; 0] (src_ip a) (dst_ip a) ++
      (tcp_header a seq ack flags win mss [0; 0] ++ rest)).
  { rewrite Hd5, Hd4, Hd2. subst rest. unfold tcp_header. by rewrite <- !app_assoc. }
  assert (Hlr : length (tcp_header a seq ack flags win mss [0; 0] ++ rest) = (20 + length rest)%nat)
    by (rewrite length_app; unfold tcp_header; by rewrite length_tcp_bytes).
  assert (Hrest : Z.of_nat (length rest) = Z.of_nat (length (mss_bytes mss)) + Z.of_nat (length payload))
    by (subst rest; rewrite length_app; lia).
  destruct (finalize_ipv4_spec m5 (m_data m1) 0 64 IPPROTO_TCP (src_ip a) (dst_ip a)
      (tcp_header a seq ack flags win mss [0; 0] ++ rest) Hc5 Hd5') as (Hd6 & Hc6 & _).
  { rewrite Hd5', !length_app, length_ip_bytes, Hl1 by done. rewrite length_app in Hlr. lia. }
  replace (20 + Z.of_nat (length (tcp_header a seq ack flags win mss [0; 0] ++ rest)))
    with (40 + Z.of_nat (length rest)) in Hd6 by lia. fold (ip_header a (40 + Z.of_nat (length rest))) in Hd6.
  destruct (finalize_tcp_spec (finalize_ipv4_header m5 (length (m_data m1))) (m_data m1) 0 (40 + Z.of_nat (length rest)) 64
      (le16 (rte_ipv4_cksum (ip_bytes 0 (40 + Z.of_nat (length rest)) 64 IPPROTO_TCP [0; 0] (src_ip a) (dst_ip a))))
      (src_ip a) (dst_ip a) (src_port a) (dst_port a) seq ack (data_off_byte mss) flags win rest) as (Hd7 & Hc7 & _);
    [reflexivity|done|done|lia|exact Hd6|].
  rewrite Hl2. split; [|done]. rewrite Hd7. unfold frame. fold rest. by rewrite Hd1.
Qed.

(** A buffer too small for the frame yields no packet. *)
Lemma build_segment_small `{!DpdkLaws E} pool a seq ack flags win payload mss w m w' :
  mac_ok (src_mac a) → mac_ok (dst_mac a) → rte_pktmbuf_alloc pool w = (Some m, w') →
  m_tailroom m < frame_len payload mss → (build_segment pool a seq ack flags win payload mss w).1 = None.
Proof.
  intros Hsm Hdm Ha Hr. unfold frame_len in *. rewrite build_segment_alloc, Ha.
  apply alloc_fresh in Ha as (Hc & _ & _).
  destruct (Z.lt_ge_cases (m_tailroom m) 14).
  { unfold build_ethernet_header. by rewrite packet_append_None by (unfold sizeof_ether_hdr; lia). }
  destruct (build_ethernet_spec m (dst_mac a) (src_mac a) RTE_ETHER_TYPE_IPV4) as (m1 & -> & _ & Hc1 & Ht1); [done..|lia|].
  rewrite length_eth_bytes in Ht1 by done.
  destruct (Z.lt_ge_cases (m_tailroom m1) 20).
  { unfold build_ipv4_header. by rewrite packet_append_None by (unfold sizeof_ipv4_hdr; lia). }
  destruct (build_ipv4_spec m1 (src_ip a) (dst_ip a) IPPROTO_TCP 64 0) as (m2 & -> & Hd2 & Hc2 & Ht2); [done|lia|].
  rewrite length_ip_bytes in Ht2 by done.
  destruct (Z.lt_ge_cases (m_tailroom m2) 20).
  { unfold build_tcp_header. by rewrite packet_append_None by (unfold sizeof_tcp_hdr; lia). }
  destruct (build_tcp_spec m2 (src_port a) (dst_port a) seq ack flags win) as (m3 & -> & Hd3 & Hc3 & Ht3); [done|lia|].
  rewrite length_tcp_bytes in Ht3 by done. pose proof (length_mss_bytes mss) as Hml.
  destruct (Z.lt_ge_cases (m_tailroom m3) (Z.of_nat (length (mss_bytes mss)))).
  { unfold put_mss. destruct (mss =? 0); [rewrite Hml in *; simpl in *; destruct payload; simpl in *; [lia|]|].
    - rewrite append_payload_None by (simpl; lia). done.
    - by rewrite packet_append_None by (unfold kTcpOptMssLen; rewrite Hml in *; lia). }
  destruct (put_mss_spec m3 (m_data m2) (src_port a) (dst_port a) seq ack flags win mss) as (m4 & -> & Hc4 & Ht4 & _);
    [done|lia|done|].
  rewrite bool_decide_false by (intros ->; simpl in *; lia). by rewrite append_payload_None by lia.
Qed.

(** So what [build_segment] returns is always the frame. *)
Lemma build_segment_frame `{!DpdkLaws E} pool a seq ack flags win payload mss w pkt w' :
  mac_ok (src_mac a) → mac_ok (dst_mac a) → frame_len payload mss < 2 ^ 16 →
  build_segment pool a seq ack flags win payload mss w = (Some pkt, w') →
  m_data pkt = frame a seq ack flags win payload mss ∧ contiguous pkt.
Proof.
  intros Hsm Hdm Hl Hb. destruct (rte_pktmbuf_alloc pool w) as [[m|] w1] eqn:Ha.
  - destruct (Z.lt_ge_cases (m_tailroom m) (frame_len payload mss)) as [Hs|Hs].
    + pose proof (build_segment_small pool a seq ack flags win payload mss w m w1 Hsm Hdm Ha Hs) as Hn. by rewrite Hb in Hn.
    + destruct (build_segment_ok pool a seq ack flags win payload mss w m w1) as (p & Hp & Hd & Hc); [done..|].
      rewrite Hb in Hp. by injection Hp as <- <-.
  - rewrite build_segment_alloc, Ha in Hb. done.
Qed.

(** Building sends nothing. *)
Lemma wire_build_segment `{!DpdkWire E} p q pool a seq ack flags win payload mss w :
  wire p q (build_segment pool a seq ack flags win payload mss w).2 = wire p q w.
Proof.
  rewrite build_segment_alloc. pose proof (wire_alloc p q pool w) as Ha.
  destruct (rte_pktmbuf_alloc pool w) as [[m|] w']; simpl in Ha; [|done].
  repeat case_match; unfold drop_packet; simpl; rewrite ?wire_free; done.
Qed.
End build_proofs.

(** ** Reading a frame back *)

(** The segment a receiver should see. *)
Definition segment_of (a : segment_addr) (seq ack flags window : Z) (payload : list Z) (mss : Z) : segment :=
  {| seg_src_mac := src_mac a; seg_src_ip := src_ip a; seg_src_port := src_port a; seg_dst_port := dst_port a;
     seg_seq := seq; seg_ack := ack; seg_flags := flags; seg_window := window;
     seg_payload := payload; seg_len := Z.of_nat (length payload); seg_options := mss_bytes mss |}.

(** Fields that fit the header. *)
Record fields_ok (a : segment_addr) (seq ack flags window : Z) (payload : list Z) (mss : Z) : Prop := {
  fo_smac : mac_ok (src_mac a); fo_dmac : mac_ok (dst_mac a);
  fo_sip : is_u32 (src_ip a); fo_sip0 : src_ip a ≠ 0; fo_dip : is_u32 (dst_ip a);
  fo_sp : is_u16 (src_port a); fo_dp : is_u16 (dst_port a);
  fo_seq : is_u32 seq; fo_ack : is_u32 ack; fo_flags : is_u8 flags; fo_win : is_u16 window;
  fo_pay : bytes payload; fo_mss : is_u16 mss; fo_len : frame_len payload mss < 2 ^ 16 }.

Lemma bytes_ip_bytes L ck s d : bytes ck → bytes (ip_bytes 0 L 64 IPPROTO_TCP ck s d).
Proof. intros Hc. unfold ip_bytes, IPPROTO_TCP, RTE_IPV4_VHL_DEF. solve_bytes. Qed.
Lemma bytes_tcp_header a seq ack flags win mss ck : is_u8 flags → bytes ck →
  bytes (tcp_header a seq ack flags win mss ck).
Proof. intros Hf Hc. unfold tcp_header, tcp_bytes, data_off_byte. solve_bytes. Qed.
Lemma bytes_mss mss : bytes (mss_bytes mss).
Proof. unfold mss_bytes, kTcpOptMss, kTcpOptMssLen. destruct (mss =? 0); solve_bytes. Qed.
#[export] Hint Resolve bytes_ip_bytes bytes_tcp_header bytes_mss : wire.

Section parse_proofs.
Context {E : Type} `{DpdkOps E} `{!DpdkLaws E}.

Lemma ip_header_verifies a L : rte_ipv4_cksum (ip_header a L) = 0.
Proof.
  pose proof (ipv4_cksum_ok (ip_bytes 0 L 64 IPPROTO_TCP [0; 0] (src_ip a) (dst_ip a))) as Hv.
  rewrite <- Hv; [reflexivity|by apply length_ip_bytes| |done].
  apply bytes_ip_bytes. solve_bytes.
Qed.

Lemma tcp_segment_verifies a seq ack flags win mss rest : is_u8 flags → bytes rest →
  Z.of_nat (length rest) <= 65515 →
  let iph := ip_header a (40 + Z.of_nat (length rest)) in
  tcp_checksum_ok iph (tcp_header a seq ack flags win mss
    (le16 (rte_ipv4_udptcp_cksum iph (tcp_header a seq ack flags win mss [0; 0] ++ rest))) ++ rest) = true.
Proof.
  intros Hf Hr Hl iph. unfold tcp_checksum_ok. apply Z.eqb_eq.
  rewrite <- (tcp_cksum_ok iph (tcp_header a seq ack flags win mss [0; 0] ++ rest)); [reflexivity|..].
  - by apply length_ip_bytes.
  - apply bytes_ip_bytes. auto with wire.
  - apply bytes_app. split; [|done]. apply bytes_tcp_header; [done|solve_bytes].
  - rewrite length_app. unfold tcp_header. rewrite length_tcp_bytes by done. lia.
  - reflexivity.
  - reflexivity.
Qed.

(** [parse_tcp] on a frame with a 20-byte IP header, an option block [opts]
    and a payload, whatever the checksum bytes are. *)
Lemma parse_tcp_fields verify dmac smac ick0 ick1 sip dip sp dp seq ack off flags win ck0 ck1 opts payload :
  let iph := ip_bytes 0 (40 + Z.of_nat (length (opts ++ payload))) 64 IPPROTO_TCP [ick0; ick1] sip dip in
  let l4 := tcp_bytes sp dp seq ack off flags win [ck0; ck1] ++ opts ++ payload in
  length dmac = 6%nat → length smac = 6%nat →
  Z.of_nat (length (opts ++ payload)) <= 65495 → u16 (Z.shiftr off 4 * 4) = 20 + Z.of_nat (length opts) →
  tcp_checksum_ok iph l4 = true →
  parse_tcp verify (eth_bytes dmac smac RTE_ETHER_TYPE_IPV4 ++ iph ++ l4) 20 (40 + Z.of_nat (length (opts ++ payload))) =
  V_tcp {| seg_src_mac := smac; seg_src_ip := u32 sip; seg_src_port := u16 sp; seg_dst_port := u16 dp;
           seg_seq := u32 seq; seg_ack := u32 ack; seg_flags := flags; seg_window := u16 win;
           seg_payload := payload; seg_len := Z.of_nat (length payload); seg_options := opts |}.
Proof.
  intros iph l4 Hd Hs Hl Hoff Hck. explode dmac Hd. explode smac Hs.
  unfold parse_tcp. cbv zeta. change (sizeof_ether_hdr + Z.to_nat 20)%nat with 34%nat.
  set (bs := eth_bytes _ _ _ ++ _). set (rest := opts ++ payload) in *.
  assert (Hr : Z.of_nat (length rest) = Z.of_nat (length opts) + Z.of_nat (length payload))
    by (subst rest; rewrite length_app; lia).
  assert (Hbs : ∀ n k, sub bs (34 + k) n = sub l4 k n) by reflexivity.
  assert (Hl4 : length l4 = (20 + length rest)%nat) by (subst l4; rewrite length_app, length_tcp_bytes by done; done).
  change (ipv4_hdr_at bs sizeof_ether_hdr) with iph.
  replace (u16 _) with (20 + Z.of_nat (length rest)) by mlia.
  change (rd8 bs (34 + 12)) with off. rewrite Hoff.
  assert (Hsub : sub bs 34 (Z.to_nat (20 + Z.of_nat (length rest))) = l4).
  { change 34%nat with (34 + 0)%nat. rewrite Hbs. apply take_ge. change (drop 0 l4) with l4. lia. }
  rewrite Hsub, Hck, andb_false_r.
  destruct (Z.ltb_spec (20 + Z.of_nat (length rest)) (Z.of_nat sizeof_tcp_hdr)); [change (Z.of_nat sizeof_tcp_hdr) with 20 in *; lia|].
  destruct (Z.ltb_spec (20 + Z.of_nat (length opts)) (Z.of_nat sizeof_tcp_hdr)); [change (Z.of_nat sizeof_tcp_hdr) with 20 in *; lia|].
  destruct (Z.ltb_spec (20 + Z.of_nat (length rest)) (20 + Z.of_nat (length opts))); [lia|]. cbn [orb].
  rewrite (Hbs _ (Z.to_nat (20 + Z.of_nat (length opts)))).
  assert (Hopt : sub bs (34 + 20) (Z.to_nat (20 + Z.of_nat (length opts) - Z.of_nat sizeof_tcp_hdr)) = opts).
  { rewrite Hbs. change (sub l4 20 ?n) with (take n (opts ++ payload)). rewrite take_app_length'; [done|change (Z.of_nat sizeof_tcp_hdr) with 20; lia]. }
  assert (Hpay : sub l4 (Z.to_nat (20 + Z.of_nat (length opts)))
                   (Z.to_nat (20 + Z.of_nat (length rest) - (20 + Z.of_nat (length opts)))) = payload).
  { replace (Z.to_nat (20 + Z.of_nat (length opts))) with (20 + length opts)%nat by lia.
    unfold sub. rewrite <- drop_drop. change (drop 20 l4) with rest. subst rest. rewrite drop_app_length. apply take_ge. lia. }
  rewrite Hopt, Hpay. f_equal. f_equal; try reflexivity.
  - apply (rd32_be32 sip []).
  - apply (rd16_be16 sp []).
  - apply (rd16_be16 dp []).
  - apply (rd32_be32 seq []).
  - apply (rd32_be32 ack []).
  - apply (rd16_be16 win []).
  - rewrite Hr. mlia.
Qed.

(** The IP half of [process]: a frame [frame] built for [local_ip] reaches
    [process_tcp] with a 20-byte header. *)
Lemma parse_frame_ip verify pkt dmac smac L ick0 ick1 sip dip l4 :
  let iph := ip_bytes 0 L 64 IPPROTO_TCP [ick0; ick1] sip dip in
  mac_ok dmac → mac_ok smac → contiguous pkt →
  m_data pkt = eth_bytes dmac smac RTE_ETHER_TYPE_IPV4 ++ iph ++ l4 →
  L = 20 + Z.of_nat (length l4) → L < 2 ^ 16 - 14 → is_u32 dip → is_u32 sip → sip ≠ 0 → rte_ipv4_cksum iph = 0 →
  parse_frame verify dip pkt = parse_tcp verify (m_data pkt) 20 L.
Proof.
  intros iph Hd Hs [Hseg Hlen] Hdata HL Hb Hdip Hsip Hsip0 Hck.
  assert (Hpl : m_pkt_len pkt = 14 + L).
  { subst iph. rewrite Hlen, Hdata, !length_app, length_eth_bytes, length_ip_bytes by done. lia. }
  unfold parse_frame, packet_length, is_contiguous. rewrite Hpl, Hseg, Hdata.
  destruct Hd as [Hd _], Hs as [Hs _]. explode dmac Hd. explode smac Hs. set (bs := eth_bytes _ _ _ ++ _).
  change (ipv4_hdr_at bs sizeof_ether_hdr) with iph.
  change (rd16 bs 12) with RTE_ETHER_TYPE_IPV4. change (rd8 bs sizeof_ether_hdr) with RTE_IPV4_VHL_DEF.
  change (rd16 bs (sizeof_ether_hdr + 2)) with (rd16 (be16 L ++ []) 0).
  change (rd32 bs (sizeof_ether_hdr + 16)) with (rd32 (be32 dip ++ []) 0).
  change (rd32 bs (sizeof_ether_hdr + 12)) with (rd32 (be32 sip ++ []) 0).
  change (rd8 bs (sizeof_ether_hdr + 9)) with IPPROTO_TCP. change (rd16 bs (sizeof_ether_hdr + 6)) with 0.
  rewrite rd16_be16, !rd32_be32, (u16_id L), !u32_id, Hck by (done || mlia).
  change (Z.of_nat sizeof_ether_hdr) with 14. change (Z.of_nat sizeof_ipv4_hdr) with 20.
  change (u16 (Z.land RTE_IPV4_VHL_DEF 15 * 4)) with 20. cbv zeta.
  replace (u16 (14 + L)) with (14 + L) by mlia. replace (u16 (14 + L - 14)) with L by mlia.
  destruct (Z.ltb_spec (14 + L) 14); [lia|]. destruct (Z.ltb_spec L 20); [lia|].
  destruct (Z.ltb_spec L L); [lia|]. rewrite (Z.eqb_refl dip). destruct (Z.eqb_spec sip 0); [done|].
  by destruct verify.
Qed.

Lemma parse_frame_frame verify pkt a seq ack flags win payload mss : fields_ok a seq ack flags win payload mss →
  contiguous pkt → m_data pkt = frame a seq ack flags win payload mss →
  parse_frame verify (dst_ip a) pkt = V_tcp (segment_of a seq ack flags win payload mss).
Proof.
  intros [Hsm Hdm Hsip Hsip0 Hdip Hsp Hdp Hseq Hack Hfl Hwin Hpay Hmss Hlen] Hc Hd.
  pose proof (length_mss_bytes mss) as Hml. unfold frame_len in Hlen.
  assert (Hr : Z.of_nat (length (mss_bytes mss ++ payload)) = Z.of_nat (length (mss_bytes mss)) + Z.of_nat (length payload))
    by (rewrite length_app; lia).
  rewrite (parse_frame_ip verify pkt (dst_mac a) (src_mac a) (40 + Z.of_nat (length (mss_bytes mss ++ payload))) _ _
             (src_ip a) (dst_ip a) _ Hdm Hsm Hc Hd);
    [|rewrite !length_app; unfold tcp_header; rewrite length_tcp_bytes by done; lia|rewrite Hr; lia|done|done|done|apply ip_header_verifies].
  rewrite Hd. unfold frame, ip_header, tcp_header, le16.
  rewrite parse_tcp_fields; [|apply Hdm|apply Hsm|lia| |].
  - unfold segment_of. by rewrite !u32_id, !u16_id by done.
  - rewrite Hml. unfold data_off_byte. destruct (mss =? 0); reflexivity.
  - apply (tcp_segment_verifies a seq ack flags win mss (mss_bytes mss ++ payload)); [done| |lia].
    apply bytes_app; auto with wire.
Qed.

(** C23. Build/parse round trip: every segment the stack builds, for any
    addresses, ports, sequence numbers, flags, window, payload and MSS
    option that fit their fields and the buffer, is accepted by a receiver
    whose address is the destination, with checksum verification on or off,
    and comes back with every field, the payload and the options unchanged. *)
Theorem segment_roundtrip (verify : bool) pool a seq ack flags win payload mss (w w' : E) m :
  fields_ok a seq ack flags win payload mss →
  rte_pktmbuf_alloc pool w = (Some m, w') → frame_len payload mss <= m_tailroom m →
  ∃ pkt, build_segment pool a seq ack flags win payload mss w = (Some pkt, w') ∧
    packet_length pkt = frame_len payload mss ∧
    parse_frame verify (dst_ip a) pkt = V_tcp (segment_of a seq ack flags win payload mss) ∧
    (mss ≠ 0 → parse_mss_option (seg_options (segment_of a seq ack flags win payload mss)) = mss).
Proof.
  intros Hf Ha Hr.
  destruct (build_segment_ok pool a seq ack flags win payload mss w m w') as (pkt & Hb & Hd & Hc);
    [apply Hf|apply Hf|done|done|apply Hf|]. exists pkt. split_and!; [done| |by apply parse_frame_frame|].
  - unfold packet_length. destruct Hc as [_ ->]. rewrite Hd. unfold frame, frame_len, ip_header, tcp_header.
    rewrite !length_app, length_eth_bytes, length_ip_bytes, length_tcp_bytes by (done || apply Hf).
    pose proof (fo_len _ _ _ _ _ _ _ Hf) as Hl. unfold frame_len in Hl. rewrite u16_id; unfold is_u16; lia.
  - intros Hm. simpl. unfold mss_bytes. destruct (Z.eqb_spec mss 0); [done|].
    pose proof (mss_loop_options [OMss mss] [] ltac:(repeat constructor; apply Hf) ltac:(by left) 5 [] ltac:(simpl; lia)) as Hl.
    unfold parse_mss_option. change (mss_loop 5 ([kTcpOptMss; kTcpOptMssLen] ++ be16 mss) 4 0 = MssValue (advertised_mss [OMss mss])) in Hl.
    change (mss_loop _ _ _ 0) with (mss_loop 5 ([kTcpOptMss; kTcpOptMssLen] ++ be16 mss) 4 0). rewrite Hl. simpl.
    by destruct (Z.eqb_spec mss 0).
Qed.
End parse_proofs.

Section trip_run.
#[local] Existing Instances sim.ops sim.laws.

Definition trip_addr : segment_addr :=
  {| src_mac := [2; 0; 0; 0; 0; 1]; dst_mac := [2; 0; 0; 0; 0; 2]; src_ip := 0x0a000001; dst_ip := 0x0a000002;
     src_port := 80; dst_port := 40000 |}.

(** A SYN,ACK with an MSS option and some payload bytes. *)
Lemma segment_roundtrip_witness : ∃ pkt,
  build_segment 0 trip_addr 1000 2000 0x12 65535 [104; 105] 1460 (sim.start 8 2048) = (Some pkt, (rte_pktmbuf_alloc 0 (sim.start 8 2048)).2) ∧
  parse_frame true 0x0a000002 pkt = V_tcp (segment_of trip_addr 1000 2000 0x12 65535 [104; 105] 1460).
Proof.
  destruct (rte_pktmbuf_alloc 0 (sim.start 8 2048)) as [[m|] w'] eqn:Ha; [|discriminate].
  assert (Hroom : m_tailroom m = 2048) by (injection Ha as <- _; reflexivity).
  destruct (segment_roundtrip true 0 trip_addr 1000 2000 0x12 65535 [104; 105] 1460 (sim.start 8 2048) w' m)
    as (pkt & Hb & _ & Hp & _).
  - split; simpl; unfold mac_ok, bytes, is_u32, is_u16, is_u8, frame_len; try (simpl; lia);
      try (split; [reflexivity|]); repeat constructor; unfold is_u8; lia.
  - exact Ha.
  - rewrite Hroom. unfold frame_len. simpl. lia.
  - exists pkt. split; [exact Hb|exact Hp].
Defined.
End trip_run.
