(* ===== verification/Arp.v ===== *)
(** * ARP (src/arp.cpp, src/arp.h)

    [neighbor_table] is the fixed-capacity IPv4 -> MAC map of the inbound
    thread, open addressing with linear probing and no deletion; [handle_arp]
    is the RFC 826 receive path and [build_arp] the frame builder behind the
    requests and the replies.  [neigh_rep] relates a table to the finite map it
    stands for, and the operations are shown to be a bounded insertion, an
    update of known keys and a lookup in that map. *)

From S2P Require Import Prelude Probing FlowTable Dpdk DpdkSim Packet Headers.

Definition hash_ip (ip : Z) : Z := u32 (ip * 2654435769).

(** ** neighbor_table *)

Module neighbor_table.

Definition ether_addr : Type := list Z.
Definition no_mac : ether_addr := replicate 6 0.

Record neighbor_table := { slots_ : list (Z * ether_addr); mask_ : Z; capacity_ : Z; size_ : Z }.

Definition make (capacity : Z) : neighbor_table :=
  let n := bit_ceil (if capacity * 2 <? 2 then 2 else capacity * 2) in
  {| slots_ := replicate (Z.to_nat n) (0, no_mac); mask_ := n - 1; capacity_ := capacity; size_ := 0 |}.

(** The search loop; [None] is a loop that has visited every slot and would
    go on for ever. *)
Fixpoint find_slot_loop (fuel : nat) (es : list (Z * ether_addr)) (mask i ip : Z) : option Z :=
  match fuel with
  | O => None
  | S f =>
    if (key_at es i =? ip) || (key_at es i =? 0) then Some i
    else find_slot_loop f es mask (Z.land (i + 1) mask) ip
  end.

Definition find_slot (t : neighbor_table) (ip : Z) : option Z :=
  find_slot_loop (length (slots_ t)) (slots_ t) (mask_ t) (Z.land (hash_ip ip) (mask_ t)) ip.

Definition learn (t : neighbor_table) (ip : Z) (mac : ether_addr) : bool * neighbor_table :=
  if ip =? 0 then (false, t)
  else
    match find_slot t ip with
    | None => (false, t)
    | Some e =>
      if (key_at (slots_ t) e =? 0) && (capacity_ t <=? size_ t) then (false, t)
      else
        (true, {| slots_ := put (slots_ t) e (ip, mac); mask_ := mask_ t; capacity_ := capacity_ t;
                  size_ := if key_at (slots_ t) e =? 0 then size_ t + 1 else size_ t |})
    end.

Definition update_if_present (t : neighbor_table) (ip : Z) (mac : ether_addr) : bool * neighbor_table :=
  if ip =? 0 then (false, t)
  else
    match find_slot t ip with
    | None => (false, t)
    | Some e =>
      if negb (key_at (slots_ t) e =? ip) then (false, t)
      else (true, {| slots_ := put (slots_ t) e (key_at (slots_ t) e, mac); mask_ := mask_ t;
                     capacity_ := capacity_ t; size_ := size_ t |})
    end.

Definition lookup (t : neighbor_table) (ip : Z) : option ether_addr :=
  if ip =? 0 then None
  else
    match find_slot t ip with
    | None => None
    | Some e => if key_at (slots_ t) e =? ip then Some (ent (slots_ t) e).2 else None
    end.

(** *** The map a table stands for *)

Definition home (mask ip : Z) : Z := Z.land (hash_ip ip) mask.

Record neigh_rep (cap : Z) (t : neighbor_table) (m : gmap Z ether_addr) : Prop := {
  nr_pow : ∃ b, 1 <= b ∧ mask_ t + 1 = 2 ^ b;
  nr_room : cap < mask_ t + 1;
  nr_wf : probe_wf (mask_ t + 1) (home (mask_ t)) (slots_ t);
  nr_rep : rep (mask_ t + 1) (slots_ t) m;
  nr_cap : capacity_ t = cap;
  nr_size : size_ t = Z.of_nat (size m);
  nr_bound : Z.of_nat (size m) <= cap }.

Lemma neigh_home_inr b mask : 0 <= b → mask + 1 = 2 ^ b → ∀ k, inr (mask + 1) (home mask k).
Proof.
  intros Hb Hm k. unfold home, inr. rewrite (flow_table.land_mask b) by done. apply Z.mod_pos_bound. lia.
Qed.

Lemma find_slot_probe b mask fuel es i ip : 0 <= b → mask + 1 = 2 ^ b → inr (mask + 1) i →
  find_slot_loop fuel es mask i ip = probe (mask + 1) fuel es i ip.
Proof.
  intros Hb Hm. revert i. induction fuel as [|f IH]; intros i Hi; [done|]. simpl.
  destruct ((key_at es i =? ip) || (key_at es i =? 0)); [done|].
  rewrite <- (flow_table.step_nxt b) by done. apply IH. rewrite (flow_table.step_nxt b) by done. by apply nxt_spec.
Qed.

(** Where the search stops, and what that says of the map. *)
Lemma find_slot_spec cap t m ip : neigh_rep cap t m → ip ≠ 0 →
  ∃ p, find_slot t ip = Some p ∧ inr (mask_ t + 1) p ∧
    (key_at (slots_ t) p = ip ∨ key_at (slots_ t) p = 0) ∧
    (∀ q, inr (mask_ t + 1) q →
       dist (mask_ t + 1) (home (mask_ t) ip) q < dist (mask_ t + 1) (home (mask_ t) ip) p →
       key_at (slots_ t) q ≠ ip ∧ key_at (slots_ t) q ≠ 0) ∧
    m !! ip = if key_at (slots_ t) p =? ip then Some (ent (slots_ t) p).2 else None.
Proof.
  intros [(b & Hb & Hp) Hroom Hwf Hrep Hcap Hsz Hbd] Hk.
  assert (Hh := neigh_home_inr b (mask_ t) ltac:(lia) Hp).
  assert (He : has_empty (mask_ t + 1) (slots_ t)) by (eapply rep_has_empty; eauto; lia).
  destruct (probe_total _ _ Hh (slots_ t) (home (mask_ t) ip) ip He (Hh ip)) as (p & Hpr & Hi & Hkp & Hq).
  exists p. unfold find_slot. rewrite (find_slot_probe b) by (done || lia || apply Hh).
  replace (length (slots_ t)) with (Z.to_nat (mask_ t + 1)) by (pose proof (pw_len _ _ _ Hwf); lia).
  split_and!; [done..|]. eapply probe_rep; eauto.
Qed.

(** *** The operations on the map *)

Definition spec_learn (cap : Z) (m : gmap Z ether_addr) (ip : Z) (mac : ether_addr) : bool * gmap Z ether_addr :=
  if decide (ip = 0 ∨ m !! ip = None ∧ cap <= Z.of_nat (size m)) then (false, m) else (true, <[ip := mac]> m).
Definition spec_update (m : gmap Z ether_addr) (ip : Z) (mac : ether_addr) : bool * gmap Z ether_addr :=
  if decide (is_Some (m !! ip)) then (true, <[ip := mac]> m) else (false, m).

Lemma rep_zero N es (m : gmap Z ether_addr) : rep N es m → m !! 0 = None.
Proof. intros Hr. apply eq_None_not_Some. intros [v [Hv _]%Hr]. done. Qed.

Lemma learn_spec cap t m ip mac : neigh_rep cap t m →
  (learn t ip mac).1 = (spec_learn cap m ip mac).1 ∧
  neigh_rep cap (learn t ip mac).2 (spec_learn cap m ip mac).2.
Proof.
  intros Hr. unfold learn, spec_learn. destruct (Z.eqb_spec ip 0) as [->|Hk].
  { rewrite decide_True by auto. done. }
  destruct (find_slot_spec _ _ _ _ Hr Hk) as (p & -> & Hi & Hkp & Hq & Hl).
  pose proof Hr as [(b & Hb & Hp) Hroom Hwf Hrep Hcap Hsz Hbd].
  assert (Hh := neigh_home_inr b (mask_ t) ltac:(lia) Hp). rewrite Hcap, Hsz.
  assert (Hz : (key_at (slots_ t) p =? 0) = bool_decide (m !! ip = None)).
  { rewrite Hl. destruct Hkp as [E|E]; rewrite E, ?Z.eqb_refl.
    - rewrite bool_decide_false by done. lia.
    - by destruct (Z.eqb_spec 0 ip); [congruence|]. }
  rewrite Hz. case_decide as Hd.
  - destruct Hd as [?|[Hn Hf]]; [done|]. rewrite bool_decide_true by done. by rewrite (proj2 (Z.leb_le _ _) Hf).
  - assert (Hfull : bool_decide (m !! ip = None) && (cap <=? Z.of_nat (size m)) = false).
    { case_bool_decide; [|done]. apply Z.leb_gt. destruct (Z.lt_ge_cases (Z.of_nat (size m)) cap); [done|]. exfalso. auto. }
    rewrite Hfull. split; [done|]. pose proof (map_size_insert ip mac m) as Hs. split; cbn; try done.
    + by eauto.
    + by apply fill_wf.
    + by apply (fill_rep _ _ Hh).
    + rewrite Hs. case_bool_decide as E; [rewrite E; simpl; lia|]. destruct (m !! ip); [done|congruence].
    + rewrite Hs. destruct (m !! ip) eqn:E; [done|]. rewrite bool_decide_true in Hfull by done. simpl in *. lia.
Qed.

Lemma update_spec cap t m ip mac : neigh_rep cap t m →
  (update_if_present t ip mac).1 = (spec_update m ip mac).1 ∧
  neigh_rep cap (update_if_present t ip mac).2 (spec_update m ip mac).2.
Proof.
  intros Hr. unfold update_if_present, spec_update. destruct (Z.eqb_spec ip 0) as [->|Hk].
  { rewrite decide_False; [done|]. rewrite (rep_zero _ _ _ (nr_rep _ _ _ Hr)). by intros [? ?]. }
  destruct (find_slot_spec _ _ _ _ Hr Hk) as (p & -> & Hi & Hkp & Hq & Hl).
  pose proof Hr as [(b & Hb & Hp) Hroom Hwf Hrep Hcap Hsz Hbd].
  assert (Hh := neigh_home_inr b (mask_ t) ltac:(lia) Hp).
  destruct (Z.eqb_spec (key_at (slots_ t) p) ip) as [E|E]; simpl.
  - rewrite decide_True by (rewrite Hl; eauto). split; [done|].
    pose proof (map_size_insert ip mac m) as Hs. rewrite Hl in Hs. rewrite E. split; cbn; try done.
    + by eauto.
    + by apply fill_wf.
    + by apply (fill_rep _ _ Hh).
    + by rewrite Hs.
    + by rewrite Hs.
  - rewrite decide_False; [done|]. rewrite Hl. by intros [? ?].
Qed.

Lemma lookup_spec cap t m ip : neigh_rep cap t m → lookup t ip = m !! ip.
Proof.
  intros Hr. unfold lookup. destruct (Z.eqb_spec ip 0) as [->|Hk].
  - by rewrite (rep_zero _ _ _ (nr_rep _ _ _ Hr)).
  - by destruct (find_slot_spec _ _ _ _ Hr Hk) as (p & -> & _ & _ & _ & ->).
Qed.

Lemma neigh_make_spec cap : 0 <= cap → neigh_rep cap (make cap) ∅.
Proof.
  intros Hc. unfold make, bit_ceil. set (n := if cap * 2 <? 2 then 2 else cap * 2).
  assert (Hn : 2 <= n ∧ cap < n) by (unfold n; destruct (Z.ltb_spec (cap * 2) 2); lia).
  pose proof (Z.log2_up_spec n ltac:(lia)). pose proof (Z.log2_up_le_mono 2 n ltac:(lia)) as Hl.
  change (Z.log2_up 2) with 1 in Hl. set (b := Z.log2_up n) in *.
  assert (Hk : ∀ q, inr (2 ^ b) q → ent (replicate (Z.to_nat (2 ^ b)) (0, no_mac)) q = (0, no_mac)).
  { intros q Hq. apply lookup_total_replicate_2. unfold inr in Hq. lia. }
  assert (Hm : 2 ^ b - 1 + 1 = 2 ^ b) by lia.
  split; cbn [mask_ slots_ capacity_ size_]; rewrite ?Hm, ?map_size_empty; try done.
  - exists b. lia.
  - lia.
  - split; [rewrite length_replicate; lia| |]; intros x y Hx Hy; unfold key_at; rewrite !Hk by done; done.
  - intros k v. rewrite lookup_empty. split; [done|]. intros (Hnz & q & Hq & Eq). rewrite Hk in Eq by done. congruence.
Qed.

(** *** Histories *)

Inductive op := Learn (ip : Z) (mac : ether_addr) | Update (ip : Z) (mac : ether_addr).

Definition run_op (t : neighbor_table) (o : op) : bool * neighbor_table :=
  match o with Learn ip mac => learn t ip mac | Update ip mac => update_if_present t ip mac end.
Definition spec_op (cap : Z) (m : gmap Z ether_addr) (o : op) : bool * gmap Z ether_addr :=
  match o with Learn ip mac => spec_learn cap m ip mac | Update ip mac => spec_update m ip mac end.

Fixpoint run_ops (t : neighbor_table) (os : list op) : list bool * neighbor_table :=
  match os with
  | [] => ([], t)
  | o :: os => let '(b, t) := run_op t o in let '(bs, t) := run_ops t os in (b :: bs, t)
  end.
Fixpoint spec_ops (cap : Z) (m : gmap Z ether_addr) (os : list op) : list bool * gmap Z ether_addr :=
  match os with
  | [] => ([], m)
  | o :: os => let '(b, m) := spec_op cap m o in let '(bs, m) := spec_ops cap m os in (b :: bs, m)
  end.

Lemma run_op_rep cap t m o : neigh_rep cap t m →
  (run_op t o).1 = (spec_op cap m o).1 ∧ neigh_rep cap (run_op t o).2 (spec_op cap m o).2.
Proof. destruct o; [apply learn_spec|apply update_spec]. Qed.

Lemma neigh_run_ops_rep cap os t m : neigh_rep cap t m →
  (run_ops t os).1 = (spec_ops cap m os).1 ∧ neigh_rep cap (run_ops t os).2 (spec_ops cap m os).2.
Proof.
  revert t m. induction os as [|o os IH]; intros t m Hr; [done|]. simpl.
  destruct (run_op_rep cap t m o Hr) as [Hb Hr'].
  destruct (run_op t o) as [b t'], (spec_op cap m o) as [b' m']. simpl in *. subst b'.
  destruct (IH t' m' Hr') as [Hbs Hr'']. destruct (run_ops t' os), (spec_ops cap m' os). simpl in *. by subst.
Qed.

(** C28. The neighbour table is a finite map of at most [cap] entries:
    any history of [learn] and [update_if_present] calls on a table built
    for [cap] neighbours returns, call by call, what the map says (0.0.0.0
    and a new address in a full table are refused, an update needs a known
    address), leaves [size()] and every [lookup] as in the map, and every
    search of the slot array ends. *)
Theorem neighbor_table_refines_map (cap : Z) (os : list op) (ip : Z) : 0 <= cap →
  let t := (run_ops (make cap) os).2 in
  let m := (spec_ops cap ∅ os).2 in
  (run_ops (make cap) os).1 = (spec_ops cap ∅ os).1 ∧
  lookup t ip = m !! ip ∧ size_ t = Z.of_nat (size m) ∧ Z.of_nat (size m) <= cap ∧
  (ip ≠ 0 → is_Some (find_slot t ip)).
Proof.
  intros Hc t m. destruct (neigh_run_ops_rep cap os (make cap) ∅ (neigh_make_spec cap Hc)) as [Hb Hr].
  repeat apply conj; [done|by apply (lookup_spec cap)|exact (nr_size _ _ _ Hr)|exact (nr_bound _ _ _ Hr)|intros Hk].
  destruct (find_slot_spec _ _ _ _ Hr Hk) as (p & Hp & _). exact (mk_is_Some _ _ Hp).
Qed.

(** A table for two neighbours refuses the third, and the probe address. *)
Lemma neighbor_table_refines_map_witness :
  let os := [Learn 7 [1;1;1;1;1;1]; Learn 0 [2;2;2;2;2;2]; Update 9 [3;3;3;3;3;3]; Learn 8 [4;4;4;4;4;4];
             Learn 9 [5;5;5;5;5;5]; Learn 7 [6;6;6;6;6;6]] in
  (run_ops (make 2) os).1 = [true; false; false; true; false; true] ∧
  lookup (run_ops (make 2) os).2 7 = Some [6;6;6;6;6;6].
Proof.
  split.
  - refine (eq_trans (proj1 (neighbor_table_refines_map 2 _ 7 ltac:(lia))) _). vm_compute. reflexivity.
  - refine (eq_trans (proj1 (proj2 (neighbor_table_refines_map 2 _ 7 ltac:(lia)))) _). vm_compute. reflexivity.
Defined.
End neighbor_table.

(** ** Frames *)

Inductive arp_result := not_arp | ignored | learned | replied.

Section arp.
Context {E : Type} `{DpdkOps E}.

(** [arp] is the offset of the header in the packet. *)
Definition fill_arp (pkt : rte_mbuf) (arp : nat) (opcode : Z) (sha : list Z) (sip : Z) (tha : list Z) (tip : Z)
    : rte_mbuf :=
  let pkt := mbuf_write pkt arp (be16 RTE_ARP_HRD_ETHER) in
  let pkt := mbuf_write pkt (arp + 2) (be16 RTE_ETHER_TYPE_IPV4) in
  let pkt := mbuf_write pkt (arp + 4) [RTE_ETHER_ADDR_LEN] in
  let pkt := mbuf_write pkt (arp + 5) [4] in
  let pkt := mbuf_write pkt (arp + 6) (be16 opcode) in
  let pkt := mbuf_write pkt (arp + 8) sha in
  let pkt := mbuf_write pkt (arp + 14) (be32 sip) in
  let pkt := mbuf_write pkt (arp + 18) tha in
  mbuf_write pkt (arp + 24) (be32 tip).

Definition build_arp (pool : Z) (eth_dst : list Z) (opcode : Z) (sha : list Z) (sip : Z) (tha : list Z) (tip : Z)
    (w : E) : packet * E :=
  let '(pkt, w) := pool_get pool w in
  match pkt with
  | None => (None, w)
  | Some pkt =>
    match build_ethernet_header pkt eth_dst sha RTE_ETHER_TYPE_ARP with
    | None => (None, packet_dtor (Some pkt) w)
    | Some (_, pkt) =>
      match packet_append pkt (Z.of_nat sizeof_arp_hdr) with
      | None => (None, packet_dtor (Some pkt) w)
      | Some (arp, pkt) => (Some (fill_arp pkt arp opcode sha sip tha tip), w)
      end
    end
  end.

(** [reply] is the caller's packet the answer is move-assigned to. *)
Definition handle_arp (pkt : rte_mbuf) (local_mac : list Z) (local_ip : Z)
    (neighbors : neighbor_table.neighbor_table) (pool : Z) (reply : packet) (w : E)
    : arp_result * neighbor_table.neighbor_table * packet * E :=
  let bs := m_data pkt in
  if packet_length pkt <? Z.of_nat sizeof_ether_hdr then (not_arp, neighbors, reply, w)
  else if negb (rd16 bs 12 =? RTE_ETHER_TYPE_ARP) then (not_arp, neighbors, reply, w)
  else if packet_length pkt <? Z.of_nat (sizeof_ether_hdr + sizeof_arp_hdr) then (ignored, neighbors, reply, w)
  else
    let arp := sizeof_ether_hdr in
    if negb (rd16 bs arp =? RTE_ARP_HRD_ETHER) || negb (rd16 bs (arp + 2) =? RTE_ETHER_TYPE_IPV4) ||
       negb (rd8 bs (arp + 4) =? RTE_ETHER_ADDR_LEN) || negb (rd8 bs (arp + 5) =? 4)
    then (ignored, neighbors, reply, w)
    else
      let opcode := rd16 bs (arp + 6) in
      let sip := rd32 bs (arp + 14) in
      let tip := rd32 bs (arp + 24) in
      let sha := sub bs (arp + 8) 6 in
      let for_us := tip =? local_ip in
      let '(did_learn, neighbors) :=
        if for_us then neighbor_table.learn neighbors sip sha
        else neighbor_table.update_if_present neighbors sip sha in
      if for_us && (opcode =? RTE_ARP_OP_REQUEST) then
        let '(built, w) := build_arp pool sha RTE_ARP_OP_REPLY local_mac local_ip sha sip w in
        let w := packet_dtor reply w in
        (match built with Some _ => replied | None => learned end, neighbors, built, w)
      else (if did_learn then learned else ignored, neighbors, reply, w).

Definition build_arp_request (pool : Z) (local_mac : list Z) (local_ip target_ip : Z) (w : E) : packet * E :=
  let broadcast := replicate 6 0xff in
  build_arp pool broadcast RTE_ARP_OP_REQUEST local_mac local_ip (replicate 6 0) target_ip w.
End arp.

(** The wire format of RFC 826 for IPv4 over Ethernet. *)
Definition arp_bytes (opcode : Z) (sha : list Z) (sip : Z) (tha : list Z) (tip : Z) : list Z :=
  be16 RTE_ARP_HRD_ETHER ++ be16 RTE_ETHER_TYPE_IPV4 ++ [RTE_ETHER_ADDR_LEN; 4] ++ be16 opcode ++
  sha ++ be32 sip ++ tha ++ be32 tip.
Definition arp_frame (eth_dst : list Z) (opcode : Z) (sha : list Z) (sip : Z) (tha : list Z) (tip : Z) : list Z :=
  eth_bytes eth_dst sha RTE_ETHER_TYPE_ARP ++ arp_bytes opcode sha sip tha tip.

Lemma length_arp_bytes opcode sha sip tha tip : length sha = 6%nat → length tha = 6%nat →
  length (arp_bytes opcode sha sip tha tip) = 28%nat.
Proof. intros Hs Ht. unfold arp_bytes. rewrite !length_app, Hs, Ht. done. Qed.

Section arp_proofs.
Context {E : Type} `{DpdkOps E}.

Lemma held_build_arp `{!DpdkAccount E} pool dst opcode sha sip tha tip w :
  held (build_arp pool dst opcode sha sip tha tip w).2 =
  held w + owned [(build_arp pool dst opcode sha sip tha tip w).1].
Proof.
  unfold build_arp, pool_get, get_packet. pose proof (held_alloc pool w) as Ha.
  destruct (rte_pktmbuf_alloc pool w) as [[m|] w']; simpl in Ha; [|unfold owned; simpl; lia].
  repeat case_match; simpl; rewrite ?held_free; unfold owned; simpl; lia.
Qed.

Lemma held_handle_arp `{!DpdkAccount E} pkt mac ip nb pool reply w r nb' reply' w' :
  handle_arp pkt mac ip nb pool reply w = (r, nb', reply', w') →
  held w' = held w - owned [reply] + owned [reply'].
Proof.
  unfold handle_arp. intros Hh. repeat case_match; simplify_eq; try lia.
  all: match goal with Hb : build_arp ?pl ?d ?o ?h ?i ?th ?ti ?w0 = _ |- _ =>
         pose proof (held_build_arp pl d o h i th ti w0) as Hw; rewrite Hb in Hw
       end.
  all: rewrite held_dtor; simpl in Hw; lia.
Qed.

Lemma handle_arp_rep cap pkt mac ip nb m pool reply w r nb' reply' w' : neighbor_table.neigh_rep cap nb m →
  handle_arp pkt mac ip nb pool reply w = (r, nb', reply', w') → ∃ m', neighbor_table.neigh_rep cap nb' m'.
Proof.
  intros Hr Hh. set (sha := sub (m_data pkt) (sizeof_ether_hdr + 8) 6). set (sip := rd32 (m_data pkt) (sizeof_ether_hdr + 14)).
  pose proof (neighbor_table.learn_spec cap nb m sip sha Hr) as [_ Hl].
  pose proof (neighbor_table.update_spec cap nb m sip sha Hr) as [_ Hu].
  unfold handle_arp in Hh. fold sha sip in Hh.
  destruct (neighbor_table.learn nb sip sha), (neighbor_table.update_if_present nb sip sha). simpl in Hl, Hu.
  repeat case_match; simplify_eq; eauto.
Qed.

(** Only an answered request leaves a packet. *)
Lemma handle_arp_reply pkt mac ip nb pool w r nb' reply' w' :
  handle_arp pkt mac ip nb pool None w = (r, nb', reply', w') → r ≠ replied → reply' = None.
Proof. unfold handle_arp. intros Hh Hr. repeat case_match; simplify_eq; done. Qed.

Context `{!DpdkLaws E}.

Lemma build_arp_ok pool dst opcode sha sip tha tip w m w' :
  mac_ok dst → mac_ok sha → mac_ok tha → rte_pktmbuf_alloc pool w = (Some m, w') → 42 <= m_tailroom m →
  ∃ pkt, build_arp pool dst opcode sha sip tha tip w = (Some pkt, w') ∧ contiguous pkt ∧
    m_data pkt = arp_frame dst opcode sha sip tha tip.
Proof.
  intros Hd Hs Ht Ha Hr. unfold build_arp, pool_get, get_packet. rewrite Ha.
  apply alloc_fresh in Ha as (Hc & He & _).
  destruct (build_ethernet_spec m dst sha RTE_ETHER_TYPE_ARP) as (m1 & -> & Hd1 & Hc1 & Ht1); [done..|lia|].
  rewrite He in Hd1. simpl in Hd1. rewrite length_eth_bytes in Ht1 by done.
  destruct (packet_append_spec m1 (Z.of_nat sizeof_arp_hdr) Hc1 ltac:(unfold sizeof_arp_hdr; lia)) as (junk & m2 & Hj & _ & Hap & Hd2 & [Hsg Hpl] & _).
  rewrite Hap. eexists. split; [reflexivity|].
  assert (Hw : m_data (fill_arp m2 (length (m_data m1)) opcode sha sip tha tip) = arp_frame dst opcode sha sip tha tip).
  { destruct Hs as [Hs _], Ht as [Ht _]. change (Z.to_nat (Z.of_nat sizeof_arp_hdr)) with 28%nat in Hj.
    unfold fill_arp. cbn [mbuf_write m_data]. rewrite Hd2, wr_app_0, !wr_app, Hd1. unfold arp_frame. f_equal.
    explode junk Hj. explode sha Hs. explode tha Ht. reflexivity. }
  split; [|done]. split; [done|]. rewrite Hw. change (m_pkt_len (fill_arp _ _ _ _ _ _ _)) with (m_pkt_len m2).
  rewrite Hpl, Hd2, Hd1. unfold arp_frame.
  rewrite !length_app, Hj, length_eth_bytes, length_arp_bytes by (done || apply Hs || apply Ht). done.
Qed.

(** Reading an ARP frame. *)
Lemma handle_arp_frame pkt dst opcode sha sip tha tip mac ip nb pool reply w :
  mac_ok dst → mac_ok sha → mac_ok tha → is_u16 opcode → is_u32 sip → is_u32 tip → contiguous pkt →
  m_data pkt = arp_frame dst opcode sha sip tha tip →
  handle_arp pkt mac ip nb pool reply w =
  let '(did_learn, nb) := if tip =? ip then neighbor_table.learn nb sip sha
                          else neighbor_table.update_if_present nb sip sha in
  if (tip =? ip) && (opcode =? RTE_ARP_OP_REQUEST) then
    let '(built, w) := build_arp pool sha RTE_ARP_OP_REPLY mac ip sha sip w in
    (match built with Some _ => replied | None => learned end, nb, built, packet_dtor reply w)
  else (if did_learn : bool then learned else ignored, nb, reply, w).
Proof.
  intros [Hd _] [Hs _] [Ht _] Hop Hsip Htip [_ Hlen] Hdata.
  assert (Hl : packet_length pkt = 42).
  { unfold packet_length. rewrite Hlen, Hdata. unfold arp_frame, eth_bytes.
    rewrite !length_app, Hd, Hs, length_arp_bytes by done. reflexivity. }
  unfold handle_arp. rewrite Hl, Hdata. explode dst Hd. explode sha Hs. explode tha Ht.
  set (bs := arp_frame _ _ _ _ _ _).
  change (rd16 bs 12) with RTE_ETHER_TYPE_ARP. change (rd16 bs sizeof_ether_hdr) with RTE_ARP_HRD_ETHER.
  change (rd16 bs (sizeof_ether_hdr + 2)) with RTE_ETHER_TYPE_IPV4.
  change (rd8 bs (sizeof_ether_hdr + 4)) with RTE_ETHER_ADDR_LEN. change (rd8 bs (sizeof_ether_hdr + 5)) with 4.
  change (rd16 bs (sizeof_ether_hdr + 6)) with (rd16 (be16 opcode ++ []) 0).
  change (rd32 bs (sizeof_ether_hdr + 14)) with (rd32 (be32 sip ++ []) 0).
  change (rd32 bs (sizeof_ether_hdr + 24)) with (rd32 (be32 tip ++ []) 0).
  change (sub bs (sizeof_ether_hdr + 8) 6) with [b5; b6; b7; b8; b9; b10].
  rewrite rd16_be16, !rd32_be32, u16_id, !u32_id by done. reflexivity.
Qed.

(** A request for our address: the exact answer. *)
Lemma handle_request pkt dst sha sip tha mac ip nb pool w m w' :
  mac_ok dst → mac_ok sha → mac_ok tha → mac_ok mac → is_u32 sip → is_u32 ip → contiguous pkt →
  m_data pkt = arp_frame dst RTE_ARP_OP_REQUEST sha sip tha ip →
  rte_pktmbuf_alloc pool w = (Some m, w') → 42 <= m_tailroom m →
  ∃ rep, handle_arp pkt mac ip nb pool None w =
           (replied, (neighbor_table.learn nb sip sha).2, Some rep, w') ∧
    contiguous rep ∧ m_data rep = arp_frame sha RTE_ARP_OP_REPLY mac ip sha sip.
Proof.
  intros Hd Hs Ht Hm Hsip Hip Hc Hdata Ha Hr.
  rewrite (handle_arp_frame pkt dst RTE_ARP_OP_REQUEST sha sip tha ip) by done.
  destruct (build_arp_ok pool sha RTE_ARP_OP_REPLY mac ip sha sip w m w') as (rep & -> & Hcr & Hdr); [done..|].
  rewrite Z.eqb_refl. destruct (neighbor_table.learn nb sip sha) as [b nb']. by exists rep.
Qed.

Lemma lookup_learned cap nb m ip mac : neighbor_table.neigh_rep cap nb m → ip ≠ 0 →
  Z.of_nat (size m) < cap → (neighbor_table.learn nb ip mac).1 = true ∧
  neighbor_table.lookup (neighbor_table.learn nb ip mac).2 ip = Some mac.
Proof.
  intros Hr Hk Hsz. destruct (neighbor_table.learn_spec cap nb m ip mac Hr) as [-> Hr'].
  rewrite (neighbor_table.lookup_spec _ _ _ _ Hr'). unfold neighbor_table.spec_learn.
  rewrite decide_False by (intros [?|[_ ?]]; [done|lia]). split; [done|]. apply lookup_insert_eq.
Qed.

(** Address resolution works end to end: when host A broadcasts
    the request [build_arp_request] builds for B's address, B's
    [handle_arp] answers it and learns A's MAC, and A's [handle_arp] of that
    answer learns B's MAC and sends nothing more. *)
Theorem arp_resolution (capA capB : Z) nbA nbB mA mB macA macB ipA ipB poolA poolB (wA wA' wB wB' : E) bufA bufB :
  neighbor_table.neigh_rep capA nbA mA → Z.of_nat (size mA) < capA →
  neighbor_table.neigh_rep capB nbB mB → Z.of_nat (size mB) < capB →
  mac_ok macA → mac_ok macB → is_u32 ipA → is_u32 ipB → ipA ≠ 0 → ipB ≠ 0 →
  rte_pktmbuf_alloc poolA wA = (Some bufA, wA') → 42 <= m_tailroom bufA →
  rte_pktmbuf_alloc poolB wB = (Some bufB, wB') → 42 <= m_tailroom bufB →
  ∃ request answer nbA' nbB',
    build_arp_request poolA macA ipA ipB wA = (Some request, wA') ∧
    handle_arp request macB ipB nbB poolB None wB = (replied, nbB', Some answer, wB') ∧
    handle_arp answer macA ipA nbA poolA None wA' = (learned, nbA', None, wA') ∧
    neighbor_table.lookup nbA' ipB = Some macB ∧ neighbor_table.lookup nbB' ipA = Some macA.
Proof.
  intros HrA HsA HrB HsB HmA HmB HiA HiB HnA HnB HaA HtA HaB HtB.
  assert (Hbc : mac_ok (replicate 6 0xff)) by (split; [done|]; apply Forall_replicate; mlia).
  assert (Hz : mac_ok (replicate 6 0)) by (split; [done|]; apply Forall_replicate; mlia).
  destruct (build_arp_ok poolA (replicate 6 0xff) RTE_ARP_OP_REQUEST macA ipA (replicate 6 0) ipB wA bufA wA')
    as (req & Hreq & Hcq & Hdq); [done..|].
  destruct (handle_request req (replicate 6 0xff) macA ipA (replicate 6 0) macB ipB nbB poolB wB bufB wB')
    as (rep & Hrep & Hcp & Hdp); [done..|].
  destruct (lookup_learned capA nbA mA ipB macB HrA HnB HsA) as [Hl HlA].
  destruct (lookup_learned capB nbB mB ipA macA HrB HnA HsB) as [_ HlB].
  eexists req, rep, (neighbor_table.learn nbA ipB macB).2, _. split_and!; [exact Hreq|exact Hrep| |done|done].
  rewrite (handle_arp_frame rep macA RTE_ARP_OP_REPLY macB ipB macA ipA) by done. rewrite Z.eqb_refl.
  destruct (neighbor_table.learn nbA ipB macB) as [b nbA']. simpl in Hl. by subst b.
Qed.

(** The fields of a received ARP packet, by their offsets in the frame. *)
Definition arp_opcode (pkt : rte_mbuf) : Z := rd16 (m_data pkt) 20.
Definition arp_sha (pkt : rte_mbuf) : list Z := sub (m_data pkt) 22 6.
Definition arp_sip (pkt : rte_mbuf) : Z := rd32 (m_data pkt) 28.
Definition arp_tip (pkt : rte_mbuf) : Z := rd32 (m_data pkt) 38.
Definition is_arp (pkt : rte_mbuf) : bool := (14 <=? packet_length pkt) && (rd16 (m_data pkt) 12 =? RTE_ETHER_TYPE_ARP).
(** Long enough, and for IPv4 over Ethernet. *)
Definition arp_well_formed (pkt : rte_mbuf) : bool :=
  (42 <=? packet_length pkt) && (rd16 (m_data pkt) 14 =? RTE_ARP_HRD_ETHER) && (rd16 (m_data pkt) 16 =? RTE_ETHER_TYPE_IPV4) &&
  (rd8 (m_data pkt) 18 =? RTE_ETHER_ADDR_LEN) && (rd8 (m_data pkt) 19 =? 4).
(** The merge of RFC 826 into a map of at most [cap] neighbours: an entry for
    the sender is refreshed by any packet, added only by one for our address. *)
Definition rfc826_merge (cap local_ip : Z) (m : gmap Z neighbor_table.ether_addr) (pkt : rte_mbuf)
    : bool * gmap Z neighbor_table.ether_addr :=
  if negb (is_arp pkt && arp_well_formed pkt) then (false, m)
  else if bool_decide (is_Some (m !! arp_sip pkt)) ||
          (arp_tip pkt =? local_ip) && negb (arp_sip pkt =? 0) && (Z.of_nat (size m) <? cap)
  then (true, <[arp_sip pkt := arp_sha pkt]> m)
  else (false, m).
Definition asks_us (local_ip : Z) (pkt : rte_mbuf) : bool :=
  is_arp pkt && arp_well_formed pkt && (arp_tip pkt =? local_ip) && (arp_opcode pkt =? RTE_ARP_OP_REQUEST).

Lemma merge_learn cap m nb sip sha : neighbor_table.neigh_rep cap nb m →
  neighbor_table.spec_learn cap m sip sha =
    if bool_decide (is_Some (m !! sip)) || negb (sip =? 0) && (Z.of_nat (size m) <? cap) then (true, <[sip := sha]> m) else (false, m).
Proof.
  intros Hr. unfold neighbor_table.spec_learn.
  destruct (Z.eqb_spec sip 0) as [->|Hz]; cbn [negb andb]; rewrite ?orb_false_r.
  - rewrite decide_True by auto. rewrite bool_decide_false; [done|]. rewrite (neighbor_table.rep_zero _ _ _ (neighbor_table.nr_rep _ _ _ Hr)). by intros [].
  - destruct (m !! sip) as [v|] eqn:Em.
    + rewrite decide_False by naive_solver. by rewrite bool_decide_true by done.
    + rewrite (bool_decide_false (is_Some None)) by (by intros []). cbn [orb].
      destruct (Z.ltb_spec (Z.of_nat (size m)) cap); [rewrite decide_False by naive_solver lia|rewrite decide_True by auto]; done.
Qed.

(** What [handle_arp] does, through the map. *)
Lemma handle_arp_merge cap pkt local_mac local_ip nb m pool reply (w : E) : neighbor_table.neigh_rep cap nb m →
  ∃ nb', neighbor_table.neigh_rep cap nb' (rfc826_merge cap local_ip m pkt).2 ∧
  handle_arp pkt local_mac local_ip nb pool reply w =
    if asks_us local_ip pkt then
      let '(built, w1) := build_arp pool (arp_sha pkt) RTE_ARP_OP_REPLY local_mac local_ip (arp_sha pkt) (arp_sip pkt) w in
      (match built with Some _ => replied | None => learned end, nb', built, packet_dtor reply w1)
    else (if is_arp pkt then if (rfc826_merge cap local_ip m pkt).1 then learned else ignored else not_arp, nb', reply, w).
Proof.
  intros Hr. unfold handle_arp, asks_us, rfc826_merge. cbv zeta.
  replace (packet_length pkt <? Z.of_nat sizeof_ether_hdr) with (negb (14 <=? packet_length pkt)) by (by rewrite <- Z.ltb_antisym).
  replace (packet_length pkt <? Z.of_nat (sizeof_ether_hdr + sizeof_arp_hdr)) with (negb (42 <=? packet_length pkt))
    by (by rewrite <- Z.ltb_antisym).
  unfold is_arp. destruct (14 <=? packet_length pkt); cbn [negb andb]; [|by exists nb].
  destruct (rd16 (m_data pkt) 12 =? _); cbn [negb andb]; [|by exists nb].
  change (sizeof_ether_hdr + 2)%nat with 16%nat. change (sizeof_ether_hdr + 4)%nat with 18%nat.
  change (sizeof_ether_hdr + 5)%nat with 19%nat. change (rd16 (m_data pkt) sizeof_ether_hdr) with (rd16 (m_data pkt) 14).
  unfold arp_well_formed. destruct (42 <=? packet_length pkt); cbn [negb andb]; [|by exists nb].
  rewrite <- !negb_andb. destruct (_ && _); cbn [negb andb]; [|by exists nb].
  change (rd32 (m_data pkt) (sizeof_ether_hdr + 14)) with (arp_sip pkt). change (rd32 (m_data pkt) (sizeof_ether_hdr + 24)) with (arp_tip pkt).
  change (rd16 (m_data pkt) (sizeof_ether_hdr + 6)) with (arp_opcode pkt). change (sub (m_data pkt) (sizeof_ether_hdr + 8) 6) with (arp_sha pkt).
  destruct (arp_tip pkt =? local_ip); cbn [andb].
  - destruct (neighbor_table.learn_spec cap nb m (arp_sip pkt) (arp_sha pkt) Hr) as [Hb Hr2].
    rewrite (merge_learn cap m nb) in Hb, Hr2 by done. destruct (neighbor_table.learn nb (arp_sip pkt) (arp_sha pkt)) as [b nb2].
    cbn [fst snd] in Hb, Hr2. subst b. exists nb2. split; [exact Hr2|]. destruct (arp_opcode pkt =? _); [|done]. by destruct (build_arp _ _ _ _ _ _ _ w).
  - destruct (neighbor_table.update_spec cap nb m (arp_sip pkt) (arp_sha pkt) Hr) as [Hb Hr2].
    destruct (neighbor_table.update_if_present nb (arp_sip pkt) (arp_sha pkt)) as [b nb2]. cbn [fst snd] in Hb, Hr2. subst b.
    unfold neighbor_table.spec_update in *. exists nb2. rewrite orb_false_r.
    destruct (decide (is_Some (m !! arp_sip pkt))) as [Hs|Hs]; [rewrite bool_decide_true by done|rewrite bool_decide_false by done]; done.
Qed.

(** C29. Every received frame, however malformed, is merged into the
    neighbour table as RFC 826 says: afterwards [lookup] finds exactly the
    entries of [rfc826_merge], that is, the sender's address now leads to the
    sender's MAC if it was known (and then whatever the packet is about) or if
    the packet's target is our own address, the sender is not 0.0.0.0 and there
    is room, and every other entry is as it was; a frame that is not a
    well-formed ARP packet changes nothing.  A packet is sent back exactly for
    a well-formed request for our address, and then it is the reply that tells
    the sender our MAC, unless the pool has no buffer; the result says which of
    this happened. *)
Theorem arp_merge_is_rfc826 (cap : Z) pkt local_mac local_ip nb m pool (w : E) r nb' reply w' :
  neighbor_table.neigh_rep cap nb m → contiguous pkt → bytes (m_data pkt) → mac_ok local_mac →
  handle_arp pkt local_mac local_ip nb pool None w = (r, nb', reply, w') →
  let '(merged, m') := rfc826_merge cap local_ip m pkt in
  (∀ ip, neighbor_table.lookup nb' ip = m' !! ip) ∧ neighbor_table.neigh_rep cap nb' m' ∧
  if asks_us local_ip pkt then
    (r = match reply with Some _ => replied | None => learned end) ∧
    (∀ buf w1, rte_pktmbuf_alloc pool w = (Some buf, w1) → 42 <= m_tailroom buf →
       w' = w1 ∧ ∃ p, reply = Some p ∧ contiguous p ∧
         m_data p = arp_frame (arp_sha pkt) RTE_ARP_OP_REPLY local_mac local_ip (arp_sha pkt) (arp_sip pkt)) ∧
    (∀ w1, rte_pktmbuf_alloc pool w = (None, w1) → w' = w1 ∧ reply = None)
  else
    reply = None ∧ w' = w ∧
    r = if is_arp pkt then if merged then learned else ignored else not_arp.
Proof.
  intros Hr [_ Hlen] Hbs Hmac Hh. destruct (handle_arp_merge cap pkt local_mac local_ip nb m pool None w Hr) as (nb2 & Hr2 & He).
  rewrite He in Hh. destruct (rfc826_merge cap local_ip m pkt) as [merged m']. cbn [fst snd] in *.
  destruct (asks_us local_ip pkt) eqn:Ha; [|injection Hh as <- <- <- <-; split_and!; try done; intros ip; by apply (neighbor_table.lookup_spec cap)].
  assert (Hsha : mac_ok (arp_sha pkt)).
  { unfold asks_us, arp_well_formed in Ha. rewrite !andb_true_iff in Ha. destruct_and!.
    assert (Hu : packet_length pkt <= m_pkt_len pkt) by (apply Z.mod_le; lia). assert (42 <= packet_length pkt) by lia.
    split; [unfold arp_sha; rewrite length_sub by lia; done|]. unfold arp_sha, sub. by apply Forall_take, Forall_drop. }
  destruct (build_arp _ _ _ _ _ _ _ w) as [built w1] eqn:Eb. injection Hh as <- <- <- <-. split_and!; try done.
  - intros ip. by apply (neighbor_table.lookup_spec cap).
  - intros buf w2 Hal Ht. destruct (build_arp_ok pool (arp_sha pkt) RTE_ARP_OP_REPLY local_mac local_ip (arp_sha pkt) (arp_sip pkt) w buf w2)
      as (p & Hp & Hc & Hd); [done..|]. rewrite Hp in Eb. injection Eb as <- <-. split; [done|]. by exists p.
  - intros w2 Hal. unfold build_arp, pool_get, get_packet in Eb. rewrite Hal in Eb. by injection Eb as <- <-.
Qed.

(** A request for our address from the unconfigured address
    0.0.0.0 (an RFC 5227 probe) or, when the table is full, from an unknown
    host, is answered with result [replied] although the sender is not
    learned: the table stays exactly as it was. *)
Theorem arp_probe_answered_not_learned (cap : Z) pkt dst sha sip tha mac ip nb m pool (w w' : E) buf :
  neighbor_table.neigh_rep cap nb m →
  sip = 0 ∨ m !! sip = None ∧ cap <= Z.of_nat (size m) →
  mac_ok dst → mac_ok sha → mac_ok tha → mac_ok mac → is_u32 sip → is_u32 ip → contiguous pkt →
  m_data pkt = arp_frame dst RTE_ARP_OP_REQUEST sha sip tha ip →
  rte_pktmbuf_alloc pool w = (Some buf, w') → 42 <= m_tailroom buf →
  ∃ rep nb', handle_arp pkt mac ip nb pool None w = (replied, nb', Some rep, w') ∧
    m_data rep = arp_frame sha RTE_ARP_OP_REPLY mac ip sha sip ∧
    neighbor_table.neigh_rep cap nb' m.
Proof.
  intros Hr Hno Hd Hs Ht Hm Hsip Hip Hc Hdata Ha Hroom.
  destruct (handle_request pkt dst sha sip tha mac ip nb pool w buf w') as (rep & Hh & _ & Hdr); [done..|].
  destruct (neighbor_table.learn_spec cap nb m sip sha Hr) as [_ Hr'].
  unfold neighbor_table.spec_learn in Hr'. rewrite decide_True in Hr' by done. by eexists _, _.
Qed.
End arp_proofs.

Section arp_run.
#[local] Existing Instances sim.ops sim.laws.

Definition mac1 : list Z := [2; 0; 0; 0; 0; 1].
Definition mac2 : list Z := [2; 0; 0; 0; 0; 2].
Lemma mac1_ok : mac_ok mac1.
Proof. split; [done|]. repeat constructor; unfold is_u8; lia. Qed.
Lemma mac2_ok : mac_ok mac2.
Proof. split; [done|]. repeat constructor; unfold is_u8; lia. Qed.

Lemma arp_resolution_witness : ∃ request answer nbA nbB,
  build_arp_request 0 mac1 10 20 (sim.start 4 128) = (Some request, (rte_pktmbuf_alloc 0 (sim.start 4 128)).2) ∧
  handle_arp request mac2 20 (neighbor_table.make 4) 0 None (sim.start 4 128) =
    (replied, nbB, Some answer, (rte_pktmbuf_alloc 0 (sim.start 4 128)).2) ∧
  handle_arp answer mac1 10 (neighbor_table.make 4) 0 None (rte_pktmbuf_alloc 0 (sim.start 4 128)).2 =
    (learned, nbA, None, (rte_pktmbuf_alloc 0 (sim.start 4 128)).2) ∧
  neighbor_table.lookup nbA 20 = Some mac2 ∧ neighbor_table.lookup nbB 10 = Some mac1.
Proof.
  apply (arp_resolution 4 4 _ _ ∅ ∅ mac1 mac2 10 20 0 0 (sim.start 4 128) _ (sim.start 4 128) _
           (Mbuf [] 0 1 128 0 0) (Mbuf [] 0 1 128 0 0));
    first [apply neighbor_table.neigh_make_spec; lia | apply mac1_ok | apply mac2_ok | reflexivity
          | rewrite map_size_empty; lia | unfold is_u32; lia | simpl; lia].
Defined.

(** An answer that was asked for, to a host with an empty table: learned. *)
Lemma arp_merge_is_rfc826_witness :
  neighbor_table.lookup (handle_arp (Mbuf (arp_frame mac1 RTE_ARP_OP_REPLY mac2 20 mac1 10) 42 1 0 0 0) mac1 10
    (neighbor_table.make 4) 0 None (sim.start 4 128)).1.1.2 20 = Some mac2.
Proof.
  assert (Hc : contiguous (Mbuf (arp_frame mac1 RTE_ARP_OP_REPLY mac2 20 mac1 10) 42 1 0 0 0)) by (split; reflexivity).
  assert (Hb : bytes (arp_frame mac1 RTE_ARP_OP_REPLY mac2 20 mac1 10)) by (repeat constructor; unfold is_u8; vm_compute; done).
  destruct (handle_arp (Mbuf (arp_frame mac1 RTE_ARP_OP_REPLY mac2 20 mac1 10) 42 1 0 0 0) mac1 10
              (neighbor_table.make 4) 0 None (sim.start 4 128)) as [[[r nb'] reply'] w'] eqn:Hh.
  pose proof (arp_merge_is_rfc826 4 _ _ _ _ ∅ _ _ _ _ _ _ (neighbor_table.neigh_make_spec 4 ltac:(lia))
    Hc Hb mac1_ok Hh) as Hx.
  destruct (rfc826_merge _ _ _ _) as [b m'] eqn:Em. destruct Hx as [Hl _]. cbn [fst snd]. rewrite Hl.
  assert (Hm : m' !! 20 = Some mac2); [|exact Hm]. change m' with (b, m').2. rewrite <- Em. vm_compute. reflexivity.
Defined.

Lemma arp_probe_answered_not_learned_witness : ∃ rep nb',
  handle_arp (Mbuf (arp_frame mac2 RTE_ARP_OP_REQUEST mac1 0 mac2 20) 42 1 0 0 0) mac2 20
    (neighbor_table.make 4) 0 None (sim.start 4 128) =
    (replied, nb', Some rep, (rte_pktmbuf_alloc 0 (sim.start 4 128)).2) ∧
  m_data rep = arp_frame mac1 RTE_ARP_OP_REPLY mac2 20 mac1 0 ∧ neighbor_table.neigh_rep 4 nb' ∅.
Proof.
  apply (arp_probe_answered_not_learned 4 _ mac2 mac1 0 mac2 mac2 20 _ ∅ 0 (sim.start 4 128) _ (Mbuf [] 0 1 128 0 0));
    first [apply neighbor_table.neigh_make_spec; lia | apply mac1_ok | apply mac2_ok | by left | reflexivity
          | unfold is_u32; lia | by split | simpl; lia].
Defined.
End arp_run.
