(* ===== verification/Port.v ===== *)
(** * port: one NIC (src/port.cpp, include/port.h)

    The claim bookkeeping of the receive and transmit queues, the constructor's
    sequence of ethdev calls with its error exits, and the ownership of the
    device through moves and destruction.  The ethdev functions are parameters:
    [EthDev] lists them, [EthTrace] records the calls the library makes. *)

From S2P Require Import Prelude Dpdk Packet.

(** ** Claiming queues *)

Inductive port_error :=
  | invalid_port | configure_failed | adjust_failed | info_failed
  | rx_setup_failed (q : Z) | tx_setup_failed (q : Z) | start_failed | no_such_queue | no_mac.

(** [rx_queues_]/[tx_queues_], [rx_claimed_]/[tx_claimed_] and the cursor. *)
Record queue_set := QueueSet { qs_queues : list queue; qs_claimed : list bool; qs_cursor : nat }.

(** [while (cursor < queues.size() && claimed[cursor]) ++cursor;] *)
Fixpoint skip_claimed (fuel : nat) (queues : list queue) (claimed : list bool) (cursor : nat) : nat :=
  match fuel with
  | O => cursor
  | S f =>
    if (cursor <? length queues)%nat && (claimed !!! cursor)
    then skip_claimed f queues claimed (S cursor) else cursor
  end.

Definition claim_next (s : queue_set) : option queue * queue_set :=
  let cursor := skip_claimed (S (length (qs_queues s))) (qs_queues s) (qs_claimed s) (qs_cursor s) in
  if (length (qs_queues s) <=? cursor)%nat then (None, QueueSet (qs_queues s) (qs_claimed s) cursor)
  else (qs_queues s !! cursor, QueueSet (qs_queues s) (<[cursor := true]> (qs_claimed s)) (S cursor)).

Definition claim_by_id (s : queue_set) (queue_id : nat) : port_error + (option queue * queue_set) :=
  if (length (qs_queues s) <=? queue_id)%nat then inl no_such_queue
  else if (qs_claimed s !!! queue_id : bool) then inr (None, s)
  else inr (qs_queues s !! queue_id,
            QueueSet (qs_queues s) (<[queue_id := true]> (qs_claimed s)) (qs_cursor s)).

(** Either form of the call; a call that throws hands nothing out. *)
Inductive claim := next_unclaimed | by_id (q : nat).
Definition claim_queue (s : queue_set) (c : claim) : option queue * queue_set :=
  match c with
  | next_unclaimed => claim_next s
  | by_id q => match claim_by_id s q with inl _ => (None, s) | inr r => r end
  end.
Fixpoint claim_all (s : queue_set) (cs : list claim) : list (option queue) * queue_set :=
  match cs with
  | [] => ([], s)
  | c :: cs => let '(q, s) := claim_queue s c in let '(out, s) := claim_all s cs in (q :: out, s)
  end.

(** Everything before the cursor has been handed out. *)
Record queue_set_ok (s : queue_set) : Prop := {
  qk_len : length (qs_claimed s) = length (qs_queues s);
  qk_cursor : ∀ k, (k < qs_cursor s)%nat → (k < length (qs_queues s))%nat → qs_claimed s !! k = Some true }.

Lemma skip_claimed_spec fuel queues claimed cursor : length claimed = length queues →
  (length queues - cursor < fuel)%nat →
  let k := skip_claimed fuel queues claimed cursor in
  (cursor <= k)%nat ∧ (∀ j, (cursor <= j < k)%nat → claimed !! j = Some true) ∧
  ((k < length queues)%nat → claimed !! k = Some false).
Proof.
  intros Hl. revert cursor. induction fuel as [|f IH]; intros cursor Hf; [lia|]. simpl.
  destruct (Nat.ltb_spec cursor (length queues)) as [Hlt|Hge]; cbn [andb]; [|split_and!; [lia|intros; lia|lia]].
  assert (Hsome : claimed !! cursor = Some (claimed !!! cursor)) by (apply list_lookup_lookup_total_lt; lia).
  destruct (claimed !!! cursor) eqn:Ec.
  - destruct (IH (S cursor)) as (H1 & H2 & H3); [lia|]. split_and!; [lia| |done]. intros j Hj.
    destruct (decide (j = cursor)) as [->|]; [done|]. apply H2. lia.
  - split_and!; [lia|intros; lia|done].
Qed.

(** What one call does: nothing, or one queue whose flag was clear. *)
Lemma claim_queue_spec s c q s' : queue_set_ok s → claim_queue s c = (q, s') →
  queue_set_ok s' ∧ qs_queues s' = qs_queues s ∧
  match q with
  | None => qs_claimed s' = qs_claimed s
  | Some x => ∃ j, qs_queues s !! j = Some x ∧ qs_claimed s !! j = Some false ∧ qs_claimed s' = <[j := true]> (qs_claimed s)
  end.
Proof.
  intros [Hl Hc]. destruct c as [|i]; simpl.
  - unfold claim_next. destruct (skip_claimed_spec (S (length (qs_queues s))) (qs_queues s) (qs_claimed s) (qs_cursor s) Hl)
      as (H1 & H2 & H3); [lia|]. set (k := skip_claimed _ _ _ _) in *. clearbody k.
    assert (Hbelow : ∀ j, (j < k)%nat → (j < length (qs_queues s))%nat → qs_claimed s !! j = Some true).
    { intros j Hj Hjl. destruct (Nat.lt_ge_cases j (qs_cursor s)); [by apply Hc|apply H2; lia]. }
    destruct (Nat.leb_spec (length (qs_queues s)) k) as [Hge|Hlt].
    + intros [= <- <-]. by split_and!.
    + destruct (lookup_lt_is_Some_2 (qs_queues s) k Hlt) as [x Hx]. rewrite Hx. intros [= <- <-].
      split_and!; [|done|exists k; auto]. split; cbn; [by rewrite length_insert|]. intros j Hj Hjl.
      destruct (decide (j = k)) as [->|]; [rewrite list_lookup_insert_eq; [done|lia]|].
      rewrite list_lookup_insert_ne by done. apply Hbelow; lia.
  - unfold claim_by_id. destruct (Nat.leb_spec (length (qs_queues s)) i) as [Hge|Hlt]; [intros [= <- <-]; by split_and!|].
    rename i into k, Hlt into Hk.
    assert (Hsome : qs_claimed s !! k = Some (qs_claimed s !!! k)) by (apply list_lookup_lookup_total_lt; lia).
    destruct (qs_claimed s !!! k); [intros [= <- <-]; by split_and!|].
    destruct (lookup_lt_is_Some_2 (qs_queues s) k Hk) as [x Hx]. rewrite Hx. intros [= <- <-].
    split_and!; [|done|exists k; auto]. split; cbn; [by rewrite length_insert|]. intros j Hj Hjl.
    destruct (decide (j = k)) as [->|]; [rewrite list_lookup_insert_eq; [done|lia]|]. rewrite list_lookup_insert_ne by done. auto.
Qed.

Lemma claim_all_spec s cs : queue_set_ok s → NoDup (qs_queues s) →
  let '(out, s') := claim_all s cs in
  queue_set_ok s' ∧ qs_queues s' = qs_queues s ∧ NoDup (omap id out) ∧
  (∀ q, q ∈ omap id out → ∃ j, qs_queues s !! j = Some q ∧ qs_claimed s !! j = Some false) ∧
  (∀ j q, qs_queues s !! j = Some q → qs_claimed s' !! j = Some true ↔ qs_claimed s !! j = Some true ∨ q ∈ omap id out).
Proof.
  revert s. induction cs as [|c cs IH]; intros s Hok Hnd.
  { simpl. split_and!; try done; [by apply NoDup_nil_2|by intros q Hq%not_elem_of_nil|]. intros j q _. split; [by left|]. by intros [|Hx%not_elem_of_nil]. }
  simpl. destruct (claim_queue s c) as [q1 s1] eqn:E1. destruct (claim_queue_spec s c q1 s1 Hok E1) as (Hok1 & Hq1 & Hstep).
  specialize (IH s1 Hok1). rewrite Hq1 in IH. specialize (IH Hnd). destruct (claim_all s1 cs) as [out s'].
  destruct IH as (I1 & I2 & I3 & I4 & I5). destruct q1 as [x|].
  2: { change (omap id (None :: out)) with (omap id out). rewrite Hstep in *. by split_and!. }
  destruct Hstep as (j & Hj & Hf & Hcl). change (omap id (Some x :: out)) with (x :: omap id out).
  assert (Hjl : (j < length (qs_claimed s))%nat) by (by apply lookup_lt_Some in Hf).
  assert (Hnx : x ∉ omap id out).
  { intros Hin. destruct (I4 x Hin) as (k & Hk & Hkf). rewrite (NoDup_lookup _ _ _ _ Hnd Hk Hj) in Hkf.
    rewrite Hcl, list_lookup_insert_eq in Hkf by done. done. }
  split_and!; [done|done|by constructor| |].
  - intros q [->|Hin]%elem_of_cons; [by exists j|]. destruct (I4 q Hin) as (k & Hk & Hkf). exists k. split; [done|].
    rewrite Hcl in Hkf. destruct (decide (j = k)) as [->|]; [by rewrite list_lookup_insert_eq in Hkf|by rewrite list_lookup_insert_ne in Hkf].
  - intros k q Hk. rewrite (I5 k q Hk), elem_of_cons, Hcl. destruct (decide (j = k)) as [->|Hne].
    + rewrite list_lookup_insert_eq by done. rewrite Hk in Hj. injection Hj as ->. naive_solver.
    + rewrite list_lookup_insert_ne by done. assert (q ≠ x); [|naive_solver]. intros ->. apply Hne. by eapply NoDup_lookup.
Qed.

(** The [nullptr] of the no-argument form. *)
Lemma claim_next_exhausted s : queue_set_ok s →
  (claim_next s).1 = None ↔ (∀ j, (j < length (qs_queues s))%nat → qs_claimed s !! j = Some true).
Proof.
  intros [Hl Hc]. unfold claim_next. destruct (skip_claimed_spec (S (length (qs_queues s))) (qs_queues s) (qs_claimed s) (qs_cursor s) Hl)
    as (H1 & H2 & H3); [lia|]. set (k := skip_claimed _ _ _ _) in *. clearbody k. 
  destruct (Nat.leb_spec (length (qs_queues s)) k) as [Hge|Hlt]; cbn [fst].
  - split; [|done]. intros _ j Hj. destruct (Nat.lt_ge_cases j (qs_cursor s)); [by apply Hc|apply H2; lia].
  - destruct (lookup_lt_is_Some_2 (qs_queues s) k Hlt) as [x ->]. split; [done|]. intros Hall. specialize (Hall k Hlt).
    rewrite H3 in Hall by done. done.
Qed.

(** C38. Queues are handed out exclusively: in any mixture of claims by id
    and claims of the next one, valid or not, no queue is handed out twice or
    although it was claimed before; a queue ends up claimed exactly if it was
    so at the start or was handed out; and the no-argument form returns null
    exactly when every queue is claimed. *)
Theorem queue_claims_exclusive s cs : queue_set_ok s → NoDup (qs_queues s) →
  let '(out, s') := claim_all s cs in
  NoDup (omap id out) ∧
  (∀ q, q ∈ omap id out → ∃ j, qs_queues s !! j = Some q ∧ qs_claimed s !! j = Some false) ∧
  (∀ j q, qs_queues s !! j = Some q → qs_claimed s' !! j = Some true ↔ qs_claimed s !! j = Some true ∨ q ∈ omap id out) ∧
  ((claim_next s').1 = None ↔ ∀ j, (j < length (qs_queues s))%nat → qs_claimed s' !! j = Some true).
Proof.
  intros Hok Hnd. pose proof (claim_all_spec s cs Hok Hnd) as Hx. destruct (claim_all s cs) as [out s'].
  destruct Hx as (H1 & H2 & H3 & H4 & H5). do 3 (split; [done|]). rewrite <- H2. by apply claim_next_exhausted.
Qed.

Lemma queue_claims_exclusive_witness :
  let s := QueueSet [ {| q_port := 3; q_id := 0 |}; {| q_port := 3; q_id := 1 |}] [false; false] 0 in
  let cs := [by_id 0%nat; next_unclaimed; by_id 1%nat; by_id 7%nat; next_unclaimed] in
  (claim_all s cs).1 = [Some {| q_port := 3; q_id := 0 |}; Some {| q_port := 3; q_id := 1 |}; None; None; None] ∧
  NoDup (omap id (claim_all s cs).1).
Proof.
  intros s cs. split; [reflexivity|]. pose proof (queue_claims_exclusive s cs) as Hx. destruct (claim_all s cs) as [out s'].
  apply Hx.
  - split; [reflexivity|]. intros k Hk. cbn in Hk. lia.
  - constructor; [|constructor; [|constructor]]; rewrite ?elem_of_cons, ?elem_of_nil; intuition discriminate.
Defined.

(** ** The device *)

Class EthDev (D : Type) := {
  dev_is_valid_port : Z → D → bool;
  dev_configure : Z → Z → Z → D → Z * D;
  dev_adjust_nb_rx_tx_desc : Z → Z → Z → D → option (Z * Z) * D;   (* None: nonzero return *)
  dev_info_get : Z → D → Z * D;
  dev_socket_id : Z → D → Z;
  dev_rx_queue_setup : Z → Z → Z → Z → Z → D → Z * D;
  dev_tx_queue_setup : Z → Z → Z → Z → D → Z * D;
  dev_start : Z → D → Z * D;
  dev_stop : Z → D → D;
  dev_close : Z → D → D;
  dev_macaddr_get : Z → D → option (list Z) }.

Definition kDefaultRingSize : Z := 1024.

Record port := Port {
  port_id_ : Z; port_pool_ : option Z; port_rx : queue_set; port_tx : queue_set;
  ipv4_addr_ : option Z; owns_device_ : bool }.

(** What a claim leaves behind in the port. *)
Definition set_port_tx (p : port) (s : queue_set) : port := Port (port_id_ p) (port_pool_ p) (port_rx p) s (ipv4_addr_ p) (owns_device_ p).
Definition set_port_rx (p : port) (s : queue_set) : port := Port (port_id_ p) (port_pool_ p) s (port_tx p) (ipv4_addr_ p) (owns_device_ p).

Section port.
Context {D : Type} `{EthDev D}.

(** The two queue loops of the constructor, at queue [q] of [q + todo]. *)
Fixpoint setup_rx (todo : nat) (id q nb socket pool : Z) (d : D) : (port_error + list queue) * D :=
  match todo with
  | O => (inr [], d)
  | S todo =>
    let '(ret, d) := dev_rx_queue_setup id q nb socket pool d in
    if ret <? 0 then (inl (rx_setup_failed q), d)
    else
      let '(rest, d) := setup_rx todo id (q + 1) nb socket pool d in
      (match rest with inl e => inl e | inr qs => inr ({| q_port := id; q_id := q |} :: qs) end, d)
  end.
Fixpoint setup_tx (todo : nat) (id q nb socket : Z) (d : D) : (port_error + list queue) * D :=
  match todo with
  | O => (inr [], d)
  | S todo =>
    let '(ret, d) := dev_tx_queue_setup id q nb socket d in
    if ret <? 0 then (inl (tx_setup_failed q), d)
    else
      let '(rest, d) := setup_tx todo id (q + 1) nb socket d in
      (match rest with inl e => inl e | inr qs => inr ({| q_port := id; q_id := q |} :: qs) end, d)
  end.

Definition fresh_queues (qs : list queue) : queue_set := QueueSet qs (replicate (length qs) false) 0.

Definition port_new (id n_rx n_tx pool : Z) (d : D) : (port_error + port) * D :=
  if negb (dev_is_valid_port id d) then (inl invalid_port, d)
  else
    let '(ret, d) := dev_configure id n_rx n_tx d in
    if negb (ret =? 0) then (inl configure_failed, d)
    else
      let '(nb, d) := dev_adjust_nb_rx_tx_desc id kDefaultRingSize kDefaultRingSize d in
      match nb with
      | None => (inl adjust_failed, d)
      | Some (nb_rxd, nb_txd) =>
        let '(ret, d) := dev_info_get id d in
        if negb (ret =? 0) then (inl info_failed, d)
        else
          let socket := dev_socket_id id d in
          let '(rx, d) := setup_rx (Z.to_nat n_rx) id 0 nb_rxd socket pool d in
          match rx with
          | inl e => (inl e, d)
          | inr rx_queues =>
            let '(tx, d) := setup_tx (Z.to_nat n_tx) id 0 nb_txd socket d in
            match tx with
            | inl e => (inl e, d)
            | inr tx_queues =>
              let '(ret, d) := dev_start id d in
              if ret <? 0 then (inl start_failed, d)
              else (inr (Port id (Some pool) (fresh_queues rx_queues) (fresh_queues tx_queues) None true), d)
            end
          end
      end.

(** A vector or shared_ptr that has been moved from is empty. *)
Definition moved_from (p : port) : port :=
  Port (port_id_ p) None (QueueSet [] [] (qs_cursor (port_rx p))) (QueueSet [] [] (qs_cursor (port_tx p))) (ipv4_addr_ p) false.

Definition port_move (other : port) : port * port := (other, moved_from other).

Definition port_dtor (p : port) (d : D) : D :=
  if owns_device_ p then dev_close (port_id_ p) (dev_stop (port_id_ p) d) else d.

(** Assignment from another object. *)
Definition port_assign (this other : port) (d : D) : port * port * D :=
  let d := if owns_device_ this then dev_close (port_id_ this) (dev_stop (port_id_ this) d) else d in
  (other, moved_from other, d).

Definition port_mac_address (p : port) (d : D) : port_error + list Z :=
  match dev_macaddr_get (port_id_ p) d with None => inl no_mac | Some mac => inr mac end.

Definition set_ipv4_address (p : port) (addr : Z) : port :=
  Port (port_id_ p) (port_pool_ p) (port_rx p) (port_tx p) (Some addr) (owns_device_ p).

(** The forwarding path; [at] throws for a queue that is not there. *)
Definition port_receive_burst {E} `{DpdkOps E} (p : port) (queue_id : nat) (max_count : Z) (w : E) : option (packet_burst * E) :=
  match qs_queues (port_rx p) !! queue_id with None => None | Some q => Some (receive_burst q max_count w) end.
Definition port_send_burst {E} `{DpdkOps E} (p : port) (queue_id : nat) (pkts : list rte_mbuf) (w : E)
    : option (Z * list packet * E) :=
  match qs_queues (port_tx p) !! queue_id with None => None | Some q => Some (send_burst q pkts w) end.

(** ** Lifetimes: port objects in a store, [None] once destroyed *)

Inductive lifetime := Move (i : nat) | Assign (i j : nat) | Destroy (i : nat).

Definition live (op : lifetime) (s : list (option port) * D) : list (option port) * D :=
  let '(objs, d) := s in
  match op with
  | Move i =>
    match objs !! i with
    | Some (Some p) => let '(p', p) := port_move p in (<[i := Some p]> objs ++ [Some p'], d)
    | _ => s
    end
  | Assign i j =>
    if decide (i = j) then s
    else
      match objs !! i, objs !! j with
      | Some (Some p), Some (Some q) =>
        let '(p, q, d) := port_assign p q d in (<[j := Some q]> (<[i := Some p]> objs), d)
      | _, _ => s
      end
  | Destroy i =>
    match objs !! i with
    | Some (Some p) => (<[i := None]> objs, port_dtor p d)
    | _ => s
    end
  end.
End port.

(** ** The calls the library makes *)

Inductive dev_call :=
  | c_configure (p : Z) | c_adjust (p : Z) | c_info (p : Z) | c_rx_setup (p q : Z) | c_tx_setup (p q : Z)
  | c_start (p : Z) (ok : bool) | c_stop (p : Z) | c_close (p : Z)
  | c_eal_init (ok : bool) | c_eal_cleanup | c_pool_create | c_pool_free (pool : Z).
#[export] Instance dev_call_eq_dec : EqDecision dev_call.
Proof. solve_decision. Defined.

Class EthTrace (D : Type) `{EthDev D} := {
  calls : D → list dev_call;
  calls_configure p a b d : calls (dev_configure p a b d).2 = calls d ++ [c_configure p];
  calls_adjust p a b d : calls (dev_adjust_nb_rx_tx_desc p a b d).2 = calls d ++ [c_adjust p];
  calls_info p d : calls (dev_info_get p d).2 = calls d ++ [c_info p];
  calls_rx p q a b c d : calls (dev_rx_queue_setup p q a b c d).2 = calls d ++ [c_rx_setup p q];
  calls_tx p q a b d : calls (dev_tx_queue_setup p q a b d).2 = calls d ++ [c_tx_setup p q];
  calls_start p d : calls (dev_start p d).2 = calls d ++ [c_start p (negb ((dev_start p d).1 <? 0))];
  calls_stop p d : calls (dev_stop p d) = calls d ++ [c_stop p];
  calls_close p d : calls (dev_close p d) = calls d ++ [c_close p] }.

(** The error a failing call raises. *)
Definition error_of (c : dev_call) : port_error :=
  match c with
  | c_configure _ => configure_failed | c_adjust _ => adjust_failed | c_info _ => info_failed
  | c_rx_setup _ q => rx_setup_failed q | c_tx_setup _ q => tx_setup_failed q | _ => start_failed
  end.

(** The call as it is recorded if it fails. *)
Definition failed (c : dev_call) : dev_call := match c with c_start p _ => c_start p false | c => c end.

Definition ids (id q : Z) (n : nat) : list queue := (λ k, {| q_port := id; q_id := q + Z.of_nat k |}) <$> seq 0 n.

Lemma ids_S id q n : ids id q (S n) = {| q_port := id; q_id := q |} :: ids id (q + 1) n.
Proof.
  unfold ids. simpl. rewrite Z.add_0_r. f_equal. rewrite <- (fmap_S_seq 0 n), <- list_fmap_compose.
  apply list_fmap_ext. intros k x _. cbn. f_equal. lia.
Qed.

Section port_proofs.
Context {D : Type} `{EthDev D} `{!EthTrace D}.

(** A run of calls [full]: all of them, or up to the first that failed. *)
Definition ran {A} (full : list dev_call) (d : D) (res : (port_error + A) * D) (good : A → Prop) : Prop :=
  match res.1 with
  | inr a => calls res.2 = calls d ++ full ∧ good a
  | inl e => ∃ pre c post, full = pre ++ c :: post ∧ calls res.2 = calls d ++ pre ++ [failed c] ∧ e = error_of c
  end.

Lemma ran_here {A} c full d d' (good : A → Prop) : calls d' = calls d ++ [failed c] → ran (c :: full) d (inl (error_of c), d') good.
Proof using. intros Hc. exists [], c, full. by split_and!. Qed.

Lemma ran_cons {A} c full d d' (res : (port_error + A) * D) (good : A → Prop) :
  calls d' = calls d ++ [c] → ran full d' res good → ran (c :: full) d res good.
Proof using.
  unfold ran. intros Hc. destruct res as [[e|a] d1]; cbn; rewrite Hc.
  - intros (p & c' & q & -> & Hd & ->). exists (c :: p), c', q. split_and!; [done| |done]. by rewrite Hd, <- app_assoc.
  - by rewrite <- app_assoc.
Qed.

Lemma ran_more {A B} pre full d d' (res : (port_error + A) * D) (res' : (port_error + B) * D) (good : A → Prop) (good' : B → Prop) :
  calls d' = calls d ++ pre → ran full d' res good → res'.2 = res.2 →
  match res.1, res'.1 with inl e, inl e' => e = e' | inr a, inr b => good a → good' b | _, _ => False end →
  ran (pre ++ full) d res' good'.
Proof using.
  destruct res as [[e|a] d1], res' as [[e'|b] d2]; unfold ran; cbn; intros Hc Hr -> Hm; try done.
  - subst e'. destruct Hr as (p & c & q & -> & Hd & ->). exists (pre ++ p), c, q. rewrite Hd, Hc, <- !app_assoc. done.
  - destruct Hr as [Hd Hg]. rewrite Hd, Hc, <- app_assoc. auto.
Qed.

Lemma setup_rx_ran todo id q nb socket pool (d : D) :
  ran (c_rx_setup id ∘ q_id <$> ids id q todo) d (setup_rx todo id q nb socket pool d) (λ qs, qs = ids id q todo).
Proof using EthTrace0.
  revert q d. induction todo as [|n IH]; intros q d; [split; [cbn; by rewrite app_nil_r|done]|].
  rewrite ids_S. cbn [setup_rx fmap list_fmap]. pose proof (calls_rx id q nb socket pool d) as Hc.
  destruct (dev_rx_queue_setup id q nb socket pool d) as [ret d1]. cbn [snd] in Hc.
  destruct (ret <? 0); [by apply (ran_here (c_rx_setup id q))|].
  specialize (IH (q + 1) d1). destruct (setup_rx n id (q + 1) nb socket pool d1) as [r d2].
  eapply (ran_more [c_rx_setup id q]); [exact Hc|exact IH|done|]. destruct r; cbn; [done|]. by intros ->.
Qed.

Lemma setup_tx_ran todo id q nb socket (d : D) :
  ran (c_tx_setup id ∘ q_id <$> ids id q todo) d (setup_tx todo id q nb socket d) (λ qs, qs = ids id q todo).
Proof using EthTrace0.
  revert q d. induction todo as [|n IH]; intros q d; [split; [cbn; by rewrite app_nil_r|done]|].
  rewrite ids_S. cbn [setup_tx fmap list_fmap]. pose proof (calls_tx id q nb socket d) as Hc.
  destruct (dev_tx_queue_setup id q nb socket d) as [ret d1]. cbn [snd] in Hc.
  destruct (ret <? 0); [by apply (ran_here (c_tx_setup id q))|].
  specialize (IH (q + 1) d1). destruct (setup_tx n id (q + 1) nb socket d1) as [r d2].
  eapply (ran_more [c_tx_setup id q]); [exact Hc|exact IH|done|]. destruct r; cbn; [done|]. by intros ->.
Qed.

(** Sequencing: a run, then another that depends on its result. *)
Lemma ran_seq {A B} f1 f2 d r1 d1 (good : A → Prop) (k : A → D → (port_error + B) * D) (good' : B → Prop) :
  ran f1 d (r1, d1) good → (∀ a, good a → ran f2 d1 (k a d1) good') →
  ran (f1 ++ f2) d (match r1 with inl e => (inl e, d1) | inr a => k a d1 end) good'.
Proof using.
  intros H1 H2. destruct r1 as [e|a].
  - destruct H1 as (p & c & q & -> & Hd & ->). exists p, c, (q ++ f2). by rewrite <- app_assoc.
  - destruct H1 as [Hd Hg]. specialize (H2 a Hg). destruct (k a d1) as [r2 d2]. 
    eapply (ran_more f1 f2 d d1 (r2, d2)); [exact Hd|exact H2|done|]. destruct r2; cbn; auto.
Qed.

Definition bring_up (id n_rx n_tx : Z) : list dev_call :=
  [c_configure id; c_adjust id; c_info id] ++ (c_rx_setup id ∘ q_id <$> ids id 0 (Z.to_nat n_rx)) ++
  (c_tx_setup id ∘ q_id <$> ids id 0 (Z.to_nat n_tx)) ++ [c_start id true].

Lemma port_new_ran id n_rx n_tx pool (d : D) :
  let r := port_new id n_rx n_tx pool d in
  if dev_is_valid_port id d then
    ran (bring_up id n_rx n_tx) d r (λ p,
      port_id_ p = id ∧ owns_device_ p = true ∧ ipv4_addr_ p = None ∧
      port_rx p = fresh_queues (ids id 0 (Z.to_nat n_rx)) ∧ port_tx p = fresh_queues (ids id 0 (Z.to_nat n_tx)))
  else r = (inl invalid_port, d).
Proof using EthTrace0.
  cbv zeta. unfold port_new, bring_up. destruct (dev_is_valid_port id d); [|done]. cbn [negb app].
  pose proof (calls_configure id n_rx n_tx d) as C1. destruct (dev_configure id n_rx n_tx d) as [r1 d1]. cbn [snd] in C1.
  destruct (r1 =? 0); cbn [negb]; [|exact (ran_here (c_configure id) _ _ _ _ C1)].
  apply (ran_cons _ _ _ _ _ _ C1). pose proof (calls_adjust id kDefaultRingSize kDefaultRingSize d1) as C2.
  destruct (dev_adjust_nb_rx_tx_desc id _ _ d1) as [[[rxd txd]|] d2]; cbn [snd] in C2; [|exact (ran_here (c_adjust id) _ _ _ _ C2)].
  apply (ran_cons _ _ _ _ _ _ C2). pose proof (calls_info id d2) as C3. destruct (dev_info_get id d2) as [r3 d3]. cbn [snd] in C3.
  destruct (r3 =? 0); cbn [negb]; [|exact (ran_here (c_info id) _ _ _ _ C3)].
  apply (ran_cons _ _ _ _ _ _ C3). set (socket := dev_socket_id id d3).
  pose proof (setup_rx_ran (Z.to_nat n_rx) id 0 rxd socket pool d3) as R1. destruct (setup_rx _ _ _ _ _ _ d3) as [rx d4].
  eapply (ran_seq _ _ _ rx d4 _ (λ rxq d, let '(tx, d) := setup_tx (Z.to_nat n_tx) id 0 txd socket d in
    match tx with inl e => (inl e, d) | inr txq => let '(ret, d) := dev_start id d in
      if ret <? 0 then (inl start_failed, d) else (inr (Port id (Some pool) (fresh_queues rxq) (fresh_queues txq) None true), d) end) _ R1).
  intros rxq ->. pose proof (setup_tx_ran (Z.to_nat n_tx) id 0 txd socket d4) as R2. destruct (setup_tx _ _ _ _ _ d4) as [tx d5].
  eapply (ran_seq _ _ _ tx d5 _ (λ txq d, let '(ret, d) := dev_start id d in
      if ret <? 0 then (inl start_failed, d) else (inr (Port id (Some pool) (fresh_queues _) (fresh_queues txq) None true), d)) _ R2).
  intros txq ->. pose proof (calls_start id d5) as C6. destruct (dev_start id d5) as [r6 d6]. cbn [snd] in C6.
  cbn [fst] in C6. destruct (r6 <? 0); [exact (ran_here (c_start id true) _ _ _ _ C6)|]. by split.
Qed.

Lemma port_new_queues id n_rx n_tx pool (d : D) p d' : port_new id n_rx n_tx pool d = (inr p, d') →
  port_rx p = fresh_queues (ids id 0 (Z.to_nat n_rx)) ∧ port_tx p = fresh_queues (ids id 0 (Z.to_nat n_tx)).
Proof using EthTrace0.
  intros Hp. pose proof (port_new_ran id n_rx n_tx pool d) as Hr. cbv zeta in Hr. rewrite Hp in Hr.
  destruct (dev_is_valid_port id d); [|done]. by destruct Hr as (_ & _ & _ & _ & Hrx & Htx).
Qed.


(** *** Ownership of the device *)

Definition owns (p : Z) (o : option port) : nat :=
  match o with Some x => if owns_device_ x && (port_id_ x =? p) then 1 else 0 | None => 0 end.
Definition owners (p : Z) (objs : list (option port)) : nat := sum_list_with (owns p) objs.

Lemma owners_insert p objs i o o' : objs !! i = Some o → (owners p (<[i := o']> objs) + owns p o = owners p objs + owns p o')%nat.
Proof using. apply (sum_list_with_insert (owns p)). Qed.
Lemma owners_app p a b : owners p (a ++ b) = (owners p a + owners p b)%nat.
Proof using. apply sum_list_with_app. Qed.

(** The shutdown of one device. *)
Definition shut (p : Z) : list dev_call := [c_stop p; c_close p].
Definition times (p : Z) (ps : list Z) : nat := length (filter (λ x, x = p) ps).

Lemma times_app p a b : times p (a ++ b) = (times p a + times p b)%nat.
Proof using. unfold times. by rewrite filter_app, length_app. Qed.

(** Destroying the contents of an object. *)
Lemma shut_calls x (d : D) : ∃ ps, calls (port_dtor x d) = calls d ++ concat (shut <$> ps) ∧ ∀ p, times p ps = owns p (Some x).
Proof using EthTrace0.
  unfold port_dtor, owns. destruct (owns_device_ x); cbn [andb].
  - exists [port_id_ x]. rewrite calls_close, calls_stop, <- app_assoc. split; [done|]. intros p. unfold times.
    destruct (Z.eqb_spec (port_id_ x) p); [by rewrite filter_cons_True|by rewrite filter_cons_False].
  - exists []. split; [by rewrite app_nil_r|done].
Qed.

Lemma live_step op (objs : list (option port)) (d : D) :
  let '(objs', d') := live op (objs, d) in
  ∃ ps, calls d' = calls d ++ concat (shut <$> ps) ∧ ∀ p, (times p ps + owners p objs' = owners p objs)%nat.
Proof using EthTrace0.
  assert (Hnop : ∃ ps, calls d = calls d ++ concat (shut <$> ps) ∧ ∀ p, (times p ps + owners p objs = owners p objs)%nat)
    by (exists []; split; [by rewrite app_nil_r|done]).
  destruct op as [i|i j|i]; cbn [live].
  - destruct (objs !! i) as [[x|]|] eqn:Ei; try exact Hnop. cbn. exists []. split; [by rewrite app_nil_r|]. intros p.
    rewrite owners_app. pose proof (owners_insert p objs i (Some x) (Some (moved_from x)) Ei) as Ho.
    change (owns p (Some (moved_from x))) with 0%nat in Ho. change (owners p [Some x]) with (owns p (Some x) + 0)%nat. change (times p []) with 0%nat. lia.
  - destruct (decide (i = j)) as [|Hne]; [exact Hnop|].
    destruct (objs !! i) as [[x|]|] eqn:Ei; try exact Hnop. destruct (objs !! j) as [[y|]|] eqn:Ej; try exact Hnop. cbn.
    destruct (shut_calls x d) as (ps & Hc & Ht). exists ps. split; [exact Hc|]. intros p. rewrite Ht.
    pose proof (owners_insert p objs i (Some x) (Some y) Ei) as O1.
    pose proof (owners_insert p (<[i := Some y]> objs) j (Some y) (Some (moved_from y))) as O2.
    rewrite list_lookup_insert_ne in O2 by done. specialize (O2 Ej). change (owns p (Some (moved_from y))) with 0%nat in O2. lia.
  - destruct (objs !! i) as [[x|]|] eqn:Ei; try exact Hnop. destruct (shut_calls x d) as (ps & Hc & Ht). exists ps. split; [exact Hc|].
    intros p. rewrite Ht. pose proof (owners_insert p objs i (Some x) None Ei) as Ho. change (owns p None) with 0%nat in Ho. lia.
Qed.

(** A device is shut down exactly once: through any sequence of
    moves, move assignments (self-assignment included) and destructions of port
    objects, the calls made are stop-then-close pairs, and each device is shut
    down as many times as it lost an owner; so a device with one owner is shut
    down exactly once when all objects are gone, and never while its owner
    lives. *)
Theorem device_shut_down_once ops (objs : list (option port)) (d : D) :
  let '(objs', d') := foldl (λ s op, live op s) (objs, d) ops in
  ∃ ps, calls d' = calls d ++ concat (shut <$> ps) ∧
    (∀ p, (times p ps + owners p objs' = owners p objs)%nat) ∧
    (Forall (λ o, o = None) objs' → ∀ p, times p ps = owners p objs).
Proof using EthTrace0.
  assert (Hgo : let '(objs', d') := foldl (λ s op, live op s) (objs, d) ops in
    ∃ ps, calls d' = calls d ++ concat (shut <$> ps) ∧ (∀ p, (times p ps + owners p objs' = owners p objs)%nat)).
  { revert objs d. induction ops as [|op ops IH]; intros objs d; [exists []; split; [by rewrite app_nil_r|done]|].
    cbn [foldl]. pose proof (live_step op objs d) as H1. destruct (live op (objs, d)) as [o1 d1]. destruct H1 as (p1 & C1 & T1).
    specialize (IH o1 d1). destruct (foldl _ _ ops) as [o2 d2]. destruct IH as (p2 & C2 & T2). exists (p1 ++ p2).
    split; [by rewrite C2, C1, fmap_app, concat_app, <- app_assoc|]. intros p. rewrite times_app. specialize (T1 p). specialize (T2 p). lia. }
  destruct (foldl _ _ ops) as [objs' d']. destruct Hgo as (ps & Hc & Ht). exists ps. split_and!; [done|done|].
  intros Hall p. specialize (Ht p). assert (H0 : owners p objs' = 0%nat); [|lia].
  clear -Hall. induction Hall as [|o l Ho _ IH]; [done|]. by subst o.
Qed.
End port_proofs.

(** ** A device that records its calls and fails where it is told to *)

Module traced.
Record dev := Dev { log : list dev_call; failing : list dev_call }.
Definition note (c : dev_call) (d : dev) : Z * dev :=
  (if bool_decide (c ∈ failing d) then -1 else 0, Dev (log d ++ [c]) (failing d)).
Definition ops : EthDev dev := {|
  dev_is_valid_port _ _ := true;
  dev_configure p _ _ d := note (c_configure p) d;
  dev_adjust_nb_rx_tx_desc p a b d := let '(r, d) := note (c_adjust p) d in (if r =? 0 then Some (a, b) else None, d);
  dev_info_get p d := note (c_info p) d;
  dev_socket_id _ _ := 0;
  dev_rx_queue_setup p q _ _ _ d := note (c_rx_setup p q) d;
  dev_tx_queue_setup p q _ _ d := note (c_tx_setup p q) d;
  dev_start p d := let bad := bool_decide (c_start p false ∈ failing d) in
    (if bad then -1 else 0, Dev (log d ++ [c_start p (negb bad)]) (failing d));
  dev_stop p d := (note (c_stop p) d).2;
  dev_close p d := (note (c_close p) d).2;
  dev_macaddr_get _ _ := None |}.
Definition trace : @EthTrace dev ops.
Proof. refine (@Build_EthTrace dev ops log _ _ _ _ _ _ _ _); try done. intros p d. cbn. by case_match. Defined.
End traced.

Section port_run.
#[local] Existing Instances traced.ops traced.trace.


Definition nic : port := Port 3 (Some 0) (fresh_queues []) (fresh_queues []) None true.

(** Moved into a container, the original destroyed, then the container. *)
Lemma device_shut_down_once_witness :
  let s := foldl (λ s op, live op s) ([Some nic], traced.Dev [] []) [Move 0; Destroy 0; Destroy 1] in
  calls s.2 = [c_stop 3; c_close 3] ∧ ∃ ps, calls s.2 = concat (shut <$> ps) ∧ times 3 ps = 1%nat.
Proof.
  intros s. split; [reflexivity|].
  pose proof (device_shut_down_once [Move 0; Destroy 0; Destroy 1] [Some nic] (traced.Dev [] [])) as Hx.
  change (foldl (λ s op, live op s) ([Some nic], traced.Dev [] []) [Move 0; Destroy 0; Destroy 1]) with s in Hx.
  destruct s as [objs d] eqn:Es. destruct Hx as (ps & Hc & _ & Hall). exists ps. split; [exact Hc|]. apply Hall.
  injection Es as <- _. repeat constructor.
Defined.
End port_run.
