(* ===== verification/Runtime.v ===== *)
(** * runtime: the EAL and the ports it owns (src/runtime.cpp, include/runtime.h)

    The flattening of [runtime_params] into the argument vector of
    [rte_eal_init], and the ownership of the EAL: the process-wide flag, moves,
    assignment, destruction, and the ports inside with the memory pools they
    share.  EAL and mempool functions are parameters ([EalOps], [MempoolOps]);
    [EalTrace] and [MempoolTrace] say that they are recorded in the same list of
    calls as the ethdev functions of Port.v.  That every pool is freed once is
    the subject of Pool.v. *)

From stdpp Require Import strings pretty gmultiset.
From S2P Require Import Prelude Dpdk Packet Port.

(** ** The argument vector *)

Inductive eal_proc_type := pt_primary | pt_secondary | pt_auto_detect.
Inductive eal_iova_mode := iova_pa | iova_va.

Record runtime_params := Params {
  program_name : string;
  core_list : option string; main_lcore : option N; n_memory_channels : option N; legacy_mem_mb : option N;
  socket_mem : option string; socket_limit : option string; huge_dir : option string; file_prefix : option string;
  proc_type : option eal_proc_type; iova_mode : option eal_iova_mode; log_level : option string;
  no_huge : option bool; no_pci : option bool; in_memory : option bool;
  pci_allow : list string; pci_block : list string; vdevs : list string; extra_args : list string }.

Definition append_opt (args : list string) (flag : string) (value : option string) : list string :=
  match value with None => args | Some v => args ++ [flag; v] end.
(** The template, whose values go through [std::to_string]. *)
Definition append_opt_num (args : list string) (flag : string) (value : option N) : list string :=
  match value with None => args | Some v => args ++ [flag; pretty v] end.
Definition append_flag (args : list string) (flag : string) (value : option bool) : list string :=
  match value with Some true => args ++ [flag] | _ => args end.
Definition append_repeated (args : list string) (flag : string) (values : list string) : list string :=
  foldl (λ args v, args ++ [flag] ++ [v]) args values.

Definition proc_type_to_string (type : eal_proc_type) : string :=
  match type with pt_primary => "primary" | pt_secondary => "secondary" | pt_auto_detect => "auto" end.
Definition iova_to_string (mode : eal_iova_mode) : string := match mode with iova_pa => "pa" | iova_va => "va" end.

Definition build_eal_args (params : runtime_params) : list string :=
  let args := [program_name params] in
  let args := append_opt args "-l" (core_list params) in
  let args := append_opt_num args "--main-lcore" (main_lcore params) in
  let args := append_opt_num args "-n" (n_memory_channels params) in
  let args := append_opt_num args "-m" (legacy_mem_mb params) in
  let args := append_opt args "--socket-mem" (socket_mem params) in
  let args := append_opt args "--socket-limit" (socket_limit params) in
  let args := append_opt args "--huge-dir" (huge_dir params) in
  let args := append_opt args "--file-prefix" (file_prefix params) in
  let args := match proc_type params with
              | Some t => (args ++ ["--proc-type"]) ++ [proc_type_to_string t] | None => args end in
  let args := match iova_mode params with
              | Some m => (args ++ ["--iova-mode"]) ++ [iova_to_string m] | None => args end in
  let args := append_opt args "--log-level" (log_level params) in
  let args := append_flag args "--no-huge" (no_huge params) in
  let args := append_flag args "--no-pci" (no_pci params) in
  let args := append_flag args "--in-memory" (in_memory params) in
  let args := append_repeated args "-a" (pci_allow params) in
  let args := append_repeated args "-b" (pci_block params) in
  let args := append_repeated args "--vdev" (vdevs params) in
  foldl (λ args extra, args ++ [extra]) args (extra_args params).

(** *** Blocks: what one field contributes *)

Inductive shape := s_pairs | s_flag.
Definition shaped (f : string) (s : shape) (ws : list string) : Prop :=
  match s with s_pairs => ∃ vs, ws = vs ≫= λ v, [f; v] | s_flag => ws = [] ∨ ws = [f] end.

Definition pairs (f : string) (vs : list string) : list string := vs ≫= λ v, [f; v].
Definition flag_block (f : string) (b : option bool) : list string := if default false b then [f] else [].
(** A flag that is explicitly false is silent, as if unset. *)
Definition normal_flag (b : option bool) : option bool := if default false b then Some true else None.

Definition options : list (string * shape) :=
  [("-l", s_pairs); ("--main-lcore", s_pairs); ("-n", s_pairs); ("-m", s_pairs); ("--socket-mem", s_pairs);
   ("--socket-limit", s_pairs); ("--huge-dir", s_pairs); ("--file-prefix", s_pairs); ("--proc-type", s_pairs);
   ("--iova-mode", s_pairs); ("--log-level", s_pairs); ("--no-huge", s_flag); ("--no-pci", s_flag);
   ("--in-memory", s_flag); ("-a", s_pairs); ("-b", s_pairs); ("--vdev", s_pairs)]%string.

Definition blocks (p : runtime_params) : list (list string) :=
  [pairs "-l" (option_list (core_list p)); pairs "--main-lcore" (option_list (pretty <$> main_lcore p));
   pairs "-n" (option_list (pretty <$> n_memory_channels p)); pairs "-m" (option_list (pretty <$> legacy_mem_mb p));
   pairs "--socket-mem" (option_list (socket_mem p)); pairs "--socket-limit" (option_list (socket_limit p));
   pairs "--huge-dir" (option_list (huge_dir p)); pairs "--file-prefix" (option_list (file_prefix p));
   pairs "--proc-type" (option_list (proc_type_to_string <$> proc_type p));
   pairs "--iova-mode" (option_list (iova_to_string <$> iova_mode p));
   pairs "--log-level" (option_list (log_level p));
   flag_block "--no-huge" (no_huge p); flag_block "--no-pci" (no_pci p); flag_block "--in-memory" (in_memory p);
   pairs "-a" (pci_allow p); pairs "-b" (pci_block p); pairs "--vdev" (vdevs p)].

Lemma append_opt_block args f v : append_opt args f v = args ++ pairs f (option_list v).
Proof. destruct v; cbn; by rewrite ?app_nil_r. Qed.
Lemma append_opt_num_block args f v : append_opt_num args f v = args ++ pairs f (option_list (pretty <$> v)).
Proof. destruct v; cbn; by rewrite ?app_nil_r. Qed.
Lemma append_flag_block args f v : append_flag args f v = args ++ flag_block f v.
Proof. destruct v as [[]|]; cbn; by rewrite ?app_nil_r. Qed.
Lemma append_repeated_block args f vs : append_repeated args f vs = args ++ pairs f vs.
Proof.
  unfold append_repeated. revert args. induction vs as [|v vs IH]; intros args; cbn; [by rewrite app_nil_r|].
  rewrite IH, <- app_assoc. done.
Qed.
Lemma extra_block args vs : foldl (λ args (extra : string), args ++ [extra]) args vs = args ++ vs.
Proof.
  revert args. induction vs as [|v vs IH]; intros args; cbn; [by rewrite app_nil_r|]. by rewrite IH, <- app_assoc.
Qed.

Lemma build_eal_args_blocks p : build_eal_args p = program_name p :: concat (blocks p) ++ extra_args p.
Proof.
  unfold build_eal_args. rewrite extra_block, !append_repeated_block, !append_flag_block.
  assert (Hpt : ∀ args, (match proc_type p with Some t => (args ++ ["--proc-type"%string]) ++ [proc_type_to_string t] | None => args end) =
                  args ++ pairs "--proc-type" (option_list (proc_type_to_string <$> proc_type p)))
    by (intros args; destruct (proc_type p); cbn; by rewrite ?app_nil_r, <- ?app_assoc).
  assert (Him : ∀ args, (match iova_mode p with Some m => (args ++ ["--iova-mode"%string]) ++ [iova_to_string m] | None => args end) =
                  args ++ pairs "--iova-mode" (option_list (iova_to_string <$> iova_mode p)))
    by (intros args; destruct (iova_mode p); cbn; by rewrite ?app_nil_r, <- ?app_assoc).
  rewrite append_opt_block, Him, Hpt, !append_opt_block, !append_opt_num_block.
  unfold blocks. cbn [concat]. rewrite <- !app_assoc, ?app_nil_r. done.
Qed.

Lemma blocks_shaped p : Forall2 (λ o ws, shaped o.1 o.2 ws) options (blocks p).
Proof.
  assert (Hp : ∀ f vs, shaped f s_pairs (pairs f vs)) by (intros f vs; by exists vs).
  assert (Hf : ∀ f b, shaped f s_flag (flag_block f b)) by (intros f [[]|]; cbn; auto).
  unfold blocks, options. repeat (apply Forall2_cons; split; [first [apply (Hp _) | apply (Hf _)]|]). constructor.
Qed.

(** *** Reading the vector back *)

(** A block ends where its option stops occurring. *)
Lemma shaped_delimited f s a b r r' : shaped f s a → shaped f s b → head r ≠ Some f → head r' ≠ Some f →
  a ++ r = b ++ r' → a = b ∧ r = r'.
Proof.
  destruct s; cbn.
  - intros [va ->] [vb ->] Hr Hr'. revert vb. induction va as [|v va IH]; intros [|v' vb]; cbn; intros Hx.
    + done.
    + by rewrite Hx in Hr.
    + by rewrite <- Hx in Hr'.
    + injection Hx as -> Hx. by destruct (IH vb Hx) as [-> ->].
  - intros [-> | ->] [-> | ->] Hr Hr'; cbn; intros Hx; simplify_eq; done.
Qed.

Lemma head_blocks os bs (e : list string) x : Forall2 (λ o ws, shaped o.1 o.2 ws) os bs → head (concat bs ++ e) = Some x →
  x ∈ os.*1 ∨ head e = Some x.
Proof.
  induction 1 as [|[f s] b os bs Hb _ IH]; cbn; [by right|]. destruct b as [|w b]; cbn.
  - intros Hx. destruct (IH Hx); [left; by constructor 2|by right].
  - intros [= ->]. left. destruct s; cbn in Hb; [destruct Hb as [[|? ?] Hb]; cbn in Hb; simplify_eq; by constructor|].
    destruct Hb as [|Hb]; simplify_eq. by constructor.
Qed.

Lemma blocks_delimited os bs bs' (e e' : list string) : NoDup os.*1 →
  Forall2 (λ o ws, shaped o.1 o.2 ws) os bs → Forall2 (λ o ws, shaped o.1 o.2 ws) os bs' →
  (∀ x, head e = Some x → x ∉ os.*1) → (∀ x, head e' = Some x → x ∉ os.*1) →
  concat bs ++ e = concat bs' ++ e' → bs = bs' ∧ e = e'.
Proof.
  intros Hnd Hb. revert bs'. induction Hb as [|[f s] b os bs Hb1 Hb IH]; intros bs' Hb' He He' Hx.
  { inversion Hb'. by subst. }
  inversion Hb' as [|? b' ? bs'' Hb1' Hb'']; subst. cbn in Hx, Hnd, He, He'. rewrite <- !app_assoc in Hx.
  apply NoDup_cons in Hnd as [Hf Hnd].
  assert (Hout : ∀ cs c, Forall2 (λ o ws, shaped o.1 o.2 ws) os cs → (∀ x, head c = Some x → x ∉ f :: os.*1) → head (concat cs ++ c) ≠ Some f).
  { intros cs c Hcs Hc Hh. destruct (head_blocks os cs c f Hcs Hh) as [?|Hh']; [done|]. apply (Hc f Hh'). by constructor. }
  destruct (shaped_delimited f s b b' _ _ Hb1 Hb1' (Hout bs e Hb He) (Hout bs'' e' Hb'' He') Hx) as [-> Hr].
  destruct (IH Hnd bs'' Hb'') as [-> ->]; [..|exact Hr|done]; intros x Hh Hin.
  - apply (He x Hh). by constructor 2.
  - apply (He' x Hh). by constructor 2.
Qed.

(** What the vector says of the parameters. *)
Definition normal (p : runtime_params) : runtime_params :=
  Params (program_name p) (core_list p) (main_lcore p) (n_memory_channels p) (legacy_mem_mb p) (socket_mem p) (socket_limit p)
    (huge_dir p) (file_prefix p) (proc_type p) (iova_mode p) (log_level p)
    (normal_flag (no_huge p)) (normal_flag (no_pci p)) (normal_flag (in_memory p))
    (pci_allow p) (pci_block p) (vdevs p) (extra_args p).

Lemma pairs_inj f a b : pairs f a = pairs f b → a = b.
Proof. revert b. induction a as [|x a IH]; intros [|y b]; cbn; try done. intros [= -> Hx]. by rewrite (IH b Hx). Qed.
Lemma option_list_inj {A} (a b : option A) : option_list a = option_list b → a = b.
Proof. destruct a, b; cbn; congruence. Qed.
Lemma opt_pairs_inj f (a b : option string) : pairs f (option_list a) = pairs f (option_list b) → a = b.
Proof. intros Hx. by apply option_list_inj, (pairs_inj f). Qed.
Lemma opt_map_pairs_inj {A} (g : A → string) `{!Inj (=) (=) g} f (a b : option A) :
  pairs f (option_list (g <$> a)) = pairs f (option_list (g <$> b)) → a = b.
Proof. intros Hx%opt_pairs_inj. by apply (inj (fmap g)). Qed.
Lemma flag_block_inj f a b : flag_block f a = flag_block f b → normal_flag a = normal_flag b.
Proof. unfold flag_block, normal_flag. by destruct (default false a), (default false b). Qed.
#[local] Instance proc_inj : Inj (=) (=) proc_type_to_string.
Proof. by intros [] []. Qed.
#[local] Instance iova_inj : Inj (=) (=) iova_to_string.
Proof. by intros [] []. Qed.

(** The argument vector says exactly what the caller set: two
    parameter sets flatten to the same vector only if they agree in every
    field, a presence flag set to false counting as unset, whatever strings the
    fields hold (values that look like options included), provided the verbatim
    [extra_args] do not begin with one of the modelled options. *)
Theorem eal_args_determine_params p q :
  (∀ x, head (extra_args p) = Some x → x ∉ options.*1) → (∀ x, head (extra_args q) = Some x → x ∉ options.*1) →
  build_eal_args p = build_eal_args q ↔ normal p = normal q.
Proof.
  intros Hp Hq. split.
  - rewrite !build_eal_args_blocks. intros [= Hn Hx].
    assert (Hnd : NoDup options.*1) by (apply (bool_decide_unpack _); vm_compute; exact I).
    destruct (blocks_delimited options (blocks p) (blocks q) _ _ Hnd (blocks_shaped p) (blocks_shaped q) Hp Hq Hx) as [Hb He].
    unfold blocks in Hb. injection Hb as Hb1 Hb2 Hb3 Hb4 Hb5 Hb6 Hb7 Hb8 Hb9 Hb10 Hb11 Hb12 Hb13 Hb14 Hb15 Hb16 Hb17.
    apply opt_pairs_inj in Hb1, Hb5, Hb6, Hb7, Hb8, Hb11. apply (opt_map_pairs_inj _) in Hb2, Hb3, Hb4, Hb9, Hb10.
    apply flag_block_inj in Hb12, Hb13, Hb14. apply pairs_inj in Hb15, Hb16, Hb17. unfold normal. by f_equal.
  - unfold normal. intros Hx. injection Hx as H1 H2 H3 H4 H5 H6 H7 H8 H9 H10 H11 H12 H13 H14 H15 H16 H17 H18 H19.
    assert (Hf : ∀ a b, normal_flag a = normal_flag b → ∀ f, flag_block f a = flag_block f b).
    { unfold flag_block, normal_flag. intros a b. by destruct (default false a), (default false b). }
    rewrite !build_eal_args_blocks. unfold blocks.
    rewrite H1, H2, H3, H4, H5, H6, H7, H8, H9, H10, H11, H12, H16, H17, H18, H19.
    by rewrite (Hf _ _ H13), (Hf _ _ H14), (Hf _ _ H15).
Qed.

Lemma eal_args_determine_params_witness :
  let p := Params "app" (Some "0-3"%string) (Some 2%N) None None None None None None (Some pt_auto_detect) None None
             (Some true) (Some false) None [] [] ["-b"; "net_ring0"]%string ["--foo"]%string in
  build_eal_args p = ["app"; "-l"; "0-3"; "--main-lcore"; "2"; "--proc-type"; "auto"; "--no-huge"; "--vdev"; "-b"; "--vdev";
                      "net_ring0"; "--foo"]%string ∧
  (build_eal_args p = build_eal_args (normal p) ↔ normal p = normal (normal p)).
Proof.
  intros p. split; [reflexivity|]. apply (eal_args_determine_params p (normal p)); intros x [= <-]; by apply (bool_decide_unpack _).
Defined.

(** ** Memory pools and who owns them *)

Class MempoolOps (D : Type) := { mempool_free : Z → D → D }.

(** [packet_pool], the object: [pool_], null once moved from. *)
Section object.
Context {D : Type} `{MempoolOps D}.

Definition pool_move (other : option Z) : option Z * option Z := (other, None).
Definition pool_dtor (this : option Z) (d : D) : D := match this with Some p => mempool_free p d | None => d end.
(** Assignment from another object. *)
Definition pool_assign (this other : option Z) (d : D) : option Z * option Z * D := (other, None, pool_dtor this d).

(** A shared pointer to [p] goes away; [others] are the owners that stay.  Since
    a pointer's count is the number of its owners, they are all there is to it. *)
Definition drop_pool (p : option Z) (others : list (option Z)) (d : D) : D :=
  match p with Some x => if decide (Some x ∈ others) then d else pool_dtor (Some x) d | None => d end.
End object.

(** ** Ownership of the EAL *)

Class EalOps (D : Type) := {
  eal_init : list string → D → Z * D;
  eal_cleanup : D → D;
  (* rte_pktmbuf_pool_create: name, mbufs, cache, element size, socket *)
  pool_create : string → Z → Z → Z → Z → D → option Z * D }.

Inductive runtime_error := second_runtime | eal_init_failed | pool_failed | no_such_port | port_failed (e : port_error).

Record runtime := Runtime { owns_eal_ : bool; ports_ : list port }.

Definition kDefaultNumMbufs : Z := 8192.

Section runtime.
Context {D : Type} `{EthDev D} `{EalOps D} `{MempoolOps D}.

(** What a call works on: [g_runtime_exists] and the devices. *)
Abbreviation process := (bool * D)%type.

Definition runtime_new (params : runtime_params) (st : process) : (runtime_error + runtime) * process :=
  let '(g_runtime_exists, d) := st in
  if g_runtime_exists : bool then (inl second_runtime, st)
  else
    let '(ret, d) := eal_init (build_eal_args params) d in
    if ret <? 0 then (inl eal_init_failed, (false, d)) else (inr (Runtime true []), (true, d)).

(** The pools a list of ports points to. *)
Definition pools (ports : list port) : list (option Z) := port_pool_ <$> ports.

(** A port goes: the destructor's body, then the members, the pointer to the
    pool among them. *)
Definition port_end (p : port) (others : list (option Z)) (d : D) : D := drop_pool (port_pool_ p) others (port_dtor p d).

(** [ports_.clear()]: front to back; [others] are the owners of pools outside. *)
Fixpoint clear_ports (ports : list port) (others : list (option Z)) (d : D) : D :=
  match ports with
  | [] => d
  | p :: rest => clear_ports rest others (port_end p (pools rest ++ others) d)
  end.

Definition runtime_move (other : runtime) : runtime * runtime := (other, Runtime false []).

(** The branch on [owns_eal_] the destructor and assignment share. *)
Definition tear_down (this : runtime) (others : list (option Z)) (st : process) : runtime * process :=
  if owns_eal_ this then (Runtime true [], (false, eal_cleanup (clear_ports (ports_ this) others st.2))) else (this, st).

(** Members are destroyed, or overwritten, after that. *)
Definition runtime_dtor (this : runtime) (others : list (option Z)) (st : process) : process :=
  let '(this, (g, d)) := tear_down this others st in (g, clear_ports (ports_ this) others d).
Definition runtime_assign (this other : runtime) (others : list (option Z)) (st : process) : runtime * runtime * process :=
  let others := pools (ports_ other) ++ others in
  let '(this, (g, d)) := tear_down this others st in
  (Runtime (owns_eal_ other) (ports_ other), Runtime false [], (g, clear_ports (ports_ this) others d)).

(** [packet_pool]'s constructor, and the only way to it. *)
Definition pool_new (name : string) (n_mbufs elt_size socket_id cache_size : Z) (d : D) : (runtime_error + Z) * D :=
  let '(p, d) := pool_create name n_mbufs cache_size elt_size socket_id d in
  (match p with None => inl pool_failed | Some p => inr p end, d).
Definition create_pool (name : string) (n_mbufs elt_size socket_id cache_size : Z) (d : D) : (runtime_error + Z) * D :=
  pool_new name n_mbufs elt_size socket_id cache_size d.

Definition make_default_pool (port_id elt_size : Z) (d : D) : (runtime_error + Z) * D :=
  if negb (dev_is_valid_port port_id d) then (inl (port_failed invalid_port), d)
  else
    create_pool ("PORT_" +:+ pretty port_id +:+ "_POOL") kDefaultNumMbufs elt_size (u32 (dev_socket_id port_id d)) 256 d.

(** The pointer moves into the port; if the port's constructor throws, it goes
    with the half-built port.  The local object is moved into the container
    and destroyed. *)
Definition add_port (this : runtime) (others : list (option Z)) (port_id n_rx_queues n_tx_queues pool : Z) (d : D)
    : (runtime_error + runtime) * D :=
  let '(p, d) := port_new port_id n_rx_queues n_tx_queues pool d in
  match p with
  | inl e => (inl (port_failed e), drop_pool (Some pool) (pools (ports_ this) ++ others) d)
  | inr p =>
    let '(stored, p) := port_move p in
    let this := Runtime (owns_eal_ this) (ports_ this ++ [stored]) in
    (inr this, port_end p (pools (ports_ this) ++ others) d)
  end.
Definition add_port_default (this : runtime) (others : list (option Z)) (port_id n_rx_queues n_tx_queues elt_size : Z) (d : D)
    : (runtime_error + runtime) * D :=
  let '(pool, d) := make_default_pool port_id elt_size d in
  match pool with inl e => (inl e, d) | inr pool => add_port this others port_id n_rx_queues n_tx_queues pool d end.

Definition get_port (this : runtime) (port_id : Z) : runtime_error + port :=
  match filter (λ p, port_id_ p = port_id) (ports_ this) with [] => inl no_such_port | p :: _ => inr p end.

(** *** A program: runtime objects in a store, [None] once destroyed, and its
    own pointers to pools, [None] once dropped *)

Inductive action :=
  | Create (params : runtime_params)
  | MoveTo (i : nat) | AssignTo (i j : nat) | Destroyed (i : nat)
  | CreatePool (i : nat) (name : string) (n_mbufs elt_size socket_id cache_size : Z)
  | GetPool (i k : nat) | CopyPool (h : nat) | DropPool (h : nat)
  | AddPort (i : nat) (port_id n_rx n_tx : Z) (h : nat) | AddPortDefault (i : nat) (port_id n_rx n_tx elt_size : Z).

Abbreviation program := (list (option runtime) * list (option Z) * process)%type.

(** The pools the objects point to. *)
Definition object_pools (objs : list (option runtime)) : list (option Z) :=
  objs ≫= λ o, match o with Some rt => pools (ports_ rt) | None => [] end.

(** [add_port] on object [i]; what it throws leaves the object as it was. *)
Definition act_add (i : nat) (objs : list (option runtime)) (hs : list (option Z)) (g : bool)
    (add : runtime → list (option Z) → (runtime_error + runtime) * D) : option program :=
  match objs !! i with
  | Some (Some rt) =>
    if owns_eal_ rt then
      let '(rt', d) := add rt (object_pools (<[i := None]> objs) ++ hs) in
      Some (<[i := Some (match rt' with inr rt' => rt' | inl _ => rt end)]> objs, hs, (g, d))
    else None
  | _ => None
  end.

(** [None] is what a program must not do: use a dead object or a null pointer,
    make a pool or a port without the EAL, or drop the last pointer to a pool
    when the EAL is gone (packet_pool.h).  Anything else is allowed.  A pointer
    given to [AddPort] is moved; a program that keeps one copies it first. *)
Definition act (a : action) (s : program) : option program :=
  let '(objs, hs, (g, d)) := s in
  match a with
  | Create params =>
    let '(rt, st) := runtime_new params (g, d) in
    Some (match rt with inr rt => objs ++ [Some rt] | inl _ => objs end, hs, st)
  | MoveTo i =>
    match objs !! i with
    | Some (Some rt) => let '(rt', rt) := runtime_move rt in Some (<[i := Some rt]> objs ++ [Some rt'], hs, (g, d))
    | _ => None
    end
  | AssignTo i j =>
    match objs !! i, objs !! j with
    | Some (Some a), Some (Some b) =>
      if decide (i = j) then Some s
      else
        let '(a, b, st) := runtime_assign a b (object_pools (<[j := None]> (<[i := None]> objs)) ++ hs) (g, d) in
        Some (<[j := Some b]> (<[i := Some a]> objs), hs, st)
    | _, _ => None
    end
  | Destroyed i =>
    match objs !! i with
    | Some (Some rt) => Some (<[i := None]> objs, hs, runtime_dtor rt (object_pools (<[i := None]> objs) ++ hs) (g, d))
    | _ => None
    end
  | CreatePool i name n elt socket cache =>
    match objs !! i with
    | Some (Some rt) =>
      if owns_eal_ rt then
        let '(p, d) := create_pool name n elt socket cache d in
        Some (objs, match p with inr p => hs ++ [Some p] | inl _ => hs end, (g, d))
      else None
    | _ => None
    end
  | GetPool i k =>
    match objs !! i with
    | Some (Some rt) => match ports_ rt !! k with Some p => Some (objs, hs ++ [port_pool_ p], (g, d)) | None => None end
    | _ => None
    end
  | CopyPool h => match hs !! h with Some p => Some (objs, hs ++ [p], (g, d)) | None => None end
  | DropPool h =>
    match hs !! h with
    | Some p =>
      let hs := <[h := None]> hs in
      let others := object_pools objs ++ hs in
      if g || bool_decide (p = None ∨ p ∈ others) then Some (objs, hs, (g, drop_pool p others d)) else None
    | None => None
    end
  | AddPort i port_id n_rx n_tx h =>
    match hs !! h with
    | Some (Some pool) => act_add i objs (<[h := None]> hs) g (λ rt others, add_port rt others port_id n_rx n_tx pool d)
    | _ => None
    end
  | AddPortDefault i port_id n_rx n_tx elt_size => act_add i objs hs g (λ rt others, add_port_default rt others port_id n_rx n_tx elt_size d)
  end.

Fixpoint acts (l : list action) (s : program) : option program :=
  match l with [] => Some s | a :: l => match act a s with Some s => acts l s | None => None end end.
End runtime.


(** ** The calls are bracketed *)

Class EalTrace (D : Type) `{EthDev D} `{!EthTrace D} `{EalOps D} := {
  calls_init args d : calls (eal_init args d).2 = calls d ++ [c_eal_init (negb ((eal_init args d).1 <? 0))];
  calls_cleanup d : calls (eal_cleanup d) = calls d ++ [c_eal_cleanup];
  calls_pool name a b c e d : calls (pool_create name a b c e d).2 = calls d ++ [c_pool_create] }.
Class MempoolTrace (D : Type) `{EthDev D} `{!EthTrace D} `{MempoolOps D} := {
  calls_free p d : calls (mempool_free p d) = calls d ++ [c_pool_free p] }.

Definition in_eal (c : dev_call) : bool := match c with c_eal_init _ | c_eal_cleanup => false | _ => true end.
(** Calls inside the EAL that neither start nor end a device. *)
Definition steady (c : dev_call) : bool :=
  match c with c_eal_init _ | c_eal_cleanup | c_start _ true | c_stop _ | c_close _ => false | _ => true end.

(** The EAL: down, or up with the devices that run and those that were stopped
    and are still to be closed. *)
Inductive eal_state := Down | Up (running stopped : gmultiset Z).

(** What a call makes of it; [None] if it comes at the wrong time: an
    initialization while the EAL is up, any other call while it is down, a
    device stopped that does not run or closed that was not stopped, or a
    clean-up while a device runs or is not closed. *)
Definition after_call (s : eal_state) (c : dev_call) : option eal_state :=
  match s, c with
  | Down, c_eal_init ok => Some (if ok then Up ∅ ∅ else Down)
  | Down, _ | Up _ _, c_eal_init _ => None
  | Up running stopped, c_eal_cleanup => if decide (running = ∅ ∧ stopped = ∅) then Some Down else None
  | Up running stopped, c_start p true => Some (Up ({[+ p +]} ⊎ running) stopped)
  | Up running stopped, c_stop p =>
    if decide (p ∈ running) then Some (Up (running ∖ {[+ p +]}) ({[+ p +]} ⊎ stopped)) else None
  | Up running stopped, c_close p => if decide (p ∈ stopped) then Some (Up running (stopped ∖ {[+ p +]})) else None
  | Up running stopped, _ => Some s
  end.
Fixpoint bracket (s : eal_state) (t : list dev_call) : option eal_state :=
  match t with [] => Some s | c :: t => s ← after_call s c; bracket s t end.

Lemma bracket_app s t t' s' : bracket s t = Some s' → bracket s (t ++ t') = bracket s' t'.
Proof.
  revert s. induction t as [|c t IH]; intros s; cbn; [by intros [= ->]|]. destruct (after_call s c); [apply IH|done].
Qed.
Lemma bracket_steady r s t : Forall steady t → bracket (Up r s) t = Some (Up r s).
Proof. induction 1 as [|[] t Hc _ IH]; try done. cbn in Hc. by destruct ok. Qed.
Lemma bracket_shut p r : bracket (Up ({[+ p +]} ⊎ r) ∅) (shut p) = Some (Up r ∅).
Proof.
  assert (E1 : ({[+ p +]} ⊎ r) ∖ {[+ p +]} = r) by multiset_solver.
  assert (E2 : ({[+ p +]} ⊎ ∅) ∖ {[+ p +]} = (∅ : gmultiset Z)) by multiset_solver.
  unfold shut. cbn [bracket after_call]. rewrite decide_True by multiset_solver. cbn [mbind option_bind bracket after_call].
  rewrite decide_True by multiset_solver. cbn [mbind option_bind]. by rewrite E1, E2.
Qed.

(** The calls that destroy ports: each device is stopped and closed, then its
    pool is freed if no later port and nothing outside points to it. *)
Definition last_drop (p : option Z) (others : list (option Z)) : list dev_call :=
  match p with Some x => if decide (Some x ∈ others) then [] else [c_pool_free x] | None => [] end.
Fixpoint closing_calls (ports : list port) (others : list (option Z)) : list dev_call :=
  match ports with
  | [] => []
  | p :: rest => shut (port_id_ p) ++ last_drop (port_pool_ p) (pools rest ++ others) ++ closing_calls rest others
  end.

(** The devices of ports, and of the ports of runtime objects. *)
Definition devices (ports : list port) : gmultiset Z := list_to_set_disj (port_id_ <$> ports).
Definition object_ports (o : option runtime) : list port := match o with Some rt => ports_ rt | None => [] end.
Definition all_devices (objs : list (option runtime)) : gmultiset Z := devices (objs ≫= object_ports).

Lemma devices_cons p l : devices (p :: l) = {[+ port_id_ p +]} ⊎ devices l.
Proof. done. Qed.
Lemma devices_app l l' : devices (l ++ l') = devices l ⊎ devices l'.
Proof. unfold devices. by rewrite fmap_app, list_to_set_disj_app. Qed.
Lemma all_devices_snoc objs o : all_devices (objs ++ [o]) = all_devices objs ⊎ devices (object_ports o).
Proof. unfold all_devices. by rewrite bind_app, devices_app, bind_singleton. Qed.
Lemma all_devices_insert objs i o o' : objs !! i = Some o →
  all_devices (<[i := o']> objs) ⊎ devices (object_ports o) = all_devices objs ⊎ devices (object_ports o').
Proof.
  unfold all_devices. revert i. induction objs as [|x objs IH]; intros [|i]; cbn [lookup list_lookup]; try done.
  - intros [= ->]. cbn [insert list_insert]. rewrite !bind_cons, !devices_app.
    generalize (devices (object_ports o)) (devices (object_ports o')) (devices (objs ≫= object_ports)). multiset_solver.
  - intros Hi. cbn [insert list_insert]. rewrite !bind_cons, !devices_app. rewrite <- !(assoc_L (⊎)). f_equal. exact (IH i Hi).
Qed.

Section runtime_proofs.
Context {D : Type} `{EthDev D} `{!EthTrace D} `{EalOps D} `{!EalTrace D} `{MempoolOps D} `{!MempoolTrace D}.

Lemma drop_calls p others (d : D) : calls (drop_pool p others d) = calls d ++ last_drop p others.
Proof using MempoolTrace0.
  unfold drop_pool, last_drop, pool_dtor. destruct p as [x|]; [|by rewrite app_nil_r]. case_decide; [by rewrite app_nil_r|apply calls_free].
Qed.
Lemma last_drop_steady p others : Forall steady (last_drop p others).
Proof using. unfold last_drop. destruct p; [|constructor]. case_decide; by repeat constructor. Qed.

Lemma clear_ports_calls ports others (d : D) : Forall (λ p, owns_device_ p = true) ports →
  calls (clear_ports ports others d) = calls d ++ closing_calls ports others.
Proof using EthTrace0 MempoolTrace0.
  intros Hp. revert d. induction Hp as [|p ports Hp _ IH]; intros d; cbn [clear_ports closing_calls]; [by rewrite app_nil_r|].
  rewrite IH. unfold port_end. rewrite drop_calls. unfold port_dtor. rewrite Hp, calls_close, calls_stop. by rewrite <- !app_assoc.
Qed.
Lemma bracket_closing ports others r : bracket (Up (devices ports ⊎ r) ∅) (closing_calls ports others) = Some (Up r ∅).
Proof using.
  revert r. induction ports as [|p ports IH]; intros r; cbn [closing_calls].
  { change (devices []) with (∅ : gmultiset Z). by rewrite (left_id_L ∅ (⊎)). }
  assert (E : devices (p :: ports) ⊎ r = {[+ port_id_ p +]} ⊎ (devices ports ⊎ r)) by (by rewrite devices_cons, (assoc_L (⊎))). rewrite E.
  rewrite (bracket_app _ _ _ _ (bracket_shut _ _)), (bracket_app _ _ _ _ (bracket_steady _ _ _ (last_drop_steady _ _))). apply IH.
Qed.

Lemma prefix_of_snoc {A} (P : A → Prop) l (x : A) pre c post : l ++ [x] = pre ++ c :: post → Forall P l → Forall P pre.
Proof using.
  destruct post as [|y post' _] using rev_ind.
  - intros [-> _]%app_inj_tail. done.
  - rewrite app_comm_cons, app_assoc. intros [-> _]%app_inj_tail Hl. by apply Forall_app in Hl as [? _].
Qed.

(** A successful constructor's calls up to the start. *)
Definition before_start (id n_rx n_tx : Z) : list dev_call :=
  [c_configure id; c_adjust id; c_info id] ++ (c_rx_setup id ∘ q_id <$> ids id 0 (Z.to_nat n_rx)) ++
  (c_tx_setup id ∘ q_id <$> ids id 0 (Z.to_nat n_tx)).
Lemma bring_up_start id n_rx n_tx : bring_up id n_rx n_tx = before_start id n_rx n_tx ++ [c_start id true].
Proof using. unfold bring_up, before_start. by rewrite <- !app_assoc. Qed.
Lemma before_start_steady id n_rx n_tx : Forall steady (before_start id n_rx n_tx).
Proof using. unfold before_start. repeat apply Forall_app_2; repeat apply Forall_cons_2; try done; apply Forall_fmap, Forall_true; done. Qed.
Lemma failed_start_steady id n_rx n_tx pre c post : bring_up id n_rx n_tx = pre ++ c :: post → Forall steady (pre ++ [failed c]).
Proof using.
  rewrite bring_up_start. intros Hpp. pose proof (before_start_steady id n_rx n_tx) as Hs.
  apply Forall_app_2; [eapply prefix_of_snoc; [exact Hpp|exact Hs]|]. apply Forall_singleton.
  assert (Hin : c ∈ before_start id n_rx n_tx ++ [c_start id true]) by (rewrite Hpp; apply elem_of_app; right; by constructor).
  apply elem_of_app in Hin as [Hin|Hin%list_elem_of_singleton]; [|by subst c].
  rewrite Forall_forall in Hs. specialize (Hs c Hin). by destruct c.
Qed.

(** A constructor that fails leaves no device running. *)
Lemma port_new_within id n_rx n_tx pool (d : D) : ∃ t, calls (port_new id n_rx n_tx pool d).2 = calls d ++ t ∧
  match (port_new id n_rx n_tx pool d).1 with
  | inl _ => Forall steady t
  | inr p => owns_device_ p = true ∧ port_id_ p = id ∧ t = bring_up id n_rx n_tx
  end.
Proof using EthTrace0.
  pose proof (port_new_ran id n_rx n_tx pool d) as Hr. cbv zeta in Hr. destruct (dev_is_valid_port id d).
  2: { rewrite Hr. exists []. rewrite app_nil_r. by split; [|constructor]. }
  unfold ran in Hr. destruct (port_new id n_rx n_tx pool d) as [[e|p] d']; cbn [fst snd] in *.
  - destruct Hr as (pre & c & post & Hpp & Hc & _). exists (pre ++ [failed c]). split; [done|]. by eapply failed_start_steady.
  - destruct Hr as (Hc & Hid & Ho & _). by exists (bring_up id n_rx n_tx).
Qed.
Lemma bracket_bring_up id n_rx n_tx r : bracket (Up r ∅) (bring_up id n_rx n_tx) = Some (Up ({[+ id +]} ⊎ r) ∅).
Proof using.
  by rewrite bring_up_start, (bracket_app _ _ _ _ (bracket_steady _ _ _ (before_start_steady _ _ _))).
Qed.

(** What adding a port does: the calls, and the port at the end. *)
Definition added (rt : runtime) (id : Z) (d : D) (res : (runtime_error + runtime) * D) : Prop :=
  ∃ t, calls res.2 = calls d ++ t ∧
  match res.1 with
  | inl _ => Forall steady t
  | inr rt' => (∀ r, bracket (Up r ∅) t = Some (Up ({[+ id +]} ⊎ r) ∅)) ∧
    ∃ p, rt' = Runtime (owns_eal_ rt) (ports_ rt ++ [p]) ∧ owns_device_ p = true ∧ port_id_ p = id
  end.

Lemma add_port_within rt others id n_rx n_tx pool (d : D) : added rt id d (add_port rt others id n_rx n_tx pool d).
Proof using EthTrace0 MempoolTrace0.
  destruct (port_new_within id n_rx n_tx pool d) as (t & Ht & Hr). unfold add_port, added.
  destruct (port_new id n_rx n_tx pool d) as [[e|p] d']; cbn [fst snd] in *.
  - exists (t ++ last_drop (Some pool) (pools (ports_ rt) ++ others)). rewrite drop_calls, Ht, app_assoc. split; [done|].
    apply Forall_app_2; [done|apply last_drop_steady].
  - destruct Hr as (Ho & Hid & ->). exists (bring_up id n_rx n_tx). split; [exact Ht|]. split; [intros r; apply bracket_bring_up|]. by exists p.
Qed.
Lemma add_port_default_within rt others id n_rx n_tx elt (d : D) : added rt id d (add_port_default rt others id n_rx n_tx elt d).
Proof using EthTrace0 EalTrace0 MempoolTrace0.
  unfold add_port_default, make_default_pool, create_pool, pool_new.
  destruct (dev_is_valid_port id d); cbn [negb]; [|exists []; rewrite app_nil_r; by split; [|constructor]].
  set (nm := ("PORT_" +:+ pretty id +:+ "_POOL")%string). pose proof (calls_pool nm kDefaultNumMbufs 256 elt (u32 (dev_socket_id id d)) d) as Cp.
  destruct (pool_create nm _ _ _ _ d) as [[pool|] d1]; cbn [snd] in Cp.
  - destruct (add_port_within rt others id n_rx n_tx pool d1) as (t & Ht & Hr). exists ([c_pool_create] ++ t). rewrite Ht, Cp, app_assoc. split; [done|].
    destruct (add_port _ _ _ _ _ _ d1) as [[e|rt'] d2]; cbn [fst] in *; [by constructor|]. split; [|apply Hr]. intros r. apply Hr.
  - exists [c_pool_create]. split; [done|]. by repeat constructor.
Qed.

Definition eal_owner (o : option runtime) : nat := match o with Some rt => if owns_eal_ rt then 1 else 0 | None => 0 end.
Definition eal_owners (objs : list (option runtime)) : nat := sum_list_with eal_owner objs.

Definition rt_ok (rt : runtime) : Prop :=
  (owns_eal_ rt = false → ports_ rt = []) ∧ Forall (λ p, owns_device_ p = true) (ports_ rt).

(** The EAL as the flag and the live objects have it. *)
Definition eal_now (g : bool) (objs : list (option runtime)) : eal_state := if g then Up (all_devices objs) ∅ else Down.

Record prog_ok (base : list dev_call) (objs : list (option runtime)) (g : bool) (d : D) : Prop := {
  po_trace : ∃ t, calls d = base ++ t ∧ bracket Down t = Some (eal_now g objs);
  po_one : eal_owners objs = if g then 1%nat else 0%nat;
  po_objs : ∀ i rt, objs !! i = Some (Some rt) → rt_ok rt }.

Lemma eal_owners_insert objs i o o' : objs !! i = Some o →
  (eal_owners (<[i := o']> objs) + eal_owner o = eal_owners objs + eal_owner o')%nat.
Proof using. apply (sum_list_with_insert eal_owner). Qed.

Lemma owner_up base objs g (d : D) i rt : prog_ok base objs g d → objs !! i = Some (Some rt) → owns_eal_ rt = true → g = true.
Proof using.
  intros [_ Ho _] Hi Hown. pose proof (eal_owners_insert objs i (Some rt) None Hi) as Hx. cbn in Hx. rewrite Hown in Hx.
  destruct g; [done|lia].
Qed.

Lemma objs_insert (P : runtime → Prop) (objs : list (option runtime)) i o :
  (∀ k rt, objs !! k = Some (Some rt) → P rt) → (∀ rt, o = Some rt → P rt) →
  ∀ k rt, <[i := o]> objs !! k = Some (Some rt) → P rt.
Proof using. intros Ho Hn k rt [(<- & Hx & _)|[_ Hk]]%list_lookup_insert_Some; [by apply Hn|by eapply Ho]. Qed.

(** Without an owner there are no ports. *)
Lemma no_devices objs : eal_owners objs = 0%nat → (∀ i rt, objs !! i = Some (Some rt) → rt_ok rt) → all_devices objs = ∅.
Proof using.
  unfold eal_owners, all_devices. induction objs as [|o objs IH]; intros Ho Hok; [done|]. cbn in Ho. rewrite bind_cons, devices_app, IH;
    [|lia|intros i rt; apply (Hok (S i))].
  destruct o as [rt|]; cbn in *; [|done]. destruct (owns_eal_ rt) eqn:Eo; [lia|]. by rewrite (proj1 (Hok 0%nat rt eq_refl) Eo).
Qed.

Lemma tear_down_trace base objs others (d : D) i rt : prog_ok base objs true d → objs !! i = Some (Some rt) → owns_eal_ rt = true →
  prog_ok base (<[i := None]> objs) false (eal_cleanup (clear_ports (ports_ rt) others d)).
Proof using EalTrace0 EthTrace0 MempoolTrace0.
  intros [(t & Hc & Hb) Ho Hobjs] Hi Hown. destruct (Hobjs i rt Hi) as [_ Hall].
  assert (Ho' : eal_owners (<[i := None]> objs) = 0%nat).
  { pose proof (eal_owners_insert objs i (Some rt) None Hi) as Hn. cbn in Hn. rewrite Hown in Hn. lia. }
  assert (Hobjs' : ∀ k x, <[i := None]> objs !! k = Some (Some x) → rt_ok x) by (apply objs_insert; done).
  split; [|done|done]. exists (t ++ closing_calls (ports_ rt) others ++ [c_eal_cleanup]).
  rewrite calls_cleanup, clear_ports_calls, Hc, <- !app_assoc by done. split; [done|].
  rewrite (bracket_app _ _ _ _ Hb). pose proof (all_devices_insert objs i (Some rt) None Hi) as Hd. cbn [object_ports] in Hd.
  change (devices []) with (∅ : gmultiset Z) in Hd. rewrite (right_id_L ∅ (⊎)) in Hd. cbn [eal_now].
  rewrite <- Hd, (no_devices _ Ho' Hobjs'), (left_id_L ∅ (⊎)), <- (right_id_L ∅ (⊎) (devices _)).
  by rewrite (bracket_app _ _ [c_eal_cleanup] _ (bracket_closing (ports_ rt) others ∅)).
Qed.

Lemma tear_down_spec base objs others g (d : D) i rt : prog_ok base objs g d → objs !! i = Some (Some rt) →
  let '(rt', (g', d')) := tear_down rt others (g, d) in
  ports_ rt' = [] ∧ prog_ok base (<[i := None]> objs) g' d'.
Proof using EalTrace0 EthTrace0 MempoolTrace0.
  intros Hok Hi. pose proof (owner_up base objs g d i rt Hok Hi) as Hup. unfold tear_down.
  destruct (owns_eal_ rt) eqn:Eo; cbn [fst snd ports_].
  - specialize (Hup eq_refl). subst g. split; [done|by apply tear_down_trace].
  - pose proof (eal_owners_insert objs i (Some rt) None Hi) as Hn. pose proof (all_devices_insert objs i (Some rt) None Hi) as Hd.
    destruct Hok as [Ht Ho Hobjs]. destruct (Hobjs i rt Hi) as [Hp _]. cbn [object_ports eal_owner] in Hd, Hn. rewrite (Hp Eo) in Hd.
    rewrite Eo in Hn. change (devices []) with (∅ : gmultiset Z) in Hd. rewrite !(right_id_L ∅ (⊎)) in Hd.
    split; [by apply Hp|]. split; [unfold eal_now; by rewrite Hd|lia|by apply objs_insert].
Qed.

(** Calls that leave the objects alone. *)
Lemma prog_steady base objs (d d' : D) t : prog_ok base objs true d → calls d' = calls d ++ t → Forall steady t → prog_ok base objs true d'.
Proof using.
  intros [(t0 & Hc0 & Hb0) Ho Hobjs] Hc Hs. split; [|done|done]. exists (t0 ++ t). rewrite Hc, Hc0, app_assoc. split; [done|].
  rewrite (bracket_app _ _ _ _ Hb0). by apply bracket_steady.
Qed.

Lemma create_ok base objs g (d : D) params : prog_ok base objs g d →
  let '(rt, (g', d')) := runtime_new params (g, d) in
  prog_ok base (match rt with inr rt => objs ++ [Some rt] | inl _ => objs end) g' d'.
Proof using EalTrace0 EthTrace0.
  intros Hok. unfold runtime_new. destruct g; [done|]. destruct Hok as [(t & Hc & Hb) Ho Hobjs].
  pose proof (calls_init (build_eal_args params) d) as Ci. destruct (eal_init (build_eal_args params) d) as [ret d1]. cbn [fst snd] in Ci.
  destruct (ret <? 0); cbn [negb] in Ci; split; try done.
  - exists (t ++ [c_eal_init false]). rewrite Ci, Hc, app_assoc. split; [done|]. by rewrite (bracket_app _ _ _ _ Hb).
  - exists (t ++ [c_eal_init true]). rewrite Ci, Hc, app_assoc. split; [done|]. rewrite (bracket_app _ _ _ _ Hb).
    cbn [eal_now]. by rewrite all_devices_snoc, (no_devices _ Ho Hobjs).
  - unfold eal_owners in *. rewrite sum_list_with_app, Ho. done.
  - intros i rt [Hi|[_ Hi]]%lookup_app_Some; [by eapply Hobjs|]. apply list_lookup_singleton_Some in Hi as [_ [= <-]].
    split; [done|constructor].
Qed.

Lemma move_ok base objs g (d : D) i rt : prog_ok base objs g d → objs !! i = Some (Some rt) →
  prog_ok base (<[i := Some (Runtime false [])]> objs ++ [Some rt]) g d.
Proof using.
  intros Hok Hi. pose proof (po_objs _ _ _ _ Hok i rt Hi) as Hrt. destruct Hok as [Ht Ho Hobjs].
  set (shell := Runtime false []). split.
  - pose proof (all_devices_insert objs i (Some rt) (Some shell) Hi) as Hd.
    change (devices (object_ports (Some shell))) with (∅ : gmultiset Z) in Hd. rewrite (right_id_L ∅ (⊎)) in Hd.
    unfold eal_now. rewrite all_devices_snoc, Hd. exact Ht.
  - pose proof (eal_owners_insert objs i (Some rt) (Some shell) Hi) as Hx. cbn [eal_owner owns_eal_ shell] in Hx.
    unfold eal_owners in *. rewrite sum_list_with_app. cbn. rewrite <- Ho. cbn [eal_owner] in Hx. lia.
  - intros k x [Hk|[_ Hk]]%lookup_app_Some.
    + revert Hk. apply (objs_insert rt_ok objs); [done|]. intros ? [= <-]. split; [done|constructor].
    + by apply list_lookup_singleton_Some in Hk as [_ [= <-]].
Qed.

(** Moving the contents of object [j] into a dead object [i]. *)
Lemma refill_ok base objs g (d : D) i j b : prog_ok base objs g d → objs !! i = Some None → objs !! j = Some (Some b) →
  prog_ok base (<[j := Some (Runtime false [])]> (<[i := Some b]> objs)) g d.
Proof using.
  intros [Ht Ho Hobjs] Hi Hj. pose proof (Hobjs j b Hj) as Hb. set (shell := Runtime false []).
  assert (Hj' : <[i := Some b]> objs !! j = Some (Some b)) by (rewrite list_lookup_insert_ne; [done|congruence]). split.
  - pose proof (all_devices_insert objs i None (Some b) Hi) as D1. pose proof (all_devices_insert _ j (Some b) (Some shell) Hj') as D2.
    change (devices (object_ports None)) with (∅ : gmultiset Z) in D1. change (devices (object_ports (Some shell))) with (∅ : gmultiset Z) in D2.
    rewrite (right_id_L ∅ (⊎)) in D1, D2. rewrite D1 in D2. apply (inj (.⊎ devices (object_ports (Some b)))) in D2. unfold eal_now. by rewrite D2.
  - pose proof (eal_owners_insert objs i None (Some b) Hi) as O1. pose proof (eal_owners_insert _ j (Some b) (Some shell) Hj') as O2.
    cbn [eal_owner owns_eal_ shell] in O1, O2. rewrite <- Ho. lia.
  - apply objs_insert; [apply objs_insert; [done|]|]; intros ? [= <-]; [done|]. split; [done|constructor].
Qed.
Lemma assign_ok base objs others g (d : D) i j a b : prog_ok base objs g d → objs !! i = Some (Some a) → objs !! j = Some (Some b) → i ≠ j →
  let '(a', b', (g', d')) := runtime_assign a b others (g, d) in
  prog_ok base (<[j := Some b']> (<[i := Some a']> objs)) g' d'.
Proof using EalTrace0 EthTrace0 MempoolTrace0.
  intros Hok Hi Hj Hne. unfold runtime_assign. pose proof (tear_down_spec base objs (pools (ports_ b) ++ others) g d i a Hok Hi) as Htd.
  destruct (tear_down a _ (g, d)) as [a' [g' d']]. destruct Htd as (-> & Hok'). cbn [clear_ports].
  replace (<[i := Some (Runtime (owns_eal_ b) (ports_ b))]> objs) with (<[i := Some b]> (<[i := @None runtime]> objs))
    by (rewrite list_insert_insert_eq; by destruct b).
  apply refill_ok; [done| |by rewrite list_lookup_insert_ne]. apply list_lookup_insert_eq. by eapply lookup_lt_Some.
Qed.

Lemma act_add_ok base i objs hs g (d : D) add id s' : (∀ rt others, added rt id d (add rt others)) → prog_ok base objs g d →
  act_add i objs hs g add = Some s' → prog_ok base s'.1.1 s'.2.1 s'.2.2.
Proof using.
  intros Hadd Hok. unfold act_add. destruct (objs !! i) as [[rt|]|] eqn:Ei; try done. destruct (owns_eal_ rt) eqn:Eo; [|done].
  pose proof (owner_up _ _ _ _ _ _ Hok Ei Eo) as ->. set (others := _ ++ hs). destruct (Hadd rt others) as (t & Ht & Hr).
  destruct (add rt others) as [[e|rt'] d']; cbn [fst snd] in *; intros [= <-]; cbn [fst snd].
  - rewrite list_insert_id by done. by eapply prog_steady.
  - destruct Hr as (Hb & p & -> & Hp & <-). destruct Hok as [(t0 & Hc0 & Hb0) Ho Hobjs]. destruct (Hobjs i rt Ei) as [_ Hall].
    set (rt' := Runtime (owns_eal_ rt) (ports_ rt ++ [p])). split.
    + exists (t0 ++ t). rewrite Ht, Hc0, app_assoc. split; [done|]. rewrite (bracket_app _ _ _ _ Hb0). cbn [eal_now]. rewrite Hb.
      pose proof (all_devices_insert objs i (Some rt) (Some rt') Ei) as Hd. cbn [object_ports ports_ rt'] in Hd.
      rewrite devices_app, (comm_L (⊎) (devices (ports_ rt)) (devices [p])), (assoc_L (⊎)) in Hd.
      apply (inj (.⊎ devices (ports_ rt))) in Hd. rewrite Hd, (comm_L (⊎)), devices_cons. change (devices []) with (∅ : gmultiset Z).
      by rewrite (right_id_L ∅ (⊎)).
    + pose proof (eal_owners_insert objs i (Some rt) (Some rt') Ei) as Hx. cbn in Hx. rewrite Eo in Hx. lia.
    + apply objs_insert; [done|]. intros ? [= <-]. split; cbn; [congruence|]. apply Forall_app_2; [done|by apply Forall_singleton].
Qed.

Lemma act_ok base a objs hs g (d : D) s' : prog_ok base objs g d → act a (objs, hs, (g, d)) = Some s' →
  prog_ok base s'.1.1 s'.2.1 s'.2.2.
Proof using EalTrace0 EthTrace0 MempoolTrace0.
  intros Hok. destruct a as [params|i|i j|i|i nm n elt sk cache|i k|h|h|i id nrx ntx h|i id nrx ntx elt]; cbn [act].
  - pose proof (create_ok base objs g d params Hok) as Hc. destruct (runtime_new params (g, d)) as [rt [g' d']]. by intros [= <-].
  - destruct (objs !! i) as [[rt|]|] eqn:Ei; try done. intros [= <-]. by apply move_ok.
  - destruct (objs !! i) as [[x|]|] eqn:Ei; try done. destruct (objs !! j) as [[y|]|] eqn:Ej; try done.
    destruct (decide (i = j)) as [|Hne]; [by intros [= <-]|].
    set (others := _ ++ hs). pose proof (assign_ok base objs others g d i j x y Hok Ei Ej Hne) as Ha.
    destruct (runtime_assign x y others (g, d)) as [[x' y'] [g' d']]. by intros [= <-].
  - destruct (objs !! i) as [[rt|]|] eqn:Ei; try done. set (others := _ ++ hs). pose proof (tear_down_spec base objs others g d i rt Hok Ei) as Ht.
    unfold runtime_dtor. destruct (tear_down rt others (g, d)) as [rt' [g' d']]. destruct Ht as (-> & Hp). by intros [= <-].
  - destruct (objs !! i) as [[rt|]|] eqn:Ei; try done. destruct (owns_eal_ rt) eqn:Eo; [|done].
    pose proof (owner_up _ _ _ _ _ _ Hok Ei Eo) as ->. unfold create_pool, pool_new. pose proof (calls_pool nm n cache elt sk d) as Cp.
    destruct (pool_create nm _ _ _ _ d) as [p d']. intros [= <-]. eapply prog_steady; [done|exact Cp|by repeat constructor].
  - destruct (objs !! i) as [[rt|]|] eqn:Ei; try done. destruct (ports_ rt !! k); [|done]. by intros [= <-].
  - destruct (hs !! h) as [p|]; [|done]. by intros [= <-].
  - destruct (hs !! h) as [p|]; [|done]. set (others := _ ++ <[h := None]> hs). destruct (g || _) eqn:Eg; [|done]. intros [= <-].
    cbn [fst snd]. destruct g; [eapply prog_steady; [done|apply drop_calls|apply last_drop_steady]|].
    assert (drop_pool p others d = d) as ->; [|done]. cbn in Eg. apply bool_decide_eq_true in Eg. unfold drop_pool.
    destruct Eg as [->|Eg]; [done|]. destruct p; [|done]. by rewrite decide_True.
  - destruct (hs !! h) as [[pool|]|]; try done. apply (act_add_ok _ _ _ _ _ d _ id); [|done]. intros rt others. apply add_port_within.
  - apply (act_add_ok _ _ _ _ _ d _ id); [|done]. intros rt others. apply add_port_default_within.
Qed.

Lemma acts_ok base l objs hs g (d : D) s' : prog_ok base objs g d → acts l (objs, hs, (g, d)) = Some s' → prog_ok base s'.1.1 s'.2.1 s'.2.2.
Proof using EalTrace0 EthTrace0 MempoolTrace0.
  revert objs hs g d. induction l as [|a l IH]; intros objs hs g d Hok; cbn [acts]; [by intros [= <-]|].
  destruct (act a (objs, hs, (g, d))) as [[[o1 hs1] [g1 d1]]|] eqn:Ea; [|done]. apply IH. exact (act_ok base a objs hs g d _ Hok Ea).
Qed.

(** C33. One EAL at a time, and its devices shut before it goes: however a
    program creates, moves, assigns and destroys runtime objects, makes, copies
    and drops pools and adds ports to the object that owns the EAL, whatever
    fails on the way, [g_runtime_exists] is set exactly while one live object
    owns the EAL and then no second runtime can be made; the EAL is only
    initialized while it is down, every other DPDK call, frees of pools
    included, falls between an initialization and its clean-up, every device
    that was started and is not a live object's was stopped and then closed
    once, and no clean-up comes before all of them are.  When the owner is
    destroyed the calls are exactly these: port by port, in order, the device
    is stopped and closed and the pool freed if that was the last pointer to
    it, and the clean-up is the last call. *)
Theorem runtime_brackets_eal l (d : D) objs hs g d' :
  acts l ([], [], (false, d)) = Some (objs, hs, (g, d')) →
  (∃ t, calls d' = calls d ++ t ∧ bracket Down t = Some (eal_now g objs)) ∧
  eal_owners objs = (if g then 1%nat else 0%nat) ∧
  (g = true → ∀ params, runtime_new params (g, d') = (inl second_runtime, (g, d'))) ∧
  ∀ i rt, objs !! i = Some (Some rt) → owns_eal_ rt = true →
    let others := object_pools (<[i := None]> objs) ++ hs in
    (runtime_dtor rt others (g, d')).1 = false ∧
    calls (runtime_dtor rt others (g, d')).2 = calls d' ++ closing_calls (ports_ rt) others ++ [c_eal_cleanup].
Proof using EalTrace0 EthTrace0 MempoolTrace0.
  intros Hl. assert (H0' : prog_ok (calls d) [] false d) by (split; [exists []; by rewrite app_nil_r|done|done]).
  pose proof (acts_ok _ _ _ _ _ _ _ H0' Hl) as [Ht Ho Hobjs]. cbn in Ht, Ho, Hobjs. split_and!; [done|done|by intros ->|].
  intros i rt Hi Hown others. destruct (Hobjs i rt Hi) as [_ Hall]. unfold runtime_dtor, tear_down. rewrite Hown. cbn. split; [done|].
  by rewrite calls_cleanup, clear_ports_calls, <- app_assoc.
Qed.
End runtime_proofs.

(** On the recording device of Port.v. *)
Module traced_eal.
#[local] Existing Instances traced.ops traced.trace.
Definition ops : EalOps traced.dev := {|
  eal_init _ d := let bad := bool_decide (c_eal_init false ∈ traced.failing d) in
    (if bad then -1 else 0, traced.Dev (traced.log d ++ [c_eal_init (negb bad)]) (traced.failing d));
  eal_cleanup d := (traced.note c_eal_cleanup d).2;
  pool_create _ _ _ _ _ d := let '(r, d) := traced.note c_pool_create d in (if r =? 0 then Some 7 else None, d) |}.
Definition pool : MempoolOps traced.dev := {| mempool_free p d := (traced.note (c_pool_free p) d).2 |}.
#[local] Existing Instances ops pool.
Definition trace : EalTrace traced.dev.
Proof. split; intros; cbn; repeat case_match; simplify_eq; done. Defined.
Definition pool_trace : MempoolTrace traced.dev.
Proof. by split. Defined.
End traced_eal.

Section runtime_run.
#[local] Existing Instances traced.ops traced.trace traced_eal.ops traced_eal.trace traced_eal.pool traced_eal.pool_trace.

(** A runtime with two ports on one pool, moved, its shell destroyed, a second
    one refused, then the owner destroyed: the pool goes with the last port. *)
Lemma runtime_brackets_eal_witness :
  let params := Params "app" None None None None None None None None None None None None None None [] [] [] [] in
  let l := [Create params; AddPortDefault 0 3 0 0 2048; GetPool 0 0; AddPort 0 4 0 0 0; MoveTo 0; Create params; Destroyed 0; Destroyed 1] in
  ∃ objs hs d', acts l ([], [], (false, traced.Dev [] [])) = Some (objs, hs, (false, d')) ∧
    bracket Down (calls d') = Some Down ∧
    calls d' = [c_eal_init true; c_pool_create] ++ bring_up 3 0 0 ++ bring_up 4 0 0 ++
      [c_stop 3; c_close 3; c_stop 4; c_close 4; c_pool_free 7; c_eal_cleanup].
Proof.
  intros params l. destruct (acts l ([], [], (false, traced.Dev [] []))) as [[[objs hs] [g d']]|] eqn:El; [|discriminate El].
  destruct (runtime_brackets_eal l (traced.Dev [] []) objs hs g d' El) as ((t & Hc & Hb) & _).
  vm_compute in El. injection El as <- <- <- <-. do 3 eexists. split; [reflexivity|]. cbn in Hc. subst t. split; [exact Hb|reflexivity].
Defined.
End runtime_run.
