(* ===== verification/Pool.v ===== *)
(** * Who owns a memory pool (src/packet_pool.cpp, runtime.cpp, port.cpp)

    The shared ownership of pools around one live runtime: a pool belongs to the
    shared pointers that refer to it, those of the application and those inside
    the ports, and is freed by the last of them.  The operations are those of
    Runtime.v. *)

From stdpp Require Import strings pretty.
From S2P Require Import Prelude Dpdk Packet Port Runtime.

Section shared.
Context {D : Type} `{EthDev D} `{EalOps D} `{MempoolOps D}.

(** The ports of the runtime and the application's pointers. *)
Record owners := Owners { o_ports : list port; o_handles : list (option Z) }.
Definition all_owners (o : owners) : list (option Z) := pools (o_ports o) ++ o_handles o.

Inductive pool_op :=
  | Create_pool (name : string) (n_mbufs elt_size socket_id cache_size : Z)   (* runtime::create_pool *)
  | Get_pool (i : nat)                                                        (* port i's get_pool() *)
  | Copy_handle (i : nat)
  | Drop_handle (i : nat)
  | Add_port (i : nat) (id n_rx n_tx : Z)                                     (* with a copy of pointer i *)
  | Add_default (id n_rx n_tx elt_size : Z).

Definition add_with (o : owners) (id n_rx n_tx pool : Z) (d : D) : owners * D :=
  let '(rt, d) := add_port (Runtime true (o_ports o)) (o_handles o) id n_rx n_tx pool d in
  (match rt with inr rt => Owners (ports_ rt) (o_handles o) | inl _ => o end, d).

Definition pool_step (op : pool_op) (s : owners * D) : owners * D :=
  let '(o, d) := s in
  match op with
  | Create_pool name n elt socket cache =>
    let '(p, d) := create_pool name n elt socket cache d in
    match p with inl _ => (o, d) | inr p => (Owners (o_ports o) (o_handles o ++ [Some p]), d) end
  | Get_pool i =>
    match o_ports o !! i with Some p => (Owners (o_ports o) (o_handles o ++ [port_pool_ p]), d) | None => s end
  | Copy_handle i =>
    match o_handles o !! i with Some h => (Owners (o_ports o) (o_handles o ++ [h]), d) | None => s end
  | Drop_handle i =>
    match o_handles o !! i with
    | Some h => let o := Owners (o_ports o) (<[i := None]> (o_handles o)) in (o, drop_pool h (all_owners o) d)
    | None => s
    end
  | Add_port i id n_rx n_tx =>
    match o_handles o !! i with Some (Some pool) => add_with o id n_rx n_tx pool d | _ => s end
  | Add_default id n_rx n_tx elt =>
    let '(p, d) := make_default_pool id elt d in
    match p with inl _ => (o, d) | inr pool => add_with o id n_rx n_tx pool d end
  end.

(** The pool an operation makes. *)
Definition made_by (op : pool_op) (s : owners * D) : option Z :=
  match op with
  | Create_pool name n elt socket cache => match (create_pool name n elt socket cache s.2).1 with inr p => Some p | inl _ => None end
  | Add_default id _ _ elt => match (make_default_pool id elt s.2).1 with inr p => Some p | inl _ => None end
  | _ => None
  end.

(** A program: the operations, with the pools they make. *)
Fixpoint pool_run (ops : list pool_op) (s : owners * D) (made : list Z) : owners * D * list Z :=
  match ops with
  | [] => (s, made)
  | op :: ops => pool_run ops (pool_step op s) (made ++ option_list (made_by op s))
  end.
(** rte_pktmbuf_pool_create returns memory that is not in use. *)
Fixpoint fresh_run (ops : list pool_op) (s : owners * D) : Prop :=
  match ops with
  | [] => True
  | op :: ops => (∀ x, made_by op s = Some x → Some x ∉ all_owners s.1) ∧ fresh_run ops (pool_step op s)
  end.

(** The runtime goes. *)
Definition end_runtime (o : owners) (d : D) : D := (runtime_dtor (Runtime true (o_ports o)) (o_handles o) (true, d)).2.

Lemma add_with_eq o id n_rx n_tx pool (d : D) : add_with o id n_rx n_tx pool d =
  let '(p, d) := port_new id n_rx n_tx pool d in
  match p with
  | inl _ => (o, drop_pool (Some pool) (all_owners o) d)
  | inr p => (Owners (o_ports o ++ [p]) (o_handles o), d)
  end.
Proof using. unfold add_with, add_port. by destruct (port_new id n_rx n_tx pool d) as [[e|p] d']. Qed.
Lemma end_runtime_eq o (d : D) : end_runtime o d = eal_cleanup (clear_ports (o_ports o) (o_handles o) d).
Proof using. done. Qed.
End shared.

(** ** Every pool is freed once *)

Section shared_proofs.
Context {D : Type} `{EthDev D} `{!EthTrace D} `{EalOps D} `{!EalTrace D} `{MempoolOps D} `{!MempoolTrace D}.

(** How often the calls [t] free [x]. *)
Definition frees (x : Z) (t : list dev_call) : nat := length (filter (λ c, c = c_pool_free x) t).
Definition owned_by (x : Z) (l : list (option Z)) : nat := if decide (Some x ∈ l) then 1 else 0.

Lemma frees_app x t t' : frees x (t ++ t') = (frees x t + frees x t')%nat.
Proof using. unfold frees. by rewrite filter_app, length_app. Qed.

Lemma owned_ext x l l' : (Some x ∈ l ↔ Some x ∈ l') → owned_by x l = owned_by x l'.
Proof using. intros He. unfold owned_by. by destruct (decide (Some x ∈ l)), (decide (Some x ∈ l')); tauto. Qed.

(** Dropping a pointer: freed if it was the last, and then it is owned no more. *)
Lemma drop_frees p others (d : D) : ∃ t, calls (drop_pool p others d) = calls d ++ t ∧
  ∀ x, (frees x t + owned_by x others)%nat = owned_by x (p :: others).
Proof using MempoolTrace0.
  unfold drop_pool, pool_dtor. destruct p as [y|].
  2: { exists []. rewrite app_nil_r. split; [done|]. intros x. cbn. apply owned_ext. rewrite elem_of_cons. naive_solver. }
  destruct (decide (Some y ∈ others)) as [Hin|Hout].
  - exists []. rewrite app_nil_r. split; [done|]. intros x. cbn. apply owned_ext. rewrite elem_of_cons. naive_solver.
  - exists [c_pool_free y]. split; [apply calls_free|]. intros x. unfold owned_by, frees.
    destruct (decide (x = y)) as [->|Hne].
    + rewrite filter_cons_True by done. rewrite decide_False by done. rewrite decide_True by (by left). done.
    + rewrite filter_cons_False by congruence. cbn. destruct (decide (Some x ∈ others)) as [Hx|Hx].
      * rewrite decide_True by (by right). done.
      * rewrite decide_False; [done|]. rewrite elem_of_cons. intros [[= ?]|?]; done.
Qed.

Lemma port_new_pool id n_rx n_tx pool (d : D) p d' : port_new id n_rx n_tx pool d = (inr p, d') → port_pool_ p = Some pool.
Proof using.
  unfold port_new. destruct (negb _); [done|]. destruct (dev_configure _ _ _ _) as [? ?]. destruct (negb _); [done|].
  destruct (dev_adjust_nb_rx_tx_desc _ _ _ _) as [[[? ?]|] ?]; [|done]. destruct (dev_info_get _ _) as [? ?]. destruct (negb _); [done|].
  destruct (setup_rx _ _ _ _ _ _ _) as [[?|?] ?]; [done|]. destruct (setup_tx _ _ _ _ _ _) as [[?|?] ?]; [done|].
  destruct (dev_start _ _) as [? ?]. destruct (_ <? _); [done|]. by intros [= <- _].
Qed.

(** Calls that are no frees, and what [port_new] and [port_dtor] do. *)
Lemma port_new_no_free id n_rx n_tx pool (d : D) : ∃ t, calls (port_new id n_rx n_tx pool d).2 = calls d ++ t ∧ ∀ x, frees x t = 0%nat.
Proof using All.
  assert (Hz : ∀ t, t ⊆ bring_up id n_rx n_tx → ∀ x, frees x t = 0%nat).
  { intros t Ht x. unfold frees. apply length_zero_iff_nil, elem_of_nil_inv. intros c Hc.
    apply list_elem_of_filter in Hc as [-> Hc]. apply Ht in Hc. unfold bring_up in Hc.
    rewrite !elem_of_app, !elem_of_cons, !list_elem_of_fmap, elem_of_nil in Hc. naive_solver. }
  pose proof (port_new_ran id n_rx n_tx pool d) as Hr. cbv zeta in Hr. destruct (dev_is_valid_port id d).
  2: { rewrite Hr. exists []. by rewrite app_nil_r. }
  unfold ran in Hr. destruct (port_new id n_rx n_tx pool d) as [[e|p] d']; cbn in *.
  - destruct Hr as (pre & c & post & Hpp & Hc & _). exists (pre ++ [failed c]). split; [done|]. intros x. rewrite frees_app, (Hz pre) by (rewrite Hpp; set_solver).
    assert (frees x [failed c] = frees x [c]) as -> by (by destruct c). apply Hz. rewrite Hpp. set_solver.
  - destruct Hr as (Hc & _). exists (bring_up id n_rx n_tx). split; [done|]. by apply Hz.
Qed.

Definition makes (x : Z) (p : option Z) : nat := if decide (p = Some x) then 1 else 0.
Lemma makes_none x : makes x None = 0%nat.
Proof using. unfold makes. by rewrite decide_False. Qed.

Lemma owned_app_l x l l' : Some x ∈ l → owned_by x (l ++ l') = 1%nat.
Proof using. intros Hx. unfold owned_by. rewrite decide_True; [done|]. rewrite elem_of_app. auto. Qed.

(** Adding an owner of a pool that has one, or of a new pool. *)
Lemma owned_snoc x l p : owned_by x (l ++ [p]) = if decide (p = Some x) then 1%nat else owned_by x l.
Proof using.
  destruct (decide (p = Some x)) as [->|Hne]; [unfold owned_by; rewrite decide_True; [done|]; rewrite elem_of_app, list_elem_of_singleton; auto|].
  apply owned_ext. rewrite elem_of_app, list_elem_of_singleton. naive_solver.
Qed.
Lemma owned_ports_snoc x o p hs : owned_by x (all_owners (Owners (o_ports o ++ [p]) hs)) = owned_by x ((pools (o_ports o) ++ hs) ++ [port_pool_ p]).
Proof using. unfold all_owners, pools. cbn. apply owned_ext. rewrite fmap_app, !elem_of_app. cbn. tauto. Qed.

Lemma add_with_frees o id n_rx n_tx pool (d : D) : ∃ t, calls (add_with o id n_rx n_tx pool d).2 = calls d ++ t ∧
  ∀ x, (frees x t + owned_by x (all_owners (add_with o id n_rx n_tx pool d).1))%nat = owned_by x (Some pool :: all_owners o).
Proof using All.
  rewrite add_with_eq. pose proof (port_new_pool id n_rx n_tx pool d) as Hpool. destruct (port_new_no_free id n_rx n_tx pool d) as (t & Ht & Hz).
  destruct (port_new id n_rx n_tx pool d) as [[e|p] d1]; cbn [fst snd] in *.
  - destruct (drop_frees (Some pool) (all_owners o) d1) as (t' & Ht' & Hf). exists (t ++ t'). rewrite Ht', Ht, app_assoc. split; [done|].
    intros x. by rewrite frees_app, Hz, <- Hf.
  - exists t. split; [done|]. intros x. rewrite Hz, owned_ports_snoc, (Hpool p d1 eq_refl). cbn [Nat.add].
    apply owned_ext. unfold all_owners. rewrite elem_of_cons, elem_of_app, list_elem_of_singleton. tauto.
Qed.

Lemma make_default_pool_frees id elt (d : D) : ∃ t, calls (make_default_pool id elt d).2 = calls d ++ t ∧ ∀ x, frees x t = 0%nat.
Proof using EalTrace0.
  unfold make_default_pool, create_pool, pool_new. destruct (negb _); [exists []; by rewrite app_nil_r|]. set (nm := String.append _ _).
  pose proof (calls_pool nm kDefaultNumMbufs 256 elt (u32 (dev_socket_id id d)) d) as Cp. destruct (pool_create _ _ _ _ _ d) as [p d1]. by exists [c_pool_create].
Qed.

(** Taking one pointer out, and putting it in front. *)
Lemma owned_drop x o i h : o_handles o !! i = Some h →
  owned_by x (h :: all_owners (Owners (o_ports o) (<[i := None]> (o_handles o)))) = owned_by x (all_owners o).
Proof using.
  intros Ei. apply owned_ext. unfold all_owners. cbn. rewrite elem_of_cons, !elem_of_app. split.
  - intros [->|[?|Hx]]; [right; by eapply list_elem_of_lookup_2|auto|]. apply list_elem_of_lookup in Hx as [j Hj].
    apply list_lookup_insert_Some in Hj as [(_ & ? & _)|[_ Hj]]; [done|]. right. by eapply list_elem_of_lookup_2.
  - intros [?|Hx]; [auto|]. apply list_elem_of_lookup in Hx as [j Hj]. destruct (decide (i = j)) as [->|Hne]; [left; congruence|].
    right. right. apply (list_elem_of_lookup_2 _ j). by rewrite list_lookup_insert_ne.
Qed.

Lemma pool_step_frees op (s : owners * D) : (∀ x, made_by op s = Some x → Some x ∉ all_owners s.1) →
  ∃ t, calls (pool_step op s).2 = calls s.2 ++ t ∧
    ∀ x, (frees x t + owned_by x (all_owners (pool_step op s).1) = owned_by x (all_owners s.1) + makes x (made_by op s))%nat.
Proof using All.
  destruct s as [o d]. intros Hfresh.
  assert (Hsame : ∀ o', all_owners o' = all_owners o → ∃ t, calls d = calls d ++ t ∧
    ∀ x, (frees x t + owned_by x (all_owners o') = owned_by x (all_owners o) + makes x None)%nat).
  { intros o' He. exists []. rewrite app_nil_r. split; [done|]. intros x. rewrite He, makes_none, Nat.add_0_r. done. }
  assert (Hnew : ∀ hs p t x, o_handles o ++ [p] = hs → frees x t = 0%nat →
    (frees x t + owned_by x (all_owners (Owners (o_ports o) hs)) = if decide (p = Some x) then 1 else owned_by x (all_owners o))%nat).
  { intros hs p t x <- ->. unfold all_owners at 1. cbn [o_ports o_handles Nat.add]. rewrite app_assoc. apply owned_snoc. }
  assert (Hcopy : ∀ p, (∀ x, p = Some x → Some x ∈ all_owners o) → ∃ t, calls d = calls d ++ t ∧
    ∀ x, (frees x t + owned_by x (all_owners (Owners (o_ports o) (o_handles o ++ [p]))) = owned_by x (all_owners o) + makes x None)%nat).
  { intros p Hp. exists []. rewrite app_nil_r. split; [done|]. intros x. rewrite (Hnew _ p []), makes_none, Nat.add_0_r by done.
    destruct (decide (p = Some x)) as [->|]; [|done]. unfold owned_by. rewrite decide_True by (by apply Hp). done. }
  destruct op as [name a b c e|i|i|i|i id nrx ntx|id nrx ntx elt]; cbn [pool_step made_by snd fst] in *.
  - unfold create_pool, pool_new in *. pose proof (calls_pool name a e b c d) as Cp. destruct (pool_create name a e b c d) as [[p|] d1]; cbn [fst snd] in *; exists [c_pool_create].
    + split; [done|]. intros x. rewrite (Hnew _ (Some p)) by done. unfold makes. destruct (decide (Some p = Some x)) as [E|]; [|lia].
      unfold owned_by. rewrite decide_False by (by apply Hfresh). done.
    + split; [done|]. intros x. by rewrite makes_none, Nat.add_0_r.
  - destruct (o_ports o !! i) as [p|] eqn:Ei; [|by apply Hsame]. apply Hcopy. intros x Hx. unfold all_owners. rewrite elem_of_app. left.
    rewrite <- Hx. apply list_elem_of_fmap_2. by eapply list_elem_of_lookup_2.
  - destruct (o_handles o !! i) as [h|] eqn:Ei; [|by apply Hsame]. apply Hcopy. intros x ->. unfold all_owners. rewrite elem_of_app. right. by eapply list_elem_of_lookup_2.
  - destruct (o_handles o !! i) as [h|] eqn:Ei; [|by apply Hsame]. set (o' := Owners _ _). destruct (drop_frees h (all_owners o') d) as (t & Ht & Hf).
    exists t. split; [done|]. intros x. cbn [fst]. rewrite Hf, makes_none, Nat.add_0_r. by apply owned_drop.
  - destruct (o_handles o !! i) as [[pool|]|] eqn:Ei; try (by apply Hsame). destruct (add_with_frees o id nrx ntx pool d) as (t & Ht & Hf).
    exists t. split; [done|]. intros x. rewrite Hf, makes_none, Nat.add_0_r. apply owned_ext. rewrite elem_of_cons.
    split; [|auto]. intros [->|?]; [|done]. unfold all_owners. rewrite elem_of_app. right. by eapply list_elem_of_lookup_2.
  - destruct (make_default_pool_frees id elt d) as (t & Ht & Hz). destruct (make_default_pool id elt d) as [[e|pool] d1]; cbn [fst snd] in *.
    + exists t. split; [done|]. intros x. by rewrite Hz, makes_none, Nat.add_0_r.
    + destruct (add_with_frees o id nrx ntx pool d1) as (t' & Ht' & Hf). exists (t ++ t'). rewrite Ht', Ht, app_assoc. split; [done|].
      intros x. rewrite frees_app, Hz, <- Nat.add_assoc, Hf. unfold makes, owned_by. specialize (Hfresh pool eq_refl).
      destruct (decide (Some pool = Some x)) as [[= ->]|Hne].
      * rewrite decide_True by (by left). rewrite decide_False by done. done.
      * cbn. rewrite Nat.add_0_r. apply (owned_ext x (Some pool :: all_owners o)). rewrite elem_of_cons. naive_solver.
Qed.

Lemma port_dtor_frees p (d : D) : ∃ t, calls (port_dtor p d) = calls d ++ t ∧ ∀ x, frees x t = 0%nat.
Proof using EthTrace0.
  unfold port_dtor. destruct (owns_device_ p); [|exists []; by rewrite app_nil_r]. exists (shut (port_id_ p)). by rewrite calls_close, calls_stop, <- app_assoc.
Qed.

Lemma clear_ports_frees ports handles (d : D) : ∃ t, calls (clear_ports ports handles d) = calls d ++ t ∧
  ∀ x, (frees x t + owned_by x handles = owned_by x (pools ports ++ handles))%nat.
Proof using All.
  revert d. induction ports as [|p ports IH]; intros d; cbn [clear_ports]; [exists []; by rewrite app_nil_r|]. unfold port_end.
  destruct (port_dtor_frees p d) as (t1 & H1' & Z1). destruct (drop_frees (port_pool_ p) (pools ports ++ handles) (port_dtor p d)) as (t2 & H2' & F2).
  destruct (IH (drop_pool (port_pool_ p) (pools ports ++ handles) (port_dtor p d))) as (t3 & H3' & F3).
  exists (t1 ++ t2 ++ t3). rewrite H3', H2', H1', <- !app_assoc. split; [done|]. intros x. rewrite !frees_app, Z1. cbn [Nat.add].
  rewrite <- Nat.add_assoc, F3, F2. done.
Qed.

Lemma pool_run_frees ops (s : owners * D) made : fresh_run ops s →
  let '(s', made') := pool_run ops s made in
  ∃ t new, calls s'.2 = calls s.2 ++ t ∧ made' = made ++ new ∧
    ∀ x, (frees x t + owned_by x (all_owners s'.1) = owned_by x (all_owners s.1) + times x new)%nat.
Proof using All.
  revert s made. induction ops as [|op ops IH]; intros s made Hf; cbn [pool_run].
  { exists [], []. rewrite !app_nil_r. split_and!; [done|done|]. intros x. cbn. lia. }
  destruct Hf as [Hf Hrest]. destruct (pool_step_frees op s Hf) as (t & Ht & Hstep).
  specialize (IH (pool_step op s) (made ++ option_list (made_by op s)) Hrest).
  destruct (pool_run ops (pool_step op s) _) as [s' made']. destruct IH as (t' & new & Ht' & -> & Hx).
  exists (t ++ t'), (option_list (made_by op s) ++ new). rewrite Ht', Ht, !app_assoc. split_and!; [done|done|]. intros x.
  rewrite frees_app, times_app. specialize (Hstep x). specialize (Hx x).
  assert (Hm : makes x (made_by op s) = times x (option_list (made_by op s))).
  { unfold makes, times. destruct (made_by op s) as [y|]; [|by rewrite decide_False]. change (option_list (Some y)) with [y]. destruct (decide (y = x)) as [->|Hne].
    - by rewrite decide_True, filter_cons_True.
    - rewrite decide_False by congruence. by rewrite filter_cons_False. }
  lia.
Qed.

(** C34. Every memory pool is freed exactly once, by its last owner and
    before the EAL goes: whatever pools a program creates, hands to ports,
    fetches back, copies and drops, and whichever call fails (a port whose
    constructor throws included), when the runtime is destroyed every pool that
    was made has been freed as often as it was made, except those the program
    still points to, which have not been freed; and the clean-up of the EAL is
    the last call. *)
Theorem pools_freed_once ops (d : D) : fresh_run ops (Owners [] [], d) →
  let '((o, d'), made) := pool_run ops (Owners [] [], d) [] in
  ∃ t, calls (end_runtime o d') = calls d ++ t ++ [c_eal_cleanup] ∧
    ∀ x, (frees x t + owned_by x (o_handles o) = times x made)%nat.
Proof using All.
  intros Hf. pose proof (pool_run_frees ops (Owners [] [], d) [] Hf) as Hr. destruct (pool_run ops _ []) as [[o d'] made].
  destruct Hr as (t & new & Ht & -> & Hx). cbn [fst snd app] in *. destruct (clear_ports_frees (o_ports o) (o_handles o) d') as (t' & Ht' & Hy).
  exists (t ++ t'). rewrite end_runtime_eq, calls_cleanup, Ht', Ht, <- !app_assoc. split; [done|]. intros x. specialize (Hx x). specialize (Hy x).
  rewrite frees_app. unfold all_owners in Hx. cbn in Hx. change (owned_by x []) with (if decide (Some x ∈ []) then 1 else 0)%nat in Hx.
  rewrite decide_False in Hx by apply not_elem_of_nil. lia.
Qed.
End shared_proofs.

(** ** Two ports sharing a pool, and a pool of the application's own *)

Module traced_pool.
#[local] Existing Instances traced.ops traced.trace traced_eal.ops.
(** Each pool gets the number of calls so far. *)
Definition eal : EalOps traced.dev := {|
  eal_init := @eal_init _ traced_eal.ops; eal_cleanup := @eal_cleanup _ traced_eal.ops;
  pool_create _ _ _ _ _ d := (Some (Z.of_nat (length (traced.log d))), (traced.note c_pool_create d).2) |}.
Definition eal_trace : @EalTrace traced.dev traced.ops traced.trace eal.
Proof. split; intros; cbn; repeat case_match; simplify_eq; done. Defined.
End traced_pool.

Section pool_demo.
#[local] Existing Instances traced.ops traced.trace traced_pool.eal traced_pool.eal_trace traced_eal.pool traced_eal.pool_trace.
#[local] Open Scope string_scope.
#[local] Open Scope list_scope.

Abbreviation demo_ops := [Add_default 0 2 2 2048; Get_pool 0; Add_port 0 1 2 2; Create_pool "SMALL" 8192 2048 0 256; Drop_handle 0; Drop_handle 1]%list.

(** The shared pool, 0, outlives the first port and the pointer to it. *)
Lemma pools_freed_once_witness :
  let '((o, d'), made) := pool_run demo_ops (Owners [] [], traced.Dev [] []) [] in
  made = [0; 17] ∧ ∃ t, calls (end_runtime o d') = t ++ [c_eal_cleanup] ∧ ∀ x, (frees x t + owned_by x (o_handles o) = times x made)%nat.
Proof.
  assert (Hf : fresh_run demo_ops (Owners [] [], traced.Dev [] [])).
  { repeat (split; [intros x Hx; vm_compute in Hx; first [discriminate Hx|injection Hx as <-; apply (bool_decide_unpack _); vm_compute; exact I]|]).
    exact I. }
  pose proof (pools_freed_once demo_ops (traced.Dev [] []) Hf) as Hx.
  assert (Hm : (pool_run demo_ops (Owners [] [], traced.Dev [] []) []).2 = [0; 17]) by (vm_compute; reflexivity).
  destruct (pool_run demo_ops (Owners [] [], traced.Dev [] []) []) as [[o d'] made]. cbn [snd] in Hm.
  split; [exact Hm|exact Hx].
Defined.
End pool_demo.
