(* ===== verification/Usage.v ===== *)
(** * Programs over queues (examples/easy_usage.cpp, examples/advanced_usage.cpp,
      benchmarks/bench_library.cpp, benchmarks/bench_bare_dpdk.cpp)

    The two ways the library offers to move packets, through the port and
    through claimed queues, against each other and against the same work done
    on DPDK itself; the hand-out of queues to workers; and the set-up of
    advanced_usage.cpp with its shared pools. *)

From stdpp Require Import strings pretty.
From S2P Require Import Prelude Dpdk DpdkSim Packet Port Runtime Pool.

(** How a call ends: it returns, its loop is still polling when the allotted
    turns are over, it throws, or it writes through a null pointer. *)
Inductive outcome (E : Type) := finished (w : E) | polling (w : E) | thrown (w : E) | null_write.
Arguments finished {E}. Arguments polling {E}. Arguments thrown {E}. Arguments null_write {E}.

Section turns.
Context {E : Type} `{DpdkOps E}.

(** ** Loops *)

(** One turn of advanced_usage.cpp's [worker], and as many as it makes before
    it sees [g_stop]. *)
Definition worker_turn (rxq txq : queue) (w : E) : E :=
  let '(burst, w) := receive_burst rxq burst_max_size w in
  match burst with
  | [] => burst_dtor burst w
  | _ => let '(_, burst, w) := send_burst txq (omap id burst) w in burst_dtor burst w
  end.
Fixpoint worker (turns : nat) (rxq txq : queue) (w : E) : E :=
  match turns with O => w | S turns => worker turns rxq txq (worker_turn rxq txq w) end.

(** One turn of easy_usage.cpp's endless loop. *)
Definition easy_turn (eth0 : port) (w : E) : outcome E :=
  match port_receive_burst eth0 0 burst_max_size w with
  | None => thrown w
  | Some (burst, w) =>
    match burst with
    | [] => finished (burst_dtor burst w)
    | _ =>
      match port_send_burst eth0 0 (omap id burst) w with
      | None => thrown (burst_dtor burst w)
      | Some (_, burst, w) => finished (burst_dtor burst w)
      end
    end
  end.

(** ** Round trips *)

Definition kPayloadLen : Z := 64.

(** [pool.get()], [append] and the [memset] of what it returns. *)
Definition blank_packet (pool : Z) (w : E) : option rte_mbuf * E :=
  let '(pkt, w) := pool_get pool w in
  (match pkt with
   | None => None
   | Some m =>
     match packet_append m kPayloadLen with
     | None => None
     | Some (off, m) => Some (mbuf_write m off (replicate (Z.to_nat kPayloadLen) 0))
     end
   end, w).

(** [while (burst.empty()) burst = rxq.receive_burst();], to the end of [burst]'s scope. *)
Fixpoint receive_wait (turns : nat) (rxq : queue) (burst : packet_burst) (w : E) : outcome E :=
  match burst, turns with
  | [], O => polling w
  | [], S turns =>
    let '(temp, w) := receive_burst rxq burst_max_size w in
    let '(burst, temp, w) := burst_assign burst temp w in
    receive_wait turns rxq burst (burst_dtor temp w)
  | _, _ => finished (burst_dtor burst w)
  end.

(** The batch goes out of scope last. *)
Definition leave (batch : list packet) (res : outcome E) : outcome E :=
  match res with finished w => finished (burst_dtor batch w) | thrown w => thrown (burst_dtor batch w) | _ => res end.

Definition round_trip_direct (turns : nat) (pool : Z) (rxq txq : queue) (w : E) : outcome E :=
  let '(pkt, w) := blank_packet pool w in
  match pkt with
  | None => null_write
  | Some m =>
    let '(_, tx_batch, w) := send_burst txq [m] w in
    let '(burst, w) := receive_burst rxq burst_max_size w in
    leave tx_batch (receive_wait turns rxq burst w)
  end.

Fixpoint forward_wait (turns : nat) (eth0 : port) (burst : packet_burst) (w : E) : outcome E :=
  match burst, turns with
  | [], O => polling w
  | [], S turns =>
    match port_receive_burst eth0 0 burst_max_size w with
    | None => thrown w
    | Some (temp, w) =>
      let '(burst, temp, w) := burst_assign burst temp w in forward_wait turns eth0 burst (burst_dtor temp w)
    end
  | _, _ => finished (burst_dtor burst w)
  end.

Definition round_trip_forwarding (turns : nat) (pool : Z) (eth0 : port) (w : E) : outcome E :=
  let '(pkt, w) := blank_packet pool w in
  match pkt with
  | None => null_write
  | Some m =>
    match port_send_burst eth0 0 [m] w with
    | None => thrown (burst_dtor [Some m] w)
    | Some (_, tx_batch, w) =>
      match port_receive_burst eth0 0 burst_max_size w with
      | None => thrown (burst_dtor tx_batch w)
      | Some (burst, w) => leave tx_batch (forward_wait turns eth0 burst w)
      end
    end
  end.

(** bench_bare_dpdk.cpp: [while (n == 0) n = rte_eth_rx_burst(...)], then the frees. *)
Definition kPortId : Z := 0.
Fixpoint bare_wait (turns : nat) (w : E) : outcome E :=
  match turns with
  | O => polling w
  | S turns =>
    let '(rx_bufs, w) := rte_eth_rx_burst kPortId 0 8 w in
    match rx_bufs with [] => bare_wait turns w | _ => finished (foldl (λ w m, rte_pktmbuf_free m w) w rx_bufs) end
  end.

Definition round_trip (turns : nat) (pool : Z) (w : E) : outcome E :=
  let '(m, w) := rte_pktmbuf_alloc pool w in
  match m with
  | None => null_write
  | Some m =>
    match rte_pktmbuf_append m kPayloadLen with
    | None => null_write
    | Some m' =>
      let m := mbuf_write m' (length (m_data m)) (replicate (Z.to_nat kPayloadLen) 0) in
      let '(_, w) := rte_eth_tx_burst kPortId 0 [m] w in
      bare_wait turns w
    end
  end.
End turns.

(** ** Workers *)

(** [while (auto rxq = eth0.claim_rx_queue()) { auto txq = eth0.claim_tx_queue(); ... }];
    [None] if the turns do not suffice. *)
Fixpoint claim_workers (turns : nat) (rx tx : queue_set) (workers : list (queue * option queue))
    : option (list (queue * option queue) * queue_set * queue_set) :=
  match turns with
  | O => None
  | S turns =>
    let '(rxq, rx) := claim_next rx in
    match rxq with
    | None => Some (workers, rx, tx)
    | Some rxq => let '(txq, tx) := claim_next tx in claim_workers turns rx tx (workers ++ [(rxq, txq)])
    end
  end.

(** ** The loops give back what they take *)

Section turn_facts.
Context {E : Type} `{DpdkOps E}.

Lemma receive_burst_held `{!DpdkAccount E} q w : let '(burst, w') := receive_burst q burst_max_size w in held w' = held w + owned burst.
Proof using. rewrite receive_burst_all. pose proof (held_rx (q_port q) (q_id q) burst_max_size w) as Hh. destruct (rte_eth_rx_burst _ _ _ w). by rewrite owned_some. Qed.

Lemma worker_turn_held `{!DpdkLaws E} `{!DpdkAccount E} rxq txq w : held (worker_turn rxq txq w) = held w.
Proof using.
  unfold worker_turn. pose proof (receive_burst_held rxq w) as Hh. rewrite receive_burst_all in *.
  destruct (rte_eth_rx_burst _ _ _ w) as [raw w1] eqn:Er. apply rx_count in Er. destruct raw as [|m raw]; [unfold owned in Hh; cbn in *; lia|].
  rewrite owned_some in Hh. rewrite fmap_cons. cbv beta iota. rewrite <- fmap_cons, omap_some.
  destruct (send_burst txq (m :: raw) w1) as [[n rest] w2] eqn:Es.
  destruct (held_send_burst txq (m :: raw) w1 n rest w2) as (? & ? & ? & ?); [unfold burst_max_size in *; lia|done|].
  rewrite held_burst_dtor. lia.
Qed.

(** Moving a burst into an empty one changes nothing else. *)
Lemma burst_assign_empty (b : packet_burst) (w : E) : burst_assign [] b w = (b, (λ _, None) <$> b, w).
Proof using. unfold burst_assign, burst_move. by rewrite burst_push_all. Qed.
Lemma burst_dtor_none {A} (l : list A) (w : E) : burst_dtor ((λ _, None) <$> l) w = w.
Proof using. unfold burst_dtor. by induction l. Qed.
Lemma burst_dtor_some (l : list rte_mbuf) (w : E) : burst_dtor (Some <$> l) w = foldl (λ w m, rte_pktmbuf_free m w) w l.
Proof using. unfold burst_dtor. revert w. induction l as [|m l IH]; intros w; [done|]. apply IH. Qed.

Lemma receive_wait_step turns rxq (w : E) : receive_wait (S turns) rxq [] w =
  let '(burst, w) := receive_burst rxq burst_max_size w in receive_wait turns rxq burst w.
Proof using.
  cbn [receive_wait]. destruct (receive_burst _ _ w) as [b w1]. rewrite burst_assign_empty. by rewrite burst_dtor_none.
Qed.
Lemma forward_wait_eq turns (eth0 : port) rxq b (w : E) : qs_queues (port_rx eth0) !! 0%nat = Some rxq →
  forward_wait turns eth0 b w = receive_wait turns rxq b w.
Proof using.
  intros Hq. revert b w. induction turns as [|t IH]; intros [|x b] w; try done. cbn [forward_wait receive_wait].
  unfold port_receive_burst. rewrite Hq. destruct (receive_burst _ _ w) as [b' w1]. rewrite burst_assign_empty. apply IH.
Qed.

Lemma forwarding_eq turns pool (eth0 : port) rxq txq (w : E) :
  qs_queues (port_rx eth0) !! 0%nat = Some rxq → qs_queues (port_tx eth0) !! 0%nat = Some txq →
  round_trip_forwarding turns pool eth0 w = round_trip_direct turns pool rxq txq w ∧
  easy_turn eth0 w = finished (worker_turn rxq txq w).
Proof using.
  intros Hr Ht. unfold round_trip_forwarding, round_trip_direct, easy_turn, worker_turn, port_send_burst, port_receive_burst.
  rewrite Hr, Ht. split.
  - destruct (blank_packet pool w) as [[m|] w1]; [|done]. destruct (send_burst txq [m] w1) as [[n b] w2].
    destruct (receive_burst rxq _ w2) as [b' w3]. by rewrite (forward_wait_eq _ _ rxq).
  - destruct (receive_burst rxq _ w) as [[|x b] w1]; [done|]. by destruct (send_burst txq _ w1) as [[n b'] w2].
Qed.
End turn_facts.

(** Claiming in order from fresh queues. *)
Lemma claim_next_at qs k : claim_next (QueueSet qs (replicate k true ++ replicate (length qs - k) false) k) =
  match qs !! k with
  | Some q => (Some q, QueueSet qs (replicate (S k) true ++ replicate (length qs - S k) false) (S k))
  | None => (None, QueueSet qs (replicate k true ++ replicate (length qs - k) false) k)
  end.
Proof.
  unfold claim_next. cbn [qs_queues qs_claimed qs_cursor].
  assert (Hs : skip_claimed (S (length qs)) qs (replicate k true ++ replicate (length qs - k) false) k = k).
  { cbn [skip_claimed]. destruct (Nat.ltb_spec k (length qs)) as [Hlt|]; [|done]. cbn [andb].
    rewrite (list_lookup_total_correct _ k false); [done|]. rewrite lookup_app_r by (rewrite length_replicate; lia).
    apply lookup_replicate_2. rewrite length_replicate. lia. }
  rewrite Hs. destruct (Nat.leb_spec (length qs) k) as [Hge|Hlt].
  - by rewrite lookup_ge_None_2.
  - destruct (lookup_lt_is_Some_2 qs k Hlt) as [q Hq]. rewrite Hq, (replicate_S_end k true), <- app_assoc. f_equal. f_equal.
    replace (length qs - k)%nat with (S (length qs - S k)) by lia. rewrite <- (Nat.add_0_r k) at 1.
    rewrite insert_app_r_alt by (rewrite length_replicate; lia). rewrite length_replicate.
    replace (k + 0 - k)%nat with 0%nat by lia. done.
Qed.


(** The queues [0, k) claimed, and nothing else. *)
Definition claimed_to (qs : list queue) (k : nat) : queue_set := QueueSet qs (replicate k true ++ replicate (length qs - k) false) k.

Lemma fresh_claimed qs : fresh_queues qs = claimed_to qs 0.
Proof. unfold fresh_queues, claimed_to. by rewrite Nat.sub_0_r. Qed.
Lemma claim_next_to qs k : claim_next (claimed_to qs k) = (qs !! k, claimed_to qs (if decide (k < length qs)%nat then S k else k)).
Proof.
  unfold claimed_to. rewrite claim_next_at. case_decide as Hk.
  - by destruct (lookup_lt_is_Some_2 qs k Hk) as [q ->].
  - by rewrite lookup_ge_None_2 by lia.
Qed.

#[local] Instance queue_inhabited : Inhabited queue := populate {| q_port := 0; q_id := 0 |}.

Lemma claim_workers_from turns qr qt k acc : (length qr - k < turns)%nat → (k <= length qr)%nat →
  claim_workers turns (claimed_to qr k) (claimed_to qt (k `min` length qt)) acc =
  Some (acc ++ ((λ i, (qr !!! i, qt !! i)) <$> seq k (length qr - k)), claimed_to qr (length qr), claimed_to qt (length qr `min` length qt)).
Proof.
  revert k acc. induction turns as [|t IH]; intros k acc Ht Hk; [lia|]. cbn [claim_workers]. rewrite claim_next_to.
  case_decide as Hlt.
  - destruct (lookup_lt_is_Some_2 qr k Hlt) as [q Hq]. rewrite Hq, claim_next_to.
    replace (qt !! (k `min` length qt)%nat) with (qt !! k).
    2: { destruct (decide (k < length qt)%nat); [by rewrite Nat.min_l by lia|]. by rewrite !lookup_ge_None_2 by lia. }
    replace (if decide _ then _ else _) with (S k `min` length qt)%nat by (case_decide; lia). rewrite IH by lia.
    replace (length qr - k)%nat with (S (length qr - S k)) by lia. cbn [seq fmap list_fmap].
    by rewrite (list_lookup_total_correct _ _ _ Hq), <- app_assoc.
  - rewrite lookup_ge_None_2 by lia. replace (length qr - k)%nat with 0%nat by lia. cbn [seq fmap list_fmap].
    rewrite app_nil_r. by replace k with (length qr) by lia.
Qed.

Lemma ids_lookup id n i : ids id 0 n !! i = if decide (i < n)%nat then Some {| q_port := id; q_id := Z.of_nat i |} else None.
Proof.
  unfold ids. rewrite list_lookup_fmap. case_decide; [by rewrite lookup_seq_lt|]. by rewrite lookup_seq_ge by lia.
Qed.
Lemma ids_length id n : length (ids id 0 n) = n.
Proof. unfold ids. by rewrite length_fmap, length_seq. Qed.

(** ** One packet there and one back *)

Definition loop_queue : queue := {| q_port := kPortId; q_id := 0 |}.

Section bare.
Context {E : Type} `{DpdkOps E}.

(** The state after [i] polls. *)
Fixpoint polled (i : nat) (w : E) : E := match i with O => w | S i => polled i (rte_eth_rx_burst kPortId 0 8 w).2 end.
(** No more than eight packets are there while the loop polls. *)
Definition few_waiting (turns : nat) (w : E) : Prop :=
  ∀ i, (i <= turns)%nat → rte_eth_rx_burst kPortId 0 8 (polled i w) = rte_eth_rx_burst kPortId 0 burst_max_size (polled i w).

Lemma bare_wait_eq turns (w : E) : few_waiting turns w →
  (let '(b, w') := receive_burst loop_queue burst_max_size w in receive_wait turns loop_queue b w') = bare_wait (S turns) w.
Proof using.
  revert w. induction turns as [|t IH]; intros w Hf; rewrite receive_burst_all; cbn [loop_queue q_port q_id bare_wait].
  all: pose proof (Hf 0%nat ltac:(lia)) as H0; cbn [polled] in H0; rewrite <- H0; destruct (rte_eth_rx_burst kPortId 0 8 w) as [[|m bufs] w1] eqn:Er; [|by rewrite <- burst_dtor_some].
  - done.
  - change (Some <$> []) with ([] : packet_burst). rewrite receive_wait_step. rewrite IH; [done|].
    intros i Hi. specialize (Hf (S i) ltac:(lia)). cbn [polled] in Hf. by rewrite Er in Hf.
Qed.

Lemma bare_wait_ends turns (w : E) : ∃ w', bare_wait turns w = finished w' ∨ bare_wait turns w = polling w'.
Proof using.
  revert w. induction turns as [|t IH]; intros w; cbn [bare_wait]; [eauto|]. destruct (rte_eth_rx_burst kPortId 0 8 w) as [[|m bufs] w1]; eauto.
Qed.
Lemma blank_packet_held `{!DpdkAccount E} pool (w : E) m w1 : blank_packet pool w = (Some m, w1) → held w1 = held w + 1.
Proof using.
  unfold blank_packet, pool_get, get_packet. pose proof (held_alloc pool w) as Ha. destruct (rte_pktmbuf_alloc pool w) as [[m'|] w']; intros Hx; injection Hx as Hm <-; done.
Qed.
Lemma receive_wait_held `{!DpdkAccount E} turns q b (w w' : E) : receive_wait turns q b w = finished w' → held w' = held w - owned b.
Proof using.
  revert b w. induction turns as [|t IH]; intros [|p b] w.
  1: done. 1, 3: cbn [receive_wait]; intros Hx; replace w' with (burst_dtor (p :: b) w) by congruence; apply held_burst_dtor.
  rewrite receive_wait_step. pose proof (receive_burst_held q w) as Hh. destruct (receive_burst q _ w) as [b w1].
  intros Hx%IH. unfold owned at 1. cbn. lia.
Qed.

Lemma send_one q m (w : E) : send_burst q [m] w =
  let '(n, w) := rte_eth_tx_burst (q_port q) (q_id q) [m] w in (n, ((λ _, None) <$> take (Z.to_nat n) [m]) ++ (Some <$> drop (Z.to_nat n) [m]), w).
Proof using. done. Qed.

Lemma leave_nothing {A} (l : list A) (res : outcome E) : leave ((λ _, None) <$> l) res = res.
Proof using. destruct res; cbn; by rewrite ?burst_dtor_none. Qed.

Lemma direct_held `{!DpdkLaws E} `{!DpdkAccount E} turns pool rxq txq (w w' : E) :
  round_trip_direct turns pool rxq txq w = finished w' → held w' = held w.
Proof using.
  unfold round_trip_direct. destruct (blank_packet pool w) as [[m|] w1] eqn:Eb; [|done]. apply blank_packet_held in Eb.
  destruct (send_burst txq [m] w1) as [[n rest] w2] eqn:Es. apply held_send_burst in Es as (? & _ & Hrest & Hw2); [|cbn; lia].
  pose proof (receive_burst_held rxq w2) as Hr. destruct (receive_burst rxq _ w2) as [b w3].
  destruct (receive_wait turns rxq b w3) as [w4|w4|w4|] eqn:Ew; try done. apply receive_wait_held in Ew. cbn [leave].
  intros [= <-]. rewrite held_burst_dtor. cbn in Hrest. lia.
Qed.
End bare.

(** ** Properties *)

(** Nothing leaks and nothing is freed twice on the hot path: however
    many turns a worker makes before it sees the stop flag, it ends with the
    mbufs it began with, whether the driver hands over packets or none and
    accepts all, some or none of them; and so does a turn through the port. *)
Theorem worker_frees_everything {E} `{DpdkOps E} `{!DpdkLaws E} `{!DpdkAccount E} turns rxq txq (eth0 : port) (w : E) :
  qs_queues (port_rx eth0) !! 0%nat = Some rxq → qs_queues (port_tx eth0) !! 0%nat = Some txq →
  held (worker turns rxq txq w) = held w ∧ ∃ w', easy_turn eth0 w = finished w' ∧ held w' = held w.
Proof.
  intros Hr Ht. split.
  - revert w. induction turns as [|t IH]; intros w; [done|]. cbn [worker]. by rewrite IH, worker_turn_held.
  - destruct (forwarding_eq 0 0 eth0 rxq txq w Hr Ht) as [_ ->]. exists (worker_turn rxq txq w). by rewrite worker_turn_held.
Qed.

(** The convenience path is the direct path: on a port just brought
    up with queues, claiming gives receive and transmit queue 0, and then, the
    queues being claimed, every operation that goes through the port (a round
    trip of the benchmark, a turn of the polling loop) has exactly the effect
    of the same operation on the claimed handles, for every state of the
    device and every number of polls. *)
Theorem forwarding_is_direct {D} `{EthDev D} `{!EthTrace D} id n_rx n_tx pool (d : D) p d' :
  port_new id n_rx n_tx pool d = (inr p, d') → 1 <= n_rx → 1 <= n_tx →
  ∃ rxq txq rx tx, claim_next (port_rx p) = (Some rxq, rx) ∧ claim_next (port_tx p) = (Some txq, tx) ∧
    ∀ E (H : DpdkOps E) turns mem (w : E), let eth0 := set_port_tx (set_port_rx p rx) tx in
      round_trip_forwarding turns mem eth0 w = round_trip_direct turns mem rxq txq w ∧
      easy_turn eth0 w = finished (worker_turn rxq txq w).
Proof.
  intros Hp Hr Ht. destruct (port_new_queues _ _ _ _ _ _ _ Hp) as [-> ->]. rewrite !fresh_claimed, !claim_next_to, !ids_lookup, !ids_length.
  rewrite !decide_True by lia. do 4 eexists. split_and!; [reflexivity|reflexivity|]. intros E H2 turns mem w. apply forwarding_eq; cbn [set_port_tx set_port_rx port_rx port_tx claimed_to qs_queues].
  all: by rewrite ids_lookup, decide_True by lia.
Qed.

(** The library adds ownership and nothing else: a round trip on
    claimed queues does to the device what the hand-written DPDK program does,
    call for call, as long as no more than the eight packets that program asks
    for are waiting.  The one difference is the packet the driver refuses: the
    library frees it on the way out, the hand-written program loses it.  With
    a null mbuf or no room both write through null.  A library round trip
    that returns has given back every mbuf it took. *)
Theorem library_matches_bare {E} `{DpdkOps E} `{!DpdkLaws E} `{!DpdkAccount E} turns pool (w : E) :
  let direct := round_trip_direct turns pool loop_queue loop_queue w in
  let bare := round_trip (S turns) pool w in
  match blank_packet pool w with
  | (None, _) => direct = null_write ∧ bare = null_write
  | (Some m, w1) =>
    let '(n, w2) := rte_eth_tx_burst kPortId 0 [m] w1 in
    few_waiting turns w2 →
    if n =? 1 then direct = bare
    else match bare with finished w' => direct = finished (rte_pktmbuf_free m w') | _ => direct = bare end
  end ∧ ∀ w', direct = finished w' → held w' = held w.
Proof.
  intros direct bare. split; [|by apply direct_held]. subst direct bare. unfold round_trip_direct, round_trip, blank_packet, pool_get, get_packet, packet_append.
  destruct (rte_pktmbuf_alloc pool w) as [[m0|] w1]; [|done]. destruct (rte_pktmbuf_append m0 kPayloadLen) as [m1|]; [|done].
  set (m := mbuf_write _ _ _). rewrite send_one. cbn [loop_queue q_port q_id]. destruct (rte_eth_tx_burst kPortId 0 [m] w1) as [n w2] eqn:Et.
  intros Hf. apply tx_count in Et. cbn [length] in Et. pose proof (bare_wait_eq turns w2 Hf) as Hb.
  fold loop_queue. destruct (receive_burst loop_queue _ w2) as [b w3]. rewrite Hb. destruct (Z.eqb_spec n 1) as [->|Hn].
  - change (Z.to_nat 1) with 1%nat. cbn [take drop fmap list_fmap app]. apply (leave_nothing [m]).
  - replace n with 0 by lia. change (Z.to_nat 0) with 0%nat. cbn [take drop fmap list_fmap app]. by destruct (bare_wait_ends (S turns) w2) as [w' [-> | ->]].
Qed.

(** The hand-out loop of advanced_usage.cpp ends and gives every
    receive queue of the port to one worker: after as many turns as there are
    receive queues and one more, worker [i] has receive queue [i], and transmit
    queue [i] if there is one (a null pointer otherwise), no receive queue is
    left, and transmit queues only beyond the workers. *)
Theorem workers_cover_queues {D} `{EthDev D} `{!EthTrace D} id n_rx n_tx pool (d : D) p d' :
  port_new id n_rx n_tx pool d = (inr p, d') → 0 <= n_rx →
  ∃ workers rx tx, claim_workers (S (Z.to_nat n_rx)) (port_rx p) (port_tx p) [] = Some (workers, rx, tx) ∧
    Z.of_nat (length workers) = n_rx ∧ (claim_next rx).1 = None ∧
    (n_tx <= n_rx → (claim_next tx).1 = None) ∧
    ∀ i, (i < length workers)%nat → let q := {| q_port := id; q_id := Z.of_nat i |} in
      workers !! i = Some (q, if Z.of_nat i <? n_tx then Some q else None).
Proof.
  intros Hp Hr. destruct (port_new_queues _ _ _ _ _ _ _ Hp) as [-> ->]. rewrite !fresh_claimed.
  pose proof (claim_workers_from (S (Z.to_nat n_rx)) (ids id 0 (Z.to_nat n_rx)) (ids id 0 (Z.to_nat n_tx)) 0 []) as Hc.
  rewrite !ids_length, Nat.sub_0_r in Hc. cbn [Nat.min app] in Hc. do 3 eexists. split; [apply Hc; lia|].
  rewrite length_fmap, length_seq, !claim_next_to. split_and!; [lia| | |].
  - cbn [fst]. rewrite ids_lookup. by case_decide; [lia|].
  - intros Hle. cbn [fst]. rewrite ids_lookup. by case_decide; [lia|].
  - intros i Hi. cbv zeta. rewrite list_lookup_fmap, lookup_seq_lt by done. cbn [fmap option_fmap option_map Nat.add].
    rewrite (list_lookup_total_correct _ i {| q_port := id; q_id := Z.of_nat i |}) by (rewrite ids_lookup, decide_True by lia; done).
    rewrite ids_lookup. destruct (Z.ltb_spec (Z.of_nat i) n_tx); case_decide; (done || lia).
Qed.

(** ** Bringing the port up by hand *)

Definition kRingSize : Z := 1024.

Definition setup_port {D} `{EthDev D} (pool : Z) (d : D) : bool * D :=
  let '(ret, d) := dev_configure kPortId 1 1 d in
  if negb (ret =? 0) then (false, d)
  else
    let '(nb, d) := dev_adjust_nb_rx_tx_desc kPortId kRingSize kRingSize d in
    match nb with
    | None => (false, d)
    | Some (nb_rxd, nb_txd) =>
      let '(ret, d) := dev_info_get kPortId d in
      if negb (ret =? 0) then (false, d)
      else
        let '(ret, d) := dev_rx_queue_setup kPortId 0 nb_rxd (dev_socket_id kPortId d) pool d in
        if ret <? 0 then (false, d)
        else
          let '(ret, d) := dev_tx_queue_setup kPortId 0 nb_txd (dev_socket_id kPortId d) d in
          if ret <? 0 then (false, d) else let '(ret, d) := dev_start kPortId d in (ret =? 0, d)
    end.

(** The port's constructor is this sequence, where the socket of the device
    does not change under way and starting it returns 0 or an error. *)
Lemma setup_port_is_port_new {D} `{EthDev D} pool (d : D) : dev_is_valid_port kPortId d = true →
  (∀ d, (dev_start kPortId d).1 <= 0) →
  (∀ nb s d, dev_socket_id kPortId (dev_rx_queue_setup kPortId 0 nb s pool d).2 = dev_socket_id kPortId d) →
  (setup_port pool d).2 = (port_new kPortId 1 1 pool d).2 ∧
  (setup_port pool d).1 = match (port_new kPortId 1 1 pool d).1 with inl _ => false | inr _ => true end.
Proof.
  intros Hv Hst Hsk. unfold setup_port, port_new. rewrite Hv. cbn [negb]. change kRingSize with kDefaultRingSize. change (Z.to_nat 1) with 1%nat.
  destruct (dev_configure _ _ _ d) as [r d1]. destruct (negb _); [done|]. destruct (dev_adjust_nb_rx_tx_desc _ _ _ d1) as [[[a b]|] d2]; [|done].
  destruct (dev_info_get _ d2) as [r' d3]. destruct (negb _); [done|]. cbn [setup_rx setup_tx].
  specialize (Hsk a (dev_socket_id kPortId d3) d3). destruct (dev_rx_queue_setup _ _ _ _ _ d3) as [rr d4]. cbn [snd] in Hsk. destruct (rr <? 0); [done|].
  rewrite Hsk. destruct (dev_tx_queue_setup _ _ _ _ d4) as [rt d5]. destruct (rt <? 0); [done|]. specialize (Hst d5).
  destruct (dev_start _ d5) as [rs d6]. cbn [fst] in Hst. destruct (Z.ltb_spec rs 0), (Z.eqb_spec rs 0); (done || lia).
Qed.

(** ** advanced_usage.cpp: two ports, one pool shared, two pools by hand *)

Section advanced.
Context {D : Type} `{EthDev D} `{EalOps D} `{MempoolOps D}.

(** Whether a call throws. *)
Definition throws (op : pool_op) (s : Pool.owners * D) : bool :=
  let fails (r : (runtime_error + Z) * D) : bool := match r.1 with inl _ => true | inr _ => false end in
  let new_fails id n_rx n_tx pool d : bool := match (port_new id n_rx n_tx pool d : (port_error + port) * D).1 with inl _ => true | inr _ => false end in
  match op with
  | Create_pool name n elt socket cache => fails (create_pool name n elt socket cache s.2)
  | Add_port i id n_rx n_tx => match o_handles s.1 !! i with Some (Some pool) => new_fails id n_rx n_tx pool s.2 | _ => false end
  | Add_default id n_rx n_tx elt =>
    let r := make_default_pool id elt s.2 in
    match r.1 with inl _ => true | inr pool => new_fails id n_rx n_tx pool r.2 end
  | _ => false
  end.

(** The statements up to the one that throws, with the pools made. *)
Fixpoint run_until (ops : list pool_op) (s : Pool.owners * D) (made : list Z) : bool * (Pool.owners * D) * list Z :=
  match ops with
  | [] => (false, s, made)
  | op :: ops =>
    let made := made ++ option_list (made_by op s) in
    if throws op s then (true, pool_step op s, made) else run_until ops (pool_step op s) made
  end.

Definition kNumQueues : Z := 2.

(** [add_port(0, ...)]; [add_port(1, ..., eth0.get_pool())], its argument gone
    afterwards; the two [create_pool]s. *)
Definition advanced_ops (socket : Z) : list pool_op :=
  [Add_default 0 kNumQueues kNumQueues 2048; Get_pool 0; Add_port 0 1 kNumQueues kNumQueues; Drop_handle 0;
   Create_pool "SMALL_POOL" 8192 2048 socket 256; Create_pool "JUMBO_POOL" 1024 9216 socket 256].

(** Leaving the block: the pointers go in reverse order, then the runtime. *)
Definition drops (o : Pool.owners) : list pool_op := Drop_handle <$> rev (seq 0 (length (o_handles o))).
Definition leave_block (s : Pool.owners * D) : D := let '((o, d), _) := pool_run (drops s.1) s [] in end_runtime o d.

End advanced.

Section advanced_proofs.
Context {D : Type} `{EthDev D} `{!EthTrace D} `{EalOps D} `{!EalTrace D} `{MempoolOps D} `{!MempoolTrace D}.

Lemma run_until_prefix ops (s : Pool.owners * D) made : fresh_run ops s →
  let '(_, s', made') := run_until ops s made in ∃ pre, pool_run pre s made = (s', made') ∧ fresh_run pre s.
Proof using.
  revert s made. induction ops as [|op ops IH]; intros s made Hf; [by exists []|]. destruct Hf as [Hf Hr]. cbn [run_until].
  destruct (throws op s); [by exists [op]|]. specialize (IH (pool_step op s) (made ++ option_list (made_by op s)) Hr).
  destruct (run_until ops _ _) as [[b s'] made']. destruct IH as (pre & Hp & Hfr). by exists (op :: pre).
Qed.

(** Dropping every pointer makes no pool and leaves none. *)
Lemma drops_run is_ o (d : D) made : let '((o', d'), made') := pool_run (Drop_handle <$> is_) (o, d) made in
  made' = made ∧ fresh_run (Drop_handle <$> is_) (o, d) ∧ length (o_handles o') = length (o_handles o) ∧
  ∀ j x, o_handles o' !! j = Some (Some x) → o_handles o !! j = Some (Some x) ∧ (j ∉ is_).
Proof using.
  revert o d made. induction is_ as [|i is_ IH]; intros o d made.
  { cbn. split_and!; try done. intros j x Hj. split; [done|apply not_elem_of_nil]. }
  rewrite fmap_cons. cbn [pool_run fresh_run made_by option_list]. rewrite app_nil_r.
  destruct (pool_step (Drop_handle i) (o, d)) as [o1 d1] eqn:Es. specialize (IH o1 d1 made).
  destruct (pool_run (Drop_handle <$> is_) (o1, d1) made) as [[o' d'] made']. destruct IH as (Hm & Hf & Hl & Hh).
  cbn [pool_step] in Es. destruct (o_handles o !! i) as [h|] eqn:Ei; simplify_eq; cbn [o_handles] in *.
  - rewrite length_insert in Hl. split_and!; try done. intros j x Hj. destruct (Hh j x Hj) as [Hi Hn].
    apply list_lookup_insert_Some in Hi as [(_ & ? & _)|[Hne Hi]]; [done|]. split; [done|]. rewrite not_elem_of_cons. auto.
  - split_and!; try done. intros j x Hj. destruct (Hh j x Hj) as [Hi Hn]. split; [done|]. rewrite not_elem_of_cons.
    split; [|done]. intros ->. congruence.
Qed.

Lemma leave_block_frees (s : Pool.owners * D) : ∃ t, calls (leave_block s) = calls s.2 ++ t ++ [c_eal_cleanup] ∧
  ∀ x, frees x t = owned_by x (all_owners s.1).
Proof using All.
  destruct s as [o d]. unfold leave_block, drops. cbn [fst]. pose proof (drops_run (rev (seq 0 (length (o_handles o)))) o d []) as Hd.
  pose proof (pool_run_frees (Drop_handle <$> rev (seq 0 (length (o_handles o)))) (o, d) []) as Hr.
  destruct (pool_run _ (o, d) []) as [[o' d'] made']. destruct Hd as (-> & Hf & Hl & Hh). destruct (Hr Hf) as (t & new & Ht & Hn & Hx).
  assert (new = []) as -> by done. cbn [fst snd] in *. destruct (clear_ports_frees (o_ports o') (o_handles o') d') as (t' & Ht' & Hy).
  exists (t ++ t'). rewrite end_runtime_eq, calls_cleanup, Ht', Ht, <- !app_assoc. split; [done|]. intros x. specialize (Hx x). specialize (Hy x).
  assert (owned_by x (o_handles o') = 0%nat) as Hz.
  { unfold owned_by. rewrite decide_False; [done|]. intros Hin. apply list_elem_of_lookup in Hin as [j Hj]. destruct (Hh j x Hj) as [_ Hno].
    apply Hno. apply list_elem_of_In, in_rev. rewrite rev_involutive. apply in_seq. apply lookup_lt_Some in Hj. lia. }
  rewrite frees_app. unfold all_owners in Hx at 1. cbn in Hx. unfold times in Hx. cbn in Hx. lia.
Qed.

End advanced_proofs.

(** ** Runs *)

Section usage_runs.
#[local] Existing Instances sim.ops sim.laws sim.account.
Abbreviation nic := (Port 0 (Some 0) (fresh_queues [loop_queue]) (fresh_queues [loop_queue]) None true).

(** Three packets in, one accepted. *)
Lemma worker_frees_everything_witness :
  let w := sim.Env 2048 0 [1] [] (replicate 3 (Mbuf [] 0 1 0 0 0)) [] 0 in
  held (worker 5 loop_queue loop_queue w) = 0 ∧ ∃ w', easy_turn nic w = finished w' ∧ held w' = 0.
Proof. intros w. exact (worker_frees_everything 5 loop_queue loop_queue nic w eq_refl eq_refl). Defined.

(** The packet refused, another one arriving: the library frees the first. *)
Lemma library_matches_bare_witness :
  let w := sim.Env 2048 4 [0] [] [Mbuf [1] 1 1 0 0 0] [] 0 in
  ∃ m w', round_trip 3 0 w = finished w' ∧ round_trip_direct 2 0 loop_queue loop_queue w = finished (rte_pktmbuf_free m w').
Proof.
  intros w. destruct (library_matches_bare 2 0 w) as [Hx _].
  destruct (blank_packet 0 w) as [[m|] w1] eqn:Eb; [|vm_compute in Eb; discriminate Eb]. exists m.
  destruct (rte_eth_tx_burst kPortId 0 [m] w1) as [n w2] eqn:Et.
  assert (n = 0 ∧ few_waiting 2 w2) as [-> Hf].
  { vm_compute in Eb. injection Eb as <- <-. vm_compute in Et. injection Et as <- <-. split; [reflexivity|].
    intros [|[|[|i]]] Hi; try lia; vm_compute; reflexivity. }
  specialize (Hx Hf). cbn [Z.eqb] in Hx. destruct (round_trip 3 0 w) as [w'| | |] eqn:Er; try (vm_compute in Er; discriminate Er).
  exists w'. split; [reflexivity|exact Hx].
Defined.
End usage_runs.

Section usage_device_runs.
#[local] Existing Instances traced.ops traced.trace traced_pool.eal traced_pool.eal_trace traced_eal.pool traced_eal.pool_trace.
#[local] Open Scope string_scope.
#[local] Open Scope list_scope.

Lemma forwarding_is_direct_witness :
  ∃ p d', port_new 3 1 1 0 (traced.Dev [] []) = (inr p, d') ∧
  ∃ rxq rx, claim_next (port_rx p) = (Some rxq, rx) ∧ q_id rxq = 0.
Proof.
  destruct (port_new 3 1 1 0 (traced.Dev [] [])) as [[e|p] d'] eqn:Hp; [vm_compute in Hp; discriminate Hp|]. exists p, d'. split; [reflexivity|].
  destruct (forwarding_is_direct 3 1 1 0 _ p d' Hp) as (rxq & txq & rx & tx & Hr & _); [lia..|]. exists rxq, rx. split; [exact Hr|].
  vm_compute in Hp. injection Hp as <- <-. vm_compute in Hr. injection Hr as <- _. reflexivity.
Defined.

Lemma workers_cover_queues_witness :
  ∃ p d', port_new 3 2 1 0 (traced.Dev [] []) = (inr p, d') ∧
  ∃ workers rx tx, claim_workers 3 (port_rx p) (port_tx p) [] = Some (workers, rx, tx) ∧ Z.of_nat (length workers) = 2.
Proof.
  destruct (port_new 3 2 1 0 (traced.Dev [] [])) as [[e|p] d'] eqn:Hp; [vm_compute in Hp; discriminate Hp|]. exists p, d'. split; [reflexivity|].
  destruct (workers_cover_queues 3 2 1 0 _ p d' Hp) as (ws & rx & tx & Hc & Hl & _); [lia|]. exists ws, rx, tx. split; [exact Hc|exact Hl].
Defined.

End usage_device_runs.
