(* ===== verification/Stats.v ===== *)
(** * The statistics of the benchmarks (benchmarks/bench_common.h)

    A [double] is an IEEE 754 binary64 number with round to nearest even, as the
    Standard Library's [SpecFloat] specifies it, so the percentiles and the mean
    are computed as the code computes them.  The samples are non-negative: on
    these [<] is a total order, which [std::sort] needs, and which a NaN would
    break. *)

From Stdlib Require Import SpecFloat.
From stdpp Require Import sorting.
From S2P Require Import Prelude.

(** ** Doubles *)

Abbreviation double := spec_float.
Abbreviation prec := 53.
Abbreviation emax := 1024.

(** [static_cast<double>] of an unsigned integer. *)
Definition to_double (z : Z) : double := binary_normalize prec emax z 0 false.
(** [static_cast<std::size_t>]: the fraction is dropped; undefined ([None]) where
    the result does not fit. *)
Definition to_size (x : double) : option Z :=
  match x with
  | S754_zero _ => Some 0
  | S754_finite s m e =>
    let v := Z.shiftl (Z.pos m) e in
    if s then if v =? 0 then Some 0 else None else if v <? 2 ^ 64 then Some v else None
  | _ => None
  end.

(** The literal 0.99: the double nearest to it. *)
Definition c_0_99 : double := S754_finite false 8917127262193582 (-53).

Record stats := Stats { min_ns : double; p50_ns : double; p99_ns : double; mean_ns : double; max_ns : double }.

(** The order [std::sort] puts its elements in: none is less than one before it. *)
Definition not_after (x y : double) : Prop := SFltb y x = false.
#[export] Instance not_after_dec x y : Decision (not_after x y) := decide (SFltb y x = false).

(** [None]: an element past the end is read, or a conversion is undefined. *)
Definition compute_stats (per_batch_ns : list double) : option stats :=
  let per_batch_ns := merge_sort not_after per_batch_ns in
  let n := length per_batch_ns in
  let sum := foldl (SFadd prec emax) (S754_zero false) per_batch_ns in
  lo ← per_batch_ns !! 0%nat;
  hi ← per_batch_ns !! (n - 1)%nat;
  p50 ← per_batch_ns !! (n / 2)%nat;
  i ← to_size (SFmul prec emax (to_double (Z.of_nat n)) c_0_99);
  p99 ← per_batch_ns !! Z.to_nat i;
  Some (Stats lo p50 p99 (SFdiv prec emax sum (to_double (Z.of_nat n))) hi).

(** ** Non-negative numbers *)

(** Neither negative nor a NaN; infinity is one. *)
Definition nonneg (x : double) : bool :=
  match x with S754_zero s | S754_infinity s | S754_finite s _ _ => negb s | S754_nan => false end.
Definition finite_pos (x : double) : bool := match x with S754_finite false _ _ => true | _ => false end.

(** *** Rounding *)

Lemma shr_1_half r : 0 <= shr_m r → shr_m (shr_1 r) = shr_m r / 2.
Proof.
  destruct r as [[|[p|p|]|p] x y]; cbn [shr_1 shr_m]; try done; intros _.
  - rewrite Pos2Z.inj_xI. apply (Z.div_unique _ _ _ 1); lia.
  - rewrite Pos2Z.inj_xO. apply (Z.div_unique _ _ _ 0); lia.
Qed.
Lemma iter_shr_div p r : 0 <= shr_m r → shr_m (SpecFloat.iter_pos shr_1 p r) = shr_m r / 2 ^ Z.pos p.
Proof.
  assert (H : ∀ k, SpecFloat.iter_pos shr_1 k r = Nat.iter (Pos.to_nat k) shr_1 r).
  { intros k. revert r. induction k as [k IH|k IH|]; intros r; cbn [SpecFloat.iter_pos]; [..|done]; rewrite !IH, <- !Nat.iter_add.
    - rewrite Pos2Nat.inj_xI. change (shr_1 r) with (Nat.iter 1 shr_1 r). rewrite <- Nat.iter_add. f_equal. lia.
    - rewrite Pos2Nat.inj_xO. f_equal. lia. }
  intros Hr. rewrite H. rewrite <- (positive_nat_Z p). induction (Pos.to_nat p) as [|k IH]; [by rewrite Z.div_1_r|].
  rewrite Nat.iter_succ, shr_1_half; rewrite IH; [|apply Z.div_pos; lia].
  rewrite Nat2Z.inj_succ, Z.pow_succ_r, Z.mul_comm, Z.div_div by lia. done.
Qed.
Lemma record_of_loc m l : shr_m (shr_record_of_loc m l) = m.
Proof. by destruct l as [|[]]. Qed.

(** Aligning drops the bits the format has no room for. *)
Lemma shr_fexp_div m e l : 0 <= m → let k := Z.max 0 (fexp prec emax (Zdigits2 m + e) - e) in
  shr_m (shr_fexp prec emax m e l).1 = m / 2 ^ k ∧ (shr_fexp prec emax m e l).2 = e + k.
Proof.
  intros Hm. unfold shr_fexp. set (k := fexp _ _ _). unfold shr. destruct (k - e) as [|p|p] eqn:Ek; cbn [fst snd Z.max Z.compare].
  1, 3: rewrite record_of_loc, Z.div_1_r; lia.
  rewrite iter_shr_div by (rewrite record_of_loc; lia). rewrite record_of_loc. split; [done|lia].
Qed.

Lemma round_even_range m l : 0 <= m → m <= round_nearest_even m l <= m + 1.
Proof. intros. destruct l as [|[]]; cbn; try case_match; lia. Qed.

Lemma digits2_log2 p : Z.pos (digits2_pos p) = Z.log2 (Z.pos p) + 1.
Proof.
  induction p as [p IH|p IH|]; cbn [digits2_pos]; [..|done]; rewrite Pos2Z.inj_succ, IH.
  - rewrite Pos2Z.inj_xI, Z.log2_succ_double by lia. lia.
  - rewrite Pos2Z.inj_xO, Z.log2_double by lia. lia.
Qed.
Lemma zdigits2_bounds m : 0 < m → 2 ^ (Zdigits2 m - 1) <= m < 2 ^ Zdigits2 m ∧ 0 < Zdigits2 m.
Proof.
  destruct m as [|p|p]; [done| |done]. intros _. cbn [Zdigits2]. rewrite digits2_log2.
  pose proof (Z.log2_spec (Z.pos p) ltac:(lia)). pose proof (Z.log2_nonneg (Z.pos p)).
  replace (Z.log2 (Z.pos p) + 1 - 1) with (Z.log2 (Z.pos p)) by lia. rewrite Z.add_1_r. lia.
Qed.
Lemma zdigits2_le m k : 0 <= k → 0 <= m < 2 ^ k → Zdigits2 m <= k.
Proof.
  intros Hk Hm. destruct (decide (m = 0)) as [->|]; [done|]. destruct (zdigits2_bounds m ltac:(lia)) as [[H1 _] _].
  destruct (Z.le_gt_cases (Zdigits2 m) k); [done|]. pose proof (Z.pow_le_mono_r 2 k (Zdigits2 m - 1)). lia.
Qed.

(** Rounding gives no NaN. *)
Lemma round_aux_nonneg m e l : 0 <= m → nonneg (binary_round_aux prec emax false m e l) = true.
Proof.
  intros Hm. unfold binary_round_aux. destruct (shr_fexp_div m e l Hm) as [H1 _].
  destruct (shr_fexp prec emax m e l) as [r1 e1]. cbn [fst] in H1.
  assert (0 <= shr_m r1) by (rewrite H1; apply Z.div_pos; lia).
  pose proof (round_even_range (shr_m r1) (loc_of_shr_record r1) ltac:(lia)) as H2.
  destruct (shr_fexp_div (round_nearest_even (shr_m r1) (loc_of_shr_record r1)) e1 loc_Exact ltac:(lia)) as [H3 _].
  destruct (shr_fexp prec emax _ e1 _) as [r2 e2]. cbn [fst] in H3.
  assert (0 <= shr_m r2) by (rewrite H3; apply Z.div_pos; lia). destruct (shr_m r2); [done| |lia]. by destruct (_ <=? _).
Qed.

(** One alignment of a positive number of at most [b] bits. *)
Lemma shr_fexp_small m e l b : 0 < m < 2 ^ b → 53 <= b <= 100 → -1000 <= e <= 100 →
  0 < shr_m (shr_fexp prec emax m e l).1 <= m ∧ e <= (shr_fexp prec emax m e l).2 <= e + (b - 53).
Proof.
  intros Hm Hb He. destruct (shr_fexp_div m e l ltac:(lia)) as [-> ->]. pose proof (zdigits2_le m b ltac:(lia) ltac:(lia)).
  destruct (zdigits2_bounds m ltac:(lia)) as [[Hd _] Hp]. unfold fexp, emin. set (k := Z.max 0 _).
  assert (0 <= k <= Zdigits2 m - 1 ∧ k <= b - 53) as [Hk ?] by lia. split; [|lia]. split.
  - apply Z.div_str_pos. split; [lia|]. pose proof (Z.pow_le_mono_r 2 k (Zdigits2 m - 1)). lia.
  - apply Z.div_le_upper_bound; [lia|]. pose proof (Z.pow_le_mono_r 2 0 k). nia.
Qed.

(** Rounding a positive number of at most 64 bits gives a positive number. *)
Lemma round_aux_finite m e : 0 < m < 2 ^ 64 → -1000 <= e <= 0 → finite_pos (binary_round_aux prec emax false m e loc_Exact) = true.
Proof.
  intros Hm He. unfold binary_round_aux. destruct (shr_fexp_small m e loc_Exact 64 ltac:(lia) ltac:(lia) ltac:(lia)) as [H1 E1].
  destruct (shr_fexp prec emax m e loc_Exact) as [r1 e1]. cbn [fst snd] in H1, E1.
  pose proof (round_even_range (shr_m r1) (loc_of_shr_record r1) ltac:(lia)) as H2. set (m2 := round_nearest_even _ _) in *.
  destruct (shr_fexp_small m2 e1 loc_Exact 65 ltac:(lia) ltac:(lia) ltac:(lia)) as [H3 E2].
  destruct (shr_fexp prec emax m2 e1 loc_Exact) as [r2 e2]. cbn [fst snd] in H3, E2.
  destruct (shr_m r2); [lia| |lia]. destruct (Z.leb_spec e2 (emax - prec)); [done|lia].
Qed.

(** *** Operations *)

Lemma iter_xO m p : Z.pos (Pos.iter xO m p) = Z.pos m * 2 ^ Z.pos p.
Proof.
  induction p as [|p IH] using Pos.peano_ind; [cbn; lia|]. rewrite Pos.iter_succ, Pos2Z.inj_xO, IH.
  rewrite Pos2Z.inj_succ, Z.pow_succ_r by lia. lia.
Qed.

Lemma to_double_pos z : 0 < z < 2 ^ 64 → finite_pos (to_double z) = true.
Proof.
  intros Hz. destruct z as [|p|p]; [lia| |lia]. unfold to_double, binary_normalize, binary_round, shl_align.
  destruct (zdigits2_bounds (Z.pos p) ltac:(lia)) as [[_ Hd] Hp]. pose proof (zdigits2_le (Z.pos p) 64 ltac:(lia) ltac:(lia)) as H64.
  cbn [Zdigits2] in *. unfold fexp, emin. set (d := Z.pos (digits2_pos p)) in *.
  destruct (Z.max (d + 0 - prec) (3 - emax - prec) - 0) as [|k|k] eqn:Ek; [apply round_aux_finite; lia..|].
  apply round_aux_finite; [|lia]. rewrite iter_xO. split; [lia|].
  apply Z.lt_le_trans with (2 ^ d * 2 ^ Z.pos k); [apply Z.mul_lt_mono_pos_r; lia|]. rewrite <- Z.pow_add_r by lia. apply Z.pow_le_mono_r; lia.
Qed.

Lemma binary_round_nonneg m e : nonneg (binary_round prec emax false m e) = true.
Proof. unfold binary_round. destruct (shl_align _ _ _). apply round_aux_nonneg. lia. Qed.
Lemma to_double_nonneg z : 0 <= z → nonneg (to_double z) = true.
Proof. destruct z as [|p|p]; [done| |lia]. intros _. apply binary_round_nonneg. Qed.

Ltac by_sign x y := destruct x as [[]|[]| |[] ?mx ?ex], y as [[]|[]| |[] ?my ?ey]; try done.

Lemma mul_nonneg x y : nonneg x = true → finite_pos y = true → nonneg (SFmul prec emax x y) = true.
Proof. by_sign x y. intros _ _. by apply round_aux_nonneg. Qed.
Lemma div_nonneg x y : nonneg x = true → finite_pos y = true → nonneg (SFdiv prec emax x y) = true.
Proof.
  by_sign x y. intros _ _. cbn [SFdiv xorb]. unfold SFdiv_core_binary. cbv zeta. set (m := match _ with Z0 => _ | _ => _ end).
  assert (Hm : 0 <= m). { subst m. case_match; [lia|apply Z.shiftl_nonneg; lia|lia]. }
  pose proof (Z.div_pos m (Z.pos my) Hm ltac:(lia)) as Hq. unfold Z.div in Hq.
  destruct (Z.div_eucl m (Z.pos my)) as [q r]. by apply round_aux_nonneg.
Qed.
Lemma add_nonneg x y : nonneg x = true → nonneg y = true → nonneg (SFadd prec emax x y) = true.
Proof. by_sign x y. intros _ _. apply binary_round_nonneg. Qed.
Lemma sum_nonneg l acc : nonneg acc = true → Forall (λ x, nonneg x = true) l → nonneg (foldl (SFadd prec emax) acc l) = true.
Proof. intros Ha Hl. revert acc Ha. induction Hl as [|x l Hx Hl IH]; intros acc Ha; [done|]. apply IH, add_nonneg; done. Qed.

(** *** Order *)

#[local] Instance not_after_total : Total not_after.
Proof.
  intros x y. unfold not_after, SFltb. by_sign x y; cbn [SFcompare]; auto; rewrite (Z.compare_antisym ex ey);
    destruct (ex ?= ey); cbn [CompOpp]; auto; change (Pos.compare_cont Eq) with Pos.compare; rewrite (Pos.compare_antisym mx my);
    destruct (mx ?= my)%positive; cbn; auto.
Qed.

(** On non-negative numbers, ascending is the order [<=]. *)
Lemma not_after_leb x y : nonneg x = true → nonneg y = true → not_after x y ↔ SFleb x y = true.
Proof.
  unfold not_after, SFltb, SFleb. by_sign x y; cbn [SFcompare]. intros _ _. rewrite (Z.compare_antisym ex ey).
  destruct (ex ?= ey); cbn [CompOpp]; try done. change (Pos.compare_cont Eq) with Pos.compare. rewrite (Pos.compare_antisym mx my).
  by destruct (mx ?= my)%positive.
Qed.
Lemma leb_refl x : nonneg x = true → SFleb x x = true.
Proof.
  unfold SFleb. destruct x as [[]|[]| |[] m e]; try done. cbn [SFcompare]. rewrite Z.compare_refl. change (Pos.compare_cont Eq) with Pos.compare.
  by rewrite Pos.compare_refl.
Qed.
Lemma leb_trans x y z : SFleb x y = true → SFleb y z = true → nonneg x = true → nonneg y = true → nonneg z = true → SFleb x z = true.
Proof.
  unfold SFleb. by_sign x y; destruct z as [[]|[]| |[] mz ez]; try done. cbn [SFcompare]. change (Pos.compare_cont Eq) with Pos.compare.
  destruct (Z.compare_spec ex ey), (Z.compare_spec ey ez), (Z.compare_spec ex ez); try lia; try done.
  destruct (Pos.compare_spec mx my), (Pos.compare_spec my mz), (Pos.compare_spec mx mz); try lia; done.
Qed.

(** Sortedness under an order that is one on the elements only. *)
Lemma sorted_strongly_on {A} (R : relation A) (P : A → Prop) l : (∀ x y z, P x → P y → P z → R x y → R y z → R x z) →
  Forall P l → Sorted R l → StronglySorted R l.
Proof.
  intros Ht. induction 1 as [|x l Hx Hl IH]; intros Hs; [constructor|]. inversion Hs as [|? ? Hs' Hh]; subst. specialize (IH Hs').
  constructor; [done|]. destruct Hh as [|y l Hxy]; constructor; [done|]. inversion IH as [|? ? _ Hy]; subst. inversion Hl as [|? ? Py Pl]; subst.
  rewrite Forall_forall in *. intros z Hz. apply (Ht x y z); auto.
Qed.
Lemma strongly_sorted_lookup {A} (R : relation A) l i j x y : StronglySorted R l → (i < j)%nat → l !! i = Some x → l !! j = Some y → R x y.
Proof.
  intros Hs Hij Hi Hj. rewrite <- (take_drop j l) in Hs. eapply StronglySorted_app_1_elem_of; [exact Hs|..].
  - apply (list_elem_of_lookup_2 _ i). by rewrite lookup_take_lt.
  - apply (list_elem_of_lookup_2 _ 0). by rewrite lookup_drop, Nat.add_0_r.
Qed.

Lemma filter_all {A} (P : A → Prop) `{∀ x, Decision (P x)} l : Forall P l → filter P l = l.
Proof. induction 1 as [|x l Hx Hl IH]; [done|]. by rewrite filter_cons_True, IH. Qed.

(** ** What the statistics say *)

Definition samples_ok (l : list double) : Prop := Forall (λ x, nonneg x = true) l.
(** How many samples are at most [x]. *)
Definition at_most (l : list double) (x : double) : nat := length (filter (λ y, SFleb y x = true) l).

(** For as many samples as a benchmark takes, the index of the 99th percentile
    is exactly 99 hundredths of their number, rounding notwithstanding. *)
Lemma p99_index n : (1 <= n <= 2000)%nat → to_size (SFmul prec emax (to_double (Z.of_nat n)) c_0_99) = Some (Z.of_nat n * 99 / 100).
Proof.
  intros Hn. assert (Hall : forallb (λ n, bool_decide (to_size (SFmul prec emax (to_double (Z.of_nat n)) c_0_99) = Some (Z.of_nat n * 99 / 100)))
    (seq 1 2000) = true) by (vm_compute; done).
  rewrite forallb_forall in Hall. specialize (Hall n). apply (bool_decide_eq_true_1 _), Hall, in_seq. lia.
Qed.

Section sorted_samples.
Context (l : list double) (Hl : samples_ok l).
Abbreviation sorted := (merge_sort not_after l).

Lemma sorted_perm : sorted ≡ₚ l.
Proof using. apply merge_sort_Permutation. Qed.
Lemma sorted_ok : samples_ok sorted.
Proof using Hl. unfold samples_ok. by rewrite sorted_perm. Qed.
Lemma sorted_nonneg i x : sorted !! i = Some x → nonneg x = true.
Proof using Hl. apply (Forall_lookup_1 (λ x, nonneg x = true) _ _ _ sorted_ok). Qed.
Lemma sorted_le i j x y : (i <= j)%nat → sorted !! i = Some x → sorted !! j = Some y → SFleb x y = true.
Proof using Hl.
  intros Hij Hi Hj. pose proof (sorted_nonneg _ _ Hi) as Hx. pose proof (sorted_nonneg _ _ Hj) as Hy.
  destruct (decide (i = j)) as [->|]; [|apply not_after_leb; [done..|]].
  { rewrite Hi in Hj. injection Hj as <-. by apply leb_refl. }
  eapply (strongly_sorted_lookup _ sorted i j); [|lia|done..]. apply (sorted_strongly_on not_after (λ x, nonneg x = true)); [|apply sorted_ok|apply Sorted_merge_sort, _].
  intros a b c Ha Hb Hc. rewrite !not_after_leb by done. intros. by eapply (leb_trans a b c).
Qed.
Lemma sorted_ascending : StronglySorted (λ x y, SFleb x y = true) sorted.
Proof using Hl.
  assert (Hs : StronglySorted not_after sorted).
  { apply (sorted_strongly_on not_after (λ x, nonneg x = true)); [|apply sorted_ok|apply Sorted_merge_sort, _].
    intros a b c Ha Hb Hc. rewrite !not_after_leb by done. intros. by eapply (leb_trans a b c). }
  pose proof sorted_ok as Hok. unfold samples_ok in Hok. induction Hs as [|x t Hs IH Hx]; [constructor|].
  apply Forall_cons in Hok as [Hxn Hok]. constructor; [by apply IH|].
  rewrite Forall_forall in Hx, Hok |- *. intros y Hy. apply not_after_leb; auto.
Qed.
Lemma sorted_in i x : sorted !! i = Some x → x ∈ l.
Proof using. intros Hi. rewrite <- sorted_perm. by eapply list_elem_of_lookup_2. Qed.

Lemma sorted_at_most i x : sorted !! i = Some x → (S i <= at_most l x)%nat.
Proof using Hl.
  intros Hi. unfold at_most. rewrite <- sorted_perm, <- (take_drop (S i) sorted), filter_app, length_app.
  pose proof (lookup_lt_Some _ _ _ Hi). assert (Hf : Forall (λ y, SFleb y x = true) (take (S i) sorted)).
  { apply Forall_lookup_2. intros j y Hj. apply lookup_take_Some in Hj as [Hj ?]. apply (sorted_le j i); [lia|done..]. }
  rewrite (filter_all _ _ Hf), length_take. lia.
Qed.
End sorted_samples.

(** What the fields of the statistics mean, for samples none of which is
    negative or a NaN.  In ascending order, the smallest comes first and the
    largest last, the percentiles stand half and 99 hundredths of the way up,
    and the mean is the sum in that order, rounded at every step, over the
    number of samples.  So every sample lies between the extremes, and more
    than half of them and more than 99 in 100 are at most the percentiles. *)
Record describes (s : stats) (l : list double) : Prop := {
  ds_samples : samples_ok l;
  ds_exact : ∃ ascending, ascending ≡ₚ l ∧ StronglySorted (λ x y, SFleb x y = true) ascending ∧
    ascending !! 0%nat = Some (min_ns s) ∧ last ascending = Some (max_ns s) ∧
    ascending !! (length l / 2)%nat = Some (p50_ns s) ∧ ascending !! (length l * 99 / 100)%nat = Some (p99_ns s) ∧
    mean_ns s = SFdiv prec emax (foldl (SFadd prec emax) (S754_zero false) ascending) (to_double (Z.of_nat (length l)));
  ds_order : SFleb (min_ns s) (p50_ns s) = true ∧ SFleb (p50_ns s) (p99_ns s) = true ∧ SFleb (p99_ns s) (max_ns s) = true;
  ds_extremes x : x ∈ l → SFleb (min_ns s) x = true ∧ SFleb x (max_ns s) = true;
  ds_p50 : (length l < 2 * at_most l (p50_ns s))%nat;
  ds_p99 : (99 * length l < 100 * at_most l (p99_ns s))%nat;
  ds_mean : nonneg (mean_ns s) = true }.

(** Of any one to 2000 samples that are numbers and not negative, no element
    past the end is read and no conversion is undefined. *)
Lemma compute_stats_correct l : samples_ok l → (1 <= length l <= 2000)%nat → ∃ s, compute_stats l = Some s ∧ describes s l.
Proof.
  intros Hl Hn. unfold compute_stats. pose proof (Permutation_length (sorted_perm l)) as Hlen. set (t := merge_sort not_after l) in *. rewrite Hlen.
  set (n := length l) in *. set (k := Z.to_nat (Z.of_nat n * 99 / 100)).
  assert (Hk : (n / 2 <= k < n)%nat ∧ (99 * n < 100 * S k)%nat).
  { pose proof (Nat.div_mod_eq n 2). pose proof (Nat.mod_upper_bound n 2). pose proof (Z.div_mod (Z.of_nat n * 99) 100).
    pose proof (Z.mod_pos_bound (Z.of_nat n * 99) 100). lia. }
  pose proof (Nat.div_mod_eq n 2) as Hd. pose proof (Nat.mod_upper_bound n 2) as Hm.
  destruct (lookup_lt_is_Some_2 t 0) as [lo H0]; [lia|]. destruct (lookup_lt_is_Some_2 t (n - 1)) as [hi H1]; [lia|].
  destruct (lookup_lt_is_Some_2 t (n / 2)) as [p50 H2]; [lia|]. destruct (lookup_lt_is_Some_2 t k) as [p99 H3]; [lia|].
  rewrite H0, H1, H2, p99_index by done. cbn [mbind option_bind]. fold k. rewrite H3. eexists. split; [done|].
  split; cbn [min_ns p50_ns p99_ns max_ns mean_ns].
  - done.
  - exists t. split_and!; try done; [apply (sorted_perm l)|by apply sorted_ascending| |].
    + by rewrite last_lookup, Hlen, <- Nat.sub_1_r.
    + fold n. assert (n * 99 / 100 = k)%nat as ->; [|done]. unfold k. rewrite <- (Nat2Z.id (n * 99 / 100)), Nat2Z.inj_div, Nat2Z.inj_mul. done.
  - split_and!; [apply (sorted_le l Hl 0 (n / 2))|apply (sorted_le l Hl (n / 2) k)|apply (sorted_le l Hl k (n - 1))]; try done; lia.
  - intros x Hx. rewrite <- (sorted_perm l) in Hx. apply list_elem_of_lookup in Hx as [i Hi].
    fold t in Hi. pose proof (lookup_lt_Some _ _ _ Hi). split; [apply (sorted_le l Hl 0 i)|apply (sorted_le l Hl i (n - 1))]; try done; lia.
  - pose proof (sorted_at_most l Hl _ _ H2). lia.
  - pose proof (sorted_at_most l Hl _ _ H3). lia.
  - apply div_nonneg; [apply sum_nonneg; [done|by apply (sorted_ok l)]|apply to_double_pos; lia].
Qed.
