(* ===== verification/Bench.v ===== *)
(** * The benchmark programs and easy_usage.cpp, from start to exit

    The timing loop of benchmarks/bench_library.cpp and bench_bare_dpdk.cpp, the
    numbers it yields, and the [main]s of both and of
    the two examples easy_usage.cpp and advanced_usage.cpp: set-up, loops and
    every way out.  The process is one state [W], which the device, EAL, pool
    and burst calls all work on. *)

From Stdlib Require Import SpecFloat.
From stdpp Require Import strings pretty.
From S2P Require Import Prelude Dpdk DpdkSim Packet Port Runtime Pool Usage Stats.

(** The cycle counter, and its frequency. *)
Class Clock (W : Type) := { rte_rdtsc : W → Z * W; rte_get_tsc_hz : W → Z }.
Class ClockLaws (W : Type) `{Clock W} : Prop := {
  hz_range w : 0 < rte_get_tsc_hz w < 2 ^ 64 }.

(** ** Timing *)

Definition kWarmupBatches : nat := 20.
Definition kNumBatches : nat := 2000.
Definition kBatchSize : nat := 100.

Section timing.
Context {W : Type} `{Clock W}.

(** [for (int i = 0; i < n; ++i) body();] *)
Fixpoint repeat_trips (n : nat) (body : W → outcome W) (w : W) : outcome W :=
  match n with
  | O => finished w
  | S n => match body w with finished w => repeat_trips n body w | res => res end
  end.

Definition batch_sample (hz t0 t1 : Z) : double :=
  let batch_ns := SFdiv prec emax (SFmul prec emax (to_double (u64 (t1 - t0))) (to_double 1000000000)) (to_double hz) in
  SFdiv prec emax batch_ns (to_double (Z.of_nat kBatchSize)).

Fixpoint timed_batches (n : nat) (hz : Z) (trip : W → outcome W) (per_batch_ns : list double) (w : W) : list double * outcome W :=
  match n with
  | O => (per_batch_ns, finished w)
  | S n =>
    let '(t0, w) := rte_rdtsc w in
    match repeat_trips kBatchSize trip w with
    | finished w => let '(t1, w) := rte_rdtsc w in timed_batches n hz trip (per_batch_ns ++ [batch_sample hz t0 t1]) w
    | res => (per_batch_ns, res)
    end
  end.

(** The samples, and how it ended. *)
Definition run_batched (hz : Z) (trip : W → outcome W) (w : W) : list double * outcome W :=
  match repeat_trips kWarmupBatches (repeat_trips kBatchSize trip) w with
  | finished w => timed_batches kNumBatches hz trip [] w
  | res => ([], res)
  end.

(** [run_batched], [compute_stats] and [print_stats]: what is printed; an access
    out of bounds counts as a null write. *)
Definition bench (label : string) (hz : Z) (trip : W → outcome W) (w : W) : list (string * stats) * outcome W :=
  let '(samples, res) := run_batched hz trip w in
  match res with
  | finished w => match compute_stats samples with Some s => ([(label, s)], finished w) | None => ([], null_write) end
  | res => ([], res)
  end.
End timing.

(** ** Programs *)

(** The process exits, its loop is still running after the allotted turns, or
    it has done something undefined. *)
Inductive ended (W : Type) := exit_with (code : Z) (st : bool * W) | running (w : W) | undefined.
Arguments exit_with {W}. Arguments running {W}. Arguments undefined {W}.

Section programs.
Context {W : Type} `{EthDev W} `{EalOps W} `{MempoolOps W} `{DpdkOps W} `{Clock W}.

(** [runtime] and [runtime.add_port(0, 1, 1)], then [body] on the port; a
    failure is caught and reported with exit code 1. *)
Definition with_port (params : runtime_params) (st : bool * W) (body : port → W → list (string * stats) * ended W)
    : list (string * stats) * ended W :=
  let '(rt, (g, w)) := runtime_new params st in
  match rt with
  | inl _ => ([], exit_with 1 (g, w))
  | inr _ =>
    let add := Add_default 0 1 1 2048 in
    let s := pool_step add (Owners [] [], w) in
    if throws add (Owners [] [], w) then ([], exit_with 1 (false, leave_block s))
    else match o_ports s.1 with eth0 :: _ => body eth0 s.2 | [] => ([], undefined) end
  end.

(** The end of the try block, or of the way to its handler. *)
Definition leave_main (code : Z) (eth0 : port) (w : W) : ended W := exit_with code (false, leave_block (Owners [eth0] [], w)).

(** A loop that has been left by an exception, that goes on, or that broke. *)
Definition broken_off (eth0 : port) (res : outcome W) : ended W :=
  match res with
  | thrown w => leave_main 1 eth0 w
  | polling w => running w
  | finished _ | null_write => undefined
  end.

(** bench_library.cpp: its two blocks.  The pointer to the pool goes at the end
    of each block and when an exception leaves it. *)
Definition library_body (turns : nat) (eth0 : port) (w : W) : list (string * stats) * ended W :=
  let hz := rte_get_tsc_hz w in
  let '(rxq, rx) := claim_next (port_rx eth0) in
  let '(txq, tx) := claim_next (port_tx eth0) in
  let eth0 := set_port_tx (set_port_rx eth0 rx) tx in
  match rxq, txq, port_pool_ eth0 with
  | Some rxq, Some txq, Some pool =>
    let end_block w := drop_pool (Some pool) (all_owners (Owners [eth0] [])) w in
    let out res := match res with thrown w => thrown (end_block w) | res => res end in
    let '(direct, res) := bench "library_direct" hz (round_trip_direct turns pool rxq txq) w in
    match res with
    | finished w =>
      let '(forwarding, res) := bench "library_port_forwarding" hz (round_trip_forwarding turns pool eth0) (end_block w) in
      match res with
      | finished w => (direct ++ forwarding, leave_main 0 eth0 (end_block w))
      | res => (direct, broken_off eth0 (out res))
      end
    | res => ([], broken_off eth0 (out res))
    end
  | _, _, _ => ([], undefined)
  end.
Definition bench_library_main (turns : nat) (params : runtime_params) (st : bool * W) : list (string * stats) * ended W :=
  with_port params st (library_body turns).

(** easy_usage.cpp, after [turns] turns of its endless loop. *)
Fixpoint easy_loop (turns : nat) (eth0 : port) (w : W) : outcome W :=
  match turns with
  | O => polling w
  | S turns => match easy_turn eth0 w with finished w => easy_loop turns eth0 w | res => res end
  end.
Definition easy_main (turns : nat) (params : runtime_params) (st : bool * W) : ended W :=
  (with_port params st (λ eth0 w, ([], broken_off eth0 (easy_loop turns eth0 w)))).2.

(** advanced_usage.cpp.  The workers run on threads of their own until they see
    [g_stop]: [schedule] says whose turn comes next.  The scratch packets are
    destroyed first, then the pointers to the pools, then the runtime. *)
Definition workers_run (workers : list (queue * option queue)) (schedule : list nat) (w : W) : W :=
  foldl (λ w i, match workers !! i with Some (rxq, Some txq) => worker_turn rxq txq w | _ => w end) w schedule.

Definition advanced_body (schedule : list nat) (s : Pool.owners * W) : ended W :=
  match o_ports s.1 !! 0%nat, o_handles s.1 !! 1%nat, o_handles s.1 !! 2%nat with
  | Some eth0, Some (Some small_pool), Some (Some jumbo_pool) =>
    let '(ctrl_pkt, w) := pool_get small_pool s.2 in
    let '(bulk_pkt, w) := pool_get jumbo_pool w in
    match ctrl_pkt, bulk_pkt with
    | Some _, Some _ =>
      match claim_workers (S (Z.to_nat kNumQueues)) (port_rx eth0) (port_tx eth0) [] with
      | None => undefined
      | Some (workers, _, _) =>
        let w := workers_run workers schedule w in
        exit_with 0 (false, leave_block (s.1, packet_dtor ctrl_pkt (packet_dtor bulk_pkt w)))
      end
    | _, _ => undefined
    end
  | _, _, _ => undefined
  end.

Definition advanced_main (schedule : list nat) (params : runtime_params) (socket : Z) (st : bool * W) : ended W * list Z :=
  let '(rt, (g, w)) := runtime_new params st in
  match rt with
  | inl _ => (exit_with 1 (g, w), [])
  | inr _ =>
    let '(failed, s, made) := run_until (advanced_ops socket) (Owners [] [], w) [] in
    (if failed then exit_with 1 (false, leave_block s) else advanced_body schedule s, made)
  end.

(** bench_bare_dpdk.cpp. *)
Definition kNumMbufs : Z := 8192.
Definition kEltSize : Z := 2048.
Definition bare_main (turns : nat) (argv : list string) (socket : Z) (w : W) : list (string * stats) * ended W :=
  let '(ret, w) := eal_init argv w in
  if ret <? 0 then ([], exit_with 1 (false, w))
  else
    let '(pool, w) := pool_create "BARE_DPDK_POOL" kNumMbufs 256 kEltSize socket w in
    match pool with
    | None => ([], exit_with 1 (false, w))
    | Some pool =>
      let '(ok, w) := setup_port pool w in
      if negb ok then ([], exit_with 1 (false, w))
      else
        let '(reports, res) := bench "bare_dpdk" (rte_get_tsc_hz w) (round_trip turns pool) w in
        match res with
        | finished w => (reports, exit_with 0 (false, eal_cleanup (dev_close kPortId (dev_stop kPortId w))))
        | polling w => ([], running w)
        | thrown _ | null_write => ([], undefined)
        end
    end.
End programs.

(** ** The timing loop *)

Section timing_proofs.
Context {W : Type} `{Clock W}.

(** What every trip and the clock keep, the loops keep. *)
Definition keeps (P : W → Prop) (res : outcome W) : Prop :=
  match res with finished w | polling w | thrown w => P w | null_write => True end.

Lemma repeat_keeps (P : W → Prop) n body w : (∀ w, P w → keeps P (body w)) → P w → keeps P (repeat_trips n body w).
Proof using.
  intros Hb. revert w. induction n as [|n IH]; intros w Hw; cbn [repeat_trips]; [done|]. specialize (Hb w Hw). destruct (body w); auto.
Qed.
Lemma timed_keeps (P : W → Prop) n hz trip acc w : (∀ w, P w → keeps P (trip w)) → (∀ w, P w → P (rte_rdtsc w).2) → P w →
  keeps P (timed_batches n hz trip acc w).2.
Proof using.
  intros Ht Hc. revert acc w. induction n as [|n IH]; intros acc w Hw; cbn [timed_batches]; [done|].
  pose proof (Hc w Hw) as H1. destruct (rte_rdtsc w) as [t0 w1]. cbn [snd] in H1. pose proof (repeat_keeps P kBatchSize trip w1 Ht H1) as H2.
  destruct (repeat_trips _ _ w1) as [w2| | |]; [|done..]. pose proof (Hc w2 H2) as H3. destruct (rte_rdtsc w2) as [t1 w3]. by apply IH.
Qed.
Lemma bench_keeps (P : W → Prop) label hz trip w : (∀ w, P w → keeps P (trip w)) → (∀ w, P w → P (rte_rdtsc w).2) → P w →
  keeps P (bench label hz trip w).2.
Proof using.
  intros Ht Hc Hw. unfold bench, run_batched.
  pose proof (repeat_keeps P kWarmupBatches (repeat_trips kBatchSize trip) w (λ w Hw, repeat_keeps P _ trip w Ht Hw) Hw) as H1.
  destruct (repeat_trips _ _ w) as [w1| | |]; [|done..]. pose proof (timed_keeps P kNumBatches hz trip [] w1 Ht Hc H1) as H2.
  destruct (timed_batches _ _ _ _ _) as [l [w2| | |]]; [|done..]. by destruct (compute_stats l).
Qed.
End timing_proofs.

(** Every sample is a number and not negative, whatever the counter shows. *)
Lemma batch_sample_ok hz t0 t1 : 0 < hz < 2 ^ 64 → nonneg (batch_sample hz t0 t1) = true.
Proof.
  intros Hz. unfold batch_sample. apply div_nonneg; [|by apply to_double_pos]. apply div_nonneg; [|by apply to_double_pos].
  apply mul_nonneg; [|by apply to_double_pos]. apply to_double_nonneg. unfold u64. apply Z.mod_pos_bound. lia.
Qed.

Section sample_proofs.
Context {W : Type} `{Clock W}.

Lemma timed_samples n hz trip acc (w : W) : 0 < hz < 2 ^ 64 → samples_ok acc →
  samples_ok (timed_batches n hz trip acc w).1 ∧
  ∀ w', (timed_batches n hz trip acc w).2 = finished w' → length (timed_batches n hz trip acc w).1 = (length acc + n)%nat.
Proof using.
  intros Hz. revert acc w. induction n as [|n IH]; intros acc w Ha; cbn [timed_batches]; [split; [done|]; cbn [fst]; lia|].
  destruct (rte_rdtsc w) as [t0 w1]. destruct (repeat_trips _ _ w1) as [w2| | |]; [|done..]. destruct (rte_rdtsc w2) as [t1 w3].
  destruct (IH (acc ++ [batch_sample hz t0 t1]) w3) as [H1 H2]; [|split; [done|]].
  - apply Forall_app_2; [done|]. constructor; [by apply batch_sample_ok|constructor].
  - intros w' Hw. rewrite (H2 _ Hw), length_app. cbn [length]. lia.
Qed.

(** A loop that does not come to its end stops where a trip did. *)
Definition stops (trip : W → outcome W) (res : outcome W) : Prop := (∃ w, res = finished w) ∨ ∃ w, trip w = res.

Lemma repeat_stops n body (w : W) : stops body (repeat_trips n body w).
Proof using.
  revert w. induction n as [|n IH]; intros w; cbn [repeat_trips]; [left; eauto|]. destruct (body w) eqn:Eb; [apply IH|right; eauto..].
Qed.
Lemma timed_stops n hz trip acc (w : W) : stops trip (timed_batches n hz trip acc w).2.
Proof using.
  revert acc w. induction n as [|n IH]; intros acc w; cbn [timed_batches]; [left; eauto|]. destruct (rte_rdtsc w) as [t0 w1].
  pose proof (repeat_stops kBatchSize trip w1) as Hr. destruct (repeat_trips _ _ w1) as [w2| | |]; cbn [snd]; [|done..].
  destruct (rte_rdtsc w2) as [t1 w3]. apply IH.
Qed.
Lemma warm_up_stops n trip (w : W) : stops trip (repeat_trips n (repeat_trips kBatchSize trip) w).
Proof using. destruct (repeat_stops n (repeat_trips kBatchSize trip) w) as [[w' ->]|[w' <-]]; [left; eauto|apply repeat_stops]. Qed.

(** [n] round trips, one after the other. *)
Inductive trips (trip : W → outcome W) : nat → W → W → Prop :=
  | trips_none w : trips trip 0 w w
  | trips_more n w w1 w2 : trip w = finished w1 → trips trip n w1 w2 → trips trip (S n) w w2.
(** Batches of [kBatchSize] round trips, each between the reading of the counter
    that starts it and the one that stops it. *)
Inductive bracketed (trip : W → outcome W) : list (Z * Z) → W → W → Prop :=
  | bracketed_none w : bracketed trip [] w w
  | bracketed_more start stop l w w1 w2 w3 w4 : rte_rdtsc w = (start, w1) → trips trip kBatchSize w1 w2 → rte_rdtsc w2 = (stop, w3) →
      bracketed trip l w3 w4 → bracketed trip ((start, stop) :: l) w w4.
(** The nanoseconds per round trip of a batch that took [ticks]. *)
Definition ns_per_trip (hz ticks : Z) : double :=
  let over := SFdiv prec emax in
  over (over (SFmul prec emax (to_double ticks) (to_double 1000000000)) (to_double hz)) (to_double 100).

(** What a benchmark prints: the statistics of its 2000 batches, timed after
    2000 round trips of warm-up. *)
Definition reported (hz : Z) (trip : W → outcome W) (label : string) (r : string * stats) (w w' : W) : Prop :=
  r.1 = label ∧ ∃ warm batches, trips trip 2000 w warm ∧ bracketed trip batches warm w' ∧ length batches = 2000%nat ∧
    describes r.2 ((λ b, ns_per_trip hz (u64 (b.2 - b.1))) <$> batches).

Lemma repeat_trips_all n trip (w w' : W) : repeat_trips n trip w = finished w' → trips trip n w w'.
Proof using.
  revert w. induction n as [|n IH]; intros w; cbn [repeat_trips]; [intros [= ->]; constructor|].
  destruct (trip w) eqn:Ew; try done. intros Hr. econstructor; eauto.
Qed.
Lemma trips_app trip n m (w w1 w2 : W) : trips trip n w w1 → trips trip m w1 w2 → trips trip (n + m) w w2.
Proof using. induction 1; intros; cbn [Nat.add]; [done|]. econstructor; eauto. Qed.
Lemma warm_up_all n m trip (w w' : W) : repeat_trips n (repeat_trips m trip) w = finished w' → trips trip (n * m) w w'.
Proof using.
  revert w. induction n as [|n IH]; intros w; cbn [repeat_trips Nat.mul]; [intros [= ->]; constructor|].
  destruct (repeat_trips m trip w) eqn:Ew; try done. intros Hr. eapply trips_app; [by apply repeat_trips_all|by apply IH].
Qed.
Lemma timed_brackets n hz trip acc (w w' : W) : (timed_batches n hz trip acc w).2 = finished w' →
  ∃ l, bracketed trip l w w' ∧ length l = n ∧
    (timed_batches n hz trip acc w).1 = acc ++ ((λ b, ns_per_trip hz (u64 (b.2 - b.1))) <$> l).
Proof using.
  revert acc w. induction n as [|n IH]; intros acc w; cbn [timed_batches].
  { intros [= ->]. exists []. split_and!; [constructor|done|by rewrite app_nil_r]. }
  destruct (rte_rdtsc w) as [t0 w1] eqn:E0. destruct (repeat_trips _ _ w1) as [w2| | |] eqn:Er; try done.
  destruct (rte_rdtsc w2) as [t1 w3] eqn:E1. intros Hr. destruct (IH _ _ Hr) as (l & Hb & Hl & ->). exists ((t0, t1) :: l).
  split_and!; [|cbn; lia|by rewrite <- app_assoc]. econstructor; try done. by apply repeat_trips_all.
Qed.

(** One benchmark: it breaks only where a trip does, and if it comes to its end
    it prints what [kNumBatches] samples give. *)
Lemma bench_cases label hz trip (w : W) : 0 < hz < 2 ^ 64 →
  let '(reports, res) := bench label hz trip w in
  match res with
  | finished w' => ∃ r, reports = [r] ∧ reported hz trip label r w w'
  | _ => reports = [] ∧ ∃ w, trip w = res
  end.
Proof using.
  intros Hz. unfold bench, run_batched. pose proof (warm_up_stops kWarmupBatches trip w) as Hs.
  destruct (repeat_trips kWarmupBatches _ w) as [w1| | |] eqn:Ew; [|by destruct Hs as [[? ?]|?]..]. apply warm_up_all in Ew.
  pose proof (timed_brackets kNumBatches hz trip [] w1) as Hb.
  destruct (timed_samples kNumBatches hz trip [] w1 Hz) as [H1 H2]; [constructor|]. pose proof (timed_stops kNumBatches hz trip [] w1) as H3.
  destruct (timed_batches _ _ _ _ _) as [l [w2| | |]]; cbn [fst snd] in *; [|by destruct H3 as [[? ?]|?]..].
  specialize (H2 w2 eq_refl). cbn [length Nat.add] in H2. destruct (compute_stats_correct l) as (s & Hc & Hd); [done|rewrite H2; unfold kNumBatches; lia|].
  rewrite Hc. destruct (Hb w2 eq_refl) as (bs & Hbs & Hlb & ->). exists (label, s). split; [done|]. split; [done|]. by exists w1, bs.
Qed.

(** If every trip comes back, so does the benchmark. *)
Lemma repeat_ends (P : W → Prop) n body w : (∀ w, P w → ∃ w', body w = finished w' ∧ P w') → P w →
  ∃ w', repeat_trips n body w = finished w' ∧ P w'.
Proof using.
  intros Hb. revert w. induction n as [|n IH]; intros w Hw; cbn [repeat_trips]; [eauto|]. destruct (Hb w Hw) as (w' & -> & Hw'). auto.
Qed.
Lemma timed_ends (P : W → Prop) n hz trip acc w : (∀ w, P w → ∃ w', trip w = finished w' ∧ P w') → (∀ w, P w → P (rte_rdtsc w).2) → P w →
  ∃ w', (timed_batches n hz trip acc w).2 = finished w' ∧ P w'.
Proof using.
  intros Ht Hc. revert acc w. induction n as [|n IH]; intros acc w Hw; cbn [timed_batches]; [eauto|].
  pose proof (Hc w Hw) as H1. destruct (rte_rdtsc w) as [t0 w1]. cbn [snd] in H1. destruct (repeat_ends P kBatchSize trip w1 Ht H1) as (w2 & -> & H2).
  pose proof (Hc w2 H2) as H3. destruct (rte_rdtsc w2) as [t1 w3]. by apply IH.
Qed.
Lemma bench_ends (P : W → Prop) label hz trip w : 0 < hz < 2 ^ 64 → (∀ w, P w → ∃ w', trip w = finished w' ∧ P w') →
  (∀ w, P w → P (rte_rdtsc w).2) → P w → ∃ w', (bench label hz trip w).2 = finished w' ∧ P w'.
Proof using.
  intros Hz Ht Hc Hw. unfold bench, run_batched.
  destruct (repeat_ends P kWarmupBatches (repeat_trips kBatchSize trip) w (λ w Hw, repeat_ends P _ trip w Ht Hw) Hw) as (w1 & -> & H1).
  destruct (timed_ends P kNumBatches hz trip [] w1 Ht Hc H1) as (w2 & E2 & H2). destruct (timed_samples kNumBatches hz trip [] w1 Hz) as [S1 S2]; [constructor|].
  specialize (S2 _ E2). destruct (timed_batches _ _ _ _ _) as [l res]. cbn [fst snd] in *. subst res. exists w2.
  destruct (compute_stats_correct l) as (s & -> & _); [done|rewrite S2; unfold kNumBatches; cbn; lia|done].
Qed.
End sample_proofs.

(** ** What the burst and mbuf calls keep, the round trips keep *)

Section trips.
Context {W : Type} `{DpdkOps W} (P : W → Prop).
Context (Palloc : ∀ pool w, P w → P (rte_pktmbuf_alloc pool w).2) (Pfree : ∀ m w, P w → P (rte_pktmbuf_free m w)).
Context (Prx : ∀ p q k w, P w → P (rte_eth_rx_burst p q k w).2) (Ptx : ∀ p q ms w, P w → P (rte_eth_tx_burst p q ms w).2).

Lemma dtor_keeps b w : P w → P (burst_dtor b w).
Proof using Pfree. unfold burst_dtor. revert w. induction b as [|[m|] b IH]; intros w Hw; cbn [foldl]; auto. apply IH. by apply Pfree. Qed.
Lemma blank_keeps pool w : P w → P (blank_packet pool w).2.
Proof using Palloc.
  intros Hw. unfold blank_packet, pool_get, get_packet. specialize (Palloc pool w Hw). by destruct (rte_pktmbuf_alloc pool w) as [[m|] w1].
Qed.
Lemma receive_keeps q w : P w → P (receive_burst q burst_max_size w).2.
Proof using Prx. intros Hw. rewrite receive_burst_all. specialize (Prx (q_port q) (q_id q) burst_max_size w Hw). by destruct (rte_eth_rx_burst _ _ _ w). Qed.
Lemma send_keeps q ms w : P w → P (send_burst q ms w).2.
Proof using Ptx. intros Hw. unfold send_burst. specialize (Ptx (q_port q) (q_id q) (take (Z.to_nat (u16 (Z.of_nat (length ms)))) ms) w Hw). by destruct (rte_eth_tx_burst _ _ _ w). Qed.

Lemma wait_keeps turns q b w : P w → keeps P (receive_wait turns q b w).
Proof using Pfree Prx.
  revert b w. induction turns as [|t IH]; intros [|p b] w Hw; [done|by apply dtor_keeps| |by apply dtor_keeps].
  rewrite receive_wait_step. pose proof (receive_keeps q w Hw) as H1. destruct (receive_burst _ _ w) as [b w1]. by apply IH.
Qed.
Lemma direct_keeps turns pool rxq txq w : P w → keeps P (round_trip_direct turns pool rxq txq w).
Proof using All.
  intros Hw. unfold round_trip_direct. pose proof (blank_keeps pool w Hw) as H1. destruct (blank_packet pool w) as [[m|] w1]; [|done].
  pose proof (send_keeps txq [m] w1 H1) as H2. destruct (send_burst txq [m] w1) as [[n rest] w2].
  pose proof (receive_keeps rxq w2 H2) as H3. destruct (receive_burst rxq _ w2) as [b w3].
  pose proof (wait_keeps turns rxq b w3 H3) as H4. destruct (receive_wait _ _ _ w3); cbn [leave keeps] in *; auto using dtor_keeps.
Qed.
Lemma bare_keeps turns pool w : P w → keeps P (round_trip turns pool w).
Proof using All.
  intros Hw. unfold round_trip. pose proof (Palloc pool w Hw) as H1. destruct (rte_pktmbuf_alloc pool w) as [[m|] w1]; [|done].
  destruct (rte_pktmbuf_append m kPayloadLen); [|done]. match goal with |- context [rte_eth_tx_burst _ _ ?l w1] => pose proof (Ptx kPortId 0 l w1 H1) as H2 end.
  destruct (rte_eth_tx_burst _ _ _ w1) as [n w2]. cbn [snd] in H2. clear -Pfree Prx H2. revert w2 H2.
  induction turns as [|t IH]; intros w Hw; cbn [bare_wait]; [done|]. pose proof (Prx kPortId 0 8 w Hw) as H3.
  destruct (rte_eth_rx_burst _ _ _ w) as [[|x l] w3]; [by apply IH|]. rewrite <- burst_dtor_some. by apply dtor_keeps.
Qed.
Lemma worker_keeps rxq txq w : P w → P (worker_turn rxq txq w).
Proof using All.
  intros Hw. unfold worker_turn. pose proof (receive_keeps rxq w Hw) as H1. destruct (receive_burst rxq _ w) as [[|x b] w1]; [done|].
  pose proof (send_keeps txq (omap id (x :: b)) w1 H1) as H2. destruct (send_burst txq _ w1) as [[n rest] w2]. by apply dtor_keeps.
Qed.
End trips.

(** Only an mbuf that could not be had, or that has no room, breaks a trip. *)
Lemma wait_ends {W} `{DpdkOps W} turns q b (w : W) : ∃ w', receive_wait turns q b w = finished w' ∨ receive_wait turns q b w = polling w'.
Proof.
  revert b w. induction turns as [|t IH]; intros [|p b] w; [by exists w; right|by eexists; left| |by eexists; left].
  rewrite receive_wait_step. destruct (receive_burst _ _ w). apply IH.
Qed.
Lemma direct_cases {W} `{DpdkOps W} turns pool rxq txq (w : W) :
  match round_trip_direct turns pool rxq txq w with
  | finished _ | polling _ => True | thrown _ => False | null_write => (blank_packet pool w).1 = None
  end.
Proof.
  unfold round_trip_direct. destruct (blank_packet pool w) as [[m|] w1]; [|done]. destruct (send_burst txq [m] w1) as [[n rest] w2].
  destruct (receive_burst rxq _ w2) as [b w3]. by destruct (wait_ends turns rxq b w3) as [w' [-> | ->]].
Qed.

(** ** The mains *)

(** The calls that move packets and read the clock are none of the recorded ones. *)
Class DataTrace (W : Type) `{EthDev W} `{!EthTrace W} `{DpdkOps W} `{Clock W} : Prop := {
  quiet_alloc pool w : calls (rte_pktmbuf_alloc pool w).2 = calls w;
  quiet_free m w : calls (rte_pktmbuf_free m w) = calls w;
  quiet_rx p q k w : calls (rte_eth_rx_burst p q k w).2 = calls w;
  quiet_tx p q ms w : calls (rte_eth_tx_burst p q ms w).2 = calls w;
  quiet_rdtsc w : calls (rte_rdtsc w).2 = calls w }.

Section main_proofs.
Context {W : Type} `{EthDev W} `{!EthTrace W} `{EalOps W} `{!EalTrace W} `{MempoolOps W} `{!MempoolTrace W} `{DpdkOps W}.
Context `{Clock W} `{!ClockLaws W} `{!DataTrace W}.
Abbreviation add := (Add_default 0 1 1 2048).

Lemma add_default_cases (w : W) : let s := pool_step add (Owners [] [], w) in
  if throws add (Owners [] [], w) then s.1 = Owners [] []
  else ∃ pool d p, port_new 0 1 1 pool d = (inr p, s.2) ∧ s.1 = Owners [p] [] ∧ made_by add (Owners [] [], w) = Some pool.
Proof using.
  cbn [pool_step throws made_by snd]. destruct (make_default_pool 0 2048 w) as [[e|pool] d]; cbn [fst snd]; [done|].
  rewrite add_with_eq. destruct (port_new 0 1 1 pool d) as [[e|p] d'] eqn:Ep; cbn; [done|]. by exists pool, d, p.
Qed.

Abbreviation calls_are c := (λ w, calls w = c).

Lemma bench_quiet c label hz trip (w : W) : (∀ w, calls w = c → keeps (calls_are c) (trip w)) → calls w = c →
  keeps (calls_are c) (bench label hz trip w).2.
Proof using DataTrace0. intros Ht. apply (bench_keeps (calls_are c)); [done|]. intros w1 <-. apply quiet_rdtsc. Qed.
Lemma direct_quiet c turns pool rxq txq (w : W) : calls w = c → keeps (calls_are c) (round_trip_direct turns pool rxq txq w).
Proof using DataTrace0.
  apply (direct_keeps (calls_are c)); intros; simplify_eq; [apply quiet_alloc|apply quiet_free|apply quiet_rx|apply quiet_tx].
Qed.

Lemma bare_quiet c turns pool (w : W) : calls w = c → keeps (calls_are c) (round_trip turns pool w).
Proof using DataTrace0.
  apply (bare_keeps (calls_are c)); intros; simplify_eq; [apply quiet_alloc|apply quiet_free|apply quiet_rx|apply quiet_tx].
Qed.

(** The queues of a port just brought up, and the port with queue 0 of each
    kind claimed. *)
Lemma one_queue_port pool (d w : W) p : port_new 0 1 1 pool d = (inr p, w) → port_pool_ p = Some pool ∧
  ∃ rx tx, claim_next (port_rx p) = (Some loop_queue, rx) ∧ claim_next (port_tx p) = (Some loop_queue, tx) ∧
    let eth0 := set_port_tx (set_port_rx p rx) tx in
    ∀ turns (w : W), round_trip_forwarding turns pool eth0 w = round_trip_direct turns pool loop_queue loop_queue w.
Proof using EthTrace0.
  intros Hp. split; [by eapply port_new_pool|]. destruct (port_new_queues _ _ _ _ _ _ _ Hp) as [-> ->].
  rewrite !fresh_claimed, !claim_next_to, !ids_lookup. do 2 eexists. split; [done|]. split; [done|]. intros eth0 turns w1.
  apply forwarding_eq; done.
Qed.

(** A benchmark depends on what its trip does only. *)
Lemma bench_ext label hz (f g : W → outcome W) w : (∀ w, f w = g w) → bench label hz f w = bench label hz g w.
Proof using.
  intros Hfg. assert (Hr : ∀ n (f g : W → outcome W) w, (∀ w, f w = g w) → repeat_trips n f w = repeat_trips n g w).
  { clear. intros n f g w Hfg. revert w. induction n as [|n IH]; intros w; cbn [repeat_trips]; [done|]. rewrite Hfg. by destruct (g w). }
  assert (Ht : ∀ n acc w, timed_batches n hz f acc w = timed_batches n hz g acc w).
  { intros n. induction n as [|n IH]; intros acc w1; cbn [timed_batches]; [done|]. destruct (rte_rdtsc w1) as [t0 w2].
    rewrite (Hr _ f g) by done. destruct (repeat_trips _ g w2) as [w3| | |]; [|done..]. destruct (rte_rdtsc w3). apply IH. }
  unfold bench, run_batched. rewrite (Hr kWarmupBatches _ (repeat_trips kBatchSize g)) by (intros; by apply Hr).
  destruct (repeat_trips kWarmupBatches _ w); by rewrite ?Ht.
Qed.

(** The two reports of the library's benchmark, one run after the other. *)
Definition both_reported (turns : nat) (pool : Z) (w : W) (reports : list (string * stats)) : Prop :=
  let trip := round_trip_direct turns pool loop_queue loop_queue in
  let hz := rte_get_tsc_hz w in
  ∃ direct forwarding w1 w2, reports = [direct; forwarding] ∧ reported hz trip "library_direct" direct w w1 ∧
    reported hz trip "library_port_forwarding" forwarding w1 w2.

Lemma library_body_cases turns pool (d w : W) p : port_new 0 1 1 pool d = (inr p, w) →
  let '(reports, res) := library_body turns p w in
  match res with
  | exit_with code (g, w') =>
    code = 0 ∧ g = false ∧ both_reported turns pool w reports ∧
    ∃ t, calls w' = calls w ++ t ++ [c_eal_cleanup] ∧ ∀ x, frees x t = owned_by x [Some pool]
  | running _ => True
  | undefined => ∃ w, (blank_packet pool w).1 = None
  end.
Proof using All.
  intros Hp. destruct (one_queue_port _ _ _ _ Hp) as (Hpool & rx & tx & Hr & Ht & Hf). unfold library_body. rewrite Hr, Ht.
  set (eth0 := set_port_tx _ _) in *. assert (He : port_pool_ eth0 = Some pool) by done. rewrite He.
  assert (Hdrop : ∀ w : W, drop_pool (Some pool) (all_owners (Owners [eth0] [])) w = w).
  { intros w1. unfold drop_pool. rewrite decide_True; [done|]. change (Some pool ∈ [port_pool_ eth0]). rewrite He. by left. }
  pose proof (hz_range w) as Hz. set (hz := rte_get_tsc_hz w) in *. set (trip := round_trip_direct turns pool loop_queue loop_queue) in *.
  assert (Hcases : ∀ label w1, calls w1 = calls w → let '(reports, res) := bench label hz trip w1 in
    match res with finished w2 => calls w2 = calls w ∧ ∃ r, reports = [r] ∧ reported hz trip label r w1 w2
    | polling _ => True | thrown _ => False | null_write => ∃ w, (blank_packet pool w).1 = None end).
  { intros label w1 Hw1. pose proof (bench_cases label hz trip w1 Hz) as Hb.
    pose proof (bench_quiet (calls w) label hz trip w1 (λ w, direct_quiet _ _ _ _ _ w) Hw1) as Hq.
    pose proof (λ w, direct_cases turns pool loop_queue loop_queue w) as Hd. fold trip in Hd.
    destruct (bench label hz trip w1) as [reports [w2| |w2|]]; cbn [snd keeps] in *.
    - by split.
    - done.
    - destruct Hb as [_ [w3 Hw3]]. specialize (Hd w3). by rewrite Hw3 in Hd.
    - destruct Hb as [_ [w3 Hw3]]. exists w3. specialize (Hd w3). by rewrite Hw3 in Hd. }
  pose proof (Hcases "library_direct"%string w eq_refl) as H1'. destruct (bench "library_direct" hz trip w) as [direct [w1| | |]]; [|done..].
  destruct H1' as (Hw1 & r1 & -> & Hr1). rewrite Hdrop, (bench_ext _ _ _ trip) by (intros; apply Hf).
  pose proof (Hcases "library_port_forwarding"%string w1 Hw1) as H2'. destruct (bench "library_port_forwarding" hz trip w1) as [fwd [w2| | |]]; [|done..].
  destruct H2' as (Hw2 & r2 & -> & Hr2). rewrite Hdrop. cbn [leave_main]. split_and!; [done|done|by exists r1, r2, w1, w2|].
  destruct (leave_block_frees (Owners [eth0] [], w2)) as (t & Ht' & Hx). exists t. rewrite Ht'. cbn [snd]. rewrite Hw2. split; [done|]. intros x.
  rewrite Hx. change (owned_by x [port_pool_ eth0] = owned_by x [Some pool]). by rewrite He.
Qed.

Lemma owned_single x p : owned_by x [p] = makes x p.
Proof using.
  pose proof (owned_snoc x [] p) as Ho. cbn [app] in Ho. rewrite Ho. unfold makes, owned_by.
  by rewrite (decide_False (P := Some x ∈ [])) by apply not_elem_of_nil.
Qed.

Lemma library_body_ends (P : W → Prop) turns pool (d w : W) p : port_new 0 1 1 pool d = (inr p, w) →
  (∀ w, P w → ∃ w', round_trip_direct turns pool loop_queue loop_queue w = finished w' ∧ P w') → (∀ w, P w → P (rte_rdtsc w).2) → P w →
  ∃ reports w', library_body turns p w = (reports, exit_with 0 (false, w')).
Proof using EthTrace0 ClockLaws0.
  intros Hp Htrip Hclock Hw. destruct (one_queue_port _ _ _ _ Hp) as (Hpool & rx & tx & Hr & Ht & Hf). unfold library_body. rewrite Hr, Ht.
  set (eth0 := set_port_tx _ _) in *. assert (He : port_pool_ eth0 = Some pool) by done. rewrite He.
  pose proof (hz_range w) as Hz. set (hz := rte_get_tsc_hz w) in *. set (trip := round_trip_direct turns pool loop_queue loop_queue) in *.
  destruct (bench_ends P "library_direct" hz trip w Hz Htrip Hclock Hw) as (w1 & E1 & H1'). destruct (bench "library_direct" hz trip w) as [r1 res1].
  cbn [snd] in E1. subst res1. unfold drop_pool. rewrite decide_True by (change (Some pool ∈ [port_pool_ eth0]); rewrite He; by left).
  rewrite (bench_ext _ _ _ trip) by (intros; apply Hf).
  destruct (bench_ends P "library_port_forwarding" hz trip w1 Hz Htrip Hclock H1') as (w2 & E2 & _).
  destruct (bench "library_port_forwarding" hz trip w1) as [r2 res2]. cbn [snd] in E2. subst res2. eauto.
Qed.

(** Bringing the port up: what is reported, and the calls so far. *)
Lemma with_port_cases params (w : W) body : let '(ret, w1) := eal_init (build_eal_args params) w in
  let s := (Owners [] [], w1) in
  if ret <? 0 then with_port params (false, w) body = ([], exit_with 1 (false, w1)) ∧ calls w1 = calls w ++ [c_eal_init false]
  else if throws add s then ∃ w' t, with_port params (false, w) body = ([], exit_with 1 (false, w')) ∧
    calls w' = calls w ++ [c_eal_init true] ++ t ++ [c_eal_cleanup] ∧ ∀ x, frees x t = makes x (made_by add s)
  else ∃ pool d p w2 t, with_port params (false, w) body = body p w2 ∧ port_new 0 1 1 pool d = (inr p, w2) ∧
    w2 = (pool_step add s).2 ∧
    calls w2 = calls w ++ [c_eal_init true] ++ t ∧ made_by add s = Some pool ∧ ∀ x, frees x t = 0%nat.
Proof using EthTrace0 EalTrace0 MempoolTrace0.
  pose proof (calls_init (build_eal_args params) w) as Hi. unfold with_port, runtime_new. destruct (eal_init _ w) as [ret w1]. cbn [fst snd] in Hi.
  destruct (ret <? 0); cbn [negb] in Hi; [done|]. cbv zeta. set (s := (Owners [] [], w1)).
  assert (Hfresh : ∀ x, made_by add s = Some x → Some x ∉ all_owners s.1) by (intros x _; apply not_elem_of_nil).
  destruct (pool_step_frees add s Hfresh) as (t & Ht & Hx). pose proof (add_default_cases w1) as Hc. fold s in Hc. cbv zeta in Hc.
  change s.2 with w1 in Ht.
  assert (Hnone : ∀ x, owned_by x [] = 0%nat) by (intros x; unfold owned_by; by rewrite decide_False by apply not_elem_of_nil).
  destruct (throws add s).
  - destruct (leave_block_frees (pool_step add s)) as (t' & Ht' & Hx'). exists (leave_block (pool_step add s)), (t ++ t'). split; [done|].
    rewrite Ht', Ht, Hi. rewrite <- !app_assoc. split; [done|]. intros x. specialize (Hx x). rewrite frees_app, Hx', Hc in *.
    change (all_owners (Owners [] [])) with (@nil (option Z)) in *. change (all_owners s.1) with (@nil (option Z)) in Hx. rewrite Hnone in *. lia.
  - destruct Hc as (pool & d & p & Hp & Ho & Hm). rewrite Ho. cbn [o_ports].
    exists pool, d, p, (pool_step add s).2, t. split; [done|]. split; [done|]. split; [done|]. rewrite Ht, Hi, <- !app_assoc. split_and!; try done. intros x. specialize (Hx x).
    rewrite Hm, Ho in Hx. change (all_owners s.1) with (@nil (option Z)) in Hx. rewrite Hnone in Hx.
    change (all_owners (Owners [p] [])) with [port_pool_ p] in Hx. rewrite (port_new_pool _ _ _ _ _ _ _ Hp) in Hx.
    unfold makes, owned_by in Hx. destruct (decide (Some pool = Some x)) as [E|E]; [rewrite E, decide_True in Hx by (by left)|]; lia.
Qed.

(** C36. [bench_library.cpp] cleans up and reports on every way out.  If the EAL does
    not come up it exits with 1 and makes no further call; otherwise the
    clean-up of the EAL is its last call and the pool, if one was made, has been
    freed once.  If the pool or the port cannot be made it exits with 1 and
    prints nothing; after that no exception is possible, and if it exits the
    code is 0 and it has printed, for the direct and then for the forwarding
    calls, the statistics of 2000 batches of 100 round trips that came after
    2000 more of warm-up: of each batch, the ticks between the reading of the
    counter before it and the one after it, in nanoseconds per round trip.  The
    statistics are exactly the extremes, the order statistics and the mean of
    these samples ([Stats.describes]), none of which is negative, and no element
    out of bounds has been read.  Only an mbuf that could not be had leads to
    something undefined.  And if round trips do come back, it does exit. *)
Theorem bench_library_reports turns params (w : W) :
  let '(ret, w1) := eal_init (build_eal_args params) w in
  let s := (Owners [] [], w1) in
  let '(reports, res) := bench_library_main turns params (false, w) in
  match res with
  | exit_with code (g, w') => g = false ∧
    if ret <? 0 then code = 1 ∧ reports = [] ∧ calls w' = calls w ++ [c_eal_init false]
    else (∃ t, calls w' = calls w ++ [c_eal_init true] ++ t ++ [c_eal_cleanup] ∧ ∀ x, frees x t = makes x (made_by add s)) ∧
      if throws add s then code = 1 ∧ reports = []
      else code = 0 ∧ ∃ pool, made_by add s = Some pool ∧ both_reported turns pool (pool_step add s).2 reports
  | running _ => 0 <= ret ∧ throws add s = false
  | undefined => ∃ pool w, (blank_packet pool w).1 = None
  end ∧
  ∀ (P : W → Prop) pool, 0 <= ret → throws add s = false → made_by add s = Some pool → P (pool_step add s).2 →
    (∀ w, P w → ∃ w', round_trip_direct turns pool loop_queue loop_queue w = finished w' ∧ P w') → (∀ w, P w → P (rte_rdtsc w).2) →
    ∃ w', res = exit_with 0 (false, w').
Proof using All.
  pose proof (with_port_cases params w (library_body turns)) as Hc. unfold bench_library_main. destruct (eal_init _ w) as [ret w1]. cbv zeta in *.
  set (s := (Owners [] [], w1)) in *. destruct (Z.ltb_spec ret 0) as [Hr|Hr].
  { destruct Hc as [-> Hc]. split; [done|]. intros. lia. }
  pose proof (add_default_cases w1) as Hd. fold s in Hd. cbv zeta in Hd. destruct (throws add s) eqn:Et.
  { destruct Hc as (w' & t & -> & Hc & Hx). split; [|done]. split; [done|]. split; [by exists t|done]. }
  destruct Hc as (pool & d & p & w2 & t & -> & Hp & Hw2 & Hc & Hm & Hx). pose proof (library_body_cases turns pool d w2 p Hp) as Hb.
  destruct (library_body turns p w2) as [reports res] eqn:Eb. split.
  - destruct res as [code [g w']|w'|]; [|done|by exists pool]. destruct Hb as (-> & -> & Hrep & t' & Ht' & Hx'). split; [done|].
    split; [|split; [done|]; exists pool; by rewrite <- Hw2].
    exists (t ++ t'). rewrite Ht', Hc, <- !app_assoc. split; [done|]. intros x. rewrite frees_app, Hx, Hx', Hm. apply owned_single.
  - intros P pool' _ _ [= <-]%(eq_trans (eq_sym Hm)) HP Ht' Hk. rewrite <- Hw2 in HP. destruct (library_body_ends P turns pool d w2 p Hp Ht' Hk HP) as (rs & w' & E).
    rewrite Eb in E. injection E as -> ->. by exists w'.
Qed.

(** [easy_usage.cpp] gives up only while it sets up: with exit code 1 and, once
    the EAL is up, after its clean-up.  With the port up it never exits and does
    nothing undefined: however many turns it has made, it is still polling, and
    holds no mbuf it did not hold before. *)
Theorem easy_main_runs `{!DpdkLaws W} `{!DpdkAccount W} turns params (w : W) :
  let '(ret, w1) := eal_init (build_eal_args params) w in
  let s := (Owners [] [], w1) in
  match easy_main turns params (false, w) with
  | exit_with code (g, w') => code = 1 ∧ g = false ∧
    if ret <? 0 then calls w' = calls w ++ [c_eal_init false]
    else throws add s = true ∧ ∃ t, calls w' = calls w ++ [c_eal_init true] ++ t ++ [c_eal_cleanup]
  | running w' => 0 <= ret ∧ throws add s = false ∧ held w' = held (pool_step add s).2
  | undefined => False
  end.
Proof using EthTrace0 EalTrace0 MempoolTrace0.
  unfold easy_main. pose proof (with_port_cases params w (λ eth0 w, ([], broken_off eth0 (easy_loop turns eth0 w)))) as Hc.
  destruct (eal_init _ w) as [ret w1]. cbv zeta in *. set (s := (Owners [] [], w1)) in *. destruct (Z.ltb_spec ret 0) as [Hr|Hr]; [by destruct Hc as [-> Hc]|].
  destruct (throws add s). { destruct Hc as (w' & t & -> & Hc & _). by split_and!; [..|exists t]. }
  destruct Hc as (pool & d & p & w2 & t & -> & Hp & <- & _). cbn [snd].
  destruct (port_new_queues _ _ _ _ _ _ _ Hp) as [Hrx Htx].
  assert (Hl : ∀ w : W, ∃ w', easy_loop turns p w = polling w' ∧ held w' = held w).
  { induction turns as [|n IH]; intros w3; cbn [easy_loop]; [by exists w3|].
    destruct (forwarding_eq 0 0 p loop_queue loop_queue w3) as [_ ->]; [by rewrite Hrx|by rewrite Htx|].
    destruct (IH (worker_turn loop_queue loop_queue w3)) as (w4 & -> & Hh). exists w4. by rewrite Hh, worker_turn_held. }
  destruct (Hl w2) as (w3 & -> & Hh). done.
Qed.

Ltac called C := cbn [fst snd]; rewrite C, <- ?app_assoc; eexists; split; [reflexivity|]; split; [by repeat constructor|done].

(** The calls of [setup_port] that succeeds, and that none of them is the
    clean-up of the EAL. *)
Lemma setup_port_calls pool (w : W) : ∃ t, calls (setup_port pool w).2 = calls w ++ t ∧ Forall in_eal t ∧
  ((setup_port pool w).1 = true → t = bring_up kPortId 1 1).
Proof using EthTrace0.
  unfold setup_port. pose proof (calls_configure kPortId 1 1 w) as C1. destruct (dev_configure _ _ _ w) as [r1 w1]. cbn [snd] in C1.
  destruct (negb _); [called C1|]. pose proof (calls_adjust kPortId kRingSize kRingSize w1) as C2. rewrite C1 in C2.
  destruct (dev_adjust_nb_rx_tx_desc _ _ _ w1) as [[[rxd txd]|] w2]; cbn [snd] in C2; [|called C2].
  pose proof (calls_info kPortId w2) as C3. rewrite C2 in C3. destruct (dev_info_get _ w2) as [r3 w3]. cbn [snd] in C3. destruct (negb _); [called C3|].
  pose proof (calls_rx kPortId 0 rxd (dev_socket_id kPortId w3) pool w3) as C4. rewrite C3 in C4.
  destruct (dev_rx_queue_setup _ _ _ _ _ w3) as [r4 w4]. cbn [snd] in C4. destruct (_ <? _); [called C4|].
  pose proof (calls_tx kPortId 0 txd (dev_socket_id kPortId w4) w4) as C5. rewrite C4 in C5.
  destruct (dev_tx_queue_setup _ _ _ _ w4) as [r5 w5]. cbn [snd] in C5. destruct (_ <? _); [called C5|].
  pose proof (calls_start kPortId w5) as C6. rewrite C5 in C6. destruct (dev_start _ w5) as [r6 w6]. cbn [fst snd] in C6.
  cbn [fst snd]. rewrite C6, <- ?app_assoc. eexists. split; [reflexivity|]. split; [by repeat constructor|].
  intros ->%Z.eqb_eq. done.
Qed.

(** [bench_bare_dpdk.cpp]: if it exits with 0 it has printed the statistics of
    2000 samples and cleaned up after itself, the pool excepted; if it exits
    with 1, and the EAL was up, it leaves it up, unlike the library's version. *)
Lemma bare_main_cases turns argv socket (w : W) :
  let '(reports, res) := bare_main turns argv socket w in
  match res with
  | exit_with code (_, w') =>
    code = 0 ∧ (∃ r hz trip w1 w2, reports = [r] ∧ reported hz trip "bare_dpdk" r w1 w2) ∧
      calls w' = calls w ++ [c_eal_init true; c_pool_create] ++ bring_up kPortId 1 1 ++ [c_stop kPortId; c_close kPortId; c_eal_cleanup] ∨
    code = 1 ∧ reports = [] ∧ ∃ ok t, calls w' = calls w ++ [c_eal_init ok] ++ t ∧ Forall in_eal t
  | _ => reports = []
  end.
Proof using EthTrace0 EalTrace0 ClockLaws0 DataTrace0.
  unfold bare_main. pose proof (calls_init argv w) as C1. destruct (eal_init argv w) as [ret w1]. cbn [fst snd] in C1.
  destruct (ret <? 0); cbn [negb] in C1. { right. split_and!; try done. exists false, []. done. }
  pose proof (calls_pool "BARE_DPDK_POOL" kNumMbufs 256 kEltSize socket w1) as C2. rewrite C1, <- app_assoc in C2.
  destruct (pool_create _ _ _ _ _ w1) as [[pool|] w2]; cbn [snd] in C2.
  2: { right. split_and!; try done. exists true, [c_pool_create]. split; [done|by repeat constructor]. }
  destruct (setup_port_calls pool w2) as (t & C3 & Ht & Hok). destruct (setup_port pool w2) as [ok w3]. cbn [fst snd] in *. rewrite C2, <- !app_assoc in C3.
  destruct ok; cbn [negb]. 2: { right. split_and!; try done. exists true, ([c_pool_create] ++ t). split; [done|by constructor]. }
  pose proof (bench_cases "bare_dpdk" (rte_get_tsc_hz w3) (round_trip turns pool) w3 (hz_range w3)) as Hb.
  pose proof (bench_quiet (calls w3) "bare_dpdk" (rte_get_tsc_hz w3) (round_trip turns pool) w3) as Hq.
  destruct (bench "bare_dpdk" _ _ w3) as [reports [w4| | |]]; try by destruct Hb. cbn [snd keeps] in Hq.
  destruct Hb as (r & -> & Hd). left. split_and!; [done|by eexists _, _, _, _, _|].
  rewrite calls_cleanup, calls_close, calls_stop, Hq, C3, Hok, <- !app_assoc; [done|done| |done].
  intros w5. apply bare_quiet.
Qed.

(** The workers make none of the recorded calls. *)
Lemma workers_quiet c workers schedule (w : W) : calls w = c → calls (workers_run workers schedule w) = c.
Proof using DataTrace0.
  unfold workers_run. revert w. induction schedule as [|i l IH]; intros w Hw; cbn [foldl]; [done|]. apply IH.
  destruct (workers !! i) as [[rxq [txq|]]|]; [|done..]. revert Hw.
  apply (worker_keeps (calls_are c)); intros; simplify_eq; [apply quiet_alloc|apply quiet_free|apply quiet_rx|apply quiet_tx].
Qed.

Lemma get_quiet pool (w : W) : calls (pool_get pool w).2 = calls w.
Proof using DataTrace0. unfold pool_get, get_packet. pose proof (quiet_alloc pool w) as Hq. by destruct (rte_pktmbuf_alloc pool w). Qed.
Lemma dtor_quiet (p : packet) (w : W) : calls (packet_dtor p w) = calls w.
Proof using DataTrace0. destruct p; [apply quiet_free|done]. Qed.

(** *** The set-up of advanced_usage.cpp, where no call throws *)

Lemma run_until_next op ops (s : Pool.owners * W) made s' made' : run_until (op :: ops) s made = (false, s', made') →
  throws op s = false ∧ ∃ made, run_until ops (pool_step op s) made = (false, s', made').
Proof using. cbn [run_until]. destruct (throws op s); [done|]. eauto. Qed.

Lemma add_port_added i id n_rx n_tx pool o (w : W) : o_handles o !! i = Some (Some pool) → throws (Add_port i id n_rx n_tx) (o, w) = false →
  ∃ p w', pool_step (Add_port i id n_rx n_tx) (o, w) = (Owners (o_ports o ++ [p]) (o_handles o), w').
Proof using.
  intros Hi. cbn [throws pool_step fst snd]. rewrite Hi. rewrite add_with_eq. destruct (port_new id n_rx n_tx pool w) as [[e|p] w']; cbn [fst]; [done|eauto].
Qed.
Lemma create_pool_added name a b c d o (w : W) : throws (Create_pool name a b c d) (o, w) = false →
  ∃ pool w', pool_step (Create_pool name a b c d) (o, w) = (Owners (o_ports o) (o_handles o ++ [Some pool]), w').
Proof using. cbn [throws pool_step snd]. destruct (create_pool name a b c d w) as [[e|pool] w']; cbn [fst]; [done|eauto]. Qed.

(** The port, its workers and the two pools are there. *)
Lemma advanced_ready socket (w : W) s made : run_until (advanced_ops socket) (Owners [] [], w) [] = (false, s, made) →
  ∃ eth0 eth1 small jumbo workers rx tx, s.1 = Owners [eth0; eth1] [None; Some small; Some jumbo] ∧
    claim_workers (S (Z.to_nat kNumQueues)) (port_rx eth0) (port_tx eth0) [] = Some (workers, rx, tx).
Proof using EthTrace0.
  unfold advanced_ops. intros [T1 [m1 Hr]]%run_until_next. cbn [throws pool_step snd] in T1, Hr.
  destruct (make_default_pool 0 2048 w) as [[e|pool] w1]; cbn [fst snd] in T1; [done|]. rewrite add_with_eq in Hr.
  destruct (port_new 0 kNumQueues kNumQueues pool w1) as [[e|eth0] w2] eqn:E0; cbn [fst] in T1; [done|].
  apply run_until_next in Hr as [_ [m2 Hr]]. cbn [pool_step o_ports o_handles app lookup list_lookup] in Hr. rewrite (port_new_pool _ _ _ _ _ _ _ E0) in Hr.
  apply run_until_next in Hr as [T3 [m3 Hr]]. apply (add_port_added _ _ _ _ pool) in T3 as (eth1 & w3 & E3); [|done]. rewrite E3 in Hr.
  apply run_until_next in Hr as [_ [m4 Hr]]. cbn [pool_step o_ports o_handles app lookup list_lookup insert list_insert] in Hr.
  apply run_until_next in Hr as [T5 [m5 Hr]]. apply create_pool_added in T5 as (small & w5 & E5). rewrite E5 in Hr.
  apply run_until_next in Hr as [T6 [m6 Hr]]. apply create_pool_added in T6 as (jumbo & w6 & E6). rewrite E6 in Hr.
  cbn [run_until] in Hr. injection Hr as <- _.
  destruct (port_new_queues _ _ _ _ _ _ _ E0) as [Hrx Htx]. pose proof (claim_workers_from (S (Z.to_nat kNumQueues)) (ids 0 0 2) (ids 0 0 2) 0 []) as Hc.
  do 7 eexists. split; [done|]. rewrite Hrx, Htx, !fresh_claimed. apply Hc; rewrite ids_length; unfold kNumQueues; lia.
Qed.

(** [advanced_usage.cpp] gives everything back on every way out: if the EAL does
    not come up it exits with 1 and makes no other call; otherwise, also when a
    pool or a port cannot be made, which exits with 1, and whatever turns the
    workers take, each pool it made, the one its two ports share included, has
    been freed exactly once, the clean-up of the EAL is the last call, and a
    runtime may be created again.  Only a scratch packet that could not be had
    leads to something undefined. *)
Theorem advanced_main_frees_pools schedule params socket (w : W) :
  fresh_run (advanced_ops socket) (Owners [] [], (eal_init (build_eal_args params) w).2) →
  let '(res, made) := advanced_main schedule params socket (false, w) in
  match res with
  | exit_with code (g, w') => g = false ∧ (code = 0 ∨ code = 1) ∧
    if (eal_init (build_eal_args params) w).1 <? 0 then code = 1 ∧ made = [] ∧ calls w' = calls w ++ [c_eal_init false]
    else ∃ t, calls w' = calls w ++ [c_eal_init true] ++ t ++ [c_eal_cleanup] ∧ ∀ x, frees x t = times x made
  | running _ => False
  | undefined => ∃ pool w, (pool_get pool w).1 = None
  end.
Proof using All.
  unfold advanced_main, runtime_new. pose proof (calls_init (build_eal_args params) w) as Hi. destruct (eal_init _ w) as [ret w1]. cbn [fst snd] in *.
  destruct (Z.ltb_spec ret 0); cbn [negb] in Hi; intros Hf; [by split_and!; [|right|..]|].
  pose proof (run_until_prefix (advanced_ops socket) (Owners [] [], w1) [] Hf) as Hp.
  pose proof (advanced_ready socket w1) as Hready. destruct (run_until _ _ []) as [[failed s] made].
  destruct Hp as (pre & Hp & Hfr). pose proof (pool_run_frees pre _ [] Hfr) as Hr. rewrite Hp in Hr. destruct Hr as (t & new & Ht & -> & Hx).
  assert (Hend : ∀ w2, calls w2 = calls s.2 → ∃ t, calls (leave_block (s.1, w2)) = calls w ++ [c_eal_init true] ++ t ++ [c_eal_cleanup] ∧
    ∀ x, frees x t = times x new).
  { intros w2 Hw2. destruct (leave_block_frees (s.1, w2)) as (t' & Ht' & Hy). exists (t ++ t'). rewrite Ht'. cbn [snd]. rewrite Hw2, Ht. cbn [snd].
    rewrite Hi, <- !app_assoc. split; [done|]. intros x. specialize (Hx x). rewrite frees_app, Hy. cbn in Hx.
    change (owned_by x (all_owners (Owners [] []))) with (owned_by x []) in Hx. unfold owned_by at 2 in Hx. rewrite decide_False in Hx by apply not_elem_of_nil. done. }
  destruct failed. { split_and!; [done|auto|]. destruct s as [o w2]. by apply Hend. }
  destruct (Hready s _ eq_refl) as (eth0 & eth1 & small & jumbo & workers & rx & tx & Ho & Hw). unfold advanced_body. rewrite Ho.
  cbn [o_ports o_handles lookup list_lookup]. rewrite Hw, <- Ho.
  pose proof (get_quiet small s.2) as Q1. destruct (pool_get small s.2) as [ctrl w2] eqn:E1.
  pose proof (get_quiet jumbo w2) as Q2. destruct (pool_get jumbo w2) as [bulk w3] eqn:E2. cbn [snd] in *.
  destruct ctrl as [ctrl|]; [|exists small, s.2; by rewrite E1]. destruct bulk as [bulk|]; [|exists jumbo, w2; by rewrite E2].
  split_and!; [done|auto|]. apply Hend. rewrite !dtor_quiet. apply workers_quiet. by rewrite Q2.
Qed.
End main_proofs.

(** ** A loopback device *)

Module loopback.
Record world := World { device : traced.dev; ring : list rte_mbuf; ticks : Z }.
Definition on_device {A} (f : traced.dev → A * traced.dev) (w : world) : A * world :=
  let '(a, d) := f (device w) in (a, World d (ring w) (ticks w)).
Definition on_device_ (f : traced.dev → traced.dev) (w : world) : world := World (f (device w)) (ring w) (ticks w).

Section instances.
#[local] Existing Instances traced.ops traced.trace traced_pool.eal traced_pool.eal_trace traced_eal.pool traced_eal.pool_trace.
Definition eth : EthDev world := {|
  dev_is_valid_port p w := dev_is_valid_port p (device w);
  dev_configure p a b := on_device (dev_configure p a b);
  dev_adjust_nb_rx_tx_desc p a b := on_device (dev_adjust_nb_rx_tx_desc p a b);
  dev_info_get p := on_device (dev_info_get p);
  dev_socket_id p w := dev_socket_id p (device w);
  dev_rx_queue_setup p q a b c := on_device (dev_rx_queue_setup p q a b c);
  dev_tx_queue_setup p q a b := on_device (dev_tx_queue_setup p q a b);
  dev_start p := on_device (dev_start p);
  dev_stop p := on_device_ (dev_stop p);
  dev_close p := on_device_ (dev_close p);
  dev_macaddr_get p w := dev_macaddr_get p (device w) |}.
Definition eal : EalOps world := {|
  eal_init args := on_device (eal_init args); eal_cleanup := on_device_ eal_cleanup;
  pool_create n a b c e := on_device (pool_create n a b c e) |}.
Definition pools : MempoolOps world := {| mempool_free p := on_device_ (mempool_free p) |}.
End instances.

(** What is sent is received; the clock ticks when it is read. *)
Definition ops : DpdkOps world := {|
  rte_pktmbuf_append := sim.append;
  rte_pktmbuf_alloc _ w := (Some (Mbuf [] 0 1 2048 0 0), w);
  rte_pktmbuf_free _ w := w;
  rte_eth_rx_burst _ _ k w := (take (Z.to_nat k) (ring w), World (device w) (drop (Z.to_nat k) (ring w)) (ticks w));
  rte_eth_tx_burst _ _ ms w := (Z.of_nat (length ms), World (device w) (ring w ++ ms) (ticks w));
  rte_rand w := (0, w);
  rte_ipv4_cksum := sim.ipv4_cksum; rte_ipv4_phdr_cksum := sim.phdr_cksum; rte_ipv4_udptcp_cksum := sim.udptcp_cksum;
  rte_raw_cksum := sim.raw_cksum; rte_raw_cksum_reduce := sim.raw_cksum_reduce |}.
Definition clock : Clock world := {| rte_rdtsc w := (u64 (ticks w), World (device w) (ring w) (ticks w + 1)); rte_get_tsc_hz _ := 3000000000 |}.

#[local] Existing Instances eth eal pools ops clock.
Definition eth_trace : EthTrace world.
Proof.
  refine (Build_EthTrace world eth (λ w, traced.log (device w)) _ _ _ _ _ _ _ _); intros; try done.
  cbn. by case_match.
Defined.
#[local] Existing Instance eth_trace.
Definition eal_trace : EalTrace world.
Proof. split; intros; cbn; repeat case_match; simplify_eq; done. Defined.
Definition pool_trace : MempoolTrace world.
Proof. by split. Defined.
Lemma clock_laws : ClockLaws world.
Proof. split. intros w. cbn. lia. Qed.
Lemma data_trace : DataTrace world.
Proof. by split. Qed.

Definition off : world := World (traced.Dev [] []) [] 0.
Lemma trip_returns turns pool w : ring w = [] → round_trip_direct turns pool loop_queue loop_queue w = finished w.
Proof. destruct w as [d r t]. cbn [ring]. intros ->. by destruct turns; vm_compute. Qed.
End loopback.

Section loopback_run.
#[local] Existing Instances loopback.eth loopback.eal loopback.pools loopback.ops loopback.clock loopback.eth_trace loopback.eal_trace loopback.pool_trace
  loopback.clock_laws loopback.data_trace.
Abbreviation demo_params := (Params "bench" None None None None None None None None None None None None None None [] [] [] []).

Lemma bench_library_reports_witness : ∃ reports pool w w', bench_library_main 0 demo_params (false, loopback.off) = (reports, exit_with 0 (false, w')) ∧
  both_reported 0 pool w reports.
Proof.
  pose proof (bench_library_reports 0 demo_params loopback.off) as Hx. destruct (eal_init (build_eal_args demo_params) loopback.off) as [ret w1] eqn:Ei.
  vm_compute in Ei. injection Ei as <- <-. cbv zeta in Hx. destruct (bench_library_main 0 demo_params (false, loopback.off)) as [reports res].
  set (s := (Owners [] [], _)) in Hx. assert (Ht : throws (Add_default 0 1 1 2048) s = false) by (vm_compute; reflexivity).
  destruct Hx as [Hx Hend]. destruct (Hend (λ w, loopback.ring w = []) 1) as [w' ->].
  - lia.
  - exact Ht.
  - vm_compute. reflexivity.
  - vm_compute. reflexivity.
  - intros w Hw. exists w. split; [apply loopback.trip_returns; exact Hw|exact Hw].
  - intros w Hw. exact Hw.
  - destruct Hx as (_ & Hx). cbn [Z.ltb Z.compare] in Hx. destruct Hx as [_ Hx].
    rewrite Ht in Hx. destruct Hx as (_ & pool & _ & Hx). exists reports, pool, (pool_step (Add_default 0 1 1 2048) s).2, w'. exact (conj eq_refl Hx).
Defined.

(** The second port fails to start: one pool was made and is freed. *)
Lemma advanced_main_frees_pools_witness :
  let '(res, made) := advanced_main [] demo_params 0 (false, loopback.World (traced.Dev [] [c_start 1 false]) [] 0) in
  ∃ w', res = exit_with 1 (false, w') ∧ length made = 1%nat ∧ ∃ t, calls w' = [c_eal_init true] ++ t ++ [c_eal_cleanup] ∧ ∀ x, frees x t = times x made.
Proof.
  set (w := loopback.World (traced.Dev [] [c_start 1 false]) [] 0).
  assert (Hf : fresh_run (advanced_ops 0) (Owners [] [], (eal_init (build_eal_args demo_params) w).2)).
  { repeat (split; [intros x Hx; vm_compute in Hx; first [discriminate Hx|injection Hx as <-; apply (bool_decide_unpack _); vm_compute; exact I]|]).
    exact I. }
  pose proof (advanced_main_frees_pools [] demo_params 0 w Hf) as Hx.
  assert (Hc : ∃ w', (advanced_main [] demo_params 0 (false, w)).1 = exit_with 1 (false, w')) by (vm_compute; eexists; reflexivity).
  assert (Hm : length (advanced_main [] demo_params 0 (false, w)).2 = 1%nat) by (vm_compute; reflexivity).
  destruct (advanced_main [] demo_params 0 (false, w)) as [res made]. cbn [fst snd] in *. destruct Hc as [w' ->]. destruct Hx as (_ & _ & Hx).
  exists w'. split; [reflexivity|]. split; [exact Hm|exact Hx].
Defined.
End loopback_run.
