(* ===== verification/Tap.v ===== *)
(** * The kernel side of a tap port (src/tap_interface.cpp)

    [configure_kernel_interface] and [steer_rx_to_queue].  The system calls and
    [rte_flow_create] are parameters; [KernelTrace] records them with their
    arguments, so the theorem says which calls are made with which bytes, where
    the function stops, and that the socket is closed on every way out. *)

From stdpp Require Import strings.
From S2P Require Import Prelude Port.

Definition IFNAMSIZ : Z := 16.
Definition AF_INET : Z := 2.
Definition IFF_UP : Z := 1.

(** [struct ifreq]: the name and the union behind it. *)
Record ifreq := Ifreq { ifr_name : list Z; ifr_ifru : list Z }.
Inductive kreq := SIOCSIFADDR | SIOCSIFNETMASK | SIOCGIFFLAGS | SIOCSIFFLAGS.

Class KernelOps (K : Type) := {
  sys_socket : K → Z * K;
  sys_ioctl : Z → kreq → ifreq → K → Z * ifreq * K;      (* return value, what it left in the ifreq *)
  sys_close : Z → K → K }.

Inductive kcall :=
  | k_socket (ret : Z) | k_ioctl (fd : Z) (req : kreq) (arg : ifreq) (ret : Z) (res : ifreq) | k_close (fd : Z).

Class KernelTrace (K : Type) `{KernelOps K} := {
  kcalls : K → list kcall;
  kcalls_socket k : kcalls (sys_socket k).2 = kcalls k ++ [k_socket (sys_socket k).1];
  kcalls_ioctl fd req arg k : kcalls (sys_ioctl fd req arg k).2 =
    kcalls k ++ [k_ioctl fd req arg (sys_ioctl fd req arg k).1.1 (sys_ioctl fd req arg k).1.2];
  kcalls_close fd k : kcalls (sys_close fd k) = kcalls k ++ [k_close fd];
  (* netdevice(7): these requests do not change the name; the struct keeps its size. *)
  ioctl_name fd req arg k : ifr_name (sys_ioctl fd req arg k).1.2 = ifr_name arg;
  ioctl_size fd req arg k : length (ifr_ifru (sys_ioctl fd req arg k).1.2) = length (ifr_ifru arg);
  ioctl_bytes fd req arg k : bytes (ifr_ifru arg) → bytes (ifr_ifru (sys_ioctl fd req arg k).1.2) }.

Inductive tap_error := bad_interface_name | bad_prefix_length | socket_failed | ioctl_failed (req : kreq) | flow_rejected.

(** ** Strings and socket addresses *)

Definition chars (s : string) : list Z := (λ c, Z.of_N (Ascii.N_of_ascii c)) <$> String.list_ascii_of_string s.
Lemma length_chars s : length (chars s) = String.length s.
Proof. unfold chars. rewrite length_fmap. induction s as [|c s IH]; [done|]. cbn. by rewrite IH. Qed.

(** What a [char *] points to ends at the first NUL. *)
Fixpoint until_nul (bs : list Z) : list Z := match bs with [] => [] | b :: r => if b =? 0 then [] else b :: until_nul r end.
(** [strncpy(dst, src, n)]: at most [n] characters, padded with zeros to [n]. *)
Definition strncpy (dst src : list Z) (n : nat) : list Z := wr dst 0 (take n (until_nul src ++ replicate n 0)).

Definition set_inet_addr (ifr : ifreq) (addr : Z) : ifreq :=
  let sa := wr (ifr_ifru ifr) 0 (replicate 16 0) in
  let sa := wr sa 0 (le16 AF_INET) in
  Ifreq (ifr_name ifr) (wr sa 4 (be32 addr)).
Definition ifr_flags (ifr : ifreq) : Z := rd16le (ifr_ifru ifr) 0.
Definition set_flags (ifr : ifreq) (flags : Z) : ifreq := Ifreq (ifr_name ifr) (wr (ifr_ifru ifr) 0 (le16 flags)).

Definition prefix_mask (prefix_len : Z) : Z := if prefix_len =? 0 then 0 else u32 (Z.shiftl (2 ^ 32 - 1) (32 - prefix_len)).

Section configure.
Context {K : Type} `{KernelOps K}.

Definition socket_fd_dtor (fd : Z) (k : K) : K := if 0 <=? fd then sys_close fd k else k.

(** Its last part: the flags are read, and written back with [IFF_UP]. *)
Definition bring_up (fd : Z) (ifr : ifreq) (k : K) : option tap_error * K :=
  let '(ret, ifr, k) := sys_ioctl fd SIOCGIFFLAGS ifr k in
  if ret <? 0 then (Some (ioctl_failed SIOCGIFFLAGS), k)
  else
    let ifr := set_flags ifr (Z.lor (ifr_flags ifr) IFF_UP) in
    let '(ret, ifr, k) := sys_ioctl fd SIOCSIFFLAGS ifr k in
    if ret <? 0 then (Some (ioctl_failed SIOCSIFFLAGS), k) else (None, k).

(** The body, with the socket open; the caller closes it. *)
Definition configure_with (fd : Z) (ifname : string) (addr prefix_len : Z) (k : K) : option tap_error * K :=
  if fd <? 0 then (Some socket_failed, k)
  else
    let ifr := Ifreq (replicate (Z.to_nat IFNAMSIZ) 0) (replicate 24 0) in
    let ifr := Ifreq (strncpy (ifr_name ifr) (chars ifname) (Z.to_nat (IFNAMSIZ - 1))) (ifr_ifru ifr) in
    let ifr := set_inet_addr ifr addr in
    let '(ret, ifr, k) := sys_ioctl fd SIOCSIFADDR ifr k in
    if ret <? 0 then (Some (ioctl_failed SIOCSIFADDR), k)
    else
      let ifr := set_inet_addr ifr (prefix_mask prefix_len) in
      let '(ret, ifr, k) := sys_ioctl fd SIOCSIFNETMASK ifr k in
      if ret <? 0 then (Some (ioctl_failed SIOCSIFNETMASK), k)
      else bring_up fd ifr k.

Definition configure_kernel_interface (ifname : string) (addr prefix_len : Z) (k : K) : option tap_error * K :=
  if (String.length ifname =? 0)%nat || (IFNAMSIZ <=? Z.of_nat (String.length ifname)) then (Some bad_interface_name, k)
  else if 32 <? prefix_len then (Some bad_prefix_length, k)
  else
    let '(fd, k) := sys_socket k in
    let '(res, k) := configure_with fd ifname addr prefix_len k in
    (res, socket_fd_dtor fd k).
End configure.

(** ** Flow rules *)

Inductive flow_item := item_eth | item_end.
Inductive flow_action := action_queue (index : Z) | action_end.
Record flow_rule := FlowRule { ingress : bool; pattern : list flow_item; actions : list flow_action }.

Class FlowOps (K : Type) := { flow_create : Z → flow_rule → K → bool * K }.   (* false: it returned nullptr *)

Definition steer_rx_to_queue {K} `{FlowOps K} (p : port) (queue_id : Z) (k : K) : option tap_error * K :=
  let '(made, k) := flow_create (port_id_ p) (FlowRule true [item_eth; item_end] [action_queue queue_id; action_end]) k in
  (if made : bool then None else Some flow_rejected, k).

(** ** Properties *)

(** The netmask is the top [prefix_len] bits. *)
Lemma prefix_mask_bits n b : 0 <= n <= 32 → 0 <= b < 32 → Z.testbit (prefix_mask n) b = (32 - n <=? b).
Proof.
  intros Hn Hb. unfold prefix_mask. destruct (Z.eqb_spec n 0) as [->|]; [rewrite Z.bits_0; symmetry; apply Z.leb_gt; lia|].
  unfold u32. rewrite Z.mod_pow2_bits_low by lia. rewrite Z.shiftl_spec by lia. change (2 ^ 32 - 1) with (Z.ones 32).
  destruct (Z.leb_spec (32 - n) b); [apply Z.ones_spec_low; lia|apply Z.testbit_neg_r; lia].
Qed.

(** What the kernel reads: the name up to its NUL, an address, the flags. *)
Definition name_of (ifr : ifreq) : list Z := until_nul (ifr_name ifr).
Definition inet_of (ifr : ifreq) : Z := rd32 (ifr_ifru ifr) 4.
Definition family_of (ifr : ifreq) : Z := rd16le (ifr_ifru ifr) 0.

Lemma until_nul_pad l n : until_nul (until_nul l ++ replicate n 0) = until_nul l.
Proof.
  induction l as [|b l IH]; [by destruct n|]. cbn. destruct (b =? 0) eqn:Eb; [by destruct n|]. cbn. by rewrite Eb, IH.
Qed.
Lemma length_until_nul l : (length (until_nul l) <= length l)%nat.
Proof. induction l as [|b l IH]; cbn; [lia|]. destruct (b =? 0); cbn; lia. Qed.

(** A name that fits arrives whole. *)
Lemma strncpy_name l : (length l <= 15)%nat → until_nul (strncpy (replicate 16 0) l 15) = until_nul l ∧ length (strncpy (replicate 16 0) l 15) = 16%nat.
Proof.
  intros Hl. unfold strncpy. pose proof (length_until_nul l) as Hu.
  assert (Ht : length (take 15 (until_nul l ++ replicate 15 0)) = 15%nat) by (rewrite length_take, length_app, length_replicate; lia).
  split; [|rewrite length_wr; [apply length_replicate|rewrite length_replicate; lia]].
  unfold wr. rewrite take_0, app_nil_l, Ht. change (drop (0 + 15) (replicate 16 0)) with (replicate 1 0).
  rewrite take_app, take_replicate, take_ge by lia. rewrite <- app_assoc, <- replicate_add. apply until_nul_pad.
Qed.

Lemma length_set_inet ifr addr : length (ifr_ifru ifr) = 24%nat → length (ifr_ifru (set_inet_addr ifr addr)) = 24%nat.
Proof. intros Hl. cbn [set_inet_addr ifr_ifru]. rewrite !length_wr; simpl; rewrite ?length_wr; simpl; lia. Qed.

Lemma inet_set_inet ifr addr : length (ifr_ifru ifr) = 24%nat → is_u32 addr →
  inet_of (set_inet_addr ifr addr) = addr ∧ family_of (set_inet_addr ifr addr) = AF_INET.
Proof.
  intros Hl Ha. destruct ifr as [nm u]. do 24 (destruct u as [|? u]; [discriminate Hl|]). unfold inet_of, family_of, set_inet_addr, wr. cbn. split; [|reflexivity].
  change (rd32 (be32 addr ++ []) 0 = addr). rewrite rd32_be32. by apply u32_id.
Qed.

Lemma bytes_set_inet ifr addr : bytes (ifr_ifru ifr) → bytes (ifr_ifru (set_inet_addr ifr addr)).
Proof. intros Hb. cbn [set_inet_addr ifr_ifru]. repeat apply bytes_wr; auto with wire. by apply Forall_replicate. Qed.

Lemma flags_set_flags ifr x : length (ifr_ifru ifr) = 24%nat → is_u16 x → ifr_flags (set_flags ifr x) = x.
Proof.
  intros Hl Hx. destruct ifr as [nm u]. cbn in Hl. destruct u as [|? [|? u]]; try discriminate Hl.
  unfold ifr_flags, set_flags, wr, rd16le, rd8, le16. cbn. mlia.
Qed.

Lemma lor_up x : is_u16 x → is_u16 (Z.lor x IFF_UP).
Proof.
  intros Hx. assert (H0 : 0 <= Z.lor x IFF_UP) by (apply Z.lor_nonneg; unfold IFF_UP; split; [apply Hx|lia]).
  split; [done|]. destruct (Z.eqb_spec (Z.lor x IFF_UP) 0) as [->|]; [lia|]. apply Z.log2_lt_pow2; [lia|].
  rewrite Z.log2_lor by (unfold IFF_UP; destruct Hx; lia). apply Z.max_lub_lt; [|cbn; lia].
  destruct (Z.eqb_spec x 0) as [->|]; [cbn; lia|]. apply Z.log2_lt_pow2; destruct Hx; lia.
Qed.

(** One [ioctl]: request, argument, return value, and what it left behind. *)
Definition io : Type := kreq * ifreq * Z * ifreq.
Definition made (fd : Z) (x : io) : kcall := let '(req, arg, ret, res) := x in k_ioctl fd req arg ret res.
Definition io_plan : list kreq := [SIOCSIFADDR; SIOCSIFNETMASK; SIOCGIFFLAGS; SIOCSIFFLAGS].

(** What the argument of a call says, given what the flags were. *)
Record io_arg (ifname : string) (addr prefix_len flags : Z) (req : kreq) (arg : ifreq) : Prop := {
  io_name : name_of arg = until_nul (chars ifname);
  io_addr : req = SIOCSIFADDR → inet_of arg = addr ∧ family_of arg = AF_INET;
  io_mask : req = SIOCSIFNETMASK → inet_of arg = prefix_mask prefix_len ∧ family_of arg = AF_INET;
  io_up : req = SIOCSIFFLAGS → ifr_flags arg = Z.lor flags IFF_UP }.

(** The calls [l] follow [plan] up to the first that fails, which [res] names;
    [flags] is what the read of the flags returned. *)
Fixpoint io_run (ok : kreq → ifreq → Prop) (flags : Z) (plan : list kreq) (l : list io) (res : option tap_error) : Prop :=
  match plan, l with
  | [], [] => res = None
  | req :: plan, (req', arg, ret, got) :: l =>
    req' = req ∧ ok req arg ∧ (req = SIOCGIFFLAGS → 0 <= ret → flags = ifr_flags got) ∧
    if ret <? 0 then l = [] ∧ res = Some (ioctl_failed req) else io_run ok flags plan l res
  | _, _ => False
  end.

Section configure_proofs.
Context {K : Type} `{KernelTrace K}.

(** One call, and the rest of the run after it. *)
Lemma ioctl_made fd req arg (k : K) : let p := sys_ioctl fd req arg k in
  kcalls p.2 = kcalls k ++ [made fd (req, arg, p.1.1, p.1.2)] ∧ ifr_name p.1.2 = ifr_name arg ∧
  length (ifr_ifru p.1.2) = length (ifr_ifru arg) ∧ (bytes (ifr_ifru arg) → bytes (ifr_ifru p.1.2)).
Proof using. cbv zeta. split_and!; [apply kcalls_ioctl|apply ioctl_name|apply ioctl_size|apply ioctl_bytes]. Qed.

Lemma run_failed fd ok flags req plan arg ret got (k k' : K) : kcalls k' = kcalls k ++ [made fd (req, arg, ret, got)] → ok req arg → ret < 0 →
  ∃ l, kcalls k' = kcalls k ++ (made fd <$> l) ∧ io_run ok flags (req :: plan) l (Some (ioctl_failed req)).
Proof using.
  intros Hc Ho Hr. exists [(req, arg, ret, got)]. split; [exact Hc|]. cbn. rewrite (proj2 (Z.ltb_lt _ _) Hr). split_and!; try done. lia.
Qed.
Lemma run_cons fd (ok : kreq → ifreq → Prop) flags req plan arg ret got res (k k1 k' : K) l : kcalls k1 = kcalls k ++ [made fd (req, arg, ret, got)] →
  ok req arg → (req = SIOCGIFFLAGS → flags = ifr_flags got) → 0 <= ret → kcalls k' = kcalls k1 ++ (made fd <$> l) → io_run ok flags plan l res →
  ∃ l, kcalls k' = kcalls k ++ (made fd <$> l) ∧ io_run ok flags (req :: plan) l res.
Proof using.
  intros Hc Ho Hf Hr Hc' Hl. exists ((req, arg, ret, got) :: l). split; [by rewrite Hc', Hc, <- app_assoc|].
  cbn. rewrite (proj2 (Z.ltb_ge _ _) Hr). by split_and!; auto.
Qed.

Lemma bring_up_spec fd ifname addr prefix_len ifr (k : K) : name_of ifr = until_nul (chars ifname) →
  length (ifr_ifru ifr) = 24%nat → bytes (ifr_ifru ifr) → let p := bring_up fd ifr k in
  ∃ flags l, kcalls p.2 = kcalls k ++ (made fd <$> l) ∧ io_run (io_arg ifname addr prefix_len flags) flags [SIOCGIFFLAGS; SIOCSIFFLAGS] l p.1.
Proof using.
  intros Hn Hl Hb. cbv zeta. unfold bring_up. pose proof (ioctl_made fd SIOCGIFFLAGS ifr k) as (C1 & N1 & L1 & B1).
  destruct (sys_ioctl fd SIOCGIFFLAGS ifr k) as [[ret1 got] k1]. cbn [fst snd] in *. exists (ifr_flags got).
  destruct (Z.ltb_spec ret1 0); [by eapply run_failed; [exact C1|by split|]|]. set (arg := set_flags got _).
  assert (Ha : io_arg ifname addr prefix_len (ifr_flags got) SIOCSIFFLAGS arg).
  { split; [unfold name_of; by rewrite <- Hn; unfold name_of; rewrite <- N1|done|done|]. intros _. apply flags_set_flags; [congruence|]. apply lor_up.
    specialize (B1 Hb). pose proof (rd8_range _ 0 B1). pose proof (rd8_range _ 1 B1). unfold ifr_flags, rd16le; cbn [Nat.add]. mlia. }
  clearbody arg. pose proof (ioctl_made fd SIOCSIFFLAGS arg k1) as (C2 & _). destruct (sys_ioctl fd SIOCSIFFLAGS arg k1) as [[ret2 got2] k2]. cbn [fst snd] in *.
  assert (Hr : ∃ l, kcalls k2 = kcalls k1 ++ (made fd <$> l) ∧ io_run (io_arg ifname addr prefix_len (ifr_flags got)) (ifr_flags got) [SIOCSIFFLAGS] l
    (if ret2 <? 0 then Some (ioctl_failed SIOCSIFFLAGS) else None)).
  { destruct (Z.ltb_spec ret2 0); [by eapply run_failed|]. eapply (run_cons _ _ _ _ _ _ _ _ _ k1 k2 k2 []); [exact C2|done|done|done|by rewrite app_nil_r|done]. }
  destruct Hr as (l & Hc & Hr). replace (if ret2 <? 0 then (Some (ioctl_failed SIOCSIFFLAGS), k2) else (None, k2))
    with (if ret2 <? 0 then Some (ioctl_failed SIOCSIFFLAGS) else None, k2) by (by destruct (ret2 <? 0)).
  eapply run_cons; [exact C1|by split|done|done|exact Hc|exact Hr].
Qed.

Lemma configure_with_spec fd ifname addr prefix_len (k : K) : (String.length ifname <= 15)%nat → is_u32 addr → 0 <= fd →
  let p := configure_with fd ifname addr prefix_len k in
  ∃ flags l, kcalls p.2 = kcalls k ++ (made fd <$> l) ∧ io_run (io_arg ifname addr prefix_len flags) flags io_plan l p.1.
Proof using.
  intros Hn Ha Hfd. cbv zeta. unfold configure_with. rewrite (proj2 (Z.ltb_ge _ _) Hfd).
  change (Z.to_nat IFNAMSIZ) with 16%nat. change (Z.to_nat (IFNAMSIZ - 1)) with 15%nat. cbn [ifr_name ifr_ifru].
  assert (Hc : (length (chars ifname) <= 15)%nat) by (by rewrite length_chars).
  destruct (strncpy_name (chars ifname) Hc) as [Hname _]. set (nm := strncpy _ _ _) in *. clearbody nm.
  assert (Hm : is_u32 (prefix_mask prefix_len)) by (unfold prefix_mask; case_match; [mlia|apply u32_range]).
  assert (Hadd : ∀ ifr x req, req = SIOCSIFADDR ∧ x = addr ∨ req = SIOCSIFNETMASK ∧ x = prefix_mask prefix_len → ifr_name ifr = nm → length (ifr_ifru ifr) = 24%nat →
    ∀ flags, io_arg ifname addr prefix_len flags req (set_inet_addr ifr x)).
  { intros ifr x req Hx Hi Hl flags. destruct (inet_set_inet ifr x Hl) as [I1 F1]; [by destruct Hx as [[_ ->]|[_ ->]]|].
    split; [unfold name_of; cbn; by rewrite Hi|..]; intros ->; destruct Hx as [[? ->]|[? ->]]; done. }
  set (a1 := set_inet_addr (Ifreq nm (replicate 24 0)) addr).
  assert (L1 : length (ifr_ifru a1) = 24%nat) by (by apply length_set_inet).
  assert (B1 : bytes (ifr_ifru a1)) by (apply bytes_set_inet; by apply Forall_replicate).
  pose proof (Hadd (Ifreq nm (replicate 24 0)) addr SIOCSIFADDR ltac:(auto) eq_refl eq_refl) as O1. fold a1 in O1. assert (N1 : ifr_name a1 = nm) by done. clearbody a1.
  pose proof (ioctl_made fd SIOCSIFADDR a1 k) as (C1 & N1' & L1' & B1'). destruct (sys_ioctl fd SIOCSIFADDR a1 k) as [[ret1 r1] k1]. cbn [fst snd] in *.
  destruct (Z.ltb_spec ret1 0); [exists 0; by eapply run_failed|]. set (a2 := set_inet_addr r1 (prefix_mask prefix_len)).
  assert (L2 : length (ifr_ifru a2) = 24%nat) by (apply length_set_inet; congruence).
  assert (B2 : bytes (ifr_ifru a2)) by (apply bytes_set_inet; auto).
  pose proof (Hadd r1 (prefix_mask prefix_len) SIOCSIFNETMASK ltac:(auto) ltac:(congruence) ltac:(congruence)) as O2. fold a2 in O2.
  assert (N2 : ifr_name a2 = nm) by (cbn; congruence). clearbody a2.
  pose proof (ioctl_made fd SIOCSIFNETMASK a2 k1) as (C2 & N2' & L2' & B2'). destruct (sys_ioctl fd SIOCSIFNETMASK a2 k1) as [[ret2 r2] k2]. cbn [fst snd] in *.
  destruct (Z.ltb_spec ret2 0).
  { exists 0. destruct (run_failed fd (io_arg ifname addr prefix_len 0) 0 SIOCSIFNETMASK [SIOCGIFFLAGS; SIOCSIFFLAGS] a2 ret2 r2 k1 k2 C2 (O2 0) ltac:(lia)) as (l & Hl & Hr). by eapply run_cons. }
  destruct (bring_up_spec fd ifname addr prefix_len r2 k2) as (flags & l & Hl & Hr); [unfold name_of; congruence|congruence|auto|]. exists flags.
  destruct (run_cons fd (io_arg ifname addr prefix_len flags) flags SIOCSIFNETMASK _ a2 ret2 r2 _ k1 k2 _ l C2 (O2 flags) ltac:(done) ltac:(done) Hl Hr) as (l' & Hl' & Hr').
  by eapply run_cons.
Qed.

(** C37. [configure_kernel_interface] makes exactly the calls it should: a
    name that is empty or does not fit, or a prefix over 32, is refused before
    any call; otherwise it opens a socket, sets the address, the netmask of the
    top [prefix_len] bits, reads the flags and writes them back with [IFF_UP],
    each on the interface it was given, stops at the first call that fails and
    reports that one, and closes the socket, once and last, whenever it had
    been opened. *)
Theorem configure_kernel_interface_correct ifname addr prefix_len (k : K) : is_u32 addr → 0 <= prefix_len →
  let p := configure_kernel_interface ifname addr prefix_len k in
  if (String.length ifname =? 0)%nat || (16 <=? Z.of_nat (String.length ifname)) then p = (Some bad_interface_name, k)
  else if 32 <? prefix_len then p = (Some bad_prefix_length, k)
  else
    (∀ b, 0 <= b < 32 → Z.testbit (prefix_mask prefix_len) b = (32 - prefix_len <=? b)) ∧
    ∃ fd, (fd < 0 ∧ p.1 = Some socket_failed ∧ kcalls p.2 = kcalls k ++ [k_socket fd]) ∨
      0 <= fd ∧ ∃ flags l, kcalls p.2 = kcalls k ++ [k_socket fd] ++ (made fd <$> l) ++ [k_close fd] ∧
        io_run (io_arg ifname addr prefix_len flags) flags io_plan l p.1.
Proof using.
  intros Ha Hp. cbv zeta. unfold configure_kernel_interface. unfold IFNAMSIZ. destruct (_ || _) eqn:Hn; [done|].
  destruct (Z.ltb_spec 32 prefix_len) as [|Hle]; [done|]. split; [intros b Hb; apply prefix_mask_bits; lia|].
  apply orb_false_elim in Hn as [_ Hn]. apply Z.leb_gt in Hn.
  pose proof (kcalls_socket k) as Hs. destruct (sys_socket k) as [fd k1]. cbn [fst snd] in Hs. exists fd.
  pose proof (configure_with_spec fd ifname addr prefix_len k1 ltac:(lia) Ha) as Hc. unfold socket_fd_dtor.
  destruct (Z.leb_spec 0 fd) as [Hfd|Hfd].
  - right. split; [done|]. destruct (Hc Hfd) as (flags & l & Hl & Hr). destruct (configure_with _ _ _ _ _) as [res k2]. cbn [fst snd] in *.
    exists flags, l. split; [|done]. by rewrite kcalls_close, Hl, Hs, <- !app_assoc.
  - left. unfold configure_with. rewrite (proj2 (Z.ltb_lt _ _) Hfd). by split_and!.
Qed.
End configure_proofs.

(** ** A kernel that records its calls *)

Module kernel.
Record state := State { log : list kcall; refuses : option kreq }.
#[export] Instance kreq_eq_dec : EqDecision kreq.
Proof. solve_decision. Defined.
Definition ops : KernelOps state := {|
  sys_socket k := (3, State (log k ++ [k_socket 3]) (refuses k));
  sys_ioctl fd req arg k :=
    let ret := if decide (refuses k = Some req) then -1 else 0 in
    (ret, arg, State (log k ++ [k_ioctl fd req arg ret arg]) (refuses k));
  sys_close fd k := State (log k ++ [k_close fd]) (refuses k) |}.
#[local] Existing Instance ops.
Definition trace : KernelTrace state.
Proof. by refine {| kcalls := log |}. Defined.
End kernel.

Section tap_run.
#[local] Existing Instances kernel.ops kernel.trace.

(** Address and mask are set, the flags cannot be read; the socket is closed. *)
Lemma configure_kernel_interface_correct_witness :
  let p := configure_kernel_interface "dpdktap0" 0x0a4d0001 24 (kernel.State [] (Some SIOCGIFFLAGS)) in
  p.1 = Some (ioctl_failed SIOCGIFFLAGS) ∧ last (kernel.log p.2) = Some (k_close 3) ∧
  ∃ fd flags l, kernel.log p.2 = [k_socket fd] ++ (made fd <$> l) ++ [k_close fd] ∧
    io_run (io_arg "dpdktap0" 0x0a4d0001 24 flags) flags io_plan l p.1.
Proof.
  cbv zeta. split; [reflexivity|]. split; [reflexivity|].
  destruct (configure_kernel_interface_correct "dpdktap0" 0x0a4d0001 24 (kernel.State [] (Some SIOCGIFFLAGS)))
    as (_ & fd & [(_ & Hx & _)|(_ & flags & l & Hl & Hr)]); [split; [discriminate|reflexivity]|discriminate|discriminate Hx|].
  exists fd, flags, l. split; [exact Hl|exact Hr].
Defined.
End tap_run.
