(* ===== verification/TcpState.v ===== *)
(** * TCP: connection slots, parameters and set-up (src/tcp_connection.h,
      include/tcp_stack.h, src/tcp_stack.cpp lines 227-272 and 831-854)

    The per-connection record with the fields in the source's order (addressing,
    inbound-only, written by inbound, written by outbound), the event and
    statistics types, and the [tcp_stack] object with its constructor and
    set-up calls, whose exceptions are the constructors of [dpdk_error]. *)

From S2P Require Import Prelude Dpdk Segment SeqArith Packet.

Inductive tcp_state :=
  | st_free | st_syn_received | st_established | st_close_wait | st_last_ack
  | st_fin_wait_1 | st_fin_wait_2 | st_closing | st_closed.
#[export] Instance tcp_state_eq_dec : EqDecision tcp_state.
Proof. solve_decision. Defined.

Definition out_fin_sent : Z := 1.
Definition out_released : Z := 2.

(** A bit of [out_flags]. *)
Definition flag (x bit : Z) : bool := negb (Z.land x bit =? 0).

Record tcp_connection := Conn {
  peer_ip : Z; peer_port : Z; local_port : Z; peer_mac : list Z; send_mss : Z; iss : Z;
  state : tcp_state; irs : Z; rcv_nxt_local : Z; snd_una : Z; snd_wnd : Z; snd_wl1 : Z; snd_wl2 : Z;
  ack_pending : bool; finalize_pending : bool;
  generation : Z; rcv_nxt : Z; send_window : Z; terminated : Z;
  snd_nxt : Z; out_flags : Z }.

(** [tcp_connection{}]. *)
Definition new_connection : tcp_connection :=
  Conn 0 0 0 (replicate 6 0) 0 0 st_free 0 0 0 0 0 0 false false 0 0 0 0 0 0.
#[export] Instance tcp_connection_inhabited : Inhabited tcp_connection := populate new_connection.

(** Assignments to one field. *)
Definition set_state (c : tcp_connection) (v : tcp_state) : tcp_connection :=
  Conn (peer_ip c) (peer_port c) (local_port c) (peer_mac c) (send_mss c) (iss c) v (irs c) (rcv_nxt_local c)
    (snd_una c) (snd_wnd c) (snd_wl1 c) (snd_wl2 c) (ack_pending c) (finalize_pending c) (generation c)
    (rcv_nxt c) (send_window c) (terminated c) (snd_nxt c) (out_flags c).
Definition set_rcv_nxt_local (c : tcp_connection) (v : Z) : tcp_connection :=
  Conn (peer_ip c) (peer_port c) (local_port c) (peer_mac c) (send_mss c) (iss c) (state c) (irs c) v
    (snd_una c) (snd_wnd c) (snd_wl1 c) (snd_wl2 c) (ack_pending c) (finalize_pending c) (generation c)
    (rcv_nxt c) (send_window c) (terminated c) (snd_nxt c) (out_flags c).
Definition set_snd_una (c : tcp_connection) (v : Z) : tcp_connection :=
  Conn (peer_ip c) (peer_port c) (local_port c) (peer_mac c) (send_mss c) (iss c) (state c) (irs c)
    (rcv_nxt_local c) v (snd_wnd c) (snd_wl1 c) (snd_wl2 c) (ack_pending c) (finalize_pending c) (generation c)
    (rcv_nxt c) (send_window c) (terminated c) (snd_nxt c) (out_flags c).
Definition set_snd_wnd (c : tcp_connection) (v : Z) : tcp_connection :=
  Conn (peer_ip c) (peer_port c) (local_port c) (peer_mac c) (send_mss c) (iss c) (state c) (irs c)
    (rcv_nxt_local c) (snd_una c) v (snd_wl1 c) (snd_wl2 c) (ack_pending c) (finalize_pending c) (generation c)
    (rcv_nxt c) (send_window c) (terminated c) (snd_nxt c) (out_flags c).
Definition set_snd_wl1 (c : tcp_connection) (v : Z) : tcp_connection :=
  Conn (peer_ip c) (peer_port c) (local_port c) (peer_mac c) (send_mss c) (iss c) (state c) (irs c)
    (rcv_nxt_local c) (snd_una c) (snd_wnd c) v (snd_wl2 c) (ack_pending c) (finalize_pending c) (generation c)
    (rcv_nxt c) (send_window c) (terminated c) (snd_nxt c) (out_flags c).
Definition set_snd_wl2 (c : tcp_connection) (v : Z) : tcp_connection :=
  Conn (peer_ip c) (peer_port c) (local_port c) (peer_mac c) (send_mss c) (iss c) (state c) (irs c)
    (rcv_nxt_local c) (snd_una c) (snd_wnd c) (snd_wl1 c) v (ack_pending c) (finalize_pending c) (generation c)
    (rcv_nxt c) (send_window c) (terminated c) (snd_nxt c) (out_flags c).
Definition set_ack_pending (c : tcp_connection) (v : bool) : tcp_connection :=
  Conn (peer_ip c) (peer_port c) (local_port c) (peer_mac c) (send_mss c) (iss c) (state c) (irs c)
    (rcv_nxt_local c) (snd_una c) (snd_wnd c) (snd_wl1 c) (snd_wl2 c) v (finalize_pending c) (generation c)
    (rcv_nxt c) (send_window c) (terminated c) (snd_nxt c) (out_flags c).
Definition set_finalize_pending (c : tcp_connection) (v : bool) : tcp_connection :=
  Conn (peer_ip c) (peer_port c) (local_port c) (peer_mac c) (send_mss c) (iss c) (state c) (irs c)
    (rcv_nxt_local c) (snd_una c) (snd_wnd c) (snd_wl1 c) (snd_wl2 c) (ack_pending c) v (generation c)
    (rcv_nxt c) (send_window c) (terminated c) (snd_nxt c) (out_flags c).
Definition set_rcv_nxt (c : tcp_connection) (v : Z) : tcp_connection :=
  Conn (peer_ip c) (peer_port c) (local_port c) (peer_mac c) (send_mss c) (iss c) (state c) (irs c)
    (rcv_nxt_local c) (snd_una c) (snd_wnd c) (snd_wl1 c) (snd_wl2 c) (ack_pending c) (finalize_pending c)
    (generation c) v (send_window c) (terminated c) (snd_nxt c) (out_flags c).
Definition set_send_window (c : tcp_connection) (v : Z) : tcp_connection :=
  Conn (peer_ip c) (peer_port c) (local_port c) (peer_mac c) (send_mss c) (iss c) (state c) (irs c)
    (rcv_nxt_local c) (snd_una c) (snd_wnd c) (snd_wl1 c) (snd_wl2 c) (ack_pending c) (finalize_pending c)
    (generation c) (rcv_nxt c) v (terminated c) (snd_nxt c) (out_flags c).
Definition set_terminated (c : tcp_connection) (v : Z) : tcp_connection :=
  Conn (peer_ip c) (peer_port c) (local_port c) (peer_mac c) (send_mss c) (iss c) (state c) (irs c)
    (rcv_nxt_local c) (snd_una c) (snd_wnd c) (snd_wl1 c) (snd_wl2 c) (ack_pending c) (finalize_pending c)
    (generation c) (rcv_nxt c) (send_window c) v (snd_nxt c) (out_flags c).
Definition set_snd_nxt (c : tcp_connection) (v : Z) : tcp_connection :=
  Conn (peer_ip c) (peer_port c) (local_port c) (peer_mac c) (send_mss c) (iss c) (state c) (irs c)
    (rcv_nxt_local c) (snd_una c) (snd_wnd c) (snd_wl1 c) (snd_wl2 c) (ack_pending c) (finalize_pending c)
    (generation c) (rcv_nxt c) (send_window c) (terminated c) v (out_flags c).
Definition set_out_flags (c : tcp_connection) (v : Z) : tcp_connection :=
  Conn (peer_ip c) (peer_port c) (local_port c) (peer_mac c) (send_mss c) (iss c) (state c) (irs c)
    (rcv_nxt_local c) (snd_una c) (snd_wnd c) (snd_wl1 c) (snd_wl2 c) (ack_pending c) (finalize_pending c)
    (generation c) (rcv_nxt c) (send_window c) (terminated c) (snd_nxt c) v.

(** ** Identifiers, events, counters *)

Record conn_id := { cid_slot : Z; cid_generation : Z }.
#[export] Instance conn_id_eq_dec : EqDecision conn_id.
Proof. solve_decision. Defined.

Inductive tcp_event_type := ev_accepted | ev_data | ev_peer_closed | ev_closed | ev_reset.
#[export] Instance tcp_event_type_eq_dec : EqDecision tcp_event_type.
Proof. solve_decision. Defined.

Record tcp_event := Event {
  ev_type : tcp_event_type; ev_conn : conn_id; ev_bytes : list Z;
  ev_peer_addr : Z; ev_peer_port : Z; ev_local_port : Z }.

Record tcp_stats := Stats {
  bad_checksum : Z; malformed : Z; ip_fragments : Z; multi_segment : Z; out_of_order : Z;
  no_free_slot : Z; rst_received : Z; rst_sent : Z; control_tx_dropped : Z }.
Definition no_stats : tcp_stats := Stats 0 0 0 0 0 0 0 0 0.

(** [stats.x += n] on the 64-bit counters. *)
Definition add_bad_checksum (n : Z) (s : tcp_stats) : tcp_stats :=
  Stats (u64 (bad_checksum s + n)) (malformed s) (ip_fragments s) (multi_segment s) (out_of_order s)
    (no_free_slot s) (rst_received s) (rst_sent s) (control_tx_dropped s).
Definition add_malformed (n : Z) (s : tcp_stats) : tcp_stats :=
  Stats (bad_checksum s) (u64 (malformed s + n)) (ip_fragments s) (multi_segment s) (out_of_order s)
    (no_free_slot s) (rst_received s) (rst_sent s) (control_tx_dropped s).
Definition add_ip_fragments (n : Z) (s : tcp_stats) : tcp_stats :=
  Stats (bad_checksum s) (malformed s) (u64 (ip_fragments s + n)) (multi_segment s) (out_of_order s)
    (no_free_slot s) (rst_received s) (rst_sent s) (control_tx_dropped s).
Definition add_multi_segment (n : Z) (s : tcp_stats) : tcp_stats :=
  Stats (bad_checksum s) (malformed s) (ip_fragments s) (u64 (multi_segment s + n)) (out_of_order s)
    (no_free_slot s) (rst_received s) (rst_sent s) (control_tx_dropped s).
Definition add_out_of_order (n : Z) (s : tcp_stats) : tcp_stats :=
  Stats (bad_checksum s) (malformed s) (ip_fragments s) (multi_segment s) (u64 (out_of_order s + n))
    (no_free_slot s) (rst_received s) (rst_sent s) (control_tx_dropped s).
Definition add_no_free_slot (n : Z) (s : tcp_stats) : tcp_stats :=
  Stats (bad_checksum s) (malformed s) (ip_fragments s) (multi_segment s) (out_of_order s)
    (u64 (no_free_slot s + n)) (rst_received s) (rst_sent s) (control_tx_dropped s).
Definition add_rst_received (n : Z) (s : tcp_stats) : tcp_stats :=
  Stats (bad_checksum s) (malformed s) (ip_fragments s) (multi_segment s) (out_of_order s) (no_free_slot s)
    (u64 (rst_received s + n)) (rst_sent s) (control_tx_dropped s).
Definition add_rst_sent (n : Z) (s : tcp_stats) : tcp_stats :=
  Stats (bad_checksum s) (malformed s) (ip_fragments s) (multi_segment s) (out_of_order s) (no_free_slot s)
    (rst_received s) (u64 (rst_sent s + n)) (control_tx_dropped s).
Definition add_control_tx_dropped (n : Z) (s : tcp_stats) : tcp_stats :=
  Stats (bad_checksum s) (malformed s) (ip_fragments s) (multi_segment s) (out_of_order s) (no_free_slot s)
    (rst_received s) (rst_sent s) (u64 (control_tx_dropped s + n)).

(** ** The stack object *)

Record tcp_params := { max_connections : Z; p_mss : Z; receive_window : Z; verify_checksums : bool }.

Definition max_ports : Z := 16.

Record tcp_stack := Stack {
  pool_ : Z; local_mac_ : list Z; local_ip_ : Z; mss_ : Z; params_ : tcp_params;
  listening_ : list Z;           (* listen_set: the first [count] ports *)
  receiver_taken_ : bool; sender_taken_ : bool }.

Inductive dpdk_error :=
  | no_ipv4_address | no_connection_slots | zero_mss | too_many_ports
  | receiver_already_taken | sender_already_taken | null_tx_queue.

Definition listen_set_contains (ports : list Z) (p : Z) : bool := existsb (Z.eqb p) ports.

(** The constructor: what it reads of the port, and what
    [rte_eth_dev_get_mtu] reported ([None]: the driver cannot say). *)
Definition tcp_stack_new (pool : Z) (mac : list Z) (ip : option Z) (dev_mtu : option Z) (params : tcp_params)
    : dpdk_error + (tcp_stack * list tcp_connection) :=
  match ip with
  | None => inl no_ipv4_address
  | Some local_ip =>
    if max_connections params =? 0 then inl no_connection_slots
    else
      let mtu := default RTE_ETHER_MTU dev_mtu in
      let mtu_mss := u16 (mtu - Z.of_nat sizeof_ipv4_hdr - Z.of_nat sizeof_tcp_hdr) in
      let mss := Z.min (p_mss params) mtu_mss in
      if mss =? 0 then inl zero_mss
      else inr (Stack pool mac local_ip mss params [] false false,
                replicate (Z.to_nat (max_connections params)) new_connection)
  end.

Definition listen (s : tcp_stack) (port : Z) : dpdk_error + tcp_stack :=
  if listen_set_contains (listening_ s) port then inr s
  else if Z.of_nat (length (listening_ s)) =? max_ports then inl too_many_ports
  else inr (Stack (pool_ s) (local_mac_ s) (local_ip_ s) (mss_ s) (params_ s) (listening_ s ++ [port])
              (receiver_taken_ s) (sender_taken_ s)).

(** [receiver()] and [sender()]: the queue is what the handle keeps. *)
Definition take_receiver (s : tcp_stack) (control_txq : option queue) : dpdk_error + (tcp_stack * queue) :=
  if receiver_taken_ s then inl receiver_already_taken
  else
    match control_txq with
    | None => inl null_tx_queue
    | Some q => inr (Stack (pool_ s) (local_mac_ s) (local_ip_ s) (mss_ s) (params_ s) (listening_ s)
                       true (sender_taken_ s), q)
    end.

Definition take_sender (s : tcp_stack) (data_txq : option queue) : dpdk_error + (tcp_stack * queue) :=
  if sender_taken_ s then inl sender_already_taken
  else
    match data_txq with
    | None => inl null_tx_queue
    | Some q => inr (Stack (pool_ s) (local_mac_ s) (local_ip_ s) (mss_ s) (params_ s) (listening_ s)
                       (receiver_taken_ s) true, q)
    end.
