(* ===== verification/TcpReceiver.v ===== *)
(** * tcp_receiver: the inbound thread (src/tcp_stack.cpp, lines 277-827)

    One definition per member of [tcp_receiver::impl], each a function on the
    state [impl]: the connection slots shared with the outbound thread, the
    neighbour and flow tables, the slot lists, the queued control packets, the
    event buffer [poll] hands to its handlers, and the DPDK environment.
    [free_slots] is the LIFO vector with its back first. *)

From S2P Require Import Prelude Dpdk Packet Segment SeqArith FlowTable Arp TcpState.

Record impl (E : Type) := Impl {
  slots : list tcp_connection; neighbors : neighbor_table.neighbor_table; flows : flow_table.flow_table;
  stats : tcp_stats; free_slots : list Z; awaiting_release : list Z; ack_list : list Z; finalize_list : list Z;
  control : list rte_mbuf; events : list tcp_event; env : E }.
Arguments Impl {E}.
Arguments slots {E}. Arguments neighbors {E}. Arguments flows {E}. Arguments stats {E}. Arguments free_slots {E}.
Arguments awaiting_release {E}. Arguments ack_list {E}. Arguments finalize_list {E}. Arguments control {E}.
Arguments events {E}. Arguments env {E}.

(** Assignments to one member. *)
Definition set_slots {E} (r : impl E) (v : list tcp_connection) : impl E :=
  Impl v (neighbors r) (flows r) (stats r) (free_slots r) (awaiting_release r) (ack_list r) (finalize_list r)
    (control r) (events r) (env r).
Definition set_neighbors {E} (r : impl E) (v : neighbor_table.neighbor_table) : impl E :=
  Impl (slots r) v (flows r) (stats r) (free_slots r) (awaiting_release r) (ack_list r) (finalize_list r)
    (control r) (events r) (env r).
Definition set_flows {E} (r : impl E) (v : flow_table.flow_table) : impl E :=
  Impl (slots r) (neighbors r) v (stats r) (free_slots r) (awaiting_release r) (ack_list r) (finalize_list r)
    (control r) (events r) (env r).
Definition set_stats {E} (r : impl E) (v : tcp_stats) : impl E :=
  Impl (slots r) (neighbors r) (flows r) v (free_slots r) (awaiting_release r) (ack_list r) (finalize_list r)
    (control r) (events r) (env r).
Definition set_free_slots {E} (r : impl E) (v : list Z) : impl E :=
  Impl (slots r) (neighbors r) (flows r) (stats r) v (awaiting_release r) (ack_list r) (finalize_list r)
    (control r) (events r) (env r).
Definition set_awaiting_release {E} (r : impl E) (v : list Z) : impl E :=
  Impl (slots r) (neighbors r) (flows r) (stats r) (free_slots r) v (ack_list r) (finalize_list r)
    (control r) (events r) (env r).
Definition set_ack_list {E} (r : impl E) (v : list Z) : impl E :=
  Impl (slots r) (neighbors r) (flows r) (stats r) (free_slots r) (awaiting_release r) v (finalize_list r)
    (control r) (events r) (env r).
Definition set_finalize_list {E} (r : impl E) (v : list Z) : impl E :=
  Impl (slots r) (neighbors r) (flows r) (stats r) (free_slots r) (awaiting_release r) (ack_list r) v
    (control r) (events r) (env r).
Definition set_control {E} (r : impl E) (v : list rte_mbuf) : impl E :=
  Impl (slots r) (neighbors r) (flows r) (stats r) (free_slots r) (awaiting_release r) (ack_list r)
    (finalize_list r) v (events r) (env r).
Definition set_events {E} (r : impl E) (v : list tcp_event) : impl E :=
  Impl (slots r) (neighbors r) (flows r) (stats r) (free_slots r) (awaiting_release r) (ack_list r)
    (finalize_list r) (control r) v (env r).
Definition set_env {E} (r : impl E) (v : E) : impl E :=
  Impl (slots r) (neighbors r) (flows r) (stats r) (free_slots r) (awaiting_release r) (ack_list r)
    (finalize_list r) (control r) (events r) v.

Definition max_control : Z := 2 * burst_max_size.
Definition max_events : Z := 3 * burst_max_size.
Definition default_neighbors : Z := 256.

Section receiver.
Context {E : Type} `{DpdkOps E}.
Context (stack : tcp_stack) (txq : queue).

Definition impl_new (conns : list tcp_connection) (w : E) : impl E :=
  let n := max_connections (params_ stack) in
  Impl conns (neighbor_table.make default_neighbors) (flow_table.make n) no_stats
    (Z.of_nat <$> seq 0 (Z.to_nat n)) [] [] [] [] [] w.

Definition slot (r : impl E) (i : Z) : tcp_connection := slots r !!! Z.to_nat i.
Definition put_slot (r : impl E) (i : Z) (c : tcp_connection) : impl E :=
  set_slots r (<[Z.to_nat i := c]> (slots r)).
Definition bump (r : impl E) (f : tcp_stats → tcp_stats) : impl E := set_stats r (f (stats r)).
Definition push_event (r : impl E) (e : tcp_event) : impl E := set_events r (events r ++ [e]).

Definition make_event (r : impl E) (type : tcp_event_type) (idx : Z) (data : list Z) : tcp_event :=
  let c := slot r idx in
  Event type {| cid_slot := idx; cid_generation := generation c |} data (peer_ip c) (peer_port c) (local_port c).

Definition reply_addr (c : tcp_connection) : segment_addr :=
  {| src_mac := local_mac_ stack; dst_mac := peer_mac c; src_ip := local_ip_ stack; dst_ip := peer_ip c;
     src_port := local_port c; dst_port := peer_port c |}.

(** A refused packet is destroyed with the parameter that holds it. *)
Definition queue_control (r : impl E) (pkt : packet) : impl E :=
  match pkt with
  | None => bump r (add_control_tx_dropped 1)
  | Some m =>
    if Z.of_nat (length (control r)) =? max_control
    then set_env (bump r (add_control_tx_dropped 1)) (packet_dtor pkt (env r))
    else set_control r (control r ++ [m])
  end.

(** [build_segment] from the stack's pool. *)
Definition build (r : impl E) (a : segment_addr) (seq ack flags window : Z) (payload : list Z) (mss : Z)
    : packet * impl E :=
  let '(pkt, w) := build_segment (pool_ stack) a seq ack flags window payload mss (env r) in
  (pkt, set_env r w).

Definition queue_ack (r : impl E) (idx : Z) : impl E :=
  let c := slot r idx in
  if negb (ack_pending c) then
    let r := put_slot r idx (set_ack_pending c true) in
    set_ack_list r (ack_list r ++ [idx])
  else r.

Definition schedule_finalize (r : impl E) (idx : Z) : impl E :=
  let c := slot r idx in
  if negb (finalize_pending c) then
    let r := put_slot r idx (set_finalize_pending c true) in
    set_finalize_list r (finalize_list r ++ [idx])
  else r.

Definition terminate (r : impl E) (idx : Z) (why : tcp_event_type) : impl E :=
  let c := slot r idx in
  let c := set_state c st_closed in
  let c := set_terminated c 1 in
  let c := if decide (why = ev_reset) then set_ack_pending c false else c in
  let r := put_slot r idx c in
  let r := push_event r (make_event r why idx []) in
  schedule_finalize r idx.

Definition release_slot (r : impl E) (idx : Z) : impl E :=
  let c := slot r idx in
  let c := set_state c st_free in
  let c := set_ack_pending c false in
  let c := set_finalize_pending c false in
  let r := put_slot r idx c in
  set_free_slots r (idx :: free_slots r).

Definition send_rst_for (r : impl E) (seg : segment) : impl E :=
  if has seg RTE_TCP_RST_FLAG then r
  else
    let a := {| src_mac := local_mac_ stack; dst_mac := seg_src_mac seg; src_ip := local_ip_ stack;
                dst_ip := seg_src_ip seg; src_port := seg_dst_port seg; dst_port := seg_src_port seg |} in
    let '(rst, r) :=
      if has seg RTE_TCP_ACK_FLAG then build r a (seg_ack seg) 0 RTE_TCP_RST_FLAG 0 [] 0
      else
        let occupied := u32 (seg_len seg + (if has seg RTE_TCP_SYN_FLAG then 1 else 0) +
                             (if has seg RTE_TCP_FIN_FLAG then 1 else 0)) in
        build r a 0 (u32 (seg_seq seg + occupied)) (Z.lor RTE_TCP_RST_FLAG RTE_TCP_ACK_FLAG) 0 [] 0 in
    let r := bump r (add_rst_sent 1) in
    queue_control r rst.

Definition send_syn_ack (r : impl E) (c : tcp_connection) : impl E :=
  let '(pkt, r) := build r (reply_addr c) (iss c) (rcv_nxt_local c) (Z.lor RTE_TCP_SYN_FLAG RTE_TCP_ACK_FLAG)
                     (receive_window (params_ stack)) [] (mss_ stack) in
  queue_control r pkt.

Definition flow_key (c : tcp_connection) : Z := flow_table.key (peer_ip c) (peer_port c) (local_port c).

(** The slot [open] fills in, from the segment and the drawn ISS. *)
Definition opened (c : tcp_connection) (seg : segment) (isn : Z) : tcp_connection :=
  let gen := u32 (generation c + 1) in
  let gen := if gen =? 0 then 1 else gen in
  {| peer_ip := seg_src_ip seg; peer_port := seg_src_port seg; local_port := seg_dst_port seg;
     peer_mac := seg_src_mac seg; send_mss := Z.min (parse_mss_option (seg_options seg)) (mss_ stack);
     iss := isn; irs := seg_seq seg; rcv_nxt_local := u32 (seg_seq seg + 1);
     snd_una := isn; snd_wnd := seg_window seg; snd_wl1 := seg_seq seg; snd_wl2 := 0;
     state := st_syn_received; ack_pending := false; finalize_pending := false;
     generation := gen; rcv_nxt := u32 (seg_seq seg + 1); send_window := pack_window isn (seg_window seg);
     terminated := 0; snd_nxt := u32 (isn + 1); out_flags := 0 |}.

Definition open (r : impl E) (seg : segment) : impl E :=
  match free_slots r with
  | [] => send_rst_for (bump r (add_no_free_slot 1)) seg
  | idx :: rest =>
    let r := set_free_slots r rest in
    let '(rnd, w) := rte_rand (env r) in
    let c := opened (slot r idx) seg (u32 rnd) in
    let r := set_env (put_slot r idx c) w in
    let r := set_flows r (flow_table.insert (flows r) (flow_key c) idx) in
    send_syn_ack r c
  end.

Definition sync_out_flags (c : tcp_connection) : tcp_connection :=
  if negb (flag (out_flags c) out_fin_sent) then c
  else if decide (state c = st_established) then set_state c st_fin_wait_1
  else if decide (state c = st_close_wait) then set_state c st_last_ack
  else c.

Definition rst_acceptable (c : tcp_connection) (seg : segment) : bool :=
  seq_geq (seg_seq seg) (rcv_nxt_local c) &&
  seq_lt (seg_seq seg) (u32 (rcv_nxt_local c + receive_window (params_ stack))).

Definition publish_window (c : tcp_connection) : tcp_connection :=
  set_send_window c (pack_window (snd_una c) (snd_wnd c)).

(** The window part of [process_ack]: una, then wnd under WL1/WL2. *)
Definition ack_window (c : tcp_connection) (seg : segment) : tcp_connection :=
  let '(c, changed) :=
    if seq_gt (seg_ack seg) (snd_una c) then (set_snd_una c (seg_ack seg), true) else (c, false) in
  let '(c, changed) :=
    if seq_geq (seg_ack seg) (snd_una c) &&
       (seq_lt (snd_wl1 c) (seg_seq seg) ||
        (snd_wl1 c =? seg_seq seg) && seq_leq (snd_wl2 c) (seg_ack seg))
    then
      let '(c, changed) :=
        if negb (snd_wnd c =? seg_window seg) then (set_snd_wnd c (seg_window seg), true) else (c, changed) in
      (set_snd_wl2 (set_snd_wl1 c (seg_seq seg)) (seg_ack seg), changed)
    else (c, changed) in
  if changed : bool then publish_window c else c.

Definition process_ack (r : impl E) (idx : Z) (seg : segment) : bool * impl E :=
  let c := slot r idx in
  let out := out_flags c in
  let nxt := snd_nxt c in
  if seq_gt (seg_ack seg) nxt then (false, queue_ack r idx)
  else
    let c := ack_window c seg in
    let r := put_slot r idx c in
    if flag out out_fin_sent && (seg_ack seg =? nxt) then
      match state c with
      | st_fin_wait_1 => (true, put_slot r idx (set_state c st_fin_wait_2))
      | st_closing | st_last_ack => (false, terminate r idx ev_closed)
      | _ => (true, r)
      end
    else (true, r).

Definition process_data (r : impl E) (idx : Z) (seg : segment) : impl E :=
  let c := slot r idx in
  let can_receive := bool_decide (state c = st_established ∨ state c = st_fin_wait_1 ∨ state c = st_fin_wait_2) in
  let fin := has seg RTE_TCP_FIN_FLAG in
  if negb can_receive then
    if (0 <? seg_len seg) || fin then queue_ack r idx else r
  else if (seg_len seg =? 0) && negb fin then r
  else if seq_gt (seg_seq seg) (rcv_nxt_local c) then queue_ack (bump r (add_out_of_order 1)) idx
  else
    let end_ := u32 (seg_seq seg + seg_len seg) in
    let r :=
      if seq_gt end_ (rcv_nxt_local c) then
        let skip := u32 (rcv_nxt_local c - seg_seq seg) in
        let r := push_event r (make_event r ev_data idx
                   (sub (seg_payload seg) (Z.to_nat skip) (Z.to_nat (u32 (seg_len seg - skip))))) in
        put_slot r idx (set_rcv_nxt_local (slot r idx) end_)
      else r in
    let r := queue_ack r idx in
    let r :=
      if fin && (end_ =? rcv_nxt_local (slot r idx)) then
        let r := put_slot r idx (set_rcv_nxt_local (slot r idx) (u32 (rcv_nxt_local (slot r idx) + 1))) in
        match state (slot r idx) with
        | st_established =>
          let r := put_slot r idx (set_state (slot r idx) st_close_wait) in
          push_event r (make_event r ev_peer_closed idx [])
        | st_fin_wait_1 => put_slot r idx (set_state (slot r idx) st_closing)
        | st_fin_wait_2 => terminate r idx ev_closed
        | _ => r
        end
      else r in
    put_slot r idx (set_rcv_nxt (slot r idx) (rcv_nxt_local (slot r idx))).

(** The [syn_received] case of [process_segment]. *)
Definition process_syn_received (r : impl E) (idx : Z) (seg : segment) : impl E :=
  let c := slot r idx in
  if has seg RTE_TCP_RST_FLAG then
    if rst_acceptable c seg then
      let r := bump r (add_rst_received 1) in
      let r := set_flows r (flow_table.erase (flows r) (flow_key c)) in
      release_slot r idx
    else r
  else if has seg RTE_TCP_SYN_FLAG then
    if negb (has seg RTE_TCP_ACK_FLAG) && (seg_seq seg =? irs c) then send_syn_ack r c else r
  else if negb (has seg RTE_TCP_ACK_FLAG) then r
  else if negb (seg_ack seg =? u32 (iss c + 1)) then send_rst_for r seg
  else
    let c := set_snd_una c (seg_ack seg) in
    let c := set_snd_wnd c (seg_window seg) in
    let c := set_snd_wl1 c (seg_seq seg) in
    let c := set_snd_wl2 c (seg_ack seg) in
    let c := publish_window c in
    let c := set_state c st_established in
    let r := put_slot r idx c in
    let r := push_event r (make_event r ev_accepted idx []) in
    process_data r idx seg.

Definition process_segment (r : impl E) (idx : Z) (seg : segment) : impl E :=
  let r := put_slot r idx (sync_out_flags (slot r idx)) in
  let c := slot r idx in
  match state c with
  | st_free | st_closed => r
  | st_syn_received => process_syn_received r idx seg
  | _ =>
    if has seg RTE_TCP_RST_FLAG then
      if rst_acceptable c seg then terminate (bump r (add_rst_received 1)) idx ev_reset else r
    else if has seg RTE_TCP_SYN_FLAG then queue_ack r idx
    else if negb (has seg RTE_TCP_ACK_FLAG) then r
    else
      let '(go_on, r) := process_ack r idx seg in
      if go_on : bool then process_data r idx seg else r
  end.

(** The second half of [process_tcp]: an accepted segment is dispatched. *)
Definition process_tcp (r : impl E) (seg : segment) : impl E :=
  let idx := flow_table.find (flows r) (flow_table.key (seg_src_ip seg) (seg_src_port seg) (seg_dst_port seg)) in
  if negb (idx =? flow_table.npos) then process_segment r idx seg
  else if has seg RTE_TCP_SYN_FLAG && negb (has seg RTE_TCP_ACK_FLAG) && negb (has seg RTE_TCP_RST_FLAG) &&
          listen_set_contains (listening_ stack) (seg_dst_port seg)
  then open r seg
  else send_rst_for r seg.

Definition process (r : impl E) (pkt : rte_mbuf) : impl E :=
  match parse_frame (E := E) (verify_checksums (params_ stack)) (local_ip_ stack) pkt with
  | V_skip => r
  | V_multi_segment => bump r (add_multi_segment 1)
  | V_arp =>
    let '(res, nb, reply, w) :=
      handle_arp pkt (local_mac_ stack) (local_ip_ stack) (neighbors r) (pool_ stack) None (env r) in
    let r := set_env (set_neighbors r nb) w in
    match res with
    | replied => queue_control r reply
    | _ => set_env r (packet_dtor reply (env r))
    end
  | V_malformed => bump r (add_malformed 1)
  | V_bad_checksum => bump r (add_bad_checksum 1)
  | V_fragment => bump r (add_ip_fragments 1)
  | V_tcp seg => process_tcp r seg
  end.

(** [awaiting_release[i] = awaiting_release.back(); awaiting_release.pop_back()]. *)
Definition swap_remove (i : nat) (l : list Z) : list Z :=
  take (length l - 1) (<[i := default 0 (last l)]> l).

Fixpoint reap_loop (fuel : nat) (i : nat) (r : impl E) : option (impl E) :=
  match fuel with
  | O => None
  | S f =>
    if (i <? length (awaiting_release r))%nat then
      let idx := awaiting_release r !!! i in
      if flag (out_flags (slot r idx)) out_released then
        let r := release_slot r idx in
        reap_loop f i (set_awaiting_release r (swap_remove i (awaiting_release r)))
      else reap_loop f (S i) r
    else Some r
  end.

Definition reap_released (r : impl E) : impl E :=
  default r (reap_loop (S (length (awaiting_release r))) 0 r).

Definition flush_ack (r : impl E) (idx : Z) : impl E :=
  let c := slot r idx in
  if negb (ack_pending c) then r
  else
    let r := put_slot r idx (set_ack_pending c false) in
    let '(pkt, r) := build r (reply_addr c) (snd_nxt c) (rcv_nxt_local c) RTE_TCP_ACK_FLAG
                       (receive_window (params_ stack)) [] 0 in
    queue_control r pkt.

Definition flush_acks (r : impl E) : impl E := set_ack_list (foldl flush_ack r (ack_list r)) [].

Definition flush_control (r : impl E) : impl E :=
  match control r with
  | [] => r
  | _ =>
    let '(sent, left_, w) := send_burst txq (control r) (env r) in
    let r := bump r (add_control_tx_dropped (Z.of_nat (length (control r)) - sent)) in
    set_control (set_env r (burst_dtor left_ w)) []
  end.

Definition finalize_one (r : impl E) (idx : Z) : impl E :=
  let c := set_finalize_pending (slot r idx) false in
  let r := put_slot r idx c in
  let r := set_flows r (flow_table.erase (flows r) (flow_key c)) in
  if flag (out_flags c) out_released then release_slot r idx
  else set_awaiting_release r (awaiting_release r ++ [idx]).

Definition finalize (r : impl E) : impl E := set_finalize_list (foldl finalize_one r (finalize_list r)) [].

Definition poll (r : impl E) (burst : list rte_mbuf) : list tcp_event * impl E :=
  let r := set_events r [] in
  let r := reap_released r in
  let r := foldl process r burst in
  let r := flush_acks r in
  let r := flush_control r in
  let r := finalize r in
  (events r, r).
End receiver.
