(* ===== verification/TcpSender.v ===== *)
(** * tcp_sender: the outbound thread (src/tcp_stack.cpp, lines 842-982)

    The sender works on the shared connection slots and the DPDK environment.
    [send]'s outer loop carries a fuel of one more than the bytes it may send
    ([None]: it would not end), its inner loop runs at most once per entry of
    the burst array, as in the code. *)

From S2P Require Import Prelude Dpdk DpdkSim Packet Segment SegmentWire SeqArith TcpState.

Definition kCloseRetries : nat := Nat.pow 2 20.
Lemma kCloseRetries_pos : (0 < kCloseRetries)%nat.
Proof. unfold kCloseRetries. apply Nat.neq_0_lt_0, Nat.pow_nonzero. lia. Qed.
#[global] Opaque kCloseRetries.

Section sender.
Context {E : Type} `{DpdkOps E}.
Context (stack : tcp_stack) (txq : queue).

Definition conn_at (slots : list tcp_connection) (i : Z) : tcp_connection := slots !!! Z.to_nat i.
Definition put_conn (slots : list tcp_connection) (i : Z) (c : tcp_connection) : list tcp_connection :=
  <[Z.to_nat i := c]> slots.

(** The slot an id addresses. *)
Definition lookup (slots : list tcp_connection) (conn : conn_id) : option Z :=
  if max_connections (params_ stack) <=? cid_slot conn then None
  else
    let c := conn_at slots (cid_slot conn) in
    if negb (generation c =? cid_generation conn) then None
    else
      let out := out_flags c in
      if negb (generation c =? cid_generation conn) || flag out out_released then None
      else Some (cid_slot conn).

Definition sendable (slots : list tcp_connection) (conn : conn_id) : bool :=
  match lookup slots conn with
  | None => false
  | Some i => negb (flag (out_flags (conn_at slots i)) out_fin_sent) && (terminated (conn_at slots i) =? 0)
  end.

Definition send_space (slots : list tcp_connection) (conn : conn_id) : Z :=
  if negb (sendable slots conn) then 0
  else
    match lookup slots conn with
    | None => 0
    | Some i => window_space (send_window (conn_at slots i)) (snd_nxt (conn_at slots i))
    end.

Definition conn_addr (c : tcp_connection) : segment_addr :=
  {| src_mac := local_mac_ stack; dst_mac := peer_mac c; src_ip := local_ip_ stack; dst_ip := peer_ip c;
     src_port := local_port c; dst_port := peer_port c |}.

(** The inner loop of [send]: [room] entries of the burst array are left.
    Yields the segments with the offset just past each, the offset reached
    and the environment. *)
Fixpoint build_burst (room : nat) (c : tcp_connection) (base ack : Z) (bytes : list Z) (limit off : Z) (w : E)
    : list (rte_mbuf * Z) * Z * E :=
  match room with
  | O => ([], off, w)
  | S room =>
    if off <? limit then
      let len := Z.min (send_mss c) (limit - off) in
      let flags := Z.lor RTE_TCP_ACK_FLAG (if off + len =? limit then RTE_TCP_PSH_FLAG else 0) in
      let '(pkt, w) := build_segment (pool_ stack) (conn_addr c) (u32 (base + u32 off)) ack flags
                         (receive_window (params_ stack)) (sub bytes (Z.to_nat off) (Z.to_nat len)) 0 w in
      match pkt with
      | None => ([], off, w)
      | Some m =>
        let '(rest, off', w) := build_burst room c base ack bytes limit (off + len) w in
        ((m, off + len) :: rest, off', w)
      end
    else ([], off, w)
  end.

(** The outer loop, at [done]. *)
Fixpoint send_loop (fuel : nat) (slots : list tcp_connection) (i base ack : Z) (bytes : list Z)
    (limit done : Z) (w : E) : option (Z * list tcp_connection * E) :=
  match fuel with
  | O => None
  | S fuel =>
    if done <? limit then
      let '(segs, off, w) := build_burst (Z.to_nat burst_max_size) (conn_at slots i) base ack bytes limit done w in
      let n := Z.of_nat (length segs) in
      if n =? 0 then Some (done, slots, w)
      else
        let slots := put_conn slots i (set_snd_nxt (conn_at slots i) (u32 (base + u32 off))) in
        let '(sent, left_, w) := send_burst txq (segs.*1) w in
        if sent <? n then
          let done := if 0 <? sent then segs.*2 !!! Z.to_nat (sent - 1) else done in
          let slots := put_conn slots i (set_snd_nxt (conn_at slots i) (u32 (base + u32 done))) in
          Some (done, slots, burst_dtor left_ w)
        else
          let done := off in
          let w := burst_dtor left_ w in
          if (n <? burst_max_size) && (off <? limit) then Some (done, slots, w)
          else send_loop fuel slots i base ack bytes limit done w
    else Some (done, slots, w)
  end.

Definition send (slots : list tcp_connection) (conn : conn_id) (bytes : list Z) (w : E)
    : option (Z * list tcp_connection * E) :=
  if bool_decide (bytes = []) || negb (sendable slots conn) then Some (0, slots, w)
  else
    match lookup slots conn with
    | None => Some (0, slots, w)
    | Some i =>
      let c := conn_at slots i in
      let base := snd_nxt c in
      let limit := Z.min (Z.of_nat (length bytes)) (window_space (send_window c) base) in
      if limit =? 0 then Some (0, slots, w)
      else send_loop (S (Z.to_nat limit)) slots i base (rcv_nxt c) bytes limit 0 w
    end.

(** The retry loop of [close]; [fin] is the packet kept between attempts,
    destroyed at the end. *)
Fixpoint fin_loop (attempts : nat) (c : tcp_connection) (seq : Z) (fin : packet) (w : E) : E :=
  match attempts with
  | O => packet_dtor fin w
  | S attempts =>
    let '(fin, w) :=
      match fin with
      | None => build_segment (pool_ stack) (conn_addr c) seq (rcv_nxt c) (Z.lor RTE_TCP_FIN_FLAG RTE_TCP_ACK_FLAG)
                  (receive_window (params_ stack)) [] 0 w
      | Some m => (Some m, w)
      end in
    match fin with
    | None => fin_loop attempts c seq None w
    | Some m =>
      let '(sent, left_, w) := send_burst txq [m] w in
      let fin := default None (head left_) in
      if sent =? 1 then packet_dtor fin w
      else fin_loop attempts c seq fin w
    end
  end.

Definition close (slots : list tcp_connection) (conn : conn_id) (w : E) : list tcp_connection * E :=
  match lookup slots conn with
  | None => (slots, w)
  | Some i =>
    let c := conn_at slots i in
    let out := out_flags c in
    if negb (flag out out_fin_sent) && (terminated c =? 0) then
      let seq := snd_nxt c in
      let c := set_snd_nxt c (u32 (seq + 1)) in
      let out := Z.lor out out_fin_sent in
      let c := set_out_flags c out in
      let w := fin_loop kCloseRetries c seq None w in
      (put_conn slots i (set_out_flags c (u8 (Z.lor out out_released))), w)
    else (put_conn slots i (set_out_flags c (u8 (Z.lor out out_released))), w)
  end.
End sender.

(** ** What [send] puts on the wire *)

Section send_proofs.
Context {E : Type} `{DpdkOps E} `{!DpdkLaws E} `{!DpdkAccount E} `{!DpdkWire E}.
Context (stack : tcp_stack) (txq : queue).
Abbreviation on_wire w := (wire (q_port txq) (q_id txq) w).

Lemma wire_burst_dtor b (w : E) : on_wire (burst_dtor b w) = on_wire w.
Proof using.
  unfold burst_dtor. revert w. induction b as [|p b IH]; intros w; [done|]. simpl. rewrite IH.
  destruct p; simpl; [apply wire_free|done].
Qed.

Lemma wire_send_burst pkts (w : E) k rest w' : Z.of_nat (length pkts) < 2 ^ 16 →
  send_burst txq pkts w = (k, rest, w') → on_wire w' = on_wire w ++ take (Z.to_nat k) pkts.
Proof using.
  intros Hl. unfold send_burst. rewrite u16_id, Nat2Z.id, firstn_all by mlia.
  pose proof (wire_tx (q_port txq) (q_id txq) pkts w) as Hw.
  destruct (rte_eth_tx_burst _ _ pkts w) as [j w1]. intros [= <- <- <-]. exact Hw.
Qed.

(** The frame that carries [bytes[off, off + len)]: its sequence number, and
    PSH exactly on the segment that ends at [limit]. *)
Definition data_frame (a : segment_addr) (base ack : Z) (bytes : list Z) (limit off len : Z) : list Z :=
  frame a (u32 (base + off)) ack
    (Z.lor RTE_TCP_ACK_FLAG (if off + len =? limit then RTE_TCP_PSH_FLAG else 0))
    (receive_window (params_ stack)) (sub bytes (Z.to_nat off) (Z.to_nat len)) 0.

(** [carries .. off segs off']: the segments carry [bytes[off, off')] one
    after the other, with the offset past each: every segment is a full [mss],
    except one that reaches [limit], which has what is left. *)
Inductive carries (mss : Z) (a : segment_addr) (base ack : Z) (bytes : list Z) (limit : Z)
    : Z → list (rte_mbuf * Z) → Z → Prop :=
  | carries_nil off : carries mss a base ack bytes limit off [] off
  | carries_cons off m len segs off' : len = Z.min mss (limit - off) → 0 < len →
      m_data m = data_frame a base ack bytes limit off len →
      carries mss a base ack bytes limit (off + len) segs off' →
      carries mss a base ack bytes limit off ((m, off + len) :: segs) off'.

Lemma carries_app mss a base ack bytes limit off segs off1 segs' off2 :
  carries mss a base ack bytes limit off segs off1 → carries mss a base ack bytes limit off1 segs' off2 →
  carries mss a base ack bytes limit off (segs ++ segs') off2.
Proof using. induction 1; simpl; [done|]. intros. by constructor; auto. Qed.

Lemma carries_le mss a base ack bytes limit off segs off' : carries mss a base ack bytes limit off segs off' →
  off + Z.of_nat (length segs) <= off' ∧ (off <= limit → off' <= limit).
Proof using. induction 1; simpl length; lia. Qed.

(** The first [k] segments end where the [k]-th says. *)
Lemma carries_take mss a base ack bytes limit off segs off' k : carries mss a base ack bytes limit off segs off' →
  (k <= length segs)%nat →
  carries mss a base ack bytes limit off (take k segs)
    (if (0 <? Z.of_nat k)%Z then segs.*2 !!! (k - 1)%nat else off).
Proof using.
  intros Hc. revert k. induction Hc as [off|off m len segs off' Hl Hlim Hm Hc IH]; intros [|k] Hk; simpl; try constructor; auto.
  - simpl in Hk. lia.
  - simpl in Hk. destruct k as [|k]; simpl; [constructor|].
    specialize (IH (S k) ltac:(lia)). simpl in IH. by rewrite Nat.sub_0_r in IH.
Qed.

Lemma carries_end mss a base ack bytes limit off segs x y :
  carries mss a base ack bytes limit off segs x → carries mss a base ack bytes limit off segs y → x = y.
Proof using.
  intros Hx. revert y. induction Hx as [off|off m len segs off' Hl Hlim Hm Hc IH]; intros y Hy; [by inversion Hy|].
  inversion Hy; subst. by apply IH.
Qed.

Lemma carries_take_le mss a base ack bytes limit off segs off' k : carries mss a base ack bytes limit off segs off' →
  (k <= length segs)%nat → (if (0 <? Z.of_nat k)%Z then segs.*2 !!! (k - 1)%nat else off) <= off'.
Proof using.
  intros Hc. revert k. induction Hc as [off|off m len segs off' Hl Hlim Hm Hc IH]; intros [|k] Hk; simpl; try done.
  - simpl in Hk. lia.
  - destruct (carries_le _ _ _ _ _ _ _ _ _ Hc). lia.
  - simpl in Hk. rewrite Nat.sub_0_r. specialize (IH k ltac:(lia)). destruct k as [|k]; simpl in *; [lia|]. by rewrite Nat.sub_0_r in IH.
Qed.

(** ** The inner loop *)

Lemma build_burst_spec room c base ack bytes limit off (w : E) segs off' w' :
  mac_ok (local_mac_ stack) → mac_ok (peer_mac c) → 1 <= send_mss c → 54 + send_mss c < 2 ^ 16 →
  0 <= off → limit <= Z.of_nat (length bytes) → limit < 2 ^ 32 →
  build_burst stack room c base ack bytes limit off w = (segs, off', w') →
  carries (send_mss c) (conn_addr stack c) base ack bytes limit off segs off' ∧
  (length segs <= room)%nat ∧ on_wire w' = on_wire w ∧ held w' = held w + Z.of_nat (length segs).
Proof using All.
  intros Hm1 Hm2 Hmss Hmax Hoff Hlim H32. revert off w segs off' w' Hoff.
  induction room as [|room IH]; intros off w segs off' w' Hoff; simpl.
  { intros [= <- <- <-]. split_and!; [constructor|done|done|simpl; lia]. }
  destruct (Z.ltb_spec off limit) as [Hlt|Hge]; [|intros [= <- <- <-]; split_and!; [constructor|simpl; lia|done|simpl; lia]].
  set (len := Z.min (send_mss c) (limit - off)).
  assert (Hmin : len = Z.min (send_mss c) (limit - off)) by done.
  assert (Hlen : 0 < len <= send_mss c ∧ len <= limit - off) by lia. clearbody len.
  set (fl := Z.lor _ _). set (pay := sub bytes (Z.to_nat off) (Z.to_nat len)).
  assert (Hpay : length pay = Z.to_nat len) by (apply length_sub; lia).
  pose proof (held_build_segment (pool_ stack) (conn_addr stack c) (u32 (base + u32 off)) ack fl
    (receive_window (params_ stack)) pay 0 w) as Hh.
  pose proof (wire_build_segment (q_port txq) (q_id txq) (pool_ stack) (conn_addr stack c) (u32 (base + u32 off)) ack fl
    (receive_window (params_ stack)) pay 0 w) as Hw.
  destruct (build_segment _ _ _ _ _ _ _ _ w) as [[m|] w1] eqn:Eb; cbn [fst snd] in Hh, Hw.
  2: { intros [= <- <- <-]. change (owned [None]) with 0 in Hh. split_and!; [constructor|simpl; lia|done|simpl; lia]. }
  change (owned [Some m]) with 1 in Hh.
  destruct (build_burst stack room c base ack bytes limit (off + len) w1) as [[rest off2] w2] eqn:Er.
  intros [= <- <- <-]. destruct (IH (off + len) _ _ _ _ ltac:(lia) Er) as (Hc & Hl & Hw2 & Hh2).
  assert (Hfl : frame_len pay 0 < 2 ^ 16) by (unfold frame_len; rewrite Hpay; simpl; lia).
  destruct (build_segment_frame _ (conn_addr stack c) _ _ _ _ _ _ _ _ _ Hm1 Hm2 Hfl Eb) as [Hd _].
  split_and!; [|simpl; lia|congruence|simpl length; lia].
  constructor; [done|lia| |done]. rewrite Hd. unfold data_frame. do 1 f_equal. by rewrite (u32_id off) by mlia.
Qed.

(** ** The outer loop *)

Definition in_slots (slots : list tcp_connection) (i : Z) : Prop := 0 <= i < Z.of_nat (length slots).

Lemma conn_at_put slots i c : in_slots slots i → conn_at (put_conn slots i c) i = c.
Proof using. unfold in_slots, conn_at, put_conn. intros. apply list_lookup_total_insert_eq. lia. Qed.
Lemma put_put slots i c c' : put_conn (put_conn slots i c) i c' = put_conn slots i c'.
Proof using. apply list_insert_insert_eq. Qed.
Lemma put_same slots i : in_slots slots i → put_conn slots i (conn_at slots i) = slots.
Proof using.
  unfold in_slots, conn_at, put_conn. intros. apply list_insert_id, list_lookup_lookup_total_lt. lia.
Qed.
Lemma in_slots_put slots i c j : in_slots slots j → in_slots (put_conn slots i c) j.
Proof using. unfold in_slots, put_conn. by rewrite length_insert. Qed.
Lemma set_snd_nxt_id c x : snd_nxt c = x → set_snd_nxt c x = c.
Proof using. intros <-. by destruct c. Qed.

(** What a connection's segments depend on. *)
Definition sends_as (c : tcp_connection) : Z * segment_addr := (send_mss c, conn_addr stack c).

Lemma send_loop_spec fuel slots i base ack bytes limit done (w : E) :
  let c := conn_at slots i in
  in_slots slots i → mac_ok (local_mac_ stack) → mac_ok (peer_mac c) → 1 <= send_mss c → 54 + send_mss c < 2 ^ 16 →
  0 <= done <= limit → limit <= Z.of_nat (length bytes) → limit < 2 ^ 32 →
  snd_nxt c = u32 (base + done) → limit - done < Z.of_nat fuel →
  ∃ segs done' w', send_loop stack txq fuel slots i base ack bytes limit done w =
      Some (done', put_conn slots i (set_snd_nxt c (u32 (base + done'))), w') ∧
    carries (send_mss c) (conn_addr stack c) base ack bytes limit done segs done' ∧
    on_wire w' = on_wire w ++ segs.*1 ∧ held w' = held w.
Proof using All.
  revert slots done w. induction fuel as [|fuel IH]; intros slots done w c Hi Hm1 Hm2 Hmss Hmax Hd Hlim H32 Hn Hf; [lia|].
  cbn [send_loop]. destruct (Z.ltb_spec done limit) as [Hlt|Hge].
  2: { exists [], done, w. rewrite (set_snd_nxt_id c) by done. subst c. rewrite put_same by done.
       split_and!; [done|constructor|by rewrite app_nil_r|done]. }
  destruct (build_burst _ _ _ _ _ _ _ _ w) as [[segs off] w1] eqn:Eb.
  destruct (build_burst_spec _ c _ _ _ _ done _ _ _ _ Hm1 Hm2 Hmss Hmax ltac:(lia) Hlim H32 Eb) as (Hc & Hlen & Hw1 & Hh1).
  fold c in Hc. destruct (carries_le _ _ _ _ _ _ _ _ _ Hc) as [Hadv Hoff].
  change (Z.to_nat burst_max_size) with 32%nat in *.
  destruct (Z.eqb_spec (Z.of_nat (length segs)) 0) as [Ez|Ez].
  { exists [], done, w1. rewrite (set_snd_nxt_id c) by done. subst c. rewrite put_same by done.
    split_and!; [done|constructor|by rewrite app_nil_r|lia]. }
  rewrite conn_at_put by done. fold c. rewrite (u32_id off) by mlia.
  destruct (send_burst txq segs.*1 w1) as [[sent left_] w2] eqn:Es.
  assert (Hl1 : Z.of_nat (length segs.*1) < 2 ^ 16) by (rewrite length_fmap; lia).
  destruct (held_send_burst txq _ _ _ _ _ Hl1 Es) as (Hs & _ & Hown & Hh2). rewrite length_fmap in Hs, Hown.
  pose proof (wire_send_burst _ _ _ _ _ Hl1 Es) as Hw2.
  destruct (Z.ltb_spec sent (Z.of_nat (length segs))) as [Hpart|Hall].
  - set (done' := if 0 <? sent then segs.*2 !!! Z.to_nat (sent - 1) else done).
    pose proof (carries_take _ _ _ _ _ _ _ _ _ (Z.to_nat sent) Hc ltac:(lia)) as Hct.
    rewrite Z2Nat.id in Hct by lia. replace (Z.to_nat sent - 1)%nat with (Z.to_nat (sent - 1)) in Hct by lia. fold done' in Hct.
    destruct (carries_le _ _ _ _ _ _ _ _ _ Hct) as [Hda Hdl].
    exists (take (Z.to_nat sent) segs), done', (burst_dtor left_ w2). rewrite put_put.
    change (set_snd_nxt (set_snd_nxt c (u32 (base + off))) ?x) with (set_snd_nxt c x). rewrite (u32_id done') by mlia.
    split_and!; [done|done| |].
    + rewrite wire_burst_dtor, Hw2, Hw1. by rewrite <- fmap_take.
    + rewrite held_burst_dtor. lia.
  - assert (sent = Z.of_nat (length segs)) as -> by lia.
    assert (Hw3 : on_wire (burst_dtor left_ w2) = on_wire w ++ segs.*1).
    { rewrite wire_burst_dtor, Hw2, Hw1, Nat2Z.id, firstn_all2 by (rewrite length_fmap; lia). done. }
    assert (Hh3 : held (burst_dtor left_ w2) = held w) by (rewrite held_burst_dtor; lia).
    destruct (_ && (off <? limit)); [exists segs, off, (burst_dtor left_ w2); done|].
    destruct (IH (put_conn slots i (set_snd_nxt c (u32 (base + off)))) off (burst_dtor left_ w2))
      as (segs2 & done' & w' & Hr & Hc2 & Hw' & Hh'); rewrite ?conn_at_put by done; try done; try lia; [by apply in_slots_put|].
    rewrite conn_at_put in Hr, Hc2 by done. rewrite put_put in Hr.
    exists (segs ++ segs2), done', w'. split_and!; [exact Hr|by eapply carries_app| |congruence].
    rewrite Hw', Hw3, fmap_app. by rewrite app_assoc.
Qed.

(** [send] as one equation: nothing for a connection that cannot send,
    otherwise a run of the loop over what window and caller allow. *)
Lemma send_spec slots conn bytes (w : E) :
  let n := max_connections (params_ stack) in
  Z.of_nat (length slots) = n → 0 <= cid_slot conn →
  mac_ok (local_mac_ stack) →
  (∀ c, c = conn_at slots (cid_slot conn) → sendable stack slots conn = true →
     mac_ok (peer_mac c) ∧ 1 <= send_mss c ∧ 54 + send_mss c < 2 ^ 16 ∧ is_u32 (snd_nxt c)) →
  let c := conn_at slots (cid_slot conn) in
  let base := snd_nxt c in
  ∃ segs done w', send stack txq slots conn bytes w =
      Some (done, (if sendable stack slots conn then put_conn slots (cid_slot conn) (set_snd_nxt c (u32 (base + done))) else slots), w') ∧
    (sendable stack slots conn = false → done = 0) ∧
    carries (send_mss c) (conn_addr stack c) base (rcv_nxt c) bytes
      (Z.min (Z.of_nat (length bytes)) (window_space (send_window c) base)) 0 segs done ∧
    on_wire w' = on_wire w ++ segs.*1 ∧ held w' = held w.
Proof using All.
  intros n Hn Hi Hm Hc c base. specialize (Hc c eq_refl). unfold send.
  assert (Hnone : ∀ slots', slots' = slots → ∃ segs done w', Some (0, slots, w) = Some (done, slots', w') ∧
      (sendable stack slots conn = false → done = 0) ∧
      carries (send_mss c) (conn_addr stack c) base (rcv_nxt c) bytes
        (Z.min (Z.of_nat (length bytes)) (window_space (send_window c) base)) 0 segs done ∧
      on_wire w' = on_wire w ++ segs.*1 ∧ held w' = held w).
  { intros ? ->. exists [], 0, w. split_and!; [done|done|constructor|by rewrite app_nil_r|done]. }
  destruct (sendable stack slots conn) eqn:Es.
  2: { rewrite orb_true_r. exact (Hnone slots eq_refl). }
  destruct (Hc eq_refl) as (Hpm & Hmss & Hmax & Hnxt). rewrite orb_false_r.
  assert (Hlk : lookup stack slots conn = Some (cid_slot conn) ∧ in_slots slots (cid_slot conn)).
  { unfold sendable, lookup in *. destruct (Z.leb_spec (max_connections (params_ stack)) (cid_slot conn)); [done|].
    destruct (negb _); [done|]. destruct (_ || _); [done|]. split; [done|]. unfold in_slots. lia. }
  destruct Hlk as [-> Hin]. fold c. fold base.
  assert (Hid : put_conn slots (cid_slot conn) (set_snd_nxt c (u32 (base + 0))) = slots).
  { rewrite set_snd_nxt_id by (rewrite Z.add_0_r; symmetry; by apply u32_id). by apply put_same. }
  case_bool_decide as Eb.
  { destruct (Hnone (put_conn slots (cid_slot conn) (set_snd_nxt c (u32 (base + 0)))) Hid) as (segs & d & w' & [= <- Hs <-] & Hr).
    exists segs, 0, w. split; [by rewrite Hid|exact Hr]. }
  set (limit := Z.min _ _) in *. pose proof (window_space_range (send_window c) base) as Hws.
  destruct (Z.eqb_spec limit 0) as [El|El].
  { destruct (Hnone (put_conn slots (cid_slot conn) (set_snd_nxt c (u32 (base + 0)))) Hid) as (segs & d & w' & [= <- Hs <-] & Hr).
    exists segs, 0, w. split; [by rewrite Hid|exact Hr]. }
  assert (Hlim : 0 <= limit ∧ limit <= Z.of_nat (length bytes) ∧ limit < 2 ^ 32) by (unfold limit; lia). clearbody limit.
  destruct (send_loop_spec (S (Z.to_nat limit)) slots (cid_slot conn) base (rcv_nxt c) bytes limit 0 w) as (segs & done & w' & -> & Hcar & Hw & Hh);
    fold c; try assumption; try lia; [rewrite Z.add_0_r; symmetry; by apply u32_id|].
  exists segs, done, w'. split_and!; done.
Qed.

(** ** close *)

Definition fin_frame (c : tcp_connection) (seq : Z) : list Z :=
  frame (conn_addr stack c) seq (rcv_nxt c) (Z.lor RTE_TCP_FIN_FLAG RTE_TCP_ACK_FLAG) (receive_window (params_ stack)) [] 0.

(** However the attempts go, at most one FIN leaves, and none is lost. *)
Lemma fin_loop_spec attempts c seq fin (w : E) : mac_ok (local_mac_ stack) → mac_ok (peer_mac c) →
  (∀ m, fin = Some m → m_data m = fin_frame c seq) →
  ∃ out, on_wire (fin_loop stack txq attempts c seq fin w) = on_wire w ++ out ∧
    (out = [] ∨ ∃ m, out = [m] ∧ m_data m = fin_frame c seq) ∧
    held (fin_loop stack txq attempts c seq fin w) = held w - owned [fin].
Proof using All.
  intros Hm1 Hm2. revert fin w. induction attempts as [|k IH]; intros fin w Hfin; cbn [fin_loop].
  { exists []. rewrite held_dtor, app_nil_r. split_and!; [|by left|done]. by destruct fin; simpl; rewrite ?wire_free. }
  set (b := match fin with Some m => (Some m, w) | None => _ end).
  assert (Hb : on_wire b.2 = on_wire w ∧ held b.2 = held w - owned [fin] + owned [b.1] ∧
               ∀ m, b.1 = Some m → m_data m = fin_frame c seq).
  { subst b. destruct fin as [m|]; [cbn; split_and!; [done|lia|auto]|].
    match goal with |- context [build_segment ?p ?a ?q ?k ?f ?win ?pay ?o w] =>
      pose proof (held_build_segment p a q k f win pay o w) as Hh; pose proof (wire_build_segment (q_port txq) (q_id txq) p a q k f win pay o w) as Hw;
      destruct (build_segment p a q k f win pay o w) as [pkt w1] eqn:Eb end.
    cbn [fst snd] in *. change (owned [None]) with 0. split_and!; [done|rewrite Hh, Z.sub_0_r; reflexivity|]. intros m ->.
    eapply build_segment_frame in Eb as [Hd _]; [exact Hd|done|done|unfold frame_len; simpl; lia]. }
  destruct b as [[m|] w1]; cbn [fst snd] in Hb; destruct Hb as (Hw1 & Hh1 & Hd).
  2: { destruct (IH None w1) as (out & Ho & Hout & Hh); [done|]. exists out. rewrite Ho, Hh, Hw1. split_and!; [done|done|].
       change (owned [None]) with 0 in *. lia. }
  destruct (send_burst txq [m] w1) as [[sent left_] w2] eqn:Es. change (owned [Some m]) with 1 in Hh1.
  destruct (held_send_burst txq [m] w1 sent left_ w2 ltac:(simpl; lia) Es) as (Hs & Hll & Hown & Hh2).
  pose proof (wire_send_burst [m] w1 sent left_ w2 ltac:(simpl; lia) Es) as Hw2.
  unfold send_burst in Es. destruct (rte_eth_tx_burst _ _ _ _) as [n' w']. injection Es as E1 E2 E3. subst n' left_. simpl in Hs.
  destruct (Z.eqb_spec sent 1) as [->|Hne].
  - exists [m]. change (Z.to_nat 1) with 1%nat. simpl. simpl in Hw2. rewrite Hw2, Hw1. split_and!; [done|right; eauto|lia].
  - assert (sent = 0) as -> by lia. simpl in Hw2. rewrite app_nil_r in Hw2.
    destruct (IH (Some m) w2) as (out & Ho & Hout & Hh); [auto|]. exists out. change (fin_loop stack txq k c seq _ w2) with (fin_loop stack txq k c seq (Some m) w2). rewrite Ho, Hh, Hw2, Hw1. split_and!; [done|done|].
    change (owned [Some m]) with 1. lia.
Qed.

(** The flags [close] leaves behind. *)
Definition flags_ok (x : Z) : Prop := 0 <= x < 4.

Lemma flags_cases x : flags_ok x → x = 0 ∨ x = 1 ∨ x = 2 ∨ x = 3.
Proof using. unfold flags_ok. lia. Qed.

(** The slot after [close] of a connection [c]. *)
Definition closed_by_us (c : tcp_connection) : tcp_connection :=
  if negb (flag (out_flags c) out_fin_sent) && (terminated c =? 0)
  then set_out_flags (set_snd_nxt c (u32 (snd_nxt c + 1))) 3
  else set_out_flags c (u8 (Z.lor (out_flags c) out_released)).

Lemma closed_by_us_flags c : flags_ok (out_flags c) →
  flag (out_flags (closed_by_us c)) out_released = true ∧ flags_ok (out_flags (closed_by_us c)) ∧
  (flag (out_flags (closed_by_us c)) out_fin_sent = true ↔
     flag (out_flags c) out_fin_sent = true ∨ terminated c = 0).
Proof using.
  intros Hf. unfold closed_by_us. destruct (flags_cases _ Hf) as [-> |[-> |[-> | ->]]];
    destruct (Z.eqb_spec (terminated c) 0); cbn; unfold flags_ok; split_and!; try done; try lia; naive_solver.
Qed.

Lemma close_spec slots conn (w : E) i : lookup stack slots conn = Some i →
  mac_ok (local_mac_ stack) → mac_ok (peer_mac (conn_at slots i)) → flags_ok (out_flags (conn_at slots i)) →
  let c := conn_at slots i in
  ∃ out w', close stack txq slots conn w = (put_conn slots i (closed_by_us c), w') ∧
    on_wire w' = on_wire w ++ out ∧ held w' = held w ∧
    (out = [] ∨ flag (out_flags c) out_fin_sent = false ∧ terminated c = 0 ∧
                ∃ m, out = [m] ∧ m_data m = fin_frame c (snd_nxt c)).
Proof using All.
  intros Hl Hm1 Hm2 Hf c. unfold close. rewrite Hl. fold c. fold c in Hm2, Hf. unfold closed_by_us.
  destruct (flag (out_flags c) out_fin_sent) eqn:Ef; cbn [negb andb].
  { exists [], w. rewrite app_nil_r. split_and!; [done|done|done|by left]. }
  destruct (Z.eqb_spec (terminated c) 0) as [Et|Et]; cbn [andb].
  2: { exists [], w. rewrite app_nil_r. split_and!; [done|done|done|by left]. }
  assert (E3 : u8 (Z.lor (Z.lor (out_flags c) out_fin_sent) out_released) = 3).
  { destruct (flags_cases _ Hf) as [E1|[E1|[E1|E1]]]; rewrite E1; reflexivity. }
  rewrite E3. set (c1 := set_out_flags (set_snd_nxt c (u32 (snd_nxt c + 1))) (Z.lor (out_flags c) out_fin_sent)).
  destruct (fin_loop_spec kCloseRetries c1 (snd_nxt c) None w Hm1 Hm2 ltac:(done)) as (out & Hw & Hout & Hh).
  exists out, (fin_loop stack txq kCloseRetries c1 (snd_nxt c) None w). split_and!; [|done|rewrite Hh; change (owned [None]) with 0; lia|].
  - reflexivity.
  - destruct Hout as [->|(m & -> & Hd)]; [by left|right]. split_and!; [done|done|]. by exists m.
Qed.
End send_proofs.
