(* ===== verification/Scenario.v ===== *)
(** * A concrete exchange

    A stack with two connection slots listening on port 80, and the frames a
    peer at 10.0.0.2:40000 sends it: the inputs at which the theorems about the
    TCP components are instantiated.  Everything here evaluates, on the
    simulated DPDK of DpdkSim.v. *)

From S2P Require Import Prelude Dpdk DpdkSim Packet Segment SegmentWire TcpState TcpReceiver TcpSender.

Module demo.
#[local] Existing Instances sim.ops.

Definition params : tcp_params :=
  {| max_connections := 2; p_mss := 1460; receive_window := 65535; verify_checksums := true |}.
Definition stack : tcp_stack := Stack 0 [2; 0; 0; 0; 0; 1] 0x0a000001 1460 params [80] true true.
Definition control_txq : queue := {| q_port := 0; q_id := 0 |}.
Definition data_txq : queue := {| q_port := 0; q_id := 1 |}.

Definition conns : list tcp_connection := replicate 2 new_connection.
Definition boot : impl sim.env := impl_new stack conns (sim.start 64 2048).

Definition peer : segment_addr :=
  {| src_mac := [2; 0; 0; 0; 0; 2]; dst_mac := [2; 0; 0; 0; 0; 1]; src_ip := 0x0a000002; dst_ip := 0x0a000001;
     src_port := 40000; dst_port := 80 |}.
(** A frame of the peer; its window is 65535. *)
Definition from_peer (seq ack flags : Z) (payload : list Z) : rte_mbuf :=
  let bs := frame peer seq ack flags 65535 payload 0 in Mbuf bs (Z.of_nat (length bs)) 1 0 0 0.

(** The simulated [rte_rand] draws 0, so our numbers start at 1; the peer
    starts at 1000. *)
Definition syn : rte_mbuf := from_peer 1000 0 0x02 [].
Definition ack_hi : rte_mbuf := from_peer 1001 1 0x10 [104; 105].
Definition fin : rte_mbuf := from_peer 1003 1 0x11 [].
Definition rst : rte_mbuf := from_peer 1001 1 0x14 [].

Definition poll (r : impl sim.env) (burst : list rte_mbuf) : impl sim.env :=
  (TcpReceiver.poll stack control_txq r burst).2.

Definition half_open : impl sim.env := poll boot [syn].
Definition open : impl sim.env := poll half_open [ack_hi].
Definition conn : conn_id := {| cid_slot := 0; cid_generation := 1 |}.

(** Well-formed packets by evaluation. *)
Definition wfb (pkt : rte_mbuf) : bool :=
  forallb (λ x, (0 <=? x) && (x <? 256)) (m_data pkt) && (0 <=? m_pkt_len pkt) &&
  (m_pkt_len pkt =? Z.of_nat (length (m_data pkt))).
Lemma wfb_ok pkt : wfb pkt = true → pkt_wf pkt.
Proof.
  unfold wfb. intros [[Hb Hl]%andb_prop He]%andb_prop. split_and!; [|lia|lia].
  apply Forall_forall. intros x Hx. apply forallb_forall with (x := x) in Hb; [|by apply list_elem_of_In]. unfold is_u8. lia.
Qed.
Lemma wfb_all burst : forallb wfb burst = true → Forall pkt_wf burst.
Proof. intros Hb. apply Forall_forall. intros p Hp. apply wfb_ok. apply forallb_forall with (x := p) in Hb; [done|by apply list_elem_of_In]. Qed.

Example open_established : (state (slot open 0), rcv_nxt (slot open 0), snd_nxt (slot open 0)) = (st_established, 1003, 1).
Proof. vm_compute. reflexivity. Qed.
Example open_events : ev_bytes <$> (TcpReceiver.poll stack control_txq half_open [ack_hi]).1 = [[]; [104; 105]].
Proof. vm_compute. reflexivity. Qed.
End demo.
