(* ===== verification/Echo.v ===== *)
(** * The echo server (examples/tcp_echo_server.h)

    The lock-free ring between the two threads, the inbound thread's overflow
    queue behind it, the event handler that fills them, and [close_once].  The
    ring's counters are 64-bit and wrap; the theorems say that ring and overflow
    together are one unbounded FIFO, whatever the order of the two threads'
    calls, and that a data event reaches it in full. *)

From Stdlib Require Import Sorted.
From S2P Require Import Prelude Dpdk DpdkSim Packet TcpState TcpReceiver TcpSender Scenario.

(** ** spsc_ring *)

Module spsc_ring.
Section ring.
Context {T : Type} `{!Inhabited T} (Capacity : Z).

Record ring := Ring { head_ : Z; tail_ : Z; items_ : list T }.

(** Producer: the index of the slot to fill, if there is room. *)
Definition reserve (r : ring) : option nat :=
  if u64 (head_ r - tail_ r) =? Capacity then None else Some (Z.to_nat (Z.land (head_ r) (Capacity - 1))).
Definition fill (r : ring) (i : nat) (x : T) : ring := Ring (head_ r) (tail_ r) (<[i := x]> (items_ r)).
Definition commit (r : ring) : ring := Ring (u64 (head_ r + 1)) (tail_ r) (items_ r).

(** Consumer. *)
Definition front (r : ring) : option T :=
  if tail_ r =? head_ r then None else Some (items_ r !!! Z.to_nat (Z.land (tail_ r) (Capacity - 1))).
Definition pop (r : ring) : ring := Ring (head_ r) (u64 (tail_ r + 1)) (items_ r).

(** The ring holds the queue [q]. *)
Record rep (r : ring) (q : list T) : Prop := {
  r_tail : is_u64 (tail_ r);
  r_head : head_ r = u64 (tail_ r + Z.of_nat (length q));
  r_items : Z.of_nat (length (items_ r)) = Capacity;
  r_len : Z.of_nat (length q) <= Capacity;
  r_at : ∀ i x, q !! i = Some x → items_ r !! Z.to_nat ((tail_ r + Z.of_nat i) mod Capacity) = Some x }.

Context (k : Z) (Hk : 0 <= k <= 63) (Hcap : Capacity = 2 ^ k).

Lemma cap_range : 1 <= Capacity <= 2 ^ 63.
Proof using Hk Hcap.
  rewrite Hcap. split; [change 1 with (2 ^ 0); apply Z.pow_le_mono_r; lia|apply Z.pow_le_mono_r; lia].
Qed.

Lemma mask x : Z.land x (Capacity - 1) = x mod Capacity.
Proof using Hk Hcap. rewrite Hcap, Z.sub_1_r, <- Z.ones_equiv. apply Z.land_ones. lia. Qed.

(** Wrapping at 64 bits does not disturb the index. *)
Lemma wrap_mod x : u64 x mod Capacity = x mod Capacity.
Proof using Hk Hcap.
  unfold u64. rewrite Hcap. replace (2 ^ 64) with (2 ^ k * 2 ^ (64 - k)) by (rewrite <- Z.pow_add_r by lia; f_equal; lia).
  rewrite Z.rem_mul_r by lia. rewrite Z.mul_comm, Z_mod_plus_full. apply Z.mod_mod. lia.
Qed.

Lemma reserve_spec r q : rep r q →
  reserve r = if Z.of_nat (length q) =? Capacity then None
              else Some (Z.to_nat ((tail_ r + Z.of_nat (length q)) mod Capacity)).
Proof using Hk Hcap.
  intros []. pose proof cap_range as Hc. unfold reserve. rewrite mask, r_head0, wrap_mod.
  assert (Hd : u64 (u64 (tail_ r + Z.of_nat (length q)) - tail_ r) = Z.of_nat (length q)); [|by rewrite Hd].
  pose proof (Nat2Z.is_nonneg (length q)) as H0. revert r_tail0 r_len0 Hc H0. generalize (Z.of_nat (length q)). clear. intros. mlia.
Qed.

(** Filling the reserved slot appends; the other slots are not hit. *)
Lemma push_spec r q i x : rep r q → reserve r = Some i → rep (commit (fill r i x)) (q ++ [x]) ∧ (i < length (items_ r))%nat.
Proof using Hk Hcap.
  intros Hr. rewrite (reserve_spec r q Hr). pose proof cap_range as Hc. destruct Hr.
  destruct (Z.eqb_spec (Z.of_nat (length q)) Capacity) as [|Hne]; [done|]. intros [= <-].
  pose proof (Z.mod_pos_bound (tail_ r + Z.of_nat (length q)) Capacity ltac:(lia)) as Hb.
  split; [|lia]. split; cbn; rewrite ?length_insert, ?length_app; simpl; try done; try lia.
  - rewrite r_head0. unfold u64. rewrite Zplus_mod_idemp_l. f_equal. lia.
  - intros j y Hj. apply lookup_app_Some in Hj as [Hj|[Hj Hx]].
    + pose proof (lookup_lt_Some _ _ _ Hj) as Hlt. rewrite list_lookup_insert_ne; [by apply r_at0|].
      pose proof (Z.mod_pos_bound (tail_ r + Z.of_nat j) Capacity ltac:(lia)) as Hbj. intros Heq.
      apply Z2Nat.inj in Heq; [|lia|lia]. 
      assert (Hz : (Z.of_nat (length q) - Z.of_nat j) mod Capacity = 0).
      { replace (Z.of_nat (length q) - Z.of_nat j) with (tail_ r + Z.of_nat (length q) - (tail_ r + Z.of_nat j)) by lia.
        by rewrite Zminus_mod, Heq, Z.sub_diag. }
      rewrite Z.mod_small in Hz by lia. lia.
    + apply list_lookup_singleton_Some in Hx as [Hx ->]. replace j with (length q) by lia. apply list_lookup_insert_eq. lia.
Qed.

Lemma front_spec r q : rep r q → front r = head q.
Proof using Hk Hcap.
  intros []. pose proof cap_range as Hc. unfold front. rewrite mask. destruct q as [|x q]; cbn [head].
  - rewrite r_head0. simpl. rewrite Z.add_0_r. unfold u64. rewrite Z.mod_small by exact r_tail0. by rewrite Z.eqb_refl.
  - simpl length in *. destruct (Z.eqb_spec (tail_ r) (head_ r)) as [He|_].
    + exfalso. rewrite r_head0 in He. assert (H1 : 1 <= Z.of_nat (S (length q))) by lia.
      revert He r_tail0 r_len0 Hc H1. generalize (Z.of_nat (S (length q))). clear. intros. mlia.
    + specialize (r_at0 0%nat x eq_refl). rewrite Z.add_0_r in r_at0. f_equal. by apply list_lookup_total_correct.
Qed.

Lemma pop_spec r x q : rep r (x :: q) → rep (pop r) q.
Proof using Hk Hcap.
  intros []. pose proof cap_range as Hc. simpl length in *. split; cbn; try done; try lia.
  - apply u64_range.
  - rewrite r_head0. unfold u64. rewrite Zplus_mod_idemp_l. f_equal. lia.
  - intros i y Hi. rewrite <- (r_at0 (S i) y Hi). do 2 f_equal. rewrite <- (Zplus_mod_idemp_l (u64 _)), wrap_mod, Zplus_mod_idemp_l.
    f_equal. lia.
Qed.

(** *** Any interleaving of the two sides *)

Inductive op := Push (x : T) | Pop.

(** What a call returns: whether there was room, or the item. *)
Definition run (r : ring) (o : op) : ring * (bool + option T) :=
  match o with
  | Push x => match reserve r with None => (r, inl false) | Some i => (commit (fill r i x), inl true) end
  | Pop => match front r with None => (r, inr None) | Some x => (pop r, inr (Some x)) end
  end.
Definition spec (q : list T) (o : op) : list T * (bool + option T) :=
  match o with
  | Push x => if Z.of_nat (length q) =? Capacity then (q, inl false) else (q ++ [x], inl true)
  | Pop => match q with [] => ([], inr None) | x :: q => (q, inr (Some x)) end
  end.
Fixpoint results {S} (step : S → op → S * (bool + option T)) (s : S) (os : list op) : list (bool + option T) :=
  match os with [] => [] | o :: os => let '(s, res) := step s o in res :: results step s os end.

Lemma run_spec r q o : rep r q → rep (run r o).1 (spec q o).1 ∧ (run r o).2 = (spec q o).2.
Proof using Hk Hcap.
  intros Hr. destruct o as [x|]; cbn [run spec].
  - pose proof (reserve_spec r q Hr) as Hs. pose proof (λ i, push_spec r q i x Hr) as Hp.
    destruct (Z.of_nat (length q) =? Capacity); rewrite Hs in *; [done|]. by destruct (Hp _ eq_refl).
  - rewrite (front_spec r q Hr). destruct q as [|x q]; [done|]. cbn. split; [by apply (pop_spec r x)|done].
Qed.

Lemma results_refine r q os : rep r q → results run r os = results spec q os.
Proof using Hk Hcap.
  revert r q. induction os as [|o os IH]; intros r q Hr; [done|]. simpl. destruct (run_spec r q o Hr) as [H1 H2].
  destruct (run r o) as [r1 x], (spec q o) as [q1 y]. cbn in *. subst y. f_equal. by apply IH.
Qed.
End ring.
Arguments ring : clear implicits.
Arguments op : clear implicits.

(** The ring is a bounded FIFO: for any capacity that is a power of two
    up to 2^63, from any counter value, so also when the 64-bit counters wrap,
    every sequence of producer and consumer calls returns what a queue of that
    capacity returns: a reservation fails exactly when it is full, and items
    come out in order, each once. *)
Theorem ring_refines_fifo {T} `{!Inhabited T} (k start : Z) (items : list T) (os : list (op T)) :
  0 <= k <= 63 → is_u64 start → Z.of_nat (length items) = 2 ^ k →
  results (run (2 ^ k)) (Ring start start items) os = results (spec (2 ^ k)) [] os.
Proof.
  intros Hk Hs Hl. apply (results_refine (2 ^ k) k Hk eq_refl). split; cbn; try done.
  - rewrite Z.add_0_r. unfold u64. symmetry. by apply Z.mod_small.
  - apply Z.pow_nonneg. lia.
Qed.

(** Capacity 2, across the wrap of the counters. *)
Lemma ring_refines_fifo_witness :
  results (run 2) (Ring (2 ^ 64 - 1) (2 ^ 64 - 1) [0; 0]) [Push 5; Push 6; Push 7; Pop; Push 8; Pop; Pop; Pop] =
    [inl true; inl true; inl false; inr (Some 5); inl true; inr (Some 6); inr (Some 8); inr None].
Proof.
  rewrite (ring_refines_fifo 1 (2 ^ 64 - 1) [0; 0] [Push 5; Push 6; Push 7; Pop; Push 8; Pop; Pop; Pop]);
    [reflexivity|split; discriminate|split; [discriminate|reflexivity]|reflexivity].
Defined.
End spsc_ring.

(** ** Work items *)

Inductive work_kind := wk_data | wk_peer_closed | wk_reset.
#[export] Instance work_kind_eq_dec : EqDecision work_kind.
Proof. solve_decision. Defined.
Record work_item := Item { what : work_kind; item_conn : conn_id; item_len : Z; item_bytes : list Z }.
#[export] Instance work_item_inhabited : Inhabited work_item :=
  populate (Item wk_data {| cid_slot := 0; cid_generation := 0 |} 0 []).

Definition item_capacity : Z := 2048.
Definition ring_capacity : Z := 4096.

(** Only the bytes in use are copied; the rest of [dst] stays. *)
Definition copy_item (dst src : work_item) : work_item :=
  Item (what src) (item_conn src) (item_len src) (wr (item_bytes dst) 0 (take (Z.to_nat (item_len src)) (item_bytes src))).

Definition item_ok (it : work_item) : Prop :=
  0 <= item_len it <= item_capacity ∧ Z.of_nat (length (item_bytes it)) = item_capacity.

(** What the consumer reads of an item. *)
Definition view (it : work_item) : work_kind * conn_id * list Z :=
  (what it, item_conn it, take (Z.to_nat (item_len it)) (item_bytes it)).

Lemma copy_item_ok dst src : Z.of_nat (length (item_bytes dst)) = item_capacity → item_ok src →
  item_ok (copy_item dst src) ∧ view (copy_item dst src) = view src.
Proof.
  intros Hd [Hl Hs]. assert (Ht : length (take (Z.to_nat (item_len src)) (item_bytes src)) = Z.to_nat (item_len src)) by (rewrite length_take; lia).
  split; [split; [done|]; cbn; rewrite length_wr; lia|]. unfold view. cbn [copy_item what item_conn item_len item_bytes]. f_equal.
  unfold wr. rewrite take_0, app_nil_l. by apply take_app_length'.
Qed.

(** ** The server's queues and counters *)

Record server := Server {
  ring_ : spsc_ring.ring work_item; overflow_ : list work_item; accepted_count : Z; finished_count : Z;
  released_gen_ : list Z }.
Definition set_ring (s : server) (r : spsc_ring.ring work_item) : server :=
  Server r (overflow_ s) (accepted_count s) (finished_count s) (released_gen_ s).
Definition set_overflow (s : server) (o : list work_item) : server :=
  Server (ring_ s) o (accepted_count s) (finished_count s) (released_gen_ s).

(** [copy_item( *slot, item); ring_->commit();] on a reserved slot. *)
Definition store_item (r : spsc_ring.ring work_item) (i : nat) (item : work_item) : spsc_ring.ring work_item :=
  spsc_ring.commit (spsc_ring.fill r i (copy_item (spsc_ring.items_ r !!! i) item)).

Definition enqueue (s : server) (item : work_item) : server :=
  match overflow_ s, spsc_ring.reserve ring_capacity (ring_ s) with
  | [], Some i => set_ring s (store_item (ring_ s) i item)
  | _, _ => set_overflow s (overflow_ s ++ [item])
  end.

Fixpoint drain_loop (overflow : list work_item) (r : spsc_ring.ring work_item) : list work_item * spsc_ring.ring work_item :=
  match overflow with
  | [] => ([], r)
  | item :: rest =>
    match spsc_ring.reserve ring_capacity r with
    | None => (overflow, r)
    | Some i => drain_loop rest (store_item r i item)
    end
  end.
Definition drain_overflow (s : server) : server :=
  let '(o, r) := drain_loop (overflow_ s) (ring_ s) in set_overflow (set_ring s r) o.

(** The data loop of [handle] at [off]; [junk] is what the stack holds where
    [work_item item;] is declared. *)
Fixpoint handle_data (fuel : nat) (conn : conn_id) (data junk : list Z) (off : nat) (s : server) : option server :=
  match fuel with
  | O => None
  | S fuel =>
    if (off <? length data)%nat then
      let n := Nat.min (length data - off) (Z.to_nat item_capacity) in
      let item := Item wk_data conn (u16 (Z.of_nat n)) (wr junk 0 (sub data off n)) in
      handle_data fuel conn data junk (off + n) (enqueue s item)
    else Some s
  end.

Definition handle (junk : list Z) (s : server) (ev : tcp_event) : server :=
  match ev_type ev with
  | ev_accepted => Server (ring_ s) (overflow_ s) (u64 (accepted_count s + 1)) (finished_count s) (released_gen_ s)
  | ev_data => default s (handle_data (S (length (ev_bytes ev))) (ev_conn ev) (ev_bytes ev) junk 0 s)
  | ev_peer_closed => enqueue s (Item wk_peer_closed (ev_conn ev) 0 junk)
  | ev_reset =>
    let s := enqueue s (Item wk_reset (ev_conn ev) 0 junk) in
    Server (ring_ s) (overflow_ s) (accepted_count s) (u64 (finished_count s + 1)) (released_gen_ s)
  | ev_closed => Server (ring_ s) (overflow_ s) (accepted_count s) (u64 (finished_count s + 1)) (released_gen_ s)
  end.

(** The outbound thread works on the oldest item in its slot, then pops it. *)
Definition front_item (s : server) : option work_item := spsc_ring.front ring_capacity (ring_ s).
Definition pop_item (s : server) : server := set_ring s (spsc_ring.pop (ring_ s)).

(** ** One FIFO *)

(** The server holds the pending items [q], oldest first. *)
Record pending (s : server) (q : list (work_kind * conn_id * list Z)) : Prop := {
  pd_ring : ∃ l, spsc_ring.rep ring_capacity (ring_ s) l ∧ q = (view <$> l) ++ (view <$> overflow_ s) ∧ Forall item_ok l;
  pd_slots : Forall (λ it, Z.of_nat (length (item_bytes it)) = item_capacity) (spsc_ring.items_ (ring_ s));
  pd_over : Forall item_ok (overflow_ s) }.

(** Only the two queues matter. *)
Lemma pending_keep s1 s2 q : ring_ s2 = ring_ s1 → overflow_ s2 = overflow_ s1 → pending s1 q → pending s2 q.
Proof. intros E1 E2 [H1 H2 H3]. split; by rewrite ?E1, ?E2. Qed.

Lemma ring_params : 0 <= 12 <= 63 ∧ ring_capacity = 2 ^ 12.
Proof. split; [lia|reflexivity]. Qed.

Lemma store_item_spec r l i item : spsc_ring.rep ring_capacity r l → spsc_ring.reserve ring_capacity r = Some i →
  Forall (λ it, Z.of_nat (length (item_bytes it)) = item_capacity) (spsc_ring.items_ r) → item_ok item →
  ∃ x, spsc_ring.rep ring_capacity (store_item r i item) (l ++ [x]) ∧ view x = view item ∧ item_ok x ∧
    Forall (λ it, Z.of_nat (length (item_bytes it)) = item_capacity) (spsc_ring.items_ (store_item r i item)).
Proof.
  intros Hr Hi Hs Ho. destruct ring_params as [Hk Hc]. set (x := copy_item (spsc_ring.items_ r !!! i) item).
  destruct (spsc_ring.push_spec ring_capacity 12 Hk Hc r l i x Hr Hi) as [Hp Hlt].
  assert (Hd : Z.of_nat (length (item_bytes (spsc_ring.items_ r !!! i))) = item_capacity).
  { rewrite Forall_lookup in Hs. apply (Hs i). by apply list_lookup_lookup_total_lt. }
  destruct (copy_item_ok _ _ Hd Ho) as [[Hok1 Hok2] Hv]. exists x. split_and!; [exact Hp|exact Hv|by split|]. cbn. by apply Forall_insert.
Qed.

Lemma enqueue_spec s q item : pending s q → item_ok item → pending (enqueue s item) (q ++ [view item]).
Proof.
  intros [(l & Hr & -> & Hl) Hs Ho] Hi. unfold enqueue.
  destruct (overflow_ s) as [|it rest] eqn:Eo; [destruct (spsc_ring.reserve ring_capacity (ring_ s)) as [i|] eqn:Ei|].
  - destruct (store_item_spec _ l i item Hr Ei Hs Hi) as (x & Hp & Hv & Hx & Hs'). split; cbn; [|done|by rewrite Eo].
    exists (l ++ [x]). rewrite Eo, fmap_app, Forall_app, Forall_singleton. simpl. by rewrite Hv, !app_nil_r.
  - split; cbn; [|done|by apply Forall_singleton]. exists l. split; [done|]. simpl. by rewrite app_nil_r.
  - split; cbn; [|done|]. + exists l. split; [done|]. by rewrite <- app_assoc, fmap_app.
    + rewrite app_comm_cons. apply Forall_app. split; [done|]. by apply Forall_singleton.
Qed.

Lemma drain_spec s q : pending s q →
  pending (drain_overflow s) q ∧
  (overflow_ (drain_overflow s) = [] ∨ spsc_ring.reserve ring_capacity (ring_ (drain_overflow s)) = None).
Proof.
  intros [(l & Hr & -> & Hl) Hs Ho]. unfold drain_overflow. revert l Hr Hs Hl. generalize (ring_ s). generalize (overflow_ s) Ho. clear Ho.
  intros o. induction o as [|it o IH]; intros Ho r l Hr Hs Hl; cbn [drain_loop].
  { split; [|by left]. split; cbn; [by exists l|done|done]. }
  apply Forall_cons in Ho as [Hit Ho]. destruct (spsc_ring.reserve ring_capacity r) as [i|] eqn:Ei.
  - destruct (store_item_spec r l i it Hr Ei Hs Hit) as (x & Hp & Hv & Hx & Hs').
    specialize (IH Ho _ (l ++ [x]) Hp Hs' ltac:(by rewrite Forall_app, Forall_singleton)).
    destruct (drain_loop o (store_item r i it)) as [o' r']. rewrite fmap_app in IH. cbn [fmap list_fmap] in IH |- *.
    rewrite Hv, <- app_assoc in IH. exact IH.
  - split; [|by right]. split; cbn; [by exists l|done|by constructor].
Qed.

Lemma front_item_spec s q : pending s q →
  match front_item s with
  | None => True
  | Some it => ∃ rest, q = view it :: rest ∧ item_ok it ∧ pending (pop_item s) rest
  end.
Proof.
  intros [(l & Hr & -> & Hl) Hs Ho]. destruct ring_params as [Hk Hc]. unfold front_item, pop_item.
  rewrite (spsc_ring.front_spec ring_capacity 12 Hk Hc _ _ Hr). destruct l as [|it l]; [done|]. cbn.
  apply Forall_cons in Hl as [Hit Hl].
  exists ((view <$> l) ++ (view <$> overflow_ s)). split; [done|]. split; [done|]. split; cbn; [|done|done]. exists l. split; [|done].
  by apply (spsc_ring.pop_spec ring_capacity 12 Hk Hc _ it).
Qed.

(** The inbound thread's calls, and the outbound thread's: [Front] begins work
    on an item if there is one, [Done] ends it and pops. *)
Inductive call := Enqueue (it : work_item) | Drain | Front | Done.

(** Calls of the two threads in any order.  [busy]: the outbound thread is at
    work on an item.  Beside the server it gives the items as they were when
    work on them began, and as they were in their slots when it ended. *)
Fixpoint run_calls (s : server) (busy : bool) (cs : list call)
    : server * bool * list (work_kind * conn_id * list Z) * list (work_kind * conn_id * list Z) :=
  match cs with
  | [] => (s, busy, [], [])
  | Enqueue it :: cs => run_calls (enqueue s it) busy cs
  | Drain :: cs => run_calls (drain_overflow s) busy cs
  | Front :: cs =>
    match busy, front_item s with
    | false, Some it => let '(s, busy, began, ended) := run_calls s true cs in (s, busy, view it :: began, ended)
    | _, _ => run_calls s busy cs
    end
  | Done :: cs =>
    match busy, front_item s with
    | true, Some it => let '(s, busy, began, ended) := run_calls (pop_item s) false cs in (s, busy, began, view it :: ended)
    | _, _ => run_calls s busy cs
    end
  end.
Definition enqueued (cs : list call) : list (work_kind * conn_id * list Z) :=
  omap (λ c, match c with Enqueue it => Some (view it) | _ => None end) cs.
Definition call_ok (c : call) : Prop := match c with Enqueue it => item_ok it | _ => True end.

(** While an item is worked on the ring is not empty, whatever is stored. *)
Lemma store_front r l i item : spsc_ring.rep ring_capacity r l → spsc_ring.reserve ring_capacity r = Some i →
  spsc_ring.front ring_capacity (store_item r i item) ≠ None.
Proof.
  intros Hr Hi. destruct ring_params as [Hk Hc]. unfold store_item.
  destruct (spsc_ring.push_spec ring_capacity 12 Hk Hc r l i (copy_item (spsc_ring.items_ r !!! i) item) Hr Hi) as [Hp _].
  rewrite (spsc_ring.front_spec ring_capacity 12 Hk Hc _ _ Hp). by destruct l.
Qed.
Lemma enqueue_front s q item : pending s q → front_item s ≠ None → front_item (enqueue s item) ≠ None.
Proof.
  intros [(l & Hr & _) _ _] Hf. unfold enqueue. destruct (overflow_ s); [|done].
  destruct (spsc_ring.reserve ring_capacity (ring_ s)) as [i|] eqn:Ei; [|done]. by apply (store_front (ring_ s) l).
Qed.
Lemma drain_front s q : pending s q → front_item s ≠ None → front_item (drain_overflow s) ≠ None.
Proof.
  intros [(l & Hr & _) Hs Ho]. unfold front_item, drain_overflow. revert l Hr Hs. generalize (ring_ s). generalize (overflow_ s) Ho. clear Ho.
  intros o. induction o as [|it o IH]; intros Ho r l Hr Hs Hf; cbn [drain_loop]; [done|].
  apply Forall_cons in Ho as [Hit Ho]. destruct (spsc_ring.reserve ring_capacity r) as [i|] eqn:Ei; [|done].
  destruct (store_item_spec r l i it Hr Ei Hs Hit) as (x & Hp & _ & _ & Hs'). apply (IH Ho _ _ Hp Hs'). by apply (store_front r l).
Qed.

Lemma run_calls_spec s q busy cs : pending s q → (busy = true → front_item s ≠ None) → Forall call_ok cs →
  let '(s', busy', began, ended) := run_calls s busy cs in
  let at_work (s : server) (b : bool) := if b then option_list (view <$> front_item s) else [] in
  ∃ rest, pending s' (at_work s' busy' ++ rest) ∧
    at_work s busy ++ began = ended ++ at_work s' busy' ∧ at_work s busy ++ began ++ rest = q ++ enqueued cs.
Proof.
  intros Hp Hb Hcs. revert s q busy Hp Hb. induction Hcs as [|c cs Hc _ IH]; intros s q busy Hp Hb; cbn [run_calls].
  { pose proof (front_item_spec s q Hp) as Hf. destruct busy; cbn.
    - specialize (Hb eq_refl). destruct (front_item s) as [it|]; [|done]. destruct Hf as (rest & -> & _). exists rest. split; [exact Hp|]. split; [done|]. cbn. by rewrite app_nil_r.
    - exists q. split; [exact Hp|]. split; [done|]. by rewrite app_nil_r. }
  assert (Hkeep : ∀ s1 q1, pending s1 (q ++ q1) → (busy = true → front_item s1 ≠ None) →
    (if busy then option_list (view <$> front_item s1) else []) = if busy then option_list (view <$> front_item s) else []).
  { intros s1 q1 Hp1 Hf1. destruct busy; [|done]. specialize (Hb eq_refl). specialize (Hf1 eq_refl).
    pose proof (front_item_spec s q Hp) as Hf. pose proof (front_item_spec s1 _ Hp1) as Hf'.
    destruct (front_item s) as [it|], (front_item s1) as [it1|]; try done. destruct Hf as (rest & -> & _).
    destruct Hf' as (rest' & Hx & _). cbn [app] in Hx. assert (Hv : view it = view it1) by congruence. cbn [fmap option_fmap option_map option_list]. by rewrite Hv. }
  destruct c as [it| | |].
  - pose proof (enqueue_spec s q it Hp Hc) as Hp1. assert (Hb1 : busy = true → front_item (enqueue s it) ≠ None)
      by (intros ->; by apply (enqueue_front s q it Hp), Hb).
    specialize (IH _ _ busy Hp1 Hb1). cbv beta zeta in IH |- *. rewrite (Hkeep _ _ Hp1 Hb1) in IH.
    destruct (run_calls _ _ cs) as [[[s' busy'] began] ended]. destruct IH as (rest & H1 & H2 & H3). exists rest. split; [done|]. split; [done|].
    rewrite H3, <- app_assoc. done.
  - pose proof (proj1 (drain_spec s q Hp)) as Hp1. assert (Hb1 : busy = true → front_item (drain_overflow s) ≠ None)
      by (intros ->; by apply (drain_front s q Hp), Hb).
    specialize (IH _ _ busy Hp1 Hb1). cbv beta zeta in IH |- *. rewrite <- (app_nil_r q) in Hp1. rewrite (Hkeep _ _ Hp1 Hb1) in IH. exact IH.
  - destruct busy; [exact (IH s q true Hp Hb)|]. destruct (front_item s) as [it|] eqn:Ef; [|exact (IH s q false Hp ltac:(done))].
    assert (Hb1 : true = true → front_item s ≠ None) by (by rewrite Ef). specialize (IH s q true Hp Hb1). cbv beta zeta in IH |- *. rewrite Ef in IH.
    destruct (run_calls s true cs) as [[[s' busy'] began] ended]. exact IH.
  - destruct busy; [|exact (IH s q false Hp Hb)]. specialize (Hb eq_refl). pose proof (front_item_spec s q Hp) as Hf.
    destruct (front_item s) as [it|]; [|done]. destruct Hf as (rest0 & -> & _ & Hp1). specialize (IH _ _ false Hp1 ltac:(done)). cbv beta zeta in IH |- *.
    destruct (run_calls (pop_item s) false cs) as [[[s' busy'] began] ended]. destruct IH as (rest & H1 & H2 & H3). exists rest. cbn in *.
    split; [done|]. split; [by rewrite H2|]. by rewrite H3.
Qed.

(** Ring and overflow queue are one FIFO between the threads: however
    the inbound thread's enqueues and drains fall among the outbound thread's
    steps, also while it is at work on an item in its slot, and however often
    the ring is full, the items it has begun followed by the items still
    pending are exactly the items that were pending followed by the items
    enqueued, payloads included, and an item is in its slot unchanged when work
    on it ends: nothing is lost, duplicated, reordered or overwritten. *)
Theorem work_queue_is_fifo s q cs : pending s q → Forall call_ok cs →
  let '(s', busy, began, ended) := run_calls s false cs in
  ∃ work rest, pending s' (work ++ rest) ∧ began ++ rest = q ++ enqueued cs ∧
    began = ended ++ work ∧ (busy = false → work = []).
Proof.
  intros Hp Hcs. pose proof (run_calls_spec s q false cs Hp ltac:(done) Hcs) as Hr. cbv zeta in Hr.
  destruct (run_calls s false cs) as [[[s' busy] began] ended]. destruct Hr as (rest & H1 & H2 & H3).
  eexists _, rest. split; [exact H1|]. split; [exact H3|]. split; [exact H2|]. by intros ->.
Qed.

Lemma handle_data_spec fuel conn data junk off s q : pending s q → Z.of_nat (length junk) = item_capacity →
  (length data - off < fuel)%nat →
  ∃ items s', handle_data fuel conn data junk off s = Some s' ∧ pending s' (q ++ items) ∧
    concat (snd <$> items) = drop off data ∧ Forall (λ x, x.1 = (wk_data, conn) ∧ (1 <= length x.2 <= 2048)%nat) items.
Proof.
  intros Hp Hj. revert off s q Hp. induction fuel as [|f IH]; intros off s q Hp Hf; [lia|]. cbn [handle_data].
  destruct (Nat.ltb_spec off (length data)) as [Hlt|Hge].
  2: { exists [], s. rewrite app_nil_r, drop_ge by done. by split_and!. }
  change (Z.to_nat item_capacity) with 2048%nat. set (n := Nat.min (length data - off) 2048).
  assert (Hn : (1 <= n <= 2048 ∧ off + n <= length data)%nat) by (unfold n; lia). clearbody n. rewrite u16_id by mlia.
  set (it := Item wk_data conn (Z.of_nat n) (wr junk 0 (sub data off n))). unfold item_capacity in Hj.
  assert (Hls : length (sub data off n) = n) by (apply length_sub; lia).
  assert (Hok : item_ok it) by (split; unfold item_capacity; cbn; [lia|rewrite length_wr; lia]).
  destruct (IH (off + n)%nat (enqueue s it) _ (enqueue_spec s q it Hp Hok)) as (items & s' & Hr & Hp' & Hd & Hall); [lia|].
  assert (Hv : view it = (wk_data, conn, sub data off n)).
  { unfold view. cbn. f_equal. rewrite Nat2Z.id. unfold wr. rewrite take_0, app_nil_l. by apply take_app_length'. }
  exists (view it :: items), s'. split; [exact Hr|]. split; [by rewrite <- app_assoc in Hp'|]. rewrite Hv. split.
  - cbn. rewrite Hd. unfold sub. rewrite <- drop_drop. apply take_drop.
  - constructor; [|done]. cbn. rewrite Hls. split; [done|lia].
Qed.

Lemma handle_spec junk s q ev : pending s q → Z.of_nat (length junk) = item_capacity →
  ∃ items, pending (handle junk s ev) (q ++ items) ∧
    match ev_type ev with
    | ev_data => concat (snd <$> items) = ev_bytes ev ∧ Forall (λ x, x.1 = (wk_data, ev_conn ev) ∧ (1 <= length x.2 <= 2048)%nat) items
    | ev_peer_closed => items = [(wk_peer_closed, ev_conn ev, [])]
    | ev_reset => items = [(wk_reset, ev_conn ev, [])]
    | _ => items = []
    end.
Proof.
  intros Hp Hj. assert (Hok : ∀ k, item_ok (Item k (ev_conn ev) 0 junk)) by (intros k; split; unfold item_capacity in *; cbn; lia).
  unfold handle. destruct (ev_type ev).
  - exists []. rewrite app_nil_r. split; [|done]. by apply (pending_keep s).
  - destruct (handle_data_spec (S (length (ev_bytes ev))) (ev_conn ev) (ev_bytes ev) junk 0 s q Hp Hj) as (items & s' & -> & Hp' & Hd & Hall); [lia|].
    by exists items.
  - eexists. split; [by apply enqueue_spec|done].
  - exists []. rewrite app_nil_r. split; [|done]. by apply (pending_keep s).
  - exists [view (Item wk_reset (ev_conn ev) 0 junk)]. split; [|done].
    apply (pending_keep (enqueue s (Item wk_reset (ev_conn ev) 0 junk))); [done|done|by apply enqueue_spec].
Qed.

(** The event handler hands every event to the outbound thread in
    full: a data event becomes items of at most 2048 bytes of that connection
    whose bytes, in order, are exactly the event's, whatever the uninitialized
    item held; the peer's close and a reset become one item each; nothing else
    is queued, and what was pending stays in front. *)
Theorem handle_queues_event junk s q ev : pending s q → Z.of_nat (length junk) = item_capacity →
  ∃ items, pending (handle junk s ev) (q ++ items) ∧
    match ev_type ev with
    | ev_data => concat (snd <$> items) = ev_bytes ev ∧ Forall (λ x, x.1 = (wk_data, ev_conn ev) ∧ (1 <= length x.2 <= 2048)%nat) items
    | ev_peer_closed => items = [(wk_peer_closed, ev_conn ev, [])]
    | ev_reset => items = [(wk_reset, ev_conn ev, [])]
    | _ => items = []
    end.
Proof. apply handle_spec. Qed.

(** A server that was just constructed, its ring memory zeroed. *)
Definition idle_server (max_conns : nat) : server :=
  Server (spsc_ring.Ring 0 0 (replicate 4096 (Item wk_data {| cid_slot := 0; cid_generation := 0 |} 0 (replicate 2048 0))))
    [] 0 0 (replicate max_conns 0).

Lemma idle_pending k : pending (idle_server k) [].
Proof.
  split; [exists []; split_and!; [|done|done]| |by constructor].
  - split; [cbn; mlia|reflexivity|cbn -[replicate]; by rewrite length_replicate|unfold ring_capacity; cbn; lia|by intros i x Hx].
  - cbn -[replicate]. apply Forall_replicate. cbn -[replicate]. by rewrite length_replicate.
Qed.

Lemma work_queue_is_fifo_witness :
  let a := {| cid_slot := 3; cid_generation := 1 |} in
  let it b := Item wk_data a 2 (b :: b :: replicate 2046 0) in
  let cs := [Front; Enqueue (it 7); Front; Enqueue (it 8); Drain; Done; Front] in
  pending (idle_server 1) [] ∧ Forall call_ok cs ∧
  let '(s', busy, began, ended) := run_calls (idle_server 1) false cs in
  ∃ work rest, pending s' (work ++ rest) ∧ began ++ rest = [] ++ enqueued cs ∧ began = ended ++ work ∧ (busy = false → work = []).
Proof.
  intros a it cs.
  assert (Hok : Forall call_ok cs).
  { assert (∀ b, item_ok (it b)) by (intros b; split; cbn -[replicate]; [unfold item_capacity; lia|by rewrite length_replicate]).
    repeat apply Forall_cons_2; try apply Forall_nil_2; cbn; auto. }
  split; [apply idle_pending|split; [exact Hok|]]. exact (work_queue_is_fifo _ [] cs (idle_pending 1) Hok).
Defined.

Lemma handle_queues_event_witness :
  let ev := {| ev_type := ev_data; ev_conn := {| cid_slot := 0; cid_generation := 1 |}; ev_bytes := replicate 3000 5;
             ev_peer_addr := 0; ev_peer_port := 0; ev_local_port := 0 |} in
  ∃ items, pending (handle (replicate 2048 9) (idle_server 1) ev) ([] ++ items) ∧ concat (snd <$> items) = replicate 3000 5 ∧
    Forall (λ x, x.1 = (wk_data, ev_conn ev) ∧ (1 <= length x.2 <= 2048)%nat) items.
Proof.
  intros ev. apply (handle_queues_event (replicate 2048 9) (idle_server 1) [] ev); [apply idle_pending|by rewrite length_replicate].
Defined.

(** ** close_once *)

Section close_once.
Context {E : Type} `{DpdkOps E}.
Context (stack : tcp_stack) (txq : queue).

Definition close_once (conn : conn_id) (released : list Z) (slots : list tcp_connection) (w : E)
    : list Z * (list tcp_connection * E) :=
  let gen := released !!! Z.to_nat (cid_slot conn) in
  if negb (gen =? cid_generation conn) then
    (<[Z.to_nat (cid_slot conn) := cid_generation conn]> released, close stack txq slots conn w)
  else (released, (slots, w)).

(** The items that ask for a close, in the order the outbound thread takes
    them; before each, [f] is whatever else changed the slots and the devices. *)
Definition turn : Type := (list tcp_connection * E → list tcp_connection * E) * conn_id.

Fixpoint close_turns (ts : list turn) (released : list Z) (st : list tcp_connection * E)
    : list Z * (list tcp_connection * E) :=
  match ts with
  | [] => (released, st)
  | (f, conn) :: ts => let '(released, st) := close_once conn released (f st).1 (f st).2 in close_turns ts released st
  end.

(** The same turns, where [close] is called exactly where [due] says. *)
Fixpoint due_turns (ts : list turn) (due : list bool) (st : list tcp_connection * E) : list tcp_connection * E :=
  match ts, due with
  | (f, conn) :: ts, d :: due => due_turns ts due (if d : bool then close stack txq (f st).1 conn (f st).2 else f st)
  | _, _ => st
  end.

Fixpoint due_ids (ts : list turn) (due : list bool) : list conn_id :=
  match ts, due with
  | (_, conn) :: ts, d :: due => if d : bool then conn :: due_ids ts due else due_ids ts due
  | _, _ => []
  end.

(** Two ids of one slot come in the order of their generations. *)
Definition before (a b : conn_id) : Prop := cid_slot a = cid_slot b → cid_generation a <= cid_generation b.

Lemma due_ids_in ts due x : x ∈ due_ids ts due → x ∈ ts.*2.
Proof using.
  revert due. induction ts as [|[f c] ts IH]; intros [|[] due]; cbn; rewrite ?elem_of_nil, ?elem_of_cons; try done; naive_solver.
Qed.

Lemma close_turns_spec ts released st :
  Forall (λ a, 0 <= cid_slot a < Z.of_nat (length released) ∧ released !!! Z.to_nat (cid_slot a) <= cid_generation a) ts.*2 →
  StronglySorted before ts.*2 →
  ∃ due, length due = length ts ∧ (close_turns ts released st).2 = due_turns ts due st ∧
    NoDup (due_ids ts due) ∧
    ∀ a, a ∈ due_ids ts due ↔ a ∈ ts.*2 ∧ released !!! Z.to_nat (cid_slot a) ≠ cid_generation a.
Proof using.
  revert released st. induction ts as [|[f c] ts IH]; intros released st Hall Hs.
  { exists []. split_and!; [done|done|constructor|]. intros a. cbn. set_solver. }
  cbn in Hall, Hs. apply Forall_cons in Hall as [[Hc Hg] Hall]. inversion_clear Hs as [|? ? Hs' Hfa].
  cbn [close_turns]. unfold close_once. destruct (Z.eqb_spec (released !!! Z.to_nat (cid_slot c)) (cid_generation c)) as [He|Hne]; cbn [negb].
  - destruct (IH released (f st) Hall Hs') as (due & Hl & Hr & Hn & Hi). exists (false :: due). cbn.
    rewrite <- surjective_pairing. split_and!; [by f_equal|exact Hr|exact Hn|].
    intros a. rewrite Hi, elem_of_cons. split; [tauto|]. intros [[-> | ?] ?]; done.
  - set (rel' := <[Z.to_nat (cid_slot c) := cid_generation c]> released).
    assert (Hat : ∀ a, 0 <= cid_slot a → rel' !!! Z.to_nat (cid_slot a) =
              if decide (cid_slot a = cid_slot c) then cid_generation c else released !!! Z.to_nat (cid_slot a)).
    { intros a Ha. unfold rel'. destruct (decide (cid_slot a = cid_slot c)) as [-> |Hd].
      - apply list_lookup_total_insert_eq. lia.
      - apply list_lookup_total_insert_ne. lia. }
    destruct (IH rel' (close stack txq (f st).1 c (f st).2)) as (due & Hl & Hr & Hn & Hi); [|done|].
    { rewrite Forall_forall in Hall, Hfa |- *. intros a Ha. destruct (Hall a Ha) as [Hs1 Hs2]. specialize (Hfa a Ha). unfold before in Hfa.
      rewrite Hat by lia. unfold rel'. rewrite length_insert. split; [lia|]. case_decide; [apply Hfa; congruence|done]. }
    exists (true :: due). cbn. split_and!; [by f_equal|exact Hr| |].
    + constructor; [|done]. rewrite Hi, Hat by lia. rewrite decide_True by done. naive_solver.
    + intros a. rewrite !elem_of_cons, Hi. split.
      * intros [-> |[Ha Hg']]; [by split; [left|]|]. split; [by right|]. rewrite Forall_forall in Hall, Hfa.
        rewrite Hat in Hg' by (apply Hall in Ha; lia). case_decide as Hd; [|done]. specialize (Hfa a Ha). unfold before in Hfa.
        rewrite Hd. specialize (Hfa (eq_sym Hd)). lia.
      * intros [[-> |Ha] Hg']; [by left|]. rewrite Forall_forall in Hall. destruct (decide (a = c)) as [-> |Hac]; [by left|].
        right. split; [done|]. rewrite Hat by (apply Hall in Ha; lia). case_decide as Hd; [|done].
        intros Hgc. apply Hac. destruct a, c; cbn in *; congruence.
Qed.

(** [close_once] makes close exactly-once: however the items that ask
    for a close (a peer's FIN, then perhaps a reset, of any connections) follow
    each other, and whatever happens between them, the outbound thread calls
    [tcp_sender::close] for each connection id that occurs exactly once, as long
    as the ids of one slot come in the order of their (non-zero) generations. *)
Theorem close_once_exactly_once ts max_conns st :
  Forall (λ a, 0 <= cid_slot a < Z.of_nat max_conns ∧ 1 <= cid_generation a) ts.*2 → StronglySorted before ts.*2 →
  ∃ due, length due = length ts ∧ (close_turns ts (replicate max_conns 0) st).2 = due_turns ts due st ∧
    NoDup (due_ids ts due) ∧ ∀ a, a ∈ due_ids ts due ↔ a ∈ ts.*2.
Proof using.
  intros Hall Hs. rewrite Forall_forall in Hall.
  assert (Hz : ∀ a, a ∈ ts.*2 → replicate max_conns 0 !!! Z.to_nat (cid_slot a) = 0).
  { intros a Ha. apply lookup_total_replicate_2. apply Hall in Ha. lia. }
  destruct (close_turns_spec ts (replicate max_conns 0) st) as (due & Hl & Hr & Hn & Hi); [|done|].
  { rewrite Forall_forall. intros a Ha. rewrite length_replicate, Hz by done. apply Hall in Ha. lia. }
  exists due. split_and!; [done|done|done|]. intros a. rewrite Hi. split; [tauto|]. intros Ha. split; [done|].
  rewrite Hz by done. apply Hall in Ha. lia.
Qed.
End close_once.

(** A FIN and a reset of one connection, a FIN of another, and the first slot
    used again. *)
Lemma close_once_exactly_once_witness :
  let cid s g := {| cid_slot := s; cid_generation := g |} in
  let ts : list (turn (E := sim.env)) := [(id, cid 0 1); (id, cid 1 1); (id, cid 0 1); (id, cid 0 2)] in
  let st := (slots demo.open, env demo.open) in
  ∃ due, length due = length ts ∧
    (close_turns (H := sim.ops) demo.stack demo.data_txq ts (replicate 2 0) st).2 =
      due_turns (H := sim.ops) demo.stack demo.data_txq ts due st ∧
    NoDup (due_ids ts due) ∧ ∀ a, a ∈ due_ids ts due ↔ a ∈ ts.*2.
Proof.
  intros cid ts st. apply (close_once_exactly_once (H := sim.ops) demo.stack demo.data_txq ts 2 st).
  - repeat apply Forall_cons_2; try apply Forall_nil_2; cbn; lia.
  - repeat apply SSorted_cons; try apply SSorted_nil; repeat apply Forall_cons_2; try apply Forall_nil_2; unfold before; cbn; lia.
Defined.
