(* ===== verification/RingThreads.v ===== *)
(** * The echo server's ring, access by access (examples/tcp_echo_server.h)

    [spsc_ring], [copy_item], [enqueue], [drain_overflow] and [handle] as
    programs of single memory accesses, run by two threads at once over a
    release/acquire memory: a load of the other thread's counter may return an
    old value, as long as it is not older than one seen before, and a plain
    access to a slot is a data race unless the other thread's last access to
    it is ordered before by a counter that was acquired.  The theorem says
    that no interleaving of accesses makes a race, that what the consumer reads
    is what was given to it, in order, and that nothing is overwritten before
    it is popped. *)

From S2P Require Import Prelude Dpdk DpdkSim Packet TcpState TcpReceiver TcpSender Echo.

(** ** The memory of the ring *)

Inductive loc := Head | Tail.
Inductive side := Producer | Consumer.
#[export] Instance loc_eq_dec : EqDecision loc.
Proof. solve_decision. Defined.

(** Each counter has one writer. *)
Definition own (who : side) : loc := match who with Producer => Head | Consumer => Tail end.

(** [heads], [tails]: every value the counter has had, oldest first.  [written]
    ([looked]): per slot, the position in [heads] ([tails]) of the release store
    that publishes the producer's last write (the consumer's last read) of it, 0
    before any.  [saw_tail] ([saw_head]): the position of the latest store of the
    consumer (producer) that the other side has acquired. *)
Record memory := Memory {
  heads : list Z; tails : list Z; cells : list work_item;
  written : list nat; looked : list nat; saw_tail : nat; saw_head : nat; racy : bool }.

Definition stores (m : memory) (x : loc) : list Z := match x with Head => heads m | Tail => tails m end.
Definition saw (m : memory) (who : side) : nat := match who with Producer => saw_tail m | Consumer => saw_head m end.

Definition see (m : memory) (who : side) (n : nat) : memory :=
  match who with
  | Producer => Memory (heads m) (tails m) (cells m) (written m) (looked m) n (saw_head m) (racy m)
  | Consumer => Memory (heads m) (tails m) (cells m) (written m) (looked m) (saw_tail m) n (racy m)
  end.
Definition put (m : memory) (x : loc) (v : Z) : memory :=
  match x with
  | Head => Memory (heads m ++ [v]) (tails m) (cells m) (written m) (looked m) (saw_tail m) (saw_head m) (racy m)
  | Tail => Memory (heads m) (tails m ++ [v]) (cells m) (written m) (looked m) (saw_tail m) (saw_head m) (racy m)
  end.
(** The producer writes slot [i]: a race if the consumer's last read of it is
    not published by a store the producer has acquired. *)
Definition write (m : memory) (i : nat) (it : work_item) : memory :=
  Memory (heads m) (tails m) (<[i := it]> (cells m)) (<[i := length (heads m)]> (written m)) (looked m) (saw_tail m) (saw_head m)
    (racy m || negb (looked m !!! i <=? saw_tail m)%nat).
(** The consumer reads slot [i]: the same the other way round. *)
Definition look (m : memory) (i : nat) : memory :=
  Memory (heads m) (tails m) (cells m) (written m) (<[i := length (tails m)]> (looked m)) (saw_tail m) (saw_head m)
    (racy m || negb (written m !!! i <=? saw_head m)%nat).

(** ** Programs of accesses *)

Inductive rprog (A : Type) :=
  | Ret (a : A)
  | Load (x : loc) (k : Z → rprog A)
  | Store (x : loc) (v : Z) (k : rprog A)
  | Write (i : nat) (f : work_item → work_item) (k : rprog A).
Arguments Ret {A}.
Arguments Load {A}.
Arguments Store {A}.
Arguments Write {A}.

Fixpoint rbind {A B} (p : rprog A) (f : A → rprog B) : rprog B :=
  match p with
  | Ret a => f a
  | Load x k => Load x (λ v, rbind (k v) f)
  | Store x v k => Store x v (rbind k f)
  | Write i g k => Write i g (rbind k f)
  end.
Notation "'let!' x := p 'in' q" := (rbind p (λ x, q)) (at level 10, x name, p at level 100, q at level 200).

(** One access of a thread.  [n] chooses which store a load of the other
    thread's counter reads from; a thread sees its own stores.  Nothing happens
    if the choice is not a possible one. *)
Definition access {A} (who : side) (n : nat) (m : memory) (p : rprog A) : option (memory * rprog A) :=
  match p with
  | Ret _ => None
  | Load x k =>
    if decide (x = own who) then v ← last (stores m x); Some (m, k v)
    else if (saw m who <=? n)%nat then v ← stores m x !! n; Some (see m who n, k v) else None
  | Store x v k => if decide (x = own who) then Some (put m x v, k) else None
  | Write i f k => match who with Producer => it ← cells m !! i; Some (write m i (f it), k) | Consumer => None end
  end.

(** A thread that runs while the other stands still. *)
Fixpoint run_alone {A} (who : side) (m : memory) (p : rprog A) : option (memory * A) :=
  match p with
  | Ret a => Some (m, a)
  | Load x k =>
    v ← last (stores m x);
    run_alone who (if decide (x = own who) then m else see m who (pred (length (stores m x)))) (k v)
  | Store x v k => if decide (x = own who) then run_alone who (put m x v) k else None
  | Write i f k => match who with Producer => it ← cells m !! i; run_alone who (write m i (f it)) k | Consumer => None end
  end.

(** ** spsc_ring and the inbound thread's calls, as programs *)

Section programs.
Context (Capacity : Z).

Definition reserve_prog : rprog (option nat) :=
  Load Head (λ head, Load Tail (λ tail,
    Ret (if u64 (head - tail) =? Capacity then None else Some (Z.to_nat (Z.land head (Capacity - 1)))))).
Definition commit_prog : rprog unit := Load Head (λ head, Store Head (u64 (head + 1)) (Ret tt)).
Definition front_prog : rprog (option nat) :=
  Load Tail (λ tail, Load Head (λ head,
    Ret (if tail =? head then None else Some (Z.to_nat (Z.land tail (Capacity - 1)))))).
Definition pop_prog : rprog unit := Load Tail (λ tail, Store Tail (u64 (tail + 1)) (Ret tt)).

(** [copy_item], field by field; [memcpy] is one access to the slot. *)
Definition copy_prog (i : nat) (src : work_item) : rprog unit :=
  Write i (λ dst, Item (what src) (item_conn dst) (item_len dst) (item_bytes dst))
    (Write i (λ dst, Item (what dst) (item_conn src) (item_len dst) (item_bytes dst))
      (Write i (λ dst, Item (what dst) (item_conn dst) (item_len src) (item_bytes dst))
        (Write i (λ dst, Item (what dst) (item_conn dst) (item_len dst)
            (wr (item_bytes dst) 0 (take (Z.to_nat (item_len src)) (item_bytes src))))
          (Ret tt)))).

(** [overflow_] is the inbound thread's own: it is passed in and returned. *)
Definition enqueue_prog (overflow : list work_item) (item : work_item) : rprog (list work_item) :=
  match overflow with
  | [] =>
    let! slot := reserve_prog in
    match slot with
    | Some i => let! _ := copy_prog i item in let! _ := commit_prog in Ret []
    | None => Ret [item]
    end
  | _ => Ret (overflow ++ [item])
  end.

Fixpoint drain_prog (overflow : list work_item) : rprog (list work_item) :=
  match overflow with
  | [] => Ret []
  | item :: rest =>
    let! slot := reserve_prog in
    match slot with
    | None => Ret overflow
    | Some i => let! _ := copy_prog i item in let! _ := commit_prog in drain_prog rest
    end
  end.
End programs.

(** The data loop of [handle] from [off] on; without fuel there is no program. *)
Fixpoint handle_data_prog (fuel : nat) (conn : conn_id) (data junk : list Z) (off : nat) (overflow : list work_item)
    : rprog (option (list work_item)) :=
  match fuel with
  | O => Ret None
  | S fuel =>
    if (off <? length data)%nat then
      let n := Nat.min (length data - off) (Z.to_nat item_capacity) in
      let item := Item wk_data conn (u16 (Z.of_nat n)) (wr junk 0 (sub data off n)) in
      let! overflow := enqueue_prog ring_capacity overflow item in
      handle_data_prog fuel conn data junk (off + n) overflow
    else Ret (Some overflow)
  end.

(** [handle], its two counters apart. *)
Definition handle_prog (junk : list Z) (overflow : list work_item) (ev : tcp_event) : rprog (list work_item) :=
  match ev_type ev with
  | ev_accepted | ev_closed => Ret overflow
  | ev_data =>
    let! overflow' := handle_data_prog (S (length (ev_bytes ev))) (ev_conn ev) (ev_bytes ev) junk 0 overflow in
    Ret (default overflow overflow')
  | ev_peer_closed => enqueue_prog ring_capacity overflow (Item wk_peer_closed (ev_conn ev) 0 junk)
  | ev_reset => enqueue_prog ring_capacity overflow (Item wk_reset (ev_conn ev) 0 junk)
  end.

(** ** What each side may rely on *)

(** The values a counter has had once it has been stored [n] times. *)
Definition counts (n : nat) : list Z := (λ j, u64 (Z.of_nat j)) <$> seq 0 (S n).

Lemma length_counts n : length (counts n) = S n.
Proof. unfold counts. by rewrite length_fmap, length_seq. Qed.
Lemma counts_lookup n j : (j <= n)%nat → counts n !! j = Some (u64 (Z.of_nat j)).
Proof. intros Hj. unfold counts. rewrite list_lookup_fmap, lookup_seq_lt by lia. done. Qed.
Lemma counts_S n : counts n ++ [u64 (Z.of_nat (S n))] = counts (S n).
Proof. unfold counts. rewrite (seq_S (S n)), fmap_app. done. Qed.
Lemma counts_last n : last (counts n) = Some (u64 (Z.of_nat n)).
Proof. destruct n as [|n]; [done|]. by rewrite <- counts_S, last_snoc. Qed.

Lemma count_next n : u64 (u64 (Z.of_nat n) + 1) = u64 (Z.of_nat (S n)).
Proof. unfold u64. rewrite Zplus_mod_idemp_l. f_equal. lia. Qed.

Definition bytes_ok (it : work_item) : Prop := Z.of_nat (length (item_bytes it)) = item_capacity.

Section ring_inv.
Context (Capacity k : Z) (Hk : 0 <= k <= 63) (Hcap : Capacity = 2 ^ k).
Abbreviation C := (Z.to_nat Capacity).

(** Where the [j]-th item goes. *)
Definition slot_of (j : nat) : nat := Z.to_nat (Z.of_nat j mod Capacity).

Lemma slot_mask j : Z.to_nat (Z.land (u64 (Z.of_nat j)) (Capacity - 1)) = slot_of j.
Proof using Hk Hcap. rewrite (spsc_ring.mask Capacity k Hk Hcap), (spsc_ring.wrap_mod Capacity k Hk Hcap). done. Qed.
Lemma slot_lt j : (slot_of j < C)%nat.
Proof using Hk Hcap.
  pose proof (spsc_ring.cap_range Capacity k Hk Hcap). pose proof (Z.mod_pos_bound (Z.of_nat j) Capacity ltac:(lia)). unfold slot_of. lia.
Qed.
(** Two items share a slot only a whole ring apart. *)
Lemma slot_gap i j : slot_of i = slot_of j → (i < j)%nat → (i + C <= j)%nat.
Proof using Hk Hcap.
  intros He Hlt. pose proof (spsc_ring.cap_range Capacity k Hk Hcap) as Hc. unfold slot_of in He.
  pose proof (Z.mod_pos_bound (Z.of_nat i) Capacity ltac:(lia)). pose proof (Z.mod_pos_bound (Z.of_nat j) Capacity ltac:(lia)).
  apply Z2Nat.inj in He; [|lia|lia].
  assert (Hd : (Z.of_nat j - Z.of_nat i) mod Capacity = 0) by (by rewrite Zminus_mod, He, Z.sub_diag).
  destruct (decide (Z.of_nat j - Z.of_nat i < Capacity)); [rewrite Z.mod_small in Hd by lia; lia|lia].
Qed.

(** The difference of the wrapped counters is the number of items, and they are
    equal only when it is 0. *)
Lemma count_diff h v : (v <= h <= v + C)%nat → u64 (u64 (Z.of_nat h) - u64 (Z.of_nat v)) = Z.of_nat (h - v).
Proof using Hk Hcap.
  intros Hh. pose proof (spsc_ring.cap_range Capacity k Hk Hcap) as Hc. unfold u64. rewrite <- Zminus_mod, Z.mod_small by lia. lia.
Qed.
Lemma count_eq t s : (t <= s <= t + C)%nat → u64 (Z.of_nat t) = u64 (Z.of_nat s) → t = s.
Proof using Hk Hcap.
  intros Hs He. pose proof (count_diff s t Hs) as Hd. rewrite He, Z.sub_diag in Hd. change (u64 0) with 0 in Hd. lia.
Qed.

(** [T]: the items the producer has put into the ring or is to put there, from
    the start of time; [h] of them are in, [t] are out. *)
Record ring_ok (T : list (work_kind * conn_id * list Z)) (h t : nat) (m : memory) : Prop := {
  g_heads : heads m = counts h;
  g_tails : tails m = counts t;
  g_order : (saw_tail m <= t <= saw_head m ∧ saw_head m <= h <= saw_tail m + C)%nat;
  g_given : (h <= length T)%nat;
  g_cells : length (cells m) = C;
  g_bytes : Forall bytes_ok (cells m);
  g_items : ∀ j, (t <= j < h)%nat → ∃ it, cells m !! slot_of j = Some it ∧ item_ok it ∧ T !! j = Some (view it);
  g_written : length (written m) = C ∧ Forall (λ e, e <= S h)%nat (written m);
  g_publish : ∀ j, (t <= j < h)%nat → (written m !!! slot_of j <= S j)%nat;
  g_looked : length (looked m) = C ∧
    ∀ i e, looked m !! i = Some e → e = 0%nat ∨ ∃ b, e = S b ∧ (b <= t)%nat ∧ (b < h)%nat ∧ slot_of b = i;
  g_racy : racy m = false }.

(** A producer program is safe when [h] items are in, [v] is the consumer's
    count as last seen and [cur] is in the next slot: it only writes that slot,
    and only after seeing it free, and publishes it with the right item in it. *)
Fixpoint psafe {A} (T : list (work_kind * conn_id * list Z)) (Q : A → nat → nat → work_item → Prop) (p : rprog A)
    (h v : nat) (cur : work_item) : Prop :=
  match p with
  | Ret a => Q a h v cur
  | Load Head k => psafe T Q (k (u64 (Z.of_nat h))) h v cur
  | Load Tail k => ∀ v', (v <= v' <= h)%nat → (h <= v' + C)%nat → psafe T Q (k (u64 (Z.of_nat v'))) h v' cur
  | Store Head x k => x = u64 (Z.of_nat (S h)) ∧ (h < v + C)%nat ∧ item_ok cur ∧ T !! h = Some (view cur) ∧
      ∀ cur', bytes_ok cur' → psafe T Q k (S h) v cur'
  | Store Tail _ _ => False
  | Write i f k => i = slot_of h ∧ (h < v + C)%nat ∧ bytes_ok (f cur) ∧ psafe T Q k h v (f cur)
  end.

(** A consumer program is safe when [t] items are out and [s] is the producer's
    count as last seen: it pops only what it has seen. *)
Fixpoint csafe {A} (Q : A → nat → nat → Prop) (p : rprog A) (t s : nat) : Prop :=
  match p with
  | Ret a => Q a t s
  | Load Tail k => csafe Q (k (u64 (Z.of_nat t))) t s
  | Load Head k => ∀ s', (s <= s')%nat → (t <= s' <= t + C)%nat → csafe Q (k (u64 (Z.of_nat s'))) t s'
  | Store Tail x k => x = u64 (Z.of_nat (S t)) ∧ (t < s)%nat ∧ csafe Q k (S t) s
  | Store Head _ _ | Write _ _ _ => False
  end.

Lemma ring_more T X h t m : ring_ok T h t m → ring_ok (T ++ X) h t m.
Proof using.
  clear Hk Hcap. intros []. split; try done; [rewrite length_app; lia|]. intros j Hj. destruct (g_items0 j Hj) as (it & H1 & H2 & H3). exists it. split_and!; [done|done|].
  by apply lookup_app_l_Some.
Qed.

Lemma psafe_mono {A} T (Q Q' : A → nat → nat → work_item → Prop) p h v cur :
  (∀ a h v cur, Q a h v cur → Q' a h v cur) → psafe T Q p h v cur → psafe T Q' p h v cur.
Proof using.
  clear Hk Hcap. intros HQ. revert h v cur. induction p as [a|[] c IH|[] x c IH|i f c IH]; intros h v cur; cbn [psafe]; naive_solver.
Qed.
Lemma psafe_bind {A B} T Q (p : rprog A) (f : A → rprog B) h v cur :
  psafe T (λ a h v cur, psafe T Q (f a) h v cur) p h v cur → psafe T Q (rbind p f) h v cur.
Proof using.
  clear Hk Hcap. revert h v cur. induction p as [a|[] c IH|[] x c IH|i g c IH]; intros h v cur; cbn [psafe rbind]; naive_solver.
Qed.

(** *** One access keeps the ring in order *)

Lemma psafe_access {A} T Q (p p' : rprog A) n h t m m' cur : ring_ok T h t m → cells m !! slot_of h = Some cur →
  psafe T Q p h (saw_tail m) cur → access Producer n m p = Some (m', p') →
  ∃ h' cur', ring_ok T h' t m' ∧ cells m' !! slot_of h' = Some cur' ∧ psafe T Q p' h' (saw_tail m') cur' ∧
    saw_head m' = saw_head m ∧ (h <= h')%nat.
Proof using Hk Hcap.
  intros Hr Hc Hp. destruct Hr. destruct p as [a|[] c|[] x c|i f c]; cbn [access own psafe stores saw] in *; try done.
  - rewrite decide_True by done. rewrite g_heads0, counts_last. intros [= <- <-]. exists h, cur. by split_and!.
  - rewrite decide_False by done. destruct (Nat.leb_spec (saw_tail m) n) as [Hle|]; [|done]. rewrite g_tails0.
    destruct (decide (n <= t)%nat) as [Hn|Hn]; [|by rewrite lookup_ge_None_2 by (rewrite length_counts; lia)].
    rewrite counts_lookup by done. intros [= <- <-]. exists h, cur. split_and!; [|done|apply (Hp n); lia|done|done].
    split; cbn; try done. lia.
  - rewrite decide_True by done. intros [= <- <-]. destruct Hp as (-> & Hv & Hok & HT & Hp).
    destruct (lookup_lt_is_Some_2 (cells m) (slot_of (S h)) ltac:(rewrite g_cells0; apply slot_lt)) as [cur' Hcur'].
    exists (S h), cur'. rewrite Forall_forall in g_bytes0.
    split_and!; [|done|apply Hp; apply g_bytes0; by eapply list_elem_of_lookup_2|done|lia].
    split; cbn [put heads tails cells written looked saw_tail saw_head racy]; try done.
    + rewrite g_heads0. apply counts_S.
    + lia.
    + apply lookup_lt_Some in HT. lia.
    + by rewrite Forall_forall.
    + intros j Hj. destruct (decide (j = h)) as [->|]; [by exists cur|apply g_items0; lia].
    + destruct g_written0 as [? Hw]. split; [done|]. eapply Forall_impl; [exact Hw|]. cbn. lia.
    + intros j Hj. destruct (decide (j = h)) as [->|]; [|apply g_publish0; lia]. destruct g_written0 as [Hl Hw].
      rewrite Forall_forall in Hw. apply Hw, list_elem_of_lookup_total_2. rewrite Hl. apply slot_lt.
    + destruct g_looked0 as [? Hlk]. split; [done|]. intros i e He. destruct (Hlk i e He) as [?|(b & -> & ? & ? & ?)]; [by left|right].
      exists b. split_and!; [done|done|lia|done].
  - destruct Hp as (-> & Hv & Hb & Hp). rewrite Hc. intros [= <- <-]. exists h, (f cur). pose proof (slot_lt h) as Hs.
    split_and!; [|cbn; apply list_lookup_insert_eq; by rewrite g_cells0|done|done|done].
    assert (Hne : ∀ j, (t <= j < h)%nat → slot_of j ≠ slot_of h) by (intros j Hj He; apply slot_gap in He; lia).
    split; cbn [write heads tails cells written looked saw_tail saw_head racy]; rewrite ?length_insert; try done.
    + by apply Forall_insert.
    + intros j Hj. rewrite list_lookup_insert_ne by (apply not_eq_sym, Hne; done). by apply g_items0.
    + destruct g_written0 as [? Hw]. split; [done|]. apply Forall_insert; [done|]. by rewrite g_heads0, length_counts.
    + intros j Hj. rewrite list_lookup_total_insert_ne by (apply not_eq_sym, Hne; done). by apply g_publish0.
    + rewrite g_racy0. cbn. apply negb_false_iff, Nat.leb_le. destruct g_looked0 as [Hl Hlk].
      destruct (Hlk (slot_of h) _ (list_lookup_lookup_total_lt _ (slot_of h) ltac:(by rewrite Hl))) as [->|(b & -> & Hb1 & Hb2 & He)]; [lia|].
      apply slot_gap in He; lia.
Qed.

Lemma csafe_access {A} T Q (p p' : rprog A) n h t m m' : ring_ok T h t m → csafe Q p t (saw_head m) →
  access Consumer n m p = Some (m', p') →
  ∃ t', ring_ok T h t' m' ∧ csafe Q p' t' (saw_head m') ∧ saw_tail m' = saw_tail m ∧ cells m' = cells m ∧ (t <= t')%nat.
Proof using.
  clear Hk Hcap. intros Hr Hp. destruct Hr. destruct p as [a|[] c|[] x c|i f c]; cbn [access own csafe stores saw] in *; try done.
  - rewrite decide_False by done. destruct (Nat.leb_spec (saw_head m) n) as [Hle|]; [|done]. rewrite g_heads0.
    destruct (decide (n <= h)%nat) as [Hn|Hn]; [|by rewrite lookup_ge_None_2 by (rewrite length_counts; lia)].
    rewrite counts_lookup by done. intros [= <- <-]. exists t. split_and!; [|apply (Hp n); lia|done|done|done].
    split; cbn; try done. lia.
  - rewrite decide_True by done. rewrite g_tails0, counts_last. intros [= <- <-]. exists t. by split_and!.
  - rewrite decide_True by done. intros [= <- <-]. destruct Hp as (-> & Hs & Hp). exists (S t). split_and!; [|done|done|done|lia].
    split; cbn [put heads tails cells written looked saw_tail saw_head racy]; try done.
    + rewrite g_tails0. apply counts_S.
    + lia.
    + intros j Hj. apply g_items0. lia.
    + intros j Hj. apply g_publish0. lia.
    + destruct g_looked0 as [? Hlk]. split; [done|]. intros i e He. destruct (Hlk i e He) as [?|(b & -> & ? & ? & ?)]; [by left|right].
      exists b. split_and!; [done|lia|done|done].
Qed.

(** Reading the item at the front: no race, and it is the [t]-th. *)
Lemma look_ok T h t m : ring_ok T h t m → (t < saw_head m)%nat →
  ring_ok T h t (look m (slot_of t)) ∧ ∃ it, cells m !! slot_of t = Some it ∧ item_ok it ∧ T !! t = Some (view it).
Proof using.
  clear Hk Hcap. intros [] Ht. split; [|apply g_items0; lia].
  split; cbn [look heads tails cells written looked saw_tail saw_head racy]; rewrite ?length_insert; try done.
  - destruct g_looked0 as [? Hlk]. split; [done|]. intros i e. rewrite list_lookup_insert_Some. intros [(<- & <- & _)|(_ & He)]; [right|by apply Hlk].
    exists t. rewrite g_tails0, length_counts. split_and!; [done|done|lia|done].
  - rewrite g_racy0. cbn. apply negb_false_iff, Nat.leb_le. pose proof (g_publish0 t ltac:(lia)). lia.
Qed.

(** *** The programs are safe *)

Abbreviation reserve_prog := (reserve_prog Capacity).
Abbreviation enqueue_prog := (enqueue_prog Capacity).
Abbreviation drain_prog := (drain_prog Capacity).
Abbreviation front_prog := (front_prog Capacity).

Lemma reserve_safe T (Q : option nat → nat → nat → work_item → Prop) h v cur :
  (∀ v', (v <= v')%nat → Q None h v' cur) → (∀ v', (v <= v')%nat → (h < v' + C)%nat → Q (Some (slot_of h)) h v' cur) →
  psafe T Q reserve_prog h v cur.
Proof using Hk Hcap.
  intros Hn Hs. cbn. intros v' Hv Hc. rewrite count_diff, slot_mask by lia. pose proof (spsc_ring.cap_range Capacity k Hk Hcap).
  destruct (Z.eqb_spec (Z.of_nat (h - v')) Capacity); [apply Hn; lia|apply Hs; lia].
Qed.

(** Copying into the free slot and committing it. *)
Lemma store_safe {A} T Q (f : unit → rprog A) item h v cur : item_ok item → bytes_ok cur → (h < v + C)%nat →
  T !! h = Some (view item) → (∀ cur', bytes_ok cur' → psafe T Q (f tt) (S h) v cur') →
  psafe T Q (let! _ := copy_prog (slot_of h) item in let! u := commit_prog in f u) h v cur.
Proof using.
  clear Hk Hcap. intros Hi Hc Hv HT Hf. destruct (copy_item_ok cur item Hc Hi) as [Hok Hview].
  cbn -[wr]. split_and!; try done; first [apply count_next|apply Hok|by rewrite HT, <- Hview].
Qed.

(** [over] and then [rest] are still to go in. *)
Definition owes (T rest : list (work_kind * conn_id * list Z)) (over : list work_item) (h : nat) (cur : work_item) : Prop :=
  drop h T = (view <$> over) ++ rest ∧ Forall item_ok over ∧ bytes_ok cur.

Lemma owed_next {X} (T : list X) x rest h : drop h T = x :: rest → T !! h = Some x ∧ drop (S h) T = rest.
Proof using.
  intros Hd. split; [rewrite <- (Nat.add_0_r h), <- lookup_drop, Hd; done|]. by rewrite <- Nat.add_1_r, <- drop_drop, Hd.
Qed.

Lemma enqueue_safe T rest over item h v cur : item_ok item → owes T (view item :: rest) over h cur →
  psafe T (λ over' h _ cur, owes T rest over' h cur) (enqueue_prog over item) h v cur.
Proof using Hk Hcap.
  intros Hi (Hd & Ho & Hc). destruct over as [|it over].
  - cbn [enqueue_prog RingThreads.enqueue_prog]. apply psafe_bind, reserve_safe.
    + intros v' _. cbn. split_and!; [done|by constructor|done].
    + intros v' _ Hv. destruct (owed_next _ _ _ _ Hd) as [HT Hd']. apply store_safe; [done..|]. intros cur' Hc'. cbn. by split_and!.
  - cbn [psafe enqueue_prog RingThreads.enqueue_prog]. split_and!; [|by apply Forall_app; split; [|constructor]|done].
    by rewrite Hd, fmap_app, <- app_assoc.
Qed.

Lemma drain_safe T over h v cur : owes T [] over h cur →
  psafe T (λ over' h _ cur, owes T [] over' h cur) (drain_prog over) h v cur.
Proof using Hk Hcap.
  revert h v cur. induction over as [|item over IH]; intros h v cur Ho; [exact Ho|]. cbn [drain_prog RingThreads.drain_prog].
  apply psafe_bind, reserve_safe; [by intros v' _|]. intros v' _ Hv. destruct Ho as (Hd & Hok & Hc). apply Forall_cons in Hok as [Hi Hok].
  destruct (owed_next _ _ _ _ Hd) as [HT Hd']. apply store_safe; [done..|]. intros cur' Hc'. apply IH. by split_and!.
Qed.

(** A slot that [front] returns is the oldest item's, and it has been published. *)
Lemma front_safe (Q : option nat → nat → nat → Prop) t s : (t <= s <= t + C)%nat →
  (∀ s', (s <= s')%nat → Q None t s') → (∀ s', (s <= s')%nat → (t < s')%nat → Q (Some (slot_of t)) t s') → csafe Q front_prog t s.
Proof using Hk Hcap.
  intros Hs Hn Hq. cbn. intros s' Hle Hs'. rewrite slot_mask.
  destruct (Z.eqb_spec (u64 (Z.of_nat t)) (u64 (Z.of_nat s'))) as [He|Hne]; [by apply Hn|]. apply Hq; [done|].
  destruct (decide (t = s')) as [->|]; [done|lia].
Qed.
Lemma pop_safe (Q : unit → nat → nat → Prop) t s : (t < s)%nat → Q tt (S t) s → csafe Q pop_prog t s.
Proof using. intros Hs Hq. cbn. split_and!; [apply count_next|done|done]. Qed.
End ring_inv.

(** ** The two threads at the ring *)

(** What the consumer is doing: nothing, inside [front], at work on the item of
    a slot, or inside [pop]. *)
Inductive consumer := Idle | Fronting (p : rprog (option nat)) | Holding (i : nat) | Popping (p : rprog unit).

(** [job]: the call the inbound thread is inside of; it returns the overflow
    queue. *)
Record ring_threads := RingThreads {
  mem : memory; overflow : list work_item; job : option (rprog (list work_item)); taker : consumer }.

Definition set_mem (s : ring_threads) (m : memory) : ring_threads := RingThreads m (overflow s) (job s) (taker s).
Definition set_taker (s : ring_threads) (m : memory) (c : consumer) : ring_threads := RingThreads m (overflow s) (job s) c.

(** The inbound thread enters a call, if it is in none. *)
Definition enter (s : ring_threads) (p : list work_item → rprog (list work_item)) : ring_threads :=
  match job s with None => RingThreads (mem s) (overflow s) (Some (p (overflow s))) (taker s) | Some _ => s end.
(** It makes one access, or returns. *)
Definition produce (n : nat) (s : ring_threads) : ring_threads :=
  match job s with
  | None => s
  | Some (Ret over) => RingThreads (mem s) over None (taker s)
  | Some p => match access Producer n (mem s) p with Some (m, p) => RingThreads m (overflow s) (Some p) (taker s) | None => s end
  end.

(** The outbound thread calls [front], makes one access or returns, reads the
    item it holds, and calls [pop] on it. *)
Definition begin (s : ring_threads) : ring_threads :=
  match taker s with Idle => set_taker s (mem s) (Fronting (front_prog ring_capacity)) | _ => s end.
Definition consume (n : nat) (s : ring_threads) : ring_threads :=
  match taker s with
  | Idle | Holding _ => s
  | Fronting (Ret None) | Popping (Ret _) => set_taker s (mem s) Idle
  | Fronting (Ret (Some i)) => set_taker s (mem s) (Holding i)
  | Fronting p => match access Consumer n (mem s) p with Some (m, p) => set_taker s m (Fronting p) | None => s end
  | Popping p => match access Consumer n (mem s) p with Some (m, p) => set_taker s m (Popping p) | None => s end
  end.
Definition examine (s : ring_threads) : ring_threads * option work_item :=
  match taker s with Holding i => (set_mem s (look (mem s) i), cells (mem s) !! i) | _ => (s, None) end.
Definition finish (s : ring_threads) : ring_threads :=
  match taker s with Holding _ => set_taker s (mem s) (Popping pop_prog) | _ => s end.

(** [make_unique<ring_type>()]: the slots hold whatever the memory held. *)
Definition new_ring (items : list work_item) : ring_threads :=
  RingThreads (Memory [0] [0] items (replicate (Z.to_nat ring_capacity) 0%nat) (replicate (Z.to_nat ring_capacity) 0%nat) 0 0 false)
    [] None Idle.

(** [T]: the items given to the inbound thread's calls so far; [done] of them
    have been finished with. *)
Abbreviation cell := (slot_of ring_capacity).
Abbreviation views := (list (work_kind * conn_id * list Z)).
Definition settled (T : views) (over : list work_item) (h v : nat) (cur : work_item) : Prop := owes T [] over h cur.

Definition producer_ok (T : views) (s : ring_threads) (h : nat) (cur : work_item) : Prop :=
  match job s with
  | None => owes T [] (overflow s) h cur
  | Some p => psafe ring_capacity T (settled T) p h (saw_tail (mem s)) cur
  end.
Definition consumer_ok (done : nat) (s : ring_threads) (t : nat) : Prop :=
  match taker s with
  | Idle => done = t
  | Fronting p => csafe ring_capacity (λ o t' s', done = t' ∧ match o with None => True | Some i => i = cell t' ∧ (t' < s')%nat end)
                    p t (saw_head (mem s))
  | Holding i => done = t ∧ i = cell t ∧ (t < saw_head (mem s))%nat
  | Popping p => csafe ring_capacity (λ _ t' _, done = t') p t (saw_head (mem s))
  end.
Record threads_ok (T : views) (done : nat) (s : ring_threads) (h t : nat) : Prop := {
  th_ring : ring_ok ring_capacity T h t (mem s);
  th_prod : ∃ cur, cells (mem s) !! cell h = Some cur ∧ producer_ok T s h cur;
  th_cons : consumer_ok done s t }.

(** The ring's size is a power of two. *)
Abbreviation at_size l := (l ring_capacity 12 (proj1 ring_params) (proj2 ring_params)).

(** *** Calls *)

(** The items [handle] queues for the event, from [off] on. *)
Fixpoint data_items (fuel : nat) (conn : conn_id) (data junk : list Z) (off : nat) : list work_item :=
  match fuel with
  | O => []
  | S fuel =>
    if (off <? length data)%nat then
      let n := Nat.min (length data - off) (Z.to_nat item_capacity) in
      Item wk_data conn (u16 (Z.of_nat n)) (wr junk 0 (sub data off n)) :: data_items fuel conn data junk (off + n)
    else []
  end.
Definition event_items (junk : list Z) (ev : tcp_event) : list work_item :=
  match ev_type ev with
  | ev_accepted | ev_closed => []
  | ev_data => data_items (S (length (ev_bytes ev))) (ev_conn ev) (ev_bytes ev) junk 0
  | ev_peer_closed => [Item wk_peer_closed (ev_conn ev) 0 junk]
  | ev_reset => [Item wk_reset (ev_conn ev) 0 junk]
  end.

Lemma data_item_ok conn data junk off : Z.of_nat (length junk) = item_capacity → (off < length data)%nat →
  let n := Nat.min (length data - off) (Z.to_nat item_capacity) in
  item_ok (Item wk_data conn (u16 (Z.of_nat n)) (wr junk 0 (sub data off n))).
Proof.
  intros Hj Hlt. change (Z.to_nat item_capacity) with 2048%nat. cbv zeta. set (n := Nat.min _ _).
  assert (Hn : (n <= 2048 ∧ off + n <= length data)%nat) by (unfold n; lia). clearbody n. unfold item_capacity in Hj.
  rewrite u16_id by mlia. split; cbn; [unfold item_capacity; lia|]. rewrite length_wr; [done|]. rewrite length_sub; lia.
Qed.

Lemma handle_data_safe T rest fuel conn data junk off over h v cur : Z.of_nat (length junk) = item_capacity → (length data - off < fuel)%nat →
  owes T ((view <$> data_items fuel conn data junk off) ++ rest) over h cur →
  psafe ring_capacity T (λ o h v cur, ∃ over', o = Some over' ∧ owes T rest over' h cur) (handle_data_prog fuel conn data junk off over) h v cur.
Proof.
  intros Hj. revert off over h v cur. induction fuel as [|f IH]; intros off over h v cur Hf Ho; [lia|]. cbn [handle_data_prog data_items] in *.
  destruct (Nat.ltb_spec off (length data)) as [Hlt|]; [|by exists over].
  pose proof (data_item_ok conn data junk off Hj Hlt) as Hok. cbv zeta in Hok, Ho |- *. set (n := Nat.min _ _) in *. set (it := Item _ _ _ _) in *.
  assert (Hn : (0 < n)%nat) by (unfold n; change (Z.to_nat item_capacity) with 2048%nat; lia). clearbody n.
  apply psafe_bind. eapply psafe_mono; [|apply (at_size enqueue_safe T _ over it h v cur Hok Ho)]. cbn beta. intros over' h' v' cur' Ho'.
  apply IH; [lia|exact Ho'].
Qed.

Lemma handle_safe T junk over ev h v cur : Z.of_nat (length junk) = item_capacity →
  owes T (view <$> event_items junk ev) over h cur → psafe ring_capacity T (settled T) (handle_prog junk over ev) h v cur.
Proof.
  intros Hj Ho. assert (Hok : ∀ w, item_ok (Item w (ev_conn ev) 0 junk)) by (intros w; split; unfold item_capacity in *; cbn; lia).
  unfold handle_prog, event_items in *. destruct (ev_type ev); try exact Ho; try (by apply (at_size enqueue_safe)).
  apply psafe_bind. eapply psafe_mono; [|apply (handle_data_safe T []); [done| |by rewrite app_nil_r]]; [|lia].
  cbn. by intros o h' v' cur' (over' & -> & Ho').
Qed.

(** *** Every step *)

Lemma owes_more T X over h cur : (h <= length T)%nat → owes T [] over h cur → owes (T ++ X) X over h cur.
Proof. intros Hl (Hd & Ho & Hc). split_and!; [|done|done]. by rewrite drop_app_le, Hd, app_nil_r. Qed.

(** A call is safe when it puts in what it is given: [X] behind what is owed. *)
Definition call_safe (X : views) (p : list work_item → rprog (list work_item)) : Prop :=
  ∀ T over h v cur, owes T X over h cur → psafe ring_capacity T (settled T) (p over) h v cur.

Lemma enqueue_call item : item_ok item → call_safe [view item] (λ over, enqueue_prog ring_capacity over item).
Proof. intros Hi T over h v cur Ho. by apply (at_size enqueue_safe). Qed.
Lemma drain_call : call_safe [] (drain_prog ring_capacity).
Proof. intros T over h v cur Ho. by apply (at_size drain_safe). Qed.
Lemma handle_call junk ev : Z.of_nat (length junk) = item_capacity → call_safe (view <$> event_items junk ev) (λ over, handle_prog junk over ev).
Proof. intros Hj T over h v cur Ho. by apply handle_safe. Qed.

Lemma enter_ok T X done s h t p : threads_ok T done s h t → job s = None → call_safe X p → threads_ok (T ++ X) done (enter s p) h t.
Proof.
  intros [Hr (cur & Hc & Hp) Ht] Hj Hs. unfold enter. rewrite Hj. unfold producer_ok in Hp. rewrite Hj in Hp.
  split; cbn [mem]; [by apply ring_more| |done]. exists cur. split; [done|]. apply Hs. apply owes_more; [apply Hr|done].
Qed.

Lemma produce_ok T done s h t n : threads_ok T done s h t → ∃ h', (h <= h')%nat ∧ threads_ok T done (produce n s) h' t.
Proof.
  intros Hok. pose proof Hok as [Hr (cur & Hc & Hp) Ht]. unfold produce, producer_ok in *. destruct (job s) as [p|] eqn:Hj; [|by exists h].
  assert (Hacc : ∀ m' p', access Producer n (mem s) p = Some (m', p') →
    ∃ h', (h <= h')%nat ∧ threads_ok T done (RingThreads m' (overflow s) (Some p') (taker s)) h' t).
  { intros m' p' Ha. destruct (at_size psafe_access _ _ p p' n h t _ m' cur Hr Hc Hp Ha) as (h' & cur' & Hr' & Hc' & Hp' & Hs & Hle).
    exists h'. split; [done|]. split; [done|by exists cur'|]. unfold consumer_ok in *. cbn [mem taker]. by rewrite Hs. }
  destruct p as [over| | |]; [exists h; split; [done|]; split; [done|by exists cur|done]|..]; destruct (access _ _ _ _) as [[m' p']|]; eauto.
Qed.

Lemma begin_ok T done s h t : threads_ok T done s h t → threads_ok T done (begin s) h t.
Proof.
  intros Hok. unfold begin. pose proof Hok as [Hr Hp Ht]. unfold consumer_ok in Ht. destruct (taker s); try done. subst done. split; [done|done|].
  pose proof (g_order _ _ _ _ _ Hr). apply (at_size front_safe); cbn [mem set_taker]; [lia|done|done].
Qed.

Lemma consume_ok T done s h t n : threads_ok T done s h t → ∃ t', (t <= t')%nat ∧ threads_ok T done (consume n s) h t'.
Proof.
  intros Hok. pose proof Hok as [Hr Hp Ht]. unfold consume, consumer_ok in *.
  assert (Hacc : ∀ A Q (p : rprog A) m' p' c, csafe ring_capacity Q p t (saw_head (mem s)) → access Consumer n (mem s) p = Some (m', p') →
    (∀ t', csafe ring_capacity Q p' t' (saw_head m') → consumer_ok done (set_taker s m' c) t') →
    ∃ t', (t <= t')%nat ∧ threads_ok T done (set_taker s m' c) h t').
  { intros A Q p m' p' c Hsafe Ha Hc. destruct (csafe_access ring_capacity T Q p p' n h t _ m' Hr Hsafe Ha) as (t' & Hr' & Hs' & Hst & Hcs & Hle).
    exists t'. split; [done|]. split; [done| |by apply Hc]. unfold producer_ok in *. cbn [mem set_taker job overflow]. by rewrite Hst, Hcs. }
  assert (Hret : ∀ c, consumer_ok done (set_taker s (mem s) c) t → ∃ t', (t <= t')%nat ∧ threads_ok T done (set_taker s (mem s) c) h t').
  { intros c Hc. exists t. split; [done|]. by split. }
  assert (Hsame : ∃ t', (t <= t')%nat ∧ threads_ok T done s h t') by (by exists t).
  destruct (taker s) as [|[[i|]| | |]| |[[]| | |]]; try (by exact Hsame);
    try (apply Hret; unfold consumer_ok; cbn [taker set_taker mem csafe] in *; naive_solver);
    destruct (access Consumer n (mem s) _) as [[m' p']|] eqn:Ha; try exact Hsame; (eapply Hacc; [exact Ht|exact Ha|done]).
Qed.

Lemma examine_ok T done s h t i : threads_ok T done s h t → taker s = Holding i →
  threads_ok T done (examine s).1 h t ∧ ∃ it, (examine s).2 = Some it ∧ item_ok it ∧ T !! done = Some (view it).
Proof.
  intros [Hr Hp Ht] Hi. unfold examine, consumer_ok in *. rewrite Hi in *. destruct Ht as (-> & -> & Hlt).
  destruct (look_ok _ _ _ _ _ Hr Hlt) as [Hr' Hit]. split; [|exact Hit]. split; [done|done|]. unfold consumer_ok. cbn. by rewrite Hi.
Qed.

Lemma finish_ok T done s h t i : threads_ok T done s h t → taker s = Holding i → threads_ok T (S done) (finish s) h t.
Proof.
  intros [Hr Hp Ht] Hi. unfold finish, consumer_ok in *. rewrite Hi in *. destruct Ht as (-> & -> & Hlt). split; [done|done|]. by apply pop_safe.
Qed.

Lemma new_ring_ok items : length items = Z.to_nat ring_capacity → Forall bytes_ok items → threads_ok [] 0 (new_ring items) 0 0.
Proof.
  intros Hl Hb. destruct (lookup_lt_is_Some_2 items (cell 0) ltac:(rewrite Hl; apply (at_size slot_lt))) as [cur Hc].
  split; [|exists cur; split; [done|]|done].
  - split; cbn [mem new_ring heads tails cells written looked saw_tail saw_head racy length]; rewrite ?length_replicate; try done; try lia.
    + split; [done|]. apply Forall_replicate. lia.
    + split; [done|]. intros i e. rewrite lookup_replicate. intros [-> _]. by left.
  - cbn [producer_ok new_ring job overflow]. split_and!; [done|by constructor|]. rewrite Forall_lookup in Hb. by apply (Hb (cell 0)).
Qed.

(** What the ring holds, oldest first. *)
Definition in_ring (m : memory) : views :=
  (λ j, view (cells m !!! cell j)) <$> seq (pred (length (tails m))) (length (heads m) - length (tails m)).

Lemma in_ring_ok T h t m : ring_ok ring_capacity T h t m → drop t T = in_ring m ++ drop h T.
Proof.
  intros []. pose proof g_order0 as Ho. unfold in_ring. rewrite g_heads0, g_tails0, !length_counts. cbn [pred].
  replace (S h - S t)%nat with (h - t)%nat by lia. replace h with (t + (h - t))%nat at 2 by lia. rewrite <- drop_drop.
  rewrite <- (take_drop (h - t) (drop t T)) at 1. f_equal. apply list_eq. intros i.
  destruct (decide (i < h - t)%nat) as [Hi|Hi].
  - rewrite lookup_take_lt, lookup_drop, list_lookup_fmap, lookup_seq_lt by done. cbn.
    destruct (g_items0 (t + i)%nat ltac:(lia)) as (it & Hc & _ & ->). by rewrite (list_lookup_total_correct _ _ _ Hc).
  - rewrite !lookup_ge_None_2; [done| |rewrite length_take, length_drop; lia]. rewrite length_fmap, length_seq. lia.
Qed.

(** Between calls, everything given is in the ring, in the overflow queue or
    finished with. *)
Definition between_calls (s : ring_threads) : Prop := job s = None ∧ (taker s = Idle ∨ ∃ i, taker s = Holding i).

Lemma threads_queue T done s h t : threads_ok T done s h t → between_calls s → drop done T = in_ring (mem s) ++ (view <$> overflow s).
Proof.
  intros [Hr (cur & _ & Hp) Ht] [Hj Hn]. unfold producer_ok, consumer_ok in *. rewrite Hj in Hp. destruct Hp as (Hd & _). rewrite app_nil_r in Hd.
  assert (done = t) as -> by (destruct Hn as [Hn|[i Hn]]; rewrite Hn in Ht; [done|by destruct Ht]). by rewrite (in_ring_ok _ _ _ _ Hr), Hd.
Qed.

(** Neither thread waits inside a call: there is always an access to make. *)
Lemma psafe_progress {A} T Q (p : rprog A) h t m cur : ring_ok ring_capacity T h t m → cells m !! cell h = Some cur →
  psafe ring_capacity T Q p h (saw_tail m) cur → (∃ a, p = Ret a) ∨ is_Some (access Producer (saw_tail m) m p).
Proof.
  intros [] Hc Hp. destruct p as [a|[] c|[] x c|i f c]; cbn [access own psafe stores saw] in *; [left; by exists a|right..|done|right]; eauto.
  - rewrite decide_True, g_heads0, counts_last by done. by eexists.
  - rewrite decide_False, Nat.leb_refl, g_tails0, counts_lookup by (done || lia). by eexists.
  - destruct Hp as (-> & _). rewrite Hc. by eexists.
Qed.
Lemma csafe_progress {A} T Q (p : rprog A) h t m : ring_ok ring_capacity T h t m → csafe ring_capacity Q p t (saw_head m) →
  (∃ a, p = Ret a) ∨ is_Some (access Consumer (saw_head m) m p).
Proof.
  intros [] Hp. destruct p as [a|[] c|[] x c|i f c]; cbn [access own csafe stores saw] in *; [left; by exists a|right..|done|right|done]; eauto.
  - rewrite decide_False, Nat.leb_refl, g_heads0, counts_lookup by (done || lia). by eexists.
  - rewrite decide_True, g_tails0, counts_last by done. by eexists.
Qed.

(** ** Any interleaving *)

Inductive ring_tick := Give (item : work_item) | Refill | Produce (n : nat) | Begin | Consume (n : nat) | Examine | Finish.

(** The threads, with what has been given to the producer, how many items are
    past (the consumer has finished with them), and each of its reads with that number. *)
Record ring_history := History { threads : ring_threads; given : views; past : nat; reads : list (nat * (work_kind * conn_id * list Z)) }.

Definition ring_step (st : ring_history) (tk : ring_tick) : ring_history :=
  let 'History s given past reads := st in
  match tk, job s, taker s with
  | Give item, None, _ => History (enter s (λ over, enqueue_prog ring_capacity over item)) (given ++ [view item]) past reads
  | Refill, None, _ => History (enter s (drain_prog ring_capacity)) given past reads
  | Produce n, _, _ => History (produce n s) given past reads
  | Begin, _, _ => History (begin s) given past reads
  | Consume n, _, _ => History (consume n s) given past reads
  | Examine, _, Holding _ =>
    let '(s', it) := examine s in History s' given past (reads ++ option_list (pair past ∘ view <$> it))
  | Finish, _, Holding _ => History (finish s) given (S past) reads
  | _, _, _ => st
  end.
Definition ring_run : ring_history → list ring_tick → ring_history := foldl ring_step.
Definition tick_ok (tk : ring_tick) : Prop := match tk with Give item => item_ok item | _ => True end.

Record history_ok (st : ring_history) : Prop := {
  hs_threads : ∃ h t, threads_ok (given st) (past st) (threads st) h t;
  hs_reads : ∀ n x, (n, x) ∈ reads st → given st !! n = Some x }.

Lemma step_ok st tk : history_ok st → tick_ok tk → history_ok (ring_step st tk).
Proof.
  intros Hok Ht. destruct st as [s T done log]. pose proof Hok as [(h & t & Hs) Hr]. cbn [given past threads reads] in *.
  destruct tk as [item| |n| |n| |]; cbn [ring_step].
  - destruct (job s) eqn:Hj; [done|]. split; cbn [given past threads reads].
    + exists h, t. by apply enter_ok; [|done|apply enqueue_call].
    + intros n x Hx. apply lookup_app_l_Some, Hr, Hx.
  - destruct (job s) eqn:Hj; [done|]. split; [|done]. exists h, t. cbn [given past threads]. rewrite <- (app_nil_r T). by apply enter_ok; [|done|apply drain_call].
  - destruct (produce_ok T done s h t n Hs) as (h' & _ & Hs'). split; [|done]. by exists h', t.
  - split; [|done]. exists h, t. by apply begin_ok.
  - destruct (consume_ok T done s h t n Hs) as (t' & _ & Hs'). split; [|done]. by exists h, t'.
  - destruct (taker s) as [| |i|] eqn:Hi; try (by destruct (job s)). destruct (examine_ok T done s h t i Hs Hi) as (Hs' & it & He & _ & Hit).
    destruct (examine s) as [s' o]. cbn [fst snd] in *. subst o. destruct (job s); (split; cbn; [by exists h, t|]; intros n x; rewrite elem_of_app, list_elem_of_singleton;
      intros [Hx|[= -> ->]]; [by apply Hr|done]).
  - destruct (taker s) as [| |i|] eqn:Hi; try (by destruct (job s)). destruct (job s); (split; [|done]; exists h, t; by apply (finish_ok T done s h t i)).
Qed.

Lemma run_history_ok st ts : history_ok st → Forall tick_ok ts → history_ok (ring_run st ts).
Proof. intros Hok Hts. revert st Hok. induction Hts as [|tk ts Ht _ IH]; intros st Hok; [done|]. by apply IH, step_ok. Qed.

(** C5. The ring is free of data races and a FIFO at the grain of
    single memory accesses, under release/acquire ordering: however the
    accesses of the inbound thread's [enqueue] and [drain_overflow] (to the
    counters, and to each field of a slot) fall among those of the outbound
    thread's [front], its reads of the item it works on and [pop], and
    whichever old value of the other's counter a load returns, no slot is
    accessed by both sides unordered; every read during the [n]-th item's work
    sees the [n]-th item given, whole; the ring never holds more than its
    capacity; between calls, what is not finished is in the ring and then in the
    overflow queue, in order; and neither thread ever waits inside a call. *)
Theorem ring_threads_fifo memory_before ts : length memory_before = Z.to_nat ring_capacity → Forall bytes_ok memory_before → Forall tick_ok ts →
  let 'History s given past reads := ring_run (History (new_ring memory_before) [] 0 []) ts in
  racy (mem s) = false ∧
  (∀ n x, (n, x) ∈ reads → given !! n = Some x) ∧
  Z.of_nat (length (in_ring (mem s))) <= ring_capacity ∧
  (between_calls s → drop past given = in_ring (mem s) ++ (view <$> overflow s)) ∧
  (∀ p, job s = Some p → (∃ over, p = Ret over) ∨ ∃ n, is_Some (access Producer n (mem s) p)) ∧
  (∀ p, taker s = Fronting p → (∃ o, p = Ret o) ∨ ∃ n, is_Some (access Consumer n (mem s) p)) ∧
  (∀ p, taker s = Popping p → (∃ u, p = Ret u) ∨ ∃ n, is_Some (access Consumer n (mem s) p)).
Proof.
  intros Hl Hb Hts. assert (H0 : history_ok (History (new_ring memory_before) [] 0 [])).
  { split; [exists 0%nat, 0%nat; by apply new_ring_ok|]. by intros n x ?%not_elem_of_nil. }
  pose proof (run_history_ok _ ts H0 Hts) as [(h & t & Hs) Hr]. destruct (ring_run _ ts) as [s T done log]. cbn [threads given past reads] in *.
  pose proof (λ H, threads_queue T done s h t Hs H) as Hq. destruct Hs as [Hring (cur & Hc & Hp) Ht].
  split; [apply Hring|]. split; [exact Hr|]. split; [|split; [exact Hq|split; [|split]]].
  - pose proof (g_order _ _ _ _ _ Hring). unfold in_ring. rewrite length_fmap, length_seq, (g_heads _ _ _ _ _ Hring), (g_tails _ _ _ _ _ Hring), !length_counts.
    assert (0 <= ring_capacity) by done. lia.
  - intros p Hj. unfold producer_ok in Hp. rewrite Hj in Hp. destruct (psafe_progress _ _ _ _ _ _ _ Hring Hc Hp); eauto.
  - intros p Hj. unfold consumer_ok in Ht. rewrite Hj in Ht. destruct (csafe_progress _ _ _ _ _ _ Hring Ht); eauto.
  - intros p Hj. unfold consumer_ok in Ht. rewrite Hj in Ht. destruct (csafe_progress _ _ _ _ _ _ Hring Ht); eauto.
Qed.

(** ** The same calls, alone *)

(** The ring as it stands in memory. *)
Definition ring_of (m : memory) : spsc_ring.ring work_item :=
  spsc_ring.Ring (default 0 (last (heads m))) (default 0 (last (tails m))) (cells m).
Definition standing (m : memory) : Prop := is_Some (last (heads m)) ∧ is_Some (last (tails m)) ∧ length (cells m) = Z.to_nat ring_capacity.

Lemma run_alone_bind {A B} who m (p : rprog A) (f : A → rprog B) :
  run_alone who m (rbind p f) = ('(m', a) ← run_alone who m p; run_alone who m' (f a)).
Proof.
  revert m. induction p as [a|x c IH|x v c IH|i g c IH]; intros m; cbn [run_alone rbind]; [done|..].
  - destruct (last (stores m x)) as [v|]; [|done]. apply IH.
  - destruct (decide (x = own who)); [apply IH|done].
  - destruct who; [|done]. destruct (cells m !! i) as [it|]; [|done]. apply IH.
Qed.

Lemma reserve_alone m : standing m → ∃ m', run_alone Producer m (reserve_prog ring_capacity) = Some (m', spsc_ring.reserve ring_capacity (ring_of m)) ∧
  ring_of m' = ring_of m ∧ standing m' ∧ heads m' = heads m.
Proof.
  intros ([hd Hh] & [tl Ht] & Hl). unfold reserve_prog. cbn [run_alone stores]. rewrite Hh. cbn [mbind option_bind run_alone stores].
  rewrite (decide_True (P := Head = own Producer)) by done. rewrite Ht. cbn [mbind option_bind]. rewrite decide_False by done. eexists.
  split; [unfold spsc_ring.reserve, ring_of; cbn; by rewrite Hh, Ht|]. split_and!; [done|split_and!; [by exists hd|by exists tl|done]|done].
Qed.

Lemma reserved_lt m i : standing m → spsc_ring.reserve ring_capacity (ring_of m) = Some i → (i < length (cells m))%nat.
Proof.
  intros (_ & _ & ->). unfold spsc_ring.reserve. destruct (_ =? _); [done|]. intros [= <-]. destruct ring_params as [Hk Hc].
  rewrite (spsc_ring.mask ring_capacity 12 Hk Hc). pose proof (Z.mod_pos_bound (spsc_ring.head_ (ring_of m)) ring_capacity ltac:(done)). cbn in *. lia.
Qed.

Lemma write_alone {A} m i it f (c : rprog A) : cells m !! i = Some it →
  run_alone Producer m (Write i f c) = run_alone Producer (write m i (f it)) c ∧ cells (write m i (f it)) !! i = Some (f it).
Proof. intros Hi. cbn [run_alone]. rewrite Hi. split; [done|]. apply list_lookup_insert_eq. by eapply lookup_lt_Some. Qed.

Lemma copy_alone m i it item : cells m !! i = Some it →
  ∃ m', run_alone Producer m (copy_prog i item) = Some (m', tt) ∧ heads m' = heads m ∧ tails m' = tails m ∧
    cells m' = <[i := copy_item it item]> (cells m).
Proof.
  intros H0. unfold copy_prog.
  repeat match goal with H : cells ?m' !! i = Some ?x |- context [run_alone Producer ?m' (Write i ?f ?c)] =>
    let H' := fresh in destruct (write_alone m' i x f c H) as [-> H']; clear H end.
  eexists. split; [reflexivity|]. split; [done|]. split; [done|]. cbn [write cells]. rewrite !list_insert_insert_eq. done.
Qed.

Lemma store_alone {A} (f : unit → rprog A) m i item : standing m → (i < length (cells m))%nat →
  ∃ m', run_alone Producer m (let! _ := copy_prog i item in let! u := commit_prog in f u) = run_alone Producer m' (f tt) ∧
    ring_of m' = store_item (ring_of m) i item ∧ standing m'.
Proof.
  intros ([hd Hh] & [tl Ht] & Hl) Hi. destruct (lookup_lt_is_Some_2 _ _ Hi) as [it Hit].
  destruct (copy_alone m i it item Hit) as (m1 & H1 & Eh & Et & Ec). rewrite run_alone_bind, H1. cbn [mbind option_bind].
  cbn [commit_prog rbind run_alone stores]. rewrite Eh, Hh. cbn [mbind option_bind]. rewrite !decide_True by done. eexists. split; [reflexivity|].
  unfold ring_of, standing, store_item, spsc_ring.commit, spsc_ring.fill. cbn [put heads tails cells spsc_ring.head_ spsc_ring.tail_ spsc_ring.items_].
  rewrite last_snoc, Et, Ec, Hh, Ht, length_insert, (list_lookup_total_correct _ _ _ Hit). by split_and!.
Qed.

Lemma enqueue_alone m s item : standing m → ring_ s = ring_of m →
  ∃ m', run_alone Producer m (enqueue_prog ring_capacity (overflow_ s) item) = Some (m', overflow_ (enqueue s item)) ∧
    ring_ (enqueue s item) = ring_of m' ∧ standing m'.
Proof.
  intros Hm Hs. unfold enqueue, enqueue_prog. rewrite Hs. destruct (overflow_ s) as [|o os] eqn:Ho.
  - destruct (reserve_alone m Hm) as (m1 & H1 & Hr1 & Hm1 & _). rewrite run_alone_bind, H1. cbn [mbind option_bind]. rewrite <- Hr1 in *.
    destruct (spsc_ring.reserve ring_capacity (ring_of m1)) as [i|] eqn:Hi; [|by exists m1].
    destruct (store_alone (λ _, Ret ([] : list work_item)) m1 i item Hm1 (reserved_lt m1 i Hm1 Hi)) as (m2 & H2 & Hr2 & Hm2). exists m2.
    rewrite H2. cbn. by rewrite Ho.
  - exists m. by destruct (spsc_ring.reserve ring_capacity (ring_of m)).
Qed.

Lemma drain_alone over : ∀ m, standing m →
  ∃ m', run_alone Producer m (drain_prog ring_capacity over) = Some (m', (drain_loop over (ring_of m)).1) ∧
    (drain_loop over (ring_of m)).2 = ring_of m' ∧ standing m'.
Proof.
  induction over as [|item over IH]; intros m Hm; [by exists m|]. cbn [drain_prog drain_loop].
  destruct (reserve_alone m Hm) as (m1 & H1 & Hr1 & Hm1 & _). rewrite run_alone_bind, H1. cbn [mbind option_bind]. rewrite <- Hr1.
  destruct (spsc_ring.reserve ring_capacity (ring_of m1)) as [i|] eqn:Hi; [|by exists m1].
  destruct (store_alone (λ _, drain_prog ring_capacity over) m1 i item Hm1 (reserved_lt m1 i Hm1 Hi)) as (m2 & H2 & Hr2 & Hm2).
  destruct (IH m2 Hm2) as (m3 & H3 & Hr3 & Hm3). exists m3.
  rewrite H2. by rewrite <- Hr2.
Qed.

Lemma handle_data_alone fuel conn data junk : ∀ off m s s', standing m → ring_ s = ring_of m → handle_data fuel conn data junk off s = Some s' →
  ∃ m', run_alone Producer m (handle_data_prog fuel conn data junk off (overflow_ s)) = Some (m', Some (overflow_ s')) ∧
    ring_ s' = ring_of m' ∧ standing m'.
Proof.
  induction fuel as [|f IH]; intros off m s s' Hm Hs; [done|]. cbn [handle_data handle_data_prog].
  destruct (off <? length data)%nat; [|intros [= <-]; by exists m]. cbv zeta. set (n := Nat.min _ _). set (it := Item _ _ _ _). intros Hh.
  destruct (enqueue_alone m s it Hm Hs) as (m1 & H1 & Hr1 & Hm1). rewrite run_alone_bind, H1. cbn [mbind option_bind]. by apply IH.
Qed.

Lemma handle_data_total fuel conn data junk : ∀ off s, (length data - off < fuel)%nat → handle_data fuel conn data junk off s ≠ None.
Proof.
  induction fuel as [|f IH]; intros off s Hf; [lia|]. cbn [handle_data]. destruct (Nat.ltb_spec off (length data)); [|done]. apply IH.
  change (Z.to_nat item_capacity) with 2048%nat. lia.
Qed.

(** The programs of accesses are the calls: with the other thread
    at rest, [enqueue], [drain_overflow] and [handle] run access by access leave
    the ring and return the overflow queue that the calls as a whole do, and
    [front] and [pop] find and free the slot they do. *)
Theorem ring_calls_alone m s : standing m → ring_ s = ring_of m →
  (∀ item, ∃ m', run_alone Producer m (enqueue_prog ring_capacity (overflow_ s) item) = Some (m', overflow_ (enqueue s item)) ∧
     ring_ (enqueue s item) = ring_of m') ∧
  (∃ m', run_alone Producer m (drain_prog ring_capacity (overflow_ s)) = Some (m', overflow_ (drain_overflow s)) ∧
     ring_ (drain_overflow s) = ring_of m') ∧
  (∀ junk ev, ∃ m', run_alone Producer m (handle_prog junk (overflow_ s) ev) = Some (m', overflow_ (handle junk s ev)) ∧
     ring_ (handle junk s ev) = ring_of m') ∧
  (∃ m' o, run_alone Consumer m (front_prog ring_capacity) = Some (m', o) ∧ ring_of m' = ring_ s ∧
     front_item s = (λ i, cells m !!! i) <$> o) ∧
  (∃ m', run_alone Consumer m pop_prog = Some (m', tt) ∧ ring_ (pop_item s) = ring_of m').
Proof.
  intros Hm Hs. split_and!.
  - intros item. destruct (enqueue_alone m s item Hm Hs) as (m' & H1 & H2 & _). by exists m'.
  - destruct (drain_alone (overflow_ s) m Hm) as (m' & H1 & H2 & _). exists m'. unfold drain_overflow. rewrite Hs.
    destruct (drain_loop _ _) as [o r]. by split.
  - intros junk ev. unfold handle, handle_prog. destruct (ev_type ev).
    + exists m. by split.
    + destruct (handle_data (S (length (ev_bytes ev))) (ev_conn ev) (ev_bytes ev) junk 0 s) as [s'|] eqn:Hh.
      * destruct (handle_data_alone _ _ _ _ _ m s s' Hm Hs Hh) as (m' & H1 & H2 & _). exists m'. by rewrite run_alone_bind, H1.
      * by destruct (handle_data_total (S (length (ev_bytes ev))) (ev_conn ev) (ev_bytes ev) junk 0 s ltac:(lia)).
    + destruct (enqueue_alone m s (Item wk_peer_closed (ev_conn ev) 0 junk) Hm Hs) as (m' & H1 & H2 & _). by exists m'.
    + exists m. by split.
    + destruct (enqueue_alone m s (Item wk_reset (ev_conn ev) 0 junk) Hm Hs) as (m' & H1 & H2 & _). by exists m'.
  - destruct Hm as ([hd Hh] & [tl Ht] & Hl). unfold front_prog. cbn [run_alone stores]. rewrite Ht. cbn [mbind option_bind run_alone stores].
    rewrite (decide_True (P := Tail = own Consumer)) by done. rewrite Hh. cbn [mbind option_bind]. rewrite decide_False by done. do 2 eexists.
    split; [reflexivity|]. split; [by rewrite Hs|]. unfold front_item, spsc_ring.front. rewrite Hs. cbn. rewrite Hh, Ht. cbn. by destruct (tl =? hd).
  - destruct Hm as ([hd Hh] & [tl Ht] & Hl). unfold pop_prog. cbn [run_alone stores]. rewrite Ht. cbn [mbind option_bind run_alone stores].
    rewrite !decide_True by done. eexists. split; [reflexivity|]. cbn. unfold ring_of, spsc_ring.pop. rewrite Hs. cbn. by rewrite last_snoc, Ht.
Qed.

(** ** A run *)

Module ring_demo.
Definition conn : conn_id := {| cid_slot := 3; cid_generation := 1 |}.
Definition it (b : Z) : work_item := Item wk_data conn 2 (b :: b :: replicate 2046 0).
Definition before : list work_item := replicate 4096 (it 99).
(** The second item is half copied when the consumer looks, misses the first one
    (an old value of [head_]), looks again, and reads it twice, the second item
    being completed in between. *)
Definition schedule : list ring_tick :=
  [Give (it 7)] ++ replicate 9 (Produce 0) ++ [Give (it 8)] ++ replicate 4 (Produce 0) ++
  [Begin; Consume 0; Consume 0; Consume 0; Begin; Consume 0; Consume 1; Consume 0; Examine] ++ replicate 5 (Produce 0) ++
  [Examine; Finish; Consume 0; Consume 0; Consume 0].
Definition outcome : ring_history := ring_run (History (new_ring before) [] 0 []) schedule.

Lemma it_ok b : item_ok (it b).
Proof. split; cbn -[replicate]; [unfold item_capacity; lia|by rewrite length_replicate]. Qed.
Lemma ring_schedule_ok : Forall tick_ok schedule.
Proof. unfold schedule. rewrite !Forall_app. split_and!; repeat constructor; unfold bytes_ok, item_capacity; cbn -[replicate]; rewrite ?length_replicate; done || lia. Qed.
End ring_demo.

Lemma ring_threads_fifo_witness :
  reads ring_demo.outcome = [(0%nat, view (ring_demo.it 7)); (0%nat, view (ring_demo.it 7))] ∧ racy (mem (threads ring_demo.outcome)) = false ∧
  [view (ring_demo.it 8)] = in_ring (mem (threads ring_demo.outcome)) ++ (view <$> overflow (threads ring_demo.outcome)).
Proof.
  assert (Hr : reads ring_demo.outcome = [(0%nat, view (ring_demo.it 7)); (0%nat, view (ring_demo.it 7))]) by (vm_compute; reflexivity).
  assert (Hj : job (threads ring_demo.outcome) = None) by (vm_compute; reflexivity).
  assert (Ht : taker (threads ring_demo.outcome) = Idle) by (vm_compute; reflexivity).
  assert (Hg : drop (past ring_demo.outcome) (given ring_demo.outcome) = [view (ring_demo.it 8)]) by (vm_compute; reflexivity).
  pose proof (ring_threads_fifo ring_demo.before ring_demo.schedule ltac:(unfold ring_demo.before; by rewrite length_replicate)
    ltac:(apply Forall_replicate, ring_demo.it_ok) ring_demo.ring_schedule_ok) as Hx.
  revert Hr Hj Ht Hg Hx. unfold ring_demo.outcome. destruct (ring_run _ _) as [s T k log]. cbn [threads given past reads].
  intros Hr Hj Ht Hg (H1 & _ & _ & H2 & _). split; [exact Hr|]. split; [exact H1|]. rewrite <- Hg. apply H2. split; [exact Hj|left; exact Ht].
Defined.

(** An item enters an empty ring. *)
Lemma ring_calls_alone_witness :
  ∃ m', run_alone Producer (mem (new_ring (spsc_ring.items_ (ring_ (idle_server 1))))) (enqueue_prog ring_capacity [] (ring_demo.it 7)) =
          Some (m', overflow_ (enqueue (idle_server 1) (ring_demo.it 7))) ∧
        ring_ (enqueue (idle_server 1) (ring_demo.it 7)) = ring_of m'.
Proof.
  refine (proj1 (ring_calls_alone (mem (new_ring (spsc_ring.items_ (ring_ (idle_server 1))))) (idle_server 1) _ eq_refl) (ring_demo.it 7)).
  split; [by eexists|]. split; [by eexists|]. exact (length_replicate _ _).
Defined.
