(* ===== verification/TcpConn.v ===== *)
(** * One connection as a state machine

    [conn_segment c seg] is what a segment does to the connection it belongs
    to, as a function of that connection alone: the new slot contents and the
    events to report.  [process_segment_local] shows that the receiver's
    [process_segment], which works on the whole shared state through indices,
    lists and flags, does exactly that to its slot and nothing to the others;
    properties of the protocol are then proved on [conn_segment]. *)

From S2P Require Import Prelude Dpdk Packet Segment SeqArith FlowTable Arp TcpState TcpReceiver.

(** An event before it is stamped with the connection it belongs to. *)
Definition happening : Type := tcp_event_type * list Z.

Section conn.
Context (stack : tcp_stack).

(** [terminate]. *)
Definition conn_close (c : tcp_connection) (why : tcp_event_type) : tcp_connection :=
  let c := set_terminated (set_state c st_closed) 1 in
  let c := if decide (why = ev_reset) then set_ack_pending c false else c in
  set_finalize_pending c true.

(** The peer's FIN, in order: the [switch] of [process_data]. *)
Definition fin_step (c : tcp_connection) : tcp_connection * list happening :=
  match state c with
  | st_established => (set_state c st_close_wait, [(ev_peer_closed, [])])
  | st_fin_wait_1 => (set_state c st_closing, [])
  | st_fin_wait_2 => (conn_close c ev_closed, [(ev_closed, [])])
  | _ => (c, [])
  end.

(** [process_data]. *)
Definition conn_data (c : tcp_connection) (seg : segment) : tcp_connection * list happening :=
  let fin := has seg RTE_TCP_FIN_FLAG in
  let end_ := u32 (seg_seq seg + seg_len seg) in
  if negb (bool_decide (state c = st_established ∨ state c = st_fin_wait_1 ∨ state c = st_fin_wait_2)) then
    (if (0 <? seg_len seg) || fin then set_ack_pending c true else c, [])
  else if (seg_len seg =? 0) && negb fin then (c, [])
  else if seq_gt (seg_seq seg) (rcv_nxt_local c) then (set_ack_pending c true, [])
  else
    let '(c, got) :=
      if seq_gt end_ (rcv_nxt_local c) then
        let skip := u32 (rcv_nxt_local c - seg_seq seg) in
        (set_rcv_nxt_local c end_,
         [(ev_data, sub (seg_payload seg) (Z.to_nat skip) (Z.to_nat (u32 (seg_len seg - skip))))])
      else (c, []) in
    let c := set_ack_pending c true in
    let '(c, ended) :=
      if fin && (end_ =? rcv_nxt_local c) then
        fin_step (set_rcv_nxt_local c (u32 (rcv_nxt_local c + 1)))
      else (c, []) in
    (set_rcv_nxt c (rcv_nxt_local c), got ++ ended).

(** [process_ack] followed by [process_data]. *)
Definition conn_ack (c : tcp_connection) (seg : segment) : tcp_connection * list happening :=
  if seq_gt (seg_ack seg) (snd_nxt c) then (set_ack_pending c true, [])
  else
    let c' := ack_window c seg in
    if flag (out_flags c) out_fin_sent && (seg_ack seg =? snd_nxt c) then
      match state c' with
      | st_fin_wait_1 => conn_data (set_state c' st_fin_wait_2) seg
      | st_closing | st_last_ack => (conn_close c' ev_closed, [(ev_closed, [])])
      | _ => conn_data c' seg
      end
    else conn_data c' seg.

(** The handshake's final ACK. *)
Definition conn_accept (c : tcp_connection) (seg : segment) : tcp_connection :=
  set_state
    (publish_window (set_snd_wl2 (set_snd_wl1 (set_snd_wnd (set_snd_una c (seg_ack seg)) (seg_window seg))
                                    (seg_seq seg)) (seg_ack seg))) st_established.

(** [process_segment], except that an acceptable reset in [syn_received]
    releases the slot instead (see [aborts]). *)
Definition conn_segment (c : tcp_connection) (seg : segment) : tcp_connection * list happening :=
  let c := sync_out_flags c in
  match state c with
  | st_free | st_closed => (c, [])
  | st_syn_received =>
    if has seg RTE_TCP_RST_FLAG || has seg RTE_TCP_SYN_FLAG || negb (has seg RTE_TCP_ACK_FLAG) ||
       negb (seg_ack seg =? u32 (iss c + 1)) then (c, [])
    else let '(c, evs) := conn_data (conn_accept c seg) seg in (c, (ev_accepted, []) :: evs)
  | _ =>
    if has seg RTE_TCP_RST_FLAG then
      if rst_acceptable stack c seg then (conn_close c ev_reset, [(ev_reset, [])]) else (c, [])
    else if has seg RTE_TCP_SYN_FLAG then (set_ack_pending c true, [])
    else if negb (has seg RTE_TCP_ACK_FLAG) then (c, [])
    else conn_ack c seg
  end.

(** A half-open connection the peer takes back. *)
Definition aborts (c : tcp_connection) (seg : segment) : bool :=
  bool_decide (state c = st_syn_received) && has seg RTE_TCP_RST_FLAG && rst_acceptable stack c seg.
End conn.

(** ** Refinement: the receiver's handlers are local *)

Section local.
Context {E : Type} `{DpdkOps E}.
Context (stack : tcp_stack).

(** [happening] stamped with connection [c] in slot [i]. *)
Definition stamp (i : Z) (c : tcp_connection) (h : happening) : tcp_event :=
  Event h.1 {| cid_slot := i; cid_generation := generation c |} h.2 (peer_ip c) (peer_port c) (local_port c).

Definition newly (before after : bool) (i : Z) : list Z := if negb before && after then [i] else [].

(** [r'] is [r] after slot [i] became [c'], with the events and list entries
    that go with it.  Statistics, control packets and environment are free here:
    what is queued at once is stated in TcpDiagram.v. *)
Record local (r : impl E) (i : Z) (c' : tcp_connection) (evs : list happening) (r' : impl E) : Prop := {
  l_slots : slots r' = <[Z.to_nat i := c']> (slots r);
  l_neigh : neighbors r' = neighbors r;
  l_flows : flows r' = flows r;
  l_free : free_slots r' = free_slots r;
  l_await : awaiting_release r' = awaiting_release r;
  l_acks : ack_list r' = ack_list r ++ newly (ack_pending (slot r i)) (ack_pending c') i;
  l_fins : finalize_list r' = finalize_list r ++ newly (finalize_pending (slot r i)) (finalize_pending c') i;
  l_events : events r' = events r ++ (stamp i (slot r i) <$> evs) }.

Definition in_table (r : impl E) (i : Z) : Prop := 0 <= i < Z.of_nat (length (slots r)).

(** What a stamp depends on. *)
Definition same_id (c c' : tcp_connection) : Prop :=
  generation c' = generation c ∧ peer_ip c' = peer_ip c ∧ peer_port c' = peer_port c ∧ local_port c' = local_port c.

Lemma same_id_trans c1 c2 c3 : same_id c1 c2 → same_id c2 c3 → same_id c1 c3.
Proof using. unfold same_id. intros. destruct_and!. split_and!; congruence. Qed.
Lemma newly_refl b i : newly b b i = [].
Proof using. by destruct b. Qed.
Lemma newly_trans a b c i : (a = true → b = true) → (b = true → c = true) →
  newly a b i ++ newly b c i = newly a c i.
Proof using. unfold newly. destruct a, b, c; cbn; intros; try done; naive_solver. Qed.
Lemma stamp_id i c c' h : same_id c c' → stamp i c' h = stamp i c h.
Proof using. intros (E1 & E2 & E3 & E4). unfold stamp. by rewrite E1, E2, E3, E4. Qed.

Lemma slot_put_same (r : impl E) i c : in_table r i → slot (put_slot r i c) i = c.
Proof using. intros Hi. unfold in_table in Hi. unfold slot, put_slot. cbn. apply list_lookup_total_insert_eq. lia. Qed.
Lemma slots_id (r : impl E) i : in_table r i → <[Z.to_nat i := slot r i]> (slots r) = slots r.
Proof using.
  intros Hi. unfold in_table in Hi. apply list_insert_id. unfold slot. apply list_lookup_lookup_total_lt. lia.
Qed.

Lemma local_slot r i c' evs r' : local r i c' evs r' → in_table r i → slot r' i = c' ∧ in_table r' i.
Proof using.
  intros Hl Hi. unfold in_table, slot in *. rewrite (l_slots _ _ _ _ _ Hl), length_insert.
  split; [apply list_lookup_total_insert_eq|]; lia.
Qed.

Lemma local_trans r i c1 e1 r1 c2 e2 r2 : in_table r i → local r i c1 e1 r1 → local r1 i c2 e2 r2 →
  same_id (slot r i) c1 →
  (ack_pending (slot r i) = true → ack_pending c1 = true) → (ack_pending c1 = true → ack_pending c2 = true) →
  (finalize_pending (slot r i) = true → finalize_pending c1 = true) →
  (finalize_pending c1 = true → finalize_pending c2 = true) →
  local r i c2 (e1 ++ e2) r2.
Proof using.
  intros Hi H1 H2 Hid Ha1 Ha2 Hf1 Hf2. destruct (local_slot _ _ _ _ _ H1 Hi) as [Hs _].
  destruct H1 as [A1 A2 A3 A4 A5 A6 A7 A8], H2 as [B1 B2 B3 B4 B5 B6 B7 B8]. rewrite Hs in *. split; try congruence.
  - rewrite B1, A1. apply list_insert_insert_eq.
  - rewrite B6, A6, <- app_assoc. by rewrite newly_trans.
  - rewrite B7, A7, <- app_assoc. by rewrite newly_trans.
  - rewrite B8, A8, <- app_assoc, fmap_app. do 2 f_equal. apply list_fmap_ext. intros. by apply stamp_id.
Qed.

(** The primitive steps. *)
Lemma local_put (r : impl E) i c' : ack_pending c' = ack_pending (slot r i) →
  finalize_pending c' = finalize_pending (slot r i) → local r i c' [] (put_slot r i c').
Proof using. intros Ha Hf. split; cbn; rewrite ?Ha, ?Hf, ?newly_refl, ?app_nil_r; done. Qed.

Lemma local_event (r : impl E) i type data : in_table r i →
  local r i (slot r i) [(type, data)] (push_event r (make_event r type i data)).
Proof using. intros Hi. split; cbn; rewrite ?newly_refl, ?app_nil_r, ?slots_id; done. Qed.

Lemma local_queue_ack (r : impl E) i : in_table r i →
  local r i (set_ack_pending (slot r i) true) [] (queue_ack r i).
Proof using.
  intros Hi. unfold queue_ack. destruct (ack_pending (slot r i)) eqn:Ea; cbn [negb].
  - assert (Hc : set_ack_pending (slot r i) true = slot r i) by (rewrite <- Ea; by destruct (slot r i)).
    rewrite Hc. split; cbn; rewrite ?newly_refl, ?app_nil_r, ?slots_id; done.
  - split; cbn; rewrite ?newly_refl, ?app_nil_r, ?Ea; done.
Qed.

Lemma local_terminate (r : impl E) i why : in_table r i →
  local r i (conn_close (slot r i) why) [(why, [])] (terminate r i why).
Proof using.
  intros Hi. unfold terminate, schedule_finalize, conn_close. set (c := if decide _ then _ else _).
  unfold make_event. change (slot (push_event ?x ?e) i) with (slot x i). rewrite slot_put_same by done.
  assert (Hf : finalize_pending c = finalize_pending (slot r i)) by (subst c; by case_decide).
  assert (Ha : newly (ack_pending (slot r i)) (ack_pending c) i = []).
  { subst c. case_decide; cbn; unfold newly; by destruct (ack_pending (slot r i)). }
  assert (Hid : same_id (slot r i) c) by (subst c; by case_decide). destruct Hid as (I1 & I2 & I3 & I4).
  rewrite Hf. destruct (finalize_pending (slot r i)) eqn:Ef; cbn [negb].
  - assert (Hc : set_finalize_pending c true = c) by (rewrite <- Hf; by destruct c). rewrite Hc.
    split; cbn; rewrite ?Ha, ?Hf, ?app_nil_r, ?I1, ?I2, ?I3, ?I4; try done. by rewrite Ef, app_nil_r.
  - split; cbn; rewrite ?Ha, ?app_nil_r, ?I1, ?I2, ?I3, ?I4, ?Ef; try done. apply list_insert_insert_eq.
Qed.

(** Statistics, control packets and the environment do not show. *)
Definition silent (r r' : impl E) : Prop :=
  slots r' = slots r ∧ neighbors r' = neighbors r ∧ flows r' = flows r ∧ free_slots r' = free_slots r ∧
  awaiting_release r' = awaiting_release r ∧ ack_list r' = ack_list r ∧ finalize_list r' = finalize_list r ∧
  events r' = events r.

Lemma silent_refl r : silent r r.
Proof using. by unfold silent. Qed.
Lemma silent_trans r1 r2 r3 : silent r1 r2 → silent r2 r3 → silent r1 r3.
Proof using. unfold silent. intros. destruct_and!. split_and!; congruence. Qed.
Lemma silent_slot (r r' : impl E) i : silent r r' → slot r' i = slot r i.
Proof using. intros (Hs & _). unfold slot. by rewrite Hs. Qed.
Lemma local_silent_l r r1 i c e r2 : silent r r1 → local r1 i c e r2 → local r i c e r2.
Proof using.
  intros Hs [L1 L2 L3 L4 L5 L6 L7 L8]. rewrite (silent_slot r r1 i Hs) in *.
  destruct Hs as (S1 & S2 & S3 & S4 & S5 & S6 & S7 & S8). split; congruence.
Qed.
Lemma local_silent_r r i c e r1 r2 : local r i c e r1 → silent r1 r2 → local r i c e r2.
Proof using. intros [L1 L2 L3 L4 L5 L6 L7 L8] (S1 & S2 & S3 & S4 & S5 & S6 & S7 & S8). split; congruence. Qed.

Lemma queue_control_silent (r : impl E) pkt : silent r (queue_control r pkt).
Proof using. unfold queue_control, bump. repeat case_match; done. Qed.
Lemma build_silent (r : impl E) a seq ack flags win pay mss : silent r (build stack r a seq ack flags win pay mss).2.
Proof using. unfold build. by destruct (build_segment _ _ _ _ _ _ _ _ _). Qed.
Lemma send_rst_silent (r : impl E) seg : silent r (send_rst_for stack r seg).
Proof using.
  unfold send_rst_for. destruct (has seg RTE_TCP_RST_FLAG); [apply silent_refl|].
  match goal with |- context [let '(_, _) := ?b in _] => assert (Hb : silent r b.2) by (case_match; apply build_silent);
    destruct b as [rst r'] end.
  eapply silent_trans; [exact Hb|]. eapply silent_trans; [|apply queue_control_silent]. done.
Qed.
Lemma send_syn_ack_silent (r : impl E) c : silent r (send_syn_ack stack r c).
Proof using.
  unfold send_syn_ack. pose proof (build_silent r (reply_addr stack c) (iss c) (rcv_nxt_local c)
    (Z.lor RTE_TCP_SYN_FLAG RTE_TCP_ACK_FLAG) (receive_window (params_ stack)) [] (mss_ stack)) as Hb.
  destruct (build _ _ _ _ _ _ _ _ _) as [pkt r']. eapply silent_trans; [exact Hb|apply queue_control_silent].
Qed.

Lemma local_nop (r : impl E) i : in_table r i → local r i (slot r i) [] r.
Proof using. intros Hi. split; cbn; rewrite ?newly_refl, ?app_nil_r, ?slots_id; done. Qed.

(** *** The steps of [process_data] *)

Lemma deliver_local (r : impl E) i seg end_ : in_table r i →
  let c := slot r i in
  let data := sub (seg_payload seg) (Z.to_nat (u32 (rcv_nxt_local c - seg_seq seg)))
                (Z.to_nat (u32 (seg_len seg - u32 (rcv_nxt_local c - seg_seq seg)))) in
  let r1 := push_event r (make_event r ev_data i data) in
  local r i (set_rcv_nxt_local c end_) [(ev_data, data)] (put_slot r1 i (set_rcv_nxt_local (slot r1 i) end_)).
Proof using.
  intros Hi c data r1. pose proof (local_event r i ev_data data Hi) as H1. fold r1 in H1.
  change [(ev_data, data)] with ([(ev_data, data)] ++ [] : list happening).
  eapply local_trans; [done|exact H1|apply local_put; done|done..].
Qed.

Lemma fin_local (r : impl E) i : in_table r i →
  local r i (fin_step (slot r i)).1 (fin_step (slot r i)).2
    (match state (slot r i) with
     | st_established =>
       push_event (put_slot r i (set_state (slot r i) st_close_wait))
         (make_event (put_slot r i (set_state (slot r i) st_close_wait)) ev_peer_closed i [])
     | st_fin_wait_1 => put_slot r i (set_state (slot r i) st_closing)
     | st_fin_wait_2 => terminate r i ev_closed
     | _ => r
     end).
Proof using.
  intros Hi. unfold fin_step. destruct (state (slot r i)) eqn:Es; cbn [fst snd];
    try (by apply local_nop); [|by apply local_put|by apply local_terminate].
  set (c := set_state (slot r i) st_close_wait).
  change [(ev_peer_closed, [])] with ([] ++ [(ev_peer_closed, [])] : list happening).
  assert (H1 : local r i c [] (put_slot r i c)) by (by apply local_put).
  eapply local_trans; [done|exact H1| |done..].
  rewrite <- (slot_put_same r i c Hi) at 2. apply local_event. apply (local_slot _ _ _ _ _ H1 Hi).
Qed.

Lemma fin_step_flags c : ack_pending (fin_step c).1 = ack_pending c ∧
  (finalize_pending c = true → finalize_pending (fin_step c).1 = true) ∧ same_id c (fin_step c).1.
Proof using. unfold fin_step. by destruct (state c). Qed.

Lemma process_data_local (r : impl E) i seg : in_table r i →
  local r i (conn_data (slot r i) seg).1 (conn_data (slot r i) seg).2 (process_data r i seg).
Proof using.
  intros Hi. unfold process_data, conn_data.
  destruct (negb (bool_decide _)).
  { destruct (_ || _); [by apply local_queue_ack|by apply local_nop]. }
  destruct (_ && negb _); [by apply local_nop|].
  destruct (seq_gt (seg_seq seg) _).
  { apply (local_silent_l r (bump r (add_out_of_order 1))); [done|].
    exact (local_queue_ack (bump r (add_out_of_order 1)) i Hi). }
  set (end_ := u32 (seg_seq seg + seg_len seg)).
  match goal with |- context [queue_ack (if ?b then ?x else r) i] => set (r1 := if b then x else r) end.
  match goal with |- context [if seq_gt end_ (rcv_nxt_local (slot r i)) then (?x, ?e) else (slot r i, [])] =>
    set (p := if seq_gt end_ (rcv_nxt_local (slot r i)) then (x, e) else (slot r i, [])) end.
  assert (H1 : local r i p.1 p.2 r1).
  { subst p r1. destruct (seq_gt end_ _); [by apply deliver_local|by apply local_nop]. }
  assert (Hp : same_id (slot r i) p.1 ∧ ack_pending p.1 = ack_pending (slot r i) ∧
               finalize_pending p.1 = finalize_pending (slot r i)) by (subst p; by destruct (seq_gt end_ _)).
  clearbody p r1. destruct p as [c1 got], Hp as (Hid1 & Ha1 & Hf1). cbn [fst snd] in *.
  destruct (local_slot _ _ _ _ _ H1 Hi) as [Hs1 Hi1].
  assert (H2 : local r i (set_ack_pending c1 true) got (queue_ack r1 i)).
  { rewrite <- (app_nil_r got). eapply local_trans; [done|exact H1| |done|by rewrite Ha1|done|by rewrite Hf1|done].
    rewrite <- Hs1. by apply local_queue_ack. }
  destruct (local_slot _ _ _ _ _ H2 Hi) as [Hs2 Hi2]. set (r2 := queue_ack r1 i) in *. set (c2 := set_ack_pending c1 true) in *.
  rewrite Hs2.
  destruct (has seg RTE_TCP_FIN_FLAG && (end_ =? rcv_nxt_local c2)).
  - set (c3 := set_rcv_nxt_local c2 (u32 (rcv_nxt_local c2 + 1))).
    assert (H3 : local r i c3 got (put_slot r2 i c3)).
    { rewrite <- (app_nil_r got). eapply local_trans; [done|exact H2| |done|done|done|cbn; by rewrite Hf1|done].
      apply local_put; by rewrite Hs2. }
    destruct (local_slot _ _ _ _ _ H3 Hi) as [Hs3 Hi3]. set (r3 := put_slot r2 i c3) in *.
    pose proof (fin_local r3 i Hi3) as H4. destruct (fin_step_flags c3) as (F1 & F2 & F3).
    match type of H4 with local _ _ _ _ ?r4 => set (r4' := r4) in * end. rewrite Hs3 in H4.
    assert (H5 : local r i (fin_step c3).1 (got ++ (fin_step c3).2) r4').
    { eapply local_trans; [done|exact H3|exact H4|done|done|cbn in *; by rewrite F1|cbn; by rewrite Hf1|done]. }
    destruct (fin_step c3) as [c4 ended]. cbn [fst snd] in *.
    destruct (local_slot _ _ _ _ _ H5 Hi) as [Hs5 Hi5]. rewrite Hs5.
    cbn [fst snd]. rewrite <- (app_nil_r (got ++ ended)).
    eapply local_trans; [done|exact H5|apply local_put; by rewrite Hs5| |cbn in *; by rewrite F1|done| |done].
    + unfold same_id in *. cbn in *. destruct_and!. split_and!; congruence.
    + intros Hf. apply F2. cbn. by rewrite Hf1.
  - rewrite Hs2. cbn [fst snd].
    eapply local_trans; [done|exact H2|apply local_put; by rewrite Hs2|done|done|done|cbn; by rewrite Hf1|done].
Qed.

(** *** [process_ack] and [process_segment] *)

(** Fields a step leaves alone, and flags it does not clear. *)
Definition keeps (c c' : tcp_connection) : Prop :=
  same_id c c' ∧ (ack_pending c = true → ack_pending c' = true) ∧
  (finalize_pending c = true → finalize_pending c' = true).

Lemma keeps_trans c1 c2 c3 : keeps c1 c2 → keeps c2 c3 → keeps c1 c3.
Proof using. unfold keeps, same_id. intros. destruct_and!. split_and!; (congruence || auto). Qed.

Lemma ack_window_keeps c seg : state (ack_window c seg) = state c ∧ keeps c (ack_window c seg) ∧
  ack_pending (ack_window c seg) = ack_pending c ∧ finalize_pending (ack_window c seg) = finalize_pending c.
Proof using. unfold ack_window. repeat case_match; simplify_eq; done. Qed.

Lemma sync_keeps c : keeps c (sync_out_flags c) ∧ ack_pending (sync_out_flags c) = ack_pending c ∧
  finalize_pending (sync_out_flags c) = finalize_pending c.
Proof using. unfold sync_out_flags. repeat case_match; done. Qed.

Lemma conn_data_keeps c seg : keeps c (conn_data c seg).1.
Proof using.
  unfold conn_data. repeat (case_match; simplify_eq; try done).
  all: match goal with Hf : fin_step ?x = _ |- _ => pose proof (fin_step_flags x) as Hx; rewrite Hf in Hx end.
  all: unfold keeps, same_id in *; cbn in *; destruct_and!; split_and!; (congruence || auto).
Qed.

Lemma local_then_data (r : impl E) i c1 e1 r1 seg : in_table r i → local r i c1 e1 r1 → keeps (slot r i) c1 →
  local r i (conn_data c1 seg).1 (e1 ++ (conn_data c1 seg).2) (process_data r1 i seg).
Proof using.
  intros Hi H1 (K1 & K2 & K3). destruct (local_slot _ _ _ _ _ H1 Hi) as [Hs1 Hi1].
  destruct (conn_data_keeps c1 seg) as (_ & D2 & D3).
  eapply local_trans; [done|exact H1| |done..]. rewrite <- Hs1. by apply process_data_local.
Qed.

Lemma local_then_put (r : impl E) i c1 e1 r1 c2 : in_table r i → local r i c1 e1 r1 → keeps (slot r i) c1 →
  ack_pending c2 = ack_pending c1 → finalize_pending c2 = finalize_pending c1 →
  local r i c2 e1 (put_slot r1 i c2).
Proof using.
  intros Hi H1 (K1 & K2 & K3) Ha Hf. destruct (local_slot _ _ _ _ _ H1 Hi) as [Hs1 Hi1].
  rewrite <- (app_nil_r e1).
  eapply local_trans; [done|exact H1|apply local_put; by rewrite Hs1|done|done|by rewrite Ha|done|by rewrite Hf].
Qed.

Lemma process_ack_local (r : impl E) i seg : in_table r i →
  local r i (conn_ack (slot r i) seg).1 (conn_ack (slot r i) seg).2
    (let '(go_on, r) := process_ack r i seg in if go_on : bool then process_data r i seg else r).
Proof using.
  intros Hi. unfold process_ack, conn_ack.
  destruct (seq_gt (seg_ack seg) _); [by apply local_queue_ack|].
  destruct (ack_window_keeps (slot r i) seg) as (Es & K & Ea & Ef). set (c1 := ack_window (slot r i) seg) in *.
  assert (H1 : local r i c1 [] (put_slot r i c1)) by (by apply local_put).
  destruct (local_slot _ _ _ _ _ H1 Hi) as [Hs1 Hi1].
  assert (Hd : local r i (conn_data c1 seg).1 (conn_data c1 seg).2 (process_data (put_slot r i c1) i seg))
    by exact (local_then_data r i c1 [] _ seg Hi H1 K).
  assert (Hc : local r i (conn_close c1 ev_closed) [(ev_closed, [])] (terminate (put_slot r i c1) i ev_closed)).
  { change [(ev_closed, [])] with ([] ++ [(ev_closed, [])] : list happening).
    eapply local_trans; [done|exact H1| |apply K|apply K|done|apply K|done].
    pose proof (local_terminate (put_slot r i c1) i ev_closed Hi1) as Ht. by rewrite Hs1 in Ht. }
  destruct (_ && _); [|exact Hd].
  destruct (state c1) eqn:Est; try exact Hd; try exact Hc.
  apply (local_then_data r i (set_state c1 st_fin_wait_2) []); [done| |exact K].
  eapply (local_then_put r i c1 []); done.
Qed.

(** A step after one that changed neither flag. *)
Lemma local_after (r : impl E) i c1 r1 c2 e2 r2 : in_table r i → local r i c1 [] r1 → same_id (slot r i) c1 →
  ack_pending c1 = ack_pending (slot r i) → finalize_pending c1 = finalize_pending (slot r i) →
  local r1 i c2 e2 r2 → local r i c2 e2 r2.
Proof using.
  intros Hi H1 Hid Ea Ef H2. destruct (local_slot _ _ _ _ _ H1 Hi) as [Hs1 _].
  destruct H1 as [L1 L2 L3 L4 L5 L6 L7 L8], H2 as [M1 M2 M3 M4 M5 M6 M7 M8].
  rewrite Hs1 in *. rewrite Ea, Ef, newly_refl, app_nil_r in *. split; try congruence.
  - rewrite M1, L1. apply list_insert_insert_eq.
  - rewrite M8, L8. f_equal. apply list_fmap_ext. intros. by apply stamp_id.
Qed.

Lemma process_syn_received_local (r : impl E) i seg : in_table r i → state (slot r i) = st_syn_received →
  aborts stack (slot r i) seg = false →
  let p :=
    if has seg RTE_TCP_RST_FLAG || has seg RTE_TCP_SYN_FLAG || negb (has seg RTE_TCP_ACK_FLAG) ||
       negb (seg_ack seg =? u32 (iss (slot r i) + 1)) then (slot r i, [])
    else let '(c, evs) := conn_data (conn_accept (slot r i) seg) seg in (c, (ev_accepted, []) :: evs) in
  local r i p.1 p.2 (process_syn_received stack r i seg).
Proof using.
  intros Hi Est Hab p. subst p. unfold process_syn_received. unfold aborts in Hab.
  rewrite bool_decide_true in Hab by done. pose proof (local_nop r i Hi) as H0.
  destruct (has seg RTE_TCP_RST_FLAG); cbn [orb andb] in *; [rewrite Hab; exact H0|].
  destruct (has seg RTE_TCP_SYN_FLAG); cbn [orb].
  { destruct (_ && _); [|exact H0]. eapply local_silent_r; [exact H0|apply send_syn_ack_silent]. }
  destruct (has seg RTE_TCP_ACK_FLAG); cbn [orb negb]; [|exact H0].
  destruct (seg_ack seg =? u32 (iss (slot r i) + 1)); cbn [negb].
  2: { eapply local_silent_r; [exact H0|apply send_rst_silent]. }
  fold (conn_accept (slot r i) seg). set (c2 := conn_accept (slot r i) seg).
  assert (H2 : local r i c2 [] (put_slot r i c2)) by (by apply local_put).
  destruct (local_slot _ _ _ _ _ H2 Hi) as [Hs2 Hi2].
  pose proof (local_event (put_slot r i c2) i ev_accepted [] Hi2) as Hev. rewrite Hs2 in Hev.
  apply (local_after r i c2) in Hev; [|done..].
  pose proof (local_then_data r i c2 [(ev_accepted, [])] _ seg Hi Hev ltac:(done)) as H4.
  destruct (conn_data c2 seg) as [c3 evs]. exact H4.
Qed.

(** The receiver's segment handler is the connection state machine, applied
    to its slot. *)
Lemma process_segment_local (r : impl E) i seg : in_table r i →
  aborts stack (sync_out_flags (slot r i)) seg = false →
  local r i (conn_segment stack (slot r i) seg).1 (conn_segment stack (slot r i) seg).2
    (process_segment stack r i seg).
Proof using.
  intros Hi Hab. unfold process_segment, conn_segment.
  destruct (sync_keeps (slot r i)) as ((K1 & _ & _) & Ea & Ef). set (c := sync_out_flags (slot r i)) in *.
  assert (H1 : local r i c [] (put_slot r i c)) by (by apply local_put).
  destruct (local_slot _ _ _ _ _ H1 Hi) as [Hs1 Hi1]. set (r1 := put_slot r i c) in *. rewrite Hs1.
  assert (Hgo : ∀ c' e r', local r1 i c' e r' → local r i c' e r') by (intros; by eapply local_after).
  pose proof (local_terminate (bump r1 (add_rst_received 1)) i ev_reset Hi1) as Ht.
  apply (local_silent_l r1) in Ht; [|done]. change (slot (bump r1 _) i) with (slot r1 i) in Ht.
  pose proof (process_ack_local r1 i seg Hi1) as Ha. pose proof (local_queue_ack r1 i Hi1) as Hq.
  pose proof (process_syn_received_local r1 i seg Hi1) as Hy. rewrite Hs1 in *.
  destruct (state c) eqn:Est; try exact H1; [by apply Hgo, Hy| | | | | |].
  all: destruct (has seg RTE_TCP_RST_FLAG); [destruct (rst_acceptable stack c seg); [by apply Hgo|exact H1]|];
       destruct (has seg RTE_TCP_SYN_FLAG); [by apply Hgo|];
       destruct (negb (has seg RTE_TCP_ACK_FLAG)); [exact H1|by apply Hgo].
Qed.

(** ** How a step moves a connection between its phases *)

Definition synchronized (s : tcp_state) : Prop := s ≠ st_free ∧ s ≠ st_syn_received ∧ s ≠ st_closed.

(** A connection whose flags agree with its state. *)
Definition phase_ok (c : tcp_connection) : Prop :=
  match state c with
  | st_free => True
  | st_syn_received => ack_pending c = false ∧ finalize_pending c = false
  | st_closed => True
  | _ => finalize_pending c = false
  end.

(** The result of a step on a synchronized connection: still synchronized,
    or closed and due for finalizing. *)
Definition advanced (c : tcp_connection) : Prop :=
  synchronized (state c) ∧ finalize_pending c = false ∨ state c = st_closed ∧ finalize_pending c = true.

Lemma close_advanced c why : advanced (conn_close c why).
Proof using. right. unfold conn_close. by case_decide. Qed.

Lemma fin_step_advanced c : synchronized (state c) → finalize_pending c = false → advanced (fin_step c).1.
Proof using.
  intros Hs Hf. unfold fin_step. destruct (state c) eqn:Es; cbn [fst]; try (by apply close_advanced); left; cbn;
    rewrite ?Es; split; done.
Qed.

Lemma conn_data_advanced c seg : synchronized (state c) → finalize_pending c = false → advanced (conn_data c seg).1.
Proof using.
  intros Hs Hf. unfold conn_data. repeat (case_match; simplify_eq; try (by left)).
  all: match goal with Hx : fin_step ?x = (?y, _) |- _ => pose proof (fin_step_advanced x Hs Hf) as Hy; rewrite Hx in Hy end.
  all: exact Hy.
Qed.

Lemma conn_ack_advanced c seg : synchronized (state c) → finalize_pending c = false → advanced (conn_ack c seg).1.
Proof using.
  intros Hs Hf. unfold conn_ack. destruct (ack_window_keeps c seg) as (Es & _ & _ & Ef). rewrite Hf in Ef.
  assert (Hs' : synchronized (state (ack_window c seg))) by (by rewrite Es).
  assert (Hd : advanced (conn_data (ack_window c seg) seg).1) by (by apply conn_data_advanced).
  destruct (seq_gt (seg_ack seg) (snd_nxt c)); [by left|]. destruct (_ && _); [|done].
  destruct (state (ack_window c seg)); try done; try apply close_advanced. by apply conn_data_advanced.
Qed.

Lemma conn_ack_keeps c seg : same_id c (conn_ack c seg).1 ∧ (ack_pending c = true → ack_pending (conn_ack c seg).1 = true).
Proof using.
  unfold conn_ack. destruct (ack_window_keeps c seg) as (_ & K & _ & _).
  pose proof (keeps_trans _ _ _ K (conn_data_keeps (ack_window c seg) seg)) as (K1 & K2 & _).
  repeat case_match; try done; try (split; apply K).
  pose proof (conn_data_keeps (set_state (ack_window c seg) st_fin_wait_2) seg) as (J1 & J2 & _).
  destruct K as (I1 & I2 & _). unfold same_id in *. cbn in *. destruct_and!. split_and!; (congruence || auto).
Qed.

Lemma sync_state c : (synchronized (state c) → synchronized (state (sync_out_flags c))) ∧
  (¬ synchronized (state c) → sync_out_flags c = c).
Proof using.
  unfold sync_out_flags, synchronized. repeat case_match; split; try done; intros Hn; exfalso; apply Hn; by rewrite e.
Qed.

Lemma conn_segment_id c seg : same_id c (conn_segment stack c seg).1.
Proof using.
  unfold conn_segment. destruct (sync_keeps c) as ((K & _) & _ & _). set (c1 := sync_out_flags c) in *.
  apply (same_id_trans c c1); [done|]. pose proof (conn_ack_keeps c1 seg) as [A _].
  pose proof (conn_data_keeps (conn_accept c1 seg) seg) as (D & _).
  assert (C : same_id c1 (conn_close c1 ev_reset)) by (unfold conn_close; by case_decide).
  destruct (conn_data (conn_accept c1 seg) seg). repeat case_match; done.
Qed.

Lemma conn_segment_advanced c seg : phase_ok c → synchronized (state c) → advanced (conn_segment stack c seg).1 ∧
  (ack_pending c = true → state (conn_segment stack c seg).1 ≠ st_closed → ack_pending (conn_segment stack c seg).1 = true).
Proof using.
  intros Hp Hs. assert (Hf : finalize_pending c = false).
  { destruct Hs as (? & ? & ?). unfold phase_ok in Hp. by destruct (state c). }
  destruct (sync_keeps c) as (_ & Ea & Ef), (sync_state c) as [Sy _]. specialize (Sy Hs). rewrite Hf in Ef.
  rewrite <- Ea. unfold conn_segment. set (c1 := sync_out_flags c) in *. clearbody c1.
  pose proof (conn_ack_advanced c1 seg Sy Ef) as A. pose proof (conn_ack_keeps c1 seg) as [_ K].
  assert (H0 : advanced c1) by (by left).
  assert (Hq : advanced (set_ack_pending c1 true)) by (by left).
  destruct Sy as (? & ? & ?). destruct (state c1) eqn:Es; try done;
    (destruct (has seg RTE_TCP_RST_FLAG);
     [destruct (rst_acceptable stack c1 seg); [split; [apply close_advanced|]; intros _ Hc; exfalso; by apply Hc|by split]|]);
    (destruct (has seg RTE_TCP_SYN_FLAG); [by split|]); (destruct (has seg RTE_TCP_ACK_FLAG); cbn [negb]; [|by split]); auto.
Qed.

Lemma conn_segment_half_open c seg : phase_ok c → state c = st_syn_received →
  (conn_segment stack c seg).1 = c ∨ advanced (conn_segment stack c seg).1.
Proof using.
  intros Hp Hs. unfold phase_ok in Hp. rewrite Hs in Hp. destruct Hp as [Ha Hf].
  destruct (sync_state c) as [_ Sy]. unfold conn_segment. rewrite Sy by (rewrite Hs; by intros (_ & ? & _)). rewrite Hs.
  destruct (_ || _); [by left|right].
  assert (A : advanced (conn_data (conn_accept c seg) seg).1) by (apply conn_data_advanced; [by repeat split|done]).
  by destruct (conn_data _ _).
Qed.

Lemma conn_segment_closed c seg : state c = st_closed → (conn_segment stack c seg).1 = c.
Proof using.
  intros Hs. unfold conn_segment. destruct (sync_state c) as [_ Sy]. rewrite Sy by (rewrite Hs; by intros (_ & _ & ?)).
  by rewrite Hs.
Qed.
End local.
