(* ===== verification/TcpInv.v ===== *)
(** * The invariant of the connection table

    [inv m r] ties together everything the inbound thread keeps about its
    slots: the flow table stands for the map [m] from 4-tuples to slots, every
    slot is exactly one of free, live (in [m]) or awaiting release, and the two
    per-poll work lists agree with the flags in the slots.  Each handler is
    shown to preserve it, and [poll] to preserve its quiescent form. *)

From S2P Require Import Prelude Probing FlowTable Dpdk Packet Segment SeqArith Arp TcpState TcpReceiver TcpConn.

(** Addresses that give a real flow key. *)
Definition addr_ok (c : tcp_connection) : Prop :=
  is_u32 (peer_ip c) ∧ peer_ip c ≠ 0 ∧ is_u16 (peer_port c) ∧ is_u16 (local_port c).

Lemma addr_key c : addr_ok c → flow_key c ≠ 0.
Proof. intros (? & ? & ? & ?). unfold flow_key. apply flow_table.key_nonzero; assumption. Qed.

Section inv.
Context {E : Type} `{DpdkOps E}.
Context (stack : tcp_stack) (txq : queue).
Abbreviation n := (max_connections (params_ stack)).

Record inv (m : gmap Z Z) (r : impl E) : Prop := {
  i_len : Z.of_nat (length (slots r)) = n;
  i_flows : flow_table.flow_rep n (flows r) m;
  i_neigh : ∃ nm, neighbor_table.neigh_rep default_neighbors (neighbors r) nm;
  i_addr : ∀ i, inr n i → state (slot r i) ≠ st_free → addr_ok (slot r i);
  i_map : ∀ k i, m !! k = Some i → inr n i ∧ k = flow_key (slot r i) ∧
            state (slot r i) ≠ st_free ∧ i ∉ awaiting_release r;
  i_live : ∀ i, inr n i → state (slot r i) ≠ st_free → i ∉ awaiting_release r →
            m !! flow_key (slot r i) = Some i;
  i_free : ∀ i, i ∈ free_slots r ↔ inr n i ∧ state (slot r i) = st_free;
  i_free_nd : NoDup (free_slots r);
  i_await : ∀ i, i ∈ awaiting_release r → inr n i ∧ state (slot r i) = st_closed ∧
              finalize_pending (slot r i) = false;
  i_await_nd : NoDup (awaiting_release r);
  i_count : Z.of_nat (size m) + Z.of_nat (length (free_slots r)) + Z.of_nat (length (awaiting_release r)) = n;
  i_acks : ∀ i, i ∈ ack_list r → inr n i ∧
             (state (slot r i) = st_closed ∨ ack_pending (slot r i) = true ∧ synchronized (state (slot r i)));
  i_acks_nd : NoDup (ack_list r);
  i_ackp : ∀ i, inr n i → ack_pending (slot r i) = true → i ∈ ack_list r;
  i_fin : ∀ i, i ∈ finalize_list r ↔ inr n i ∧ finalize_pending (slot r i) = true;
  i_fin_nd : NoDup (finalize_list r);
  i_finp : ∀ i, inr n i → finalize_pending (slot r i) = true → state (slot r i) = st_closed;
  i_closed : ∀ i, inr n i → state (slot r i) = st_closed → i ∈ awaiting_release r ∨ i ∈ finalize_list r }.

(** ** Slots *)

Lemma slot_put (r : impl E) i j c : Z.of_nat (length (slots r)) = n → inr n i → inr n j →
  slot (put_slot r i c) j = if decide (i = j) then c else slot r j.
Proof using.
  unfold slot, put_slot, inr. intros Hl Hi Hj. cbn. case_decide as Eij.
  - subst j. apply list_lookup_total_insert_eq. lia.
  - apply list_lookup_total_insert_ne. lia.
Qed.

Lemma put_slot_len (r : impl E) i c : length (slots (put_slot r i c)) = length (slots r).
Proof using. apply length_insert. Qed.

(** ** Changes that touch neither slots, tables nor lists *)

Definition quiet (r r' : impl E) : Prop :=
  slots r' = slots r ∧ neighbors r' = neighbors r ∧ flows r' = flows r ∧ free_slots r' = free_slots r ∧
  awaiting_release r' = awaiting_release r ∧ ack_list r' = ack_list r ∧ finalize_list r' = finalize_list r.

Lemma quiet_refl r : quiet r r.
Proof using. by unfold quiet. Qed.
Lemma quiet_trans r1 r2 r3 : quiet r1 r2 → quiet r2 r3 → quiet r1 r3.
Proof using. unfold quiet. intros. destruct_and!. split_and!; congruence. Qed.

Lemma inv_quiet m r r' : quiet r r' → inv m r → inv m r'.
Proof using.
  destruct r, r'. unfold quiet. cbn. intros (-> & -> & -> & -> & -> & -> & ->) [].
  by split.
Qed.

Lemma silent_quiet r r' : silent r r' → quiet r r'.
Proof using. unfold silent, quiet. intros. destruct_and!. split_and!; done. Qed.

(* A slot's flags after an update at [i], the common cases of the lemmas below. *)
Ltac at_slot Hs j := rewrite ?Hs in * by done; case_decide; [subst j|].

(** ** Steps of one connection *)

(** What the tables need to know of a step from [c] to [c']. *)
Record step_ok (c c' : tcp_connection) : Prop := {
  so_id : same_id c c';
  so_free : state c' ≠ st_free;
  so_closed : state c = st_closed → state c' = st_closed ∧ finalize_pending c' = finalize_pending c ∧
                ack_pending c' = ack_pending c;
  so_fin : state c ≠ st_closed → finalize_pending c = false →
             (finalize_pending c' = true ↔ state c' = st_closed);
  so_sync : synchronized (state c) → state c' = st_closed ∨
              synchronized (state c') ∧ (ack_pending c = true → ack_pending c' = true);
  so_ack : ack_pending c' = true → ack_pending c = true ∨ state c' = st_closed ∨ synchronized (state c') }.

Lemma step_addr c c' : step_ok c c' → flow_key c' = flow_key c ∧ (addr_ok c → addr_ok c').
Proof using. intros [(_ & E1 & E2 & E3) _ _ _ _ _]. unfold flow_key, addr_ok. by rewrite E1, E2, E3. Qed.

Lemma inv_local m r i c' evs r' : inv m r → inr n i → state (slot r i) ≠ st_free → i ∉ awaiting_release r →
  local r i c' evs r' → step_ok (slot r i) c' → inv m r'.
Proof using.
  intros Hinv Hi Hnf Hna Hl Hso. destruct (step_addr _ _ Hso) as [Hkey Haddr].
  destruct Hso as [_ Hf' Hcl Hfin Hsy Hack], Hinv. destruct Hl as [L1 L2 L3 L4 L5 L6 L7 _].
  assert (Hs : ∀ j, inr n j → slot r' j = if decide (i = j) then c' else slot r j).
  { intros j Hj. unfold slot at 1. rewrite L1. exact (slot_put r i j c' i_len0 Hi Hj). }
  assert (Hfp : finalize_pending (slot r i) = true → state (slot r i) = st_closed) by auto.
  assert (Hfc : finalize_pending c' = true → state c' = st_closed).
  { destruct (decide (state (slot r i) = st_closed)) as [Ec|Ec]; [by intros _; apply Hcl|].
    destruct (finalize_pending (slot r i)); [by exfalso; auto|]. by apply Hfin. }
  assert (Hfn : ∀ j, j ∈ newly (finalize_pending (slot r i)) (finalize_pending c') i ↔
      j = i ∧ finalize_pending (slot r i) = false ∧ finalize_pending c' = true).
  { intros j. unfold newly. destruct (finalize_pending (slot r i)), (finalize_pending c'); cbn; set_solver. }
  assert (Han : ∀ j, j ∈ newly (ack_pending (slot r i)) (ack_pending c') i ↔
      j = i ∧ ack_pending (slot r i) = false ∧ ack_pending c' = true).
  { intros j. unfold newly. destruct (ack_pending (slot r i)), (ack_pending c'); cbn; set_solver. }
  assert (Hnd : ∀ l a b, NoDup l → (i ∈ l → a = true ∨ b = false) → NoDup (l ++ newly a b i)).
  { intros l a b Hl Hin. unfold newly. destruct a, b; cbn; rewrite ?app_nil_r; try done. apply NoDup_app.
    split_and!; [done| |apply NoDup_singleton]. intros j Hj ->%list_elem_of_singleton. destruct (Hin Hj); done. }
  split; rewrite ?L2, ?L3, ?L4, ?L5; try done.
  - by rewrite L1, length_insert.
  - intros j Hj. at_slot Hs j; auto.
  - intros k j Hk. destruct (i_map0 _ _ Hk) as (Hj & Hkj & ? & ?). split; [done|]. at_slot Hs j; [|done]. by rewrite Hkey.
  - intros j Hj. at_slot Hs j; [rewrite Hkey|]; auto.
  - intros j. rewrite i_free0. split; intros [Hj Hst]; (split; [done|]); at_slot Hs j; done.
  - intros j Hin. destruct (i_await0 j Hin) as (Hj & ? & ?). split; [done|]. at_slot Hs j; done.
  - intros j. rewrite L6, elem_of_app, Han. intros [Hin|(-> & Ha & Ha')].
    + destruct (i_acks0 j Hin) as (Hj & Hd). split; [done|]. at_slot Hs j; [|done].
      destruct Hd as [?|[Hp ?]]; [left; by apply Hcl|]. destruct Hsy as [?|[? ?]]; auto.
    + split; [done|]. rewrite Hs, decide_True by done. destruct (Hack Ha') as [?|[?|?]]; [congruence|auto|auto].
  - rewrite L6. apply Hnd; [done|]. intros Hin. destruct (i_acks0 i Hin) as [_ [Ec|[? _]]]; [|auto].
    destruct (Hcl Ec) as (_ & _ & ->). destruct (ack_pending (slot r i)); auto.
  - intros j Hj. rewrite L6, elem_of_app, Han. at_slot Hs j; [|auto]. intros Ha'.
    destruct (ack_pending (slot r i)) eqn:Ea; auto.
  - intros j. rewrite L7, elem_of_app, Hfn, i_fin0. split.
    + intros [[Hj Hp]|(-> & Hp & Hp')]; (split; [done|]); rewrite Hs by done; [|by rewrite decide_True].
      case_decide; [subst j|done]. destruct (Hcl (Hfp Hp)) as (_ & -> & _). done.
    + intros [Hj Hp]. at_slot Hs j; [|auto]. destruct (finalize_pending (slot r i)); auto.
  - rewrite L7. apply Hnd; [done|]. intros [_ ?]%i_fin0. auto.
  - intros j Hj. at_slot Hs j; auto.
  - intros j Hj. rewrite L7, elem_of_app, Hfn. at_slot Hs j.
    + intros Hc. right. destruct (decide (state (slot r i) = st_closed)) as [Ec|Ec].
      * left. destruct (i_closed0 i Hi Ec); done.
      * destruct (finalize_pending (slot r i)) eqn:Ep; [by exfalso; auto|]. right. split_and!; auto. by apply Hfin.
    + intros Hc. destruct (i_closed0 j Hj Hc); auto.
Qed.

(** A slot's flags agree with its state. *)
Lemma inv_phase m r i : inv m r → inr n i → phase_ok (slot r i).
Proof using.
  intros Hinv Hi. destruct Hinv. unfold phase_ok.
  assert (Hf : state (slot r i) ≠ st_closed → finalize_pending (slot r i) = false).
  { intros Hc. destruct (finalize_pending (slot r i)) eqn:Ef; [|done]. exfalso. auto. }
  destruct (state (slot r i)) eqn:Es; auto. split; [|auto].
  destruct (ack_pending (slot r i)) eqn:Ea; [|done]. destruct (i_acks0 i (i_ackp0 i Hi Ea)) as (_ & [?|[_ (_ & Hn & _)]]); congruence.
Qed.

Lemma segment_step_ok c seg : phase_ok c → state c ≠ st_free → step_ok c (conn_segment stack c seg).1.
Proof using.
  intros Hp Hnf. pose proof (conn_segment_id stack c seg) as Hid.
  destruct (decide (state c = st_closed)) as [Ec|Ec].
  { rewrite (conn_segment_closed stack c seg Ec). split; try done; auto. }
  assert (Hadv : ∀ c', same_id c c' → advanced c' →
      (state c' = st_closed ∨ synchronized (state c') ∧ (ack_pending c = true → ack_pending c' = true)) → step_ok c c').
  { intros c' Hid' Hadv Ha. destruct Hadv as [[(? & ? & ?) ?]|[? ?]]; split; try done; try tauto; try congruence; intros; auto;
      try (split; congruence). }
  destruct (decide (state c = st_syn_received)) as [Es|Es].
  - destruct (conn_segment_half_open stack c seg Hp Es) as [->|Ha].
    + unfold phase_ok in Hp. rewrite Es in Hp. destruct Hp as [Hpa Hpf].
      split; try done; auto. intros _ _. split; congruence.
    + apply Hadv; [done|done|]. destruct Ha as [[Hs _]|[? _]]; [|by left]. right. split; [done|].
      unfold phase_ok in Hp. rewrite Es in Hp. destruct Hp as [-> _]. done.
  - destruct (conn_segment_advanced stack c seg Hp) as [Ha Hk]; [done|]. apply Hadv; [done|done|].
    destruct Ha as [[Hs _]|[? _]]; [|by left]. right. split; [done|]. intros Hpk. apply Hk; [done|apply Hs].
Qed.

(** ** Slots that leave the table *)

Lemma delete_key m r i : inv m r → inr n i → state (slot r i) ≠ st_free → i ∉ awaiting_release r →
  (∀ k j, delete (flow_key (slot r i)) m !! k = Some j ↔ m !! k = Some j ∧ j ≠ i) ∧
  Z.of_nat (size (delete (flow_key (slot r i)) m)) + 1 = Z.of_nat (size m) ∧
  flow_table.flow_rep n (flow_table.erase (flows r) (flow_key (slot r i))) (delete (flow_key (slot r i)) m).
Proof using.
  intros Hinv Hi Hst Haw. destruct Hinv. pose proof (i_live0 i Hi Hst Haw) as Hlk. split_and!.
  - intros k j. rewrite lookup_delete_Some. split.
    + intros [Hne Hk]. split; [done|]. intros ->. apply i_map0 in Hk as (_ & -> & _). done.
    + intros [Hk Hne]. split; [|done]. intros <-. congruence.
  - rewrite map_size_delete, Hlk. assert (size m ≠ 0%nat); [|lia].
    intros Hz. apply map_size_empty_inv in Hz. subst m. by rewrite lookup_empty in Hlk.
  - apply flow_table.erase_spec; [done|]. apply addr_key. auto.
Qed.

(** Slot [i] becomes free; it is on no list and in no table any more. *)
Lemma inv_free m m' r r' i c t aw fl : inv m r → inr n i → state (slot r i) ≠ st_free → i ∉ ack_list r →
  flow_table.flow_rep n t m' → (∀ k j, m' !! k = Some j ↔ m !! k = Some j ∧ j ≠ i) →
  (∀ j, j ∈ aw ↔ j ∈ awaiting_release r ∧ j ≠ i) → NoDup aw →
  (∀ j, j ∈ fl ↔ j ∈ finalize_list r ∧ j ≠ i) → NoDup fl →
  Z.of_nat (size m') + Z.of_nat (length aw) + 1 = Z.of_nat (size m) + Z.of_nat (length (awaiting_release r)) →
  state c = st_free → ack_pending c = false → finalize_pending c = false →
  quiet (Impl (<[Z.to_nat i := c]> (slots r)) (neighbors r) t (stats r) (i :: free_slots r) aw (ack_list r) fl
           (control r) (events r) (env r)) r' →
  inv m' r'.
Proof using.
  intros Hinv Hi Hst Hnack Ht Hm' Haw Hawnd Hfl Hflnd Hcnt Hcs Hca Hcf Hq. eapply inv_quiet; [exact Hq|]. clear Hq r'.
  destruct Hinv. set (r' := Impl _ _ _ _ _ _ _ _ _ _ _).
  assert (Hs : ∀ j, inr n j → slot r' j = if decide (i = j) then c else slot r j).
  { intros j Hj. exact (slot_put r i j c i_len0 Hi Hj). }
  split; cbn [r' flows neighbors free_slots awaiting_release ack_list finalize_list slots]; try done.
  - by rewrite length_insert.
  - intros j Hj. at_slot Hs j; [congruence|auto].
  - intros k j [Hk Hne]%Hm'. destruct (i_map0 _ _ Hk) as (Hj & Hkey & ? & ?). split; [done|].
    rewrite Haw. at_slot Hs j; [done|]. tauto.
  - intros j Hj. rewrite Haw. at_slot Hs j; [congruence|]. intros ? Hn. apply Hm'. split; [|done].
    apply i_live0; [done..|]. intros ?. apply Hn. auto.
  - intros j. rewrite elem_of_cons, i_free0. split.
    + intros [->|[Hj Hst']]; (split; [done|]); rewrite Hs by done; [by rewrite decide_True|by case_decide].
    + intros [Hj Hst']. at_slot Hs j; [by left|by right].
  - constructor; [|done]. rewrite i_free0. tauto.
  - intros j. rewrite Haw. intros [Hin Hne]. destruct (i_await0 j Hin) as (Hj & ? & ?). split; [done|]. at_slot Hs j; done.
  - simpl length. lia.
  - intros j Hin. assert (j ≠ i) by (by intros ->). destruct (i_acks0 j Hin) as (Hj & Hd). split; [done|]. at_slot Hs j; done.
  - intros j Hj. at_slot Hs j; [congruence|auto].
  - intros j. rewrite Hfl, i_fin0. split.
    + intros [[Hj ?] ?]. split; [done|]. at_slot Hs j; done.
    + intros [Hj Hp]. at_slot Hs j; [congruence|done].
  - intros j Hj. at_slot Hs j; [congruence|auto].
  - intros j Hj. rewrite Haw, Hfl. at_slot Hs j; [congruence|]. intros Hc. destruct (i_closed0 j Hj Hc); auto.
Qed.

(** The terminal slot [i] leaves the flow table to wait for [close]. *)
Lemma inv_await m m' r r' i c t fl : inv m r → inr n i → state (slot r i) = st_closed →
  i ∈ finalize_list r → flow_table.flow_rep n t m' → (∀ k j, m' !! k = Some j ↔ m !! k = Some j ∧ j ≠ i) →
  (∀ j, j ∈ fl ↔ j ∈ finalize_list r ∧ j ≠ i) → NoDup fl →
  Z.of_nat (size m') + 1 = Z.of_nat (size m) →
  c = set_finalize_pending (slot r i) false →
  quiet (Impl (<[Z.to_nat i := c]> (slots r)) (neighbors r) t (stats r) (free_slots r) (awaiting_release r ++ [i])
           (ack_list r) fl (control r) (events r) (env r)) r' →
  inv m' r'.
Proof using.
  intros Hinv Hi Hst Hin Ht Hm' Hfl Hflnd Hcnt -> Hq. eapply inv_quiet; [exact Hq|]. clear Hq r'.
  destruct Hinv. set (r' := Impl _ _ _ _ _ _ _ _ _ _ _). set (c := set_finalize_pending _ _) in *.
  assert (Hs : ∀ j, inr n j → slot r' j = if decide (i = j) then c else slot r j).
  { intros j Hj. exact (slot_put r i j c i_len0 Hi Hj). }
  assert (Hna : i ∉ awaiting_release r).
  { intros Ha. destruct (i_await0 i Ha) as (_ & _ & ?). apply i_fin0 in Hin as [_ ?]. congruence. }
  split; cbn [r' flows neighbors free_slots awaiting_release ack_list finalize_list slots]; try done.
  - by rewrite length_insert.
  - intros j Hj. at_slot Hs j; [apply i_addr0; done|auto].
  - intros k j [Hk Hne]%Hm'. destruct (i_map0 _ _ Hk) as (Hj & Hkey & ? & ?). split; [done|].
    rewrite elem_of_app, list_elem_of_singleton. at_slot Hs j; [done|]. tauto.
  - intros j Hj. rewrite elem_of_app, list_elem_of_singleton. at_slot Hs j; [tauto|]. intros ? Hn. apply Hm'. split; [|done].
    apply i_live0; [done..|]. intros ?. apply Hn. auto.
  - intros j. rewrite i_free0. split; intros [Hj Hst']; (split; [done|]); at_slot Hs j; done.
  - intros j. rewrite elem_of_app, list_elem_of_singleton. intros [Ha| ->].
    + destruct (i_await0 j Ha) as (Hj & ? & ?). split; [done|]. at_slot Hs j; done.
    + split; [done|]. rewrite Hs by done. by rewrite decide_True.
  - apply NoDup_app. split_and!; [done| |apply NoDup_singleton]. intros j Hj ->%list_elem_of_singleton. done.
  - rewrite length_app. simpl length. lia.
  - intros j Ha. destruct (i_acks0 j Ha) as (Hj & Hd). split; [done|]. at_slot Hs j; done.
  - intros j Hj. at_slot Hs j; auto.
  - intros j. rewrite Hfl, i_fin0. split.
    + intros [[Hj ?] ?]. split; [done|]. at_slot Hs j; done.
    + intros [Hj Hp]. at_slot Hs j; done.
  - intros j Hj. at_slot Hs j; [done|auto].
  - intros j Hj. rewrite Hfl, elem_of_app, list_elem_of_singleton. at_slot Hs j; [auto|].
    intros Hc. destruct (i_closed0 j Hj Hc); auto.
Qed.

(** ** The handlers *)

Lemma find_live m r k i : inv m r → k ≠ 0 → flow_table.find (flows r) k = i → i ≠ flow_table.npos →
  inr n i ∧ state (slot r i) ≠ st_free ∧ (i ∉ awaiting_release r) ∧ flow_key (slot r i) = k.
Proof using.
  intros Hinv Hk Hf Hi. destruct Hinv. rewrite (flow_table.find_spec _ _ _ _ i_flows0 Hk) in Hf.
  destruct (m !! k) as [j|] eqn:Em; simpl in Hf; [|done]. subst j. by destruct (i_map0 _ _ Em) as (? & -> & ? & ?).
Qed.

Lemma find_none m r k : inv m r → k ≠ 0 → n < 2 ^ 16 → flow_table.find (flows r) k = flow_table.npos → m !! k = None.
Proof using.
  intros Hinv Hk Hn Hf. destruct Hinv. rewrite (flow_table.find_spec _ _ _ _ i_flows0 Hk) in Hf.
  destruct (m !! k) as [j|] eqn:Em; [|done]. simpl in Hf. subst j. destruct (i_map0 _ _ Em) as (Hj & _).
  unfold inr, flow_table.npos in Hj. lia.
Qed.

(** A slot as [release_slot] leaves it. *)
Definition freed (c : tcp_connection) : tcp_connection :=
  set_finalize_pending (set_ack_pending (set_state c st_free) false) false.

Lemma abort_inv m r i : inv m r → inr n i → state (slot r i) = st_syn_received →
  inv (delete (flow_key (slot r i)) m)
    (release_slot (set_flows r (flow_table.erase (flows r) (flow_key (slot r i)))) i).
Proof using.
  intros Hinv Hi Hs. pose proof (inv_phase m r i Hinv Hi) as Hp. unfold phase_ok in Hp. rewrite Hs in Hp. destruct Hp as [Ha Hf].
  assert (Hna : i ∉ awaiting_release r) by (intros Hin; destruct (i_await _ _ Hinv i Hin) as (_ & ? & _); congruence).
  destruct (delete_key m r i) as (Hd & Hsz & Hrep); [done|done|by rewrite Hs|done|].
  eapply (inv_free m _ r _ i (freed (slot r i)) _ (awaiting_release r) (finalize_list r)); [exact Hinv|done|by rewrite Hs| |exact Hrep|exact Hd|..];
    [| |apply Hinv| |apply Hinv|lia|done|done|done|].
  - intros Hin. destruct (i_acks _ _ Hinv i Hin) as (_ & [?|[? _]]); congruence.
  - intros j. split; [|tauto]. intros Hin. split; [done|]. by intros ->.
  - intros j. split; [|tauto]. intros Hin. split; [done|]. intros ->. apply (i_fin _ _ Hinv) in Hin as [_ ?]. congruence.
  - apply quiet_refl.
Qed.

Lemma put_slot_id (r : impl E) i : in_table r i → put_slot r i (slot r i) = r.
Proof using. intros Hi. unfold put_slot. rewrite slots_id by done. by destruct r. Qed.

Lemma process_segment_inv m r i seg : inv m r → inr n i → state (slot r i) ≠ st_free → i ∉ awaiting_release r →
  ∃ m', inv m' (process_segment stack r i seg).
Proof using.
  intros Hinv Hi Hnf Hna. assert (Ht : in_table r i) by (unfold in_table; rewrite (i_len _ _ Hinv); exact Hi).
  destruct (aborts stack (sync_out_flags (slot r i)) seg) eqn:Hab.
  - unfold aborts in Hab. apply andb_prop in Hab as [[Hs Hr]%andb_prop Hacc]. apply bool_decide_eq_true in Hs.
    assert (Hsy : sync_out_flags (slot r i) = slot r i).
    { destruct (sync_state (slot r i)) as [S1 S2]. destruct (decide (state (slot r i) = st_syn_received)) as [Es|Es].
      - apply S2. rewrite Es. by intros (_ & ? & _).
      - apply S2. intros Hy. destruct (S1 Hy) as (_ & ? & _). done. }
    rewrite Hsy in *. exists (delete (flow_key (slot r i)) m).
    unfold process_segment, process_syn_received. rewrite Hsy, put_slot_id, Hs, Hr, Hacc by done.
    eapply inv_quiet; [|apply (abort_inv m r i Hinv Hi Hs)]. done.
  - exists m. eapply inv_local; [done|done|done|done|by apply process_segment_local|].
    apply segment_step_ok; [by eapply inv_phase|done].
Qed.

Lemma open_inv m r seg : inv m r → seg_ok seg →
  m !! flow_table.key (seg_src_ip seg) (seg_src_port seg) (seg_dst_port seg) = None →
  ∃ m', inv m' (open stack r seg).
Proof using.
  intros Hinv Hseg Hm. unfold open. destruct (free_slots r) as [|i rest] eqn:Efree.
  { exists m. eapply inv_quiet; [|exact Hinv]. eapply quiet_trans; [|apply silent_quiet, send_rst_silent]. done. }
  change (env (set_free_slots r rest)) with (env r). change (slot (set_free_slots r rest) i) with (slot r i).
  destruct (rte_rand (env r)) as [rnd w]. set (c := opened stack (slot r i) seg (u32 rnd)).
  set (k := flow_table.key _ _ _) in Hm. assert (Ek : flow_key c = k) by reflexivity.
  exists (<[k := i]> m). eapply inv_quiet; [apply silent_quiet, send_syn_ack_silent|].
  assert (Haddr : addr_ok c) by (exact (conj (sk_ip _ Hseg) (conj (sk_ip0 _ Hseg) (conj (sk_sp _ Hseg) (sk_dp _ Hseg))))).
  destruct Hinv. destruct (proj1 (i_free0 i)) as [Hi Hfree]; [rewrite Efree; by left|].
  assert (Hsz : Z.of_nat (size (<[k := i]> m)) = Z.of_nat (size m) + 1) by (rewrite map_size_insert, Hm; lia).
  rewrite Efree in *. inversion i_free_nd0 as [|? ? Hnin Hnd]. subst. simpl in i_count0.
  destruct (flow_table.insert_spec n (flows r) m k i) as [_ Hrep]; [done|rewrite <- Ek; by apply addr_key|lia|].
  set (r' := set_flows _ _).
  assert (Hs : ∀ j, inr n j → slot r' j = if decide (i = j) then c else slot r j).
  { intros j Hj. exact (slot_put r i j c i_len0 Hi Hj). }
  assert (Hna : i ∉ awaiting_release r) by (intros Hin; destruct (i_await0 i Hin) as (_ & ? & _); congruence).
  assert (Hnack : i ∉ ack_list r).
  { intros Hin. destruct (i_acks0 i Hin) as (_ & [?|[_ (? & _)]]); congruence. }
  assert (Hnfin : i ∉ finalize_list r) by (intros [_ Hin]%i_fin0; apply i_finp0 in Hin; congruence).
  split; cbn [r' set_flows set_env put_slot set_slots set_free_slots flows neighbors free_slots awaiting_release ack_list
              finalize_list slots]; try done.
  - by rewrite length_insert.
  - intros j Hj. at_slot Hs j; auto.
  - intros k' j. rewrite lookup_insert_Some. intros [[<- <-]|[Hne Hk]].
    + split; [done|]. rewrite Hs, decide_True by done. done.
    + destruct (i_map0 _ _ Hk) as (Hj & Hkj & ? & ?). split; [done|]. at_slot Hs j; [congruence|done].
  - intros j Hj. at_slot Hs j.
    + intros _ _. rewrite Ek. apply lookup_insert_eq.
    + intros Hst Haw. pose proof (i_live0 j Hj Hst Haw) as Hl. rewrite lookup_insert_ne; [done|]. intros E1. congruence.
  - intros j. split.
    + intros Hin. destruct (proj1 (i_free0 j)) as [Hj Hst]; [by right|]. split; [done|]. at_slot Hs j; done.
    + intros [Hj Hst]. at_slot Hs j; [done|]. assert (Hin : j ∈ i :: rest) by (by apply i_free0).
      apply elem_of_cons in Hin as [->|?]; done.
  - intros j Hin. destruct (i_await0 j Hin) as (Hj & ? & ?). split; [done|]. at_slot Hs j; done.
  - lia.
  - intros j Hin. destruct (i_acks0 j Hin) as (Hj & Hd). split; [done|]. at_slot Hs j; done.
  - intros j Hj. at_slot Hs j; auto. done.
  - intros j. rewrite i_fin0. split; intros [Hj Hp]; (split; [done|]); at_slot Hs j; try done.
    exfalso. apply Hnfin, i_fin0. done.
  - intros j Hj. at_slot Hs j; auto. done.
  - intros j Hj. at_slot Hs j; auto. done.
Qed.
End inv.
