(* ===== verification/TcpPoll.v ===== *)
(** * poll: one turn of the inbound thread

    [reap_released], [process] over the burst, [flush_acks], [flush_control]
    and [finalize] in sequence.  Between polls the receiver is quiescent: no
    work list has entries and no control packet is held.  This file shows that
    [poll] takes quiescent states to quiescent states, keeps the table
    invariant of TcpInv.v, fits its fixed buffers and gives every mbuf back. *)

From S2P Require Import Prelude Probing FlowTable Dpdk DpdkSim Packet Segment SegmentWire SeqArith Arp TcpState TcpReceiver TcpConn TcpInv.

(** [awaiting_release[i] = back(); pop_back()] takes out one entry. *)
Lemma swap_remove_perm (l : list Z) (k : nat) : (k < length l)%nat → l ≡ₚ (l !!! k) :: swap_remove k l.
Proof.
  intros Hk. destruct l as [|x l _] using rev_ind; [simpl in Hk; lia|]. rewrite length_app in Hk. simpl in Hk.
  unfold swap_remove. rewrite last_snoc, length_app. simpl default. replace (length l + length [x] - 1)%nat with (length l) by (simpl; lia).
  destruct (decide (k = length l)) as [->|Hne].
  - rewrite lookup_total_app_r, Nat.sub_diag, insert_app_r_alt, Nat.sub_diag, take_app_length by lia. simpl. symmetry.
    apply Permutation_cons_append.
  - rewrite lookup_total_app_l, insert_app_l by lia. rewrite take_app_length' by (rewrite length_insert; lia).
    destruct (lookup_lt_is_Some_2 l k ltac:(lia)) as [y Hy]. rewrite (list_lookup_total_correct _ _ _ Hy).
    rewrite insert_take_drop by lia. rewrite <- (take_drop_middle l k y Hy) at 1. solve_Permutation.
Qed.

Lemma swap_remove_spec (l : list Z) (k : nat) : (k < length l)%nat → NoDup l →
  NoDup (swap_remove k l) ∧ (∀ j, j ∈ swap_remove k l ↔ j ∈ l ∧ j ≠ l !!! k) ∧
  S (length (swap_remove k l)) = length l.
Proof.
  intros Hk Hnd. pose proof (swap_remove_perm l k Hk) as Hp. rewrite Hp in Hnd. inversion Hnd as [|? ? Hni Hnd']. subst.
  split_and!; [done| |by rewrite Hp at 2].
  intros j. rewrite Hp at 2. rewrite elem_of_cons. split; [|naive_solver]. intros Hj. split; [by right|]. by intros ->.
Qed.

Section poll_inv.
Context {E : Type} `{DpdkOps E}.
Context (stack : tcp_stack) (txq : queue).
Abbreviation n := (max_connections (params_ stack)).
Abbreviation inv := (inv stack).

Lemma inv_table m (r : impl E) i : inv m r → inr n i → in_table r i.
Proof using. intros Hinv Hi. unfold in_table. rewrite (i_len _ _ _ Hinv). exact Hi. Qed.

(** ** Packets *)

Lemma inv_neighbors m (r : impl E) nb : inv m r → (∃ nm, neighbor_table.neigh_rep default_neighbors nb nm) →
  inv m (set_neighbors r nb).
Proof using. intros [] Hnb. by split. Qed.

Lemma process_inv m (r : impl E) pkt : inv m r → n < 2 ^ 16 → pkt_wf pkt → ∃ m', inv m' (process stack r pkt).
Proof using.
  intros Hinv Hn Hw. unfold process.
  assert (Hb : ∀ f, ∃ m', inv m' (bump r f)) by (intros f; exists m; by eapply inv_quiet; [|exact Hinv]).
  destruct (parse_frame _ _ _) as [| | | | | |seg] eqn:Hp; try apply Hb; [by exists m| |].
  - destruct (handle_arp _ _ _ _ _ _ _) as [[[res nb] reply] w] eqn:Ha.
    destruct (i_neigh _ _ _ Hinv) as [nm Hnm]. destruct (handle_arp_rep _ _ _ _ _ _ _ _ _ _ _ _ _ Hnm Ha) as [nm' Hnm'].
    exists m. assert (Hn2 : inv m (set_neighbors r nb)) by (apply inv_neighbors; eauto).
    destruct res; (eapply inv_quiet; [|exact Hn2]); try done.
    eapply quiet_trans; [|apply silent_quiet, queue_control_silent]. done.
  - apply parse_frame_ok in Hp; [|done]. unfold process_tcp.
    set (k := flow_table.key (seg_src_ip seg) (seg_src_port seg) (seg_dst_port seg)).
    assert (Hk : k ≠ 0) by (destruct Hp; by apply flow_table.key_nonzero).
    destruct (Z.eqb_spec (flow_table.find (flows r) k) flow_table.npos) as [Ef|Ef]; cbn [negb].
    + destruct (_ && _); [eapply open_inv; [done|done|by eapply find_none]|].
      exists m. eapply inv_quiet; [apply silent_quiet, send_rst_silent|done].
    + destruct (find_live _ _ _ _ _ Hinv Hk eq_refl Ef) as (Hi & Hnf & Hna & _). by eapply process_segment_inv.
Qed.

Lemma process_all_inv m (r : impl E) burst : inv m r → n < 2 ^ 16 → Forall pkt_wf burst →
  ∃ m', inv m' (foldl (process stack) r burst).
Proof using.
  intros Hinv Hn Hb. revert m r Hinv. induction Hb as [|p burst Hp Hb IH]; intros m r Hinv; [by exists m|].
  destruct (process_inv m r p Hinv Hn Hp) as [m' Hinv']. by apply (IH m').
Qed.

(** ** reap_released *)

Lemma release_await_inv m (r : impl E) k : inv m r → ack_list r = [] → (k < length (awaiting_release r))%nat →
  let i := awaiting_release r !!! k in
  inv m (set_awaiting_release (release_slot r i) (swap_remove k (awaiting_release r))).
Proof using.
  intros Hinv Hack Hk i. destruct (swap_remove_spec _ k Hk (i_await_nd _ _ _ Hinv)) as (Hnd & Hin & Hlen).
  assert (Hia : i ∈ awaiting_release r) by (by apply list_elem_of_lookup_total_2).
  destruct (i_await _ _ _ Hinv i Hia) as (Hi & Hs & Hf).
  eapply (inv_free stack m m r _ i (freed (slot r i)) (flows r) (swap_remove k (awaiting_release r)) (finalize_list r));
    [done|done|by rewrite Hs|by rewrite Hack; apply not_elem_of_nil|apply Hinv| |exact Hin|done| |apply Hinv|lia|done..].
  - intros key j. split; [|tauto]. intros Hm. split; [done|]. intros ->. by destruct (i_map _ _ _ Hinv _ _ Hm) as (_ & _ & _ & ?).
  - intros j. split; [|tauto]. intros Hj. split; [done|]. intros ->. apply (i_fin _ _ _ Hinv) in Hj as [_ ?]. congruence.
Qed.

(** The loop ends; afterwards no waiting slot is released, and the lists of
    this poll are untouched. *)
Lemma reap_loop_spec fuel k m (r : impl E) : inv m r → ack_list r = [] →
  (length (awaiting_release r) - k < fuel)%nat →
  (∀ j, (j < k)%nat → (j < length (awaiting_release r))%nat →
     flag (out_flags (slot r (awaiting_release r !!! j))) out_released = false) →
  ∃ r', reap_loop fuel k r = Some r' ∧ inv m r' ∧ ack_list r' = [] ∧ finalize_list r' = finalize_list r ∧
    control r' = control r ∧ events r' = events r ∧ env r' = env r ∧
    Forall (λ i, flag (out_flags (slot r' i)) out_released = false) (awaiting_release r').
Proof using.
  revert k r. induction fuel as [|f IH]; intros k r Hinv Hack Hf Hdone; [lia|]. simpl.
  destruct (Nat.ltb_spec k (length (awaiting_release r))) as [Hk|Hk].
  2: { exists r. split_and!; try done. apply Forall_lookup. intros j i Hj. pose proof (lookup_lt_Some _ _ _ Hj).
       rewrite <- (list_lookup_total_correct _ _ _ Hj). apply Hdone; lia. }
  set (i := awaiting_release r !!! k). destruct (flag (out_flags (slot r i)) out_released) eqn:Efl.
  - pose proof (release_await_inv m r k Hinv Hack Hk) as Hinv'. cbv zeta in Hinv'. fold i in Hinv'.
    destruct (swap_remove_spec _ k Hk (i_await_nd _ _ _ Hinv)) as (_ & Hin & Hlen).
    edestruct (IH k _ Hinv' Hack) as (r' & Hr' & Hrest).
    + cbn. lia.
    + cbn. intros j Hj Hjl. assert (Hjr : (j < length (awaiting_release r))%nat) by lia.
      assert (Ej : swap_remove k (awaiting_release r) !!! j = awaiting_release r !!! j).
      { unfold swap_remove. rewrite lookup_total_take, decide_True by lia. apply list_lookup_total_insert_ne. lia. }
      rewrite Ej. specialize (Hdone j Hj Hjr). set (i' := awaiting_release r !!! j) in *.
      assert (Hi' : inr n i') by (apply (i_await _ _ _ Hinv); by apply list_elem_of_lookup_total_2).
      assert (Hi : inr n i) by (apply (i_await _ _ _ Hinv); by apply list_elem_of_lookup_total_2).
      change (slot _ i') with (slot (put_slot r i (freed (slot r i))) i').
      rewrite (slot_put stack) by (done || apply (i_len _ _ _ Hinv)). case_decide as Ei; [|done].
      subst i'. rewrite <- Ei in Hdone. congruence.
    + by exists r'.
  - destruct (IH (S k) r Hinv Hack) as (r' & Hr' & Hrest); [lia| |by exists r'].
    intros j Hj Hjl. destruct (decide (j = k)) as [->|]; [done|]. apply Hdone; lia.
Qed.

Lemma reap_spec m (r : impl E) : inv m r → ack_list r = [] →
  inv m (reap_released r) ∧ ack_list (reap_released r) = [] ∧ finalize_list (reap_released r) = finalize_list r ∧
  control (reap_released r) = control r ∧ events (reap_released r) = events r ∧ env (reap_released r) = env r ∧
  Forall (λ i, flag (out_flags (slot (reap_released r) i)) out_released = false) (awaiting_release (reap_released r)).
Proof using.
  intros Hinv Hack. unfold reap_released.
  destruct (reap_loop_spec (S (length (awaiting_release r))) 0 m r Hinv Hack) as (r' & -> & Hr'); [lia|lia|done].
Qed.

(** Reaping frees released slots and touches nothing else. *)
Lemma reap_slot m (r : impl E) i : inv m r → ack_list r = [] → inr n i →
  slot (reap_released r) i = slot r i ∨
  flag (out_flags (slot r i)) out_released = true ∧ slot (reap_released r) i = freed (slot r i).
Proof using.
  intros Hinv Hack Hi. unfold reap_released. destruct (reap_loop _ 0 r) as [r'|] eqn:Er; [|by left]. simpl.
  revert Er. generalize (S (length (awaiting_release r))) as fuel. intros fuel. generalize 0%nat as k.
  revert r Hinv Hack. induction fuel as [|f IH]; intros r Hinv Hack k; simpl; [done|].
  destruct (Nat.ltb_spec k (length (awaiting_release r))) as [Hk|]; [|by intros [= <-]; left].
  destruct (flag _ _) eqn:Ef; [|by apply IH]. set (j := awaiting_release r !!! k) in *.
  assert (Hj : j ∈ awaiting_release r) by (by apply list_elem_of_lookup_total_2).
  destruct (i_await _ _ _ Hinv j Hj) as (Hjr & _). set (r1 := set_awaiting_release _ _).
  assert (H1 : slot r1 i = if decide (j = i) then freed (slot r j) else slot r i) by exact (slot_put stack r j i _ (i_len _ _ _ Hinv) Hjr Hi).
  intros Hr. apply IH in Hr; [|by apply release_await_inv|done]. rewrite H1 in Hr. case_decide as Eji; [subst i|done].
  destruct Hr as [->|[_ ->]]; right; done.
Qed.

(** ** flush_acks *)

Lemma inv_drop_ack m (r : impl E) i rest : inv m r → ack_list r = i :: rest →
  inv m (set_ack_list (put_slot r i (set_ack_pending (slot r i) false)) rest).
Proof using.
  intros Hinv Hl. destruct Hinv. rewrite Hl in *. destruct (i_acks i ltac:(by left)) as [Hi _].
  inversion i_acks_nd as [|? ? Hni Hnd]. subst.
  set (c := set_ack_pending (slot r i) false). set (r' := set_ack_list _ _).
  assert (Hs : ∀ j, inr n j → slot r' j = if decide (i = j) then c else slot r j).
  { intros j Hj. exact (slot_put stack r i j c i_len Hi Hj). }
  split; cbn [r' set_ack_list put_slot set_slots flows neighbors free_slots awaiting_release ack_list finalize_list slots]; try done.
  - by rewrite length_insert.
  - intros j Hj. rewrite Hs by done. case_decide; [subst j|]; by apply i_addr.
  - intros k j Hk. destruct (i_map _ _ Hk) as (Hj & ? & ? & ?). split; [done|]. rewrite Hs by done. by case_decide; [subst j|].
  - intros j Hj. rewrite Hs by done. case_decide; [subst j|]; by apply i_live.
  - intros j. rewrite i_free. split; intros [Hj Hst]; (split; [done|]); rewrite Hs in * by done; by case_decide; [subst j|].
  - intros j Hin. destruct (i_await j Hin) as (Hj & ? & ?). split; [done|]. rewrite Hs by done. by case_decide; [subst j|].
  - intros j Hin. destruct (i_acks j ltac:(by right)) as (Hj & Hd). split; [done|]. rewrite Hs by done.
    case_decide; [by subst j|done].
  - intros j Hj. rewrite Hs by done. case_decide; [subst j; done|]. intros Ha.
    apply i_ackp in Ha as [->|?]%elem_of_cons; done.
  - intros j. rewrite i_fin. split; intros [Hj Hst]; (split; [done|]); rewrite Hs in * by done; by case_decide; [subst j|].
  - intros j Hj. rewrite Hs by done. case_decide; [subst j|]; by apply i_finp.
  - intros j Hj. rewrite Hs by done. case_decide; [subst j|]; by apply i_closed.
Qed.

(** [flush_ack] clears the flag; what it sends is silent. *)
Lemma flush_ack_silent (r : impl E) i : in_table r i →
  silent (put_slot r i (set_ack_pending (slot r i) false)) (flush_ack stack r i).
Proof using.
  intros Hi. unfold flush_ack. destruct (ack_pending (slot r i)) eqn:Ea; cbn [negb].
  - match goal with |- context [build ?s ?r ?a ?q ?k ?f ?w ?p ?o] => pose proof (build_silent s r a q k f w p o) as Hb;
      destruct (build s r a q k f w p o) as [pkt r'] end.
    eapply silent_trans; [exact Hb|apply queue_control_silent].
  - assert (Hc : set_ack_pending (slot r i) false = slot r i) by (rewrite <- Ea; by destruct (slot r i)).
    rewrite Hc, put_slot_id by done. apply silent_refl.
Qed.

Lemma flush_ack_comm (r : impl E) l i : flush_ack stack (set_ack_list r l) i = set_ack_list (flush_ack stack r i) l.
Proof using.
  unfold flush_ack. change (slot (set_ack_list r l) i) with (slot r i). destruct (negb _); [done|].
  unfold build. change (env (put_slot (set_ack_list r l) i ?c)) with (env r). change (env (put_slot r i ?c)) with (env r).
  destruct (build_segment _ _ _ _ _ _ _ _ _) as [[m|] w]; unfold queue_control; cbn; [by case_match|done].
Qed.

Lemma flush_ack_inv m (r : impl E) i l : inv m (set_ack_list r (i :: l)) → inv m (set_ack_list (flush_ack stack r i) l).
Proof using.
  intros Hinv. rewrite <- flush_ack_comm. assert (Hi : in_table (set_ack_list r l) i).
  { eapply (inv_table m (set_ack_list r (i :: l))); [done|]. apply (i_acks _ _ _ Hinv). by left. }
  eapply inv_quiet; [apply silent_quiet, flush_ack_silent; exact Hi|].
  apply (inv_drop_ack m (set_ack_list r (i :: l)) i l Hinv eq_refl).
Qed.

Lemma flush_acks_fold m l (r : impl E) : inv m (set_ack_list r l) →
  inv m (set_ack_list (foldl (flush_ack stack) r l) []).
Proof using.
  revert r. induction l as [|i l IH]; intros r Hinv; [done|]. simpl. apply IH. by apply flush_ack_inv.
Qed.

Lemma flush_acks_inv m (r : impl E) : inv m r → inv m (flush_acks stack r).
Proof using. intros Hinv. unfold flush_acks. apply flush_acks_fold. by destruct r. Qed.

(** ** finalize *)

Lemma finalize_one_inv m (r : impl E) i rest : inv m r → ack_list r = [] → finalize_list r = i :: rest →
  ∃ m', inv m' (finalize_one (set_finalize_list r rest) i).
Proof using.
  intros Hinv Hack Hl. pose proof (i_fin _ _ _ Hinv i) as Hfin. rewrite Hl in Hfin.
  destruct (proj1 Hfin ltac:(by left)) as [Hi Hp]. pose proof (i_finp _ _ _ Hinv i Hi Hp) as Hs.
  pose proof (i_fin_nd _ _ _ Hinv) as Hnd. rewrite Hl in Hnd. inversion Hnd as [|? ? Hni Hnd']. subst.
  assert (Hna : i ∉ awaiting_release r) by (intros Hin; destruct (i_await _ _ _ Hinv i Hin) as (_ & _ & ?); congruence).
  destruct (delete_key stack m r i) as (Hd & Hsz & Hrep); [done|done|by rewrite Hs|done|].
  assert (Hrest : ∀ j, j ∈ rest ↔ j ∈ finalize_list r ∧ j ≠ i).
  { intros j. rewrite Hl, elem_of_cons. split; [|tauto]. intros Hj. split; [by right|]. by intros ->. }
  exists (delete (flow_key (slot r i)) m). unfold finalize_one. cbv zeta.
  change (slot (set_finalize_list r rest) i) with (slot r i).
  set (c := set_finalize_pending (slot r i) false). change (flow_key c) with (flow_key (slot r i)).
  set (t := flow_table.erase _ _). change (flow_table.erase _ _) with t in Hrep.
  assert (Ht : in_table (set_finalize_list r rest) i) by exact (inv_table m r i Hinv Hi).
  destruct (flag (out_flags c) out_released).
  - eapply (inv_free stack m _ r _ i (freed c) t (awaiting_release r) rest);
      [done|done|by rewrite Hs|rewrite Hack; apply not_elem_of_nil|exact Hrep|exact Hd| |apply Hinv|exact Hrest|done|lia|done|done|done|].
    + intros j. split; [|tauto]. intros Hj. split; [done|]. by intros ->.
    + unfold release_slot. change (slot (set_flows (put_slot (set_finalize_list r rest) i c) t) i)
        with (slot (put_slot (set_finalize_list r rest) i c) i). rewrite slot_put_same by done.
      unfold quiet. cbn. rewrite list_insert_insert_eq. done.
  - eapply (inv_await stack m _ r _ i c t rest); [done|done|done|by rewrite Hl; left|exact Hrep|exact Hd|exact Hrest|done|lia|done|done].
Qed.

Lemma finalize_one_comm (r : impl E) l i : finalize_one (set_finalize_list r l) i = set_finalize_list (finalize_one r i) l.
Proof using. unfold finalize_one. cbv zeta. change (slot (set_finalize_list r l) i) with (slot r i). by case_match. Qed.
Lemma finalize_one_acks (r : impl E) i : ack_list (finalize_one r i) = ack_list r.
Proof using. unfold finalize_one. by case_match. Qed.

Lemma finalize_fold m l (r : impl E) : inv m (set_finalize_list r l) → ack_list r = [] →
  ∃ m', inv m' (set_finalize_list (foldl finalize_one r l) []).
Proof using.
  revert m r. induction l as [|i l IH]; intros m r Hinv Hack; [by exists m|]. simpl.
  destruct (finalize_one_inv m (set_finalize_list r (i :: l)) i l Hinv Hack eq_refl) as [m' Hinv'].
  apply (IH m'); [|by rewrite finalize_one_acks].
  change (set_finalize_list (set_finalize_list r (i :: l)) l) with (set_finalize_list r l) in Hinv'.
  by rewrite finalize_one_comm in Hinv'.
Qed.

Lemma finalize_inv m (r : impl E) : inv m r → ack_list r = [] → ∃ m', inv m' (finalize r).
Proof using. intros Hinv Hack. unfold finalize. apply (finalize_fold m); [by destruct r|done]. Qed.
End poll_inv.

(** ** How much a packet can produce *)

Lemma conn_data_events c seg : (length (conn_data c seg).2 <= 2)%nat.
Proof.
  unfold conn_data. repeat (case_match; simplify_eq); cbn [snd]; rewrite ?length_app;
    repeat match goal with Hf : fin_step ?x = _ |- _ => unfold fin_step in Hf; destruct (state x); simplify_eq end; simpl; lia.
Qed.

Lemma conn_ack_events c seg : (length (conn_ack c seg).2 <= 2)%nat.
Proof. unfold conn_ack. repeat case_match; try apply conn_data_events; simpl; lia. Qed.

Lemma conn_segment_events stack c seg : (length (conn_segment stack c seg).2 <= 3)%nat.
Proof.
  unfold conn_segment. pose proof (conn_ack_events (sync_out_flags c) seg).
  pose proof (conn_data_events (conn_accept (sync_out_flags c) seg) seg). destruct (conn_data _ _).
  repeat case_match; simpl in *; lia.
Qed.

Lemma length_newly a b i : (length (newly a b i) <= 1)%nat.
Proof. unfold newly. destruct (negb a && b); simpl; lia. Qed.

Section counts.
Context {E : Type} `{DpdkOps E} `{!DpdkAccount E}.
Context (stack : tcp_stack) (txq : queue).

(** Mbufs in flight that are not queued for sending. *)
Definition debt (r : impl E) : Z := held (env r) - Z.of_nat (length (control r)).

(** A step that queues at most [k] control packets and loses no mbuf. *)
Definition emits (k : nat) (r r' : impl E) : Prop :=
  (length (control r') <= length (control r) + k)%nat ∧ debt r' = debt r.

Lemma emits_refl k r : emits k r r.
Proof using. split; [lia|done]. Qed.
Lemma emits_trans k1 k2 r1 r2 r3 : emits k1 r1 r2 → emits k2 r2 r3 → emits (k1 + k2) r1 r3.
Proof using. unfold emits. intros [? ?] [? ?]. split; [lia|congruence]. Qed.
Lemma emits_same k r r1 r2 : control r1 = control r → env r1 = env r → emits k r1 r2 → emits k r r2.
Proof using. unfold emits, debt. by intros -> ->. Qed.
Lemma emits_eq k r r' : control r' = control r → env r' = env r → emits k r r'.
Proof using. unfold emits, debt. intros -> ->. split; [lia|done]. Qed.

Lemma queue_control_debt (r : impl E) pkt : (length (control (queue_control r pkt)) <= length (control r) + 1)%nat ∧
  debt (queue_control r pkt) = debt r - owned [pkt].
Proof using.
  unfold queue_control, debt. destruct pkt as [m|]; [case_match|]; cbn; rewrite ?held_free, ?length_app; unfold owned; simpl; lia.
Qed.

Lemma build_queue (r r1 : impl E) a seq ack flags win pay mss pkt r2 f :
  control r1 = control r → env r1 = env r → build stack r1 a seq ack flags win pay mss = (pkt, r2) →
  emits 1 r (queue_control (bump r2 f) pkt) ∧ emits 1 r (queue_control r2 pkt).
Proof using.
  intros Hc He Hb. unfold build in Hb. pose proof (held_build_segment (pool_ stack) a seq ack flags win pay mss (env r1)) as Hh.
  destruct (build_segment _ _ _ _ _ _ _ _ _) as [p w]. injection Hb as <- <-. cbn [fst snd] in Hh.
  destruct (queue_control_debt (set_env r1 w) p) as [L1 D1], (queue_control_debt (bump (set_env r1 w) f) p) as [L2 D2].
  unfold emits, debt in *. cbn in *. rewrite Hc, He in *. lia.
Qed.

Lemma send_rst_emits (r : impl E) seg : emits 1 r (send_rst_for stack r seg).
Proof using.
  unfold send_rst_for. destruct (has seg RTE_TCP_RST_FLAG); [apply emits_refl|].
  destruct (has seg RTE_TCP_ACK_FLAG); destruct (build _ _ _ _ _ _ _ _ _) as [p r2] eqn:Eb;
    apply (build_queue r r _ _ _ _ _ _ _ p r2 (add_rst_sent 1) eq_refl eq_refl Eb).
Qed.

Lemma send_syn_ack_emits (r r1 : impl E) c : control r1 = control r → env r1 = env r →
  emits 1 r (send_syn_ack stack r1 c).
Proof using.
  intros Hc He. unfold send_syn_ack. destruct (build _ _ _ _ _ _ _ _ _) as [p r2] eqn:Eb.
  apply (build_queue r r1 _ _ _ _ _ _ _ p r2 (add_rst_sent 0) Hc He Eb).
Qed.

Lemma flush_ack_emits (r : impl E) i : emits 1 r (flush_ack stack r i).
Proof using.
  unfold flush_ack. destruct (negb _); [apply emits_refl|]. destruct (build _ _ _ _ _ _ _ _ _) as [p r2] eqn:Eb.
  refine (proj2 (build_queue r _ _ _ _ _ _ _ _ p r2 (add_rst_sent 0) _ _ Eb)); done.
Qed.

(** Handlers that send nothing. *)
Definition mute (r r' : impl E) : Prop := control r' = control r ∧ env r' = env r.
Lemma mute_trans r1 r2 r3 : mute r1 r2 → mute r2 r3 → mute r1 r3.
Proof using. unfold mute. intros [? ?] [? ?]. split; congruence. Qed.

Lemma queue_ack_mute (r : impl E) i : mute r (queue_ack r i).
Proof using. unfold queue_ack. by case_match. Qed.
Lemma terminate_mute (r : impl E) i why : mute r (terminate r i why).
Proof using. unfold terminate, schedule_finalize. cbv zeta. by case_match. Qed.

Lemma process_data_mute (r : impl E) i seg : mute r (process_data r i seg).
Proof using.
  unfold process_data. cbv zeta.
  destruct (negb (bool_decide _)); [case_match; [apply queue_ack_mute|done]|].
  destruct (_ && negb _); [done|].
  destruct (seq_gt (seg_seq seg) _); [apply (mute_trans _ (bump r (add_out_of_order 1))); [done|apply queue_ack_mute]|].
  match goal with |- context [queue_ack (if ?b then ?x else r) i] => set (r1 := if b then x else r) end.
  assert (H1 : mute r r1) by (subst r1; by case_match).
  pose proof (mute_trans _ _ _ H1 (queue_ack_mute r1 i)) as H2. set (r2 := queue_ack r1 i) in *. clearbody r2.
  destruct (_ && _); [|done]. set (r3 := put_slot r2 i _). assert (H3 : mute r r3) by done. clearbody r3.
  destruct (state (slot r3 i)); try done. exact (mute_trans _ _ _ H3 (terminate_mute r3 i ev_closed)).
Qed.

Lemma process_ack_mute (r : impl E) i seg : mute r (process_ack r i seg).2.
Proof using.
  unfold process_ack. cbv zeta. destruct (seq_gt _ _); [apply queue_ack_mute|]. destruct (_ && _); [|done].
  set (r1 := put_slot r i _). assert (H1 : mute r r1) by done.
  destruct (state (ack_window _ _)); try done; apply (mute_trans _ _ _ H1 (terminate_mute r1 i ev_closed)).
Qed.

Lemma process_segment_emits (r : impl E) i seg : emits 1 r (process_segment stack r i seg).
Proof using.
  unfold process_segment. set (r1 := put_slot r i _). apply (emits_same _ r r1); [done..|]. clearbody r1. clear r.
  assert (Hm : ∀ r', mute r1 r' → emits 1 r1 r') by (intros r' [? ?]; by apply emits_eq).
  destruct (state (slot r1 i)) eqn:Es; try apply emits_refl.
  2-7: destruct (has seg RTE_TCP_RST_FLAG);
         [destruct (rst_acceptable _ _ _); [apply Hm, (mute_trans _ (bump r1 (add_rst_received 1))); [done|apply terminate_mute]|apply emits_refl]|];
       destruct (has seg RTE_TCP_SYN_FLAG); [apply Hm, queue_ack_mute|];
       destruct (negb _); [apply emits_refl|];
       pose proof (process_ack_mute r1 i seg) as Ha; destruct (process_ack r1 i seg) as [[] r2]; apply Hm; [|done];
       exact (mute_trans _ _ _ Ha (process_data_mute r2 i seg)).
  unfold process_syn_received. cbv zeta.
  destruct (has seg RTE_TCP_RST_FLAG); [case_match; [by apply Hm|apply emits_refl]|].
  destruct (has seg RTE_TCP_SYN_FLAG); [case_match; [by apply send_syn_ack_emits|apply emits_refl]|].
  destruct (negb _); [apply emits_refl|]. destruct (negb _); [apply send_rst_emits|].
  apply Hm. eapply mute_trans; [|apply process_data_mute]. done.
Qed.

Lemma process_emits (r : impl E) pkt : emits 1 r (process stack r pkt).
Proof using.
  unfold process. destruct (parse_frame _ _ _) as [| | | | | |seg]; try (by apply emits_eq).
  - destruct (handle_arp _ _ _ _ _ _ _) as [[[res nb] reply] w] eqn:Ha. pose proof (held_handle_arp _ _ _ _ _ _ _ _ _ _ _ Ha) as Hh.
    set (r1 := set_env (set_neighbors r nb) w).
    assert (Hd : debt r1 = debt r + owned [reply]) by (unfold debt; cbn; change (owned [None]) with 0 in Hh; lia).
    destruct res; [..|destruct (queue_control_debt r1 reply) as [L D]; split; [exact L|lia]].
    all: apply handle_arp_reply in Ha as ->; [|done]; split; cbn; [lia|]; unfold debt in *; cbn in *;
      change (owned [None]) with 0 in *; lia.
  - unfold process_tcp. case_match; [apply process_segment_emits|]. case_match; [|apply send_rst_emits].
    unfold open. destruct (free_slots r) as [|i rest]; [eapply emits_same; [| |apply send_rst_emits]; done|].
    pose proof (held_rand (env r)) as Hr. change (env (set_free_slots r rest)) with (env r).
    destruct (rte_rand (env r)) as [rnd w]. set (r1 := set_flows _ _).
    destruct (send_syn_ack_emits r1 r1 (opened stack (slot (set_free_slots r rest) i) seg (u32 rnd))) as [L D]; [done..|].
    split; [exact L|]. rewrite D. unfold debt. cbn in *. lia.
Qed.

Lemma foldl_emits {A} (f : impl E → A → impl E) l r : (∀ r x, emits 1 r (f r x)) → emits (length l) r (foldl f r l).
Proof using.
  intros Hf. revert r. induction l as [|x l IH]; intros r; [apply emits_refl|]. simpl.
  apply (emits_trans 1 (length l) r (f r x)); [apply Hf|apply IH].
Qed.
End counts.

(** ** The whole poll *)

Section poll_main.
Context {E : Type} `{DpdkOps E}.
Context (stack : tcp_stack) (txq : queue).
Abbreviation n := (max_connections (params_ stack)).
Abbreviation inv := (inv stack).

Definition quiescent (r : impl E) : Prop := ack_list r = [] ∧ finalize_list r = [] ∧ control r = [].

(** List entries and events one packet can add. *)
Definition produces (k : nat) (r r' : impl E) : Prop :=
  (length (ack_list r') <= length (ack_list r) + k)%nat ∧
  (length (finalize_list r') <= length (finalize_list r) + k)%nat ∧
  (length (events r') <= length (events r) + 3 * k)%nat.

Lemma produces_silent k r r' : silent r r' → produces k r r'.
Proof using. unfold produces. intros (_ & _ & _ & _ & _ & -> & -> & ->). lia. Qed.

Lemma process_segment_produces m (r : impl E) i seg : inv m r → inr n i → produces 1 r (process_segment stack r i seg).
Proof using.
  intros Hinv Hi. pose proof (inv_table stack m r i Hinv Hi) as Ht.
  destruct (aborts stack (sync_out_flags (slot r i)) seg) eqn:Hab.
  - apply andb_prop in Hab as [Hab Hacc]. apply andb_prop in Hab as [Hs Hr]. apply bool_decide_eq_true in Hs.
    unfold process_segment. set (r1 := put_slot r i _).
    assert (Hs1 : slot r1 i = sync_out_flags (slot r i)) by (by apply slot_put_same).
    rewrite Hs1, Hs. unfold process_syn_received. rewrite Hs1, Hr, Hacc. unfold produces. cbn. lia.
  - unfold produces. destruct (process_segment_local stack r i seg Ht Hab) as [_ _ _ _ _ -> -> ->].
    pose proof (conn_segment_events stack (slot r i) seg).
    rewrite !length_app, length_fmap.
    pose proof (length_newly (ack_pending (slot r i)) (ack_pending (conn_segment stack (slot r i) seg).1) i).
    pose proof (length_newly (finalize_pending (slot r i)) (finalize_pending (conn_segment stack (slot r i) seg).1) i). lia.
Qed.

Lemma process_produces m (r : impl E) pkt : inv m r → pkt_wf pkt → produces 1 r (process stack r pkt).
Proof using.
  intros Hinv Hw. unfold process. destruct (parse_frame _ _ _) as [| | | | | |seg] eqn:Hp; try (by apply produces_silent).
  - destruct (handle_arp _ _ _ _ _ _ _) as [[[res nb] reply] w].
    assert (Hq : produces 1 r (queue_control (set_env (set_neighbors r nb) w) reply)).
    { pose proof (queue_control_silent (set_env (set_neighbors r nb) w) reply) as (_ & _ & _ & _ & _ & E1 & E2 & E3).
      unfold produces. rewrite E1, E2, E3. cbn. lia. }
    destruct res; [..|exact Hq]; unfold produces; cbn; lia.
  - apply parse_frame_ok in Hp; [|done]. unfold process_tcp. set (k := flow_table.key _ _ _).
    assert (Hk : k ≠ 0) by (destruct Hp; by apply flow_table.key_nonzero).
    destruct (Z.eqb_spec (flow_table.find (flows r) k) flow_table.npos) as [Ef|Ef]; cbn [negb].
    + destruct (_ && _); [|apply produces_silent, send_rst_silent]. unfold open.
      destruct (free_slots r) as [|i rest].
      { apply produces_silent. eapply silent_trans; [|apply send_rst_silent]. done. }
      destruct (rte_rand _) as [rnd w].
      match goal with |- produces _ _ (send_syn_ack _ ?r1 ?c) => pose proof (send_syn_ack_silent stack r1 c) as (_ & _ & _ & _ & _ & E1 & E2 & E3) end.
      unfold produces. rewrite E1, E2, E3. cbn. lia.
    + destruct (find_live stack _ _ _ _ Hinv Hk eq_refl Ef) as (Hi & _). by eapply process_segment_produces.
Qed.

Lemma process_all_produces m (r : impl E) burst : inv m r → n < 2 ^ 16 → Forall pkt_wf burst →
  produces (length burst) r (foldl (process stack) r burst).
Proof using.
  intros Hinv Hn Hb. revert m r Hinv. induction Hb as [|p burst Hp Hb IH]; intros m r Hinv; [unfold produces; simpl; lia|].
  destruct (process_inv stack m r p Hinv Hn Hp) as [m' Hinv']. specialize (IH m' _ Hinv').
  pose proof (process_produces m r p Hinv Hp). unfold produces in *. simpl in *. lia.
Qed.

(** The states inside [poll]: after the packets, after the ACKs. *)
Definition after_packets (r : impl E) (burst : list rte_mbuf) : impl E :=
  foldl (process stack) (reap_released (set_events r [])) burst.
Definition after_acks (r : impl E) (burst : list rte_mbuf) : impl E := flush_acks stack (after_packets r burst).

Lemma after_packets_inv m (r : impl E) burst : inv m r → quiescent r → n < 2 ^ 16 → Forall pkt_wf burst →
  (∃ m', inv m' (after_packets r burst)) ∧ (length (ack_list (after_packets r burst)) <= length burst)%nat ∧
  (length (finalize_list (after_packets r burst)) <= length burst)%nat ∧
  (length (events (after_packets r burst)) <= 3 * length burst)%nat.
Proof using.
  intros Hinv (Hack & Hfin & Hctl) Hn Hb. unfold after_packets.
  assert (Hinv0 : inv m (set_events r [])) by (by eapply inv_quiet; [|exact Hinv]).
  destruct (reap_spec stack m (set_events r []) Hinv0 Hack) as (Hinv1 & Ha1 & Hf1 & _ & He1 & _ & _).
  split; [by apply (process_all_inv stack m)|].
  pose proof (process_all_produces m _ burst Hinv1 Hn Hb) as (P1 & P2 & P3). rewrite Ha1, Hf1, He1 in *.
  cbn in *. rewrite Hfin in P2. simpl in *. lia.
Qed.

Lemma flush_control_lists (r : impl E) : silent r (flush_control txq r) ∧ control (flush_control txq r) = [].
Proof using.
  unfold flush_control. destruct (control r) eqn:Ec; [split; [apply silent_refl|done]|].
  by destruct (send_burst _ _ _) as [[sent left_] w].
Qed.

Lemma flush_acks_events (r : impl E) m : inv m r → events (flush_acks stack r) = events r ∧
  finalize_list (flush_acks stack r) = finalize_list r.
Proof using.
  intros Hinv. unfold flush_acks. cbn.
  assert (Hl : ∀ l (r : impl E), events (foldl (flush_ack stack) r l) = events r ∧
      finalize_list (foldl (flush_ack stack) r l) = finalize_list r); [|apply Hl].
  intros l. induction l as [|i l IH]; intros r0; [done|]. simpl. destruct (IH (flush_ack stack r0 i)) as [-> ->].
  unfold flush_ack, build. destruct (negb _); [done|]. destruct (build_segment _ _ _ _ _ _ _ _ _) as [pkt w].
  match goal with |- context [queue_control ?a ?p] => pose proof (queue_control_silent a p) as (_ & _ & _ & _ & _ & _ & -> & ->) end.
  done.
Qed.

Lemma finalize_one_rest (r : impl E) i : events (finalize_one r i) = events r ∧ control (finalize_one r i) = control r ∧
  env (finalize_one r i) = env r.
Proof using. unfold finalize_one. by case_match. Qed.

Lemma finalize_rest (r : impl E) : events (finalize r) = events r ∧ control (finalize r) = control r ∧ env (finalize r) = env r ∧
  ack_list (finalize r) = ack_list r ∧ finalize_list (finalize r) = [].
Proof using.
  unfold finalize. cbn. assert (Hl : ∀ l (r : impl E), events (foldl finalize_one r l) = events r ∧
      control (foldl finalize_one r l) = control r ∧ env (foldl finalize_one r l) = env r ∧
      ack_list (foldl finalize_one r l) = ack_list r).
  { intros l. induction l as [|i l IH]; intros r0; [done|]. simpl. destruct (IH (finalize_one r0 i)) as (-> & -> & -> & ->).
    destruct (finalize_one_rest r0 i) as (-> & -> & ->). by rewrite finalize_one_acks. }
  by destruct (Hl (finalize_list r) r) as (-> & -> & -> & ->).
Qed.

Lemma poll_unfold (r : impl E) burst :
  poll stack txq r burst =
  (events (finalize (flush_control txq (after_acks r burst))), finalize (flush_control txq (after_acks r burst))).
Proof using. reflexivity. Qed.

Lemma poll_inv m (r : impl E) burst : inv m r → quiescent r → n < 2 ^ 16 → Forall pkt_wf burst →
  ∃ m', inv m' (poll stack txq r burst).2 ∧ quiescent (poll stack txq r burst).2.
Proof using.
  intros Hinv Hq Hn Hb. rewrite poll_unfold. cbn [snd].
  destruct (after_packets_inv m r burst Hinv Hq Hn Hb) as ([m1 H1] & _).
  pose proof (flush_acks_inv stack m1 _ H1) as H2. fold (after_acks r burst) in H2.
  destruct (flush_control_lists (after_acks r burst)) as [Hs Hc]. apply (inv_quiet stack m1 _ _ (silent_quiet _ _ Hs)) in H2.
  assert (Ha : ack_list (flush_control txq (after_acks r burst)) = []) by (by destruct Hs as (_ & _ & _ & _ & _ & -> & _)).
  destruct (finalize_inv stack m1 _ H2 Ha) as [m' H3]. exists m'. split; [done|].
  destruct (finalize_rest (flush_control txq (after_acks r burst))) as (_ & Fc & _ & Fa & Ff).
  unfold quiescent. by rewrite Fa, Ff, Fc.
Qed.

(** Control packets and mbufs over the whole call. *)
Lemma packets_emit `{!DpdkAccount E} m (r : impl E) burst : inv m r → quiescent r →
  (length (control (after_acks r burst)) <= length burst + length (ack_list (after_packets r burst)))%nat ∧
  debt (after_acks r burst) = held (env r).
Proof using.
  intros Hinv (Hack & _ & Hctl). assert (Hinv0 : inv m (set_events r [])) by (by eapply inv_quiet; [|exact Hinv]).
  destruct (reap_spec stack m (set_events r []) Hinv0 Hack) as (_ & _ & _ & Hc & _ & He & _).
  change (control (set_events r [])) with (control r) in Hc. change (env (set_events r [])) with (env r) in He.
  pose proof (foldl_emits (process stack) burst (reap_released (set_events r [])) (process_emits stack)) as P1.
  pose proof (foldl_emits (flush_ack stack) (ack_list (after_packets r burst)) (after_packets r burst) (flush_ack_emits stack)) as P2.
  destruct (emits_trans _ _ _ _ _ P1 P2) as [Hl Hd]. rewrite Hc, Hctl in Hl. simpl in Hl. split; [exact Hl|].
  change (debt (after_acks r burst)) with (debt (foldl (flush_ack stack) (after_packets r burst) (ack_list (after_packets r burst)))).
  rewrite Hd. unfold debt. rewrite He, Hc, Hctl. simpl. lia.
Qed.

(** At most three events per packet. *)
Lemma poll_events_bound m (r : impl E) burst : inv m r → quiescent r → n < 2 ^ 16 → Forall pkt_wf burst →
  (length (poll stack txq r burst).1 <= 3 * length burst)%nat.
Proof using.
  intros Hinv Hq Hn Hb. destruct (after_packets_inv m r burst Hinv Hq Hn Hb) as ([m1 H1] & _ & _ & B3).
  destruct (flush_acks_events (after_packets r burst) m1 H1) as [Fe _]. fold (after_acks r burst) in Fe.
  destruct (flush_control_lists (after_acks r burst)) as [(_ & _ & _ & _ & _ & _ & _ & Ee) _].
  destruct (finalize_rest (flush_control txq (after_acks r burst))) as (Fe2 & _). rewrite poll_unfold. cbn [fst]. by rewrite Fe2, Ee, Fe.
Qed.

Lemma poll_held `{!DpdkLaws E} `{!DpdkAccount E} m (r : impl E) burst : inv m r → quiescent r → n < 2 ^ 16 → Forall pkt_wf burst →
  Z.of_nat (length burst) <= burst_max_size → held (env (poll stack txq r burst).2) = held (env r).
Proof using.
  intros Hinv Hq Hn Hb Hlen. rewrite poll_unfold. cbn [snd].
  destruct (finalize_rest (flush_control txq (after_acks r burst))) as (_ & _ & -> & _).
  destruct (packets_emit m r burst Hinv Hq) as [Hl Hd]. destruct (after_packets_inv m r burst Hinv Hq Hn Hb) as (_ & Ha & _).
  unfold debt in Hd.
  assert (H16 : Z.of_nat (length (control (after_acks r burst))) < 2 ^ 16) by (unfold burst_max_size in *; lia).
  unfold flush_control. destruct (control (after_acks r burst)) as [|p ps]; [cbn [length] in Hd; lia|].
  destruct (send_burst txq _ _) as [[sent left_] w] eqn:Es. cbn [set_control set_env bump set_stats env].
  destruct (held_send_burst txq _ _ _ _ _ H16 Es) as (? & ? & ? & ?).
  rewrite held_burst_dtor. lia.
Qed.
End poll_main.
