(* ===== verification/TcpDiagram.v ===== *)
(** * The connection state diagram

    The diagram of RFC 793 as the code draws it: passive open only, the
    application's FIN noticed when the next segment arrives, TIME_WAIT left
    out.  Each edge has the condition under which the segment takes it and the
    events it announces.  A segment moves its connection along edges of the
    diagram until none applies, the events it leaves are those of the edges it
    took with the new bytes at their place between them, and the only packets
    it queues at once are the answers of a half-open connection. *)

From S2P Require Import Prelude Dpdk DpdkSim Packet Segment SeqArith FlowTable Arp TcpState TcpReceiver TcpConn TcpInv TcpPoll Scenario.

Section diagram.
Context (stack : tcp_stack).

(** An acknowledgement that neither opens nor aborts. *)
Definition plain_ack (seg : segment) : Prop :=
  has seg RTE_TCP_ACK_FLAG = true ∧ has seg RTE_TCP_SYN_FLAG = false ∧ has seg RTE_TCP_RST_FLAG = false.
Definition plain_ackb (seg : segment) : bool :=
  has seg RTE_TCP_ACK_FLAG && negb (has seg RTE_TCP_SYN_FLAG) && negb (has seg RTE_TCP_RST_FLAG).
(** An acknowledgement that may stand: of our SYN in the handshake, of
    nothing we have not sent after it. *)
Definition acceptable_ack (c : tcp_connection) (seg : segment) : bool :=
  plain_ackb seg &&
  (if decide (state c = st_syn_received) then seg_ack seg =? u32 (iss c + 1) else negb (seq_gt (seg_ack seg) (snd_nxt c))).
(** The acknowledgement of the FIN the sender put out. *)
Definition acks_fin (c : tcp_connection) (seg : segment) : bool :=
  plain_ackb seg && flag (out_flags c) out_fin_sent && (seg_ack seg =? snd_nxt c).
(** The segment starts at or before the next expected byte. *)
Definition no_gap (c : tcp_connection) (seg : segment) : bool := negb (seq_gt (seg_seq seg) (rcv_nxt_local c)).
(** Its payload ends past the next expected byte. *)
Definition has_news (c : tcp_connection) (seg : segment) : bool := seq_gt (u32 (seg_seq seg + seg_len seg)) (rcv_nxt_local c).
(** The peer's FIN, with nothing missing before it and not seen before. *)
Definition in_order_fin (c : tcp_connection) (seg : segment) : bool :=
  acceptable_ack c seg && has seg RTE_TCP_FIN_FLAG && no_gap c seg &&
  (has_news c seg || (u32 (seg_seq seg + seg_len seg) =? rcv_nxt_local c)).
(** A reset inside the receive window. *)
Definition valid_rst (c : tcp_connection) (seg : segment) : bool := has seg RTE_TCP_RST_FLAG && rst_acceptable stack c seg.
Definition we_closed (c : tcp_connection) : bool := flag (out_flags c) out_fin_sent.

(** [edge c seg s evs s']: segment [seg] for the connection that was [c] when
    it arrived takes state [s] to [s'] and announces [evs]. *)
Inductive edge (c : tcp_connection) (seg : segment) : tcp_state → list happening → tcp_state → Prop :=
  | e_accept : acceptable_ack c seg = true → edge c seg st_syn_received [(ev_accepted, [])] st_established
  | e_close_active : state c = st_established → we_closed c = true → edge c seg st_established [] st_fin_wait_1
  | e_close_passive : state c = st_close_wait → we_closed c = true → edge c seg st_close_wait [] st_last_ack
  | e_fin_acked : acks_fin c seg = true → edge c seg st_fin_wait_1 [] st_fin_wait_2
  | e_closing_acked : acks_fin c seg = true → edge c seg st_closing [(ev_closed, [])] st_closed
  | e_last_acked : acks_fin c seg = true → edge c seg st_last_ack [(ev_closed, [])] st_closed
  | e_fin_established : in_order_fin c seg = true → (state c = st_established → we_closed c = false) →
      edge c seg st_established [(ev_peer_closed, [])] st_close_wait
  | e_fin_simultaneous : in_order_fin c seg = true → edge c seg st_fin_wait_1 [] st_closing
  | e_fin_last : in_order_fin c seg = true → edge c seg st_fin_wait_2 [(ev_closed, [])] st_closed
  | e_reset s : synchronized s → valid_rst c seg = true → edge c seg s [(ev_reset, [])] st_closed.

Inductive path (c : tcp_connection) (seg : segment) : tcp_state → list happening → tcp_state → Prop :=
  | path_nil s : path c seg s [] s
  | path_cons s1 l1 s2 l2 s3 : edge c seg s1 l1 s2 → path c seg s2 l2 s3 → path c seg s1 (l1 ++ l2) s3.

(** No edge is left to take. *)
Definition settled (c : tcp_connection) (seg : segment) (s : tcp_state) : Prop := ∀ evs s', ¬ edge c seg s evs s'.

Definition receives (s : tcp_state) : bool := bool_decide (s = st_established ∨ s = st_fin_wait_1 ∨ s = st_fin_wait_2).

(** The bytes of the segment past the next expected one, for a connection
    that still receives. *)
Definition news (c : tcp_connection) (seg : segment) : list happening :=
  if acceptable_ack c seg && (receives (state c) || bool_decide (state c = st_syn_received)) && no_gap c seg && has_news c seg then
    let skip := u32 (rcv_nxt_local c - seg_seq seg) in
    [(ev_data, sub (seg_payload seg) (Z.to_nat skip) (Z.to_nat (u32 (seg_len seg - skip))))]
  else [].

(** The move a segment makes: along the diagram as far as it goes, with the
    new bytes reported at a moment when the connection receives. *)
Definition moves (c : tcp_connection) (seg : segment) (s : tcp_state) (p : tcp_connection * list happening) : Prop :=
  ∃ before s1 after, path c seg s before s1 ∧ path c seg s1 after (state p.1) ∧ settled c seg (state p.1) ∧
    (news c seg ≠ [] → receives s1 = true) ∧ p.2 = before ++ news c seg ++ after.

Lemma path_one c seg s l s' : edge c seg s l s' → path c seg s l s'.
Proof using. intros He. rewrite <- (app_nil_r l). eapply path_cons; [done|constructor]. Qed.

Lemma path_app c seg s1 l1 s2 l2 s3 : path c seg s1 l1 s2 → path c seg s2 l2 s3 → path c seg s1 (l1 ++ l2) s3.
Proof using. induction 1; intros; [done|]. rewrite <- app_assoc. eapply path_cons; eauto. Qed.

(** ** The two halves of a segment *)

(** What [conn_data] does, on the state it is reached in. *)
Lemma conn_data_outcome c c0 seg : rcv_nxt_local c = rcv_nxt_local c0 →
  let on := receives (state c) in
  let fin := on && has seg RTE_TCP_FIN_FLAG && no_gap c0 seg &&
             (has_news c0 seg || (u32 (seg_seq seg + seg_len seg) =? rcv_nxt_local c0)) in
  let skip := u32 (rcv_nxt_local c0 - seg_seq seg) in
  let got := if on && no_gap c0 seg && has_news c0 seg
             then [(ev_data, sub (seg_payload seg) (Z.to_nat skip) (Z.to_nat (u32 (seg_len seg - skip))))] else [] in
  state (conn_data c seg).1 = (if fin then state (fin_step c).1 else state c) ∧
  (conn_data c seg).2 = got ++ (if fin then (fin_step c).2 else []).
Proof using.
  intros Hr. cbv zeta. unfold conn_data, receives, no_gap, has_news. cbv zeta. rewrite Hr.
  destruct (bool_decide _) eqn:Eon; cbn [negb andb]; [|by case_match].
  assert (Hz : seg_len seg = 0 → seq_gt (u32 (seg_seq seg + seg_len seg)) (rcv_nxt_local c0) = seq_gt (seg_seq seg) (rcv_nxt_local c0)).
  { intros ->. unfold seq_gt, seq_lt. do 2 f_equal. rewrite Z.add_0_r. unfold u32. by rewrite Zminus_mod_idemp_r. }
  assert (Hfs : ∀ c1, state c1 = state c → state (fin_step c1).1 = state (fin_step c).1 ∧ (fin_step c1).2 = (fin_step c).2).
  { intros c1 E. unfold fin_step. rewrite E. destruct (state c); cbn; rewrite ?E; done. }
  destruct (has seg RTE_TCP_FIN_FLAG); cbn [negb andb]; rewrite ?andb_true_r, ?andb_false_r.
  all: destruct (Z.eqb_spec (seg_len seg) 0) as [Ez|]; rewrite ?Hz by done.
  all: destruct (seq_gt (seg_seq seg) (rcv_nxt_local c0)) eqn:Eg; cbn [negb andb orb]; try done.
  all: try (destruct (seq_gt (u32 (seg_seq seg + seg_len seg)) (rcv_nxt_local c0)); cbn [negb andb orb]; rewrite ?Hr).
  all: cbn [set_ack_pending set_rcv_nxt_local set_rcv_nxt rcv_nxt_local state fst snd]; rewrite ?Hr, ?Z.eqb_refl; try done.
  all: try (destruct (_ =? _); [|done]).
  all: match goal with |- context [fin_step ?x] => destruct (Hfs x eq_refl) as [<- <-]; by destruct (fin_step x) end.
Qed.

Lemma plain_flags seg : plain_ackb seg = true → plain_ack seg.
Proof using. unfold plain_ackb, plain_ack. by destruct (has seg RTE_TCP_ACK_FLAG), (has seg RTE_TCP_SYN_FLAG), (has seg RTE_TCP_RST_FLAG). Qed.
Lemma acceptable_plain c seg : acceptable_ack c seg = true → plain_ackb seg = true.
Proof using. unfold acceptable_ack. by intros [? _]%andb_prop. Qed.
Lemma plain_no_rst c seg : plain_ackb seg = true → valid_rst c seg = false.
Proof using. intros (_ & _ & Hr)%plain_flags. unfold valid_rst. by rewrite Hr. Qed.

(** A connection that no segment without a valid acknowledgement can move. *)
Lemma settled_stay c seg s : acceptable_ack c seg = false → acks_fin c seg = false → (valid_rst c seg = true → ¬ synchronized s) →
  (s = st_established ∨ s = st_close_wait → s = state c → we_closed c = false) → settled c seg s.
Proof using.
  intros Ha Hk Hr Hw evs s' He. assert (in_order_fin c seg = false) by (unfold in_order_fin; by rewrite Ha).
  inversion He; subst; try congruence; try (by apply Hr). all: rewrite Hw in *; auto; congruence.
Qed.

Lemma moves_stay c seg c' before : news c seg = [] → path c seg (state c) before (state c') → settled c seg (state c') →
  moves c seg (state c) (c', before).
Proof using.
  intros Hn Hp Hs. exists before, (state c'), []. rewrite Hn. split_and!; [done|constructor|done|done|by rewrite app_nil_r].
Qed.

(** The data half, reached in state [state c1] over the edges that announced
    [before]. *)
Lemma data_moves c c1 seg before : rcv_nxt_local c1 = rcv_nxt_local c → acceptable_ack c seg = true →
  path c seg (state c) before (state c1) →
  receives (state c1) = receives (state c) || bool_decide (state c = st_syn_received) →
  state c1 ≠ st_syn_received →
  (acks_fin c seg = true → state c1 ≠ st_fin_wait_1 ∧ state c1 ≠ st_closing ∧ state c1 ≠ st_last_ack) →
  (state c1 = st_established ∨ state c1 = st_close_wait → state c1 = state c → we_closed c = false) →
  moves c seg (state c) ((conn_data c1 seg).1, before ++ (conn_data c1 seg).2).
Proof using.
  intros Hrn Ha Hp Hon Hsyn Hk Hw. destruct (conn_data_outcome c1 c seg Hrn) as [Hs Hev]. cbv zeta in Hs, Hev.
  pose proof (plain_no_rst c seg (acceptable_plain _ _ Ha)) as Hrst.
  set (fin := _ && (has_news c seg || _)) in *.
  assert (Hfin : fin = receives (state c1) && in_order_fin c seg).
  { unfold fin, in_order_fin. rewrite Ha. cbn [andb]. by rewrite !andb_assoc. }
  clearbody fin.
  assert (Hnews : (conn_data c1 seg).2 = news c seg ++ (if fin then (fin_step c1).2 else [])).
  { rewrite Hev. f_equal. unfold news. rewrite Ha, <- Hon. done. }
  exists before, (state c1), (if fin then (fin_step c1).2 else []). cbn [fst snd]. rewrite Hs, Hnews. split_and!; [done|..|done].
  - rewrite Hfin. destruct (receives (state c1)) eqn:Er; cbn [andb]; [|constructor].
    destruct (in_order_fin c seg) eqn:Ef; [|constructor]. apply path_one. unfold fin_step.
    destruct (state c1) eqn:Es; try discriminate Er; cbn; constructor; auto.
  - intros evs s' He. destruct fin.
    + symmetry in Hfin. apply andb_prop in Hfin as [Hr Hf]. unfold fin_step in He.
      destruct (state c1) eqn:Es; try discriminate Hr; cbn in He; inversion He; subst; try congruence; try (by destruct Hk).
      match goal with Hx : state _ = st_close_wait |- _ => rewrite Hx in Hon end. by vm_compute in Hon.
    + inversion He as [H|H1 H2|H1 H2|H|H|H|H H2|H|H|]; subst; try congruence.
      all: try (destruct (Hk H) as (? & ? & ?); congruence).
      all: try (rewrite Hw in H2; [congruence|auto|congruence]).
      all: rewrite H in Hfin; match goal with Hx : _ = state _ |- _ => rewrite <- Hx in Hfin end; by vm_compute in Hfin.
  - intros Hx. unfold news in Hx. rewrite <- Hon in Hx. destruct (receives (state c1)); [done|]. by rewrite andb_false_r in Hx.
Qed.

(** ** The whole segment *)

Lemma sync_moves c seg : let c1 := sync_out_flags c in
  rcv_nxt_local c1 = rcv_nxt_local c ∧ out_flags c1 = out_flags c ∧ snd_nxt c1 = snd_nxt c ∧ iss c1 = iss c ∧
  rst_acceptable stack c1 seg = rst_acceptable stack c seg ∧ path c seg (state c) [] (state c1) ∧
  receives (state c1) = receives (state c) ∧ (synchronized (state c1) ↔ synchronized (state c)) ∧
  (state c = st_syn_received ↔ state c1 = st_syn_received) ∧
  (state c1 = st_established ∨ state c1 = st_close_wait → state c1 = state c → we_closed c = false) ∧
  (¬ synchronized (state c) → c1 = c).
Proof using.
  cbv zeta. unfold sync_out_flags. destruct (flag (out_flags c) out_fin_sent) eqn:Ef; cbn [negb].
  2: { split_and!; try done; by constructor. }
  destruct (decide (state c = st_established)) as [E|N1]; [|destruct (decide (state c = st_close_wait)) as [E|N2]].
  1,2: rewrite ?E; split_and!; try done; try (by apply path_one; constructor); cbn [set_state state];
      try (by intros [?|?]); try (by split; intros _; repeat split); try (by intros Hx; exfalso; apply Hx).
  split_and!; try done; [by constructor|by intros [?|?]].
Qed.

Lemma ack_moves c c1 seg : plain_ackb seg = true → synchronized (state c) → synchronized (state c1) →
  rcv_nxt_local c1 = rcv_nxt_local c → out_flags c1 = out_flags c → snd_nxt c1 = snd_nxt c →
  path c seg (state c) [] (state c1) → receives (state c1) = receives (state c) →
  (state c1 = st_established ∨ state c1 = st_close_wait → state c1 = state c → we_closed c = false) →
  moves c seg (state c) (conn_ack c1 seg).
Proof using.
  intros Hpl (S1 & S2 & S3) (T1 & T2 & T3) Hrn Ho Hn Hp Hon Hw. pose proof (plain_no_rst c seg Hpl) as Hrst. unfold conn_ack. rewrite Ho, Hn.
  assert (Hacc : acceptable_ack c seg = negb (seq_gt (seg_ack seg) (snd_nxt c))) by (unfold acceptable_ack; by rewrite Hpl, decide_False).
  assert (Hkf : acks_fin c seg = flag (out_flags c) out_fin_sent && (seg_ack seg =? snd_nxt c)) by (unfold acks_fin; by rewrite Hpl).
  destruct (seq_gt (seg_ack seg) (snd_nxt c)) eqn:Eg.
  { assert (acks_fin c seg = false) as Hk0.
    { rewrite Hkf. destruct (Z.eqb_spec (seg_ack seg) (snd_nxt c)) as [E|]; [|by rewrite andb_false_r].
      rewrite E in Eg. unfold seq_gt, seq_lt in Eg. by rewrite Z.sub_diag in Eg. }
    apply moves_stay; [unfold news; by rewrite Hacc|done|]. apply settled_stay; try done. congruence. }
  destruct (ack_window_keeps c1 seg) as (Es & _). cbv zeta.
  assert (Hrn2 : rcv_nxt_local (ack_window c1 seg) = rcv_nxt_local c) by (rewrite <- Hrn; unfold ack_window; repeat case_match; by simplify_eq).
  set (c2 := ack_window c1 seg) in *. clearbody c2.
  assert (Hon2 : receives (state c1) = receives (state c) || bool_decide (state c = st_syn_received)) by (by rewrite bool_decide_false, orb_false_r).
  rewrite <- Hkf. destruct (acks_fin c seg) eqn:Ek.
  2: { pose proof (data_moves c c2 seg [] Hrn2 Hacc) as Hd. rewrite Es in Hd. destruct (conn_data c2 seg). apply Hd; congruence || done. }
  rewrite Es. assert (Hd : state c1 ≠ st_fin_wait_1 → state c1 ≠ st_closing → state c1 ≠ st_last_ack → moves c seg (state c) (conn_data c2 seg)).
  { intros. pose proof (data_moves c c2 seg [] Hrn2 Hacc) as Hd. rewrite Es in Hd. destruct (conn_data c2 seg). by apply Hd. }
  assert (Hend : receives (state c1) = false → edge c seg (state c1) [(ev_closed, [])] st_closed →
    moves c seg (state c) (conn_close c2 ev_closed, [(ev_closed, [])])).
  { intros Hf He. apply (moves_stay c seg (conn_close c2 ev_closed)).
    - unfold news. rewrite <- Hon2, Hf. by rewrite andb_false_r.
    - by apply (path_app c seg _ [] (state c1) [(ev_closed, [])]), path_one.
    - intros evs s' Hx. cbn in Hx. inversion Hx as [| | | | | | | | |? [_ [_ ?]]]; by subst. }
  destruct (state c1) eqn:E1; try (by apply Hd); try (by apply Hend; [|constructor]).
  pose proof (data_moves c (set_state c2 st_fin_wait_2) seg [] Hrn2 Hacc) as Hx. cbn [set_state state app] in Hx.
  destruct (conn_data _ seg). apply Hx; try done; [|by intros [?|?]].
  apply (path_app c seg _ [] st_fin_wait_1 []); [done|]. by apply path_one, e_fin_acked.
Qed.

Lemma live_moves c c1 seg : synchronized (state c) → synchronized (state c1) →
  rcv_nxt_local c1 = rcv_nxt_local c → out_flags c1 = out_flags c → snd_nxt c1 = snd_nxt c →
  rst_acceptable stack c1 seg = rst_acceptable stack c seg →
  path c seg (state c) [] (state c1) → receives (state c1) = receives (state c) →
  (state c1 = st_established ∨ state c1 = st_close_wait → state c1 = state c → we_closed c = false) →
  moves c seg (state c)
    (if has seg RTE_TCP_RST_FLAG then
       if rst_acceptable stack c1 seg then (conn_close c1 ev_reset, [(ev_reset, [])]) else (c1, [])
     else if has seg RTE_TCP_SYN_FLAG then (set_ack_pending c1 true, [])
     else if negb (has seg RTE_TCP_ACK_FLAG) then (c1, [])
     else conn_ack c1 seg).
Proof using.
  intros Hsc Hs1 E1 E2 E3 E5 Hp Hon Hw.
  assert (Hstay : plain_ackb seg = false → valid_rst c seg = false → ∀ c', state c' = state c1 → moves c seg (state c) (c', [])).
  { intros Hpl Hv c' Ec. assert (Ha : acceptable_ack c seg = false) by (unfold acceptable_ack; by rewrite Hpl).
    apply moves_stay; [unfold news; by rewrite Ha|by rewrite Ec|]. rewrite Ec. apply settled_stay; [done|unfold acks_fin; by rewrite Hpl|congruence|done]. }
  destruct (has seg RTE_TCP_RST_FLAG) eqn:Hr.
  { assert (Hpl : plain_ackb seg = false) by (unfold plain_ackb; by rewrite Hr, andb_false_r). rewrite E5.
    destruct (rst_acceptable stack c seg) eqn:Ha; [|apply Hstay; [done|unfold valid_rst; by rewrite Ha, andb_false_r|done]].
    apply (moves_stay c seg (conn_close c1 ev_reset)).
    - unfold news, acceptable_ack. by rewrite Hpl.
    - apply (path_app c seg _ [] (state c1) [(ev_reset, [])]); [done|]. apply path_one, e_reset; [done|unfold valid_rst; by rewrite Hr, Ha].
    - intros evs s' He. cbn in He. inversion He as [| | | | | | | | |? [_ [_ ?]]]; by subst. }
  assert (Hv : valid_rst c seg = false) by (unfold valid_rst; by rewrite Hr).
  destruct (has seg RTE_TCP_SYN_FLAG) eqn:Hy; [apply Hstay; [unfold plain_ackb; by rewrite Hy, andb_false_r|done..]|].
  destruct (has seg RTE_TCP_ACK_FLAG) eqn:Hk; cbn [negb]; [|apply Hstay; [unfold plain_ackb; by rewrite Hk|done..]].
  apply ack_moves; try done. unfold plain_ackb. by rewrite Hk, Hy, Hr.
Qed.

Lemma segment_moves c seg : moves c seg (state c) (conn_segment stack c seg).
Proof using.
  destruct (sync_moves c seg) as (E1 & E2 & E3 & E4 & E5 & Hp & Hon & Hsy & Hsr & Hw & Hid). unfold conn_segment. cbv zeta.
  set (c1 := sync_out_flags c) in *. clearbody c1.
  assert (Hdead : ¬ synchronized (state c) → state c ≠ st_syn_received → moves c seg (state c) (c1, [])).
  { intros Hns Hn. rewrite Hid by done. apply moves_stay; [|constructor|].
    - unfold news, receives. rewrite !bool_decide_false; [by rewrite andb_false_r|done|].
      intros Hx. apply Hns. destruct Hx as [->|[->| ->]]; by repeat split.
    - intros evs s' He. inversion He; subst; (done || (apply Hns; repeat split; congruence)). }
  destruct (state c1) eqn:Es1; try (apply Hdead; [by rewrite <- Hsy; intros (? & ? & ?)|by rewrite Hsr]).
  { assert (Es : state c = st_syn_received) by (by apply Hsr). rewrite Hid in * by (rewrite Es; by intros (_ & ? & _)).
    assert (Hacc : acceptable_ack c seg = negb (has seg RTE_TCP_RST_FLAG || has seg RTE_TCP_SYN_FLAG || negb (has seg RTE_TCP_ACK_FLAG) ||
        negb (seg_ack seg =? u32 (iss c + 1)))).
    { unfold acceptable_ack, plain_ackb. rewrite decide_True by done.
      by destruct (has seg RTE_TCP_RST_FLAG), (has seg RTE_TCP_SYN_FLAG), (has seg RTE_TCP_ACK_FLAG), (_ =? _). }
    destruct (_ || _); cbn [negb] in Hacc.
    - apply moves_stay; [unfold news; by rewrite Hacc|constructor|]. intros evs s' He. rewrite Es in He.
      inversion He as [| | | | | | | | |? (_ & Hns & _)]; subst; [congruence|done].
    - pose proof (data_moves c (conn_accept c seg) seg [(ev_accepted, [])] eq_refl Hacc) as Hd.
      destruct (conn_data (conn_accept c seg) seg). change (state (conn_accept c seg)) with st_established in Hd. rewrite Es in Hd |- *.
      apply Hd; try done. by apply path_one, e_accept. }
  all: apply live_moves; rewrite ?Es1; try done; by apply Hsy.
Qed.

(** A connection that a segment ends has been reported over. *)
Lemma path_over c seg s l s' : path c seg s l s' → s ≠ st_closed → s' = st_closed → ev_closed ∈ l.*1 ∨ ev_reset ∈ l.*1.
Proof using.
  induction 1 as [s|s1 l1 s2 l2 s3 He _ IH]; intros Hn Hc; [done|]. rewrite fmap_app, !elem_of_app.
  destruct (decide (s2 = st_closed)) as [->|H2]; [|destruct (IH H2 Hc); auto].
  assert (ev_closed ∈ l1.*1 ∨ ev_reset ∈ l1.*1) by (inversion He; cbn; rewrite !list_elem_of_singleton; auto). naive_solver.
Qed.
Lemma segment_over c seg : state c ≠ st_closed → state (conn_segment stack c seg).1 = st_closed →
  ev_closed ∈ (conn_segment stack c seg).2.*1 ∨ ev_reset ∈ (conn_segment stack c seg).2.*1.
Proof using.
  intros Hn Hc. destruct (segment_moves c seg) as (b & s & a & P1 & P2 & _ & _ & ->). rewrite !fmap_app, !elem_of_app.
  destruct (path_over _ _ _ _ _ (path_app _ _ _ _ _ _ _ P1 P2) Hn Hc) as [Hx|Hx]; rewrite fmap_app, elem_of_app in Hx; naive_solver.
Qed.

(** ** The diagram leaves no choice *)

(** Where a segment ends up from [s], and what that announces. *)
Definition destination (c : tcp_connection) (seg : segment) (s : tcp_state) : list happening * tcp_state :=
  let fin := in_order_fin c seg in
  let acked (s : tcp_state) := if acks_fin c seg then ([(ev_closed, [])], st_closed) else ([], s) in
  let wait_2 := if fin then ([(ev_closed, [])], st_closed) else ([], st_fin_wait_2) in
  let wait_1 := if acks_fin c seg then wait_2 else if fin then ([], st_closing) else ([], st_fin_wait_1) in
  let open_ := if fin then ([(ev_peer_closed, [])], st_close_wait) else ([], st_established) in
  if valid_rst c seg && negb (bool_decide (s = st_free ∨ s = st_syn_received ∨ s = st_closed)) then ([(ev_reset, [])], st_closed)
  else match s with
  | st_free | st_closed => ([], s)
  | st_syn_received => if acceptable_ack c seg then ((ev_accepted, []) :: open_.1, open_.2) else ([], s)
  | st_established => if bool_decide (state c = st_established) && we_closed c then wait_1 else open_
  | st_close_wait => if bool_decide (state c = st_close_wait) && we_closed c then acked st_last_ack else ([], s)
  | st_fin_wait_1 => wait_1
  | st_fin_wait_2 => wait_2
  | st_closing | st_last_ack => acked s
  end.

Lemma plain_parts c seg : valid_rst c seg = true → acceptable_ack c seg = false ∧ acks_fin c seg = false ∧ in_order_fin c seg = false.
Proof using.
  intros Hr. assert (Hp : plain_ackb seg = false).
  { destruct (plain_ackb seg) eqn:Hp; [|done]. by rewrite (plain_no_rst c seg Hp) in Hr. }
  assert (Ha : acceptable_ack c seg = false) by (unfold acceptable_ack; by rewrite Hp).
  unfold acks_fin, in_order_fin. by rewrite Ha, Hp.
Qed.

(** The states before [st_close_wait] are reached from the start of the diagram only. *)
Definition early (c : tcp_connection) (s : tcp_state) : Prop :=
  (s = st_syn_received → state c = st_syn_received) ∧ (s = st_established → state c = st_syn_received ∨ state c = st_established).

Lemma early_edge c seg s l s' : early c s → edge c seg s l s' → early c s'.
Proof using. intros [He _] Hx. destruct Hx; split; intros ?; try done. left. by apply He. Qed.

Lemma destination_edge c seg s l s' : early c s → edge c seg s l s' →
  destination c seg s = (l ++ (destination c seg s').1, (destination c seg s').2).
Proof using.
  intros [H1 H2] He. unfold destination. destruct (valid_rst c seg) eqn:Hr.
  { destruct (plain_parts c seg Hr) as (Ha & Hk & Hf). destruct He as [| | | | | | | | |s (? & ? & ?)]; try congruence; try done.
    by rewrite bool_decide_false by (by intros [?|[?|?]]). }
  cbn [andb]. destruct He as [Ha|Hs Hw|Hs Hw|Hk|Hk|Hk|Hf Hw|Hf|Hf|s _ Hv].
  - rewrite Ha, (bool_decide_false (state c = st_established)) by (rewrite H1; done). cbn [andb]. by destruct (in_order_fin c seg).
  - rewrite bool_decide_true, Hw by done. by destruct (acks_fin c seg), (in_order_fin c seg).
  - rewrite bool_decide_true, Hw by done. by destruct (acks_fin c seg).
  - rewrite Hk. by destruct (in_order_fin c seg).
  - by rewrite Hk.
  - by rewrite Hk.
  - rewrite Hf, (bool_decide_false (state c = st_close_wait)) by (destruct (H2 eq_refl) as [-> | ->]; done).
    destruct (bool_decide_reflect (state c = st_established)); [rewrite Hw by done|]; done.
  - rewrite Hf. by destruct (acks_fin c seg).
  - by rewrite Hf.
  - congruence.
Qed.

Lemma destination_settled c seg s : early c s → settled c seg s → destination c seg s = ([], s).
Proof using.
  intros Hy Hs. unfold destination.
  destruct (valid_rst c seg) eqn:Hr; cbn [andb].
  { destruct (bool_decide_reflect (s = st_free ∨ s = st_syn_received ∨ s = st_closed)) as [Hx|Hx]; cbn [negb].
    - destruct (plain_parts c seg Hr) as (Ha & _). destruct Hx as [->|[->| ->]]; by rewrite ?Ha.
    - destruct (Hs [(ev_reset, [])] st_closed). apply e_reset; [|done]. repeat split; naive_solver. }
  assert (Hno : ∀ l s', edge c seg s l s' → ∀ P : Prop, P) by (intros l s' Hx; by destruct (Hs l s')).
  destruct s; try done.
  - destruct (acceptable_ack c seg) eqn:E; [eapply Hno; by constructor|done].
  - destruct (bool_decide_reflect (state c = st_established)) as [Ee|]; cbn [andb].
    + destruct (we_closed c) eqn:Ew; [eapply Hno; by apply e_close_active|].
      destruct (in_order_fin c seg) eqn:E; [eapply Hno; by apply e_fin_established|done].
    + destruct (in_order_fin c seg) eqn:E; [eapply Hno; by apply e_fin_established|done].
  - destruct (bool_decide_reflect (state c = st_close_wait)) as [Ee|]; cbn [andb]; [|done].
    destruct (we_closed c) eqn:Ew; [eapply Hno; by apply e_close_passive|done].
  - destruct (acks_fin c seg) eqn:E; [eapply Hno; by apply e_last_acked|done].
  - destruct (acks_fin c seg) eqn:E; [eapply Hno; by apply e_fin_acked|].
    destruct (in_order_fin c seg) eqn:E2; [eapply Hno; by apply e_fin_simultaneous|done].
  - destruct (in_order_fin c seg) eqn:E; [eapply Hno; by apply e_fin_last|done].
  - destruct (acks_fin c seg) eqn:E; [eapply Hno; by apply e_closing_acked|done].
Qed.

(** Whatever path a segment takes, it ends in the same state with the same
    announcements. *)
Lemma path_destination c seg s l s' : early c s → path c seg s l s' → settled c seg s' → destination c seg s = (l, s').
Proof using.
  intros Hy Hp. induction Hp as [s|s1 l1 s2 l2 s3 He Hp IH]; intros Hs; [by apply destination_settled|].
  rewrite (destination_edge _ _ _ _ _ Hy He), IH by (by eauto using early_edge). done.
Qed.
End diagram.

(** ** The receiver's handler *)

(** What a half-open connection answers at once: a repeated SYN, and an
    acknowledgement of something else than our SYN. *)
Inductive reply := No_reply | Syn_ack_again | Reset_back.
Definition half_open_reply (c : tcp_connection) (seg : segment) : reply :=
  if negb (bool_decide (state c = st_syn_received)) || has seg RTE_TCP_RST_FLAG then No_reply
  else if has seg RTE_TCP_SYN_FLAG then
    if negb (has seg RTE_TCP_ACK_FLAG) && (seg_seq seg =? irs c) then Syn_ack_again else No_reply
  else if has seg RTE_TCP_ACK_FLAG && negb (seg_ack seg =? u32 (iss c + 1)) then Reset_back
  else No_reply.

Section refinement.
Context {E : Type} `{DpdkOps E}.
Context (stack : tcp_stack).

(** Everything but the connection's slot and the lists of slots with work
    left. *)
Definition rest_same (r r' : impl E) (i : Z) : Prop :=
  (∀ j, j ≠ Z.to_nat i → slots r' !! j = slots r !! j) ∧ neighbors r' = neighbors r ∧ flows r' = flows r ∧
  free_slots r' = free_slots r ∧ awaiting_release r' = awaiting_release r.

Lemma aborts_slot (c : tcp_connection) seg : aborts stack c seg = false → aborts stack (sync_out_flags c) seg = false.
Proof.
  intros Hab. destruct (decide (synchronized (state c))) as [Hs|Hs]; [|by rewrite (proj2 (sync_state c) Hs)].
  apply (proj1 (sync_state c)) in Hs as (_ & Hn & _). unfold aborts. by rewrite bool_decide_false.
Qed.

Lemma process_segment_aborts (r : impl E) i seg : in_table r i → aborts stack (slot r i) seg = true →
  let r' := process_segment stack r i seg in
  slots r' = <[Z.to_nat i := set_finalize_pending (set_ack_pending (set_state (slot r i) st_free) false) false]> (slots r) ∧
  flows r' = flow_table.erase (flows r) (flow_key (slot r i)) ∧ free_slots r' = i :: free_slots r ∧
  events r' = events r ∧ neighbors r' = neighbors r ∧ awaiting_release r' = awaiting_release r ∧ mute r r'.
Proof.
  intros Hi Hab. pose proof (proj1 (andb_prop _ _ Hab)) as [Hst Hr]%andb_prop. apply bool_decide_eq_true in Hst.
  apply andb_prop in Hab as [_ Hacc]. unfold process_segment.
  rewrite (proj2 (sync_state (slot r i))) by (rewrite Hst; by intros (_ & ? & _)).
  rewrite slot_put_same, Hst by done. unfold process_syn_received. rewrite slot_put_same, Hr, Hacc by done.
  unfold release_slot. change (slot (set_flows ?x _) i) with (slot x i). change (slot (bump ?x _) i) with (slot x i).
  rewrite slot_put_same by done. split_and!; try done. cbn. apply list_insert_insert_eq.
Qed.

Lemma process_segment_reply (r : impl E) i seg : in_table r i →
  let r' := process_segment stack r i seg in
  match half_open_reply (slot r i) seg with
  | No_reply => mute r r'
  | Syn_ack_again => r' = send_syn_ack stack r (slot r i)
  | Reset_back => r' = send_rst_for stack r seg
  end.
Proof.
  intros Hi. cbv zeta. unfold half_open_reply. destruct (bool_decide_reflect (state (slot r i) = st_syn_received)) as [Es|Es]; cbn [negb orb].
  - unfold process_segment. rewrite (proj2 (sync_state (slot r i))) by (rewrite Es; by intros (_ & ? & _)).
    assert (Hr : put_slot r i (slot r i) = r) by (unfold put_slot; rewrite slots_id by done; by destruct r). rewrite !Hr, Es.
    unfold process_syn_received. destruct (has seg RTE_TCP_RST_FLAG); [by case_match|].
    destruct (has seg RTE_TCP_SYN_FLAG); [by destruct (has seg RTE_TCP_ACK_FLAG), (seg_seq seg =? irs (slot r i))|]. destruct (has seg RTE_TCP_ACK_FLAG); cbn [negb andb]; [|done].
    destruct (negb _); [done|]. eapply mute_trans; [|apply process_data_mute]. done.
  - unfold process_segment. set (r1 := put_slot r i _). assert (H1 : mute r r1) by done.
    assert (Hs : state (slot r1 i) ≠ st_syn_received).
    { subst r1. rewrite slot_put_same by done. destruct (sync_moves stack (slot r i) seg) as (_ & _ & _ & _ & _ & _ & _ & _ & Hsr & _).
      intros Hx. by apply Es, Hsr. }
    clearbody r1. assert (Hm : ∀ r', mute r1 r' → mute r r') by (intros r'; by apply mute_trans).
    destruct (state (slot r1 i)); try done. all: destruct (has seg RTE_TCP_RST_FLAG); [destruct (rst_acceptable _ _ _); [|done]; apply Hm|].
    all: try (apply (mute_trans _ (bump r1 (add_rst_received 1))); [done|apply terminate_mute]).
    all: destruct (has seg RTE_TCP_SYN_FLAG); [apply Hm, queue_ack_mute|]. all: destruct (negb _); [done|].
    all: pose proof (process_ack_mute r1 i seg) as Ha; destruct (process_ack r1 i seg) as [[] r2]; apply Hm; [|done].
    all: exact (mute_trans _ _ _ Ha (process_data_mute r2 i seg)).
Qed.

(** C15. Every segment moves its connection along the TCP state diagram and
    tells the application of exactly that.  From the state before to the state
    after there is a path of edges whose conditions (the handshake's ACK of our
    ISS, our FIN sent or acknowledged, the peer's FIN in order, a reset inside
    the window) the segment meets, and it goes as far as the diagram does: no
    further edge applies; the diagram leaves no choice of where that is.  The
    events are those of the edges taken, each once and in order ([accepted], [peer_closed], [closed] for a clean end, [reset]
    for the peer's reset only), with the payload's unseen bytes at a moment
    when the connection receives.  At once it sends nothing, except that a
    half-open connection repeats its SYN,ACK for a repeated SYN and answers a
    wrong handshake ACK with a reset; other slots and tables are untouched.
    A reset of a half-open connection takes it back without an event: flow
    erased, slot freed. *)
Theorem segment_follows_diagram (r : impl E) i seg : in_table r i →
  let c := slot r i in
  let r' := process_segment stack r i seg in
  if aborts stack c seg then
    state (slot r' i) = st_free ∧ flows r' = flow_table.erase (flows r) (flow_key c) ∧ free_slots r' = i :: free_slots r ∧
    events r' = events r ∧ control r' = control r ∧ env r' = env r
  else
    rest_same r r' i ∧
    (∃ before s after, path stack c seg (state c) before s ∧ path stack c seg s after (state (slot r' i)) ∧
      settled stack c seg (state (slot r' i)) ∧ (news c seg ≠ [] → receives s = true) ∧
      events r' = events r ++ (stamp i c <$> before ++ news c seg ++ after) ∧
      (∀ evs s', path stack c seg (state c) evs s' → settled stack c seg s' → evs = before ++ after ∧ s' = state (slot r' i))) ∧
    match half_open_reply c seg with
    | No_reply => control r' = control r ∧ env r' = env r
    | Syn_ack_again => r' = send_syn_ack stack r c
    | Reset_back => r' = send_rst_for stack r seg
    end.
Proof.
  intros Hi c r'. destruct (aborts stack c seg) eqn:Hab.
  { destruct (process_segment_aborts r i seg Hi Hab) as (Hs & Hf & Hfr & He & _ & _ & Hm). split_and!; try done; [|apply Hm..].
    unfold slot, r'. rewrite Hs, list_lookup_total_insert_eq; [done|]. unfold in_table in Hi. lia. }
  pose proof (process_segment_local stack r i seg Hi (aborts_slot _ _ Hab)) as Hl. destruct (local_slot _ _ _ _ _ Hl Hi) as [Hs _].
  split_and!; [|subst r'; rewrite Hs|exact (process_segment_reply r i seg Hi)].
  - destruct Hl. split_and!; try done. intros j Hj. unfold r'. rewrite l_slots. by apply list_lookup_insert_ne.
  - destruct (segment_moves stack (slot r i) seg) as (b & s & a & P1 & P2 & P3 & P4 & P5). exists b, s, a. split_and!; try done.
    { rewrite (l_events _ _ _ _ _ Hl). by rewrite P5. }
    intros evs s' Hq Hs'. assert (Hy : early (slot r i) (state (slot r i))) by (split; auto).
    pose proof (path_destination stack _ _ _ _ _ Hy (path_app _ _ _ _ _ _ _ _ P1 P2) P3) as D1.
    pose proof (path_destination stack _ _ _ _ _ Hy Hq Hs') as D2. rewrite D1 in D2. by injection D2.
Qed.
End refinement.

Section diagram_run.
#[local] Existing Instances sim.ops.

Definition demo_seg (pkt : rte_mbuf) : segment :=
  match parse_frame true 0x0a000001 pkt with
  | V_tcp seg => seg
  | _ => {| seg_src_mac := []; seg_src_ip := 0; seg_src_port := 0; seg_dst_port := 0; seg_seq := 0; seg_ack := 0;
            seg_flags := 0; seg_window := 0; seg_payload := []; seg_len := 0; seg_options := [] |}
  end.

(** The peer's FIN on the open connection. *)
Lemma segment_follows_diagram_witness :
  ∃ before s after, path demo.stack (slot demo.open 0) (demo_seg demo.fin) st_established before s ∧
    path demo.stack (slot demo.open 0) (demo_seg demo.fin) s after st_close_wait ∧
    settled demo.stack (slot demo.open 0) (demo_seg demo.fin) st_close_wait.
Proof.
  pose proof (segment_follows_diagram demo.stack demo.open 0 (demo_seg demo.fin)) as Hp. cbv zeta in Hp.
  assert (Ha : aborts demo.stack (slot demo.open 0) (demo_seg demo.fin) = false) by (vm_compute; reflexivity).
  assert (H1 : state (slot demo.open 0) = st_established) by (vm_compute; reflexivity).
  assert (H2 : state (slot (process_segment demo.stack demo.open 0 (demo_seg demo.fin)) 0) = st_close_wait) by (vm_compute; reflexivity).
  rewrite Ha in Hp. destruct Hp as (_ & (b & s & a & Hb & Hs & Hn & _) & _); [split; [discriminate|vm_compute; reflexivity]|].
  rewrite H1 in Hb. rewrite H2 in Hs, Hn. exists b, s, a. exact (conj Hb (conj Hs Hn)).
Defined.
End diagram_run.
