(* ===== verification/TcpLive.v ===== *)
(** * Sending makes progress

    TcpSender.v bounds what [send] and [close] may do, whatever DPDK answers.
    Here is what they do when DPDK has the means: [ready k w] is any property
    of the environment that guarantees [k] more allocations with room for a
    full segment and a transmit queue that takes what it is given.  Then [send]
    sends everything window and caller allow, and [close] gets its FIN out. *)

From S2P Require Import Prelude Dpdk DpdkSim Packet Segment SegmentWire SeqArith TcpState TcpSender.

Section live.
Context {E : Type} `{DpdkOps E} `{!DpdkLaws E} `{!DpdkAccount E} `{!DpdkWire E}.
Context (stack : tcp_stack) (txq : queue).
Abbreviation on_wire w := (wire (q_port txq) (q_id txq) w).

(** What DPDK must be able to do. *)
Record means (ready : nat → E → Prop) : Prop := {
  rd_alloc k w : ready (S k) w → ∃ m w', rte_pktmbuf_alloc (pool_ stack) w = (Some m, w') ∧
                   54 + mss_ stack <= m_tailroom m ∧ ready k w';
  rd_tx k ms w : ready k w → ∃ w', rte_eth_tx_burst (q_port txq) (q_id txq) ms w = (Z.of_nat (length ms), w') ∧ ready k w' }.

Context (ready : nat → E → Prop) (Hmeans : means ready).

Lemma send_burst_all k ms (w : E) : Z.of_nat (length ms) < 2 ^ 16 → ready k w →
  ∃ left_ w', send_burst txq ms w = (Z.of_nat (length ms), left_, w') ∧ burst_dtor left_ w' = w' ∧ ready k w' ∧
    head left_ = (λ _, None) <$> head ms.
Proof using Hmeans.
  intros Hl Hr. unfold send_burst. rewrite u16_id, Nat2Z.id, firstn_all by mlia.
  destruct (rd_tx _ Hmeans k ms w Hr) as (w' & -> & Hr'). rewrite Nat2Z.id, firstn_all, drop_all. simpl. rewrite app_nil_r.
  eexists _, w'. split; [reflexivity|]. split_and!; [|done|by destruct ms].
  unfold burst_dtor. clear. induction ms as [|m ms IH]; [done|exact IH].
Qed.

Lemma build_burst_length room c base ack bytes limit off (w : E) segs off' w' :
  build_burst stack room c base ack bytes limit off w = (segs, off', w') → (length segs <= room)%nat.
Proof using.
  revert off w segs off' w'. induction room as [|room IH]; intros off w segs off' w'; simpl; [by intros [= <- _ _]|].
  destruct (off <? limit); [|intros [= <- _ _]; simpl; lia].
  destruct (build_segment _ _ _ _ _ _ _ _ w) as [[m|] w1]; [|intros [= <- _ _]; simpl; lia].
  destruct (build_burst _ room _ _ _ _ _ _ w1) as [[rest off2] w2] eqn:Er. intros [= <- _ _]. apply IH in Er. simpl. lia.
Qed.

Lemma build_burst_all room k c base ack bytes limit off (w : E) :
  mac_ok (local_mac_ stack) → mac_ok (peer_mac c) → 1 <= send_mss c <= mss_ stack → 54 + mss_ stack < 2 ^ 16 →
  0 <= off <= limit → limit <= Z.of_nat (length bytes) → limit - off <= Z.of_nat k → ready k w →
  ∃ segs off' w', build_burst stack room c base ack bytes limit off w = (segs, off', w') ∧
    (length segs = room ∨ off' = limit) ∧ (segs = [] → off' = off) ∧
    off + Z.of_nat (length segs) <= off' <= limit ∧ ready (k - length segs) w'.
Proof using Hmeans DpdkLaws0.
  intros Hm1 Hm2 Hmss Hmax. revert k off w. induction room as [|room IH]; intros k off w Hoff Hlim Hk Hr; cbn [build_burst].
  { exists [], off, w. split_and!; [done|by left|done|simpl; lia|lia|]. simpl. by rewrite Nat.sub_0_r. }
  destruct (Z.ltb_spec off limit) as [Hlt|Hge].
  2: { exists [], off, w. split_and!; [done|right; lia|done|simpl; lia|lia|]. simpl. by rewrite Nat.sub_0_r. }
  destruct k as [|k]; [lia|]. set (len := Z.min (send_mss c) (limit - off)).
  assert (Hlen : 0 < len <= send_mss c ∧ len <= limit - off) by (unfold len; lia). clearbody len.
  destruct (rd_alloc _ Hmeans k w Hr) as (m & w1 & Ha & Hroom & Hr1). cbv zeta.
  set (pay := sub bytes (Z.to_nat off) (Z.to_nat len)). set (fl := Z.lor _ _).
  assert (Hfl : frame_len pay 0 = 54 + len) by (unfold frame_len, pay; rewrite length_sub by lia; simpl; lia).
  destruct (build_segment_ok (pool_ stack) (conn_addr stack c) (u32 (base + u32 off)) ack fl
    (receive_window (params_ stack)) pay 0 w m w1 Hm1 Hm2 Ha ltac:(lia) ltac:(lia)) as (pkt & -> & _ & _).
  destruct (IH k (off + len) w1) as (segs & off' & w' & -> & Hor & _ & Hbd & Hr'); [lia..|done|].
  exists ((pkt, off + len) :: segs), off', w'. cbn [length]. split_and!; [done|destruct Hor; [left; congruence|by right]|done|lia|lia|done].
Qed.

Lemma send_loop_all fuel k slots i base ack bytes limit done (w : E) :
  let c := conn_at slots i in
  in_slots slots i → mac_ok (local_mac_ stack) → mac_ok (peer_mac c) → 1 <= send_mss c <= mss_ stack → 54 + mss_ stack < 2 ^ 16 →
  0 <= done <= limit → limit <= Z.of_nat (length bytes) → limit - done <= Z.of_nat k → ready k w →
  limit - done < Z.of_nat fuel →
  ∃ slots' w', send_loop stack txq fuel slots i base ack bytes limit done w = Some (limit, slots', w').
Proof using Hmeans DpdkLaws0.
  revert k slots done w. induction fuel as [|fuel IH]; intros k slots done w c Hi Hm1 Hm2 Hmss Hmax Hd Hlim Hk Hr Hf; [lia|].
  cbn [send_loop]. destruct (Z.ltb_spec done limit) as [Hlt|Hge]; [|exists slots, w; do 3 f_equal; lia].
  destruct (build_burst_all (Z.to_nat burst_max_size) k c base ack bytes limit done w)
    as (segs & off & w1 & Eb & Hor & Hnil & Hbd & Hr1); [done..|]. subst c. rewrite Eb. change (Z.to_nat burst_max_size) with 32%nat in *.
  pose proof (build_burst_length _ _ _ _ _ _ _ _ _ _ _ Eb) as Hlen.
  assert (Hne : segs ≠ []) by (intros Hx; specialize (Hnil Hx); subst segs; simpl in Hor; destruct Hor; lia).
  rewrite <- length_zero_iff_nil in Hne. destruct (Z.eqb_spec (Z.of_nat (length segs)) 0) as [Ez|Ez]; [lia|].
  destruct (send_burst_all (k - length segs) segs.*1 w1) as (left_ & w2 & -> & Hdt & Hr2 & _); [rewrite length_fmap; lia|done|].
  rewrite length_fmap, Z.ltb_irrefl, Hdt.
  assert (Hnot : (Z.of_nat (length segs) <? burst_max_size) && (off <? limit) = false).
  { unfold burst_max_size. destruct Hor; [rewrite (proj2 (Z.ltb_ge _ 32)) by lia; done|]. rewrite andb_false_iff. right. lia. }
  rewrite Hnot. eapply (IH (k - length segs)%nat); rewrite ?conn_at_put by done; try done; try lia. by apply in_slots_put.
Qed.

Lemma lookup_some slots conn i : lookup stack slots conn = Some i → i = cid_slot conn ∧ cid_slot conn < max_connections (params_ stack).
Proof using.
  unfold lookup. destruct (Z.leb_spec (max_connections (params_ stack)) (cid_slot conn)); [done|]. cbv zeta.
  do 2 (case_match; [done|]). by intros [= <-].
Qed.

(** Everything window and caller allow. *)
Lemma send_all slots conn bytes (w : E) :
  let c := conn_at slots (cid_slot conn) in
  let limit := Z.min (Z.of_nat (length bytes)) (window_space (send_window c) (snd_nxt c)) in
  Z.of_nat (length slots) = max_connections (params_ stack) → 0 <= cid_slot conn → sendable stack slots conn = true →
  mac_ok (local_mac_ stack) → mac_ok (peer_mac c) → 1 <= send_mss c <= mss_ stack → 54 + mss_ stack < 2 ^ 16 →
  ready (Z.to_nat limit) w → ∃ slots' w', send stack txq slots conn bytes w = Some (limit, slots', w').
Proof using Hmeans DpdkLaws0.
  intros c limit Hlen Hi Hs Hm1 Hm2 Hmss Hmax Hr. unfold send. rewrite Hs. cbn [negb]. rewrite orb_false_r.
  pose proof (window_space_range (send_window c) (snd_nxt c)) as Hws.
  assert (Hlim : 0 <= limit <= Z.of_nat (length bytes)) by (unfold limit; lia).
  case_bool_decide as Eb; [exists slots, w; do 3 f_equal; subst bytes; simpl in Hlim; lia|].
  unfold sendable in Hs. destruct (lookup stack slots conn) as [i|] eqn:El; [|done].
  destruct (lookup_some _ _ _ El) as [-> Hlt]. fold c. fold limit.
  destruct (Z.eqb_spec limit 0) as [Ez|Ez]; [exists slots, w; by rewrite Ez|].
  apply (send_loop_all _ (Z.to_nat limit)); fold c; try done; [|lia..]. unfold in_slots. lia.
Qed.

Lemma fin_sent attempts k c seq (w : E) : (0 < attempts)%nat → mac_ok (local_mac_ stack) → mac_ok (peer_mac c) →
  0 <= mss_ stack → ready (S k) w →
  ∃ m, on_wire (fin_loop stack txq attempts c seq None w) = on_wire w ++ [m] ∧ m_data m = fin_frame stack c seq.
Proof using All.
  intros Ha Hm1 Hm2 Hmss Hr. destruct attempts as [|n]; [lia|]. cbn [fin_loop].
  destruct (rd_alloc _ Hmeans k w Hr) as (m & w1 & Hal & Hroom & Hr1).
  destruct (build_segment_ok (pool_ stack) (conn_addr stack c) seq (rcv_nxt c) (Z.lor RTE_TCP_FIN_FLAG RTE_TCP_ACK_FLAG)
    (receive_window (params_ stack)) [] 0 w m w1 Hm1 Hm2 Hal) as (pkt & Eb & Hd & _); [unfold frame_len; simpl; lia..|].
  pose proof (wire_build_segment (q_port txq) (q_id txq) (pool_ stack) (conn_addr stack c) seq (rcv_nxt c)
    (Z.lor RTE_TCP_FIN_FLAG RTE_TCP_ACK_FLAG) (receive_window (params_ stack)) [] 0 w) as Hw. rewrite Eb in Hw |- *.
  destruct (send_burst_all k [pkt] w1) as (left_ & w2 & Es & _ & _ & Hh); [simpl; lia|done|].
  pose proof (wire_send_burst txq [pkt] w1 _ _ _ ltac:(simpl; lia) Es) as Hw2. rewrite Es, Hh. exists pkt.
  change (Z.of_nat (length [pkt]) =? 1) with true. cbn. split; [|exact Hd]. cbn in Hw, Hw2. by rewrite Hw2, Hw.
Qed.

Lemma close_sends_fin k slots conn i (w : E) : lookup stack slots conn = Some i →
  let c := conn_at slots i in
  mac_ok (local_mac_ stack) → mac_ok (peer_mac c) → 0 <= mss_ stack → ready (S k) w →
  flag (out_flags c) out_fin_sent = false → terminated c = 0 →
  ∃ m, on_wire (close stack txq slots conn w).2 = on_wire w ++ [m] ∧ m_data m = fin_frame stack c (snd_nxt c).
Proof using All.
  intros El c Hm1 Hm2 Hmss Hr Hf Ht. unfold close. rewrite El. fold c. rewrite Hf, Ht. cbn [negb andb Z.eqb snd].
  set (c1 := set_out_flags _ _). exact (fin_sent kCloseRetries k c1 (snd_nxt c) w kCloseRetries_pos Hm1 Hm2 Hmss Hr).
Qed.
End live.

(** After [close], the id is dead. *)
Lemma lookup_closed {E} `{DpdkOps E} stack slots conn i : lookup stack slots conn = Some i → in_slots slots i →
  flags_ok (out_flags (conn_at slots i)) → lookup stack (put_conn slots i (closed_by_us (conn_at slots i))) conn = None.
Proof.
  intros El Hi Hf. destruct (lookup_some stack slots conn i El) as [-> Hlt]. unfold lookup. case_match; [done|].
  rewrite conn_at_put by done. destruct (closed_by_us_flags (conn_at slots (cid_slot conn)) Hf) as (-> & _). case_match; [done|].
  by rewrite orb_true_r.
Qed.

(** The simulated DPDK has the means while its pool lasts. *)
Section sim_live.
#[local] Existing Instances sim.ops.

Definition sim_ready (k : nat) (w : sim.env) : Prop :=
  Z.of_nat k <= sim.e_pool w ∧ sim.e_limits w = [] ∧ 2048 <= sim.e_room w.

Lemma sim_means stack txq : mss_ stack <= 1994 → means stack txq sim_ready.
Proof.
  intros Hm. split.
  - intros k w (Hk & Hl & Hr). cbn. unfold sim.alloc. rewrite (proj2 (Z.ltb_lt _ _)) by lia.
    eexists _, _. split; [reflexivity|]. cbn. split; [lia|]. unfold sim_ready. cbn. split_and!; [lia|done|lia].
  - intros k ms w (Hk & Hl & Hr). cbn. unfold sim.tx_burst. rewrite Hl. eexists. split; [reflexivity|]. by unfold sim_ready.
Qed.
End sim_live.
