(* ===== verification/TcpValues.v ===== *)
(** * What the fields of a connection say

    [conn_ok] is the invariant of one live connection's values: the published
    [rcv_nxt] and [send_window] equal the inbound thread's own copies, the
    sequence numbers are 32-bit, the bytes in flight never exceed the largest
    window by more than the FIN, and the state agrees with [terminated] and
    with the FIN flag.  It is kept by every segment ([conn_segment]) and by the
    sender's stores, so the modular comparisons in the code are always made
    within the half of the sequence space where they are exact. *)

From S2P Require Import Prelude Dpdk Packet Segment SeqArith TcpState TcpReceiver TcpConn TcpSender.

Definition fin_state (s : tcp_state) : Prop :=
  s = st_fin_wait_1 ∨ s = st_fin_wait_2 ∨ s = st_closing ∨ s = st_last_ack.

(** Bytes (and SYN or FIN) sent and not yet acknowledged. *)
Definition flight (c : tcp_connection) : Z := u32 (snd_nxt c - snd_una c).

(** [tight] adds the bound on the bytes in flight.  It holds as long as the
    sender's calls are not interrupted: while [send] has published a [snd_nxt]
    it may still pull back, an ACK can run ahead of what was sent. *)
Section values.
Context (stack : tcp_stack) {tight : bool}.

Record conn_wk (c : tcp_connection) : Prop := {
  co_mac : mac_ok (peer_mac c);
  co_mss : 1 <= send_mss c <= mss_ stack;
  co_rcv : is_u32 (rcv_nxt_local c);
  co_una : is_u32 (snd_una c);
  co_wnd : is_u16 (snd_wnd c);
  co_nxt : is_u32 (snd_nxt c);
  co_typed : is_u32 (iss c) ∧ is_u32 (irs c) ∧ is_u32 (snd_wl1 c) ∧ is_u32 (snd_wl2 c);
  co_win : send_window c = pack_window (snd_una c) (snd_wnd c);
  co_gen : 1 <= generation c < 2 ^ 32;
  co_term : terminated c = if decide (state c = st_closed) then 1 else 0;
  co_flags : flags_ok (out_flags c);
  co_flight : tight = true → flight c <= 65535 + (if flag (out_flags c) out_fin_sent then 1 else 0);
  co_syn : tight = true → state c = st_syn_received → is_u32 (iss c) ∧ snd_una c = iss c ∧ 1 <= flight c;
  co_fin : fin_state (state c) → flag (out_flags c) out_fin_sent = true }.

Definition conn_sound (c : tcp_connection) : Prop := conn_wk c ∧ rcv_nxt c = rcv_nxt_local c.

(** ** Single assignments *)

Lemma wk_ack c b : conn_wk c → conn_wk (set_ack_pending c b).
Proof using. intros []. by split. Qed.
Lemma wk_finalize c b : conn_wk c → conn_wk (set_finalize_pending c b).
Proof using. intros []. by split. Qed.
Lemma wk_rcv c x : conn_wk c → is_u32 x → conn_wk (set_rcv_nxt_local c x).
Proof using. intros [] Hx. by split. Qed.
Lemma wk_publish c x : conn_wk c → conn_wk (set_rcv_nxt c x).
Proof using. intros []. by split. Qed.
Lemma wk_state c s : conn_wk c → state c ≠ st_closed → s ≠ st_closed → s ≠ st_syn_received →
  (fin_state s → flag (out_flags c) out_fin_sent = true) → conn_wk (set_state c s).
Proof using.
  intros [] Hc Hs Hn Hf. split; try done. cbn. rewrite co_term0. by repeat case_decide.
Qed.
Lemma wk_close c why : conn_wk c → conn_wk (conn_close c why).
Proof using.
  intros []. unfold conn_close. destruct (decide (why = ev_reset)); split; cbn; try done; intros [?|[?|[?|?]]]; done.
Qed.
Lemma wk_fin_step c : conn_wk c → conn_wk (fin_step c).1.
Proof using.
  intros Hc. unfold fin_step. destruct (state c) eqn:Es; cbn [fst]; try done.
  - apply wk_state; try done; [by rewrite Es|intros [?|[?|[?|?]]]; done].
  - apply wk_state; try done; [by rewrite Es|]. intros _. apply (co_fin c Hc). left. done.
  - by apply wk_close.
Qed.

(** ** Segments *)

Lemma ok_data c seg : conn_sound c → seg_ok seg → conn_sound (conn_data c seg).1.
Proof using.
  intros [Hc Hp] Hs. unfold conn_data. cbv zeta.
  destruct (negb _); [case_match; [by split; [apply wk_ack|]|done]|].
  destruct (_ && negb _); [done|]. destruct (seq_gt _ _); [by split; [apply wk_ack|]|].
  set (end_ := u32 _). set (p := if seq_gt end_ _ then _ else _).
  assert (Hp1 : conn_wk p.1) by (subst p; case_match; [apply wk_rcv; [done|apply u32_range]|done]).
  destruct p as [c1 got]. cbn [fst snd] in *. set (c2 := set_ack_pending c1 true).
  assert (H2 : conn_wk c2) by (by apply wk_ack).
  destruct (_ && _).
  - assert (H3 : conn_wk (fin_step (set_rcv_nxt_local c2 (u32 (rcv_nxt_local c2 + 1)))).1).
    { apply wk_fin_step, wk_rcv; [done|apply u32_range]. }
    destruct (fin_step _) as [c3 ended]. by split; [apply wk_publish|].
  - by split; [apply wk_publish|].
Qed.

(** Accepting an ACK keeps the flight below what it was. *)
Lemma flight_ack nxt una ack : is_u32 nxt → is_u32 una → is_u32 ack → u32 (nxt - una) <= 65536 →
  seq_gt ack nxt = false → seq_gt ack una = true → u32 (nxt - ack) < u32 (nxt - una).
Proof using. intros Hn Hu Ha Hf H1 H2. unfold seq_gt, seq_lt in *. mlia. Qed.

Lemma flight_bound c : conn_wk c → tight = true → 0 <= flight c <= 65536.
Proof using.
  intros [] Ht. specialize (co_flight0 Ht). unfold flight in *. pose proof (u32_range (snd_nxt c - snd_una c)) as [? _].
  destruct (flag _ _); lia.
Qed.

Lemma ok_ack_window c seg : conn_sound c → seg_ok seg → state c ≠ st_syn_received →
  seq_gt (seg_ack seg) (snd_nxt c) = false → conn_sound (ack_window c seg).
Proof using.
  intros [Hc Hp] Hs Hn Hg. pose proof (flight_bound c Hc) as Hfl. unfold ack_window.
  set (p := if seq_gt (seg_ack seg) (snd_una c) then _ else _).
  assert (H1 : (conn_wk p.1 ∨ conn_wk (publish_window p.1) ∧ p.2 = true) ∧ rcv_nxt p.1 = rcv_nxt_local p.1).
  { subst p. destruct (seq_gt (seg_ack seg) (snd_una c)) eqn:Eg; [|by split; [left|]]. split; [right; split; [|done]|done].
    destruct Hc. destruct Hs. split; try done. intros Ht. specialize (co_flight0 Ht).
    assert (Hlt : u32 (snd_nxt c - seg_ack seg) < u32 (snd_nxt c - snd_una c)) by (apply flight_ack; try done; by apply Hfl).
    cbn. unfold flight in *. cbn. lia. }
  destruct p as [c1 ch1]. cbn [fst snd] in H1. destruct H1 as [H1 Hp1].
  set (p := if _ && _ then _ else _).
  assert (H2 : (conn_wk p.1 ∨ conn_wk (publish_window p.1) ∧ p.2 = true) ∧ rcv_nxt p.1 = rcv_nxt_local p.1).
  { subst p. destruct (_ && _); [|done]. destruct (negb (snd_wnd c1 =? seg_window seg)).
    - split; [right; split; [|done]|done].
      assert (Hw : conn_wk (publish_window c1)) by (destruct H1 as [[]|[? _]]; [by split|done]).
      destruct Hw, Hs. destruct_and?. by split.
    - split; [|done]. destruct Hs. destruct H1 as [[]|[[] ?]]; destruct_and?; [left; by split|right; split; [by split|done]]. }
  destruct p as [c2 ch2]. cbn [fst snd] in H2. destruct H2 as [H2 Hp2].
  assert (H3 : conn_wk (publish_window c2)) by (destruct H2 as [[]|[? _]]; [by split|done]).
  destruct ch2; [done|]. destruct H2 as [?|[_ ?]]; done.
Qed.

Lemma ack_window_sent c seg : out_flags (ack_window c seg) = out_flags c ∧ snd_nxt (ack_window c seg) = snd_nxt c.
Proof using. unfold ack_window. repeat case_match; simplify_eq; done. Qed.

Lemma ok_ack c seg : conn_sound c → seg_ok seg → synchronized (state c) → conn_sound (conn_ack c seg).1.
Proof using.
  intros Hc Hs (Hn1 & Hn2 & Hn3). unfold conn_ack.
  destruct (seq_gt (seg_ack seg) (snd_nxt c)) eqn:Eg; [destruct Hc; by split; [apply wk_ack|]|].
  destruct (ack_window_keeps c seg) as (Es & _). destruct (ack_window_sent c seg) as [Eo _].
  pose proof (ok_ack_window c seg Hc Hs Hn2 Eg) as H1. cbv zeta.
  destruct (flag (out_flags c) out_fin_sent) eqn:Ef; cbn [andb]; [|by apply ok_data].
  destruct (_ =? _); [|by apply ok_data].
  assert (Hcl : conn_sound (conn_close (ack_window c seg) ev_closed)) by (destruct H1 as [H1 ?]; by split; [apply wk_close|]).
  destruct (state (ack_window c seg)) eqn:Ew; try (by apply ok_data); try exact Hcl.
  apply ok_data; [|done]. destruct H1 as [H1 ?]. split; [|done]. apply wk_state; try done; [by rewrite Ew|].
  intros _. by rewrite Eo.
Qed.

Lemma ok_accept c seg : conn_sound c → seg_ok seg → state c = st_syn_received → seg_ack seg = u32 (iss c + 1) →
  conn_sound (conn_accept c seg).
Proof using.
  intros [Hc Hp] Hs Est Eack. destruct Hc. destruct co_typed0 as (? & ? & ? & ?), Hs. split; [|done].
  rewrite Est in co_term0. cbn in co_term0.
  split; try done; cbn; [|intros [?|[?|[?|?]]]; done]. intros Ht. specialize (co_flight0 Ht).
  destruct (co_syn0 Ht Est) as (Hiss & Huna & Hfl).
  assert (Hf : u32 (snd_nxt c - seg_ack seg) = flight c - 1).
  { unfold flight in *. rewrite Eack, Huna, u32_sub_r. rewrite Huna in Hfl. mlia. }
  unfold flight at 1. cbn. lia.
Qed.

Lemma ok_sync c : conn_sound c → state c ≠ st_closed → conn_sound (sync_out_flags c).
Proof using.
  intros [Hc Hp] Hn. unfold sync_out_flags. destruct (flag (out_flags c) out_fin_sent) eqn:Ef; cbn [negb]; [|done].
  repeat case_decide; try done; (split; [|done]); apply wk_state; done.
Qed.

Lemma ok_segment c seg : conn_sound c → seg_ok seg → conn_sound (conn_segment stack c seg).1.
Proof using.
  intros Hc Hs. destruct (decide (state c = st_closed)) as [Ec|Ec]; [by rewrite conn_segment_closed|].
  pose proof (ok_sync c Hc Ec) as H1. unfold conn_segment. set (c1 := sync_out_flags c) in *. clearbody c1. clear c Hc Ec.
  assert (Hsy : synchronized (state c1) → conn_sound (conn_ack c1 seg).1) by (by apply ok_ack).
  assert (Hcl : conn_sound (conn_close c1 ev_reset)).
  { destruct H1 as [H1 Hp]. split; [by apply wk_close|]. unfold conn_close. by case_decide. }
  assert (Hq : conn_sound (set_ack_pending c1 true)) by (destruct H1; by split; [apply wk_ack|]).
  destruct (state c1) eqn:Es; try done.
  { destruct (_ || _) eqn:Eb; [done|]. apply orb_false_elim in Eb as [_ Eb]. apply negb_false_iff, Z.eqb_eq in Eb.
    pose proof (ok_data _ seg (ok_accept c1 seg H1 Hs Es Eb) Hs) as Hd. by destruct (conn_data _ _). }
  all: destruct (has seg RTE_TCP_RST_FLAG); [destruct (rst_acceptable _ _ _); done|];
       destruct (has seg RTE_TCP_SYN_FLAG); [done|]; destruct (negb _); [done|]; by apply Hsy.
Qed.

(** ** A fresh connection, and the sender's stores *)

Lemma opened_generation c seg isn : is_u32 (generation c) →
  generation (opened stack c seg isn) = if generation c =? 2 ^ 32 - 1 then 1 else generation c + 1.
Proof using.
  intros Hg. cbn. unfold is_u32 in Hg. destruct (Z.eqb_spec (generation c) (2 ^ 32 - 1)) as [E1|E1].
  - rewrite E1. reflexivity.
  - rewrite u32_id by mlia. destruct (Z.eqb_spec (generation c + 1) 0); lia.
Qed.

Lemma ok_opened c seg isn : is_u32 (generation c) → seg_ok seg → is_u32 isn → 1 <= mss_ stack →
  conn_sound (opened stack c seg isn).
Proof using.
  intros Hg Hs Hi Hm. destruct Hs. split; [|done].
  destruct (mss_loop_value (seg_options seg) (S (length (seg_options seg))) 0 sk_opt ltac:(lia) ltac:(lia)) as (v & Hv & Hb).
  assert (Hmss : parse_mss_option (seg_options seg) = v) by (unfold parse_mss_option; by rewrite Hv).
  assert (Hfl : u32 (u32 (isn + 1) - isn) = 1) by mlia.
  split; cbn [opened peer_mac send_mss rcv_nxt_local snd_una snd_wnd snd_nxt send_window generation terminated state out_flags iss];
    try done; try apply u32_range.
  - rewrite Hmss. lia.
  - destruct (Z.eqb_spec (u32 (generation c + 1)) 0); [lia|]. pose proof (u32_range (generation c + 1)). mlia.
  - intros _. unfold flight. cbn. rewrite Hfl. change (flag 0 out_fin_sent) with false. lia.
  - intros _ _. split_and!; [done|done|]. unfold flight. cbn. rewrite Hfl. lia.
  - intros [?|[?|[?|?]]]; done.
Qed.

(** Sending [k] bytes within the window. *)
Lemma ok_sent c k : conn_sound c → flag (out_flags c) out_fin_sent = false →
  0 <= k <= window_space (send_window c) (snd_nxt c) → conn_sound (set_snd_nxt c (u32 (snd_nxt c + k))).
Proof using.
  intros [Hc Hp] Hnf Hk. pose proof (flight_bound c Hc) as Hb. split; [|done]. destruct Hc. rewrite co_win0 in Hk.
  assert (Htight : tight = true → flight (set_snd_nxt c (u32 (snd_nxt c + k))) = flight c + k ∧ (k = 0 ∨ flight c + k <= 65535)).
  2: { split; try done; cbn; [apply u32_range|intros Ht|intros Ht Hs]; destruct (Htight Ht) as [Hfl Hws]; specialize (co_flight0 Ht).
       - rewrite Hfl. rewrite Hnf in *. lia.
       - destruct (co_syn0 Ht Hs) as (? & ? & ?). split_and!; [done|done|]. rewrite Hfl. lia. }
  intros Ht. specialize (co_flight0 Ht). specialize (Hb Ht). rewrite Hnf in co_flight0.
  assert (Hws : k = 0 ∨ flight c + k <= 65535).
  { unfold window_space in Hk. rewrite window_una_pack, window_size_pack in Hk by (done || mlia). unfold flight in *.
    destruct (Z.ltb_spec 0 (s32 (u32 (u32 (snd_una c + snd_wnd c) - snd_nxt c)))) as [Hlt|]; [right|left; lia].
    rewrite u32_sub_l in *. revert Hk Hlt co_flight0 Hb. mlia. }
  split; [|done]. unfold flight in *. cbn. rewrite u32_sub_l. revert Hb Hws co_flight0. mlia.
Qed.

Lemma ok_closed_by_us c : conn_sound c → conn_sound (closed_by_us c).
Proof using.
  intros [Hc Hp]. pose proof (flight_bound c Hc) as Hb. destruct Hc.
  destruct (closed_by_us_flags c co_flags0) as (_ & Hf & Hfin).
  assert (Hkeep : flag (out_flags c) out_fin_sent = true → flag (out_flags (closed_by_us c)) out_fin_sent = true) by (intros; apply Hfin; auto).
  unfold closed_by_us in *. destruct (flag (out_flags c) out_fin_sent) eqn:Ef; cbn [negb andb] in *.
  - split; [|done]. split; try done; cbn in *; [intros Ht; specialize (co_flight0 Ht)|]; rewrite Hkeep by done; done.
  - destruct (Z.eqb_spec (terminated c) 0) as [Et|Et].
    + assert (Hfl : tight = true → flight (set_out_flags (set_snd_nxt c (u32 (snd_nxt c + 1))) 3) = flight c + 1).
      { intros Ht. specialize (Hb Ht). unfold flight in *. cbn. rewrite u32_sub_l. revert Hb. mlia. }
      split; [|done]. split; try done.
      * cbn. apply u32_range.
      * intros Ht. specialize (co_flight0 Ht). rewrite Hfl by done. replace (if flag _ _ then 1 else 0) with 1 by reflexivity. lia.
      * cbn. intros Ht Hs. destruct (co_syn0 Ht Hs) as (? & ? & ?). split_and!; [done|done|]. rewrite Hfl by done. lia.
    + split; [|done]. split; try done.
      * intros Ht. specialize (co_flight0 Ht). unfold flight in *. cbn [snd_nxt snd_una set_out_flags out_flags]. destruct (flag (u8 _) _); lia.
      * cbn [state set_out_flags]. intros Hs. apply co_fin0 in Hs. done.
Qed.
End values.

(** With calls taken as one step. *)
Arguments conn_wk stack tight c : clear implicits.
Arguments conn_sound stack tight c : clear implicits.
Abbreviation conn_ok stack := (conn_sound stack true).
