(* ===== verification/TcpSystem.v ===== *)
(** * The two threads together

    [sys_step] is the interleaving of the two handles: the inbound thread's
    [poll], the outbound thread's [send] and [close], each on the shared slots.
    [sys_inv] collects the table invariant (TcpInv.v), quiescence between calls
    (TcpPoll.v) and the per-connection values (TcpValues.v); it holds in every
    reachable state, whatever the peers send and in whatever order the
    application calls. *)

From S2P Require Import Prelude Probing FlowTable Dpdk DpdkSim Packet Segment SegmentWire SeqArith Arp TcpState TcpReceiver.
From S2P Require Import TcpConn TcpInv TcpPoll TcpSender TcpValues.

(** What the constructor of [tcp_stack] guarantees. *)
Record stack_ok (s : tcp_stack) : Prop := {
  ck_n : 1 <= max_connections (params_ s) < 2 ^ 16;
  ck_mss : 1 <= mss_ s; ck_frame : 54 + mss_ s < 2 ^ 16; ck_mac : mac_ok (local_mac_ s) }.

(** Every field within its declared type. *)
Record typed (c : tcp_connection) : Prop := {
  ty_gen : is_u32 (generation c);
  ty_addr : is_u32 (peer_ip c) ∧ is_u16 (peer_port c) ∧ is_u16 (local_port c);
  ty_mac : mac_ok (peer_mac c);
  ty_mss : is_u16 (send_mss c);
  ty_seq : Forall is_u32 [iss c; irs c; rcv_nxt_local c; rcv_nxt c; snd_una c; snd_nxt c; snd_wl1 c; snd_wl2 c];
  ty_wnd : is_u16 (snd_wnd c);
  ty_win : is_u64 (send_window c);
  ty_term : terminated c = 0 ∨ terminated c = 1;
  ty_flags : flags_ok (out_flags c) }.

Lemma typed_new : typed new_connection.
Proof.
  split; unfold is_u32, is_u16, is_u64, flags_ok, mac_ok; simpl; try lia; [|by repeat constructor].
  split; [done|]. by repeat constructor.
Qed.

Section slots_ok.
Context {E : Type} `{DpdkOps E}.
Context (stack : tcp_stack) {tight : bool} (txq : queue).
Abbreviation n := (max_connections (params_ stack)).
Abbreviation inv := (inv stack).

Definition slot_sound (c : tcp_connection) : Prop :=
  typed c ∧ (state c = st_free ∨ conn_sound stack tight c).
Definition slots_sound (r : impl E) : Prop := Forall slot_sound (slots r).

Lemma slots_ok_slot r i : slots_sound r → in_table r i → slot_sound (slot r i).
Proof using.
  intros Hs Hi. unfold in_table in Hi. apply (Forall_lookup_1 _ (slots r) (Z.to_nat i)); [done|].
  unfold slot. apply list_lookup_lookup_total_lt. lia.
Qed.
Lemma slots_ok_put (r : impl E) l i c : slots_sound r → slot_sound c → l = <[Z.to_nat i := c]> (slots r) → Forall slot_sound l.
Proof using. intros Hs Hc ->. by apply Forall_insert. Qed.

(** A connection with consistent values is well typed. *)
Lemma sound_typed c : stack_ok stack → is_u32 (peer_ip c) ∧ is_u16 (peer_port c) ∧ is_u16 (local_port c) → conn_sound stack tight c → typed c.
Proof using.
  intros [] Ha [[] Hp]. destruct co_typed as (? & ? & ? & ?). split; try done.
  - unfold is_u32. lia.
  - unfold is_u16. lia.
  - rewrite Hp. do 8 (apply Forall_cons_2; [done|]). apply Forall_nil_2.
  - rewrite co_win. apply pack_window_range; [done|unfold is_u16, is_u32 in *; lia].
  - rewrite co_term. case_decide; auto.
Qed.

Lemma typed_addr c c' : same_id c c' → typed c → is_u32 (peer_ip c') ∧ is_u16 (peer_port c') ∧ is_u16 (local_port c').
Proof using. intros (_ & -> & -> & ->) Ht. apply (ty_addr c Ht). Qed.
Lemma typed_state c s : typed c → typed (set_state c s).
Proof using. intros []. by split. Qed.
Lemma typed_ack c b : typed c → typed (set_ack_pending c b).
Proof using. intros []. by split. Qed.
Lemma typed_finalize c b : typed c → typed (set_finalize_pending c b).
Proof using. intros []. by split. Qed.
Lemma typed_sync c : typed c → typed (sync_out_flags c).
Proof using. intros Ht. unfold sync_out_flags. repeat case_match; by try apply typed_state. Qed.
Lemma typed_sent c x : is_u32 x → typed c → typed (set_snd_nxt c x).
Proof using. intros Hx []. split; try done. cbn in *. rewrite !Forall_cons in *. destruct_and!. by split_and!. Qed.
Lemma typed_out c x : flags_ok x → typed c → typed (set_out_flags c x).
Proof using. intros Hx []. by split. Qed.

Lemma slot_ok_freed c : typed c → slot_sound (freed c).
Proof using. intros Ht. split; [by apply typed_finalize, typed_ack, typed_state|by left]. Qed.
Lemma slot_ok_ack c b : slot_sound c → slot_sound (set_ack_pending c b).
Proof using. intros [Hg [Hf|[Hc Hp]]]; (split; [by apply typed_ack|]); [by left|right]. by split; [apply wk_ack|]. Qed.
Lemma slot_ok_finalize c b : slot_sound c → slot_sound (set_finalize_pending c b).
Proof using. intros [Hg [Hf|[Hc Hp]]]; (split; [by apply typed_finalize|]); [by left|right]. by split; [apply wk_finalize|]. Qed.

Lemma process_segment_slots m (r : impl E) i seg : stack_ok stack → inv m r → slots_sound r → seg_ok seg → inr n i →
  state (slot r i) ≠ st_free → slots_sound (process_segment stack r i seg).
Proof using.
  intros Hcfg Hinv Hs Hseg Hi Hnf. pose proof (inv_table stack m r i Hinv Hi) as Ht.
  destruct (slots_ok_slot r i Hs Ht) as [Hg [?|Hc]]; [done|].
  destruct (aborts stack (sync_out_flags (slot r i)) seg) eqn:Hab.
  - apply andb_prop in Hab as [Hab Hacc]. apply andb_prop in Hab as [Hst Hr]. apply bool_decide_eq_true in Hst.
    unfold process_segment. set (r1 := put_slot r i _).
    assert (Hs1 : slot r1 i = sync_out_flags (slot r i)) by (by apply slot_put_same).
    rewrite Hs1, Hst. unfold process_syn_received. rewrite Hs1, Hr, Hacc. unfold release_slot.
    match goal with |- context [slot ?x i] => change (slot x i) with (slot r1 i) end. rewrite Hs1.
    unfold slots_sound. cbn. rewrite list_insert_insert_eq. apply Forall_insert; [done|].
    by apply (slot_ok_freed (sync_out_flags (slot r i))), typed_sync.
  - pose proof (process_segment_local stack r i seg Ht Hab) as Hl. eapply slots_ok_put; [done| |apply (l_slots _ _ _ _ _ Hl)].
    assert (Hc' : conn_sound stack tight (conn_segment stack (slot r i) seg).1) by (by apply ok_segment).
    split; [|by right]. apply sound_typed; [done| |done]. by eapply typed_addr; [apply conn_segment_id|].
Qed.

Lemma silent_slots (r r' : impl E) : silent r r' → slots_sound r → slots_sound r'.
Proof using. unfold slots_sound. by intros (-> & _). Qed.

Lemma process_slots m (r : impl E) pkt : stack_ok stack → inv m r → slots_sound r → pkt_wf pkt → slots_sound (process stack r pkt).
Proof using.
  intros Hcfg Hinv Hs Hw. unfold process. destruct (parse_frame _ _ _) as [| | | | | |seg] eqn:Hp; try done.
  - destruct (handle_arp _ _ _ _ _ _ _) as [[[res nb] reply] w]. destruct res; try done.
    eapply silent_slots; [apply queue_control_silent|done].
  - apply parse_frame_ok in Hp; [|done]. unfold process_tcp. set (k := flow_table.key _ _ _).
    assert (Hk : k ≠ 0) by (destruct Hp; by apply flow_table.key_nonzero).
    destruct (Z.eqb_spec (flow_table.find (flows r) k) flow_table.npos) as [Ef|Ef]; cbn [negb].
    + destruct (_ && _); [|eapply silent_slots; [apply send_rst_silent|done]]. unfold open.
      destruct (free_slots r) as [|i rest] eqn:Efree.
      { eapply silent_slots; [apply send_rst_silent|done]. }
      destruct (rte_rand _) as [rnd w]. eapply silent_slots; [apply send_syn_ack_silent|].
      destruct (proj1 (i_free _ _ _ Hinv i)) as [Hi _]; [rewrite Efree; by left|].
      destruct (slots_ok_slot r i Hs (inv_table stack m r i Hinv Hi)) as [Hg _].
      pose proof (ok_opened (tight := tight) stack (slot r i) seg (u32 rnd) (ty_gen _ Hg) Hp (u32_range rnd) (ck_mss _ Hcfg)) as Hc.
      apply Forall_insert; [exact Hs|]. split; [|right; exact Hc]. apply sound_typed; [done|destruct Hp; by split_and!|exact Hc].
    + destruct (find_live stack _ _ _ _ Hinv Hk eq_refl Ef) as (Hi & Hnf & _). by eapply process_segment_slots.
Qed.

Lemma process_all_slots m (r : impl E) burst : stack_ok stack → inv m r → slots_sound r → Forall pkt_wf burst →
  slots_sound (foldl (process stack) r burst).
Proof using.
  intros Hcfg Hinv Hs Hb. revert m r Hinv Hs. induction Hb as [|p burst Hp Hb IH]; intros m r Hinv Hs; [done|].
  destruct (process_inv stack m r p Hinv ltac:(apply Hcfg) Hp) as [m' Hinv']. apply (IH m'); [done|by eapply process_slots].
Qed.

Lemma release_slots (r : impl E) i : slots_sound r → slots_sound (release_slot r i).
Proof using.
  intros Hs. destruct (decide (in_table r i)) as [Hi|Hi].
  - apply Forall_insert; [done|]. apply (slot_ok_freed (slot r i)). by apply slots_ok_slot.
  - unfold slots_sound, release_slot. cbn. destruct (decide (Z.to_nat i < length (slots r))%nat) as [Hl|Hl].
    + assert (Hz : slot r i = slot r (Z.of_nat (Z.to_nat i))) by (unfold slot; by rewrite Nat2Z.id).
      apply Forall_insert; [done|]. apply (slot_ok_freed (slot r i)). rewrite Hz. apply slots_ok_slot; [done|]. unfold in_table. lia.
    + by rewrite list_insert_ge by lia.
Qed.

Lemma reap_slots fuel k (r r' : impl E) : slots_sound r → reap_loop fuel k r = Some r' → slots_sound r'.
Proof using.
  revert k r. induction fuel as [|f IH]; intros k r Hs; simpl; [done|].
  case_match; [|by intros [= <-]]. case_match; apply IH; [|done]. by apply (release_slots r).
Qed.

Lemma reaped_slots (r : impl E) : slots_sound r → slots_sound (reap_released r).
Proof using. intros Hs. unfold reap_released. destruct (reap_loop _ _ _) eqn:Er; [|done]. simpl. by eapply reap_slots; [|exact Er]. Qed.

Lemma flush_ack_slots (r : impl E) i : in_table r i → slots_sound r → slots_sound (flush_ack stack r i).
Proof using.
  intros Hi Hs. eapply silent_slots; [by apply flush_ack_silent|]. apply Forall_insert; [done|].
  apply slot_ok_ack. by apply slots_ok_slot.
Qed.

Lemma flush_ack_len (r : impl E) i : in_table r i → length (slots (flush_ack stack r i)) = length (slots r).
Proof using. intros Hi. destruct (flush_ack_silent stack r i Hi) as (-> & _). apply length_insert. Qed.

Lemma flush_acks_slots (r : impl E) l : (∀ i, i ∈ l → in_table r i) → slots_sound r → slots_sound (foldl (flush_ack stack) r l).
Proof using.
  revert r. induction l as [|i l IH]; intros r Hl Hs; [done|]. simpl. pose proof (Hl i ltac:(by left)) as Hi. apply IH.
  - intros j Hj. specialize (Hl j ltac:(by right)). unfold in_table in *. by rewrite flush_ack_len.
  - by apply flush_ack_slots.
Qed.

Lemma finalize_one_slots (r : impl E) i : in_table r i → slots_sound r →
  slots_sound (finalize_one r i) ∧ length (slots (finalize_one r i)) = length (slots r).
Proof using.
  intros Hi Hs. unfold finalize_one. cbv zeta. set (r1 := set_flows _ _).
  assert (H1 : slots_sound r1) by (apply Forall_insert; [done|]; by apply slot_ok_finalize, slots_ok_slot).
  assert (L1 : length (slots r1) = length (slots r)) by apply length_insert.
  case_match; [|done]. split; [by apply release_slots|]. cbn. by rewrite length_insert.
Qed.

Lemma finalize_slots (r : impl E) l : (∀ i, i ∈ l → in_table r i) → slots_sound r → slots_sound (foldl finalize_one r l).
Proof using.
  revert r. induction l as [|i l IH]; intros r Hl Hs; [done|]. simpl. pose proof (Hl i ltac:(by left)) as Hi.
  destruct (finalize_one_slots r i Hi Hs) as [H1 L1]. apply IH; [|done].
  intros j Hj. specialize (Hl j ltac:(by right)). unfold in_table in *. by rewrite L1.
Qed.

Lemma packets_slots m (r : impl E) burst : stack_ok stack → inv m r → quiescent r → slots_sound r → Forall pkt_wf burst →
  slots_sound (after_packets stack r burst).
Proof using.
  intros Hcfg Hinv Hq Hs Hb. assert (Hinv0 : inv m (set_events r [])) by (by eapply inv_quiet; [|exact Hinv]).
  destruct Hq as (Hack & _). destruct (reap_spec stack m (set_events r []) Hinv0 Hack) as (Hr & _).
  exact (process_all_slots m _ burst Hcfg Hr (reaped_slots (set_events r []) Hs) Hb).
Qed.

Lemma poll_slots m (r : impl E) burst : stack_ok stack → inv m r → quiescent r → slots_sound r → Forall pkt_wf burst →
  slots_sound (poll stack txq r burst).2.
Proof using.
  intros Hcfg Hinv Hq Hs Hb. rewrite poll_unfold. cbn [snd]. pose proof (proj2 (ck_n _ Hcfg)) as Hn.
  destruct (after_packets_inv stack m r burst Hinv Hq Hn Hb) as ([m1 H1] & _).
  pose proof (packets_slots m r burst Hcfg Hinv Hq Hs Hb) as S1.
  assert (S2 : slots_sound (after_acks stack r burst)).
  { apply (flush_acks_slots (after_packets stack r burst)); [|done]. intros i Hi.
    eapply inv_table; [done|]. by apply (i_acks _ _ _ H1). }
  pose proof (flush_acks_inv stack m1 _ H1) as H2. fold (after_acks stack r burst) in H2.
  destruct (flush_control_lists txq (after_acks stack r burst)) as [Hsil _].
  apply (inv_quiet stack m1 _ _ (silent_quiet _ _ Hsil)) in H2.
  apply (finalize_slots (flush_control txq (after_acks stack r burst))); [|by eapply silent_slots].
  intros i Hi. eapply inv_table; [done|]. by apply (i_fin _ _ _ H2).
Qed.
End slots_ok.

Arguments slot_sound stack tight c : clear implicits.
Arguments slots_sound {E} stack tight r.
Abbreviation slot_ok stack := (slot_sound stack true).
Abbreviation slots_ok stack := (slots_sound stack true).

(** ** Reachable states *)

Section system.
Context {E : Type} `{DpdkOps E} `{!DpdkLaws E} `{!DpdkAccount E} `{!DpdkWire E}.
Context (stack : tcp_stack) (control_txq data_txq : queue).
Abbreviation n := (max_connections (params_ stack)).
Abbreviation inv := (inv stack).

(** The outbound thread's stores into the shared slots. *)
Definition store (r : impl E) (s : list tcp_connection) (w : E) : impl E := set_env (set_slots r s) w.

(** The application's side of the contract in tcp_stack.h: an id it passes
    to the sender was reported to it, so it is a stale one, which [lookup]
    refuses, or that of a connection and not of a slot that is free. *)
Definition names_connection (r : impl E) (conn : conn_id) : Prop :=
  0 <= cid_slot conn < n ∧ state (slot r (cid_slot conn)) ≠ st_free.
Definition permitted (r : impl E) (conn : conn_id) : Prop :=
  lookup stack (slots r) conn = None ∨ names_connection r conn.

Inductive sys_step (r : impl E) : impl E → Prop :=
  | step_poll burst : Forall pkt_wf burst → Z.of_nat (length burst) <= burst_max_size →
      sys_step r (poll stack control_txq r burst).2
  | step_send conn bytes k s w : permitted r conn →
      send stack data_txq (slots r) conn bytes (env r) = Some (k, s, w) → sys_step r (store r s w)
  | step_close conn s w : permitted r conn →
      close stack data_txq (slots r) conn (env r) = (s, w) → sys_step r (store r s w).

Record sys_inv (r : impl E) : Prop := {
  sy_inv : ∃ m, inv m r; sy_quiet : quiescent r; sy_slots : slots_ok stack r }.

(** The fields of a slot the tables depend on. *)
Definition view (c : tcp_connection) :=
  (peer_ip c, peer_port c, local_port c, state c, ack_pending c, finalize_pending c).

Lemma inv_view m (r r' : impl E) : inv m r → length (slots r') = length (slots r) →
  quiet (set_slots r (slots r')) r' → (∀ j, inr n j → view (slot r' j) = view (slot r j)) → inv m r'.
Proof using.
  intros Hinv Hl Hq Hv. eapply inv_quiet; [exact Hq|]. destruct Hinv. set (r1 := set_slots r (slots r')).
  assert (Hs : ∀ j, inr n j → peer_ip (slot r1 j) = peer_ip (slot r j) ∧ peer_port (slot r1 j) = peer_port (slot r j) ∧
     local_port (slot r1 j) = local_port (slot r j) ∧ state (slot r1 j) = state (slot r j) ∧
     ack_pending (slot r1 j) = ack_pending (slot r j) ∧ finalize_pending (slot r1 j) = finalize_pending (slot r j)).
  { intros j Hj. specialize (Hv j Hj). change (slot r1 j) with (slot r' j). by injection Hv as -> -> -> -> -> ->. }
  split; cbn [r1 set_slots flows neighbors free_slots awaiting_release ack_list finalize_list slots]; try done.
  - by rewrite Hl.
  - intros j Hj. destruct (Hs j Hj) as (E1 & E2 & E3 & -> & _). unfold addr_ok. rewrite E1, E2, E3. by apply i_addr.
  - intros k j Hk. destruct (i_map _ _ Hk) as (Hj & ? & ? & ?). destruct (Hs j Hj) as (E1 & E2 & E3 & -> & _).
    unfold flow_key. by rewrite E1, E2, E3.
  - intros j Hj. destruct (Hs j Hj) as (E1 & E2 & E3 & -> & _). unfold flow_key. rewrite E1, E2, E3. by apply i_live.
  - intros j. rewrite i_free. split; intros [Hj Hst]; (split; [done|]); destruct (Hs j Hj) as (_ & _ & _ & E4 & _); congruence.
  - intros j Hin. destruct (i_await j Hin) as (Hj & ? & ?). destruct (Hs j Hj) as (_ & _ & _ & -> & _ & ->). done.
  - intros j Hin. destruct (i_acks j Hin) as (Hj & Hd). destruct (Hs j Hj) as (_ & _ & _ & -> & -> & _). done.
  - intros j Hj. destruct (Hs j Hj) as (_ & _ & _ & _ & -> & _). by apply i_ackp.
  - intros j. rewrite i_fin. split; intros [Hj Hst]; (split; [done|]); destruct (Hs j Hj) as (_ & _ & _ & _ & _ & E6); congruence.
  - intros j Hj. destruct (Hs j Hj) as (_ & _ & _ & -> & _ & ->). by apply i_finp.
  - intros j Hj. destruct (Hs j Hj) as (_ & _ & _ & -> & _). by apply i_closed.
Qed.

(** A store of a connection that differs only in what the sender owns. *)
Lemma sys_store (r : impl E) i c w : sys_inv r → inr n i → view c = view (slot r i) → slot_ok stack c →
  sys_inv (store r (put_conn (slots r) i c) w).
Proof using.
  intros [[m Hinv] Hq Hs] Hi Hv Hc. split; [exists m|done|by apply Forall_insert].
  apply (inv_view m r); [done|apply length_insert|done|].
  intros j Hj. change (slot (store r (put_conn (slots r) i c) w) j) with (slot (put_slot r i c) j).
  rewrite (slot_put stack) by (done || apply (i_len _ _ _ Hinv)). by case_decide; [subst j|].
Qed.

Lemma sys_conn (r : impl E) conn : sys_inv r → names_connection r conn →
  in_table r (cid_slot conn) ∧ conn_ok stack (slot r (cid_slot conn)).
Proof using.
  intros [[m Hinv] _ Hs] [Hi Hnf]. pose proof (inv_table stack m r _ Hinv Hi) as Ht. split; [done|].
  destruct (slots_ok_slot stack r _ Hs Ht) as [_ [?|?]]; done.
Qed.

(** The parameters [send_spec] needs, from the invariant. *)
Lemma send_ready (r : impl E) conn : stack_ok stack → sys_inv r → names_connection r conn →
  ∀ c, c = conn_at (slots r) (cid_slot conn) → sendable stack (slots r) conn = true →
  mac_ok (peer_mac c) ∧ 1 <= send_mss c ∧ 54 + send_mss c < 2 ^ 16 ∧ is_u32 (snd_nxt c).
Proof using.
  intros Hcfg Hsys Hn c -> _. destruct (sys_conn r conn Hsys Hn) as [_ [[] _]]. destruct Hcfg.
  change (conn_at (slots r) (cid_slot conn)) with (slot r (cid_slot conn)). split_and!; [done|lia|lia|done].
Qed.

(** A call that changes nothing but the environment. *)
Lemma sys_nop (r : impl E) w : sys_inv r → sys_inv (store r (slots r) w).
Proof using. intros [[m Hinv] Hq Hs]. split; [exists m; by eapply inv_quiet; [|exact Hinv]|done|done]. Qed.

Abbreviation on_wire w := (wire (q_port data_txq) (q_id data_txq) w).

Lemma lookup_none_send (r : impl E) conn bytes : lookup stack (slots r) conn = None →
  sendable stack (slots r) conn = false ∧ send stack data_txq (slots r) conn bytes (env r) = Some (0, slots r, env r).
Proof using. intros Hno. unfold send, sendable. rewrite Hno. by rewrite orb_true_r. Qed.

(** [send] and [close] on a state that satisfies the invariant. *)
Lemma sys_send_spec (r : impl E) conn bytes : stack_ok stack → sys_inv r → permitted r conn →
  let c := slot r (cid_slot conn) in
  ∃ segs k w', send stack data_txq (slots r) conn bytes (env r) =
      Some (k, if sendable stack (slots r) conn then put_conn (slots r) (cid_slot conn) (set_snd_nxt c (u32 (snd_nxt c + k)))
               else slots r, w') ∧
    (sendable stack (slots r) conn = false → k = 0) ∧
    carries stack (send_mss c) (conn_addr stack c) (snd_nxt c) (rcv_nxt c) bytes
      (Z.min (Z.of_nat (length bytes)) (window_space (send_window c) (snd_nxt c))) 0 segs k ∧
    on_wire w' = on_wire (env r) ++ segs.*1 ∧ held w' = held (env r).
Proof using DpdkLaws0 DpdkAccount0 DpdkWire0.
  intros Hcfg Hsys [Hno|Hn] c.
  { destruct (lookup_none_send r conn bytes Hno) as [-> ->]. exists [], 0, (env r).
    split_and!; [done|done|constructor|by rewrite app_nil_r|done]. }
  pose proof Hsys as [[m Hinv] _ _].
  apply (send_spec stack data_txq (slots r) conn bytes (env r)); [apply (i_len _ _ _ Hinv)|apply Hn|apply Hcfg|by apply send_ready].
Qed.

Lemma sys_close_spec (r : impl E) conn : stack_ok stack → sys_inv r → permitted r conn →
  let c := slot r (cid_slot conn) in
  ∃ out w', close stack data_txq (slots r) conn (env r) =
      (match lookup stack (slots r) conn with Some i => put_conn (slots r) i (closed_by_us c) | None => slots r end, w') ∧
    on_wire w' = on_wire (env r) ++ out ∧ held w' = held (env r) ∧
    (out = [] ∨ lookup stack (slots r) conn = Some (cid_slot conn) ∧ flag (out_flags c) out_fin_sent = false ∧
                terminated c = 0 ∧ ∃ m, out = [m] ∧ m_data m = fin_frame stack c (snd_nxt c)).
Proof using DpdkLaws0 DpdkAccount0 DpdkWire0.
  intros Hcfg Hsys Hp c. destruct (lookup stack (slots r) conn) as [i|] eqn:El.
  2: { exists [], (env r). unfold close. rewrite El, app_nil_r. split_and!; [done|done|done|by left]. }
  destruct Hp as [Hno|Hn]; [congruence|]. destruct (sys_conn r conn Hsys Hn) as [_ [Hwk _]].
  assert (i = cid_slot conn) as -> by (unfold lookup in El; repeat case_match; congruence).
  destruct (close_spec stack data_txq (slots r) conn (env r) _ El) as (out & w' & Hr & Hw & Hh & Ho);
    [apply Hcfg|apply Hwk|apply Hwk|]. exists out, w'. split_and!; [exact Hr|done|done|]. destruct Ho as [?|(? & ? & ?)]; [by left|right; done].
Qed.

Lemma sys_send (r : impl E) conn bytes k s w : stack_ok stack → sys_inv r → permitted r conn →
  send stack data_txq (slots r) conn bytes (env r) = Some (k, s, w) → sys_inv (store r s w).
Proof using DpdkLaws0 DpdkAccount0 DpdkWire0.
  intros Hcfg Hsys Hp Hs. destruct (sys_send_spec r conn bytes Hcfg Hsys Hp) as (segs & d & w' & Hr & _ & Hcar & _).
  rewrite Hr in Hs. injection Hs as <- <- <-. destruct (carries_le _ _ _ _ _ _ _ _ _ _ Hcar) as [Hd1 Hd2].
  destruct (sendable stack (slots r) conn) eqn:Es; [|by apply sys_nop].
  destruct Hp as [Hno|Hn]; [by destruct (lookup_none_send r conn bytes Hno); congruence|].
  destruct (sys_conn r conn Hsys Hn) as [Ht Hc]. pose proof Hsys as [_ _ Hsl].
  apply sys_store; [done|apply Hn|done|].
  destruct (slots_ok_slot stack r _ Hsl Ht) as [Hg _]. split; [apply typed_sent; [apply u32_range|done]|right]. apply ok_sent; [done| |].
  - unfold sendable in Es. destruct (lookup _ _ _) as [i|] eqn:El; [|done].
    assert (i = cid_slot conn) as -> by (unfold lookup in El; repeat case_match; congruence).
    apply andb_prop in Es as [Es _]. by apply negb_true_iff in Es.
  - pose proof (window_space_range (send_window (slot r (cid_slot conn))) (snd_nxt (slot r (cid_slot conn)))). lia.
Qed.

Lemma sys_close (r : impl E) conn s w : stack_ok stack → sys_inv r → permitted r conn →
  close stack data_txq (slots r) conn (env r) = (s, w) → sys_inv (store r s w).
Proof using DpdkLaws0 DpdkAccount0 DpdkWire0.
  intros Hcfg Hsys Hp Hs. destruct (sys_close_spec r conn Hcfg Hsys Hp) as (out & w' & Hr & _).
  rewrite Hr in Hs. injection Hs as <- <-. destruct (lookup stack (slots r) conn) as [i|] eqn:El; [|by apply sys_nop].
  destruct Hp as [Hno|Hn]; [congruence|]. destruct (sys_conn r conn Hsys Hn) as [Ht Hc]. pose proof Hsys as [_ _ Hsl].
  assert (i = cid_slot conn) as -> by (unfold lookup in El; repeat case_match; congruence).
  destruct (slots_ok_slot stack r _ Hsl Ht) as [Hg _].
  assert (Hv : view (closed_by_us (slot r (cid_slot conn))) = view (slot r (cid_slot conn)) ∧
               generation (closed_by_us (slot r (cid_slot conn))) = generation (slot r (cid_slot conn)))
    by (unfold closed_by_us; by case_match).
  apply sys_store; [done|apply Hn|apply Hv|]. 
  assert (Hok : conn_sound stack true (closed_by_us (slot r (cid_slot conn)))) by (by apply ok_closed_by_us).
  split; [|by right]. apply (sound_typed (tight := true) stack); [done| |done]. destruct Hv as [[= -> -> -> _ _ _] _]. apply (ty_addr _ Hg).
Qed.

Lemma sys_step_inv r r' : stack_ok stack → sys_inv r → sys_step r r' → sys_inv r'.
Proof using All.
  intros Hcfg Hsys Hstep. destruct Hstep as [burst Hb _|conn bytes k s w Hn Hs|conn s w Hn Hs];
    [|by eapply sys_send|by eapply sys_close].
  destruct Hsys as [[m Hinv] Hq Hsl].
  destruct (poll_inv stack control_txq m r burst Hinv Hq (proj2 (ck_n _ Hcfg)) Hb) as (m' & Hi' & Hq').
  split; [by exists m'|done|by eapply poll_slots].
Qed.

Lemma sys_new conns (w : E) : stack_ok stack → conns = replicate (Z.to_nat n) new_connection →
  sys_inv (impl_new stack conns w).
Proof using.
  intros Hcfg ->. pose proof (ck_n _ Hcfg) as Hn. 
  assert (Hslot : ∀ i, inr n i → slot (impl_new stack (replicate (Z.to_nat n) new_connection) w) i = new_connection).
  { intros i Hi. apply lookup_total_replicate_2. unfold inr in Hi. lia. }
  split; [exists ∅|done|].
  - split; cbn [impl_new slots flows neighbors free_slots awaiting_release ack_list finalize_list]; try apply NoDup_nil_2.
    + rewrite length_replicate. lia.
    + apply flow_table.make_spec. lia.
    + eexists. apply neighbor_table.neigh_make_spec. unfold default_neighbors. lia.
    + intros i Hi. by rewrite Hslot.
    + intros k i. by rewrite lookup_empty.
    + intros i Hi. by rewrite Hslot.
    + intros i. rewrite list_elem_of_fmap. split.
      * intros (k & -> & Hk%elem_of_seq). assert (Hi : inr n (Z.of_nat k)) by (unfold inr; lia). by rewrite Hslot.
      * intros [Hi _]. unfold inr in Hi. exists (Z.to_nat i). split; [lia|]. apply elem_of_seq. lia.
    + apply NoDup_fmap_2; [intros ? ?; lia|apply NoDup_seq].
    + intros i Hi. by apply not_elem_of_nil in Hi.
    + rewrite map_size_empty, length_fmap, length_seq. simpl. lia.
    + intros i Hi. by apply not_elem_of_nil in Hi.
    + intros i Hi. by rewrite Hslot.
    + intros i. split; [intros Hi; by apply not_elem_of_nil in Hi|]. intros [Hi Hp]. by rewrite Hslot in Hp.
    + intros i Hi. by rewrite Hslot.
    + intros i Hi. by rewrite Hslot.
  - apply Forall_replicate. split; [apply typed_new|by left].
Qed.

(** Between the calls the environment moves on by itself: packets arrive, the
    application receives and frees bursts, drivers give buffers back. *)
Inductive world_step (r : impl E) : impl E → Prop :=
  | ws_call r' : sys_step r r' → world_step r r'
  | ws_env w : world_step r (set_env r w).

(** The states the two threads can bring a new stack into, one whole call at a
    time; calls that overlap access by access are in TcpThreads.v and TcpFine.v. *)
Definition reachable (r : impl E) : Prop :=
  ∃ w, rtc world_step (impl_new stack (replicate (Z.to_nat n) new_connection) w) r.

Lemma world_step_inv r r' : stack_ok stack → sys_inv r → world_step r r' → sys_inv r'.
Proof using All. intros Hcfg Hs [r1 Hstep|w]; [by eapply sys_step_inv|by apply (sys_nop r)]. Qed.

Lemma reachable_sys r : stack_ok stack → reachable r → sys_inv r.
Proof using All.
  intros Hcfg [w Hr]. pose proof (sys_new _ w Hcfg eq_refl) as H0. revert H0.
  induction Hr as [|r1 r2 r3 Hs _ IH]; [done|]. intros H1. apply IH. by eapply world_step_inv.
Qed.

Lemma reachable_step r r' : reachable r → world_step r r' → reachable r'.
Proof using. intros [w Hr] Hs. exists w. by eapply rtc_r. Qed.
End system.
