(* ===== verification/TcpSetup.v ===== *)
(** * Setting a stack up

    The constructor with all its refusals, the listening set, the two handles,
    and what a stack that has just been built does with an id nobody gave out. *)

From S2P Require Import Prelude Dpdk DpdkSim Packet Segment SegmentWire SeqArith TcpState TcpReceiver TcpSender TcpLive TcpSystem Scenario.

Lemma tcp_stack_new_spec pool mac ip mtu params : mac_ok mac →
  is_u16 (max_connections params) → is_u16 (p_mss params) → 41 <= default RTE_ETHER_MTU mtu <= 65521 →
  match tcp_stack_new pool mac ip mtu params with
  | inl e => ip = None ∧ e = no_ipv4_address ∨
             ip ≠ None ∧ max_connections params = 0 ∧ e = no_connection_slots ∨
             ip ≠ None ∧ max_connections params ≠ 0 ∧ p_mss params = 0 ∧ e = zero_mss
  | inr (s, conns) =>
      stack_ok s ∧ ip = Some (local_ip_ s) ∧ params_ s = params ∧ mss_ s = Z.min (p_mss params) (default RTE_ETHER_MTU mtu - 40) ∧
      listening_ s = [] ∧ receiver_taken_ s = false ∧ sender_taken_ s = false ∧
      conns = replicate (Z.to_nat (max_connections params)) new_connection
  end.
Proof.
  intros Hmac Hn Hm Hmtu. unfold tcp_stack_new. destruct ip as [a|]; [|by left].
  destruct (Z.eqb_spec (max_connections params) 0) as [E0|E0]; [right; by left|].
  set (t := default RTE_ETHER_MTU mtu) in *. clearbody t.
  change (Z.of_nat sizeof_ipv4_hdr) with 20. change (Z.of_nat sizeof_tcp_hdr) with 20.
  replace (t - 20 - 20) with (t - 40) by lia. rewrite u16_id by mlia. unfold is_u16 in *.
  destruct (Z.eqb_spec (Z.min (p_mss params) (t - 40)) 0) as [E1|E1]; [right; right; split_and!; try done; lia|].
  split_and!; try done. split; cbn; try done; lia.
Qed.

(** C32. The constructor refuses exactly a port without an address, an empty
    connection table and a zero MSS, in that order; otherwise it yields a stack
    that satisfies everything the other theorems assume, with the MSS clamped
    to the MTU less the two headers, no listener, both handles still to be
    taken, and all slots fresh.  (For MTUs the 16-bit subtraction and the frame
    length can express.) *)
Theorem tcp_stack_new_correct pool mac ip mtu params : mac_ok mac →
  is_u16 (max_connections params) → is_u16 (p_mss params) → 41 <= default RTE_ETHER_MTU mtu <= 65521 →
  match tcp_stack_new pool mac ip mtu params with
  | inl e => ip = None ∧ e = no_ipv4_address ∨
             ip ≠ None ∧ max_connections params = 0 ∧ e = no_connection_slots ∨
             ip ≠ None ∧ max_connections params ≠ 0 ∧ p_mss params = 0 ∧ e = zero_mss
  | inr (s, conns) =>
      stack_ok s ∧ ip = Some (local_ip_ s) ∧ params_ s = params ∧ mss_ s = Z.min (p_mss params) (default RTE_ETHER_MTU mtu - 40) ∧
      listening_ s = [] ∧ receiver_taken_ s = false ∧ sender_taken_ s = false ∧
      conns = replicate (Z.to_nat (max_connections params)) new_connection
  end.
Proof. apply tcp_stack_new_spec. Qed.

Lemma tcp_stack_new_correct_witness :
  tcp_stack_new 0 [2; 0; 0; 0; 0; 1] (Some 0x0a000001) (Some 1500) demo.params =
    inr (Stack 0 [2; 0; 0; 0; 0; 1] 0x0a000001 1460 demo.params [] false false, replicate 2 new_connection) ∧
  stack_ok (Stack 0 [2; 0; 0; 0; 0; 1] 0x0a000001 1460 demo.params [] false false).
Proof.
  split; [reflexivity|].
  pose proof (tcp_stack_new_correct 0 [2; 0; 0; 0; 0; 1] (Some 0x0a000001) (Some 1500) demo.params) as Hx.
  apply Hx; [|split; [discriminate|reflexivity]..|split; discriminate].
  split; [reflexivity|]. repeat constructor; unfold is_u8; lia.
Defined.

(** ** Set-up calls *)

Inductive setup_op := Listen (port : Z) | Receiver (q : option queue) | Sender (q : option queue).
#[export] Instance queue_eq_dec : EqDecision queue.
Proof. solve_decision. Defined.
#[export] Instance setup_op_eq_dec : EqDecision setup_op.
Proof. solve_decision. Defined.

Definition setup (s : tcp_stack) (op : setup_op) : dpdk_error + tcp_stack :=
  match op with
  | Listen p => listen s p
  | Receiver q => match take_receiver s q with inl e => inl e | inr (s, _) => inr s end
  | Sender q => match take_sender s q with inl e => inl e | inr (s, _) => inr s end
  end.

(** A call that throws leaves the stack alone; the trace says which did not. *)
Fixpoint setup_all (s : tcp_stack) (ops : list setup_op) : tcp_stack * list (setup_op * bool) :=
  match ops with
  | [] => (s, [])
  | op :: ops =>
    match setup s op with
    | inl _ => let '(s', tr) := setup_all s ops in (s', (op, false) :: tr)
    | inr s1 => let '(s', tr) := setup_all s1 ops in (s', (op, true) :: tr)
    end
  end.

Definition took_receiver (x : setup_op * bool) : Prop := match x with (Receiver _, true) => True | _ => False end.
Definition took_sender (x : setup_op * bool) : Prop := match x with (Sender _, true) => True | _ => False end.
#[export] Instance took_receiver_dec x : Decision (took_receiver x).
Proof. destruct x as [[] []]; simpl; apply _. Defined.
#[export] Instance took_sender_dec x : Decision (took_sender x).
Proof. destruct x as [[] []]; simpl; apply _. Defined.

Lemma listen_set_contains_spec ports p : listen_set_contains ports p = true ↔ p ∈ ports.
Proof.
  unfold listen_set_contains. rewrite existsb_exists. split.
  - intros (x & Hin & ->%Z.eqb_eq). by apply list_elem_of_In.
  - intros Hin. exists p. split; [by apply list_elem_of_In|apply Z.eqb_refl].
Qed.

(** One successful call. *)
Lemma setup_ok s op s' : setup s op = inr s' → NoDup (listening_ s) → Z.of_nat (length (listening_ s)) <= max_ports →
  NoDup (listening_ s') ∧ Z.of_nat (length (listening_ s')) <= max_ports ∧
  (∀ p, p ∈ listening_ s' ↔ p ∈ listening_ s ∨ op = Listen p) ∧
  receiver_taken_ s' = (if decide (took_receiver (op, true)) then true else receiver_taken_ s) ∧
  sender_taken_ s' = (if decide (took_sender (op, true)) then true else sender_taken_ s) ∧
  (took_receiver (op, true) → receiver_taken_ s = false) ∧ (took_sender (op, true) → sender_taken_ s = false).
Proof.
  intros Hs Hnd Hlen. destruct op as [q|q|q]; simpl in *.
  - unfold listen in Hs. destruct (listen_set_contains (listening_ s) q) eqn:Ec.
    + injection Hs as <-. apply listen_set_contains_spec in Ec. split_and!; try done. intros p. split; [by left|]. by intros [|[= <-]].
    + destruct (Z.eqb_spec (Z.of_nat (length (listening_ s))) max_ports); [done|]. injection Hs as <-. cbn.
      assert (q ∉ listening_ s) by (rewrite <- listen_set_contains_spec, Ec; done). split_and!; try done.
      * apply NoDup_app. split_and!; [done| |apply NoDup_singleton]. intros x Hx ->%list_elem_of_singleton. done.
      * rewrite length_app. simpl. lia.
      * intros p. rewrite elem_of_app, list_elem_of_singleton. naive_solver.
  - unfold take_receiver in Hs. destruct (receiver_taken_ s); [done|]. destruct q; [|done]. injection Hs as <-. cbn. split_and!; try done. naive_solver.
  - unfold take_sender in Hs. destruct (sender_taken_ s); [done|]. destruct q; [|done]. injection Hs as <-. cbn. split_and!; try done. naive_solver.
Qed.

Lemma setup_refused s p e : setup s (Listen p) = inl e → Z.of_nat (length (listening_ s)) = max_ports.
Proof. simpl. unfold listen. case_match; [done|]. case_match; [|done]. intros _. by apply Z.eqb_eq. Qed.

Lemma setup_keeps s op s' : setup s op = inr s' → Z.of_nat (length (listening_ s)) = max_ports → listening_ s' = listening_ s.
Proof.
  intros Hs Hl. destruct op as [q|q|q]; simpl in Hs.
  - unfold listen in Hs. case_match; [by injection Hs as <-|]. rewrite (proj2 (Z.eqb_eq _ _) Hl) in Hs. done.
  - unfold take_receiver in Hs. repeat case_match; simplify_eq; done.
  - unfold take_sender in Hs. repeat case_match; simplify_eq; done.
Qed.

Lemma setup_full s ops : Z.of_nat (length (listening_ s)) = max_ports → listening_ (setup_all s ops).1 = listening_ s.
Proof.
  revert s. induction ops as [|op ops IH]; intros s Hl; [done|]. simpl. destruct (setup s op) as [e|s1] eqn:Es.
  - specialize (IH s Hl). by destruct (setup_all s ops).
  - pose proof (setup_keeps s op s1 Es Hl) as Hk. specialize (IH s1 ltac:(by rewrite Hk)). destruct (setup_all s1 ops). simpl in *. congruence.
Qed.

(** Any sequence of set-up calls, refused ones included: the stack
    listens on exactly the ports whose [listen] succeeded, each once and at most
    16; a [listen] is refused only when 16 ports are taken; and however often
    they are asked for, at most one receiver and one sender are handed out. *)
Theorem setup_calls_correct s ops : NoDup (listening_ s) → Z.of_nat (length (listening_ s)) <= max_ports →
  let '(s', tr) := setup_all s ops in
  NoDup (listening_ s') ∧ Z.of_nat (length (listening_ s')) <= max_ports ∧
  (∀ p, p ∈ listening_ s' ↔ p ∈ listening_ s ∨ (Listen p, true) ∈ tr) ∧
  (∀ p, (Listen p, false) ∈ tr → Z.of_nat (length (listening_ s')) = max_ports) ∧
  (length (filter took_receiver tr) <= if receiver_taken_ s then 0 else 1)%nat ∧
  (length (filter took_sender tr) <= if sender_taken_ s then 0 else 1)%nat.
Proof.
  revert s. induction ops as [|op ops IH]; intros s Hnd Hlen.
  { simpl. split_and!; try done; [|by intros p Hx%not_elem_of_nil|lia|lia]. intros p. split; [by left|]. by intros [|Hx%not_elem_of_nil]. }
  cbn [setup_all]. destruct (setup s op) as [e|s1] eqn:Es.
  - specialize (IH s Hnd Hlen). pose proof (setup_full s ops) as Hfull. destruct (setup_all s ops) as [s' tr].
    destruct IH as (I1 & I2 & I3 & I4 & I5 & I6). split_and!; try done.
    + intros p. rewrite I3, elem_of_cons. naive_solver.
    + intros p [[= <-]|Hin]%elem_of_cons; [|by eapply I4]. pose proof (setup_refused _ _ _ Es) as Hr. specialize (Hfull Hr). simpl in Hfull. by rewrite Hfull.
    + rewrite filter_cons_False; [done|]. destruct op; intros [].
    + rewrite filter_cons_False; [done|]. destruct op; intros [].
  - destruct (setup_ok s op s1 Es Hnd Hlen) as (N1 & L1 & M1 & R1 & S1 & R0 & S0). specialize (IH s1 N1 L1).
    destruct (setup_all s1 ops) as [s' tr]. destruct IH as (I1 & I2 & I3 & I4 & I5 & I6). split_and!; try done.
    + intros p. rewrite I3, M1, elem_of_cons. naive_solver.
    + intros p [[= <-]|Hin]%elem_of_cons. by eapply I4.
    + rewrite R1 in I5. rewrite filter_cons. destruct (decide (took_receiver (op, true))) as [Ht|]; [|done]. rewrite (R0 Ht). simpl. lia.
    + rewrite S1 in I6. rewrite filter_cons. destruct (decide (took_sender (op, true))) as [Ht|]; [|done]. rewrite (S0 Ht). simpl. lia.
Qed.

(** Two listens, a null queue, and the receiver asked for twice. *)
Lemma setup_calls_correct_witness :
  let ops := [Listen 80; Listen 80; Receiver None; Receiver (Some demo.control_txq); Receiver (Some demo.data_txq)] in
  let s := Stack 0 [] 0 1460 demo.params [] false false in
  listening_ (setup_all s ops).1 = [80] ∧ (length (filter took_receiver (setup_all s ops).2) <= 1)%nat.
Proof.
  intros ops s. split; [reflexivity|]. pose proof (setup_calls_correct s ops) as Hx.
  destruct (setup_all s ops) as [s' tr]. apply Hx; [constructor|discriminate].
Defined.

(** ** An id nobody gave out *)

Section null_id.
Context {E : Type} `{DpdkOps E} `{!DpdkLaws E} `{!DpdkAccount E} `{!DpdkWire E}.
Context (stack : tcp_stack) (data_txq : queue).

Definition null_id : conn_id := {| cid_slot := 0; cid_generation := 0 |}.

(** A value-initialized [conn_id] is valid on a new stack: slot 0
    has never been used, its generation is the 0 it was constructed with, so
    [lookup] accepts the id, [sendable] answers true, and [close] sends a FIN
    from port 0 to 0.0.0.0:0. *)
Theorem value_initialized_id_is_valid (w : E) : stack_ok stack →
  let conns := replicate (Z.to_nat (max_connections (params_ stack))) new_connection in
  lookup stack conns null_id = Some 0 ∧ sendable stack conns null_id = true ∧
  ∀ ready, means stack data_txq ready → ready 1%nat w →
    ∃ m, wire (q_port data_txq) (q_id data_txq) (close stack data_txq conns null_id w).2 =
           wire (q_port data_txq) (q_id data_txq) w ++ [m] ∧
         m_data m = frame {| src_mac := local_mac_ stack; dst_mac := [0; 0; 0; 0; 0; 0]; src_ip := local_ip_ stack; dst_ip := 0;
                             src_port := 0; dst_port := 0 |} 0 0 (Z.lor RTE_TCP_FIN_FLAG RTE_TCP_ACK_FLAG)
                      (receive_window (params_ stack)) [] 0.
Proof using All.
  intros Hcfg conns. pose proof (ck_n _ Hcfg) as Hn.
  assert (Hc : conn_at conns 0 = new_connection) by (apply lookup_total_replicate_2; simpl; lia).
  assert (El : lookup stack conns null_id = Some 0).
  { unfold lookup. cbn [null_id cid_slot cid_generation]. rewrite Hc. rewrite (proj2 (Z.leb_gt _ _)) by lia. reflexivity. }
  split; [done|]. split; [unfold sendable; by rewrite El, Hc|]. intros ready Hm Hr.
  destruct (close_sends_fin stack data_txq ready Hm 0 conns null_id 0 w El) as (m & Hw & Hd); rewrite ?Hc in *; try done;
    [apply Hcfg|split; [done|]; apply Forall_replicate; unfold is_u8; lia|pose proof (ck_mss _ Hcfg); lia|]. by exists m.
Qed.
End null_id.

Section null_run.
#[local] Existing Instances sim.ops sim.laws sim.account sim.wires.

Lemma demo_ok : stack_ok demo.stack.
Proof. split; cbn; [lia|lia|lia|]. split; [reflexivity|]. repeat constructor; unfold is_u8; lia. Qed.

Lemma value_initialized_id_is_valid_witness :
  sendable demo.stack demo.conns null_id = true ∧
  ∃ m, wire 0 1 (close demo.stack demo.data_txq demo.conns null_id (sim.start 64 2048)).2 = [m].
Proof.
  destruct (value_initialized_id_is_valid demo.stack demo.data_txq (sim.start 64 2048) demo_ok) as (_ & Hs & Hf).
  split; [exact Hs|]. destruct (Hf sim_ready) as (m & Hw & _); [apply sim_means; cbn; lia|split; cbn; [lia|split; [reflexivity|lia]]|].
  exists m. exact Hw.
Defined.
End null_run.
