(* ===== verification/TcpStream.v ===== *)
(** * In-order delivery of the peer's byte stream

    The peer sends a stream [S] of bytes, cut into segments, which may arrive
    duplicated, reordered, overlapping or not at all.  [stream_inv S c pos]
    says that the connection has delivered exactly the first [pos] bytes; a
    segment of the stream moves [pos] forward and yields the bytes in between,
    nothing else.  The second half lifts this from one connection to [poll]:
    whatever other flows are interleaved in a burst, a connection sees exactly
    its own segments, in arrival order. *)

From S2P Require Import Prelude Probing FlowTable Dpdk DpdkSim Packet Segment SegmentWire SeqArith Arp TcpState TcpReceiver.
From S2P Require Import TcpConn TcpDiagram TcpInv TcpPoll TcpSender TcpValues TcpSystem.

(** The payload a list of events delivers. *)
Definition data_of (evs : list happening) : list Z := concat (omap (λ h, if decide (h.1 = ev_data) then Some h.2 else None) evs).

Lemma data_of_app a b : data_of (a ++ b) = data_of a ++ data_of b.
Proof. unfold data_of. by rewrite omap_app, concat_app. Qed.

Lemma data_of_one d : data_of [(ev_data, d)] = d.
Proof. unfold data_of. simpl. apply app_nil_r. Qed.

(** The peer has finished: one of these is reported. *)
Definition ends (evs : list happening) : Prop := Exists (λ h, h.1 = ev_peer_closed ∨ h.1 = ev_closed) evs.

Lemma no_ends : ¬ ends [].
Proof. intros Hx. by apply Exists_nil in Hx. Qed.

(** A segment that carries [S[off, off + len)], with FIN only at the end. *)
Record peer_seg (S : list Z) (isn : Z) (seg : segment) (off : Z) : Prop := {
  ps_seq : seg_seq seg = u32 (isn + 1 + off);
  ps_off : 0 <= off; ps_len : 0 <= seg_len seg; ps_end : off + seg_len seg <= Z.of_nat (length S);
  ps_pay : seg_payload seg = sub S (Z.to_nat off) (Z.to_nat (seg_len seg));
  ps_fin : has seg RTE_TCP_FIN_FLAG = true → off + seg_len seg = Z.of_nat (length S) }.

Definition receiving (s : tcp_state) : Prop :=
  s = st_syn_received ∨ s = st_established ∨ s = st_fin_wait_1 ∨ s = st_fin_wait_2.
Definition drained (s : tcp_state) : Prop := s = st_close_wait ∨ s = st_last_ack ∨ s = st_closing.

Record stream_inv (S : list Z) (c : tcp_connection) (pos : Z) : Prop := {
  si_pos : 0 <= pos <= Z.of_nat (length S);
  si_rcv : receiving (state c) → rcv_nxt_local c = u32 (irs c + 1 + pos);
  si_end : drained (state c) → pos = Z.of_nat (length S) }.

Lemma sub_sub (S : list Z) (off len pos : Z) : 0 <= off <= pos → pos <= off + len → off + len <= Z.of_nat (length S) →
  sub (sub S (Z.to_nat off) (Z.to_nat len)) (Z.to_nat (pos - off)) (Z.to_nat (len - (pos - off))) =
  sub S (Z.to_nat pos) (Z.to_nat (off + len - pos)).
Proof.
  intros H1 H2 H3. unfold sub. rewrite skipn_firstn_comm, take_take, drop_drop. f_equal; [lia|]. f_equal. lia.
Qed.

Lemma sub_nil (S : list Z) n : sub S n 0 = [].
Proof. done. Qed.

Section conn_stream.
Context (stack : tcp_stack).

(** What a step does to a stream at [pos]. *)
Definition delivers (S : list Z) (c : tcp_connection) (pos : Z) (p : tcp_connection * list happening) : Prop :=
  ∃ pos', pos <= pos' ∧ stream_inv S p.1 pos' ∧ irs p.1 = irs c ∧
    data_of p.2 = sub S (Z.to_nat pos) (Z.to_nat (pos' - pos)) ∧
    (ends p.2 → pos' = Z.of_nat (length S)).

(** Nothing delivered, the receive side untouched. *)
Lemma delivers_nothing S c pos c' evs : stream_inv S c pos → irs c' = irs c → rcv_nxt_local c' = rcv_nxt_local c →
  (receiving (state c') → receiving (state c)) → (drained (state c') → drained (state c)) →
  data_of evs = [] → (ends evs → drained (state c)) → delivers S c pos (c', evs).
Proof using.
  intros [Hp Hr He] Hi Hn H1 H2 Hd Hends. exists pos. cbn [fst snd]. rewrite Hd, Hi, Z.sub_diag. split_and!; [lia| |done|done|auto].
  split; [done| |auto]. intros Hs. rewrite Hn, Hi. auto.
Qed.

Lemma seq_gt_off isn x y : - 2 ^ 31 < x - y < 2 ^ 31 → seq_gt (u32 (isn + 1 + x)) (u32 (isn + 1 + y)) = (y <? x).
Proof using. intros Hd. rewrite seq_gt_pos by lia. lia. Qed.

Lemma fin_step_stream S c pos : stream_inv S c pos → pos = Z.of_nat (length S) →
  state c = st_established ∨ state c = st_fin_wait_1 ∨ state c = st_fin_wait_2 →
  let c1 := set_rcv_nxt_local c (u32 (rcv_nxt_local c + 1)) in
  irs (fin_step c1).1 = irs c ∧ data_of (fin_step c1).2 = [] ∧
  stream_inv S (set_rcv_nxt (fin_step c1).1 (rcv_nxt_local (fin_step c1).1)) pos.
Proof using.
  intros [Hp Hr He] Hpos Hst c1. unfold fin_step. cbn.
  destruct Hst as [Es|[Es|Es]]; rewrite Es; cbn; (split_and!; [done|done|]); (split; cbn; [done| |done]);
    intros [?|[?|[?|?]]]; done.
Qed.

Lemma data_delivers S c pos seg off : stream_inv S c pos → peer_seg S (irs c) seg off →
  Z.of_nat (length S) < 2 ^ 31 - 1 → delivers S c pos (conn_data c seg).
Proof using.
  intros Hinv Hseg HS. pose proof Hinv as [Hp Hr He]. destruct Hseg as [Eseq Hoff Hl Hend Epay Hfin].
  unfold conn_data. cbv zeta.
  case_bool_decide as Hst; cbn [negb].
  2: { destruct (_ || _); (apply delivers_nothing; [done..|by intros ?%no_ends]). }
  destruct (_ && negb _); [apply delivers_nothing; [done..|by intros ?%no_ends]|].
  assert (Hrcv : rcv_nxt_local c = u32 (irs c + 1 + pos)) by (apply Hr; unfold receiving; tauto).
  rewrite Eseq, Hrcv, seq_gt_off by lia.
  destruct (Z.ltb_spec pos off) as [Hgap|Hgap]; [apply delivers_nothing; [done..|by intros ?%no_ends]|].
  rewrite u32_add_l. replace (irs c + 1 + off + seg_len seg) with (irs c + 1 + (off + seg_len seg)) by lia.
  rewrite seq_gt_off by lia. set (e := off + seg_len seg) in *.
  assert (Hskip : u32 (u32 (irs c + 1 + pos) - u32 (irs c + 1 + off)) = pos - off) by (rewrite u32_sub_l, u32_sub_r; mlia).
  rewrite Hskip.
  (* the position after the payload *)
  set (pos' := Z.max pos e).
  set (p := if pos <? e then _ else _).
  assert (H1 : stream_inv S p.1 pos' ∧ irs p.1 = irs c ∧ state p.1 = state c ∧ rcv_nxt_local p.1 = u32 (irs c + 1 + pos') ∧
               data_of p.2 = sub S (Z.to_nat pos) (Z.to_nat (pos' - pos)) ∧ ¬ ends p.2).
  { subst p pos'. destruct (Z.ltb_spec pos e) as [Hlt|Hge]; cbn [fst snd].
    - rewrite Z.max_r by lia. split_and!; try done.
      + split; cbn; [lia|done|]. intros Hd. exfalso. unfold drained in Hd. clear -Hst Hd. naive_solver congruence.
      + rewrite data_of_one, Epay.
        replace (u32 (seg_len seg - (pos - off))) with (seg_len seg - (pos - off)) by mlia. apply sub_sub; lia.
      + intros Hx. apply Exists_cons in Hx as [[?|?]|Hx]; [done|done|by apply no_ends in Hx].
    - rewrite Z.max_l, Z.sub_diag by lia. split_and!; try done. intros Hx. by apply no_ends in Hx. }
  assert (Hpos' : pos <= pos' ∧ e <= pos' ∧ pos' <= Z.of_nat (length S)) by (unfold pos'; lia).
  clearbody p pos'. destruct p as [c1 got]. cbn [fst snd] in H1. destruct H1 as (I1 & Ei & Es & Er & Ed & Hne).
  set (c2 := set_ack_pending c1 true).
  assert (I2 : stream_inv S c2 pos') by (destruct I1; by split).
  destruct (has seg RTE_TCP_FIN_FLAG && (u32 (irs c + 1 + e) =? rcv_nxt_local c2)) eqn:Ef.
  - apply andb_prop in Ef as [Hf Heq]. apply Z.eqb_eq in Heq. cbn in Heq. rewrite Er in Heq. specialize (Hfin Hf).
    assert (Hall : pos' = Z.of_nat (length S)).
    { assert (e = pos'); [|lia]. revert Heq. unfold u32. intros Hm.
      assert (Hz : (irs c + 1 + pos' - (irs c + 1 + e)) mod 2 ^ 32 = 0) by (rewrite Zminus_mod, Hm, Z.sub_diag; done).
      replace (irs c + 1 + pos' - (irs c + 1 + e)) with (pos' - e) in Hz by lia. rewrite Z.mod_small in Hz by lia. lia. }
    destruct (fin_step_stream S c2 pos' I2 Hall) as (F1 & F2 & F3); [cbn; by rewrite Es|].
    destruct (fin_step _) as [c3 ended]. cbn [fst snd] in *. exists pos'. cbn [fst snd].
    split_and!; [lia|done|cbn in *; congruence|by rewrite data_of_app, F2, app_nil_r|done].
  - exists pos'. cbn [fst snd]. rewrite app_nil_r. split_and!; [lia| |done|done|done].
    destruct I2. by split.
Qed.

Lemma stream_same S c c' pos : stream_inv S c pos → irs c' = irs c → rcv_nxt_local c' = rcv_nxt_local c →
  (receiving (state c') → receiving (state c)) → (drained (state c') → drained (state c)) → stream_inv S c' pos.
Proof using. intros [Hp Hr He] Hi Hn H1 H2. split; [done| |auto]. rewrite Hn, Hi. auto. Qed.

Lemma delivers_from S c c1 pos p : irs c1 = irs c → delivers S c1 pos p → delivers S c pos p.
Proof using. intros Hi (pos' & ? & ? & ? & ?). exists pos'. split_and!; try done; [congruence|naive_solver|naive_solver]. Qed.

Lemma ack_window_rcv c seg : irs (ack_window c seg) = irs c ∧ rcv_nxt_local (ack_window c seg) = rcv_nxt_local c.
Proof using. unfold ack_window. repeat case_match; simplify_eq; done. Qed.

Lemma ack_delivers S c pos seg off : stream_inv S c pos → peer_seg S (irs c) seg off →
  Z.of_nat (length S) < 2 ^ 31 - 1 → delivers S c pos (conn_ack c seg).
Proof using.
  intros Hinv Hseg HS. unfold conn_ack. destruct (seq_gt _ _).
  { apply delivers_nothing; [done..|by intros ?%no_ends]. }
  destruct (ack_window_keeps c seg) as (Es & _). destruct (ack_window_rcv c seg) as [Ei Er]. cbv zeta.
  set (c1 := ack_window c seg) in *. clearbody c1.
  assert (I1 : stream_inv S c1 pos) by (apply (stream_same S c); try done; by rewrite Es).
  assert (Hd : delivers S c pos (conn_data c1 seg)).
  { apply (delivers_from S c c1); [done|]. eapply data_delivers; [done|by rewrite Ei|done]. }
  destruct (_ && _); [|done].
  destruct (state c1) eqn:Ew; try exact Hd.
  - apply delivers_nothing; try done; [cbn; intros [?|[?|[?|?]]]; done|cbn; intros [?|[?|?]]; done|].
    intros _. rewrite <- Es. unfold drained. tauto.
  - apply (delivers_from S c (set_state c1 st_fin_wait_2)); [done|].
    eapply data_delivers; [|by cbn; rewrite Ei|done]. apply (stream_same S c1); [done..| |].
    + intros _. rewrite Ew. unfold receiving. tauto.
    + cbn. intros [?|[?|?]]; done.
  - apply delivers_nothing; try done; [cbn; intros [?|[?|[?|?]]]; done|cbn; intros [?|[?|?]]; done|].
    intros _. rewrite <- Es. unfold drained. tauto.
Qed.

Lemma sync_stream S c pos : stream_inv S c pos → stream_inv S (sync_out_flags c) pos ∧ irs (sync_out_flags c) = irs c.
Proof using.
  intros Hinv. unfold sync_out_flags. destruct (negb _); [done|].
  destruct (decide (state c = st_established)) as [E1|E1]; [|destruct (decide (state c = st_close_wait)) as [E2|E2]; [|done]].
  - split; [|done]. apply (stream_same S c); try done; cbn; [|intros [?|[?|?]]; done]. intros _. rewrite E1. unfold receiving. tauto.
  - split; [|done]. apply (stream_same S c); try done; cbn; [intros [?|[?|[?|?]]]; done|]. intros _. rewrite E2. unfold drained. tauto.
Qed.

(** One segment of the stream. *)
Lemma segment_delivers S c pos seg off : stream_inv S c pos → peer_seg S (irs c) seg off →
  Z.of_nat (length S) < 2 ^ 31 - 1 → delivers S c pos (conn_segment stack c seg).
Proof using.
  intros Hinv Hseg HS. destruct (sync_stream S c pos Hinv) as [I1 Ei]. unfold conn_segment.
  set (c1 := sync_out_flags c) in *. clearbody c1. rewrite <- Ei in Hseg. apply (delivers_from S c c1); [done|]. clear c Hinv Ei.
  assert (H0 : delivers S c1 pos (c1, [])) by (apply delivers_nothing; [done..|by intros ?%no_ends]).
  assert (Hq : delivers S c1 pos (set_ack_pending c1 true, [])) by (apply delivers_nothing; [done..|by intros ?%no_ends]).
  assert (Hrst : delivers S c1 pos (conn_close c1 ev_reset, [(ev_reset, [])])).
  { apply delivers_nothing; try done; [cbn; intros [?|[?|[?|?]]]; done|cbn; intros [?|[?|?]]; done|].
    intros Hx. apply Exists_cons in Hx as [[?|?]|Hx]; [done|done|by apply no_ends in Hx]. }
  pose proof (ack_delivers S c1 pos seg off I1 Hseg HS) as Hack.
  destruct (state c1) eqn:Es; try done.
  2-7: destruct (has seg RTE_TCP_RST_FLAG); [by destruct (rst_acceptable _ _ _)|];
       destruct (has seg RTE_TCP_SYN_FLAG); [done|]; by destruct (negb _).
  destruct (_ || _); [done|].
  assert (I2 : stream_inv S (conn_accept c1 seg) pos).
  { apply (stream_same S c1); try done; [|cbn; intros [?|[?|?]]; done]. intros _. rewrite Es. by left. }
  pose proof (data_delivers S (conn_accept c1 seg) pos seg off I2 Hseg HS) as (pos' & H1 & H2 & H3 & H4 & H5).
  destruct (conn_data _ _) as [c2 evs]. exists pos'. cbn [fst snd] in *. split_and!; [done|done|done|done|].
  intros Hx. apply Exists_cons in Hx as [[?|?]|Hx]; [done|done|auto].
Qed.

(** A run of segments. *)
Definition run_step (p : tcp_connection * list happening) (seg : segment) : tcp_connection * list happening :=
  ((conn_segment stack p.1 seg).1, p.2 ++ (conn_segment stack p.1 seg).2).
Definition run_conn (c : tcp_connection) (segs : list segment) : tcp_connection * list happening :=
  foldl run_step (c, []) segs.

Lemma run_acc p segs : foldl run_step p segs = ((run_conn p.1 segs).1, p.2 ++ (run_conn p.1 segs).2).
Proof using.
  revert p. induction segs as [|seg segs IH]; intros p; [cbn; rewrite app_nil_r; by destruct p|].
  cbn [foldl]. unfold run_conn. cbn [foldl]. rewrite (IH (run_step p seg)), (IH (run_step (p.1, []) seg)).
  cbn [run_step fst snd]. by rewrite app_assoc.
Qed.

Lemma run_delivers S c pos segs : stream_inv S c pos → Z.of_nat (length S) < 2 ^ 31 - 1 →
  Forall (λ seg, ∃ off, peer_seg S (irs c) seg off) segs → delivers S c pos (run_conn c segs).
Proof using.
  intros Hinv HS Hsegs. revert c pos Hinv Hsegs. induction segs as [|seg segs IH]; intros c pos Hinv Hsegs.
  { apply delivers_nothing; [done..|by intros ?%no_ends]. }
  apply Forall_cons in Hsegs as [[off Hseg] Hsegs].
  destruct (segment_delivers S c pos seg off Hinv Hseg HS) as (pos1 & L1 & I1 & Ei & D1 & N1).
  destruct (IH (conn_segment stack c seg).1 pos1 I1) as (pos2 & L2 & I2 & Ei2 & D2 & N2); [by rewrite Ei|].
  unfold run_conn. cbn [foldl]. rewrite run_acc. exists pos2. cbn [run_step fst snd app].
  split_and!; [lia|done|congruence| |].
  - rewrite data_of_app, D1, D2. destruct I1 as [[? ?] _ _], I2 as [[? ?] _ _], Hinv as [[? ?] _ _].
    unfold sub. replace (Z.to_nat pos1) with (Z.to_nat pos + Z.to_nat (pos1 - pos))%nat by lia. rewrite <- drop_drop, take_take_drop.
    f_equal. lia.
  - intros Hx. apply Exists_app in Hx as [Hx|Hx]; [|auto]. specialize (N1 Hx). destruct I2 as [[? ?] _ _]. lia.
Qed.

(** A connection that is not over has not been reported over. *)
Lemma run_over c segs : state c ≠ st_closed →
  (ev_closed ∉ (run_conn c segs).2.*1) → (ev_reset ∉ (run_conn c segs).2.*1) → state (run_conn c segs).1 ≠ st_closed.
Proof using.
  revert c. induction segs as [|seg segs IH]; intros c Hc; [done|]. unfold run_conn. cbn [foldl]. rewrite run_acc.
  cbn [run_step fst snd app]. rewrite fmap_app, !not_elem_of_app. intros [A1 A2] [B1 B2]. apply IH; [|done..].
  intros Hx. by destruct (segment_over stack c seg Hc Hx).
Qed.

Lemma run_generation c segs : generation (run_conn c segs).1 = generation c.
Proof using.
  revert c. induction segs as [|seg segs IH]; intros c; [done|]. unfold run_conn. cbn [foldl]. rewrite run_acc. cbn [run_step fst].
  rewrite IH. apply conn_segment_id.
Qed.

(** The first thing reported of a half-open connection is that it is open. *)
Lemma run_opens c segs : state c = st_syn_received →
  (run_conn c segs).2 = [] ∨ ∃ l, (run_conn c segs).2 = (ev_accepted, []) :: l.
Proof using.
  intros Hs. induction segs as [|seg segs IH]; [by left|]. unfold run_conn. cbn [foldl]. rewrite run_acc. cbn [run_step fst snd app].
  destruct (sync_state c) as [_ Sy]. unfold conn_segment. rewrite Sy, Hs by (rewrite Hs; by intros (_ & ? & _)).
  destruct (_ || _); [done|]. destruct (conn_data _ _) as [c' evs]. right. by eexists.
Qed.

(** *** A segment that fills the next gap is delivered to its end *)

Definition can_receive (s : tcp_state) : Prop := s = st_established ∨ s = st_fin_wait_1 ∨ s = st_fin_wait_2.

Lemma data_progress S c pos seg off : stream_inv S c pos → peer_seg S (irs c) seg off → Z.of_nat (length S) < 2 ^ 31 - 1 →
  can_receive (state c) → off <= pos < off + seg_len seg →
  Z.of_nat (length (data_of (conn_data c seg).2)) = off + seg_len seg - pos.
Proof using.
  intros [Hp Hr _] [Eseq Hoff Hl Hend Epay _] HS Hst Hpos. unfold conn_data. cbv zeta. rewrite bool_decide_true by done. cbn [negb].
  rewrite (proj2 (Z.eqb_neq (seg_len seg) 0)) by lia. cbn [andb].
  assert (Hrcv : rcv_nxt_local c = u32 (irs c + 1 + pos)) by (apply Hr; unfold receiving, can_receive in *; tauto).
  rewrite Eseq, Hrcv, seq_gt_off by lia. rewrite (proj2 (Z.ltb_ge pos off)) by lia.
  rewrite u32_add_l. replace (irs c + 1 + off + seg_len seg) with (irs c + 1 + (off + seg_len seg)) by lia.
  rewrite seq_gt_off by lia. rewrite (proj2 (Z.ltb_lt pos (off + seg_len seg))) by lia.
  assert (Hskip : u32 (u32 (irs c + 1 + pos) - u32 (irs c + 1 + off)) = pos - off) by (rewrite u32_sub_l, u32_sub_r; mlia).
  rewrite Hskip. match goal with |- context [let '(_, _) := ?q in _] => set (p := q) end.
  assert (He : data_of p.2 = []) by (subst p; destruct (_ && _); [|done]; unfold fin_step; by case_match).
  destruct p as [c2 ended]. cbn [fst snd] in *. rewrite data_of_app, He, app_nil_r, data_of_one, Epay.
  assert (Hls : length (sub S (Z.to_nat off) (Z.to_nat (seg_len seg))) = Z.to_nat (seg_len seg)) by (rewrite length_sub; lia).
  rewrite length_sub by (rewrite Hls; mlia). mlia.
Qed.

Lemma segment_progress S c pos seg off : stream_inv S c pos → peer_seg S (irs c) seg off → Z.of_nat (length S) < 2 ^ 31 - 1 →
  can_receive (state c) → off <= pos < off + seg_len seg → plain_ack seg → seq_gt (seg_ack seg) (snd_nxt c) = false →
  Z.of_nat (length (data_of (conn_segment stack c seg).2)) = off + seg_len seg - pos.
Proof using.
  intros Hinv Hseg HS Hst Hpos (Ha & Hy & Hr) Hack. destruct (sync_stream S c pos Hinv) as [I1 Ei]. unfold conn_segment.
  assert (Hsy : can_receive (state (sync_out_flags c)) ∧ snd_nxt (sync_out_flags c) = snd_nxt c).
  { unfold sync_out_flags. destruct (negb _); [done|].
    destruct (decide _); [split; [by right; left|done]|]. destruct (decide _); [|done]. destruct Hst as [|[|]]; congruence. }
  set (c1 := sync_out_flags c) in *. clearbody c1. destruct Hsy as [Hs1 Hn1]. rewrite <- Ei in Hseg. rewrite <- Hn1 in Hack.
  assert (Hk : Z.of_nat (length (data_of (conn_ack c1 seg).2)) = off + seg_len seg - pos).
  { unfold conn_ack. rewrite Hack. cbv zeta. destruct (ack_window_keeps c1 seg) as (Es & _). destruct (ack_window_rcv c1 seg) as [Ew Er].
    set (c2 := ack_window c1 seg) in *. clearbody c2. rewrite <- Ew in Hseg. rewrite <- Es in Hs1.
    assert (I2 : stream_inv S c2 pos) by (apply (stream_same S c1); try done; by rewrite Es).
    pose proof (data_progress S c2 pos seg off I2 Hseg HS Hs1 Hpos) as Hd. destruct (_ && _); [|done].
    unfold can_receive in Hs1. destruct (state c2) eqn:E2; try done; try (destruct Hs1 as [|[|]]; congruence).
    apply (data_progress S (set_state c2 st_fin_wait_2)); [|done|done|unfold can_receive; cbn; tauto|done].
    apply (stream_same S c2); try done; [rewrite E2; unfold receiving; tauto|cbn; intros [?|[?|?]]; done]. }
  rewrite Hr, Hy, Ha. cbn [negb]. unfold can_receive in Hs1. destruct (state c1); try done; destruct Hs1 as [|[|]]; congruence.
Qed.
End conn_stream.

(** ** Demultiplexing: a connection sees its own segments *)

Section demux.
Context {E : Type} `{DpdkOps E}.
Context (stack : tcp_stack) (txq : queue).
Abbreviation n := (max_connections (params_ stack)).
Abbreviation inv := (inv stack).

Definition seg_key (seg : segment) : Z := flow_table.key (seg_src_ip seg) (seg_src_port seg) (seg_dst_port seg).

Lemma seg_key_nonzero seg : seg_ok seg → seg_key seg ≠ 0.
Proof using. intros []. unfold seg_key. apply flow_table.key_nonzero; assumption. Qed.

(** The segments of flow [k] in a burst. *)
Definition seg_for (k : Z) (pkt : rte_mbuf) : option segment :=
  match parse_frame (E := E) (verify_checksums (params_ stack)) (local_ip_ stack) pkt with
  | V_tcp seg => if decide (seg_key seg = k) then Some seg else None
  | _ => None
  end.
Definition segs_for (k : Z) (burst : list rte_mbuf) : list segment := omap (seg_for k) burst.

Definition events_of (i : Z) (evs : list tcp_event) : list tcp_event := filter (λ e, cid_slot (ev_conn e) = i) evs.

(** A connection, from its SYN on, that is not over. *)
Definition live (r : impl E) (i : Z) : Prop := inr n i ∧ state (slot r i) ≠ st_free ∧ i ∉ awaiting_release r.
(** While it is half open its peer does not take it back. *)
Definition kept (c : tcp_connection) (segs : list segment) : Prop :=
  state c = st_syn_received → Forall (λ seg, has seg RTE_TCP_RST_FLAG = false) segs.

Lemma stamps_of i c evs j : events_of j (stamp i c <$> evs) = if decide (i = j) then stamp i c <$> evs else [].
Proof using.
  unfold events_of. induction evs as [|h evs IH]; [by case_decide|]. rewrite fmap_cons, filter_cons, IH.
  change (cid_slot (ev_conn (stamp i c h))) with i. by case_decide.
Qed.

(** What a handler leaves of slot [i] if it works elsewhere. *)
Definition untouched (i : Z) (r r' : impl E) : Prop :=
  slot r' i = slot r i ∧ awaiting_release r' = awaiting_release r ∧ events_of i (events r') = events_of i (events r).

Lemma silent_untouched i (r r' : impl E) : silent r r' → untouched i r r'.
Proof using. intros Hs. split; [by apply silent_slot|]. destruct Hs as (_ & _ & _ & _ & -> & _ & _ & ->). done. Qed.

Lemma local_untouched i j c evs (r r' : impl E) : local r j c evs r' → inr n i → inr n j → Z.of_nat (length (slots r)) = n →
  i ≠ j → untouched i r r'.
Proof using.
  intros Hl Hi Hj Hlen Hne. split; [|split; [apply (l_await _ _ _ _ _ Hl)|]].
  - unfold slot. rewrite (l_slots _ _ _ _ _ Hl). unfold inr in *. apply list_lookup_total_insert_ne. lia.
  - rewrite (l_events _ _ _ _ _ Hl). unfold events_of at 1. rewrite filter_app. fold (events_of i (events r)).
    fold (events_of i (stamp j (slot r j) <$> evs)). rewrite stamps_of, decide_False by done. apply app_nil_r.
Qed.

Lemma abort_untouched i j (r : impl E) seg m : inv m r → inr n i → inr n j → i ≠ j →
  aborts stack (sync_out_flags (slot r j)) seg = true → untouched i r (process_segment stack r j seg).
Proof using.
  intros Hinv Hi Hj Hne Hab. pose proof (inv_table stack m r j Hinv Hj) as Ht.
  apply andb_prop in Hab as [Hab Hacc]. apply andb_prop in Hab as [Hst Hr]. apply bool_decide_eq_true in Hst.
  unfold process_segment. set (r1 := put_slot r j _).
  assert (Hs1 : slot r1 j = sync_out_flags (slot r j)) by (by apply slot_put_same).
  rewrite Hs1, Hst. unfold process_syn_received. rewrite Hs1, Hr, Hacc. unfold inr in *.
  split; [|split; done]. unfold slot. cbn. rewrite list_insert_insert_eq. apply list_lookup_total_insert_ne. lia.
Qed.

Lemma open_untouched i (r : impl E) seg m : inv m r → inr n i → state (slot r i) ≠ st_free → untouched i r (open stack r seg).
Proof using.
  intros Hinv Hi Hnf. unfold open. destruct (free_slots r) as [|j rest] eqn:Ef.
  { apply silent_untouched. eapply silent_trans; [|apply send_rst_silent]. done. }
  destruct (proj1 (i_free _ _ _ Hinv j)) as [Hj Hfree]; [rewrite Ef; by left|].
  assert (Hne : i ≠ j) by (intros ->; done).
  destruct (rte_rand _) as [rnd w].
  match goal with |- untouched _ _ (send_syn_ack _ ?r1 ?c) => pose proof (send_syn_ack_silent stack r1 c) as Hs end.
  split; [rewrite (silent_slot _ _ _ Hs)|destruct Hs as (_ & _ & _ & _ & -> & _ & _ & ->); done].
  unfold slot. cbn. unfold inr in *. apply list_lookup_total_insert_ne. lia.
Qed.

Lemma kept_aborts c seg segs : kept c (seg :: segs) → aborts stack (sync_out_flags c) seg = false.
Proof using.
  intros Hk. unfold aborts. destruct (sync_state c) as [S1 S2]. case_bool_decide as Hs; [|done]. cbn [andb].
  destruct (decide (state c = st_syn_received)) as [Es|Es]; [by rewrite (Forall_inv (Hk Es))|exfalso].
  destruct (decide (synchronized (state c))) as [Hy|Hy]; [by destruct (S1 Hy) as (_ & ? & _)|]. rewrite S2 in Hs by done. done.
Qed.

Lemma process_demux m (r : impl E) i pkt : inv m r → n < 2 ^ 16 → pkt_wf pkt → live r i →
  kept (slot r i) (option_list (seg_for (flow_key (slot r i)) pkt)) →
  match seg_for (flow_key (slot r i)) pkt with
  | None => untouched i r (process stack r pkt)
  | Some seg => local r i (conn_segment stack (slot r i) seg).1 (conn_segment stack (slot r i) seg).2 (process stack r pkt)
  end.
Proof using.
  intros Hinv Hn Hw (Hi & Hnf & Hna). unfold seg_for, process.
  destruct (parse_frame _ _ _) as [| | | | | |seg] eqn:Hp; try done.
  { intros _. destruct (handle_arp _ _ _ _ _ _ _) as [[[res nb] reply] w]. destruct res; try done.
    pose proof (queue_control_silent (set_env (set_neighbors r nb) w) reply) as Hs.
    split; [by rewrite (silent_slot _ _ _ Hs)|]. by destruct Hs as (_ & _ & _ & _ & -> & _ & _ & ->). }
  apply parse_frame_ok in Hp; [|done]. unfold process_tcp. fold (seg_key seg).
  pose proof (seg_key_nonzero seg Hp) as Hk.
  pose proof (i_live _ _ _ Hinv i Hi Hnf Hna) as Hlive.
  destruct (Z.eqb_spec (flow_table.find (flows r) (seg_key seg)) flow_table.npos) as [Ef|Ef]; cbn [negb].
  { pose proof (find_none stack m r _ Hinv Hk Hn Ef) as Hnone. rewrite decide_False by congruence. intros _.
    destruct (_ && _); [by eapply open_untouched|apply silent_untouched, send_rst_silent]. }
  set (j := flow_table.find (flows r) (seg_key seg)) in *.
  destruct (find_live stack m r (seg_key seg) j Hinv Hk eq_refl Ef) as (Hj & Hjf & Hja & Hjk).
  pose proof (inv_table stack m r j Hinv Hj) as Ht.
  destruct (decide (j = i)) as [Eji|Hne].
  - rewrite Eji in *. rewrite decide_True by done. intros Hk'. apply process_segment_local; [done|]. by eapply kept_aborts.
  - rewrite decide_False.
    2: { intros Hx. pose proof (i_live _ _ _ Hinv j Hj Hjf Hja) as Hlj. rewrite Hjk, Hx, Hlive in Hlj. congruence. }
    intros _. destruct (aborts stack (sync_out_flags (slot r j)) seg) eqn:Hab; [by eapply abort_untouched|].
    eapply local_untouched; [by apply process_segment_local|done|done|apply (i_len _ _ _ Hinv)|done].
Qed.

(** A connection stays one while packets are processed, and does not go back. *)
Lemma segment_live c seg : phase_ok c → state c ≠ st_free →
  state (conn_segment stack c seg).1 ≠ st_free ∧ (state (conn_segment stack c seg).1 = st_syn_received → state c = st_syn_received).
Proof using.
  intros Hp H1. destruct (segment_step_ok stack c seg Hp H1) as [_ Hf Hc _ Hs _]. split; [done|]. intros Hx.
  destruct (decide (state c = st_syn_received)); [done|]. destruct (decide (state c = st_closed)) as [Ec|]; [destruct (Hc Ec); congruence|].
  destruct Hs as [?|[(_ & ? & _) _]]; [done|congruence|done].
Qed.
Lemma segment_kept c seg segs : phase_ok c → state c ≠ st_free → kept c (seg :: segs) → kept (conn_segment stack c seg).1 segs.
Proof using. intros Hp Hf Hk Hs. apply (Forall_inv_tail (Hk (proj2 (segment_live c seg Hp Hf) Hs))). Qed.

Lemma burst_demux m (r : impl E) i burst : inv m r → n < 2 ^ 16 → Forall pkt_wf burst → live r i →
  kept (slot r i) (segs_for (flow_key (slot r i)) burst) →
  let r' := foldl (process stack) r burst in
  let p := run_conn stack (slot r i) (segs_for (flow_key (slot r i)) burst) in
  slot r' i = p.1 ∧ state p.1 ≠ st_free ∧ events_of i (events r') = events_of i (events r) ++ (stamp i (slot r i) <$> p.2).
Proof using.
  intros Hinv Hn Hb. revert m r Hinv. induction Hb as [|pkt burst Hw Hb IH]; intros m r Hinv Hlive Hkept.
  { split_and!; [done|apply Hlive|symmetry; apply app_nil_r]. }
  cbn [foldl]. pose proof (process_demux m r i pkt Hinv Hn Hw Hlive) as Hd.
  destruct (process_inv stack m r pkt Hinv Hn Hw) as [m' Hinv']. set (r1 := process stack r pkt) in *.
  destruct Hlive as (Hi & Hnf & Hna). unfold segs_for in Hkept |- *. cbn [omap list_omap] in Hkept |- *.
  destruct (seg_for (flow_key (slot r i)) pkt) as [seg|].
  - specialize (Hd (λ Es, ltac:(constructor; [exact (Forall_inv (Hkept Es))|constructor]))).
    destruct (local_slot _ _ _ _ _ Hd (inv_table stack m r i Hinv Hi)) as [Hs1 _].
    destruct (conn_segment_id stack (slot r i) seg) as (G1 & G2 & G3 & G4). pose proof (inv_phase stack m r i Hinv Hi) as Hph.
    destruct (segment_live (slot r i) seg Hph Hnf) as [A1 _].
    assert (Hk : flow_key (slot r1 i) = flow_key (slot r i)) by (rewrite Hs1; unfold flow_key; by rewrite G2, G3, G4).
    destruct (IH m' r1 Hinv') as (Hslot & Hfree & Hev).
    { unfold live. by rewrite Hs1, (l_await _ _ _ _ _ Hd). }
    { rewrite Hk, Hs1. by apply segment_kept. }
    unfold segs_for in Hslot, Hfree, Hev. rewrite Hk, Hs1 in Hslot, Hfree, Hev. unfold run_conn at 1 2 3. cbn [foldl]. rewrite run_acc. cbn [run_step fst snd app].
    split_and!; [done|done|]. rewrite Hev, (l_events _ _ _ _ _ Hd). unfold events_of at 1. rewrite filter_app.
    fold (events_of i (events r)) (events_of i (stamp i (slot r i) <$> (conn_segment stack (slot r i) seg).2)).
    rewrite stamps_of, decide_True, fmap_app, app_assoc by done. f_equal. apply list_fmap_ext. intros ? h _. by apply stamp_id.
  - destruct (Hd (λ _, Forall_nil_2 _)) as (Hs1 & Ha1 & He1). rewrite <- He1, <- Hs1. apply (IH m'); [done| |by rewrite Hs1]. unfold live. by rewrite Hs1, Ha1.
Qed.

(** *** The rest of [poll] does not disturb a live connection *)

(** The receive side of a slot. *)
Definition rx_view (c : tcp_connection) := (irs c, rcv_nxt_local c, state c, flow_key c, generation c).

Lemma reap_loop_keeps fuel k m (r r' : impl E) i : inv m r → ack_list r = [] → inr n i → i ∉ awaiting_release r →
  reap_loop fuel k r = Some r' → slot r' i = slot r i ∧ i ∉ awaiting_release r'.
Proof using.
  revert k r. induction fuel as [|f IH]; intros k r Hinv Hack Hi Hna; simpl; [done|].
  destruct (Nat.ltb_spec k (length (awaiting_release r))) as [Hk|]; [|by intros [= <-]].
  destruct (flag _ _); [|by apply IH].
  set (j := awaiting_release r !!! k). assert (Hj : j ∈ awaiting_release r) by (by apply list_elem_of_lookup_total_2).
  destruct (i_await _ _ _ Hinv j Hj) as (Hjr & _). assert (Hne : j ≠ i) by (by intros <-).
  destruct (swap_remove_spec _ k Hk (i_await_nd _ _ _ Hinv)) as (_ & Hin & _).
  intros Hr. apply IH in Hr; [|by apply release_await_inv|done|done|].
  - destruct Hr as [-> Hr]. split; [|done]. unfold slot. cbn. unfold inr in *. apply list_lookup_total_insert_ne. lia.
  - cbn. rewrite Hin. tauto.
Qed.

Lemma flush_acks_keeps (r : impl E) l i : (∀ j, j ∈ l → in_table r j) → in_table r i →
  rx_view (slot (foldl (flush_ack stack) r l) i) = rx_view (slot r i) ∧
  awaiting_release (foldl (flush_ack stack) r l) = awaiting_release r.
Proof using.
  revert r. induction l as [|j l IH]; intros r Hl Hi; [done|]. simpl. pose proof (Hl j ltac:(by left)) as Hj.
  pose proof (flush_ack_silent stack r j Hj) as Hs. pose proof (flush_ack_len stack r j Hj) as Hlen.
  destruct (IH (flush_ack stack r j)) as [-> ->].
  - intros j' Hj'. specialize (Hl j' ltac:(by right)). unfold in_table in *. by rewrite Hlen.
  - unfold in_table in *. by rewrite Hlen.
  - rewrite (silent_slot _ _ i Hs). destruct Hs as (_ & _ & _ & _ & -> & _). split; [|done].
    destruct (decide (j = i)) as [->|Hne]; [by rewrite slot_put_same|]. unfold slot, in_table in *. cbn.
    rewrite list_lookup_total_insert_ne by lia. done.
Qed.

Lemma finalize_keeps (r : impl E) l i : (∀ j, j ∈ l → in_table r j) → in_table r i → i ∉ l → i ∉ awaiting_release r →
  slot (foldl finalize_one r l) i = slot r i ∧ i ∉ awaiting_release (foldl finalize_one r l).
Proof using.
  revert r. induction l as [|j l IH]; intros r Hl Hi Hni Hna; [done|]. simpl. pose proof (Hl j ltac:(by left)) as Hj.
  apply not_elem_of_cons in Hni as [Hne Hni].
  assert (Hlen : length (slots (finalize_one r j)) = length (slots r)).
  { unfold finalize_one. cbv zeta. case_match; cbn; by rewrite ?length_insert. }
  assert (Hslot : slot (finalize_one r j) i = slot r i).
  { unfold finalize_one, slot, in_table in *. cbv zeta. case_match; cbn; rewrite ?list_insert_insert_eq, list_lookup_total_insert_ne by lia; done. }
  assert (Haw : i ∉ awaiting_release (finalize_one r j)).
  { unfold finalize_one. cbv zeta. case_match; cbn; [done|]. rewrite elem_of_app, list_elem_of_singleton. tauto. }
  rewrite <- Hslot. apply IH; try done.
  - intros j' Hj'. specialize (Hl j' ltac:(by right)). unfold in_table in *. by rewrite Hlen.
  - unfold in_table in *. by rewrite Hlen.
Qed.

(** The first two stages of [poll]: reaping, then the packets. *)
Lemma packets_demux m (r : impl E) i burst : inv m r → quiescent r → n < 2 ^ 16 → Forall pkt_wf burst → live r i →
  kept (slot r i) (segs_for (flow_key (slot r i)) burst) →
  let p := run_conn stack (slot r i) (segs_for (flow_key (slot r i)) burst) in
  slot (after_packets stack r burst) i = p.1 ∧ state p.1 ≠ st_free ∧
  events_of i (events (after_packets stack r burst)) = (stamp i (slot r i) <$> p.2).
Proof using.
  intros Hinv (Hack & _) Hn Hb (Hi & Hnf & Hna) Hkept p.
  assert (Hinv0 : inv m (set_events r [])) by (by eapply inv_quiet; [|exact Hinv]).
  destruct (reap_spec stack m (set_events r []) Hinv0 Hack) as (Hr & _ & _ & _ & Hev0 & _).
  assert (Hkeep : slot (reap_released (set_events r [])) i = slot r i ∧ i ∉ awaiting_release (reap_released (set_events r []))).
  { unfold reap_released. destruct (reap_loop _ _ _) as [r0|] eqn:Er; [|done]. simpl.
    by apply (reap_loop_keeps _ _ m (set_events r []) r0 i Hinv0) in Er. }
  destruct Hkeep as [Ks Ka]. destruct (burst_demux m _ i burst Hr Hn Hb) as (Hslot & Hfree & Hev).
  { unfold live. by rewrite Ks. }
  { by rewrite Ks. }
  rewrite Ks in Hslot, Hfree, Hev. by rewrite Hev0 in Hev.
Qed.

(** The last two stages leave a connection that has not closed alone. *)
Lemma flush_demux m (r : impl E) i burst : inv m (after_packets stack r burst) → inr n i →
  let c := slot (after_packets stack r burst) i in
  state c ≠ st_closed →
  slot (poll stack txq r burst).2 i = slot (flush_control txq (after_acks stack r burst)) i ∧
  rx_view (slot (poll stack txq r burst).2 i) = rx_view c ∧ i ∉ awaiting_release (poll stack txq r burst).2.
Proof using.
  intros H1 Hi c Hnc. rewrite poll_unfold. cbn [snd]. pose proof (inv_table stack m _ i H1 Hi) as Ht.
  destruct (flush_control_lists txq (after_acks stack r burst)) as [Hsil _].
  destruct (flush_acks_keeps (after_packets stack r burst) (ack_list (after_packets stack r burst)) i) as [Va Wa];
    [intros j Hj; eapply inv_table; [done|by apply (i_acks _ _ _ H1)]|done|].
  pose proof (flush_acks_inv stack m _ H1) as H2. fold (after_acks stack r burst) in H2.
  pose proof (inv_quiet stack m _ _ (silent_quiet _ _ Hsil) H2) as H3.
  set (r3 := flush_control txq (after_acks stack r burst)) in *.
  assert (V3 : rx_view (slot r3 i) = rx_view c) by (rewrite (silent_slot _ _ i Hsil); exact Va).
  assert (A3 : i ∉ awaiting_release r3).
  { destruct Hsil as (_ & _ & _ & _ & -> & _). intros Hin. change (awaiting_release (after_acks stack r burst)) with
      (awaiting_release (foldl (flush_ack stack) (after_packets stack r burst) (ack_list (after_packets stack r burst)))) in Hin.
    rewrite Wa in Hin. by destruct (i_await _ _ _ H1 i Hin) as (_ & ? & _). }
  assert (Hst : state (slot r3 i) = state c) by (injection V3; done).
  assert (Hnfin : i ∉ finalize_list r3).
  { intros [_ Hp]%(i_fin _ _ _ H3). apply (i_finp _ _ _ H3) in Hp; [congruence|done]. }
  destruct (finalize_keeps r3 (finalize_list r3) i) as [Fs Fa];
    [intros j Hj; eapply inv_table; [done|by apply (i_fin _ _ _ H3)]|by eapply inv_table|done|done|].
  split_and!; [exact Fs|by rewrite <- V3, <- Fs|exact Fa].
Qed.

(** [poll] as seen by one connection. *)
Lemma poll_demux m (r : impl E) i burst : inv m r → quiescent r → n < 2 ^ 16 → Forall pkt_wf burst → live r i →
  kept (slot r i) (segs_for (flow_key (slot r i)) burst) →
  let p := run_conn stack (slot r i) (segs_for (flow_key (slot r i)) burst) in
  events_of i (poll stack txq r burst).1 = (stamp i (slot r i) <$> p.2) ∧
  (state p.1 ≠ st_closed → live (poll stack txq r burst).2 i ∧ rx_view (slot (poll stack txq r burst).2 i) = rx_view p.1).
Proof using.
  intros Hinv Hq Hn Hb Hlive Hkept p. pose proof Hlive as (Hi & Hnf & Hna).
  destruct (packets_demux m r i burst Hinv Hq Hn Hb Hlive Hkept) as (Hslot & Hfree & Hev).
  destruct (after_packets_inv stack m r burst Hinv Hq Hn Hb) as ([m1 H1] & _).
  destruct (flush_acks_events stack (after_packets stack r burst) m1 H1) as [Fe Ff]. fold (after_acks stack r burst) in Fe, Ff.
  destruct (flush_control_lists txq (after_acks stack r burst)) as [Hsil _]. split.
  - rewrite poll_unfold. cbn [fst]. destruct (finalize_rest (flush_control txq (after_acks stack r burst))) as (-> & _).
    destruct Hsil as (_ & _ & _ & _ & _ & _ & _ & ->). by rewrite Fe.
  - intros Hnc. destruct (flush_demux m1 r i burst H1 Hi) as (_ & V & A); [by rewrite Hslot|]. rewrite Hslot in V.
    split; [|done]. assert (Hst : state (slot (poll stack txq r burst).2 i) = state p.1) by (injection V; done).
    unfold live. by rewrite Hst.
Qed.

(** The bytes a list of events hands to the application. *)
Definition delivered (evs : list tcp_event) : list Z :=
  concat (omap (λ e, if decide (ev_type e = ev_data) then Some (ev_bytes e) else None) evs).

Lemma delivered_stamp i c evs : delivered (stamp i c <$> evs) = data_of evs.
Proof using. unfold delivered, data_of. f_equal. induction evs as [|h evs IH]; [done|]. cbn. by rewrite <- IH. Qed.
Lemma types_stamp i c evs : ev_type <$> (stamp i c <$> evs) = evs.*1.
Proof using. rewrite <- list_fmap_compose. by apply list_fmap_ext. Qed.
Lemma ends_types evs : ends evs ↔ ev_peer_closed ∈ evs.*1 ∨ ev_closed ∈ evs.*1.
Proof using.
  unfold ends. rewrite Exists_exists, !list_elem_of_fmap. split.
  - intros (h & Hin & [Hx|Hx]); [left|right]; eauto.
  - intros [(h & Hx & Hin)|(h & Hx & Hin)]; exists h; auto.
Qed.
End demux.
