(* ===== verification/TcpIds.v ===== *)
(** * The life of a connection id

    An application id is a slot and the generation the slot had when the
    connection was opened.  [evolves k c c'] is what the inbound thread can do
    to a slot that it opens [k] times: the generation advances [k] steps and,
    if [k = 0], the outbound thread's flags stay, [terminated] is not taken
    back, and a connection the application knows stays one until it releases
    it.  Every event carries the id its slot has when [poll] returns. *)

From S2P Require Import Prelude Probing FlowTable Dpdk Packet Segment SeqArith Arp TcpState TcpReceiver.
From S2P Require Import TcpConn TcpDiagram TcpInv TcpPoll TcpSender TcpValues TcpSystem TcpStream.

(** A slot the application has been told about. *)
Definition known (c : tcp_connection) : Prop := state c ≠ st_free ∧ state c ≠ st_syn_received.
Definition released (c : tcp_connection) : bool := flag (out_flags c) out_released.

(** The generation after the next [open]: 0 is skipped. *)
Definition next_generation (g : Z) : Z := if u32 (g + 1) =? 0 then 1 else u32 (g + 1).

Lemma next_generation_iter k g : is_u32 g → Z.of_nat k < 2 ^ 31 →
  let v := Nat.iter k next_generation g in
  is_u32 v ∧ (v = g + Z.of_nat k ∨ 2 ^ 32 <= g + Z.of_nat k ∧ v = g + Z.of_nat k + 1 - 2 ^ 32).
Proof.
  intros Hg Hk. cbv zeta. induction k as [|k IH]; [cbn; split; [done|left; lia]|].
  cbn [Nat.iter nat_rect]. destruct IH as [Hv Hc]; [lia|].
  change (nat_rect _ g (λ _, next_generation) k) with (Nat.iter k next_generation g).
  set (v := Nat.iter k next_generation g) in *. clearbody v. unfold next_generation, is_u32 in *.
  assert (Hu : u32 (v + 1) = if v =? 2 ^ 32 - 1 then 0 else v + 1).
  { destruct (Z.eqb_spec v (2 ^ 32 - 1)) as [->|]; [reflexivity|]. apply u32_id. unfold is_u32. lia. }
  rewrite Hu. destruct (Z.eqb_spec v (2 ^ 32 - 1)) as [E1|E1]; cbn [Z.eqb].
  - split; [lia|]. lia.
  - destruct (Z.eqb_spec (v + 1) 0); split; lia.
Qed.

Lemma next_generation_moves k g : is_u32 g → (0 < k)%nat → Z.of_nat k < 2 ^ 31 → Nat.iter k next_generation g ≠ g.
Proof. intros Hg H0 Hk. destruct (next_generation_iter k g Hg Hk) as [_ Hc]. lia. Qed.

(** No more data will be reported: the peer's FIN or a reset has been seen, or
    the slot is empty. *)
Definition over (s : tcp_state) : Prop :=
  s = st_free ∨ s = st_close_wait ∨ s = st_last_ack ∨ s = st_closing ∨ s = st_closed.

Record evolves (k : nat) (c c' : tcp_connection) : Prop := {
  ev_gen : generation c' = Nat.iter k next_generation (generation c);
  ev_flags : k = 0%nat → out_flags c' = out_flags c;
  ev_term : k = 0%nat → terminated c ≠ 0 → terminated c' ≠ 0;
  ev_known : k = 0%nat → known c → known c' ∨ released c = true;
  ev_over : k = 0%nat → over (state c) → over (state c');
  ev_stay : known c → k ≠ 0%nat → released c = true;
  ev_fresh : k ≠ 0%nat → out_flags c' = 0;
  ev_free : k = 0%nat → state c = st_free → state c' = st_free }.

Lemma evolves_refl c : evolves 0 c c.
Proof. split; auto; lia. Qed.
Lemma evolves_trans k1 k2 c1 c2 c3 : evolves k1 c1 c2 → evolves k2 c2 c3 → evolves (k1 + k2) c1 c3.
Proof.
  intros [A1 A2 A3 A4 A5 A6 A7 A8] [B1 B2 B3 B4 B5 B6 B7 B8]. split.
  - rewrite B1, A1. clear. rewrite Nat.add_comm. symmetry. apply Nat.iter_add.
  - intros H. rewrite B2, A2 by lia. done.
  - intros H Ht. apply B3; [lia|]. apply A3; [lia|done].
  - intros H Hk. destruct A4 as [A4'|]; [lia|done| |by right]. destruct B4 as [|Hr]; [lia|done|by left|right].
    unfold released in *. rewrite A2 in Hr by lia. done.
  - intros H Ho. apply B5; [lia|]. apply A5; [lia|done].
  - intros Hk Hn. destruct (decide (k1 = 0%nat)) as [E0|]; [|by apply A6]. destruct (A4 E0 Hk) as [Hk2|]; [|done].
    specialize (B6 Hk2 ltac:(lia)). unfold released in *. by rewrite <- (A2 E0).
  - intros Hn. destruct (decide (k2 = 0%nat)) as [E0|]; [|by apply B7]. rewrite (B2 E0). apply A7. lia.
  - intros H Hx. apply B8; [lia|]. apply A8; [lia|done].
Qed.

(** ** What a packet does to the slots *)

Lemma conn_data_sent c seg : out_flags (conn_data c seg).1 = out_flags c ∧ (terminated c ≠ 0 → terminated (conn_data c seg).1 ≠ 0).
Proof.
  unfold conn_data. cbv zeta. destruct (negb _); [by case_match|]. destruct (_ && negb _); [done|]. destruct (seq_gt (seg_seq seg) _); [done|].
  set (p := if seq_gt _ _ then _ else _). assert (Hp : out_flags p.1 = out_flags c ∧ terminated p.1 = terminated c) by (subst p; by case_match).
  clearbody p. destruct p as [c1 got]. cbn [fst] in Hp. destruct Hp as [<- <-].
  match goal with |- context [let '(_, _) := ?q in _] => set (p := q) end.
  assert (Hq : out_flags p.1 = out_flags c1 ∧ (terminated c1 ≠ 0 → terminated p.1 ≠ 0)).
  { subst p. destruct (_ && _); [|done]. unfold fin_step. by case_match. }
  clearbody p. by destruct p.
Qed.

Lemma conn_segment_sent stack c seg : out_flags (conn_segment stack c seg).1 = out_flags c ∧
  (terminated c ≠ 0 → terminated (conn_segment stack c seg).1 ≠ 0).
Proof.
  assert (Hs : out_flags (sync_out_flags c) = out_flags c ∧ terminated (sync_out_flags c) = terminated c)
    by (unfold sync_out_flags; by repeat case_match).
  unfold conn_segment. set (c1 := sync_out_flags c) in *. clearbody c1. destruct Hs as [<- <-]. clear c.
  assert (Hw : out_flags (ack_window c1 seg) = out_flags c1 ∧ terminated (ack_window c1 seg) = terminated c1)
    by (unfold ack_window; repeat case_match; by simplify_eq).
  assert (Ha : out_flags (conn_ack c1 seg).1 = out_flags c1 ∧ (terminated c1 ≠ 0 → terminated (conn_ack c1 seg).1 ≠ 0)).
  { destruct Hw as [<- <-]. unfold conn_ack. cbv zeta. pose proof (conn_data_sent (ack_window c1 seg) seg) as Hd.
    pose proof (conn_data_sent (set_state (ack_window c1 seg) st_fin_wait_2) seg) as Hd2.
    destruct (seq_gt _ _); [unfold ack_window; repeat case_match; by simplify_eq|]. by repeat case_match. }
  pose proof (conn_data_sent (conn_accept c1 seg) seg) as Hd. destruct (conn_data (conn_accept c1 seg) seg) as [c2 evs].
  repeat case_match; try done.
Qed.

(** Something to report means the application knows the connection. *)
Lemma conn_segment_known stack c seg : phase_ok c → state c ≠ st_free → (conn_segment stack c seg).2 ≠ [] ∨ known c →
  known (conn_segment stack c seg).1.
Proof.
  intros Hp Hnf Hev. destruct (decide (state c = st_closed)) as [Ec|Ec].
  { rewrite conn_segment_closed by done. unfold known. by rewrite Ec. }
  destruct (decide (state c = st_syn_received)) as [Es|Es].
  - destruct Hev as [Hev|[_ ?]]; [|done]. destruct (sync_state c) as [_ Sy]. revert Hev. unfold conn_segment.
    rewrite Sy by (rewrite Es; by intros (_ & ? & _)). rewrite Es. unfold phase_ok in Hp. rewrite Es in Hp.
    destruct (_ || _); [done|]. intros _.
    assert (A : advanced (conn_data (conn_accept c seg) seg).1) by (apply conn_data_advanced; [by repeat split|apply Hp]).
    destruct (conn_data _ _) as [c2 evs]. cbn [fst] in *. destruct A as [[(? & ? & ?) _]|[Hc _]]; split; try done; by rewrite Hc.
  - destruct (conn_segment_advanced stack c seg Hp) as [[[(? & ? & ?) _]|[Hc _]] _]; [done|by split|]. split; by rewrite Hc.
Qed.

(** *** The end of the peer's stream *)

Definition ends_stream (t : tcp_event_type) : Prop := t = ev_peer_closed ∨ t = ev_closed ∨ t = ev_reset.

(** In a list of happenings or events of one connection, no data follows an end. *)
Definition ends_last (ts : list tcp_event_type) : Prop :=
  ∀ l1 t l2, ts = l1 ++ t :: l2 → ends_stream t → ev_data ∉ l2.

Lemma ends_last_nil : ends_last [].
Proof. intros l1 t l2 Hx. destruct l1; discriminate Hx. Qed.
Lemma ends_last_one t : ends_last [t].
Proof. intros l1 t' l2 Hx _. destruct l1 as [|? [|? ?]]; simplify_eq/=; apply not_elem_of_nil. Qed.
Lemma ends_last_cons t ts : ¬ ends_stream t → ends_last ts → ends_last (t :: ts).
Proof. intros Hn Hl [|t0 l1] t' l2 [= -> ->] He; [done|]. by apply (Hl l1 t' l2). Qed.

Lemma fin_step_over c : over (state c) → over (state (fin_step c).1).
Proof. unfold fin_step, over. destruct (state c) eqn:Es; cbn; rewrite ?Es; tauto. Qed.

Lemma fin_step_ends c : ends_last (fin_step c).2.*1 ∧ (ev_data ∉ (fin_step c).2.*1) ∧
  ∀ t, t ∈ (fin_step c).2.*1 → ends_stream t → over (state (fin_step c).1).
Proof.
  unfold fin_step. destruct (state c) eqn:Es; cbn; (split; [apply ends_last_nil || apply ends_last_one|]);
    (split; [rewrite ?elem_of_cons, ?elem_of_nil; intuition discriminate|]); intros t Ht; try (by apply not_elem_of_nil in Ht);
    intros _; unfold over; cbn; tauto.
Qed.

Lemma conn_data_ends c seg : ends_last (conn_data c seg).2.*1 ∧
  (∀ t, t ∈ (conn_data c seg).2.*1 → ends_stream t → over (state (conn_data c seg).1)) ∧
  (over (state c) → over (state (conn_data c seg).1) ∧ ev_data ∉ (conn_data c seg).2.*1).
Proof.
  unfold conn_data. cbv zeta.
  assert (Hnone : ∀ c', state c' = state c → ends_last ([] : list happening).*1 ∧
      (∀ t, t ∈ ([] : list happening).*1 → ends_stream t → over (state c')) ∧
      (over (state c) → over (state c') ∧ ev_data ∉ ([] : list happening).*1)).
  { intros c' ->. split; [apply ends_last_nil|]. split; [by intros t Ht%not_elem_of_nil|]. intros ?. split; [done|]. apply not_elem_of_nil. }
  case_bool_decide as Hst; cbn [negb]; [|destruct (_ || _); by apply Hnone].
  destruct (_ && negb _); [by apply Hnone|]. destruct (seq_gt (seg_seq seg) _); [by apply Hnone|].
  set (p := if seq_gt _ _ then _ else _).
  assert (Hp : state p.1 = state c ∧ (p.2.*1 = [] ∨ p.2.*1 = [ev_data])) by (subst p; case_match; cbn; auto).
  clearbody p. destruct p as [c1 got]. cbn [fst snd] in Hp. destruct Hp as [Hs1 Hgot].
  match goal with |- context [let '(_, _) := ?q in _] => set (p := q) end.
  assert (Hq : ends_last p.2.*1 ∧ ∀ t, t ∈ p.2.*1 → ends_stream t → over (state p.1)).
  { subst p. destruct (_ && _); [|split; [apply ends_last_nil|by intros t Ht%not_elem_of_nil]].
    destruct (fin_step_ends (set_rcv_nxt_local (set_ack_pending c1 true) (u32 (rcv_nxt_local (set_ack_pending c1 true) + 1)))) as (? & _ & ?). by split. }
  clearbody p. destruct p as [c2 ended]. cbn [fst snd] in *. destruct Hq as [Hq1 Hq2]. rewrite fmap_app. cbn [state set_rcv_nxt].
  assert (Hnd : ¬ ends_stream ev_data) by (intros [?|[?|?]]; done).
  split_and!; [| |intros [?|[?|[?|[?|?]]]]; exfalso; destruct Hst as [|[|]]; congruence].
  - destruct Hgot as [-> | ->]; [done|]. by apply ends_last_cons.
  - intros t. rewrite elem_of_app. intros [Ht|Ht] He; [|by apply (Hq2 t)].
    destruct Hgot as [-> | ->] in Ht; [by apply not_elem_of_nil in Ht|]. apply list_elem_of_singleton in Ht as ->. done.
Qed.

Lemma conn_segment_ends stack c seg : ends_last (conn_segment stack c seg).2.*1 ∧
  (∀ t, t ∈ (conn_segment stack c seg).2.*1 → ends_stream t → over (state (conn_segment stack c seg).1)) ∧
  (over (state c) → over (state (conn_segment stack c seg).1) ∧ ev_data ∉ (conn_segment stack c seg).2.*1).
Proof.
  assert (Hs : over (state c) → over (state (sync_out_flags c))).
  { unfold sync_out_flags, over. repeat case_match; cbn; try tauto. rewrite e. intuition discriminate. }
  unfold conn_segment. set (c1 := sync_out_flags c) in *. clearbody c1.
  set (good := λ p : tcp_connection * list happening, ends_last p.2.*1 ∧ (∀ t, t ∈ p.2.*1 → ends_stream t → over (state p.1)) ∧
    (over (state c) → over (state p.1) ∧ ev_data ∉ p.2.*1)).
  assert (Hnone : ∀ c', state c' = state c1 → good (c', [])).
  { intros c' He. split; [apply ends_last_nil|]. split; [by intros t Ht%not_elem_of_nil|]. intros Ho. cbn. rewrite He. split; [auto|apply not_elem_of_nil]. }
  assert (Hclose : ∀ c' t, state c' = st_closed → t ≠ ev_data → good (c', [(t, [])])).
  { intros c' t Hc Ht. split; [apply ends_last_one|]. cbn. rewrite Hc. split; [by intros; unfold over; tauto|]. intros _.
    split; [unfold over; tauto|]. rewrite list_elem_of_singleton. congruence. }
  assert (Hdata : ∀ c', (over (state c) → over (state c')) → good (conn_data c' seg)).
  { intros c' Hoo. destruct (conn_data_ends c' seg) as (D1 & D2 & D3). split_and!; [done|done|]. auto. }
  assert (Hcl : ∀ c' why, state (conn_close c' why) = st_closed) by (intros c' why; unfold conn_close; by case_decide).
  assert (Hack : good (conn_ack c1 seg)).
  { unfold conn_ack. cbv zeta. destruct (ack_window_keeps c1 seg) as (Es & _). rewrite <- Es in Hs.
    destruct (seq_gt _ _); [by apply Hnone|]. destruct (_ && _); [|by apply Hdata].
    destruct (state (ack_window c1 seg)) eqn:Ew; try (apply Hdata; intros Ho; specialize (Hs Ho); by rewrite Ew in * ); try (by apply Hclose).
    apply Hdata. intros Ho. specialize (Hs Ho). unfold over in Hs. intuition discriminate. }
  destruct (state c1) eqn:Es; try (by apply Hnone).
  2-7: destruct (has seg RTE_TCP_RST_FLAG); [destruct (rst_acceptable _ _ _); [by apply Hclose|by apply Hnone]|];
       destruct (has seg RTE_TCP_SYN_FLAG); [by apply Hnone|]; destruct (negb _); [by apply Hnone|exact Hack].
  destruct (_ || _); [by apply Hnone|].
  assert (Hno : ¬ over (state c)) by (intros Ho; specialize (Hs Ho); unfold over in Hs; intuition discriminate).
  destruct (conn_data_ends (conn_accept c1 seg) seg) as (D1 & D2 & _). destruct (conn_data _ _) as [c2 evs]. cbn [fst snd] in *.
  split_and!; [|intros t [->|Ht]%elem_of_cons He; [destruct He as [?|[?|?]]; done|by eapply D2]|done].
  apply ends_last_cons; [intros [?|[?|?]]; done|done].
Qed.

(** *** Resets *)

(** Without a FIN of ours a connection ends only by a reset. *)
Lemma conn_data_no_closed c seg : state c ≠ st_fin_wait_2 → ev_closed ∉ (conn_data c seg).2.*1.
Proof.
  intros Hs. unfold conn_data. cbv zeta. destruct (negb _); [apply not_elem_of_nil|]. destruct (_ && negb _); [apply not_elem_of_nil|].
  destruct (seq_gt (seg_seq seg) _); [apply not_elem_of_nil|]. set (p := if seq_gt _ _ then _ else _).
  assert (Hp : state p.1 = state c ∧ (p.2.*1 = [] ∨ p.2.*1 = [ev_data])) by (subst p; case_match; cbn; auto).
  clearbody p. destruct p as [c1 got]. cbn [fst snd] in Hp. destruct Hp as [Hs1 Hgot].
  match goal with |- context [let '(_, _) := ?q in _] => set (p := q) end.
  assert (Hq : ev_closed ∉ p.2.*1).
  { subst p. destruct (_ && _); [|apply not_elem_of_nil]. unfold fin_step. cbn [state set_rcv_nxt_local set_ack_pending]. rewrite Hs1.
    destruct (state c); cbn; rewrite ?elem_of_cons, ?elem_of_nil; intuition discriminate. }
  clearbody p. destruct p as [c2 ended]. cbn [fst snd] in *. rewrite fmap_app, elem_of_app. intros [Hx|Hx]; [|done].
  destruct Hgot as [E|E]; rewrite E, ?elem_of_cons, ?elem_of_nil in Hx; intuition discriminate.
Qed.

Lemma conn_segment_no_closed stack c seg : flag (out_flags c) out_fin_sent = false → state c ≠ st_fin_wait_2 →
  ev_closed ∉ (conn_segment stack c seg).2.*1.
Proof.
  intros Hf Hs. unfold conn_segment. replace (sync_out_flags c) with c by (unfold sync_out_flags; by rewrite Hf).
  assert (Ha : ev_closed ∉ (conn_ack c seg).2.*1).
  { unfold conn_ack. cbv zeta. destruct (seq_gt _ _); [apply not_elem_of_nil|]. rewrite Hf. cbn [andb].
    apply conn_data_no_closed. by destruct (ack_window_keeps c seg) as (-> & _). }
  assert (Hd : ev_closed ∉ (conn_data (conn_accept c seg) seg).2.*1) by (by apply conn_data_no_closed).
  assert (H1 : ev_closed ∉ [(ev_reset, [] : list Z)].*1) by (cbn; rewrite list_elem_of_singleton; discriminate).
  destruct (conn_data (conn_accept c seg) seg) as [c2 evs].
  destruct (state c); repeat case_match; try apply not_elem_of_nil; try done.
  cbn in *. rewrite elem_of_cons. intuition discriminate.
Qed.

Lemma conn_segment_reset stack c seg : flag (out_flags c) out_fin_sent = false → (fin_state (state c) → False) → state c ≠ st_closed →
  state (conn_segment stack c seg).1 = st_closed → ev_reset ∈ (conn_segment stack c seg).2.*1.
Proof.
  intros Hf Hfs Hn Hc. destruct (segment_over stack c seg Hn Hc) as [Hx|]; [|done]. exfalso. revert Hx. apply conn_segment_no_closed; [done|].
  intros Hw. apply Hfs. unfold fin_state. rewrite Hw. tauto.
Qed.

Section ids.
Context {E : Type} `{DpdkOps E}.
Context (stack : tcp_stack) (txq : queue).
Abbreviation n := (max_connections (params_ stack)).
Abbreviation inv := (inv stack).

(** The four ways a packet can leave the slots. *)
Inductive packet_effect (r r' : impl E) : Prop :=
  | pe_none : slots r' = slots r → events r' = events r → packet_effect r r'
  | pe_segment j seg : inr n j → state (slot r j) ≠ st_free → phase_ok (slot r j) →
      local r j (conn_segment stack (slot r j) seg).1 (conn_segment stack (slot r j) seg).2 r' → packet_effect r r'
  | pe_abort j c : inr n j → state (slot r j) = st_syn_received → state c = st_free → slots r' = <[Z.to_nat j := c]> (slots r) →
      generation c = generation (slot r j) → out_flags c = out_flags (slot r j) → terminated c = terminated (slot r j) →
      events r' = events r → packet_effect r r'
  | pe_open j seg rnd : inr n j → state (slot r j) = st_free →
      slots r' = <[Z.to_nat j := opened stack (slot r j) seg rnd]> (slots r) → events r' = events r → packet_effect r r'.

Lemma silent_effect r r' : silent r r' → packet_effect r r'.
Proof using. intros (Hs & _ & _ & _ & _ & _ & _ & He). by apply pe_none. Qed.

Lemma segment_effect m (r : impl E) j seg : inv m r → inr n j → state (slot r j) ≠ st_free →
  packet_effect r (process_segment stack r j seg).
Proof using.
  intros Hinv Hj Hnf. pose proof (inv_table stack m r j Hinv Hj) as Ht.
  destruct (aborts stack (sync_out_flags (slot r j)) seg) eqn:Hab.
  2: { eapply pe_segment; [done|done|by eapply inv_phase|by apply process_segment_local]. }
  apply andb_prop in Hab as [Hab Hacc]. apply andb_prop in Hab as [Hst Hr]. apply bool_decide_eq_true in Hst.
  assert (Hsy : sync_out_flags (slot r j) = slot r j).
  { destruct (sync_state (slot r j)) as [S1 S2]. apply S2. intros Hy. by destruct (S1 Hy) as (_ & ? & _). }
  rewrite Hsy in *. apply (pe_abort r _ j (freed (slot r j))); try done.
  all: unfold process_segment, process_syn_received; rewrite Hsy, put_slot_id, Hst, Hr, Hacc by done; done.
Qed.

Lemma open_effect m (r : impl E) seg : inv m r → packet_effect r (open stack r seg).
Proof using.
  intros Hinv. unfold open. destruct (free_slots r) as [|j rest] eqn:Ef.
  { apply silent_effect. eapply silent_trans; [|apply send_rst_silent]. done. }
  destruct (proj1 (i_free _ _ _ Hinv j)) as [Hj Hfree]; [rewrite Ef; by left|].
  destruct (rte_rand _) as [rnd w].
  match goal with |- packet_effect _ (send_syn_ack _ ?r1 ?c) => pose proof (send_syn_ack_silent stack r1 c) as (Hs & _ & _ & _ & _ & _ & _ & He) end.
  eapply (pe_open r _ j seg (u32 rnd)); [done|done|by rewrite Hs|by rewrite He].
Qed.

Lemma process_effect m (r : impl E) pkt : inv m r → n < 2 ^ 16 → pkt_wf pkt → packet_effect r (process stack r pkt).
Proof using.
  intros Hinv Hn Hw. unfold process. destruct (parse_frame _ _ _) as [| | | | | |seg] eqn:Hp; try (by apply pe_none).
  { destruct (handle_arp _ _ _ _ _ _ _) as [[[res nb] reply] w]. destruct res; try (by apply pe_none).
    pose proof (queue_control_silent (set_env (set_neighbors r nb) w) reply) as (Hs & _ & _ & _ & _ & _ & _ & He).
    apply pe_none; [by rewrite Hs|by rewrite He]. }
  apply parse_frame_ok in Hp; [|done]. unfold process_tcp. fold (seg_key seg). pose proof (seg_key_nonzero seg Hp) as Hk.
  destruct (Z.eqb_spec (flow_table.find (flows r) (seg_key seg)) flow_table.npos) as [Ef|Ef]; cbn [negb].
  { destruct (_ && _); [by eapply open_effect|apply silent_effect, send_rst_silent]. }
  destruct (find_live stack m r (seg_key seg) _ Hinv Hk eq_refl Ef) as (Hj & Hjf & _). by eapply segment_effect.
Qed.

Lemma slot_insert (r r' : impl E) j c i : Z.of_nat (length (slots r)) = n → inr n i → inr n j →
  slots r' = <[Z.to_nat j := c]> (slots r) → slot r' i = if decide (j = i) then c else slot r i.
Proof using. intros Hl Hi Hj Hs. unfold slot at 1. rewrite Hs. exact (slot_put stack r j i c Hl Hj Hi). Qed.

Lemma effect_evolves m (r r' : impl E) i : inv m r → packet_effect r r' → inr n i →
  ∃ k, (k <= 1)%nat ∧ evolves k (slot r i) (slot r' i).
Proof using.
  intros Hinv Hpe Hi. pose proof (i_len _ _ _ Hinv) as Hl.
  destruct Hpe as [Hs _|j seg Hj Hnf Hph Hloc|j c Hj Hst Hcf Hs Hg Hf Ht _|j seg rnd Hj Hst Hs _].
  - exists 0%nat. split; [lia|]. unfold slot. rewrite Hs. apply evolves_refl.
  - exists 0%nat. split; [lia|]. rewrite (slot_insert r r' j _ i Hl Hi Hj (l_slots _ _ _ _ _ Hloc)).
    case_decide; [subst j|apply evolves_refl]. destruct (conn_segment_id stack (slot r i) seg) as (Hg & _).
    destruct (conn_segment_sent stack (slot r i) seg) as [Hf Ht]. split; [done|done|by intros _| | |done|done|done].
    + intros _ Hk. left. apply conn_segment_known; auto.
    + intros _ Ho. by apply conn_segment_ends.
  - exists 0%nat. split; [lia|]. rewrite (slot_insert r r' j _ i Hl Hi Hj Hs). case_decide; [subst j|apply evolves_refl].
    split; [done|done|by rewrite Ht|by intros _ [_ ?]| |done|done|done]. intros _ _. rewrite Hcf. by left.
  - rewrite (slot_insert r r' j _ i Hl Hi Hj Hs). case_decide; [subst j|exists 0%nat; split; [lia|apply evolves_refl]].
    exists 1%nat. split; [lia|]. split; try done. by intros [? _].
Qed.

(** Events so far belong to connections the application knows, as they are now. *)
Definition events_current (r : impl E) : Prop := ∀ e, e ∈ events r →
  inr n (cid_slot (ev_conn e)) ∧ known (slot r (cid_slot (ev_conn e))) ∧
  generation (slot r (cid_slot (ev_conn e))) = cid_generation (ev_conn e).

Lemma effect_events m (r r' : impl E) : inv m r → packet_effect r r' → events_current r → events_current r'.
Proof using.
  intros Hinv Hpe Hcur e He. pose proof (i_len _ _ _ Hinv) as Hl.
  destruct Hpe as [Hs Hev|j seg Hj Hnf Hph Hloc|j c Hj Hst Hcf Hs Hg Hf Ht Hev|j seg rnd Hj Hst Hs Hev].
  - rewrite Hev in He. unfold slot. rewrite Hs. by apply Hcur.
  - rewrite (l_events _ _ _ _ _ Hloc), elem_of_app in He. pose proof (l_slots _ _ _ _ _ Hloc) as Hs.
    destruct (conn_segment_id stack (slot r j) seg) as (Hg & _). destruct He as [He|He].
    + destruct (Hcur e He) as (Hi & Hk & Hge). split; [done|]. rewrite (slot_insert r r' j _ _ Hl Hi Hj Hs).
      case_decide; [subst j|done]. split; [apply conn_segment_known; auto|congruence].
    + apply list_elem_of_fmap in He as (h & -> & Hh). cbn. split; [done|]. rewrite (slot_insert r r' j _ _ Hl Hj Hj Hs), decide_True by done.
      split; [|done]. apply conn_segment_known; [done|done|left]. intros Hn. rewrite Hn in Hh. by apply not_elem_of_nil in Hh.
  - rewrite Hev in He. destruct (Hcur e He) as (Hi & Hk & Hge). split; [done|]. rewrite (slot_insert r r' j _ _ Hl Hi Hj Hs).
    case_decide; [subst j|done]. destruct Hk as [_ ?]. done.
  - rewrite Hev in He. destruct (Hcur e He) as (Hi & Hk & Hge). split; [done|]. rewrite (slot_insert r r' j _ _ Hl Hi Hj Hs).
    case_decide; [subst j|done]. destruct Hk as [? _]. done.
Qed.

(** An event that ends a stream is followed by no more data of that connection,
    and its slot is over. *)
Definition ends_in_order (r : impl E) : Prop := ∀ l1 e l2, events r = l1 ++ e :: l2 → ends_stream (ev_type e) →
  (∀ d, d ∈ l2 → ev_conn d = ev_conn e → ev_type d ≠ ev_data) ∧ over (state (slot r (cid_slot (ev_conn e)))).

Lemma ends_unchanged m (r r' : impl E) j c : inv m r → inr n j → ¬ known (slot r j) → slots r' = <[Z.to_nat j := c]> (slots r) →
  events r' = events r → events_current r → ends_in_order r → ends_in_order r'.
Proof using.
  intros Hinv Hj Hnk Hs Hev Hcur Hord l1 e l2 He Hend. rewrite Hev in He. destruct (Hord l1 e l2 He Hend) as [H1 H2]. split; [done|].
  destruct (Hcur e) as (Hi & Hk & _); [rewrite He, elem_of_app, elem_of_cons; auto|].
  rewrite (slot_insert r r' j c _ (i_len _ _ _ Hinv) Hi Hj Hs). case_decide; [subst j|]; done.
Qed.

Lemma segment_order m (r r' : impl E) j seg : inv m r → inr n j →
  local r j (conn_segment stack (slot r j) seg).1 (conn_segment stack (slot r j) seg).2 r' →
  events_current r → ends_in_order r → ends_in_order r'.
Proof using.
  intros Hinv Hj Hloc Hcur Hord l1 e l2 He Hend. pose proof (i_len _ _ _ Hinv) as Hl. pose proof (l_slots _ _ _ _ _ Hloc) as Hs.
  destruct (conn_segment_ends stack (slot r j) seg) as (S1 & S2 & S3). rewrite (l_events _ _ _ _ _ Hloc) in He.
  set (new := stamp j (slot r j) <$> (conn_segment stack (slot r j) seg).2) in *.
  assert (Hty : ev_type <$> new = (conn_segment stack (slot r j) seg).2.*1) by apply types_stamp.
  assert (Hid : ∀ d, d ∈ new → cid_slot (ev_conn d) = j) by (intros d (h & -> & _)%list_elem_of_fmap; done).
  assert (Htin : ∀ d, d ∈ new → ev_type d ∈ (conn_segment stack (slot r j) seg).2.*1) by (intros d Hd; rewrite <- Hty; by apply list_elem_of_fmap_2).
  assert (Hold : (∃ l3, events r = l1 ++ e :: l3 ∧ l2 = l3 ++ new) ∨ ∃ l3, l1 = events r ++ l3 ∧ new = l3 ++ e :: l2).
  { symmetry in He. apply app_eq_inv in He as [(k & -> & Hk)|(k & Hk & Hx)]; [right; by exists k|].
    destruct k as [|e' k]; cbn in Hx; [right; exists []; by rewrite app_nil_r in *|]. injection Hx as <- ->. left. by exists k. }
  destruct Hold as [(l3 & Ho & ->)|(l3 & _ & Hn)].
  - destruct (Hord l1 e l3 Ho Hend) as [H1 H2]. destruct (Hcur e) as (Hi & _); [rewrite Ho, elem_of_app, elem_of_cons; auto|].
    rewrite (slot_insert r r' j _ _ Hl Hi Hj Hs). split.
    + intros d [Hd|Hd]%elem_of_app Hc; [by apply H1|]. intros Ht. rewrite <- Hc, (Hid d Hd) in H2.
      destruct (S3 H2) as [_ Hnd]. apply Hnd. rewrite <- Ht. by apply Htin.
    + case_decide as Hd; [|done]. rewrite <- Hd in H2. by apply S3.
  - assert (Hin : e ∈ new) by (rewrite Hn, elem_of_app, elem_of_cons; auto). rewrite (Hid e Hin).
    rewrite (slot_insert r r' j _ _ Hl Hj Hj Hs), decide_True by done. split; [|by apply (S2 (ev_type e)); [apply Htin|]].
    intros d Hd _ Ht. apply (S1 (ev_type <$> l3) (ev_type e) (ev_type <$> l2)); [by rewrite <- Hty, Hn, fmap_app|done|].
    rewrite <- Ht. by apply list_elem_of_fmap_2.
Qed.

Lemma effect_order m (r r' : impl E) : inv m r → packet_effect r r' → events_current r → ends_in_order r → ends_in_order r'.
Proof using.
  intros Hinv Hpe Hcur Hord.
  destruct Hpe as [Hs Hev|j seg Hj Hnf Hph Hloc|j c Hj Hst Hcf Hs Hg Hf Ht Hev|j seg rnd Hj Hst Hs Hev].
  - intros l1 e l2. rewrite Hev. unfold slot. rewrite Hs. apply Hord.
  - by eapply segment_order.
  - eapply ends_unchanged; [exact Hinv|exact Hj| |exact Hs|done..]. by intros [_ ?].
  - eapply ends_unchanged; [exact Hinv|exact Hj| |exact Hs|done..]. by intros [? _].
Qed.

(** A connection that is over when the burst arrives reports no more data. *)
Definition no_data_for (i g : Z) (r : impl E) : Prop := ∀ e, e ∈ events r →
  ev_conn e = {| cid_slot := i; cid_generation := g |} → ev_type e ≠ ev_data.

Lemma effect_no_data m (r r' : impl E) i g : inv m r → packet_effect r r' → inr n i →
  (generation (slot r i) = g → over (state (slot r i))) → no_data_for i g r → no_data_for i g r'.
Proof using.
  intros Hinv Hpe Hi Hover Hnd e He Hc.
  destruct Hpe as [Hs Hev|j seg Hj Hnf Hph Hloc|j c Hj Hst Hcf Hs Hg Hf Ht Hev|j seg rnd Hj Hst Hs Hev];
    try (rewrite Hev in He; by apply Hnd).
  rewrite (l_events _ _ _ _ _ Hloc), elem_of_app in He. destruct He as [He|He]; [by apply Hnd|].
  apply list_elem_of_fmap in He as (h & -> & Hh). injection Hc as -> Hg. cbn.
  destruct (conn_segment_ends stack (slot r i) seg) as (_ & _ & S3). destruct (S3 (Hover Hg)) as [_ Hno].
  intros Ht. apply Hno. rewrite <- Ht. by apply list_elem_of_fmap_2.
Qed.

Lemma burst_ids m (r : impl E) burst : inv m r → n < 2 ^ 16 → Forall pkt_wf burst → events_current r → ends_in_order r →
  let r' := foldl (process stack) r burst in
  events_current r' ∧ ends_in_order r' ∧ ∀ i, inr n i → ∃ k, (k <= length burst)%nat ∧ evolves k (slot r i) (slot r' i).
Proof using.
  intros Hinv Hn Hb. revert m r Hinv. induction Hb as [|p burst Hp Hb IH]; intros m r Hinv Hcur Hord; cbn [foldl].
  { split; [done|]. split; [done|]. intros i _. exists 0%nat. split; [lia|apply evolves_refl]. }
  pose proof (process_effect m r p Hinv Hn Hp) as Hpe. destruct (process_inv stack m r p Hinv Hn Hp) as [m' Hinv'].
  destruct (IH m' _ Hinv' (effect_events m r _ Hinv Hpe Hcur) (effect_order m r _ Hinv Hpe Hcur Hord)) as (Hc & Ho & Hev).
  split; [exact Hc|]. split; [exact Ho|]. intros i Hi.
  destruct (effect_evolves m r _ i Hinv Hpe Hi) as (k1 & H1 & E1). destruct (Hev i Hi) as (k2 & H2 & E2).
  exists (k1 + k2)%nat. split; [simpl; lia|by eapply evolves_trans].
Qed.

Lemma burst_no_data m (r0 r : impl E) burst i k0 : inv m r → n < 2 ^ 16 → Forall pkt_wf burst → inr n i →
  is_u32 (generation (slot r0 i)) → evolves k0 (slot r0 i) (slot r i) → Z.of_nat (k0 + length burst) < 2 ^ 31 →
  over (state (slot r0 i)) → no_data_for i (generation (slot r0 i)) r →
  no_data_for i (generation (slot r0 i)) (foldl (process stack) r burst).
Proof using.
  intros Hinv Hn Hb Hi Hu He Hk Hov. revert m r k0 Hinv He Hk. induction Hb as [|p burst Hp Hb IH]; intros m r k0 Hinv He Hk Hnd; [done|].
  cbn [foldl length] in *. pose proof (process_effect m r p Hinv Hn Hp) as Hpe. destruct (process_inv stack m r p Hinv Hn Hp) as [m' Hinv'].
  destruct (effect_evolves m r _ i Hinv Hpe Hi) as (k1 & H1 & E1).
  apply (IH m' _ (k0 + k1)%nat Hinv'); [by eapply evolves_trans|lia|]. eapply effect_no_data; [exact Hinv|exact Hpe|done| |done].
  intros Hg. rewrite (ev_gen _ _ _ He) in Hg. destruct k0 as [|k0]; [by apply (ev_over _ _ _ He)|].
  exfalso. revert Hg. apply next_generation_moves; [done|lia|lia].
Qed.

(** A connection that was not closed, and to which no FIN was sent, is closed
    by a reset the application is told of. *)
Definition resets_told (r0 r : impl E) : Prop := ∀ i, inr n i → state (slot r i) = st_closed → flag (out_flags (slot r i)) out_fin_sent = false →
  generation (slot r i) = generation (slot r0 i) ∧ state (slot r0 i) = st_closed ∨
  ∃ e, e ∈ events r ∧ ev_conn e = {| cid_slot := i; cid_generation := generation (slot r i) |} ∧ ev_type e = ev_reset.

Lemma effect_resets m (r0 r r' : impl E) : inv m r → slots_ok stack r → packet_effect r r' → resets_told r0 r → resets_told r0 r'.
Proof using.
  intros Hinv Hsl Hpe Hr i Hi Hc Hf. pose proof (i_len _ _ _ Hinv) as Hl.
  destruct Hpe as [Hs Hev|j seg Hj Hnf Hph Hloc|j c Hj Hst Hcf Hs Hg Hfl Ht Hev|j seg rnd Hj Hst Hs Hev].
  - unfold slot in Hc, Hf |- *. rewrite Hs, Hev in *. by apply (Hr i).
  - rewrite (l_events _ _ _ _ _ Hloc). rewrite (slot_insert r r' j _ i Hl Hi Hj (l_slots _ _ _ _ _ Hloc)) in *.
    assert (Hold : state (slot r i) = st_closed → flag (out_flags (slot r i)) out_fin_sent = false →
      generation (slot r i) = generation (slot r0 i) ∧ state (slot r0 i) = st_closed ∨
      ∃ e, e ∈ events r ++ (stamp j (slot r j) <$> (conn_segment stack (slot r j) seg).2) ∧
        ev_conn e = {| cid_slot := i; cid_generation := generation (slot r i) |} ∧ ev_type e = ev_reset).
    { intros Hc0 Hf0. destruct (Hr i Hi Hc0 Hf0) as [?|(e & He & Hx)]; [by left|right; exists e]. rewrite elem_of_app. auto. }
    case_decide; [subst j|by apply Hold]. destruct (conn_segment_id stack (slot r i) seg) as (Hg & _). rewrite Hg.
    destruct (conn_segment_sent stack (slot r i) seg) as [Hfl _]. rewrite Hfl in Hf.
    destruct (decide (state (slot r i) = st_closed)) as [Ec|Ec]; [by apply Hold|]. right.
    destruct (slots_ok_slot stack r i Hsl (inv_table stack m r i Hinv Hi)) as [_ [?|[Hwk _]]]; [done|].
    pose proof (conn_segment_reset stack (slot r i) seg Hf ltac:(intros Hx; rewrite (co_fin _ _ Hwk Hx) in Hf; done) Ec Hc) as Hin.
    apply list_elem_of_fmap in Hin as (h & Hh & Hin). exists (stamp i (slot r i) h). rewrite elem_of_app. split; [right; by apply list_elem_of_fmap_2|].
    by split.
  - rewrite Hev. rewrite (slot_insert r r' j _ i Hl Hi Hj Hs) in *. case_decide; [congruence|by apply Hr].
  - rewrite Hev. rewrite (slot_insert r r' j _ i Hl Hi Hj Hs) in *. case_decide; [done|by apply Hr].
Qed.

Lemma burst_resets m (r0 r : impl E) burst : stack_ok stack → inv m r → slots_ok stack r → Forall pkt_wf burst → resets_told r0 r →
  resets_told r0 (foldl (process stack) r burst).
Proof using.
  intros Hcfg Hinv Hsl Hb. revert m r Hinv Hsl. induction Hb as [|p burst Hp Hb IH]; intros m r Hinv Hsl Hr; [done|]. cbn [foldl].
  pose proof (process_effect m r p Hinv (proj2 (ck_n _ Hcfg)) Hp) as Hpe. destruct (process_inv stack m r p Hinv (proj2 (ck_n _ Hcfg)) Hp) as [m' Hinv'].
  apply (IH m' _ Hinv'); [by eapply process_slots|by eapply (effect_resets m _ r); [exact Hinv|exact Hsl|exact Hpe|exact Hr]].
Qed.

(** ** The rest of [poll] *)

(** Reaping, acknowledging and finalizing change nothing of an id; they free a
    slot only if the application has released it. *)
Record tidied (c c' : tcp_connection) : Prop := {
  td_gen : generation c' = generation c; td_flags : out_flags c' = out_flags c; td_term : terminated c' = terminated c;
  td_state : state c' = state c ∨ released c = true ∧ state c' = st_free }.

Lemma tidied_refl c : tidied c c.
Proof using. split; auto. Qed.
Lemma tidied_trans c1 c2 c3 : tidied c1 c2 → tidied c2 c3 → tidied c1 c3.
Proof using.
  intros [A1 A2 A3 A4] [B1 B2 B3 B4]. split; try congruence. unfold released in *. rewrite A2 in B4.
  destruct A4 as [A4|[? A4]], B4 as [B4|[? B4]]; [left; congruence|by right|right; split; congruence|by right].
Qed.
Lemma tidied_evolves c c' : tidied c c' → evolves 0 c c'.
Proof using.
  intros [A1 A2 A3 A4]. split; [done|done|by rewrite A3| | |done|done|].
  - intros _ Hk. destruct A4 as [A4|[? _]]; [left|by right]. unfold known in *. by rewrite A4.
  - intros _ Ho. destruct A4 as [-> |[_ ->]]; [done|by left].
  - intros _ Hf. destruct A4 as [-> |[_ ->]]; done.
Qed.

Lemma reap_tidied m (r : impl E) i : inv m r → ack_list r = [] → inr n i → tidied (slot r i) (slot (reap_released r) i).
Proof using.
  intros Hinv Hack Hi. destruct (reap_slot stack m r i Hinv Hack Hi) as [->|[Hr ->]]; [apply tidied_refl|]. split; try done. by right.
Qed.

Lemma flush_acks_tidied (r : impl E) l i : (∀ j, j ∈ l → in_table r j) → in_table r i →
  tidied (slot r i) (slot (foldl (flush_ack stack) r l) i).
Proof using.
  revert r. induction l as [|j l IH]; intros r Hl Hi; [apply tidied_refl|]. simpl. pose proof (Hl j ltac:(by left)) as Hj.
  pose proof (flush_ack_silent stack r j Hj) as Hs. pose proof (flush_ack_len stack r j Hj) as Hlen.
  apply (tidied_trans _ (slot (flush_ack stack r j) i)).
  - rewrite (silent_slot _ _ i Hs). destruct (decide (j = i)) as [->|Hne]; [rewrite slot_put_same by done; by split; auto|].
    unfold in_table in *. unfold slot at 2. cbn. rewrite list_lookup_total_insert_ne by lia. apply tidied_refl.
  - apply IH; [|unfold in_table in *; by rewrite Hlen]. intros j' Hj'. specialize (Hl j' ltac:(by right)). unfold in_table in *. by rewrite Hlen.
Qed.

Lemma finalize_one_tidied (r : impl E) j i : in_table r j → in_table r i →
  tidied (slot r i) (slot (finalize_one r j) i) ∧ length (slots (finalize_one r j)) = length (slots r).
Proof using.
  intros Hj Hi. unfold finalize_one. cbv zeta. unfold in_table in *.
  destruct (flag (out_flags (set_finalize_pending (slot r j) false)) out_released) eqn:Er.
  - split; [|cbn; by rewrite !length_insert]. unfold release_slot, slot. cbn. rewrite list_insert_insert_eq.
    destruct (decide (j = i)) as [->|Hne]; [|rewrite list_lookup_total_insert_ne by lia; apply tidied_refl].
    rewrite !list_lookup_total_insert_eq by lia. split; try done. right. by split; [exact Er|].
  - split; [|cbn; by rewrite !length_insert]. unfold slot. cbn.
    destruct (decide (j = i)) as [->|Hne]; [|rewrite list_lookup_total_insert_ne by lia; apply tidied_refl].
    rewrite list_lookup_total_insert_eq by lia. split; try done. by left.
Qed.

Lemma finalize_tidied (r : impl E) l i : (∀ j, j ∈ l → in_table r j) → in_table r i →
  tidied (slot r i) (slot (foldl finalize_one r l) i).
Proof using.
  revert r. induction l as [|j l IH]; intros r Hl Hi; [apply tidied_refl|]. simpl. pose proof (Hl j ltac:(by left)) as Hj.
  destruct (finalize_one_tidied r j i Hj Hi) as [Ht Hlen]. eapply tidied_trans; [exact Ht|]. apply IH.
  - intros j' Hj'. specialize (Hl j' ltac:(by right)). unfold in_table in *. by rewrite Hlen.
  - unfold in_table in *. by rewrite Hlen.
Qed.

(** [poll] and the ids. *)
Record poll_ids_spec (r : impl E) (burst : list rte_mbuf) (evs : list tcp_event) (r' : impl E) : Prop := {
  pi_evolves : ∀ i, inr n i → ∃ k, (k <= length burst)%nat ∧ evolves k (slot r i) (slot r' i);
  pi_current : ∀ e, e ∈ evs → let i := cid_slot (ev_conn e) in
    inr n i ∧ generation (slot r' i) = cid_generation (ev_conn e) ∧ 1 <= cid_generation (ev_conn e) ∧
    (known (slot r' i) ∨ released (slot r' i) = true);
  pi_order : ∀ l1 e l2, evs = l1 ++ e :: l2 → ends_stream (ev_type e) →
    (∀ d, d ∈ l2 → ev_conn d = ev_conn e → ev_type d ≠ ev_data) ∧ over (state (slot r' (cid_slot (ev_conn e))));
  pi_over : ∀ e, e ∈ evs → let i := cid_slot (ev_conn e) in
    generation (slot r i) = cid_generation (ev_conn e) → over (state (slot r i)) → ev_type e ≠ ev_data;
  pi_reset : ∀ i, inr n i → state (slot r' i) = st_closed → flag (out_flags (slot r' i)) out_fin_sent = false →
    generation (slot r' i) = generation (slot r i) ∧ state (slot r i) = st_closed ∨
    ∃ e, e ∈ evs ∧ ev_conn e = {| cid_slot := i; cid_generation := generation (slot r' i) |} ∧ ev_type e = ev_reset;
  pi_source : ∀ e, e ∈ evs → let i := cid_slot (ev_conn e) in
    generation (slot r i) = cid_generation (ev_conn e) → state (slot r i) ≠ st_free }.

Lemma poll_ids m (r : impl E) burst : stack_ok stack → inv m r → quiescent r → slots_ok stack r → Forall pkt_wf burst →
  Z.of_nat (length burst) < 2 ^ 31 → poll_ids_spec r burst (poll stack txq r burst).1 (poll stack txq r burst).2.
Proof using.
  intros Hcfg Hinv Hq Hsl Hb Hlen. pose proof Hq as (Hack & _). set (r0 := set_events r []). pose proof (proj2 (ck_n _ Hcfg)) as Hn.
  assert (Hinv0 : inv m r0) by (by eapply inv_quiet; [|exact Hinv]).
  destruct (reap_spec stack m r0 Hinv0 Hack) as (Hr1 & _ & _ & _ & Hev1 & _).
  assert (Hno : ∀ e, e ∉ events (reap_released r0)) by (intros e; rewrite Hev1; apply not_elem_of_nil).
  assert (Hreap : ∀ i, inr n i → evolves 0 (slot r i) (slot (reap_released r0) i))
    by (intros i Hi; apply tidied_evolves; exact (reap_tidied m r0 i Hinv0 Hack Hi)).
  destruct (burst_ids m (reap_released r0) burst Hr1 Hn Hb) as (Hcur & Hord & Hburst).
  { intros e He. by apply Hno in He. }
  { intros l1 e l2 He. exfalso. apply (Hno e). rewrite He, elem_of_app, elem_of_cons. auto. }
  pose proof (reaped_slots stack r0 Hsl) as Hsl1.
  assert (Hres : resets_told r (foldl (process stack) (reap_released r0) burst)).
  { apply (burst_resets m r); [done|done|done|done|]. intros i Hi Hc _. left.
    destruct (reap_tidied m r0 i Hinv0 Hack Hi) as [T1 _ _ [T4|[_ T4]]]; [|congruence]. split; [exact T1|exact (eq_trans (eq_sym T4) Hc)]. }
  pose proof (λ i Hi, burst_no_data m r (reap_released r0) burst i 0 Hr1 Hn Hb Hi) as Hquiet.
  change (foldl (process stack) (reap_released r0) burst) with (after_packets stack r burst) in Hcur, Hord, Hburst, Hquiet, Hres.
  pose proof (packets_slots stack m r burst Hcfg Hinv Hq Hsl Hb) as Hps.
  destruct (after_packets_inv stack m r burst Hinv Hq Hn Hb) as ([m1 H1] & _).
  pose proof (flush_acks_inv stack m1 _ H1) as H2. fold (after_acks stack r burst) in H2.
  destruct (flush_acks_events stack (after_packets stack r burst) m1 H1) as [Fe _]. fold (after_acks stack r burst) in Fe.
  destruct (flush_control_lists txq (after_acks stack r burst)) as [Hsil _].
  pose proof (inv_quiet stack m1 _ _ (silent_quiet _ _ Hsil) H2) as H3. set (r3 := flush_control txq (after_acks stack r burst)) in *.
  set (r' := (poll stack txq r burst).2). assert (Hr' : r' = finalize r3) by (subst r'; by rewrite poll_unfold).
  assert (Hevs : (poll stack txq r burst).1 = events (after_packets stack r burst)).
  { rewrite poll_unfold. cbn [fst]. fold r3. destruct (finalize_rest r3) as (-> & _). destruct Hsil as (_ & _ & _ & _ & _ & _ & _ & ->). exact Fe. }
  rewrite Hevs. clearbody r'. assert (Htail : ∀ i, inr n i → tidied (slot (after_packets stack r burst) i) (slot r' i)).
  { intros i Hi. rewrite Hr'. apply (tidied_trans _ (slot r3 i)).
    - rewrite (silent_slot _ _ i Hsil). apply flush_acks_tidied; [|by eapply inv_table]. intros j Hj. eapply inv_table; [done|by apply (i_acks _ _ _ H1)].
    - apply finalize_tidied; [|by eapply inv_table]. intros j Hj. eapply inv_table; [done|by apply (i_fin _ _ _ H3)]. }
  split.
  - intros i Hi. destruct (Hburst i Hi) as (k & Hk & Hev). exists k. split; [done|].
    replace k with (0 + k + 0)%nat by lia. eapply evolves_trans; [eapply evolves_trans; [by apply Hreap|exact Hev]|by apply tidied_evolves, Htail].
  - intros e He. cbv zeta. destruct (Hcur e He) as (Hi & Hk & Hg). split; [done|]. destruct (Htail _ Hi) as [T1 T2 T3 T4]. split; [congruence|].
    destruct (slots_ok_slot stack _ _ Hps (inv_table stack m1 _ _ H1 Hi)) as [_ [Hf|[Hwk _]]]; [by destruct Hk|].
    split; [rewrite <- Hg; apply (co_gen _ _ Hwk)|].
    unfold known, released in *. rewrite T2. destruct T4 as [->|[? _]]; [by left|by right].
  - intros l1 e l2 He Hend. destruct (Hord l1 e l2 He Hend) as [O1 O2]. split; [done|].
    destruct (Hcur e) as (Hi & _); [rewrite He, elem_of_app, elem_of_cons; auto|]. by apply (ev_over _ _ _ (tidied_evolves _ _ (Htail _ Hi))).
  - intros e He. cbv zeta. intros Hg Hov. destruct (Hcur e He) as (Hi & _).
    apply (Hquiet _ Hi) with (e := e); [|by apply Hreap|simpl; lia|done| |done|].
    + exact (ty_gen _ (proj1 (slots_ok_slot stack _ _ Hsl (inv_table stack m _ _ Hinv Hi)))).
    + intros e' He'. by apply Hno in He'.
    + rewrite Hg. by destruct (ev_conn e).
  - intros i Hi Hc Hf. destruct (Htail i Hi) as [T1 T2 T3 [T4|[_ T4]]]; [|congruence]. rewrite T1. apply Hres; [done|congruence|congruence].
  - intros e He. cbv zeta. intros Hg Hfr. destruct (Hcur e He) as (Hi & [Hk _] & Hge). destruct (Hburst _ Hi) as (k & Hk1 & Hev).
    assert (Hev0 : evolves k (slot r (cid_slot (ev_conn e))) (slot (after_packets stack r burst) (cid_slot (ev_conn e))))
      by exact (evolves_trans 0 k _ _ _ (Hreap _ Hi) Hev).
    destruct k as [|k]; [by apply Hk, (ev_free _ _ _ Hev0)|]. rewrite (ev_gen _ _ _ Hev0), <- Hg in Hge. revert Hge.
    apply next_generation_moves; [|lia|lia]. exact (ty_gen _ (proj1 (slots_ok_slot stack _ _ Hsl (inv_table stack m _ _ Hinv Hi)))).
Qed.
End ids.
