(* ===== verification/TcpThreads.v ===== *)
(** * The two threads, access by access

    TcpSystem.v takes a call as one step.  Here the outbound thread's calls are
    programs ([prog]): one constructor per load and store of a slot's atomics,
    per read of its plain fields and per call into DPDK, in the order of
    src/tcp_stack.cpp.  The inbound thread's [poll] is cut at the points where
    one slot or one packet has been dealt with ([in_step]).  [fine_step] lets
    the two run in any interleaving.

    A load of a value that the inbound thread publishes may return what the slot
    held at any moment since the call began: this covers handlers caught halfway
    (each of them stores an atomic at most once) and loads that see an older
    store.  The values the sender owns are read as they are. *)

From S2P Require Import Prelude Probing FlowTable Dpdk DpdkSim Packet Segment SegmentWire SeqArith Arp TcpState TcpReceiver.
From S2P Require Import TcpConn TcpInv TcpPoll TcpSender TcpValues TcpSystem TcpStream TcpIds.

(** ** The atomics of a slot *)

Inductive atomic := A_generation | A_rcv_nxt | A_send_window | A_terminated | A_snd_nxt | A_out_flags.
#[export] Instance atomic_eq_dec : EqDecision atomic.
Proof. solve_decision. Defined.

Definition read (x : atomic) (c : tcp_connection) : Z :=
  match x with
  | A_generation => generation c | A_rcv_nxt => rcv_nxt c | A_send_window => send_window c
  | A_terminated => terminated c | A_snd_nxt => snd_nxt c | A_out_flags => out_flags c
  end.

Definition set_generation (c : tcp_connection) (v : Z) : tcp_connection :=
  Conn (peer_ip c) (peer_port c) (local_port c) (peer_mac c) (send_mss c) (iss c) (state c) (irs c)
    (rcv_nxt_local c) (snd_una c) (snd_wnd c) (snd_wl1 c) (snd_wl2 c) (ack_pending c) (finalize_pending c) v
    (rcv_nxt c) (send_window c) (terminated c) (snd_nxt c) (out_flags c).

Definition write (x : atomic) (v : Z) (c : tcp_connection) : tcp_connection :=
  match x with
  | A_generation => set_generation c v | A_rcv_nxt => set_rcv_nxt c v | A_send_window => set_send_window c v
  | A_terminated => set_terminated c v | A_snd_nxt => set_snd_nxt c v | A_out_flags => set_out_flags c v
  end.

(** The atomics the outbound thread writes. *)
Definition sender_owned (x : atomic) : bool :=
  match x with A_snd_nxt | A_out_flags => true | _ => false end.

(** ** Programs *)

Inductive prog {E A : Type} : Type :=
  | Ret (a : A)
  | Load (x : atomic) (i : Z) (k : Z → prog)
  | Store (x : atomic) (i v : Z) (k : prog)
  | Plain {B : Type} (i : Z) (f : tcp_connection → B) (k : B → prog)
  | Dpdk {B : Type} (f : E → B * E) (k : B → prog).
Arguments prog : clear implicits.

Fixpoint pbind {E A B} (p : prog E A) (f : A → prog E B) : prog E B :=
  match p with
  | Ret a => f a
  | Load x i k => Load x i (λ v, pbind (k v) f)
  | Store x i v k => Store x i v (pbind k f)
  | Plain i g k => Plain i g (λ b, pbind (k b) f)
  | Dpdk g k => Dpdk g (λ b, pbind (k b) f)
  end.

Declare Scope prog_scope.
Delimit Scope prog_scope with prog.
Notation "'let!' x := p 'in' q" := (pbind p (λ x, q)) (at level 10, x pattern, p at level 100, q at level 200) : prog_scope.

(** A program run by itself. *)
Fixpoint run {E A} (p : prog E A) (s : list tcp_connection) (w : E) : A * list tcp_connection * E :=
  match p with
  | Ret a => (a, s, w)
  | Load x i k => run (k (read x (conn_at s i))) s w
  | Store x i v k => run k (put_conn s i (write x v (conn_at s i))) w
  | Plain i f k => run (k (f (conn_at s i))) s w
  | Dpdk f k => let '(b, w) := f w in run (k b) s w
  end.

Lemma run_bind {E A B} (p : prog E A) (f : A → prog E B) s w :
  run (pbind p f) s w = let '(a, s, w) := run p s w in run (f a) s w.
Proof.
  revert s w. induction p as [a|x i k IH|x i v k IH|C i g k IH|C g k IH]; intros s w; cbn; auto.
  destruct (g w) as [b w']. apply IH.
Qed.

(** ** The outbound thread *)

Section sender_programs.
Context {E : Type} `{DpdkOps E}.
Context (stack : tcp_stack) (txq : queue).
Local Open Scope prog_scope.

(** [None]: a null pointer. *)
Definition lookup_prog (conn : conn_id) : prog E (option Z) :=
  if max_connections (params_ stack) <=? cid_slot conn then Ret None
  else
    let i := cid_slot conn in
    Load A_generation i (λ gen,
    if negb (gen =? cid_generation conn) then Ret None
    else
      Load A_out_flags i (λ out,
      Load A_generation i (λ gen,
      if negb (gen =? cid_generation conn) || flag out out_released then Ret None
      else Ret (Some i)))).

Definition sendable_prog (conn : conn_id) : prog E bool :=
  let! c := lookup_prog conn in
  match c with
  | None => Ret false
  | Some i =>
    Load A_out_flags i (λ out,
    if flag out out_fin_sent then Ret false
    else Load A_terminated i (λ t, Ret (t =? 0)))
  end.

(** The inner loop of [send]. *)
Fixpoint build_prog (room : nat) (i : Z) (a : segment_addr) (base ack : Z) (bytes : list Z) (limit off : Z)
    : prog E (list (rte_mbuf * Z) * Z) :=
  match room with
  | O => Ret ([], off)
  | S room =>
    if off <? limit then
      Plain i send_mss (λ mss,
      let len := Z.min mss (limit - off) in
      let flags := Z.lor RTE_TCP_ACK_FLAG (if off + len =? limit then RTE_TCP_PSH_FLAG else 0) in
      Dpdk (build_segment (pool_ stack) a (u32 (base + u32 off)) ack flags (receive_window (params_ stack))
              (sub bytes (Z.to_nat off) (Z.to_nat len)) 0) (λ pkt,
      match pkt with
      | None => Ret ([], off)
      | Some m =>
        let! (rest, off') := build_prog room i a base ack bytes limit (off + len) in
        Ret ((m, off + len) :: rest, off')
      end))
    else Ret ([], off)
  end.

(** [tx_queue::send_burst] and the destructor of what it left, as DPDK calls. *)
Definition transmit (pkts : list rte_mbuf) (w : E) : (Z * list packet) * E := send_burst txq pkts w.
Definition discard (b : list packet) (w : E) : unit * E := (tt, burst_dtor b w).

(** The outer loop; [None] if the fuel runs out. *)
Fixpoint send_loop_prog (fuel : nat) (i : Z) (a : segment_addr) (base ack : Z) (bytes : list Z) (limit done : Z)
    : prog E (option Z) :=
  match fuel with
  | O => Ret None
  | S fuel =>
    if done <? limit then
      let! (segs, off) := build_prog (Z.to_nat burst_max_size) i a base ack bytes limit done in
      let n := Z.of_nat (length segs) in
      if n =? 0 then Ret (Some done)
      else
        Store A_snd_nxt i (u32 (base + u32 off)) (
        Dpdk (transmit segs.*1) (λ '(sent, left_),
        if sent <? n then
          let done := if 0 <? sent then segs.*2 !!! Z.to_nat (sent - 1) else done in
          Store A_snd_nxt i (u32 (base + u32 done)) (
          Dpdk (discard left_) (λ _, Ret (Some done)))
        else
          Dpdk (discard left_) (λ _,
          if (n <? burst_max_size) && (off <? limit) then Ret (Some off)
          else send_loop_prog fuel i a base ack bytes limit off)))
    else Ret (Some done)
  end.

(** [None]: the unchecked pointer of the second [lookup] was null, or the loop
    did not end. *)
Definition send_prog (conn : conn_id) (bytes : list Z) : prog E (option Z) :=
  if bool_decide (bytes = []) then Ret (Some 0)
  else
    let! ok := sendable_prog conn in
    if negb ok then Ret (Some 0)
    else
      let! c := lookup_prog conn in
      match c with
      | None => Ret None
      | Some i =>
        Load A_snd_nxt i (λ base,
        Load A_send_window i (λ win,
        let limit := Z.min (Z.of_nat (length bytes)) (window_space win base) in
        if limit =? 0 then Ret (Some 0)
        else
          Load A_rcv_nxt i (λ ack,
          Plain i (conn_addr stack) (λ a,
          send_loop_prog (S (Z.to_nat limit)) i a base ack bytes limit 0))))
      end.

(** The retry loop of [close]. *)
Fixpoint fin_prog (attempts : nat) (i : Z) (a : segment_addr) (seq : Z) (fin : packet) : prog E unit :=
  match attempts with
  | O => Dpdk (λ w, (tt, packet_dtor fin w)) Ret
  | S attempts =>
    let! fin :=
      match fin with
      | None =>
        Load A_rcv_nxt i (λ ack,
        Dpdk (build_segment (pool_ stack) a seq ack (Z.lor RTE_TCP_FIN_FLAG RTE_TCP_ACK_FLAG)
                (receive_window (params_ stack)) [] 0) Ret)
      | Some m => Ret (Some m)
      end in
    match fin with
    | None => fin_prog attempts i a seq None
    | Some m =>
      Dpdk (transmit [m]) (λ '(sent, left_),
      let fin := default None (head left_) in
      if sent =? 1 then Dpdk (λ w, (tt, packet_dtor fin w)) Ret
      else fin_prog attempts i a seq fin)
    end
  end.

Definition close_prog (conn : conn_id) : prog E unit :=
  let! c := lookup_prog conn in
  match c with
  | None => Ret tt
  | Some i =>
    Load A_out_flags i (λ out,
    let release out := Store A_out_flags i (u8 (Z.lor out out_released)) (Ret tt) in
    if negb (flag out out_fin_sent) then
      Load A_terminated i (λ t,
      if t =? 0 then
        Load A_snd_nxt i (λ seq,
        Plain i (conn_addr stack) (λ a,
        Store A_snd_nxt i (u32 (seq + 1)) (
        let out := Z.lor out out_fin_sent in
        Store A_out_flags i out (
        let! _ := fin_prog kCloseRetries i a seq None in
        release out))))
      else release out)
    else release out)
  end.
End sender_programs.

(** ** Run alone, the programs are the functions of TcpSender.v *)

Section alone.
Context {E : Type} `{DpdkOps E}.
Context (stack : tcp_stack) (txq : queue).

Lemma run_lookup conn s (w : E) : run (lookup_prog stack conn) s w = (lookup stack s conn, s, w).
Proof using.
  unfold lookup_prog, lookup. destruct (_ <=? _); [done|]. cbn. destruct (negb _) eqn:Eg; cbn; [done|]. rewrite Eg. cbn.
  by destruct (flag _ _).
Qed.

Lemma run_sendable conn s (w : E) : run (sendable_prog stack conn) s w = (sendable stack s conn, s, w).
Proof using.
  unfold sendable_prog, sendable. rewrite run_bind, run_lookup. destruct (lookup _ _ _) as [i|]; cbn; [|done].
  destruct (flag _ _); done.
Qed.

Lemma run_build room i base ack bytes limit off s (w : E) :
  run (build_prog stack room i (conn_addr stack (conn_at s i)) base ack bytes limit off) s w =
  let '(segs, off', w') := build_burst stack room (conn_at s i) base ack bytes limit off w in ((segs, off'), s, w').
Proof using.
  revert off w. induction room as [|room IH]; intros off w; [done|]. cbn. destruct (off <? limit); [|done]. cbn.
  destruct (build_segment _ _ _ _ _ _ _ _ w) as [[m|] w1]; [|done]. rewrite run_bind, IH.
  by destruct (build_burst _ _ _ _ _ _ _ _ w1) as [[rest off'] w2].
Qed.

Lemma run_send_loop fuel i base ack bytes limit off0 s (w : E) : in_slots s i →
  (let '(k, s', w') := run (send_loop_prog stack txq fuel i (conn_addr stack (conn_at s i)) base ack bytes limit off0) s w in
   (λ k, (k, s', w')) <$> k) = send_loop stack txq fuel s i base ack bytes limit off0 w.
Proof using.
  revert s off0 w. induction fuel as [|fuel IH]; intros s off0 w Hi; [done|]. cbn [send_loop_prog send_loop].
  destruct (off0 <? limit); [|done]. rewrite run_bind, run_build.
  destruct (build_burst _ _ _ _ _ _ _ _ w) as [[segs off] w1]. destruct (_ =? 0); [done|]. cbn [run].
  unfold transmit. set (s1 := put_conn s i _). destruct (send_burst txq segs.*1 w1) as [[sent left_] w2].
  destruct (sent <? _); [done|]. cbn. destruct (_ && _); [done|].
  assert (Ha : conn_addr stack (conn_at s i) = conn_addr stack (conn_at s1 i)) by (subst s1; by rewrite conn_at_put).
  rewrite Ha. apply IH. by apply in_slots_put.
Qed.

Lemma lookup_in_slots conn s i : lookup stack s conn = Some i → Z.of_nat (length s) = max_connections (params_ stack) →
  0 <= cid_slot conn → i = cid_slot conn ∧ in_slots s i.
Proof using.
  unfold lookup. intros Hl Hn H0. destruct (Z.leb_spec (max_connections (params_ stack)) (cid_slot conn)); [done|].
  assert (i = cid_slot conn) as -> by (repeat case_match; congruence). split; [done|]. unfold in_slots. lia.
Qed.

Lemma run_send conn bytes s (w : E) : Z.of_nat (length s) = max_connections (params_ stack) → 0 <= cid_slot conn →
  (let '(k, s', w') := run (send_prog stack txq conn bytes) s w in (λ k, (k, s', w')) <$> k) = send stack txq s conn bytes w.
Proof using.
  intros Hn H0. unfold send_prog, send. case_bool_decide; [done|]. cbn [orb]. rewrite run_bind, run_sendable.
  destruct (sendable stack s conn) eqn:Es; cbn [negb]; [|done]. rewrite run_bind, run_lookup.
  destruct (lookup stack s conn) as [i|] eqn:El; [|unfold sendable in Es; by rewrite El in Es].
  destruct (lookup_in_slots conn s i El Hn H0) as [_ Hi]. cbn [run read]. destruct (_ =? 0); [done|]. cbn [run read].
  by apply run_send_loop.
Qed.

Lemma run_fin attempts i seq fin s (w : E) :
  run (fin_prog stack txq attempts i (conn_addr stack (conn_at s i)) seq fin) s w =
  (tt, s, fin_loop stack txq attempts (conn_at s i) seq fin w).
Proof using.
  revert fin w. induction attempts as [|k IH]; intros fin w; [done|]. cbn [fin_prog fin_loop]. rewrite run_bind.
  destruct fin as [m|]; cbn [run read].
  - unfold transmit. destruct (send_burst txq [m] w) as [[sent left_] w2]. destruct (sent =? 1); [done|]. apply IH.
  - destruct (build_segment _ _ _ _ _ _ _ _ w) as [[m|] w1]; [|apply IH]. cbn [run]. unfold transmit.
    destruct (send_burst txq [m] w1) as [[sent left_] w2]. destruct (sent =? 1); [done|]. apply IH.
Qed.

Lemma run_close conn s (w : E) : Z.of_nat (length s) = max_connections (params_ stack) → 0 <= cid_slot conn →
  run (close_prog stack txq conn) s w = (tt, (close stack txq s conn w).1, (close stack txq s conn w).2).
Proof using.
  intros Hn H0. unfold close_prog, close. rewrite run_bind, run_lookup. destruct (lookup stack s conn) as [i|] eqn:El; [|done].
  destruct (lookup_in_slots conn s i El Hn H0) as [_ Hi]. cbn [run read]. set (c := conn_at s i).
  destruct (negb (flag (out_flags c) out_fin_sent)); [|done]. cbn [run read andb]. fold c. destruct (terminated c =? 0); [|done].
  cbn [run read write]. fold c. rewrite conn_at_put by done. rewrite run_bind, put_put.
  set (c1 := set_out_flags (set_snd_nxt c _) _). set (s1 := put_conn s i c1).
  assert (Hc1 : conn_at s1 i = c1) by (by apply conn_at_put).
  change (conn_addr stack c) with (conn_addr stack c1). rewrite <- Hc1. rewrite run_fin. rewrite Hc1.
  cbn [run read write fst snd]. unfold s1. by rewrite conn_at_put, put_put.
Qed.
End alone.

(** ** The inbound thread *)

(** Where [poll] is: between slots of [reap_released], packets of the burst,
    entries of the two work lists. *)
Inductive in_pc :=
  | In_idle
  | In_reap (k : nat) (burst : list rte_mbuf)
  | In_packets (burst : list rte_mbuf)
  | In_acks (todo : list Z)
  | In_control
  | In_finalize (todo : list Z).

Section inbound.
Context {E : Type} `{DpdkOps E}.
Context (stack : tcp_stack) (txq : queue).

Definition in_start (burst : list rte_mbuf) (r : impl E) : in_pc * impl E := (In_reap 0 burst, set_events r []).

Definition in_step (pc : in_pc) (r : impl E) : in_pc * impl E :=
  match pc with
  | In_idle => (In_idle, r)
  | In_reap k burst =>
    if (k <? length (awaiting_release r))%nat then
      let idx := awaiting_release r !!! k in
      if flag (out_flags (slot r idx)) out_released then
        let r := release_slot r idx in
        (In_reap k burst, set_awaiting_release r (swap_remove k (awaiting_release r)))
      else (In_reap (S k) burst, r)
    else (In_packets burst, r)
  | In_packets [] => (In_acks (ack_list r), r)
  | In_packets (pkt :: burst) => (In_packets burst, process stack r pkt)
  | In_acks [] => (In_control, set_ack_list r [])
  | In_acks (idx :: todo) => (In_acks todo, flush_ack stack r idx)
  | In_control => let r := flush_control txq r in (In_finalize (finalize_list r), r)
  | In_finalize [] => (In_idle, set_finalize_list r [])
  | In_finalize (idx :: todo) => (In_finalize todo, finalize_one r idx)
  end.

(** [poll] without interruption. *)
Definition in_run (k : nat) (p : in_pc * impl E) : in_pc * impl E := Nat.iter k (λ p, in_step p.1 p.2) p.
Definition in_reaches (p p' : in_pc * impl E) : Prop := ∃ k, in_run k p = p'.

Lemma in_reaches_trans p1 p2 p3 : in_reaches p1 p2 → in_reaches p2 p3 → in_reaches p1 p3.
Proof using. intros [k1 <-] [k2 <-]. exists (k2 + k1)%nat. apply Nat.iter_add. Qed.
Lemma in_reaches_step pc r p : in_reaches (in_step pc r) p → in_reaches (pc, r) p.
Proof using. apply in_reaches_trans. by exists 1%nat. Qed.
Lemma in_reaches_refl p : in_reaches p p.
Proof using. by exists 0%nat. Qed.

Lemma in_reap_reaches fuel k burst (r r' : impl E) : reap_loop fuel k r = Some r' → in_reaches (In_reap k burst, r) (In_packets burst, r').
Proof using.
  revert k r. induction fuel as [|f IH]; intros k r; [done|]. cbn [reap_loop]. intros Hr. apply in_reaches_step. cbn [in_step].
  destruct (_ <? _)%nat; [|by injection Hr as ->; apply in_reaches_refl]. destruct (flag _ _); by apply IH.
Qed.

Lemma reap_loop_ends fuel k (r : impl E) : (length (awaiting_release r) - k < fuel)%nat → is_Some (reap_loop fuel k r).
Proof using.
  revert k r. induction fuel as [|f IH]; intros k r Hf; [lia|]. cbn [reap_loop].
  destruct (Nat.ltb_spec k (length (awaiting_release r))) as [Hk|]; [|done].
  destruct (flag _ _); apply IH; [|lia]. pose proof (Permutation_length (swap_remove_perm _ _ Hk)) as Hl. cbn [length] in Hl.
  cbn [awaiting_release set_awaiting_release release_slot set_free_slots put_slot set_slots]. lia.
Qed.

Lemma in_packets_reaches burst (r : impl E) : in_reaches (In_packets burst, r) (In_packets [], foldl (process stack) r burst).
Proof using. revert r. induction burst as [|p b IH]; intros r; [apply in_reaches_refl|]. apply in_reaches_step. apply IH. Qed.
Lemma in_acks_reaches todo (r : impl E) : in_reaches (In_acks todo, r) (In_acks [], foldl (flush_ack stack) r todo).
Proof using. revert r. induction todo as [|p b IH]; intros r; [apply in_reaches_refl|]. apply in_reaches_step. apply IH. Qed.
Lemma in_finalize_reaches todo (r : impl E) : in_reaches (In_finalize todo, r) (In_finalize [], foldl finalize_one r todo).
Proof using. revert r. induction todo as [|p b IH]; intros r; [apply in_reaches_refl|]. apply in_reaches_step. apply IH. Qed.

Lemma in_steps_poll (r : impl E) burst : in_reaches (in_start burst r) (In_idle, (poll stack txq r burst).2).
Proof using.
  unfold poll, in_start. cbn [snd]. set (r0 := set_events r []). unfold reap_released.
  destruct (reap_loop_ends (S (length (awaiting_release r0))) 0 r0 ltac:(lia)) as [r1 Hr]. rewrite Hr. cbn [default].
  eapply in_reaches_trans; [by eapply in_reap_reaches|]. eapply in_reaches_trans; [apply in_packets_reaches|].
  apply in_reaches_step. eapply in_reaches_trans; [apply in_acks_reaches|]. do 2 apply in_reaches_step.
  eapply in_reaches_trans; [apply in_finalize_reaches|]. apply in_reaches_step. apply in_reaches_refl.
Qed.
End inbound.

(** ** Interleavings *)

Inductive job := J_send (bytes : list Z) | J_close.

(** A call of the outbound thread: what was asked, the state it was made in,
    the slots as they have been since, and what is left to do. *)
Record call (E : Type) := Call {
  cl_conn : conn_id; cl_job : job; cl_from : impl E; cl_since : list (list tcp_connection); cl_prog : prog E (option Z) }.
Arguments Call {E}. Arguments cl_conn {E}. Arguments cl_job {E}. Arguments cl_from {E}. Arguments cl_since {E}. Arguments cl_prog {E}.

Record threads (E : Type) := Threads { t_impl : impl E; t_in : in_pc; t_out : option (call E) }.
Arguments Threads {E}. Arguments t_impl {E}. Arguments t_in {E}. Arguments t_out {E}.

Section interleavings.
Context {E : Type} `{DpdkOps E} `{!DpdkWire E}.
Context (stack : tcp_stack) (control_txq data_txq : queue).
Abbreviation n := (max_connections (params_ stack)).

Definition job_prog (conn : conn_id) (j : job) : prog E (option Z) :=
  match j with
  | J_send bytes => send_prog stack data_txq conn bytes
  | J_close => pbind (close_prog stack data_txq conn) (λ _, Ret (Some 0))
  end.

(** The ids the application may use: of a connection it knows and has not
    released. *)
Definition usable (r : impl E) (conn : conn_id) : Prop :=
  inr n (cid_slot conn) ∧ generation (slot r (cid_slot conn)) = cid_generation conn ∧
  known (slot r (cid_slot conn)) ∧ released (slot r (cid_slot conn)) = false.

(** One access of the sender. *)
Inductive out_step (since : list (list tcp_connection)) (r : impl E) {A} : prog E A → prog E A → impl E → Prop :=
  | os_load_own x i k : sender_owned x = true → out_step since r (Load x i k) (k (read x (conn_at (slots r) i))) r
  | os_load_seen x i k s : sender_owned x = false → s ∈ since → out_step since r (Load x i k) (k (read x (conn_at s i))) r
  | os_store x i v k : out_step since r (Store x i v k) k (set_slots r (put_conn (slots r) i (write x v (conn_at (slots r) i))))
  | os_plain B i (f : _ → B) k : out_step since r (Plain i f k) (k (f (conn_at (slots r) i))) r
  | os_dpdk B (f : E → B * E) k : out_step since r (Dpdk f k) (k (f (env r)).1) (set_env r (f (env r)).2).

Definition set_prog (c : call E) (p : prog E (option Z)) : call E := Call (cl_conn c) (cl_job c) (cl_from c) (cl_since c) p.
Definition witnesses (r : impl E) (c : call E) : call E :=
  Call (cl_conn c) (cl_job c) (cl_from c) (slots r :: cl_since c) (cl_prog c).

(** The queue the sender transmits on is its own. *)
Abbreviation on_wire w := (wire (q_port data_txq) (q_id data_txq) w).

(** The outbound thread, and DPDK on its own. *)
Inductive out_move : threads E → threads E → Prop :=
  | om_call r pc conn j : usable r conn →
      out_move (Threads r pc None) (Threads r pc (Some (Call conn j r [slots r] (job_prog conn j))))
  | om_access r pc c p r' : out_step (cl_since c) r (cl_prog c) p r' →
      out_move (Threads r pc (Some c)) (Threads r' pc (Some (set_prog c p)))
  | om_return r pc c res : cl_prog c = Ret res → out_move (Threads r pc (Some c)) (Threads r pc None)
  | om_env r pc out w : on_wire w = on_wire (env r) → out_move (Threads r pc out) (Threads (set_env r w) pc out).

Inductive fine_step : threads E → threads E → Prop :=
  | fs_poll r out burst : Forall pkt_wf burst → Z.of_nat (length burst) <= burst_max_size →
      fine_step (Threads r In_idle out) (Threads (in_start burst r).2 (in_start burst r).1 out)
  | fs_in r pc out pc' r' : pc ≠ In_idle → in_step stack control_txq pc r = (pc', r') →
      fine_step (Threads r pc out) (Threads r' pc' (witnesses r' <$> out))
  | fs_out st st' : out_move st st' → fine_step st st'.

Definition threads_new (w : E) : threads E := Threads (impl_new stack (replicate (Z.to_nat n) new_connection) w) In_idle None.
Definition fine_reachable (st : threads E) : Prop := ∃ w, rtc fine_step (threads_new w) st.
End interleavings.
