(* ===== verification/TcpRely.v ===== *)
(** * What one thread may rely on while the other runs

    The inbound thread never touches what the sender owns: as long as a
    connection is known to the application and not released, its slot keeps its
    generation, its addresses, [snd_nxt] and [out_flags] under every step of
    [poll], and nothing is transmitted on the sender's queue ([steady]).  The
    sender, in turn, only stores a 32-bit [snd_nxt] and more flags.  With these
    two facts the invariants of TcpInv.v and TcpValues.v hold between any two
    accesses of the threads. *)

From S2P Require Import Prelude Probing FlowTable Dpdk DpdkSim Packet Segment SegmentWire SeqArith Arp TcpState TcpReceiver.
From S2P Require Import TcpConn TcpInv TcpPoll TcpSender TcpValues TcpSystem TcpStream TcpIds TcpThreads.

(** ** The sender's part of a slot *)

Definition sender_view (c : tcp_connection) :=
  (snd_nxt c, out_flags c, generation c, (send_mss c, peer_mac c, peer_ip c, peer_port c, local_port c)).

Lemma ack_window_sender c seg : sender_view (ack_window c seg) = sender_view c.
Proof. unfold ack_window. repeat case_match; by simplify_eq. Qed.

Lemma conn_data_sender c seg : sender_view (conn_data c seg).1 = sender_view c.
Proof.
  unfold conn_data. cbv zeta. destruct (negb _); [by case_match|]. destruct (_ && negb _); [done|]. destruct (seq_gt (seg_seq seg) _); [done|].
  set (p := if seq_gt _ _ then _ else _). assert (Hp : sender_view p.1 = sender_view c) by (subst p; by case_match).
  clearbody p. destruct p as [c1 got]. cbn [fst] in Hp. rewrite <- Hp.
  match goal with |- context [let '(_, _) := ?q in _] => set (p := q) end.
  assert (Hq : sender_view p.1 = sender_view c1) by (subst p; destruct (_ && _); [|done]; unfold fin_step; by case_match).
  clearbody p. by destruct p.
Qed.

Lemma conn_segment_sender stack c seg : sender_view (conn_segment stack c seg).1 = sender_view c.
Proof.
  assert (Hs : sender_view (sync_out_flags c) = sender_view c) by (unfold sync_out_flags; by repeat case_match).
  unfold conn_segment. set (c1 := sync_out_flags c) in *. clearbody c1. rewrite <- Hs. clear c Hs.
  assert (Hcl : ∀ c' why, sender_view (conn_close c' why) = sender_view c') by (intros c' why; unfold conn_close; by case_decide).
  assert (Ha : sender_view (conn_ack c1 seg).1 = sender_view c1).
  { pose proof (ack_window_sender c1 seg) as <-. unfold conn_ack. cbv zeta. pose proof (conn_data_sender (ack_window c1 seg) seg) as Hd.
    pose proof (conn_data_sender (set_state (ack_window c1 seg) st_fin_wait_2) seg) as Hd2.
    destruct (seq_gt _ _); [unfold ack_window; repeat case_match; by simplify_eq|]. by repeat case_match. }
  pose proof (conn_data_sender (conn_accept c1 seg) seg) as Hd. destruct (conn_data (conn_accept c1 seg) seg) as [c2 evs].
  repeat case_match; try done; by rewrite Hcl.
Qed.

(** ** The sender's queue *)

Section wire.
Context {E : Type} `{DpdkOps E} `{!DpdkWire E}.
Context (stack : tcp_stack) (control_txq data_txq : queue).
Abbreviation on_wire w := (wire (q_port data_txq) (q_id data_txq) w).

(** Two queues of one port, as a port hands them out. *)
Definition own_queues : Prop := q_port control_txq = q_port data_txq ∧ q_id control_txq ≠ q_id data_txq.

Definition off_wire (r r' : impl E) : Prop := on_wire (env r') = on_wire (env r).
Lemma off_wire_trans r1 r2 r3 : off_wire r1 r2 → off_wire r2 r3 → off_wire r1 r3.
Proof using. unfold off_wire. congruence. Qed.
Lemma mute_wire r r' : mute r r' → off_wire r r'.
Proof using. intros [_ He]. unfold off_wire. by rewrite He. Qed.
Lemma wire_dtor pkt (w : E) : on_wire (packet_dtor pkt w) = on_wire w.
Proof using. destruct pkt; simpl; [apply wire_free|done]. Qed.

Lemma queue_control_wire (r : impl E) pkt : off_wire r (queue_control r pkt).
Proof using.
  unfold queue_control. destruct pkt as [m|]; [|done]. case_match; [|done]. exact (wire_dtor (Some m) (env r)).
Qed.
Lemma build_wire (r : impl E) a seq ack flags win pay mss : off_wire r (build stack r a seq ack flags win pay mss).2.
Proof using.
  unfold build. pose proof (wire_build_segment (q_port data_txq) (q_id data_txq) (pool_ stack) a seq ack flags win pay mss (env r)) as Hw.
  by destruct (build_segment _ _ _ _ _ _ _ _ _).
Qed.
Lemma send_rst_wire (r : impl E) seg : off_wire r (send_rst_for stack r seg).
Proof using.
  unfold send_rst_for. destruct (has seg RTE_TCP_RST_FLAG); [done|].
  match goal with |- context [let '(_, _) := ?b in _] => assert (Hb : off_wire r b.2) by (case_match; apply build_wire);
    destruct b as [rst r'] end.
  eapply off_wire_trans; [exact Hb|]. apply (queue_control_wire (bump r' (add_rst_sent 1))).
Qed.
Lemma send_syn_ack_wire (r : impl E) c : off_wire r (send_syn_ack stack r c).
Proof using.
  unfold send_syn_ack. match goal with |- context [build ?s ?r ?a ?q ?k ?f ?w ?p ?o] => pose proof (build_wire r a q k f w p o) as Hb;
      destruct (build s r a q k f w p o) as [pkt r'] end.
  eapply off_wire_trans; [exact Hb|apply queue_control_wire].
Qed.

Lemma process_segment_wire (r : impl E) i seg : off_wire r (process_segment stack r i seg).
Proof using.
  unfold process_segment. set (r1 := put_slot r i _). apply (off_wire_trans r r1); [done|]. clearbody r1. clear r.
  destruct (state (slot r1 i)) eqn:Es; try done.
  2-7: destruct (has seg RTE_TCP_RST_FLAG); [destruct (rst_acceptable _ _ _); [|done];
         apply mute_wire, (mute_trans _ (bump r1 (add_rst_received 1))); [done|apply terminate_mute]|];
       destruct (has seg RTE_TCP_SYN_FLAG); [apply mute_wire, queue_ack_mute|]; destruct (negb _); [done|];
       pose proof (process_ack_mute r1 i seg) as Ha; destruct (process_ack r1 i seg) as [[] r2]; apply mute_wire; [|done];
       exact (mute_trans _ _ _ Ha (process_data_mute r2 i seg)).
  unfold process_syn_received. cbv zeta. destruct (has seg RTE_TCP_RST_FLAG); [by case_match|].
  destruct (has seg RTE_TCP_SYN_FLAG); [case_match; [apply send_syn_ack_wire|done]|].
  destruct (negb _); [done|]. destruct (negb _); [apply send_rst_wire|].
  apply mute_wire. eapply mute_trans; [|apply process_data_mute]. done.
Qed.

Lemma build_arp_wire pool d o h i th ti (w : E) : on_wire (build_arp pool d o h i th ti w).2 = on_wire w.
Proof using.
  unfold build_arp, pool_get, get_packet. pose proof (wire_alloc (q_port data_txq) (q_id data_txq) pool w) as Ha.
  destruct (rte_pktmbuf_alloc pool w) as [[m|] w1]; cbn in *; [|done]. by repeat case_match; cbn; rewrite ?wire_free.
Qed.

Lemma handle_arp_wire pkt mac ip nb pool reply (w : E) : on_wire (handle_arp pkt mac ip nb pool reply w).2 = on_wire w.
Proof using.
  unfold handle_arp. repeat (case_match; [done|]). match goal with |- context [let '(_, _) := ?b in _] => destruct b as [l nb'] end.
  destruct (_ && _); [|done].
  match goal with |- context [build_arp ?pl ?d ?o ?h ?i ?th ?ti ?w0] => pose proof (build_arp_wire pl d o h i th ti w0) as Hw;
    destruct (build_arp pl d o h i th ti w0) as [built w1] end.
  cbn [snd] in *. by rewrite wire_dtor.
Qed.

Lemma process_wire (r : impl E) pkt : off_wire r (process stack r pkt).
Proof using.
  unfold process. destruct (parse_frame _ _ _) as [| | | | | |seg]; try done.
  - pose proof (handle_arp_wire pkt (local_mac_ stack) (local_ip_ stack) (neighbors r) (pool_ stack) None (env r)) as Ha.
    destruct (handle_arp _ _ _ _ _ _ _) as [[[res nb] reply] w]. cbn [snd] in Ha.
    destruct res; try exact (eq_trans (wire_dtor reply w) Ha). exact (eq_trans (queue_control_wire (set_env (set_neighbors r nb) w) reply) Ha).
  - unfold process_tcp. case_match; [apply process_segment_wire|]. case_match; [|apply send_rst_wire].
    unfold open. destruct (free_slots r) as [|i rest]; [exact (send_rst_wire (bump r (add_no_free_slot 1)) seg)|].
    pose proof (wire_rand (q_port data_txq) (q_id data_txq) (env r)) as Hr. change (env (set_free_slots r rest)) with (env r).
    destruct (rte_rand (env r)) as [rnd w]. refine (eq_trans (send_syn_ack_wire _ _) _). exact Hr.
Qed.

Lemma flush_ack_wire (r : impl E) i : off_wire r (flush_ack stack r i).
Proof using.
  unfold flush_ack. destruct (negb _); [done|]. match goal with |- context [build ?s ?r ?a ?q ?k ?f ?w ?p ?o] =>
    pose proof (build_wire r a q k f w p o) as Hb; destruct (build s r a q k f w p o) as [pkt r'] end.
  exact (eq_trans (queue_control_wire r' pkt) Hb).
Qed.

Lemma flush_control_wire (r : impl E) : own_queues → off_wire r (flush_control control_txq r).
Proof using.
  intros [Hp Hq]. unfold flush_control. destruct (control r) as [|m ms] eqn:Ec; [done|]. unfold send_burst.
  set (l := firstn _ _). pose proof (wire_other (q_port data_txq) (q_id data_txq) (q_id control_txq) l (env r) Hq) as Hw.
  rewrite Hp. destruct (rte_eth_tx_burst _ _ l (env r)) as [k w1]. cbn [snd] in Hw. exact (eq_trans (wire_burst_dtor data_txq _ w1) Hw).
Qed.

Lemma in_step_wire pc (r : impl E) : own_queues → off_wire r (in_step stack control_txq pc r).2.
Proof using.
  intros Hq. destruct pc as [|k burst|[|p burst]|[|i todo]| |[|i todo]]; cbn [in_step]; try done.
  - case_match; [|done]. by case_match.
  - apply process_wire.
  - apply flush_ack_wire.
  - by apply flush_control_wire.
  - unfold off_wire. cbn [snd]. by destruct (finalize_one_rest r i) as (_ & _ & ->).
Qed.
End wire.

(** ** Inside a poll *)

Section inside_poll.
Context {E : Type} `{DpdkOps E}.
Context (stack : tcp_stack) (control_txq : queue).
Abbreviation n := (max_connections (params_ stack)).
Abbreviation inv := (inv stack).

(** The state as the tables see it: entries of a work list that were dealt with
    are gone, though the code clears the list only at its end. *)
Definition core (pc : in_pc) (r : impl E) : impl E :=
  match pc with In_acks todo => set_ack_list r todo | In_finalize todo => set_finalize_list r todo | _ => r end.

Definition pc_ok (pc : in_pc) (r : impl E) : Prop :=
  match pc with
  | In_idle => quiescent r
  | In_reap _ burst => quiescent r ∧ Forall pkt_wf burst
  | In_packets burst => Forall pkt_wf burst
  | In_acks _ => True
  | In_control => ack_list r = []
  | In_finalize _ => ack_list r = [] ∧ control r = []
  end.

Record in_inv (pc : in_pc) (r : impl E) : Prop := {
  n_inv : ∃ m, inv m (core pc r); n_pc : pc_ok pc r; n_slots : slots_sound stack false r }.

(** [core] hides nothing of the slots. *)
Lemma core_slot pc (r : impl E) i : slot (core pc r) i = slot r i.
Proof using. by destruct pc. Qed.
Lemma in_inv_len pc (r : impl E) : in_inv pc r → Z.of_nat (length (slots r)) = n.
Proof using. intros [[m Hinv] _ _]. pose proof (i_len _ _ _ Hinv) as Hl. by destruct pc. Qed.
Lemma in_inv_table pc (r : impl E) i : in_inv pc r → inr n i → in_table r i.
Proof using. intros Hi Hr. unfold in_table. by rewrite (in_inv_len pc r Hi). Qed.

Lemma in_step_inv pc (r : impl E) : stack_ok stack → in_inv pc r →
  in_inv (in_step stack control_txq pc r).1 (in_step stack control_txq pc r).2.
Proof using.
  intros Hcfg Hin. pose proof Hin as [[m Hinv] Hpc Hsl].
  destruct pc as [|k burst|[|p burst]|[|i todo]| |[|i todo]]; cbn [in_step core pc_ok] in *; try done.
  - destruct Hpc as [Hq Hb]. destruct (Nat.ltb_spec k (length (awaiting_release r))) as [Hk|]; [|by split; [exists m|..]].
    destruct (flag _ _) eqn:Ef; [|by split; [exists m|..]]. split; [exists m|done|by apply release_slots].
    exact (release_await_inv stack m r k Hinv (proj1 Hq) Hk).
  - split; [exists m; by destruct r|done|done].
  - pose proof (Forall_inv Hpc) as Hp. pose proof (Forall_inv_tail Hpc) as Hb.
    destruct (process_inv stack m r p Hinv (proj2 (ck_n _ Hcfg)) Hp) as [m' Hm]. split; [by exists m'|done|by eapply process_slots].
  - by split; [exists m|..].
  - split; [exists m; by apply flush_ack_inv|done|]. apply flush_ack_slots; [|done].
    eapply in_inv_table; [exact Hin|]. apply (i_acks _ _ _ Hinv). by left.
  - destruct (flush_control_lists control_txq r) as [Hs Hc]. pose proof (inv_quiet stack m _ _ (silent_quiet _ _ Hs) Hinv) as H2.
    split; [exists m; cbn [fst snd core]; by destruct (flush_control control_txq r)| |by eapply silent_slots].
    cbn. split; [|done]. by destruct Hs as (_ & _ & _ & _ & _ & -> & _).
  - split; [by exists m| |done]. split_and!; [apply Hpc|done|apply Hpc].
  - destruct Hpc as [Ha Hc]. destruct (finalize_one_inv stack m (set_finalize_list r (i :: todo)) i todo Hinv Ha eq_refl) as [m' Hm].
    split; cbn [fst snd core pc_ok].
    + exists m'. rewrite <- finalize_one_comm. exact Hm.
    + rewrite finalize_one_acks. by destruct (finalize_one_rest r i) as (_ & -> & _).
    + apply finalize_one_slots; [|done]. eapply in_inv_table; [exact Hin|]. apply (i_fin _ _ _ Hinv). by left.
Qed.

Lemma in_start_inv (r : impl E) burst : in_inv In_idle r → Forall pkt_wf burst →
  in_inv (in_start burst r).1 (in_start burst r).2.
Proof using.
  intros [[m Hinv] Hpc Hsl] Hb. split; [exists m|by split|done]. cbn. by eapply inv_quiet; [|exact Hinv].
Qed.

(** ** What the sender may rely on *)

Definition held_slot (c : tcp_connection) : Prop := known c ∧ released c = false.
Definition steady (c c' : tcp_connection) : Prop := held_slot c → known c' ∧ sender_view c' = sender_view c.

Lemma steady_refl c : steady c c.
Proof using. intros [Hk _]. done. Qed.

Lemma effect_steady m (r r' : impl E) i : inv m r → packet_effect stack r r' → inr n i → steady (slot r i) (slot r' i).
Proof using.
  intros Hinv Hpe Hi [Hk Hr]. pose proof (i_len _ _ _ Hinv) as Hl.
  destruct Hpe as [Hs _|j seg Hj Hnf Hph Hloc|j c Hj Hst Hcf Hs Hg Hf Ht _|j seg rnd Hj Hst Hs _].
  - unfold slot. by rewrite Hs.
  - rewrite (slot_insert stack r r' j _ i Hl Hi Hj (l_slots _ _ _ _ _ Hloc)). case_decide; [subst j|done].
    split; [apply conn_segment_known; auto|apply conn_segment_sender].
  - rewrite (slot_insert stack r r' j _ i Hl Hi Hj Hs). case_decide; [subst j|done]. by destruct Hk.
  - rewrite (slot_insert stack r r' j _ i Hl Hi Hj Hs). case_decide; [subst j|done]. by destruct Hk.
Qed.

Lemma in_step_steady pc (r : impl E) i : stack_ok stack → in_inv pc r → inr n i →
  steady (slot r i) (slot (in_step stack control_txq pc r).2 i).
Proof using.
  intros Hcfg Hin Hi. pose proof Hin as [[m Hinv] Hpc Hsl]. pose proof (in_inv_len pc r Hin) as Hl.
  destruct pc as [|k burst|[|p burst]|[|j todo]| |[|j todo]]; cbn [in_step core pc_ok snd] in *; try apply steady_refl.
  - destruct (Nat.ltb_spec k (length (awaiting_release r))) as [Hk|]; [|apply steady_refl].
    destruct (flag _ _) eqn:Ef; [|apply steady_refl]. set (j := awaiting_release r !!! k) in *.
    assert (Hj : inr n j) by (apply (i_await _ _ _ Hinv); by apply list_elem_of_lookup_total_2).
    intros [Hkn Hr]. cbn [snd]. set (r1 := set_awaiting_release _ _).
    assert (Hs : slot r1 i = if decide (j = i) then freed (slot r j) else slot r i) by exact (slot_put stack r j i _ Hl Hj Hi).
    rewrite Hs. case_decide; [|done]. subst i. unfold released in Hr. by rewrite Ef in Hr.
  - eapply effect_steady; [done| |done]. eapply process_effect; [done|apply Hcfg|by inversion Hpc].
  - assert (Hj : inr n j) by (apply (i_acks _ _ _ Hinv); by left).
    rewrite (silent_slot _ _ i (flush_ack_silent stack r j (in_inv_table _ _ _ Hin Hj))).
    intros [Hkn Hr]. rewrite (slot_put stack) by done. case_decide; [by subst j|done].
  - destruct (flush_control_lists control_txq r) as [Hs _]. rewrite (silent_slot _ _ i Hs). apply steady_refl.
  - assert (Hj : inr n j) by (apply (i_fin _ _ _ Hinv); by left).
    intros [Hkn Hr]. destruct (decide (j = i)) as [->|Hne].
    + assert (Hs : slot (finalize_one r i) i = set_finalize_pending (slot r i) false); [|by rewrite Hs].
      unfold finalize_one. cbv zeta. change (flag (out_flags (set_finalize_pending (slot r i) false)) out_released) with (released (slot r i)).
      rewrite Hr. refine (eq_trans (slot_put stack r i i _ Hl Hi Hi) _). by rewrite decide_True.
    + assert (Hs : slot (finalize_one r j) i = slot r i); [|by rewrite Hs].
      unfold finalize_one, release_slot. cbv zeta. unfold inr in *.
      case_match; unfold slot; cbn; rewrite ?list_insert_insert_eq; apply list_lookup_total_insert_ne; lia.
Qed.
End inside_poll.
