(* ===== verification/TcpCalls.v ===== *)
(** * The sender's calls under interference

    [safe I Q p st] says of a sender program [p] that, whatever the inbound
    thread publishes between its accesses and whatever DPDK answers, [I] holds
    before each access, the stores are ones the inbound thread can rely on, and
    [Q] holds of the result.  It speaks only of what the sender owns ([own]): its
    two atomics, its queue, and the values it has loaded so far.  [send_safe] and
    [close_safe] establish it for the two calls, [fine_inv] carries it through
    every interleaving. *)

From S2P Require Import Prelude Probing FlowTable Dpdk DpdkSim Packet Segment SegmentWire SeqArith Arp TcpState TcpReceiver.
From S2P Require Import TcpConn TcpInv TcpPoll TcpSender TcpValues TcpSystem TcpStream TcpIds TcpThreads TcpRely.

Record own := Own { o_nxt : Z; o_out : Z; o_wire : list rte_mbuf; o_log : list (atomic * Z) }.
Definition own_nxt (st : own) (v : Z) : own := Own v (o_out st) (o_wire st) (o_log st).
Definition own_out (st : own) (v : Z) : own := Own (o_nxt st) v (o_wire st) (o_log st).
Definition own_wire (st : own) (v : list rte_mbuf) : own := Own (o_nxt st) (o_out st) v (o_log st).
Definition own_log (st : own) (x : atomic) (v : Z) : own := Own (o_nxt st) (o_out st) (o_wire st) (o_log st ++ [(x, v)]).

Lemma own_wire_id st l : l = o_wire st → own_wire st l = st.
Proof. intros ->. by destruct st. Qed.

Section safe.
Context {E : Type} `{DpdkOps E} `{!DpdkLaws E} `{!DpdkAccount E} `{!DpdkWire E}.
Context (stack : tcp_stack) (txq : queue).
Abbreviation n := (max_connections (params_ stack)).
Abbreviation on_wire w := (wire (q_port txq) (q_id txq) w).

(** The slot, its generation, and the MSS and addresses it sends with. *)
Context (i gen : Z) (sa : Z * segment_addr).

Definition unreleased (st : own) : Prop := flag (o_out st) out_released = false.

Fixpoint safe {A} (I : own → Prop) (Q : A → own → Prop) (p : prog E A) (st : own) : Prop :=
  I st ∧
  match p with
  | Ret a => Q a st
  | Load x j k => j = i ∧ unreleased st ∧
    match x with
    | A_generation => safe I Q (k gen) st
    | A_snd_nxt => safe I Q (k (o_nxt st)) st
    | A_out_flags => safe I Q (k (o_out st)) st
    | _ => ∀ v, safe I Q (k v) (own_log st x v)
    end
  | Store x j v k => j = i ∧ unreleased st ∧
    match x with
    | A_snd_nxt => is_u32 v ∧ flag (o_out st) out_fin_sent = false ∧ safe I Q k (own_nxt st v)
    | A_out_flags => flags_ok v ∧ (flag (o_out st) out_fin_sent = true → flag v out_fin_sent = true) ∧ safe I Q k (own_out st v)
    | _ => False
    end
  | Plain j f k => j = i ∧ unreleased st ∧ ∀ c, sends_as stack c = sa → safe I Q (k (f c)) st
  | Dpdk f k => ∀ w, on_wire w = o_wire st → safe I Q (k (f w).1) (own_wire st (on_wire (f w).2))
  end.

Lemma safe_now {A} I (Q : A → own → Prop) p st : safe I Q p st → I st.
Proof using. by destruct p; intros [? _]. Qed.

Lemma safe_bind {A B} I (Q : B → own → Prop) (p : prog E A) (f : A → prog E B) st :
  safe I (λ a, safe I Q (f a)) p st → safe I Q (pbind p f) st.
Proof using.
  revert st. induction p as [a|x j k IH|x j v k IH|C j g k IH|C g k IH]; intros st; cbn.
  - by intros [_ ?].
  - intros (HI & Hj & Hu & Hk). split_and!; [done..|]. destruct x; auto.
  - intros (HI & Hj & Hu & Hk). split_and!; [done..|]. destruct x; try done; destruct_and!; split_and!; auto.
  - intros (HI & Hj & Hu & Hk). split_and!; auto.
  - intros (HI & Hk). split; [done|]. auto.
Qed.

Lemma safe_mono {A} I (Q Q' : A → own → Prop) (p : prog E A) st :
  (∀ a st, I st → Q a st → Q' a st) → safe I Q p st → safe I Q' p st.
Proof using.
  intros HQ. revert st. induction p as [a|x j k IH|x j v k IH|C j g k IH|C g k IH]; intros st; cbn.
  - intros [? ?]. auto.
  - intros (HI & Hj & Hu & Hk). split_and!; [done..|]. destruct x; auto.
  - intros (HI & Hj & Hu & Hk). split_and!; [done..|]. destruct x; try done; destruct_and!; split_and!; auto.
  - intros (HI & Hj & Hu & Hk). split_and!; auto.
  - intros (HI & Hk). split; [done|]. auto.
Qed.

(** *** Against the shared state *)

(** What the sender knows of the state, while [since] is the history of the call. *)
Record agrees (r : impl E) (since : list (list tcp_connection)) (st : own) : Prop := {
  g_wire : on_wire (env r) = o_wire st;
  g_log : ∀ x v, (x, v) ∈ o_log st → ∃ s, s ∈ since ∧ read x (conn_at s i) = v;
  g_slot : unreleased st → known (slot r i) ∧ snd_nxt (slot r i) = o_nxt st ∧ out_flags (slot r i) = o_out st ∧
             generation (slot r i) = gen ∧ sends_as stack (slot r i) = sa ∧ ∀ s, s ∈ since → generation (conn_at s i) = gen }.

Lemma sender_view_sends c c' : sender_view c' = sender_view c →
  snd_nxt c' = snd_nxt c ∧ out_flags c' = out_flags c ∧ generation c' = generation c ∧ sends_as stack c' = sends_as stack c.
Proof using. unfold sender_view, sends_as, conn_addr. intros [= -> -> -> -> -> -> -> ->]. done. Qed.

Lemma agrees_in r r' since st : agrees r since st → steady (slot r i) (slot r' i) → on_wire (env r') = on_wire (env r) →
  agrees r' (slots r' :: since) st.
Proof using.
  intros [Hw Hl Hs] Hst Hw'. split; [congruence| |].
  - intros x v Hx. destruct (Hl x v Hx) as (s & Hin & Hv). exists s. split; [by right|done].
  - intros Hu. destruct (Hs Hu) as (Hk & Hn & Ho & Hg & Hsa & Hgen).
    destruct Hst as [Hk' Hv]; [split; [done|unfold released; by rewrite Ho]|].
    destruct (sender_view_sends _ _ Hv) as (-> & -> & E3 & ->). split_and!; try done; [congruence|].
    intros s [->|Hin]%elem_of_cons; [|auto]. change (conn_at (slots r') i) with (slot r' i). congruence.
Qed.

(** A store of the sender, on the table. *)
Lemma in_inv_store pc (r : impl E) x v : in_inv stack pc r → inr n i → known (slot r i) →
  match x with
  | A_snd_nxt => is_u32 v
  | A_out_flags => flags_ok v ∧ (flag (out_flags (slot r i)) out_fin_sent = true → flag v out_fin_sent = true)
  | _ => False
  end → in_inv stack pc (set_slots r (put_conn (slots r) i (write x v (slot r i)))).
Proof using.
  intros Hin Hi [Hnf _] Hx. pose proof Hin as [[m Hinv] Hpc Hsl]. pose proof (in_inv_len _ _ _ Hin) as Hl.
  destruct (slots_ok_slot stack r i Hsl (in_inv_table _ _ _ _ Hin Hi)) as [Hg [?|[Hwk Hp]]]; [done|].
  assert (Hc : TcpSystem.view (write x v (slot r i)) = TcpSystem.view (slot r i) ∧ slot_sound stack false (write x v (slot r i))).
  { destruct x; try done.
    - split; [done|]. split; [by apply typed_sent|right]. split; [|done]. destruct Hwk. by split.
    - destruct Hx as [Hf Hm]. split; [done|]. split; [by apply typed_out|right]. split; [|done]. destruct Hwk. split; try done. cbn. auto. }
  destruct Hc as [Hv Hok]. split; [exists m|by destruct pc|by apply Forall_insert].
  apply (inv_view stack m (core pc r)); [done| | |].
  - destruct pc; cbn; apply length_insert.
  - by destruct pc.
  - intros j Hj. rewrite !core_slot.
    change (slot (set_slots r _) j) with (slot (put_slot r i (write x v (slot r i))) j).
    rewrite (slot_put stack) by done. by case_decide; [subst j|].
Qed.

Lemma out_step_safe {A} pc (r r' : impl E) since I (Q : A → own → Prop) p p' st : in_inv stack pc r → inr n i →
  agrees r since st → safe I Q p st → out_step since r p p' r' →
  in_inv stack pc r' ∧ ∃ st', agrees r' since st' ∧ safe I Q p' st'.
Proof using.
  intros Hin Hi Hag Hsafe Hstep. destruct Hstep as [x j k Hx|x j k s Hx Hs|x j v k|B j f k|B f k]; cbn [safe] in Hsafe.
  - destruct Hsafe as (_ & -> & Hu & Hk). destruct (g_slot _ _ _ Hag Hu) as (_ & Hn & Ho & _).
    split; [done|]. exists st. split; [done|]. change (conn_at (slots r) i) with (slot r i). destruct x; try done; cbn; by rewrite ?Hn, ?Ho.
  - destruct Hsafe as (_ & -> & Hu & Hk). pose proof Hag as [Hw Hl Hsl]. destruct (Hsl Hu) as (_ & _ & _ & _ & _ & Hgen).
    split; [done|]. destruct x; try done; [exists st; split; [done|]; cbn; by rewrite Hgen|..];
      (eexists; split; [|apply Hk]); (split; [done| |done]); intros y v; cbn;
      rewrite elem_of_app, list_elem_of_singleton; intros [?|[= -> ->]]; eauto.
  - destruct Hsafe as (_ & -> & Hu & Hk). pose proof Hag as [Hw Hl Hsl]. destruct (Hsl Hu) as (Hkn & Hn & Ho & Hg & Hsa & Hgen).
    change (conn_at (slots r) i) with (slot r i).
    assert (Hput : slot (set_slots r (put_conn (slots r) i (write x v (slot r i)))) i = write x v (slot r i)).
    { apply (slot_put_same r i). by eapply in_inv_table. }
    destruct x; try done; destruct Hk as (Hv & Hm & Hk).
    + split; [by apply in_inv_store|]. exists (own_nxt st v). split; [|done]. split; [done|done|]. intros _. rewrite Hput. done.
    + split; [apply in_inv_store; [done|done|done|by rewrite Ho]|]. exists (own_out st v). split; [|done]. split; [done|done|].
      intros _. rewrite Hput. done.
  - destruct Hsafe as (_ & -> & Hu & Hk). destruct (g_slot _ _ _ Hag Hu) as (_ & _ & _ & _ & Hsa & _). split; [done|]. exists st. auto.
  - destruct Hsafe as [_ Hk]. pose proof Hag as [Hw Hl Hsl]. split.
    + destruct Hin as [[m Hinv] Hpc Hok]. split; [exists m|by destruct pc|done]. eapply inv_quiet; [|exact Hinv]. by destruct pc.
    + eexists. split; [|by apply (Hk (env r))]. by split.
Qed.
End safe.

(** ** [lookup] and [sendable] *)

Section calls.
Context {E : Type} `{DpdkOps E} `{!DpdkLaws E} `{!DpdkAccount E} `{!DpdkWire E}.
Context (stack : tcp_stack) (txq : queue) (conn : conn_id) (mss : Z) (a : segment_addr).
Abbreviation n := (max_connections (params_ stack)).
Abbreviation on_wire w := (wire (q_port txq) (q_id txq) w).
Abbreviation i := (cid_slot conn).
Abbreviation safe := (safe (E := E) stack txq i (cid_generation conn) (mss, a)).

Context (Hi : inr n i) (Hsrc : mac_ok (src_mac a)) (Hdst : mac_ok (dst_mac a)) (Hmss : 1 <= mss) (Hmax : 54 + mss < 2 ^ 16).
(** The sender's part of the slot when the call begins. *)
Context (st0 : own) (Hbase : is_u32 (o_nxt st0)) (Hflags : flags_ok (o_out st0)) (Hopen : unreleased st0).
Abbreviation base := (o_nxt st0).

Lemma lookup_safe I (Q : option Z → own → Prop) st : I st → unreleased st → Q (Some i) st → safe I Q (lookup_prog stack conn) st.
Proof using Hi.
  intros HI Hu HQ. unfold lookup_prog. destruct (Z.leb_spec n i) as [Hle|_]; [unfold inr in Hi; lia|].
  assert (Hnow : safe I Q (Ret (Some i)) st) by done. unfold unreleased in Hu. cbn [TcpCalls.safe].
  rewrite Z.eqb_refl. cbn [negb TcpCalls.safe]. rewrite Z.eqb_refl, Hu. cbn [negb orb]. tauto.
Qed.

Lemma sendable_safe I (Q : bool → own → Prop) st : I st → unreleased st → (∀ t, I (own_log st A_terminated t)) →
  (flag (o_out st) out_fin_sent = true → Q false st) →
  (∀ t, flag (o_out st) out_fin_sent = false → Q (t =? 0) (own_log st A_terminated t)) →
  safe I Q (sendable_prog stack conn) st.
Proof using Hi.
  intros HI Hu HIt Hf Ht. apply safe_bind, lookup_safe; [done|done|]. cbn. split_and!; [done..|].
  destruct (flag (o_out st) out_fin_sent); cbn; auto 7.
Qed.

(** ** [send] *)

Context (bytes : list Z).

(** [bytes[0, k)] is on the wire, [snd_nxt] says [off]: within a window and with an
    acknowledgement number that were published during the call, to a connection
    that was seen not terminated and has had no FIN. *)
Record sent_upto (segs : list (rte_mbuf * Z)) (k off win ack : Z) (st : own) : Prop := {
  su_wire : o_wire st = o_wire st0 ++ segs.*1;
  su_out : o_out st = o_out st0;
  su_nxt : o_nxt st = u32 (base + off);
  su_off : k <= off <= Z.min (Z.of_nat (length bytes)) (window_space win base);
  su_carries : carries stack mss a base ack bytes (Z.min (Z.of_nat (length bytes)) (window_space win base)) 0 segs k;
  su_win : (A_send_window, win) ∈ o_log st;
  su_ack : (A_rcv_nxt, ack) ∈ o_log st;
  su_open : (A_terminated, 0) ∈ o_log st ∧ flag (o_out st0) out_fin_sent = false }.

Definition untouched_by_call (st : own) : Prop := o_wire st = o_wire st0 ∧ o_out st = o_out st0 ∧ o_nxt st = base.

Definition send_now (st : own) : Prop := untouched_by_call st ∨ ∃ segs k off win ack, sent_upto segs k off win ack st.
Definition send_post (res : option Z) (st : own) : Prop :=
  match res with
  | None => False
  | Some k => k = 0 ∧ untouched_by_call st ∨ ∃ segs win ack, sent_upto segs k k win ack st
  end.

Lemma sent_upto_unreleased segs k off win ack st : sent_upto segs k off win ack st → unreleased st.
Proof using Hopen. intros []. unfold unreleased. by rewrite su_out0. Qed.

(** The inner loop touches only the pool. *)
Lemma build_safe I Q room ack limit off st : I st → unreleased st → 0 <= off → limit <= Z.of_nat (length bytes) → limit < 2 ^ 32 →
  (∀ segs off', carries stack mss a base ack bytes limit off segs off' → (length segs <= room)%nat → Q (segs, off') st) →
  safe I Q (build_prog stack room i a base ack bytes limit off) st.
Proof using DpdkLaws0 Hbase Hsrc Hdst Hmss Hmax.
  intros HI Hu Hoff Hlim H32. revert off Q Hoff. induction room as [|room IH]; intros off Q Hoff HQ; cbn [build_prog].
  { cbn. split; [done|]. apply HQ; [constructor|done]. }
  destruct (Z.ltb_spec off limit) as [Hlt|Hge]; cbn; (split; [done|]); [|apply HQ; [constructor|cbn; lia]].
  split_and!; [done..|]. intros c Hc. injection Hc as Hm _. split; [done|]. intros w Hw. rewrite Hm.
  set (len := Z.min mss (limit - off)).
  assert (Hmin : len = Z.min mss (limit - off)) by done.
  assert (Hlen : 0 < len <= mss ∧ len <= limit - off) by lia. clearbody len.
  set (pay := sub bytes (Z.to_nat off) (Z.to_nat len)). set (fl := Z.lor _ _).
  assert (Hfl : frame_len pay 0 < 2 ^ 16) by (unfold frame_len, pay; rewrite length_sub by lia; simpl; lia).
  pose proof (wire_build_segment (q_port txq) (q_id txq) (pool_ stack) a (u32 (base + u32 off)) ack fl (receive_window (params_ stack)) pay 0 w) as Hw2.
  destruct (build_segment _ _ _ _ _ _ _ _ w) as [[m|] w1] eqn:Eb; cbn [fst snd] in *; rewrite own_wire_id by congruence.
  - destruct (build_segment_frame _ a _ _ _ _ _ _ _ _ _ Hsrc Hdst Hfl Eb) as [Hd _].
    apply safe_bind, IH; [lia|]. intros segs off' Hc Hl. cbn. split; [done|]. apply HQ; [|cbn; lia].
    constructor; [done|lia| |done]. rewrite Hd. unfold data_frame. by rewrite (u32_id off) by mlia.
  - cbn. split; [done|]. apply HQ; [constructor|cbn; lia].
Qed.

Lemma send_loop_safe fuel segs k win ack st : let limit := Z.min (Z.of_nat (length bytes)) (window_space win base) in
  sent_upto segs k k win ack st → 0 <= k → limit - k < Z.of_nat fuel →
  safe send_now send_post (send_loop_prog stack txq fuel i a base ack bytes limit k) st.
Proof using DpdkLaws0 DpdkAccount0 Hbase Hsrc Hdst Hmss Hmax Hopen.
  cbv zeta. set (limit := Z.min _ _). pose proof (window_space_range win base) as Hws.
  assert (Hlim : 0 <= limit ∧ limit <= Z.of_nat (length bytes) ∧ limit < 2 ^ 32) by (unfold limit; lia).
  revert segs k st. induction fuel as [|fuel IH]; intros segs k st Hst Hk Hf; [destruct Hst; fold limit in su_off0; lia|].
  assert (Hnow : send_now st) by (right; by exists segs, k, k, win, ack).
  assert (Hdone : send_post (Some k) st) by (right; by exists segs, win, ack).
  cbn [send_loop_prog]. destruct (Z.ltb_spec k limit) as [Hlt|Hge]; [|by split].
  apply safe_bind, build_safe; [done|by eapply sent_upto_unreleased|done|lia|lia|]. intros new off Hc Hlen.
  change (Z.to_nat burst_max_size) with 32%nat in Hlen. destruct (carries_le _ _ _ _ _ _ _ _ _ _ Hc) as [Hadv Hoff].
  destruct (Z.eqb_spec (Z.of_nat (length new)) 0) as [Ez|Ez]; [by split|]. rewrite (u32_id off) by mlia.
  assert (Hpub : sent_upto segs k off win ack (own_nxt st (u32 (base + off)))) by (destruct Hst; split; try done; fold limit; lia).
  assert (Hnofin : ∀ st', o_out st' = o_out st → flag (o_out st') out_fin_sent = false) by (intros st' ->; destruct Hst; rewrite su_out0; apply su_open0).
  split; [done|]. split_and!; [done|by eapply sent_upto_unreleased|apply u32_range|by apply Hnofin|].
  split; [right; by exists segs, k, off, win, ack|]. intros w Hw. unfold transmit. destruct (send_burst txq new.*1 w) as [[sent left_] w2] eqn:Es.
  assert (Hl1 : Z.of_nat (length new.*1) < 2 ^ 16) by (rewrite length_fmap; lia). cbn [fst snd].
  destruct (held_send_burst txq _ _ _ _ _ Hl1 Es) as (Hs & _). rewrite length_fmap in Hs.
  pose proof (wire_send_burst txq _ _ _ _ _ Hl1 Es) as Hw2. cbn [o_wire own_nxt] in Hw. rewrite <- fmap_take in Hw2.
  assert (Hct := carries_take _ _ _ _ _ _ _ _ _ _ (Z.to_nat sent) Hc ltac:(lia)). rewrite Z2Nat.id in Hct by lia.
  replace (Z.to_nat sent - 1)%nat with (Z.to_nat (sent - 1)) in Hct by lia.
  destruct (carries_le _ _ _ _ _ _ _ _ _ _ Hct) as [Hda Hdl].
  assert (Hle := carries_take_le _ _ _ _ _ _ _ _ _ _ (Z.to_nat sent) Hc ltac:(lia)). rewrite Z2Nat.id in Hle by lia.
  replace (Z.to_nat sent - 1)%nat with (Z.to_nat (sent - 1)) in Hle by lia.
  set (k' := if 0 <? sent then _ else _) in *. set (st2 := own_wire _ _).
  assert (Hsent : ∀ st', o_wire st' = o_wire st2 → o_out st' = o_out st2 → o_log st' = o_log st2 → ∀ off', o_nxt st' = u32 (base + off') →
      k' <= off' <= off → sent_upto (segs ++ take (Z.to_nat sent) new) k' off' win ack st').
  { intros st' E1 E2 E3 off' E4 Ho. destruct Hpub. split; rewrite ?E3; try done; fold limit; [| |lia|].
    - rewrite E1. cbn [st2 own_wire o_wire]. rewrite Hw2, Hw, fmap_app, app_assoc. by f_equal.
    - by rewrite E2.
    - by eapply carries_app. }
  assert (H2 : sent_upto (segs ++ take (Z.to_nat sent) new) k' off win ack st2) by (apply Hsent; try done; lia).
  assert (Hnow2 : send_now st2) by (right; by eexists _, _, _, _, _). pose proof (sent_upto_unreleased _ _ _ _ _ _ H2) as Hu2.
  destruct (Z.ltb_spec sent (Z.of_nat (length new))) as [Hpart|Hall].
  - rewrite (u32_id k') by mlia.
    assert (H3 : sent_upto (segs ++ take (Z.to_nat sent) new) k' k' win ack (own_nxt st2 (u32 (base + k')))) by (apply Hsent; try done; lia).
    assert (Hnow3 : send_now (own_nxt st2 (u32 (base + k')))) by (right; by eexists _, _, _, _, _).
    split; [done|]. split_and!; [done|done|apply u32_range|by apply Hnofin|]. split; [done|]. intros w3 Hw3. unfold discard. cbn [fst snd].
    rewrite wire_burst_dtor, own_wire_id by done. split; [done|]. right. by eexists _, _, _.
  - split; [done|]. intros w3 Hw3. unfold discard. cbn [fst snd]. rewrite wire_burst_dtor, own_wire_id by done.
    assert (Hk' : k' = off).
    { rewrite take_ge in Hct by lia. by eapply carries_end. }
    rewrite Hk' in H2. destruct (_ && _); [split; [done|]; right; by eexists _, _, _|]. eapply IH; [done|lia|lia].
Qed.

Lemma send_safe : o_log st0 = [] → safe send_now send_post (send_prog stack txq conn bytes) st0.
Proof using DpdkLaws0 DpdkAccount0 Hi Hsrc Hdst Hmss Hmax Hbase Hopen.
  intros Hlog. assert (Hq : ∀ st, o_wire st = o_wire st0 → o_out st = o_out st0 → o_nxt st = o_nxt st0 → send_now st ∧ send_post (Some 0) st).
  { intros st E1 E2 E3. split; left; by split_and!. }
  destruct (Hq st0) as [Hn0 Hp0]; [done..|]. unfold send_prog. case_bool_decide as Eb; [by split|].
  apply safe_bind, sendable_safe; [done|done|by intros; apply Hq|by split|]. intros t Hf.
  set (st1 := own_log st0 A_terminated t). destruct (Hq st1) as [Hn1 Hp1]; [done..|].
  destruct (Z.eqb_spec t 0) as [Et|Et]; cbn [negb]; [|by split].
  apply safe_bind, lookup_safe; [done|done|]. split; [done|]. split_and!; [done..|]. change (o_nxt st1) with base.
  split; [done|]. split_and!; [done..|]. intros win. set (st2 := own_log st1 A_send_window win). destruct (Hq st2) as [Hn2 Hp2]; [done..|].
  pose proof (window_space_range win base) as Hws.
  destruct (Z.eqb_spec (Z.min (Z.of_nat (length bytes)) (window_space win base)) 0) as [El|El]; [by split|].
  split; [done|]. split_and!; [done..|]. intros ack. set (st3 := own_log st2 A_rcv_nxt ack). destruct (Hq st3) as [Hn3 Hp3]; [done..|].
  split; [done|]. split_and!; [done..|]. intros c Hc. injection Hc as _ ->.
  apply (send_loop_safe _ [] 0); [|lia|lia]. split; try done; cbn [o_log st3 st2 st1 own_log].
  - by rewrite app_nil_r.
  - rewrite Z.add_0_r. symmetry. by apply u32_id.
  - lia.
  - constructor.
  - rewrite !elem_of_app, !list_elem_of_singleton. auto.
  - rewrite !elem_of_app, !list_elem_of_singleton. auto.
  - split; [|done]. rewrite !elem_of_app, !list_elem_of_singleton, Et. auto.
Qed.

(** ** [close] *)

Definition fin_bytes (ack : Z) : list Z :=
  frame a base ack (Z.lor RTE_TCP_FIN_FLAG RTE_TCP_ACK_FLAG) (receive_window (params_ stack)) [] 0.

(** Has the FIN been announced? *)
Definition fin_announced (st : own) : Prop := flag (o_out st0) out_fin_sent = false ∧ flag (o_out st) out_fin_sent = true.

(** The flags announce a FIN only when [snd_nxt] counts it, and it is on the wire
    only when they do. *)
Record closing_upto (fins : list rte_mbuf) (st : own) : Prop := {
  cu_wire : o_wire st = o_wire st0 ++ fins;
  cu_flags : flags_ok (o_out st) ∧ (flag (o_out st0) out_fin_sent = true → flag (o_out st) out_fin_sent = true);
  cu_nxt : o_nxt st = base ∧ ¬ fin_announced st ∨ o_nxt st = u32 (base + 1) ∧ flag (o_out st0) out_fin_sent = false ∧ (A_terminated, 0) ∈ o_log st;
  cu_fins : fins = [] ∨ fin_announced st ∧ ∃ m ack, fins = [m] ∧ m_data m = fin_bytes ack ∧ (A_rcv_nxt, ack) ∈ o_log st }.

Definition close_now (st : own) : Prop := ∃ fins, closing_upto fins st.
Definition close_post (st : own) : Prop := ∃ fins, closing_upto fins st ∧ flag (o_out st) out_released = true ∧
  (fin_announced st ∨ flag (o_out st0) out_fin_sent = true ∨ ∃ t, t ≠ 0 ∧ (A_terminated, t) ∈ o_log st).

(** While the FIN is being sent. *)
Definition sending_fin (st : own) : Prop :=
  closing_upto [] st ∧ fin_announced st ∧ o_nxt st = u32 (base + 1) ∧ (A_terminated, 0) ∈ o_log st ∧ unreleased st.
Definition built_fin (fin : packet) (st : own) : Prop :=
  ∀ m, fin = Some m → ∃ ack, m_data m = fin_bytes ack ∧ (A_rcv_nxt, ack) ∈ o_log st.

Lemma closing_log fins x v st : closing_upto fins st → closing_upto fins (own_log st x v).
Proof using.
  assert (Hl : ∀ y, y ∈ o_log st → y ∈ o_log (own_log st x v)) by (intros y Hy; cbn; rewrite elem_of_app; by left).
  intros [Hw Hf Hn Hfs]. split; [done|done| |].
  - destruct Hn as [?|(? & ? & ?)]; [by left|right]. split_and!; auto.
  - destruct Hfs as [?|(? & m & ack & ? & ? & ?)]; [by left|right]. split; [done|]. exists m, ack. auto.
Qed.

Lemma sending_fin_log x v st : sending_fin st → sending_fin (own_log st x v).
Proof using.
  intros (Hcl & Ha & Hn & Ht & Hu). split_and!; [by apply closing_log|done|done|cbn; rewrite elem_of_app; by left|done].
Qed.

Lemma fin_safe Q attempts fin st : sending_fin st → built_fin fin st →
  (∀ st' fins, closing_upto fins st' → o_out st' = o_out st → Q tt st') →
  safe close_now Q (fin_prog stack txq attempts i a base fin) st.
Proof using DpdkLaws0 DpdkAccount0 Hsrc Hdst.
  revert fin st. induction attempts as [|k IH]; intros fin st Hst Hfin HQ; cbn [fin_prog].
  { pose proof Hst as (Hcl & _). split; [by exists []|]. intros w Hw. cbn [fst snd]. rewrite wire_dtor, own_wire_id by done.
    split; [by exists []|]. by eapply HQ. }
  assert (Htx : ∀ st m, sending_fin st → built_fin (Some m) st → (∀ st' fins, closing_upto fins st' → o_out st' = o_out st → Q tt st') →
    safe close_now Q (Dpdk (transmit txq [m]) (λ '(sent, left_), let fin := default None (head left_) in
      if sent =? 1 then Dpdk (λ w, (tt, packet_dtor fin w)) Ret else fin_prog stack txq k i a base fin)) st).
  { clear st fin Hst Hfin HQ. intros st m Hst Hm HQ. pose proof Hst as (Hcl & Hann & Hn & Ht & Hu). split; [by exists []|]. intros w Hw. unfold transmit.
    destruct (send_burst txq [m] w) as [[sent left_] w2] eqn:Es. cbn [fst snd].
    destruct (held_send_burst txq [m] w sent left_ w2 ltac:(simpl; lia) Es) as (Hs & _).
    pose proof (wire_send_burst txq [m] w sent left_ w2 ltac:(simpl; lia) Es) as Hw2.
    unfold send_burst in Es. destruct (rte_eth_tx_burst _ _ _ _) as [n' w']. injection Es as E1 E2 E3. subst n' left_. simpl in Hs.
    destruct (Z.eqb_spec sent 1) as [->|Hne].
    - assert (Hc1 : closing_upto [m] (own_wire st (on_wire w2))).
      { destruct Hcl. destruct (Hm m eq_refl) as (ack & Hd & Hl). split; [|done|done|].
        - cbn. rewrite Hw2, Hw, cu_wire0, app_nil_r. done.
        - right. split; [done|]. by exists m, ack. }
      split; [by exists [m]|]. intros w3 Hw3. cbn [fst snd]. rewrite wire_dtor, own_wire_id by done. split; [by exists [m]|]. by eapply HQ.
    - assert (sent = 0) as -> by lia. simpl in Hw2. rewrite app_nil_r in Hw2. rewrite own_wire_id by congruence.
      apply IH; [done|exact Hm|done]. }
  apply safe_bind. pose proof Hst as (Hcl & _ & _ & _ & Hu). destruct fin as [m|].
  { split; [by exists []|]. by apply Htx. }
  split; [by exists []|]. split_and!; [done..|]. intros ack. pose proof (sending_fin_log A_rcv_nxt ack st Hst) as Hst2.
  set (st2 := own_log st A_rcv_nxt ack) in *. pose proof Hst2 as (Hcl2 & _). split; [by exists []|]. intros w Hw.
  match goal with |- context [build_segment ?p ?a' ?q ?k ?f ?win ?pay ?o w] =>
    pose proof (wire_build_segment (q_port txq) (q_id txq) p a' q k f win pay o w) as Hw2;
    destruct (build_segment p a' q k f win pay o w) as [pkt w1] eqn:Eb end.
  cbn [fst snd] in *. rewrite own_wire_id by congruence. split; [by exists []|].
  destruct pkt as [m|]; [apply Htx|apply IH]; try done. intros m' [= <-]. exists ack. split.
  - eapply build_segment_frame in Eb as [Hd _]; [exact Hd|done|done|unfold frame_len; simpl; lia].
  - cbn. rewrite elem_of_app, list_elem_of_singleton. auto.
Qed.

Lemma out_cases : o_out st0 = 0 ∨ o_out st0 = 1.
Proof using Hflags Hopen.
  destruct (flags_cases _ Hflags) as [E1|[E1|[E1|E1]]]; auto; unfold unreleased in Hopen; rewrite E1 in Hopen; discriminate Hopen.
Qed.

(** The last store. *)
Lemma release_safe out fins st : closing_upto fins st → unreleased st → o_out st = out → out = 0 ∨ out = 1 →
  (fin_announced st ∨ flag (o_out st0) out_fin_sent = true ∨ ∃ t, t ≠ 0 ∧ (A_terminated, t) ∈ o_log st) →
  safe close_now (λ _, close_post) (Store A_out_flags i (u8 (Z.lor out out_released)) (Ret tt)) st.
Proof using.
  intros Hcl Hu Ho Hc Hwhy. split; [by exists fins|]. split; [done|]. split; [done|].
  set (out' := u8 (Z.lor out out_released)).
  assert (Hout : flags_ok out' ∧ flag out' out_released = true ∧ flag out' out_fin_sent = flag out out_fin_sent)
    by (destruct Hc as [-> | ->]; unfold out', flags_ok; cbn; split_and!; try done; lia).
  destruct Hout as (H1 & H2 & H3).
  assert (Hann : fin_announced (own_out st out') ↔ fin_announced st) by (unfold fin_announced; cbn; by rewrite H3, Ho).
  assert (Hcl' : closing_upto fins (own_out st out')).
  { destruct Hcl. split; [done| | |].
    - cbn. split; [done|]. rewrite H3, <- Ho. apply cu_flags0.
    - rewrite Hann. done.
    - rewrite Hann. done. }
  rewrite Ho. split; [done|]. split; [congruence|]. split; [by exists fins|]. exists fins. split_and!; [done|done|]. by rewrite Hann.
Qed.

Lemma close_safe : o_log st0 = [] → safe close_now (λ _, close_post) (close_prog stack txq conn) st0.
Proof using DpdkLaws0 DpdkAccount0 Hi Hsrc Hdst Hflags Hopen.
  intros Hlog. assert (Hcl0 : closing_upto [] st0).
  { split; [by rewrite app_nil_r|by split|left; split; [done|]|by left]. unfold fin_announced. intros [Hx Hy]. congruence. }
  assert (Hn0 : close_now st0) by (by exists []). pose proof out_cases as Hoc. unfold close_prog.
  apply safe_bind, lookup_safe; [done|done|]. split; [done|]. split_and!; [done..|].
  destruct (flag (o_out st0) out_fin_sent) eqn:Ef; cbn [negb]; [by eapply release_safe; auto|].
  assert (Ho : o_out st0 = 0) by (destruct Hoc as [?|Ho]; [done|]; by rewrite Ho in Ef).
  split; [done|]. split_and!; [done..|]. intros t. set (st1 := own_log st0 A_terminated t).
  assert (Hcl1 : closing_upto [] st1) by (by apply closing_log).
  destruct (Z.eqb_spec t 0) as [Et|Et].
  2: { eapply release_safe; [done|done|done|done|]. right. right. exists t. split; [done|]. cbn. rewrite elem_of_app, list_elem_of_singleton. auto. }
  assert (Ht : (A_terminated, 0) ∈ o_log st1) by (cbn; rewrite elem_of_app, list_elem_of_singleton, Et; auto).
  assert (Hn1 : close_now st1) by (by exists []). split; [done|]. split_and!; [done..|]. split; [done|]. split_and!; [done..|].
  intros c Hc. injection Hc as _ ->. change (o_nxt st1) with base. split; [done|]. split_and!; [done|done|apply u32_range|done|].
  set (st2 := own_nxt st1 (u32 (base + 1))).
  assert (Hcl2 : closing_upto [] st2) by (destruct Hcl1; split; [done|done|right; by split_and!|by left]).
  rewrite Ho. change (Z.lor 0 out_fin_sent) with 1. split; [by exists []|]. split; [done|]. split; [done|]. split; [unfold flags_ok; lia|]. split; [done|].
  set (st3 := own_out st2 1). assert (Hst3 : sending_fin st3).
  { split_and!; try done. destruct Hcl2. split; [done| |right; by split_and!|by left]. split; [|done]. unfold flags_ok. cbn. lia. }
  apply safe_bind, fin_safe; [done|by intros m|]. intros st' fins Hcl' Ho'.
  apply (release_safe 1 fins); [done| |done|by right|left; split; [done|by rewrite Ho']]. unfold unreleased. by rewrite Ho'.
Qed.
End calls.
