(* ===== verification/TcpFine.v ===== *)
(** * Every interleaving of the two threads

    [fine_inv] holds after any sequence of steps of TcpThreads.v: between any two
    accesses the tables agree and the slots are sound (TcpRely.v), and a call in
    progress stands where its program says (TcpCalls.v).  The theorems read off
    what this means for the shared state, for [send] and for [close]. *)

From S2P Require Import Prelude Probing FlowTable Dpdk DpdkSim Packet Segment SegmentWire SeqArith Arp TcpState TcpReceiver.
From S2P Require Import TcpConn TcpInv TcpPoll TcpSender TcpValues TcpSystem TcpStream TcpIds TcpSetup TcpThreads TcpRely TcpCalls Scenario.

Section fine.
Context {E : Type} `{DpdkOps E} `{!DpdkLaws E} `{!DpdkAccount E} `{!DpdkWire E}.
Context (stack : tcp_stack) (control_txq data_txq : queue).
Abbreviation n := (max_connections (params_ stack)).
Abbreviation on_wire w := (wire (q_port data_txq) (q_id data_txq) w).
Abbreviation fine_step := (fine_step stack control_txq data_txq).
Abbreviation fine_reachable := (fine_reachable stack control_txq data_txq).

(** The slot a call is about, and the sender's part of it when it was made. *)
Definition call_slot (c : call E) : Z := cid_slot (cl_conn c).
Definition before_call (c : call E) : tcp_connection := slot (cl_from c) (call_slot c).
Definition own_before (c : call E) : own :=
  Own (snd_nxt (before_call c)) (out_flags (before_call c)) (on_wire (env (cl_from c))) [].

Definition call_now (c : call E) : own → Prop :=
  match cl_job c with
  | J_send bytes => send_now stack (send_mss (before_call c)) (conn_addr stack (before_call c)) (own_before c) bytes
  | J_close => close_now stack (conn_addr stack (before_call c)) (own_before c)
  end.
Definition call_post (c : call E) (res : option Z) : own → Prop :=
  match cl_job c with
  | J_send bytes => send_post stack (send_mss (before_call c)) (conn_addr stack (before_call c)) (own_before c) bytes res
  | J_close => λ st, res = Some 0 ∧ close_post stack (conn_addr stack (before_call c)) (own_before c) st
  end.

Record call_inv (r : impl E) (c : call E) : Prop := {
  ci_slot : inr n (call_slot c);
  ci_before : released (before_call c) = false ∧ is_u32 (snd_nxt (before_call c));
  ci_safe : ∃ st, agrees stack data_txq (call_slot c) (cid_generation (cl_conn c)) (sends_as stack (before_call c)) r (cl_since c) st ∧
              safe stack data_txq (call_slot c) (cid_generation (cl_conn c)) (sends_as stack (before_call c))
                (call_now c) (call_post c) (cl_prog c) st }.

Record fine_inv (st : threads E) : Prop := {
  fi_in : in_inv stack (t_in st) (t_impl st);
  fi_out : ∀ c, t_out st = Some c → call_inv (t_impl st) c }.

Lemma call_starts pc (r : impl E) conn j : stack_ok stack → in_inv stack pc r → usable stack r conn →
  call_inv r (Call conn j r [slots r] (job_prog stack data_txq conn j)).
Proof using DpdkLaws0 DpdkAccount0.
  intros Hcfg Hin (Hi & Hg & Hk & Hr). pose proof Hin as [_ _ Hsl].
  destruct (slots_ok_slot stack r _ Hsl (in_inv_table _ _ _ _ Hin Hi)) as [_ [?|[Hwk _]]]; [by destruct Hk|].
  set (c := Call _ _ _ _ _). split; [done|split; [done|apply Hwk]|]. exists (own_before c). split.
  - split; [done|intros x v Hx; by apply not_elem_of_nil in Hx|]. intros _. split_and!; try done.
    intros s ->%list_elem_of_singleton. exact Hg.
  - assert (Hmac : mac_ok (src_mac (conn_addr stack (before_call c))) ∧ mac_ok (dst_mac (conn_addr stack (before_call c)))) by (split; [apply Hcfg|apply Hwk]).
    assert (Hmss : 1 <= send_mss (before_call c) ∧ 54 + send_mss (before_call c) < 2 ^ 16).
    { destruct Hcfg, Hwk. change (before_call c) with (slot r (cid_slot conn)). lia. }
    unfold call_now, call_post. cbn [cl_job cl_prog c]. destruct j as [bytes|]; cbn [job_prog].
    + apply send_safe; try done; (apply Hmac || apply Hmss || apply Hwk).
    + apply safe_bind. eapply safe_mono; [|apply close_safe; try done; (apply Hmac || apply Hmss || apply Hwk)].
      intros [] st HI HQ. split; [done|]. by split.
Qed.

Lemma fine_step_inv st st' : stack_ok stack → own_queues control_txq data_txq → fine_inv st → fine_step st st' → fine_inv st'.
Proof using DpdkLaws0 DpdkAccount0.
  intros Hcfg Hq [Hin Hout] Hstep.
  destruct Hstep as [r out burst Hb Hl|r pc out pc' r' Hne Hs|st st' Hmove];
    [| |destruct Hmove as [r pc conn j Hu|r pc c p r' Hs|r pc c res Hres|r pc out w Hw]]; cbn [t_impl t_in t_out] in *.
  - split; cbn [t_impl t_in t_out]; [by apply in_start_inv|]. intros c Hc. destruct (Hout c Hc) as [Hi Hb0 (st & Hag & Hsafe)]. split; [done|done|].
    exists st. split; [|done]. by destruct Hag.
  - pose proof (in_step_inv stack control_txq pc r Hcfg Hin) as Hin'. rewrite Hs in Hin'. split; cbn [t_impl t_in t_out]; [done|].
    intros c' Hc'. destruct out as [c|]; [|done]. injection Hc' as <-. destruct (Hout c eq_refl) as [Hi Hb0 (st & Hag & Hsafe)]. split; [done|done|].
    exists st. split; [|exact Hsafe]. apply (agrees_in stack data_txq _ _ _ r r'); [exact Hag| |].
    + pose proof (in_step_steady stack control_txq pc r _ Hcfg Hin Hi) as Hst. by rewrite Hs in Hst.
    + pose proof (in_step_wire stack control_txq data_txq pc r Hq) as Hw. by rewrite Hs in Hw.
  - split; [done|]. intros c [= <-]. by eapply call_starts.
  - destruct (Hout c eq_refl) as [Hi Hb0 (st & Hag & Hsafe)].
    destruct (out_step_safe stack data_txq _ _ _ pc r r' _ _ _ _ _ st Hin Hi Hag Hsafe Hs) as (Hin' & st' & Hag' & Hsafe').
    split; [done|]. intros c' [= <-]. split; [done|done|]. by exists st'.
  - by split.
  - destruct Hin as [[m Hinv] Hpc Hsl]. split; cbn [t_impl t_in t_out].
    + split; [exists m|by destruct pc|done]. eapply inv_quiet; [|exact Hinv]. by destruct pc.
    + intros c Hc. destruct (Hout c Hc) as [Hi Hb0 (st & [G1 G2 G3] & Hsafe)]. split; [done|done|]. exists st. split; [|done].
      split; [|done|done]. exact (eq_trans Hw G1).
Qed.

Lemma fine_new (w : E) : stack_ok stack → fine_inv (threads_new stack w).
Proof using.
  intros Hcfg. destruct (sys_new stack _ w Hcfg eq_refl) as [[m Hinv] Hq Hsl]. split; [split; [by exists m|done|]|done].
  apply Forall_replicate. split; [apply typed_new|by left].
Qed.

Lemma fine_reachable_inv st : stack_ok stack → own_queues control_txq data_txq → fine_reachable st → fine_inv st.
Proof using DpdkLaws0 DpdkAccount0.
  intros Hcfg Hq [w Hr]. pose proof (fine_new w Hcfg) as H0. revert H0.
  induction Hr as [|s1 s2 s3 Hs _ IH]; [done|]. intros H1. apply IH. by eapply fine_step_inv.
Qed.
(** ** Theorems *)

(** A value the slot of a call held at some moment since the call was made. *)
Definition published (c : call E) (x : atomic) (v : Z) : Prop :=
  ∃ s, s ∈ cl_since c ∧ read x (conn_at s (call_slot c)) = v.

(** C10. Between any two accesses of the two threads, in whatever order they
    come, the shared state is consistent: the flow table finds exactly the live
    connections, the free list holds exactly the free slots, waiting slots are
    closed and no list holds a slot twice; in every slot in use the published
    acknowledgement number and window are those the inbound thread computed,
    the id is nonzero, [terminated] is set exactly in [closed], the states of an
    active close are entered only after the FIN is announced; and when [poll] is
    not running, nothing is left in its work lists. *)
Theorem interleaved_state_consistent st : stack_ok stack → own_queues control_txq data_txq → fine_reachable st →
  let r := t_impl st in
  (∀ k i, k ≠ 0 → inr n i → flow_table.find (flows r) k = i ↔
     state (slot r i) ≠ st_free ∧ (i ∉ awaiting_release r) ∧ flow_key (slot r i) = k) ∧
  (∀ i, i ∈ free_slots r ↔ inr n i ∧ state (slot r i) = st_free) ∧
  (∀ i, i ∈ awaiting_release r → inr n i ∧ state (slot r i) = st_closed) ∧
  NoDup (free_slots r) ∧ NoDup (awaiting_release r) ∧
  (∀ i, inr n i → state (slot r i) ≠ st_free → let c := slot r i in
     rcv_nxt c = rcv_nxt_local c ∧ send_window c = pack_window (snd_una c) (snd_wnd c) ∧ is_u32 (snd_nxt c) ∧ is_u32 (snd_una c) ∧
     1 <= send_mss c <= mss_ stack ∧ 1 <= generation c < 2 ^ 32 ∧ (terminated c = 1 ↔ state c = st_closed) ∧
     (fin_state (state c) → flag (out_flags c) out_fin_sent = true)) ∧
  (t_in st = In_idle → ack_list r = [] ∧ finalize_list r = [] ∧ control r = []).
Proof using DpdkLaws0 DpdkAccount0.
  intros Hcfg Hq Hr r. destruct (fine_reachable_inv st Hcfg Hq Hr) as [[[m Hinv] Hpc Hsl] Hout]. fold r in Hinv, Hpc, Hsl, Hout.
  assert (Hcore : flows (core (t_in st) r) = flows r ∧ awaiting_release (core (t_in st) r) = awaiting_release r ∧
    free_slots (core (t_in st) r) = free_slots r) by (by destruct (t_in st)). destruct Hcore as (C1 & C2 & C3).
  pose proof (core_slot (t_in st) r) as Hcs. destruct Hinv. setoid_rewrite Hcs in i_map. setoid_rewrite Hcs in i_live.
  setoid_rewrite Hcs in i_free. setoid_rewrite Hcs in i_await. rewrite C1, C2, C3 in *.
  split_and!; try done.
  - intros k i Hk Hi. rewrite (flow_table.find_spec _ _ _ _ i_flows Hk). split.
    + intros Hd. destruct (m !! k) as [j|] eqn:Em; simpl in Hd; subst; [|unfold inr, flow_table.npos in Hi; pose proof (ck_n _ Hcfg); lia].
      by destruct (i_map _ _ Em) as (_ & -> & ? & ?).
    + intros (Hnf & Hna & <-). by rewrite (i_live i Hi Hnf Hna).
  - intros i Hia. by destruct (i_await i Hia) as (? & ? & _).
  - intros i Hi Hnf c. assert (Ht : in_table r i) by (unfold in_table; destruct (t_in st); cbn in i_len; by rewrite i_len).
    destruct (slots_ok_slot stack r i Hsl Ht) as [_ [?|[Hwk Hp]]]; [done|]. fold c in Hwk, Hp. clearbody c. destruct Hwk.
    split_and!; try done; try lia. rewrite co_term. by case_decide.
  - intros Hidle. rewrite Hidle in Hpc. exact Hpc.
Qed.

(** Where a [send] of [bytes] stands: [k] bytes are on the wire in [segs], and
    [snd_nxt] counts [off]. *)
Definition sending (c : call E) (bytes : list Z) (r : impl E) (segs : list (rte_mbuf * Z)) (k off : Z) : Prop :=
  on_wire (env r) = on_wire (env (cl_from c)) ++ segs.*1 ∧
  snd_nxt (slot r (call_slot c)) = u32 (snd_nxt (before_call c) + off) ∧ k <= off ∧
  (off = 0 ∧ segs = [] ∧ k = 0 ∨
   ∃ win ack, published c A_send_window win ∧ published c A_rcv_nxt ack ∧ published c A_terminated 0 ∧
     let base := snd_nxt (before_call c) in
     let limit := Z.min (Z.of_nat (length bytes)) (window_space win base) in
     off <= limit ∧ carries stack (send_mss (before_call c)) (conn_addr stack (before_call c)) base ack bytes limit 0 segs k).

(** C8. [send] with the inbound thread running: at every moment of the call the
    caller's first [k] bytes are on the wire, in order, in segments of the
    connection's MSS (the one that reaches the limit has the rest), and the published [snd_nxt] is never behind them: it
    counts [off >= k] bytes, within a window and with an acknowledgement number
    that the inbound thread published during the call; the slot stays that of
    the connection.  When the call returns, and it does return a number, that
    number is [k] and [snd_nxt] has been moved by exactly [k]. *)
Theorem send_under_interference st c bytes : stack_ok stack → own_queues control_txq data_txq → fine_reachable st →
  t_out st = Some c → cl_job c = J_send bytes →
  let now := slot (t_impl st) (call_slot c) in
  known now ∧ generation now = cid_generation (cl_conn c) ∧ out_flags now = out_flags (before_call c) ∧
  conn_addr stack now = conn_addr stack (before_call c) ∧
  ∃ segs k off, sending c bytes (t_impl st) segs k off ∧ (∀ res, cl_prog c = Ret res → res = Some k ∧ off = k).
Proof using DpdkLaws0 DpdkAccount0.
  intros Hcfg Hq Hr Hc Hj now. destruct (fine_reachable_inv st Hcfg Hq Hr) as [Hin Hout].
  destruct (Hout c Hc) as [Hi [Hopen Hu32] (o & Hag & Hsafe)]. pose proof (safe_now _ _ _ _ _ _ _ _ _ Hsafe) as Hnow.
  unfold call_now in Hnow. rewrite Hj in Hnow. pose proof Hag as [Hw Hlog Hsl].
  assert (Hout0 : o_out o = out_flags (before_call c)) by (destruct Hnow as [(_ & ? & _)|(? & ? & ? & ? & ? & [])]; done).
  destruct (Hsl ltac:(unfold unreleased; by rewrite Hout0)) as (Hk & Hn & Ho & Hg & Hsa & _). fold now in Hk, Hn, Ho, Hg, Hsa.
  apply (f_equal snd) in Hsa. split_and!; [done|done|congruence|done|].
  assert (Hnone : untouched_by_call (own_before c) o → sending c bytes (t_impl st) [] 0 0).
  { intros (E1 & _ & E3). unfold sending. fold now. rewrite Hw, Hn, E1, E3, app_nil_r, Z.add_0_r.
    split_and!; [done|symmetry; by apply u32_id|done|by left]. }
  assert (Hsome : ∀ segs k off win ack, sent_upto stack (send_mss (before_call c)) (conn_addr stack (before_call c)) (own_before c)
      bytes segs k off win ack o → sending c bytes (t_impl st) segs k off).
  { intros segs k off win ack []. unfold sending. fold now. rewrite Hw, Hn. split_and!; [done|done|lia|]. right. exists win, ack.
    destruct su_open. split_and!; [by apply Hlog..|apply su_off|done]. }
  destruct (cl_prog c) as [res| | | |] eqn:Ep;
    [|destruct Hnow as [?|(segs' & k' & off' & win' & ack' & Hx)]; [exists [], 0, 0|exists segs', k', off']; (split; [by eauto|done])..].
  destruct Hsafe as [_ Hpost]. unfold call_post in Hpost. rewrite Hj in Hpost. destruct res as [k|]; [|done].
  destruct Hpost as [[-> ?]|(segs & win & ack & Hx)]; [exists [], 0, 0|exists segs, k, k]; (split; [by eauto|]); by intros res [= <-].
Qed.
(** Where a [close] stands: [fins] is what it has transmitted. *)
Definition fin_of (c : call E) (m : rte_mbuf) : Prop := ∃ ack, published c A_rcv_nxt ack ∧
  m_data m = fin_bytes stack (conn_addr stack (before_call c)) (own_before c) ack.

(** C11. [close] with the inbound thread running: at every moment of the call at
    most one FIN has left, with the sequence number after the last byte sent and
    an acknowledgement number published during the call.  Until the slot is
    released, the inbound thread sees the steps in order: [snd_nxt] counts the
    FIN before the flag announces it, and the flag is set before the FIN is on
    the wire; a connection that had its FIN, or was seen terminated, gets none.
    When the call returns, the flags it has last stored announce the FIN unless
    one of these held. *)
Theorem close_under_interference st c : stack_ok stack → own_queues control_txq data_txq → fine_reachable st →
  t_out st = Some c → cl_job c = J_close →
  let now := slot (t_impl st) (call_slot c) in
  let base := snd_nxt (before_call c) in
  let had_fin := flag (out_flags (before_call c)) out_fin_sent in
  ∃ fins out, on_wire (env (t_impl st)) = on_wire (env (cl_from c)) ++ fins ∧
    (fins = [] ∨ had_fin = false ∧ flag out out_fin_sent = true ∧ published c A_terminated 0 ∧ ∃ m, fins = [m] ∧ fin_of c m) ∧
    (flag out out_released = false → known now ∧ generation now = cid_generation (cl_conn c) ∧ out_flags now = out ∧
       (flag out out_fin_sent = true → had_fin = false → snd_nxt now = u32 (base + 1)) ∧
       (snd_nxt now = base ∨ snd_nxt now = u32 (base + 1) ∧ had_fin = false ∧ published c A_terminated 0)) ∧
    (∀ res, cl_prog c = Ret res → res = Some 0 ∧ flag out out_released = true ∧
       (flag out out_fin_sent = true ∨ ∃ t, t ≠ 0 ∧ published c A_terminated t)).
Proof using DpdkLaws0 DpdkAccount0.
  intros Hcfg Hq Hr Hc Hj now base had_fin. destruct (fine_reachable_inv st Hcfg Hq Hr) as [Hin Hout].
  destruct (Hout c Hc) as [Hi [Hopen Hu32] (o & Hag & Hsafe)]. pose proof (safe_now _ _ _ _ _ _ _ _ _ Hsafe) as Hnow.
  unfold call_now in Hnow. rewrite Hj in Hnow. pose proof Hag as [Hw Hlog Hsl].
  assert (Hview : ∀ fins, closing_upto stack (conn_addr stack (before_call c)) (own_before c) fins o →
    on_wire (env (t_impl st)) = on_wire (env (cl_from c)) ++ fins ∧
    (fins = [] ∨ had_fin = false ∧ flag (o_out o) out_fin_sent = true ∧ published c A_terminated 0 ∧ ∃ m, fins = [m] ∧ fin_of c m) ∧
    (flag (o_out o) out_released = false → known now ∧ generation now = cid_generation (cl_conn c) ∧ out_flags now = o_out o ∧
       (flag (o_out o) out_fin_sent = true → had_fin = false → snd_nxt now = u32 (base + 1)) ∧
       (snd_nxt now = base ∨ snd_nxt now = u32 (base + 1) ∧ had_fin = false ∧ published c A_terminated 0))).
  { intros fins [Cw Cf Cn Cs]. split; [exact (eq_trans Hw Cw)|]. split.
    - destruct Cs as [?|((Hf & Ha) & m & ack & -> & Hd & Hl)]; [by left|right]. split_and!; [done|done| |exists m; split; [done|exists ack; split; [by apply Hlog|done]]].
      destruct Cn as [[_ Hx]|(_ & _ & Ht)]; [by destruct Hx|by apply Hlog].
    - intros Hu. destruct (Hsl Hu) as (Hk & Hn & Ho & Hg & _). fold now in Hk, Hn, Ho, Hg. rewrite Hn. split_and!; [done..| |].
      + intros Hf Hh. destruct Cn as [[_ Hx]|(? & _)]; [by destruct Hx|done].
      + destruct Cn as [[? _]|(? & ? & ?)]; [by left|right]. split_and!; [done|done|by apply Hlog]. }
  destruct (cl_prog c) as [res| | | |] eqn:Ep;
    [|destruct Hnow as [fins Hcl]; destruct (Hview fins Hcl) as (V1 & V2 & V3); exists fins, (o_out o); by split_and!..].
  destruct Hsafe as [_ Hpost]. unfold call_post in Hpost. rewrite Hj in Hpost. destruct Hpost as (-> & fins & Hcl & Hrel & Hwhy).
  destruct (Hview fins Hcl) as (V1 & V2 & V3). exists fins, (o_out o). split_and!; [done..|]. intros res [= <-]. split_and!; [done|done|].
  destruct Hwhy as [[_ ?]|[Hf|(t & ? & ?)]]; [by left|left; by apply (cu_flags _ _ _ _ _ Hcl)|right; exists t; split; [done|by apply Hlog]].
Qed.
End fine.

(** ** Schedules *)

(** One step of a schedule; a load of the sender sees the slots as they are. *)
Inductive tick := K_poll (burst : list rte_mbuf) | K_in | K_call (conn : conn_id) (j : job) | K_out | K_return.

Section schedule.
Context {E : Type} `{DpdkOps E} `{!DpdkWire E}.
Context (stack : tcp_stack) (control_txq data_txq : queue).

Definition out_exec {A} (seen : list tcp_connection) (p : prog E A) (r : impl E) : option (prog E A * impl E) :=
  match p with
  | Ret _ => None
  | Load x i k => Some (k (read x (conn_at (if sender_owned x then slots r else seen) i)), r)
  | Store x i v k => Some (k, set_slots r (put_conn (slots r) i (write x v (conn_at (slots r) i))))
  | Plain i f k => Some (k (f (conn_at (slots r) i)), r)
  | Dpdk f k => let '(b, w) := f (env r) in Some (k b, set_env r w)
  end.

Definition usableb (r : impl E) (conn : conn_id) : bool :=
  let c := slot r (cid_slot conn) in
  (0 <=? cid_slot conn) && (cid_slot conn <? max_connections (params_ stack)) && (generation c =? cid_generation conn) &&
  bool_decide (known c) && negb (released c).

Definition tick_step (st : threads E) (t : tick) : option (threads E) :=
  match t, t_in st, t_out st with
  | K_poll burst, In_idle, out =>
    if forallb demo.wfb burst && (Z.of_nat (length burst) <=? burst_max_size)
    then Some (Threads (in_start burst (t_impl st)).2 (in_start burst (t_impl st)).1 out) else None
  | K_in, In_idle, _ => None
  | K_in, pc, out => let '(pc', r') := in_step stack control_txq pc (t_impl st) in Some (Threads r' pc' (witnesses r' <$> out))
  | K_call conn j, pc, None =>
    if usableb (t_impl st) conn
    then Some (Threads (t_impl st) pc (Some (Call conn j (t_impl st) [slots (t_impl st)] (job_prog stack data_txq conn j)))) else None
  | K_out, pc, Some c =>
    '(p, r') ← out_exec (default [] (head (cl_since c))) (cl_prog c) (t_impl st);
    match cl_since c with [] => None | _ => Some (Threads r' pc (Some (set_prog c p))) end
  | K_return, pc, Some c => match cl_prog c with Ret _ => Some (Threads (t_impl st) pc None) | _ => None end
  | _, _, _ => None
  end.

Definition play (ts : list tick) (st : threads E) : option (threads E) := foldl (λ st t, st ≫= λ st, tick_step st t) (Some st) ts.

Lemma out_exec_step {A} since seen (p p' : prog E A) r r' : seen ∈ since → out_exec seen p r = Some (p', r') → out_step since r p p' r'.
Proof using.
  intros Hs. destruct p as [a|x i k|x i v k|B i f k|B f k]; cbn; [done|intros [= <- <-]..|].
  - destruct (sender_owned x) eqn:Ex; [by apply os_load_own|by apply os_load_seen].
  - apply os_store.
  - apply os_plain.
  - pose proof (os_dpdk since r B f k) as Hd. destruct (f (env r)) as [b w]. by intros [= <- <-].
Qed.

Lemma usableb_ok r conn : usableb r conn = true → usable stack r conn.
Proof using.
  unfold usableb. cbv zeta. intros Hb. apply andb_prop in Hb as [Hb Hr]. apply andb_prop in Hb as [Hb Hk]. apply andb_prop in Hb as [Hb Hg].
  apply andb_prop in Hb as [H0 H1]. apply bool_decide_eq_true in Hk. apply negb_true_iff in Hr.
  unfold usable, inr. split_and!; try done; lia.
Qed.

Lemma tick_step_fine st t st' : tick_step st t = Some st' → fine_step stack control_txq data_txq st st'.
Proof using.
  destruct st as [r pc out]. unfold tick_step. cbn [t_impl t_in t_out]. destruct t as [burst| |conn j| |].
  - destruct pc; try done. destruct (_ && _) eqn:Eb; [|done]. intros [= <-]. apply andb_prop in Eb as [Eb El].
    apply fs_poll; [by apply demo.wfb_all|lia].
  - intros Ht. assert (Hne : pc ≠ In_idle) by (by intros ->).
    destruct (in_step stack control_txq pc r) as [pc' r'] eqn:Es. assert (st' = Threads r' pc' (witnesses r' <$> out)) as ->.
    { destruct pc; try done; rewrite Es in Ht; congruence. }
    by apply fs_in.
  - destruct out; [by destruct pc|]. destruct (usableb r conn) eqn:Eu; [|by destruct pc]. intros Ht.
    assert (st' = Threads r pc (Some (Call conn j r [slots r] (job_prog stack data_txq conn j)))) as -> by (destruct pc; congruence).
    by apply fs_out, om_call, usableb_ok.
  - destruct out as [c|]; [|by destruct pc]. intros Ht. destruct (out_exec _ _ _) as [[p r']|] eqn:Eo; [|by destruct pc].
    destruct (cl_since c) as [|s since] eqn:Ec; [by destruct pc|].
    assert (st' = Threads r' pc (Some (set_prog c p))) as -> by (destruct pc; cbn in Ht; congruence).
    apply fs_out, om_access. eapply out_exec_step; [|exact Eo]. rewrite Ec. by left.
  - destruct out as [c|]; [|by destruct pc]. destruct (cl_prog c) as [res| | | |] eqn:Ep; try (by destruct pc).
    intros Ht. assert (st' = Threads r pc None) as -> by (destruct pc; congruence). apply fs_out. by eapply om_return.
Qed.

Lemma play_reachable ts st st' : fine_reachable stack control_txq data_txq st → play ts st = Some st' → fine_reachable stack control_txq data_txq st'.
Proof using.
  unfold play. revert st. induction ts as [|t ts IH]; intros st Hr; cbn; [by intros [= <-]|].
  destruct (tick_step st t) as [st1|] eqn:Et; cbn.
  - apply IH. destruct Hr as [w Hr]. exists w. eapply rtc_r; [exact Hr|]. by apply (tick_step_fine st t).
  - assert (Hn : ∀ l, foldl (λ st t, st ≫= λ st, tick_step st t) None l = None) by (intros l; by induction l). by rewrite Hn.
Qed.
End schedule.

(** The two threads' programs are the functions of the coarser model: run
    without interruption, the accesses of [send] and [close] give the result,
    the slots and the environment of [TcpSender.send] and [close], and the steps
    of [poll] end in the state of [TcpReceiver.poll]. *)
Theorem programs_run_alone {E : Type} `{DpdkOps E} stack txq conn bytes s (w : E) r burst :
  Z.of_nat (length s) = max_connections (params_ stack) → 0 <= cid_slot conn →
  (let '(k, s', w') := run (send_prog stack txq conn bytes) s w in (λ k, (k, s', w')) <$> k) = send stack txq s conn bytes w ∧
  run (close_prog stack txq conn) s w = (tt, (close stack txq s conn w).1, (close stack txq s conn w).2) ∧
  ∃ k, in_run stack txq k (in_start burst r) = (In_idle, (poll stack txq r burst).2).
Proof. intros Hn H0. split; [by apply run_send|]. split; [by apply run_close|]. apply in_steps_poll. Qed.

(** ** Runs *)

Section played.
#[local] Existing Instances sim.ops sim.laws sim.account sim.wires.

Definition handshake : list tick := K_poll [demo.syn] :: replicate 6 K_in ++ K_poll [demo.ack_hi] :: replicate 7 K_in.
Definition five : list Z := [1; 2; 3; 4; 5].
Definition calls_send : list tick := handshake ++ [K_call demo.conn (J_send five)].
(** The peer acknowledges five bytes. *)
Definition ack_five : rte_mbuf := demo.from_peer 1003 6 0x10 [].

Definition boot (limits : list Z) : threads sim.env := threads_new demo.stack (sim.Env 2048 64 limits [] [] [] 0).
Definition played (limits : list Z) (ts : list tick) : threads sim.env :=
  default (boot limits) (play demo.stack demo.control_txq demo.data_txq ts (boot limits)).
Abbreviation fine_reached := (fine_reachable demo.stack demo.control_txq demo.data_txq).

Lemma played_reached limits ts : fine_reached (played limits ts).
Proof.
  assert (H0 : fine_reached (boot limits)) by (by eexists; constructor).
  unfold played. destruct (play _ _ _ ts (boot limits)) as [st|] eqn:Ep; [|done]. by eapply play_reachable.
Qed.

Lemma demo_queues : own_queues demo.control_txq demo.data_txq.
Proof. by split. Qed.

(** [send] is interrupted after it has published: the five bytes are counted and
    not yet sent. *)
Definition published_five : threads sim.env := played [] (calls_send ++ replicate 15 K_out).
(** It goes on while [poll] takes in an empty segment. *)
Definition sent_five : threads sim.env :=
  played [] (calls_send ++ replicate 15 K_out ++ K_poll [demo.from_peer 1003 1 0x10 []] :: replicate 6 K_in ++ replicate 2 K_out).

Lemma interleaved_state_consistent_witness : state (slot (t_impl published_five) 0) ≠ st_free ∧
  rcv_nxt (slot (t_impl published_five) 0) = rcv_nxt_local (slot (t_impl published_five) 0).
Proof.
  assert (Hs : state (slot (t_impl published_five) 0) ≠ st_free) by (vm_compute; discriminate). split; [exact Hs|].
  destruct (interleaved_state_consistent demo.stack demo.control_txq demo.data_txq published_five demo_ok demo_queues (played_reached _ _))
    as (_ & _ & _ & _ & _ & Hv & _). apply (Hv 0); [split; [discriminate|reflexivity]|exact Hs].
Defined.

Lemma send_under_interference_witness : ∃ c segs, t_out sent_five = Some c ∧ cl_prog c = Ret (Some 5) ∧
  sending demo.stack demo.data_txq c five (t_impl sent_five) segs 5 5.
Proof.
  assert (Hc : (λ c, (cl_job c, match cl_prog c with Ret res => res | _ => None end)) <$> t_out sent_five = Some (J_send five, Some 5))
    by (vm_compute; reflexivity).
  destruct (t_out sent_five) as [c|] eqn:Eo; [|discriminate Hc]. injection Hc as Hj Hp.
  assert (Hr : cl_prog c = Ret (Some 5)) by (destruct (cl_prog c); try discriminate Hp; by rewrite Hp).
  destruct (send_under_interference demo.stack demo.control_txq demo.data_txq sent_five c five demo_ok demo_queues (played_reached _ _) Eo Hj)
    as (_ & _ & _ & _ & segs & k & off & Hs & Hres).
  destruct (Hres _ Hr) as [[= <-] ->]. exists c, segs. split; [done|]. split; [exact Hr|exact Hs].
Defined.

(** [close] with a packet handled between its two stores. *)
Definition closed_demo : threads sim.env :=
  played [] (handshake ++ K_call demo.conn J_close :: replicate 8 K_out ++ K_poll [demo.from_peer 1003 1 0x10 [33]] :: replicate 7 K_in ++ replicate 6 K_out).

Lemma close_under_interference_witness : ∃ c m, t_out closed_demo = Some c ∧ cl_prog c = Ret (Some 0) ∧
  wire 0 1 (env (t_impl closed_demo)) = [m].
Proof.
  assert (Hc : (λ c, (cl_job c, match cl_prog c with Ret res => res | _ => None end, wire 0 1 (env (cl_from c)))) <$> t_out closed_demo = Some (J_close, Some 0, []))
    by (vm_compute; reflexivity).
  assert (Hl : length (wire 0 1 (env (t_impl closed_demo))) = 1%nat) by (vm_compute; reflexivity).
  destruct (t_out closed_demo) as [c|] eqn:Eo; [|discriminate Hc]. injection Hc as Hj Hp Hw.
  assert (Hr : cl_prog c = Ret (Some 0)) by (destruct (cl_prog c); try discriminate Hp; by rewrite Hp).
  destruct (close_under_interference demo.stack demo.control_txq demo.data_txq closed_demo c demo_ok demo_queues (played_reached _ _) Eo Hj)
    as (fins & out & Hw2 & Hf & _).
  assert (Hw0 : wire (q_port demo.data_txq) (q_id demo.data_txq) (env (cl_from c)) = []) by exact Hw.
  rewrite Hw0 in Hw2. cbn [app] in Hw2. change (wire 0 1) with (wire (E := sim.env) (q_port demo.data_txq) (q_id demo.data_txq)) in *.
  rewrite Hw2 in Hl |- *. destruct Hf as [->|(_ & _ & _ & m & -> & _)]; [discriminate Hl|].
  exists c, m. split; [reflexivity|]. split; [exact Hr|reflexivity].
Defined.

Lemma programs_run_alone_witness : ∃ k, in_run demo.stack demo.control_txq k (in_start [demo.syn] demo.boot) = (In_idle, demo.half_open).
Proof.
  destruct (programs_run_alone demo.stack demo.control_txq demo.conn five (slots demo.boot) (env demo.boot) demo.boot [demo.syn]) as (_ & _ & Hk);
    [reflexivity|discriminate|exact Hk].
Defined.

(** An ACK that comes between the publication of [snd_nxt] and the transmission
    is taken for an acknowledgement of sent data.  If the queue then refuses the
    segments, [snd_nxt] is pulled back behind [snd_una]: bytes that were never
    sent count as acknowledged, and the next [send] may go past the peer's
    window of 65535. *)
Definition overtaken : threads sim.env :=
  played [1; 1; 0] (calls_send ++ replicate 15 K_out ++ K_poll [ack_five] :: replicate 6 K_in ++ replicate 3 K_out ++ [K_return]).

Lemma ack_overtakes_send : fine_reached overtaken ∧ t_out overtaken = None ∧ wire 0 1 (env (t_impl overtaken)) = [] ∧
  seq_lt (snd_nxt (slot (t_impl overtaken) 0)) (snd_una (slot (t_impl overtaken) 0)) = true ∧
  send_space demo.stack (slots (t_impl overtaken)) demo.conn = 65540.
Proof. split; [apply played_reached|]. vm_compute. done. Qed.
End played.
