(* ===== verification/TcpRaces.v ===== *)
(** * The two places where the threads meet

    A handler of the inbound thread loads the sender's flags and [snd_nxt] more
    than once ([sync_out_flags], then [process_ack]), with the sender running in
    between.  [handler_reads_one_moment] shows that it always acts as if all
    loads were made at one moment, which is what the steps of TcpThreads.v assume.

    [open] initializes a slot with six stores while a late call may be looking it
    up; [stale_lookup_refused] shows that the order of the stores, the release on
    the last and the acquire and re-check in [lookup] refuse every old id. *)

From S2P Require Import Prelude Probing FlowTable Dpdk DpdkSim Packet Segment SegmentWire SeqArith Arp TcpState TcpReceiver.
From S2P Require Import TcpConn TcpInv TcpPoll TcpSender TcpValues TcpSystem TcpStream TcpIds TcpSetup TcpThreads TcpRely TcpCalls Scenario TcpFine.

(** ** A handler and the values it has loaded *)

(** [sync_out_flags] with the flags it loaded. *)
Definition sync_with (out : Z) (c : tcp_connection) : tcp_connection :=
  if negb (flag out out_fin_sent) then c
  else if decide (state c = st_established) then set_state c st_fin_wait_1
  else if decide (state c = st_close_wait) then set_state c st_last_ack
  else c.

(** [process_ack] and [process_data] with the flags and [snd_nxt] loaded. *)
Definition ack_with (out nxt : Z) (c : tcp_connection) (seg : segment) : tcp_connection * list happening :=
  if seq_gt (seg_ack seg) nxt then (set_ack_pending c true, [])
  else
    let c' := ack_window c seg in
    if flag out out_fin_sent && (seg_ack seg =? nxt) then
      match state c' with
      | st_fin_wait_1 => conn_data (set_state c' st_fin_wait_2) seg
      | st_closing | st_last_ack => (conn_close c' ev_closed, [(ev_closed, [])])
      | _ => conn_data c' seg
      end
    else conn_data c' seg.

(** [process_segment] with the three values it loads: the flags twice, [snd_nxt]. *)
Definition segment_with (stack : tcp_stack) (out1 out2 nxt : Z) (c : tcp_connection) (seg : segment)
    : tcp_connection * list happening :=
  let c := sync_with out1 c in
  match state c with
  | st_free | st_closed => (c, [])
  | st_syn_received =>
    if has seg RTE_TCP_RST_FLAG || has seg RTE_TCP_SYN_FLAG || negb (has seg RTE_TCP_ACK_FLAG) ||
       negb (seg_ack seg =? u32 (iss c + 1)) then (c, [])
    else let '(c, evs) := conn_data (conn_accept c seg) seg in (c, (ev_accepted, []) :: evs)
  | _ =>
    if has seg RTE_TCP_RST_FLAG then
      if rst_acceptable stack c seg then (conn_close c ev_reset, [(ev_reset, [])]) else (c, [])
    else if has seg RTE_TCP_SYN_FLAG then (set_ack_pending c true, [])
    else if negb (has seg RTE_TCP_ACK_FLAG) then (c, [])
    else ack_with out2 nxt c seg
  end.

Lemma segment_with_atomic stack out1 out2 nxt c seg : flag out1 out_fin_sent = flag (out_flags c) out_fin_sent →
  flag out2 out_fin_sent = flag (out_flags c) out_fin_sent → nxt = snd_nxt c → segment_with stack out1 out2 nxt c seg = conn_segment stack c seg.
Proof.
  intros H1 H2 ->. unfold segment_with, conn_segment, sync_with. rewrite H1. fold (sync_out_flags c).
  assert (Ha : ack_with out2 (snd_nxt c) (sync_out_flags c) seg = conn_ack (sync_out_flags c) seg).
  { unfold ack_with, conn_ack. assert (Hs : out_flags (sync_out_flags c) = out_flags c ∧ snd_nxt (sync_out_flags c) = snd_nxt c)
      by (unfold sync_out_flags; by repeat case_match). destruct Hs as [-> ->]. by rewrite H2. }
  by rewrite Ha.
Qed.

(** Flags seen only by the second load change nothing in the states a connection
    can then be in. *)
Lemma segment_with_late stack out1 out2 nxt c seg : flag out1 out_fin_sent = false → ¬ fin_state (state c) →
  segment_with stack out1 out2 nxt c seg = segment_with stack out1 out1 nxt c seg.
Proof.
  intros H1 Hs. unfold segment_with, sync_with. rewrite H1. cbn [negb].
  assert (Ha : ack_with out2 nxt c seg = ack_with out1 nxt c seg); [|by rewrite Ha].
  unfold ack_with. rewrite H1. cbn [andb]. destruct (seq_gt _ _); [done|]. destruct (_ && _); [|done]. destruct (ack_window_keeps c seg) as (Es & _).
  rewrite Es. unfold fin_state in Hs. destruct (state c); try done; tauto.
Qed.

(** ** What the sender does to a slot *)

Inductive sender_store (c : tcp_connection) : tcp_connection → Prop :=
  | ss_none : sender_store c c
  | ss_nxt v : flag (out_flags c) out_fin_sent = false → sender_store c (set_snd_nxt c v)
  | ss_out v : (flag (out_flags c) out_fin_sent = true → flag v out_fin_sent = true) → sender_store c (set_out_flags c v).

Section moments.
Context (h : nat → tcp_connection) (m : nat) (Hh : ∀ k, (k < m)%nat → sender_store (h k) (h (S k))).
Abbreviation announced k := (flag (out_flags (h k)) out_fin_sent).

(** Once announced, a FIN stays so and [snd_nxt] is final. *)
Lemma announced_stays t u : (t <= u <= m)%nat → announced t = true → announced u = true ∧ snd_nxt (h u) = snd_nxt (h t).
Proof using Hh.
  intros [Htu Hu] Ht. induction u as [|u IH]; [by assert (t = 0%nat) as -> by lia|].
  destruct (decide (t = S u)) as [<-|Hne]; [done|]. destruct IH as [Ha Hn]; [lia|lia|].
  destruct (Hh u ltac:(lia)) as [|v Hf|v Hf]; cbn; [done|congruence|auto].
Qed.

Lemma same_state t : (t <= m)%nat → state (h t) = state (h 0).
Proof using Hh. induction t as [|t IH]; intros Ht; [done|]. rewrite <- IH by lia. by destruct (Hh t ltac:(lia)). Qed.

(** The moment just before the announcement. *)
Lemma announcement t u : (t <= u <= m)%nat → announced t = false → announced u = true →
  ∃ s, (t <= s < u)%nat ∧ announced s = false ∧ snd_nxt (h u) = snd_nxt (h s).
Proof using Hh.
  intros [Htu Hu] Ht. induction u as [|u IH]; intros Hau; [replace t with 0%nat in Ht by lia; congruence|].
  destruct (decide (t = S u)) as [Et|Hne]; [rewrite Et in Ht; congruence|]. destruct (announced u) eqn:Ea.
  - destruct IH as (s & Hs & Has & Hn); [lia|lia|done|]. destruct (announced_stays u (S u) ltac:(lia) Ea) as [_ Hx].
    exists s. split_and!; [lia|lia|done|congruence].
  - exists u. split_and!; [lia|lia|done|]. destruct (Hh u ltac:(lia)) as [|v Hf|v Hf]; cbn in *; congruence.
Qed.

Lemma reads_one_moment stack t1 t2 t3 seg : (t1 <= t2)%nat → (t2 <= t3 <= m)%nat →
  (fin_state (state (h 0)) → announced t1 = true) →
  ∃ t, (t1 <= t <= t3)%nat ∧ segment_with stack (out_flags (h t1)) (out_flags (h t2)) (snd_nxt (h t3)) (h t) seg = conn_segment stack (h t) seg.
Proof using Hh.
  intros H12 H23 Hfin. destruct (announced t1) eqn:A1.
  - destruct (announced_stays t1 t2 ltac:(lia) A1) as [A2 _]. destruct (announced_stays t1 t3 ltac:(lia) A1) as [_ N3].
    exists t1. split; [lia|]. apply segment_with_atomic; congruence.
  - assert (Hns : ∀ t, (t <= m)%nat → ¬ fin_state (state (h t))) by (intros t Ht; rewrite same_state by done; intros Hx; discriminate (Hfin Hx)).
    destruct (announced t2) eqn:A2.
    + destruct (announcement t1 t2 ltac:(lia) A1 A2) as (s & Hs & As & Ns). destruct (announced_stays t2 t3 ltac:(lia) A2) as [_ N3].
      exists s. split; [lia|]. rewrite segment_with_late by (done || apply Hns; lia). apply segment_with_atomic; congruence.
    + destruct (announced t3) eqn:A3.
      * destruct (announcement t2 t3 ltac:(lia) A2 A3) as (s & Hs & As & Ns). exists s. split; [lia|]. apply segment_with_atomic; congruence.
      * exists t3. split; [lia|]. apply segment_with_atomic; congruence.
Qed.
End moments.

Section races.
Context {E : Type} `{DpdkOps E} `{!DpdkLaws E} `{!DpdkAccount E} `{!DpdkWire E}.
Context (stack : tcp_stack) (control_txq data_txq : queue).
Abbreviation n := (max_connections (params_ stack)).

Lemma out_move_store st st' i : fine_inv stack data_txq st → out_move stack data_txq st st' → inr n i →
  sender_store (slot (t_impl st) i) (slot (t_impl st') i).
Proof using.
  intros [Hin Hout] Hm Hi. destruct Hm as [r pc conn j Hu|r pc c p r' Hs|r pc c res Hres|r pc out w Hw]; cbn [t_impl t_in t_out] in *; try apply ss_none.
  destruct (Hout c eq_refl) as [Hci _ (o & Hag & Hsafe)]. destruct Hs as [x j k Hx|x j k s Hx Hs|x j v k|B j f k|B f k]; try apply ss_none.
  cbn [safe] in Hsafe. destruct Hsafe as (_ & -> & Hu & Hk). destruct (g_slot _ _ _ _ _ _ _ _ Hag Hu) as (_ & _ & Ho & _).
  change (conn_at (slots r) (call_slot c)) with (slot r (call_slot c)).
  assert (Hp : slot (set_slots r (put_conn (slots r) (call_slot c) (write x v (slot r (call_slot c))))) i =
    if decide (call_slot c = i) then write x v (slot r (call_slot c)) else slot r i) by exact (slot_put stack r _ i _ (in_inv_len _ _ _ Hin) Hci Hi).
  rewrite Hp. case_decide as Ei; [|apply ss_none]. rewrite Ei in *.
  destruct x; try done; destruct Hk as (Hv & Hf & _); cbn; [apply ss_nxt|apply ss_out]; by rewrite Ho.
Qed.

(** C12. A segment is handled as if the inbound thread had read the sender's
    values at one moment: however the sender moves between the handler's first
    load of the flags, the second and the load of [snd_nxt], there is a moment in
    that time at which a handler that runs without interruption does the same to
    the connection and reports the same events.  So no half of a [close] is ever
    acted upon. *)
Theorem handler_reads_one_moment (sts : nat → threads E) i t1 t2 t3 seg : stack_ok stack → own_queues control_txq data_txq →
  fine_reachable stack control_txq data_txq (sts 0%nat) → (∀ k, (k < t3)%nat → out_move stack data_txq (sts k) (sts (S k))) →
  (t1 <= t2)%nat → (t2 <= t3)%nat → inr n i → state (slot (t_impl (sts 0%nat)) i) ≠ st_free →
  let c k := slot (t_impl (sts k)) i in
  ∃ t, (t1 <= t <= t3)%nat ∧
    segment_with stack (out_flags (c t1)) (out_flags (c t2)) (snd_nxt (c t3)) (c t) seg = conn_segment stack (c t) seg.
Proof using DpdkLaws0 DpdkAccount0.
  intros Hcfg Hq Hr Hmoves H12 H23 Hi Hnf c. pose proof (fine_reachable_inv stack control_txq data_txq _ Hcfg Hq Hr) as H0.
  assert (Hinv : ∀ k, (k <= t3)%nat → fine_inv stack data_txq (sts k)).
  { induction k as [|k IH]; intros Hk; [done|]. eapply (fine_step_inv stack control_txq data_txq (sts k)); [done|done|apply IH; lia|]. apply fs_out, Hmoves. lia. }
  assert (Hst : ∀ k, (k < t3)%nat → sender_store (c k) (c (S k))) by (intros k Hk; apply out_move_store; [apply Hinv; lia|by apply Hmoves|done]).
  apply (reads_one_moment c t3 Hst stack t1 t2 t3 seg); [done|lia|]. intros Hf. assert (Ht1 : state (c t1) = state (c 0%nat)) by (by apply (same_state c t3); [|lia]).
  destruct (Hinv t1 ltac:(lia)) as [Hin _]. pose proof Hin as [_ _ Hsl].
  destruct (slots_ok_slot stack _ i Hsl (in_inv_table _ _ _ _ Hin Hi)) as [_ [Hx|[Hwk _]]].
  - exfalso. apply Hnf. change (state (c 0%nat) = st_free). rewrite <- Ht1. exact Hx.
  - apply (co_fin _ _ Hwk). change (fin_state (state (c t1))). by rewrite Ht1.
Qed.
End races.

(** ** A late [lookup] and the re-initialization of its slot *)

(** The stores of [open] into a slot's atomics, in program order; the last has
    release order. *)
Definition open_stores (stack : tcp_stack) (c : tcp_connection) (seg : segment) (isn : Z) : list (atomic * Z) :=
  let gen := u32 (generation c + 1) in
  let gen := if gen =? 0 then 1 else gen in
  [(A_generation, gen); (A_rcv_nxt, u32 (seg_seq seg + 1)); (A_send_window, pack_window isn (seg_window seg));
   (A_terminated, 0); (A_snd_nxt, u32 (isn + 1)); (A_out_flags, 0)].

Definition apply_stores (c : tcp_connection) (l : list (atomic * Z)) : tcp_connection := foldl (λ c s, write s.1 s.2 c) c l.

(** The slot's atomics with the first [t] stores made. *)
Definition value_at (stack : tcp_stack) (c : tcp_connection) (seg : segment) (isn : Z) (x : atomic) (t : nat) : Z :=
  read x (apply_stores c (take t (open_stores stack c seg isn))).

Lemma open_stores_all stack c seg isn x : value_at stack c seg isn x 6 = read x (opened stack c seg isn).
Proof. by destruct x. Qed.

(** A program fed with the values of its loads. *)
Fixpoint answers {E A} (p : prog E A) (vs : list Z) : option A :=
  match p, vs with
  | Ret a, _ => Some a
  | Load _ _ k, v :: vs => answers (k v) vs
  | _, _ => None
  end.

(** The moments at which the three loads of [lookup] may see the slot: the
    generation does not go back, and a load of the flags that sees the release
    store makes all earlier stores visible to the loads after it. *)
Definition visible_at (t1 t2 t3 : nat) : Prop := (t1 <= 6 ∧ t2 <= 6 ∧ t3 <= 6 ∧ t1 <= t3 ∧ (t2 = 6 → t3 = 6))%nat.

(** C13. A call that comes too late is refused, also while [open] is giving its
    slot to a new connection: whichever of the six stores its three loads see,
    out of order as far as release and acquire allow, [lookup] on an id other
    than the new connection's yields a null pointer. *)
Theorem stale_lookup_refused {E : Type} stack (c : tcp_connection) seg isn conn t1 t2 t3 :
  released c = true → cid_generation conn ≠ generation (opened stack c seg isn) → cid_slot conn < max_connections (params_ stack) →
  visible_at t1 t2 t3 →
  answers (lookup_prog (E := E) stack conn)
    [value_at stack c seg isn A_generation t1; value_at stack c seg isn A_out_flags t2; value_at stack c seg isn A_generation t3] = Some None.
Proof.
  intros Hr Hg Hs (H1 & H2 & H3 & H13 & H23). unfold lookup_prog. destruct (Z.leb_spec (max_connections (params_ stack)) (cid_slot conn)); [lia|].
  cbn [answers]. destruct (Z.eqb_spec (value_at stack c seg isn A_generation t1) (cid_generation conn)) as [E1|E1]; [|done]. cbn [negb answers].
  destruct (decide (t2 = 6%nat)) as [E2|E2].
  - rewrite (H23 E2), open_stores_all. cbn [read]. destruct (Z.eqb_spec (generation (opened stack c seg isn)) (cid_generation conn)); [congruence|done].
  - assert (Hf : value_at stack c seg isn A_out_flags t2 = out_flags c) by (by do 6 (destruct t2 as [|t2]; [done|]); destruct t2; [|lia]).
    rewrite Hf. unfold released in Hr. by rewrite Hr, orb_true_r.
Qed.

(** ** Runs *)

Section raced.
#[local] Existing Instances sim.ops sim.laws sim.account sim.wires.

(** The sender's steps of a [close], one by one. *)
Fixpoint closing_demo (k : nat) : threads sim.env :=
  match k with
  | O => played [] (handshake ++ [K_call demo.conn J_close])
  | S k => let st := closing_demo k in default st (tick_step demo.stack demo.control_txq demo.data_txq st K_out)
  end.

Lemma closing_moves k : out_move demo.stack demo.data_txq (closing_demo k) (closing_demo (S k)).
Proof.
  cbn [closing_demo]. cbv zeta. set (st := closing_demo k). clearbody st. destruct st as [r pc [c|]]; cbn [tick_step t_out t_in t_impl].
  - assert (Hstay : out_move demo.stack demo.data_txq (Threads r pc (Some c)) (Threads r pc (Some c))).
    { pose proof (om_env demo.stack demo.data_txq r pc (Some c) (env r) eq_refl) as Hx. by destruct r. }
    replace (match pc with In_idle => _ | _ => _ end) with
      ('(p, r') ← out_exec (default [] (head (cl_since c))) (cl_prog c) r;
       match cl_since c with [] => None | _ => Some (Threads r' pc (Some (set_prog c p))) end) by (by destruct pc).
    destruct (out_exec _ _ _) as [[p r']|] eqn:Eo; cbn; [|done]. destruct (cl_since c) as [|s since] eqn:Ec; [done|].
    apply om_access. eapply out_exec_step; [|exact Eo]. rewrite Ec. by left.
  - replace (match pc with In_idle => _ | _ => _ end) with (None : option (threads sim.env)) by (by destruct pc).
    pose proof (om_env demo.stack demo.data_txq r pc None (env r) eq_refl) as Hx. by destruct r.
Qed.

(** The peer's ACK of our FIN, with the flags loaded before and after [close] sets
    them and [snd_nxt] after the FIN has left. *)
Definition fin_ack : segment := segment_of demo.peer 1003 2 0x10 65535 [] 0.

Lemma handler_reads_one_moment_witness : ∃ t, (8 <= t <= 12)%nat ∧
  let c k := slot (t_impl (closing_demo k)) 0 in
  flag (out_flags (c 8%nat)) out_fin_sent = false ∧ flag (out_flags (c 10%nat)) out_fin_sent = true ∧
  segment_with demo.stack (out_flags (c 8%nat)) (out_flags (c 10%nat)) (snd_nxt (c 12%nat)) (c t) fin_ack = conn_segment demo.stack (c t) fin_ack.
Proof.
  assert (Hr : fine_reachable demo.stack demo.control_txq demo.data_txq (closing_demo 0)) by apply played_reached.
  assert (Hs : state (slot (t_impl (closing_demo 0)) 0) ≠ st_free) by (vm_compute; discriminate).
  destruct (handler_reads_one_moment demo.stack demo.control_txq demo.data_txq closing_demo 0 8 10 12 fin_ack demo_ok demo_queues Hr
    (λ k _, closing_moves k)) as (t & Ht & Hx); [lia|lia|split; [discriminate|reflexivity]|exact Hs|].
  exists t. split; [exact Ht|]. split; [vm_compute; reflexivity|]. split; [vm_compute; reflexivity|exact Hx].
Defined.

(** A slot that was released with generation 7, and a call that still has its id. *)
Definition late_slot : tcp_connection := set_out_flags (set_generation new_connection 7) 3.
Definition late_conn : conn_id := {| cid_slot := 0; cid_generation := 7 |}.

Lemma stale_lookup_refused_witness : value_at demo.stack late_slot fin_ack 0 A_generation 0 = 7 ∧
  value_at demo.stack late_slot fin_ack 0 A_out_flags 6 = 0 ∧
  answers (lookup_prog (E := sim.env) demo.stack late_conn)
    [value_at demo.stack late_slot fin_ack 0 A_generation 0; value_at demo.stack late_slot fin_ack 0 A_out_flags 6;
     value_at demo.stack late_slot fin_ack 0 A_generation 6] = Some None.
Proof.
  split; [reflexivity|]. split; [reflexivity|].
  apply (stale_lookup_refused demo.stack late_slot fin_ack 0 late_conn 0 6 6); [reflexivity|discriminate|reflexivity|].
  unfold visible_at. lia.
Defined.
End raced.
