(* ===== verification/EchoLoop.v ===== *)
(** * The two threads of the echo server (examples/tcp_echo_server.h, lines 108-153)

    [run_inbound] and [run_outbound] over one tcp_stack, one call at a time: a
    turn of the inbound thread is one step of its loop (drain the overflow,
    receive and poll, handle one event, let the burst go), a turn of the
    outbound thread one evaluation of its loop condition with what it guards
    (look at the ring, one [send], the end of an item).  The turns of the two
    threads and the [stop] request follow each other in any order. *)

From S2P Require Import Prelude Dpdk DpdkSim Packet Segment TcpState TcpReceiver TcpSender Echo TcpSystem.

(** Where the inbound thread is: at the head of its loop, with queues left to
    drain, or handling the events of a burst that is still in scope. *)
Inductive inbound_pc :=
  | In_loop | In_queues (rest : list queue) | In_events (rest : list queue) (burst : packet_burst) (evs : list tcp_event) | In_done.

(** Where the outbound thread is: at the head of its loop, at work on the item
    at the front of the ring, [sent] of its bytes sent, or returned. *)
Inductive outbound_pc := Out_loop | Out_item (sent : Z) | Out_done.

(** What the application does with the stack, in order. *)
Inductive obs := O_event (ev : tcp_event) | O_sent (conn : conn_id) (bytes : list Z) | O_close (conn : conn_id).

Inductive tick := Inbound (junk : list Z) | Outbound | Stop.

Section loop.
Context {E : Type} `{DpdkOps E}.
Context (stack : tcp_stack) (rxqs : list queue) (control_txq data_txq : queue).

Record echo_state := EchoState { rx_ : impl E; srv : server; inbound : inbound_pc; outbound : outbound_pc; stop : bool }.

Definition set_inbound (st : echo_state) (r : impl E) (s : server) (pc : inbound_pc) : echo_state :=
  EchoState r s pc (outbound st) (stop st).
Definition set_outbound (st : echo_state) (r : impl E) (s : server) (pc : outbound_pc) : echo_state :=
  EchoState r s (inbound st) pc (stop st).
Definition set_released (s : server) (gens : list Z) : server :=
  Server (ring_ s) (overflow_ s) (accepted_count s) (finished_count s) gens.

(** [run_inbound]; [junk] is the memory of the item [handle] declares. *)
Definition run_inbound (junk : list Z) (st : echo_state) : echo_state * list obs :=
  match inbound st with
  | In_loop =>
    if stop st then (set_inbound st (rx_ st) (srv st) In_done, [])
    else (set_inbound st (rx_ st) (drain_overflow (srv st)) (In_queues rxqs), [])
  | In_queues [] => (set_inbound st (rx_ st) (srv st) In_loop, [])
  | In_queues (rxq :: rest) =>
    let '(burst, w) := receive_burst rxq burst_max_size (env (rx_ st)) in
    let '(evs, r) := poll stack control_txq (set_env (rx_ st) w) (omap id burst) in
    (set_inbound st r (srv st) (In_events rest burst evs), O_event <$> evs)
  | In_events rest burst (ev :: evs) => (set_inbound st (rx_ st) (handle junk (srv st) ev) (In_events rest burst evs), [])
  | In_events rest burst [] =>
    (set_inbound st (set_env (rx_ st) (burst_dtor burst (env (rx_ st)))) (srv st) (In_queues rest), [])
  | In_done => (st, [])
  end.

(** The end of an item: [ring_->pop()]. *)
Definition end_item (st : echo_state) (r : impl E) (s : server) : echo_state := set_outbound st r (pop_item s) Out_loop.

Definition run_outbound (st : echo_state) : echo_state * list obs :=
  let r := rx_ st in
  match outbound st, front_item (srv st) with
  | Out_done, _ => (st, [])
  | Out_loop, front =>
    if stop st then (set_outbound st r (srv st) Out_done, [])
    else match front with None => (st, []) | Some _ => (set_outbound st r (srv st) (Out_item 0), []) end
  | Out_item _, None => (st, [])
  | Out_item sent, Some item =>
    match what item with
    | wk_data =>
      if (sent <? item_len item) && sendable stack (slots r) (item_conn item) && negb (stop st) then
        let rest := sub (item_bytes item) (Z.to_nat sent) (Z.to_nat (item_len item - sent)) in
        match send stack data_txq (slots r) (item_conn item) rest (env r) with
        | None => (st, [])
        | Some (k, s, w) =>
          (set_outbound st (store r s w) (srv st) (Out_item (sent + k)), [O_sent (item_conn item) (take (Z.to_nat k) rest)])
        end
      else (end_item st r (srv st), [])
    | wk_peer_closed | wk_reset =>
      let conn := item_conn item in
      let gens := released_gen_ (srv st) in
      let '(gens', (s, w)) := close_once stack data_txq conn gens (slots r) (env r) in
      (end_item st (store r s w) (set_released (srv st) gens'),
       if negb (gens !!! Z.to_nat (cid_slot conn) =? cid_generation conn) then [O_close conn] else [])
    end
  end.

Definition echo_turn (st : echo_state) (t : tick) : echo_state * list obs :=
  match t with
  | Inbound junk => run_inbound junk st
  | Outbound => run_outbound st
  | Stop => (EchoState (rx_ st) (srv st) (inbound st) (outbound st) true, [])
  end.

(** A schedule, with everything observed after [tr]. *)
Fixpoint echo_run (st : echo_state) (tr : list obs) (ts : list tick) : echo_state * list obs :=
  match ts with
  | [] => (st, tr)
  | t :: ts => let '(st, o) := echo_turn st t in echo_run st (tr ++ o) ts
  end.

(** What a turn takes from outside: packets whose bytes are bytes, an item of
    the declared size, and generations that do not pass 2^32. *)
Definition turn_ok (st : echo_state) (t : tick) : Prop :=
  match t, inbound st with
  | Inbound _, In_queues (rxq :: _) =>
    let '(burst, w) := receive_burst rxq burst_max_size (env (rx_ st)) in
    Forall pkt_wf (omap id burst) ∧
    ∀ i, 0 <= i < max_connections (params_ stack) →
      generation (slot (rx_ st) i) <= generation (slot (poll stack control_txq (set_env (rx_ st) w) (omap id burst)).2 i)
  | Inbound junk, _ => Z.of_nat (length junk) = item_capacity
  | _, _ => True
  end.
Fixpoint run_ok (st : echo_state) (ts : list tick) : Prop :=
  match ts with [] => True | t :: ts => turn_ok st t ∧ run_ok (echo_turn st t).1 ts end.

(** The server after its constructor. *)
Definition echo_new (w : E) : echo_state :=
  EchoState (impl_new stack (replicate (Z.to_nat (max_connections (params_ stack))) new_connection) w)
    (idle_server (Z.to_nat (max_connections (params_ stack)))) In_loop Out_loop false.
End loop.
Arguments echo_state : clear implicits.

(** ** Reading a trace *)

Definition received (a : conn_id) (tr : list obs) : list Z :=
  concat ((λ o, match o with
                | O_event ev => if decide (ev_type ev = ev_data ∧ ev_conn ev = a) then ev_bytes ev else []
                | _ => [] end) <$> tr).
Definition echoed (a : conn_id) (tr : list obs) : list Z :=
  concat ((λ o, match o with O_sent c bs => if decide (c = a) then bs else [] | _ => [] end) <$> tr).
Definition closes (tr : list obs) : list conn_id := omap (λ o, match o with O_close c => Some c | _ => None end) tr.
Definition events_in (tr : list obs) : list tcp_event := omap (λ o, match o with O_event e => Some e | _ => None end) tr.

Lemma received_app a t1 t2 : received a (t1 ++ t2) = received a t1 ++ received a t2.
Proof. unfold received. by rewrite fmap_app, concat_app. Qed.
Lemma echoed_app a t1 t2 : echoed a (t1 ++ t2) = echoed a t1 ++ echoed a t2.
Proof. unfold echoed. by rewrite fmap_app, concat_app. Qed.
Lemma closes_app t1 t2 : closes (t1 ++ t2) = closes t1 ++ closes t2.
Proof. apply omap_app. Qed.
Lemma events_in_app t1 t2 : events_in (t1 ++ t2) = events_in t1 ++ events_in t2.
Proof. apply omap_app. Qed.
Lemma events_in_events evs : events_in (O_event <$> evs) = evs.
Proof. induction evs as [|e evs IH]; [done|]. change (e :: events_in (O_event <$> evs) = e :: evs). by rewrite IH. Qed.
Lemma no_other evs : closes (O_event <$> evs) = [] ∧ ∀ a, echoed a (O_event <$> evs) = [].
Proof. split; [by induction evs|]. intros a. unfold echoed. by induction evs. Qed.
