(* ===== verification/EchoInv.v ===== *)
(** * What the echo server keeps true

    The invariant of the two threads of EchoLoop.v.  Everything the inbound
    thread has polled but the outbound thread has not finished, the queue and
    the events still to handle, is one list of entries in order: the bytes of
    one connection in it are what is still to be echoed, and the end of a
    connection comes after all its bytes.  Beside it stand the ids: the
    generations of a slot only grow, so an id is used, and closed, once. *)

From Stdlib Require Import Sorted.
From stdpp Require Import sorting.
From S2P Require Import Prelude Probing FlowTable Dpdk Packet Segment SeqArith TcpState TcpReceiver.
From S2P Require Import TcpConn TcpInv TcpPoll TcpSender TcpValues TcpSystem Echo TcpIds EchoLoop.

(** ** Entries *)

(** Bytes of a connection, or its end. *)
Definition entry : Type := conn_id * option (list Z).

Definition queued_entry (x : work_kind * conn_id * list Z) : entry :=
  (x.1.2, match x.1.1 with wk_data => Some x.2 | _ => None end).
Definition event_entry (e : tcp_event) : list entry :=
  match ev_type e with
  | ev_data => [(ev_conn e, Some (ev_bytes e))]
  | ev_peer_closed | ev_reset => [(ev_conn e, None)]
  | _ => []
  end.
Definition inbox (pc : inbound_pc) : list tcp_event := match pc with In_events _ _ evs => evs | _ => [] end.
Definition entries (q : list (work_kind * conn_id * list Z)) (pc : inbound_pc) : list entry :=
  (queued_entry <$> q) ++ (inbox pc ≫= event_entry).

Definition entry_bytes (a : conn_id) (x : entry) : list Z := if decide (x.1 = a) then default [] x.2 else [].
Definition bytes_for (a : conn_id) (Q : list entry) : list Z := concat (entry_bytes a <$> Q).

Lemma bytes_for_app a Q1 Q2 : bytes_for a (Q1 ++ Q2) = bytes_for a Q1 ++ bytes_for a Q2.
Proof. unfold bytes_for. by rewrite fmap_app, concat_app. Qed.
Lemma bytes_for_cons a x Q : bytes_for a (x :: Q) = entry_bytes a x ++ bytes_for a Q.
Proof. done. Qed.
Lemma bytes_for_none a Q : (∀ bs, (a, Some bs) ∉ Q) → bytes_for a Q = [].
Proof.
  induction Q as [|[b [bs|]] Q IH]; intros Hn; [done|..]; rewrite bytes_for_cons, IH by (intros bs' Hx; apply (Hn bs'); by right);
    unfold entry_bytes; cbn; case_decide; try done. subst b. by destruct (Hn bs); left.
Qed.
Lemma bytes_for_events a evs : bytes_for a (evs ≫= event_entry) = received a (O_event <$> evs).
Proof.
  induction evs as [|e evs IH]; [done|]. rewrite bind_cons, bytes_for_app, IH. change (O_event <$> e :: evs) with ([O_event e] ++ (O_event <$> evs)).
  rewrite received_app. f_equal. unfold bytes_for, received, event_entry, entry_bytes. cbn.
  destruct (ev_type e); cbn; rewrite ?app_nil_r; repeat case_decide; naive_solver.
Qed.

(** The bytes of an item or event, cut into items, are the same bytes. *)
Lemma bytes_for_cut a b bss : bytes_for a ((λ bs, (b, Some bs)) <$> bss) = entry_bytes a (b, Some (concat bss)).
Proof.
  induction bss as [|bs bss IH]; [unfold entry_bytes; cbn; by case_decide|]. cbn [fmap list_fmap]. rewrite bytes_for_cons, IH.
  unfold entry_bytes. cbn. by case_decide.
Qed.

(** Entries of a slot come in the order of its generations, and the end of a
    connection comes last. *)
Definition follows (x y : entry) : Prop := before x.1 y.1 ∧ (x.2 = None → y.1 = x.1 → y.2 = None).

Lemma follows_cut A a bs bss B : StronglySorted follows (A ++ (a, Some bs) :: B) →
  StronglySorted follows (A ++ ((λ bs, (a, Some bs)) <$> bss) ++ B).
Proof.
  intros (H1 & H2 & H3)%StronglySorted_app. apply StronglySorted_cons in H3 as [H3 H4]. rewrite Forall_forall in H3.
  rewrite !StronglySorted_app. split_and!; [|done| | |done].
  - intros x y Hx Hy. apply elem_of_app in Hy as [Hy|Hy]; [|apply H1; [done|by right]].
    apply list_elem_of_fmap in Hy as (b & -> & _). destruct (H1 x (a, Some bs) Hx ltac:(by left)) as [F1 F2].
    split; [exact F1|]. intros Hn Ha. by specialize (F2 Hn Ha).
  - intros x y Hx Hy. apply list_elem_of_fmap in Hx as (b & -> & _). destruct (H3 y Hy) as [F1 _]. by split.
  - clear. induction bss as [|b bss IH]; [constructor|]. cbn. apply StronglySorted_cons. split; [|done]. apply Forall_forall.
    intros y (b' & -> & _)%list_elem_of_fmap. split; [|done]. unfold before. cbn. lia.
Qed.

(** ** Slots on their way *)

(** What a slot can become by any call: its generation grows, and a connection
    is known, released, sent a FIN, terminated or over for good. *)
Record moves (c c' : tcp_connection) : Prop := {
  mv_gen : generation c <= generation c';
  mv_known : generation c' = generation c → known c → known c' ∨ released c' = true;
  mv_released : generation c' = generation c → released c = true → released c' = true;
  mv_fin : generation c' = generation c → flag (out_flags c) out_fin_sent = true → flag (out_flags c') out_fin_sent = true;
  mv_term : generation c' = generation c → terminated c ≠ 0 → terminated c' ≠ 0;
  mv_over : generation c' = generation c → over (state c) → over (state c') }.

Lemma moves_refl c : moves c c.
Proof. split; auto; lia. Qed.

Lemma evolves_moves k c c' : is_u32 (generation c) → Z.of_nat k < 2 ^ 31 → generation c <= generation c' → evolves k c c' → moves c c'.
Proof.
  intros Hu Hk Hg [E1 E2 E3 E4 E5 _].
  assert (H0 : generation c' = generation c → k = 0%nat).
  { intros He. destruct k as [|k]; [done|]. rewrite E1 in He. exfalso. revert He. apply next_generation_moves; [done|lia|done]. }
  split; [done|..]; intros He; specialize (H0 He); unfold released; rewrite ?(E2 H0); auto.
Qed.

Section moved.
Context {E : Type} `{DpdkOps E} `{!DpdkLaws E} `{!DpdkAccount E} `{!DpdkWire E}.
Context (stack : tcp_stack) (control_txq data_txq : queue).
Abbreviation n := (max_connections (params_ stack)).

Definition moved (r r' : impl E) : Prop := ∀ i, inr n i → moves (slot r i) (slot r' i).

Lemma sendable_iff (r : impl E) a : sendable stack (slots r) a = true ↔
  let c := slot r (cid_slot a) in cid_slot a < n ∧ generation c = cid_generation a ∧ released c = false ∧
    flag (out_flags c) out_fin_sent = false ∧ terminated c = 0.
Proof using.
  unfold sendable, lookup, released. change (conn_at (slots r) (cid_slot a)) with (slot r (cid_slot a)). cbv zeta.
  destruct (Z.leb_spec n (cid_slot a)); [split; [done|lia]|].
  destruct (Z.eqb_spec (generation (slot r (cid_slot a))) (cid_generation a)) as [Eg|]; cbn [negb orb]; [|split; [done|tauto]].
  destruct (flag _ out_released); [split; [done|intuition discriminate]|]. change (conn_at (slots r) (cid_slot a)) with (slot r (cid_slot a)).
  rewrite andb_true_iff, negb_true_iff, Z.eqb_eq. tauto.
Qed.

(** An id the application was told about, and one whose bytes go nowhere. *)
Definition id_ok (r : impl E) (a : conn_id) : Prop :=
  let c := slot r (cid_slot a) in inr n (cid_slot a) ∧ 1 <= cid_generation a <= generation c ∧
  (generation c = cid_generation a → known c ∨ released c = true).
Definition dead (r : impl E) (a : conn_id) : Prop :=
  inr n (cid_slot a) ∧ cid_generation a <= generation (slot r (cid_slot a)) ∧ sendable stack (slots r) a = false.

Lemma id_ok_moved r r' a : moved r r' → id_ok r a → id_ok r' a.
Proof using.
  intros Hm (Hi & Hg & Hk). destruct (Hm _ Hi). split; [done|]. split; [lia|]. intros He.
  assert (Heq : generation (slot r' (cid_slot a)) = generation (slot r (cid_slot a))) by lia.
  destruct Hk as [Hk|Hk]; [lia|auto|auto].
Qed.
Lemma dead_moved r r' a : moved r r' → dead r a → dead r' a.
Proof using.
  intros Hm (Hi & Hg & Hs). destruct (Hm _ Hi). split; [done|]. split; [lia|]. apply not_true_is_false. intros Hy.
  apply sendable_iff in Hy as (H1 & H2 & H3 & H4 & H5). apply not_true_iff_false in Hs. apply Hs, sendable_iff.
  assert (Heq : generation (slot r' (cid_slot a)) = generation (slot r (cid_slot a))) by lia. split_and!; [done|lia|..].
  - apply not_true_is_false. intros Hr. rewrite mv_released0 in H3 by done. done.
  - apply not_true_is_false. intros Hr. rewrite mv_fin0 in H4 by done. done.
  - destruct (decide (terminated (slot r (cid_slot a)) = 0)) as [|Ht]; [done|]. by specialize (mv_term0 Heq Ht).
Qed.
Lemma id_ok_permitted r a : id_ok r a → permitted stack r a.
Proof using.
  intros (Hi & _ & Hk). destruct (lookup stack (slots r) a) as [j|] eqn:El; [|by left]. right. split; [exact Hi|].
  unfold lookup in El. change (conn_at (slots r) (cid_slot a)) with (slot r (cid_slot a)) in El. destruct (_ <=? _); [done|].
  destruct (Z.eqb_spec (generation (slot r (cid_slot a))) (cid_generation a)) as [Eg|]; [|done]. cbn [negb orb] in El.
  unfold released in Hk. destruct (flag _ _); [done|]. destruct (Hk Eg) as [[? _]|?]; done.
Qed.

(** The calls of the application. *)
Lemma put_moved (r : impl E) i c w : sys_inv stack r → inr n i → moves (slot r i) c → moved r (store r (put_conn (slots r) i c) w).
Proof using.
  intros [[m Hinv] _ _] Hi Hm j Hj. change (slot (store r (put_conn (slots r) i c) w) j) with (slot (put_slot r i c) j).
  rewrite (slot_put stack) by (done || apply (i_len _ _ _ Hinv)). by case_decide; [subst j|apply moves_refl].
Qed.
Lemma nop_moved (r : impl E) w : moved r (store r (slots r) w).
Proof using. intros i _. apply moves_refl. Qed.

Lemma send_moved (r : impl E) a bs k s w : stack_ok stack → sys_inv stack r → permitted stack r a →
  send stack data_txq (slots r) a bs (env r) = Some (k, s, w) → moved r (store r s w).
Proof using DpdkLaws0 DpdkAccount0 DpdkWire0.
  intros Hcfg Hsys Hp Hs. destruct (sys_send_spec stack data_txq r a bs Hcfg Hsys Hp) as (segs & d & w' & Hr & _).
  rewrite Hr in Hs. injection Hs as <- <- <-. destruct (sendable stack (slots r) a) eqn:Es; [|apply nop_moved].
  destruct Hp as [Hno|[Hi _]]; [by destruct (lookup_none_send stack data_txq r a bs Hno); congruence|].
  apply put_moved; [done|exact Hi|]. split; auto. cbn. lia.
Qed.

Lemma close_moved (r : impl E) a s w : stack_ok stack → sys_inv stack r → permitted stack r a →
  close stack data_txq (slots r) a (env r) = (s, w) → moved r (store r s w).
Proof using DpdkLaws0 DpdkAccount0 DpdkWire0.
  intros Hcfg Hsys Hp Hs. destruct (sys_close_spec stack data_txq r a Hcfg Hsys Hp) as (out & w' & Hr & _).
  rewrite Hr in Hs. injection Hs as <- <-. destruct (lookup stack (slots r) a) as [i|] eqn:El; [|apply nop_moved].
  assert (i = cid_slot a) as -> by (unfold lookup in El; repeat case_match; congruence).
  destruct Hp as [Hno|Hn]; [congruence|]. destruct (sys_conn stack r a Hsys Hn) as [_ [Hwk _]].
  destruct (closed_by_us_flags (slot r (cid_slot a)) (co_flags _ _ Hwk)) as (F1 & _ & F3).
  assert (Hk : generation (closed_by_us (slot r (cid_slot a))) = generation (slot r (cid_slot a)) ∧
    state (closed_by_us (slot r (cid_slot a))) = state (slot r (cid_slot a)) ∧
    terminated (closed_by_us (slot r (cid_slot a))) = terminated (slot r (cid_slot a))) by (unfold closed_by_us; by case_match).
  destruct Hk as (K1 & K2 & K3). apply put_moved; [done|apply Hn|]. unfold known, released.
  split; rewrite ?K1, ?K2, ?K3; auto; [lia|]. intros _ Hf. apply F3. by left.
Qed.

Lemma poll_moved (r : impl E) burst : stack_ok stack → sys_inv stack r → Z.of_nat (length burst) < 2 ^ 31 →
  poll_ids_spec stack r burst (poll stack control_txq r burst).1 (poll stack control_txq r burst).2 →
  (∀ i, inr n i → generation (slot r i) <= generation (slot (poll stack control_txq r burst).2 i)) →
  moved r (poll stack control_txq r burst).2.
Proof using.
  intros Hcfg [[m Hinv] _ Hsl] Hl Hp Hg i Hi. destruct (pi_evolves _ _ _ _ _ Hp i Hi) as (k & Hk & He).
  apply (evolves_moves k); [|lia|by apply Hg|done].
  exact (ty_gen _ (proj1 (slots_ok_slot stack _ _ Hsl (inv_table stack m _ _ Hinv Hi)))).
Qed.
End moved.

(** ** The ids *)

Definition ended (a : conn_id) (tr : list obs) : Prop :=
  ∃ e, e ∈ events_in tr ∧ ev_conn e = a ∧ ends_stream (ev_type e).
(** The event an entry comes from. *)
Definition seen (x : entry) (tr : list obs) : Prop :=
  ∃ e, e ∈ events_in tr ∧ ev_conn e = x.1 ∧ (x.2 = None → ends_stream (ev_type e)).
Lemma seen_ended x tr : seen x tr → x.2 = None → ended x.1 tr.
Proof. intros (e & He & Hc & Ht) Hn. exists e. auto. Qed.
Lemma seen_app x t1 t2 : seen x t1 → seen x (t1 ++ t2).
Proof. intros (e & He & Hx). exists e. rewrite events_in_app, elem_of_app. auto. Qed.
Definition owes_close (t : tcp_event_type) : Prop := t = ev_peer_closed ∨ t = ev_reset.

Section ids.
Context {E : Type} `{DpdkOps E}.
Context (stack : tcp_stack).
Abbreviation n := (max_connections (params_ stack)).

(** [gens] is [released_gen_], [Q] the entries not yet worked off. *)
Record ids_inv (tr : list obs) (r : impl E) (gens : list Z) (Q : list entry) : Prop := {
  v_ids : ∀ x, x ∈ Q → id_ok stack r x.1 ∧ gens !!! Z.to_nat (cid_slot x.1) <= cid_generation x.1 ∧ seen x tr;
  v_sorted : StronglySorted follows Q;
  v_seen : ∀ e, e ∈ events_in tr → id_ok stack r (ev_conn e) ∧
    (ends_stream (ev_type e) → generation (slot r (cid_slot (ev_conn e))) = cid_generation (ev_conn e) →
     over (state (slot r (cid_slot (ev_conn e)))));
  v_closed : ∀ a, a ∈ closes tr → ended a tr ∧ (∀ bs, (a, Some bs) ∉ Q) ∧ cid_generation a <= gens !!! Z.to_nat (cid_slot a);
  v_nodup : NoDup (closes tr);
  v_gens : Z.of_nat (length gens) = n;
  v_rel : ∀ a, inr n (cid_slot a) → 1 <= cid_generation a → gens !!! Z.to_nat (cid_slot a) = cid_generation a → a ∈ closes tr;
  v_owed : ∀ e, e ∈ events_in tr → owes_close (ev_type e) → ev_conn e ∈ closes tr ∨ (ev_conn e, None) ∈ Q }.

Lemma ids_moved tr (r r' : impl E) gens Q : moved stack r r' → ids_inv tr r gens Q → ids_inv tr r' gens Q.
Proof using.
  intros Hm []. split; try done.
  - intros x Hx. destruct (v_ids0 x Hx) as (? & ? & ?). split; [by eapply id_ok_moved|done].
  - intros e He. destruct (v_seen0 e He) as [Hid Ho]. split; [by eapply id_ok_moved|]. intros Hend Hg.
    destruct Hid as (Hi & Hr & _). destruct (Hm _ Hi). apply mv_over0; [lia|]. apply Ho; [done|]. lia.
Qed.

(** Sending is not seen by the ids. *)
Lemma ids_quiet tr o (r : impl E) gens Q : closes o = [] → events_in o = [] → ids_inv tr r gens Q → ids_inv (tr ++ o) r gens Q.
Proof using.
  intros Hc He [].
  assert (Hcl : closes (tr ++ o) = closes tr) by (by rewrite closes_app, Hc, app_nil_r).
  assert (Hev : events_in (tr ++ o) = events_in tr) by (by rewrite events_in_app, He, app_nil_r).
  split; rewrite ?Hcl, ?Hev; try done; unfold ended, seen in *; by rewrite Hev.
Qed.

(** A data event becomes items. *)
Lemma ids_cut tr (r : impl E) gens A a bs bss B : ids_inv tr r gens (A ++ (a, Some bs) :: B) →
  ids_inv tr r gens (A ++ ((λ bs, (a, Some bs)) <$> bss) ++ B).
Proof using.
  intros [].
  assert (Hin : ∀ x, x ∈ A ++ ((λ bs, (a, Some bs)) <$> bss) ++ B →
    x ∈ A ++ (a, Some bs) :: B ∨ ∃ b, x = (a, Some b) ∧ (a, Some bs) ∈ A ++ (a, Some bs) :: B).
  { intros x. rewrite !elem_of_app, !elem_of_cons, list_elem_of_fmap. intros [?|[(b & -> & _)|?]]; [by left; left| |left; auto].
    right. exists b. split; [done|]. rewrite elem_of_app, elem_of_cons. auto. }
  split; try done.
  - intros x [Hx|(b & -> & Hb)]%Hin; [by apply v_ids0|]. destruct (v_ids0 _ Hb) as (? & ? & e & ? & ? & _).
    split; [done|]. split; [done|]. by exists e.
  - by eapply follows_cut.
  - intros c Hc. destruct (v_closed0 c Hc) as (? & Hnd & ?). split; [done|]. split; [|done].
    intros b [Hx|(b' & Hx & Hb)]%Hin; [by apply (Hnd b)|]. injection Hx as -> ->. by apply (Hnd bs).
  - intros e He Ho. destruct (v_owed0 e He Ho) as [|Hx]; [by left|right]. revert Hx. rewrite !elem_of_app, !elem_of_cons.
    intros [?|[Hx|?]]; [auto|done|auto].
Qed.

(** The front entry is done with. *)
Lemma ids_pop tr (r : impl E) gens x Q : (x.2 = None → x.1 ∈ closes tr) → ids_inv tr r gens (x :: Q) → ids_inv tr r gens Q.
Proof using.
  intros Hx []. apply StronglySorted_cons in v_sorted0 as [_ Hs]. split; try done.
  - intros y Hy. apply v_ids0. by right.
  - intros a Ha. destruct (v_closed0 a Ha) as (? & Hnd & ?). split_and!; [done| |done]. intros bs Hb. apply (Hnd bs). by right.
  - intros e He Ho. destruct (v_owed0 e He Ho) as [|[<- |]%elem_of_cons]; [by left|left; by apply Hx|by right].
Qed.

(** [close_once] on a connection not closed before. *)
Lemma ids_close tr (r : impl E) gens a Q : gens !!! Z.to_nat (cid_slot a) ≠ cid_generation a → ids_inv tr r gens ((a, None) :: Q) →
  (a ∉ closes tr) ∧ ids_inv (tr ++ [O_close a]) r (<[Z.to_nat (cid_slot a) := cid_generation a]> gens) Q.
Proof using.
  intros Hne []. destruct (v_ids0 (a, None) ltac:(by left)) as ((Hi & Hg & _) & Hle & Hend). apply seen_ended in Hend; [|done]. cbn in *.
  apply StronglySorted_cons in v_sorted0 as [Hf Hs]. rewrite Forall_forall in Hf.
  assert (Hcl : closes (tr ++ [O_close a]) = closes tr ++ [a]) by apply closes_app.
  assert (Hev : events_in (tr ++ [O_close a]) = events_in tr) by (rewrite events_in_app; apply app_nil_r).
  assert (Hat : ∀ j, inr n j → <[Z.to_nat (cid_slot a) := cid_generation a]> gens !!! Z.to_nat j =
            if decide (j = cid_slot a) then cid_generation a else gens !!! Z.to_nat j).
  { intros j Hj. unfold inr in *. case_decide as Hd; [subst j; apply list_lookup_total_insert_eq; lia|apply list_lookup_total_insert_ne; lia]. }
  assert (Hnew : a ∉ closes tr) by (intros Ha; destruct (v_closed0 a Ha) as (_ & _ & ?); lia).
  split; [done|]. split; rewrite ?Hcl; unfold ended, seen in *; rewrite ?Hev; try done.
  - intros x Hx. destruct (v_ids0 x ltac:(by right)) as (Hid & Hlx & He). split; [done|]. split; [|done].
    rewrite Hat by apply Hid. case_decide as Hd; [|done]. destruct (Hf x Hx) as [Hb _]. by apply Hb.
  - intros c [Hc| ->%list_elem_of_singleton]%elem_of_app.
    + destruct (v_closed0 c Hc) as (He & Hnd & Hlc). split_and!; [done|intros bs Hb; apply (Hnd bs); by right|].
      destruct He as (e & Hin & <- & _). destruct (v_seen0 e Hin) as [(Hj & _) _]. rewrite Hat by done. case_decide as Hd; [|done]. rewrite Hd in Hlc. lia.
    + split_and!; [done| |rewrite Hat, decide_True by done; lia]. intros bs Hb. destruct (Hf _ Hb) as [_ Hn]. by specialize (Hn eq_refl eq_refl).
  - apply NoDup_app. split_and!; [done| |apply NoDup_singleton]. intros x Hx ->%list_elem_of_singleton. done.
  - by rewrite length_insert.
  - intros c Hj H1. rewrite Hat by done. rewrite elem_of_app, list_elem_of_singleton. case_decide as Hd; [|left; by apply v_rel0].
    intros Hge. right. destruct c, a; cbn in *; congruence.
  - intros e He Ho. rewrite elem_of_app, list_elem_of_singleton. destruct (v_owed0 e He Ho) as [|[Hx|]%elem_of_cons]; [tauto| |tauto].
    injection Hx as ->. tauto.
Qed.

(** No connection is released before its slot is opened for it. *)
Lemma ids_gens tr (r : impl E) gens Q i : ids_inv tr r gens Q → 0 <= generation (slot r i) → inr n i →
  gens !!! Z.to_nat i <= generation (slot r i).
Proof using.
  intros [] H0 Hi. destruct (Z.le_gt_cases 1 (gens !!! Z.to_nat i)) as [H1|]; [|lia].
  destruct (v_closed0 _ (v_rel0 {| cid_slot := i; cid_generation := gens !!! Z.to_nat i |} Hi H1 eq_refl)) as ((e & He & Hc & _) & _).
  destruct (v_seen0 e He) as [(_ & Hg & _) _]. rewrite Hc in Hg. cbn in Hg. lia.
Qed.

Lemma entry_event x evs : x ∈ evs ≫= event_entry → ∃ e, e ∈ evs ∧ x.1 = ev_conn e ∧
  (x.2 = None → owes_close (ev_type e)) ∧ (x.2 ≠ None → ev_type e = ev_data).
Proof using.
  intros (e & Hx & He)%list_elem_of_bind. exists e. split; [done|]. unfold event_entry in Hx. unfold owes_close.
  destruct (ev_type e); rewrite ?list_elem_of_singleton in Hx; try (by apply not_elem_of_nil in Hx); subst x; cbn; naive_solver.
Qed.

(** The events of a [poll] are in order. *)
Lemma poll_follows (r r' : impl E) burst evs : poll_ids_spec stack r burst evs r' → StronglySorted follows (evs ≫= event_entry).
Proof using.
  intros Hp. assert (Hord := pi_order _ _ _ _ _ Hp). assert (Hcur := pi_current _ _ _ _ _ Hp). clear Hp. revert Hord Hcur.
  induction evs as [|e evs IH]; intros Hord Hcur; [constructor|]. rewrite bind_cons. apply StronglySorted_app. split_and!.
  - intros x y Hx (d & Hd & Hyc & _ & Hyd)%entry_event.
    assert (Hx' : x ∈ [e] ≫= event_entry) by (rewrite bind_cons; cbn; by rewrite app_nil_r).
    apply entry_event in Hx' as (e' & ->%list_elem_of_singleton & Hxc & Hxn & _). split.
    + unfold before. rewrite Hxc, Hyc. intros Hs. destruct (Hcur e ltac:(by left)) as (_ & <- & _).
      destruct (Hcur d ltac:(by right)) as (_ & <- & _). rewrite Hs. lia.
    + intros Hn Hc. destruct (y.2) eqn:Ey; [|done]. exfalso. rewrite Hxc, Hyc in Hc.
      destruct (Hord [] e evs eq_refl) as [Hno _]; [destruct (Hxn Hn) as [-> | ->]; unfold ends_stream; tauto|].
      apply (Hno d Hd Hc). by apply Hyd.
  - unfold event_entry. destruct (ev_type e); repeat constructor.
  - apply IH; [|intros d Hd; apply Hcur; by right]. intros l1 d l2 -> Hd. by apply (Hord (e :: l1) d l2).
Qed.

Lemma ids_poll tr (r r' : impl E) gens Q burst evs : poll_ids_spec stack r burst evs r' → moved stack r r' → ids_inv tr r gens Q →
  (∀ i, inr n i → 0 <= generation (slot r i)) →
  ids_inv (tr ++ (O_event <$> evs)) r' gens (Q ++ (evs ≫= event_entry)).
Proof using.
  intros Hp Hm Hids Hpos. pose proof (pi_current _ _ _ _ _ Hp) as Hcur. pose proof Hids as [].
  pose proof (λ i Hi, ids_gens tr r gens Q i Hids (Hpos i Hi) Hi) as Hgens.
  pose proof (ids_moved _ _ _ _ _ Hm Hids) as [].
  assert (Hcl : closes (tr ++ (O_event <$> evs)) = closes tr) by (rewrite closes_app, (proj1 (no_other evs)); apply app_nil_r).
  assert (Hev : events_in (tr ++ (O_event <$> evs)) = events_in tr ++ evs) by (by rewrite events_in_app, events_in_events).
  assert (Hgrow : ∀ a, ended a tr → ended a (tr ++ (O_event <$> evs)))
    by (intros a (e & He & ?); exists e; rewrite Hev, elem_of_app; auto).
  assert (Hnew : ∀ e, e ∈ evs → id_ok stack r' (ev_conn e)).
  { intros e He. destruct (Hcur e He) as (Hi & Hg & H1 & Hk). split; [done|]. split; [lia|]. by intros _. }
  assert (Hquiet : ∀ a e, ended a tr → e ∈ evs → ev_conn e = a → ev_type e ≠ ev_data).
  { intros a e (d & Hd & <- & Hend) He Hc. destruct (v_seen0 d Hd) as [(Hi & Hg & _) Ho]. destruct (Hm _ Hi).
    destruct (Hcur e He) as (_ & Hge & _). rewrite Hc in Hge. apply (pi_over _ _ _ _ _ Hp e He); rewrite Hc; [lia|]. apply Ho; [done|lia]. }
  split; rewrite ?Hcl, ?Hev; try done.
  - intros x [Hx|Hx]%elem_of_app; [destruct (v_ids1 x Hx) as (? & ? & ?); auto using seen_app|].
    apply entry_event in Hx as (e & He & Hxc & Hn & _). unfold seen. rewrite Hxc. split; [by apply Hnew|]. destruct (Hcur e He) as (Hi & <- & _). split.
    + destruct (Hm _ Hi). specialize (Hgens _ Hi). lia.
    + exists e. rewrite Hev, elem_of_app. split; [auto|]. split; [done|]. intros Hx. unfold ends_stream. destruct (Hn Hx) as [-> | ->]; tauto.
  - apply StronglySorted_app. split_and!; [|done|by eapply poll_follows]. intros x y Hx (e & He & Hyc & _ & Hyd)%entry_event.
    destruct (v_ids0 x Hx) as ((Hi & Hg & _) & _ & Hend). destruct (Hm _ Hi). destruct (Hcur e He) as (_ & Hge & _). split.
    + unfold before. rewrite Hyc. intros Hs. rewrite <- Hge, <- Hs. lia.
    + intros Hn Hc. destruct (y.2) eqn:Ey; [|done]. exfalso. apply (Hquiet x.1 e (seen_ended x tr Hend Hn) He); [congruence|]. by apply Hyd.
  - intros e [He|He]%elem_of_app; [by apply v_seen1|]. split; [by apply Hnew|]. intros Hend _.
    apply list_elem_of_split in He as (l1 & l2 & ->). by apply (pi_order _ _ _ _ _ Hp l1 e l2).
  - intros a Ha. destruct (v_closed0 a Ha) as (He & Hnd & Hg). split_and!; [by apply Hgrow| |done].
    intros bs [Hb|Hb]%elem_of_app; [by apply (Hnd bs)|]. apply entry_event in Hb as (e & Hin & Hc & _ & Hd). cbn in *.
    apply (Hquiet a e He Hin); [done|]. by apply Hd.
  - intros e [He|He]%elem_of_app Ho; rewrite elem_of_app; [destruct (v_owed0 e He Ho); auto|]. right. right.
    apply list_elem_of_bind. exists e. split; [|done]. unfold event_entry. destruct Ho as [-> | ->]; by left.
Qed.
End ids.

(** ** Connections the server still owes a close *)

Definition was_reset (a : conn_id) (tr : list obs) : Prop := ∃ e, e ∈ events_in tr ∧ ev_conn e = a ∧ ev_type e = ev_reset.

Lemma was_reset_app a t1 t2 : was_reset a t1 → was_reset a (t1 ++ t2).
Proof. intros (e & He & Hx). exists e. rewrite events_in_app, elem_of_app. auto. Qed.

Section owed.
Context {E : Type} `{DpdkOps E} `{!DpdkLaws E} `{!DpdkAccount E} `{!DpdkWire E}.
Context (stack : tcp_stack) (control_txq data_txq : queue).
Abbreviation n := (max_connections (params_ stack)).

(** The id a slot has now. *)
Definition id_of (r : impl E) (i : Z) : conn_id := {| cid_slot := i; cid_generation := generation (slot r i) |}.

Record open_inv (tr : list obs) (r : impl E) : Prop := {
  o_clear : ∀ i, inr n i → state (slot r i) ≠ st_free → id_of r i ∉ closes tr →
    released (slot r i) = false ∧ flag (out_flags (slot r i)) out_fin_sent = false ∧
    (state (slot r i) = st_closed → was_reset (id_of r i) tr);
  o_alive : ∀ e, e ∈ events_in tr → ev_conn e ∉ closes tr →
    inr n (cid_slot (ev_conn e)) ∧ id_of r (cid_slot (ev_conn e)) = ev_conn e ∧ known (slot r (cid_slot (ev_conn e))) }.

(** A connection that is not sendable before it is closed was reset. *)
Lemma dead_was_reset tr (r : impl E) a : sys_inv stack r → open_inv tr r → (∃ e, e ∈ events_in tr ∧ ev_conn e = a) → a ∉ closes tr →
  dead stack r a → was_reset a tr.
Proof using.
  intros Hsys [Hc Ha] (e & He & <-) Hn (_ & _ & Hs). destruct (Ha e He Hn) as (Hi & Hid & Hk).
  destruct (Hc _ Hi (proj1 Hk)) as (H1 & H2 & H3); [by rewrite Hid|]. rewrite Hid in H3. apply H3.
  destruct (sys_conn stack r (ev_conn e) Hsys (conj Hi (proj1 Hk))) as [_ [Hwk _]].
  apply not_true_iff_false in Hs. destruct (decide (state (slot r (cid_slot (ev_conn e))) = st_closed)) as [|Hne]; [done|]. exfalso. apply Hs, sendable_iff.
  unfold inr in Hi. split_and!; [lia|exact (f_equal cid_generation Hid)|done|done|]. rewrite (co_term _ _ Hwk). by rewrite decide_False.
Qed.

(** Calls that touch nothing of this. *)
Lemma open_same tr o (r r' : impl E) : closes o = [] → events_in o = [] →
  (∀ i, inr n i → generation (slot r' i) = generation (slot r i) ∧ state (slot r' i) = state (slot r i) ∧ out_flags (slot r' i) = out_flags (slot r i)) →
  open_inv tr r → open_inv (tr ++ o) r'.
Proof using.
  intros Hc He Hs [H1 H2]. split; unfold was_reset in *; rewrite ?closes_app, ?events_in_app, ?Hc, ?He, ?app_nil_r.
  - intros i Hi. unfold id_of, released in *. destruct (Hs i Hi) as (-> & -> & ->). by apply H1.
  - intros e Hin Hn. destruct (H2 e Hin Hn) as (Hi & Hid & Hk). split; [done|]. unfold id_of, known in *.
    destruct (Hs _ Hi) as (-> & -> & _). done.
Qed.

Lemma send_slots (r : impl E) a bs k s w : stack_ok stack → sys_inv stack r → permitted stack r a →
  send stack data_txq (slots r) a bs (env r) = Some (k, s, w) → ∀ i, inr n i → let c := slot (store r s w) i in
  generation c = generation (slot r i) ∧ state c = state (slot r i) ∧ out_flags c = out_flags (slot r i).
Proof using DpdkLaws0 DpdkAccount0 DpdkWire0.
  intros Hcfg Hsys Hp Hs i Hi c. destruct (sys_send_spec stack data_txq r a bs Hcfg Hsys Hp) as (segs & d & w' & Hr & _).
  rewrite Hr in Hs. injection Hs as <- <- <-. destruct (sendable stack (slots r) a) eqn:Es; [|done].
  destruct Hp as [Hno|[Hj _]]; [by destruct (lookup_none_send stack data_txq r a bs Hno); congruence|].
  destruct Hsys as [[m Hinv] _ _]. subst c. change (slot (store r (put_conn (slots r) (cid_slot a) ?x) w') i) with (slot (put_slot r (cid_slot a) x) i).
  rewrite (slot_put stack) by (done || apply (i_len _ _ _ Hinv)). by case_decide; [subst i|].
Qed.

Lemma close_slots (r : impl E) a s w : stack_ok stack → sys_inv stack r → permitted stack r a →
  close stack data_txq (slots r) a (env r) = (s, w) → ∀ i, inr n i →
  id_of (store r s w) i = id_of r i ∧ state (slot (store r s w) i) = state (slot r i) ∧
  (slot (store r s w) i = slot r i ∨ id_of r i = a).
Proof using DpdkLaws0 DpdkAccount0 DpdkWire0.
  intros Hcfg Hsys Hp Hs i Hi. destruct (sys_close_spec stack data_txq r a Hcfg Hsys Hp) as (out & w' & Hr & _).
  rewrite Hr in Hs. injection Hs as <- <-. destruct (lookup stack (slots r) a) as [j|] eqn:El; [|by auto].
  assert (j = cid_slot a ∧ generation (slot r (cid_slot a)) = cid_generation a) as [-> Hg].
  { unfold lookup in El. change (conn_at (slots r) (cid_slot a)) with (slot r (cid_slot a)) in El. destruct (_ <=? _); [done|].
    destruct (Z.eqb_spec (generation (slot r (cid_slot a))) (cid_generation a)) as [|]; [|done]. by repeat case_match; simplify_eq. }
  destruct Hp as [Hno|[Hj _]]; [congruence|]. destruct Hsys as [[m Hinv] _ _]. unfold id_of.
  change (slot (store r (put_conn (slots r) (cid_slot a) ?x) w') i) with (slot (put_slot r (cid_slot a) x) i).
  rewrite (slot_put stack) by (done || apply (i_len _ _ _ Hinv)). case_decide as Hd; [|by auto]. subst i.
  assert (Hk : generation (closed_by_us (slot r (cid_slot a))) = generation (slot r (cid_slot a)) ∧
    state (closed_by_us (slot r (cid_slot a))) = state (slot r (cid_slot a))) by (unfold closed_by_us; by case_match).
  destruct Hk as [-> ->]. split_and!; [done|done|right]. rewrite Hg. by destruct a.
Qed.

Lemma open_close tr (r : impl E) a s w : stack_ok stack → sys_inv stack r → permitted stack r a →
  close stack data_txq (slots r) a (env r) = (s, w) → open_inv tr r → open_inv (tr ++ [O_close a]) (store r s w).
Proof using DpdkLaws0 DpdkAccount0 DpdkWire0.
  intros Hcfg Hsys Hp Hs [H1 H2]. pose proof (close_slots r a s w Hcfg Hsys Hp Hs) as Hcl.
  assert (Hev : events_in (tr ++ [O_close a]) = events_in tr) by (rewrite events_in_app; apply app_nil_r).
  split; unfold was_reset in *; rewrite closes_app, Hev; change (closes [O_close a]) with [a].
  - intros i Hi. destruct (Hcl i Hi) as (-> & Hst & Hx). rewrite elem_of_app, list_elem_of_singleton.
    destruct Hx as [->|Hx]; [|intros _ Hn; by destruct Hn; right]. intros Hnf Hn. apply H1; [done|done|tauto].
  - intros e He. rewrite elem_of_app, list_elem_of_singleton. intros Hn. destruct (H2 e He ltac:(tauto)) as (Hi & Hid & Hk). split; [done|].
    destruct (Hcl _ Hi) as (-> & Hst & _). split; [done|]. unfold known. by rewrite Hst.
Qed.

Lemma open_poll tr (r r' : impl E) burst evs : sys_inv stack r → Z.of_nat (length burst) < 2 ^ 31 → poll_ids_spec stack r burst evs r' →
  open_inv tr r → open_inv (tr ++ (O_event <$> evs)) r'.
Proof using.
  intros Hsys Hlen Hp [H1 H2].
  assert (Hk : ∀ i, inr n i → ∃ k, evolves k (slot r i) (slot r' i) ∧ (generation (slot r' i) = generation (slot r i) → k = 0%nat)).
  { intros i Hi. destruct (pi_evolves _ _ _ _ _ Hp i Hi) as (k & Hle & He). exists k. split; [done|]. intros Hg.
    destruct k as [|k]; [done|]. rewrite (ev_gen _ _ _ He) in Hg. exfalso. revert Hg.
    destruct Hsys as [[m Hinv] _ Hsl]. apply next_generation_moves; [|lia|lia].
    exact (ty_gen _ (proj1 (slots_ok_slot stack _ _ Hsl (inv_table stack m _ _ Hinv Hi)))). }
  assert (Hcl : closes (tr ++ (O_event <$> evs)) = closes tr) by (rewrite closes_app, (proj1 (no_other evs)); apply app_nil_r).
  assert (Hev : events_in (tr ++ (O_event <$> evs)) = events_in tr ++ evs) by (by rewrite events_in_app, events_in_events).
  assert (Hflags : ∀ i, inr n i → (generation (slot r' i) = generation (slot r i) → state (slot r i) ≠ st_free) → id_of r' i ∉ closes tr →
    released (slot r' i) = false ∧ flag (out_flags (slot r' i)) out_fin_sent = false).
  { intros i Hi Hnf Hn. destruct (Hk i Hi) as (k & He & Hg). unfold released. destruct (decide (k = 0%nat)) as [->|H0]; [|by rewrite (ev_fresh _ _ _ He H0)].
    assert (Hge : generation (slot r' i) = generation (slot r i)) by apply (ev_gen _ _ _ He). rewrite (ev_flags _ _ _ He eq_refl).
    unfold id_of in Hn. rewrite Hge in Hn. by destruct (H1 i Hi (Hnf Hge) Hn) as (? & ? & _). }
  split; unfold was_reset in *; rewrite Hcl, Hev.
  - intros i Hi Hnf Hn. destruct (Hk i Hi) as (k & He & Hg).
    assert (Hold : generation (slot r' i) = generation (slot r i) → state (slot r i) ≠ st_free)
      by (intros Hge Hfr; apply Hnf; by apply (ev_free _ _ _ He (Hg Hge))).
    destruct (Hflags i Hi Hold Hn) as [F1 F2]. split_and!; [done|done|]. intros Hc.
    destruct (pi_reset _ _ _ _ _ Hp i Hi Hc F2) as [[Hge Hcl0]|(e & Hin & Hx & Ht)]; [|exists e; rewrite elem_of_app; auto].
    unfold id_of in *. rewrite Hge in *. destruct (H1 i Hi ltac:(congruence) Hn) as (_ & _ & Hr). destruct (Hr Hcl0) as (e & Hin & ?).
    exists e. rewrite elem_of_app. auto.
  - intros e He Hn. apply elem_of_app in He as [He|He].
    + destruct (H2 e He Hn) as (Hi & Hid & Hkn). split; [done|]. destruct (Hk _ Hi) as (k & Hev' & _).
      destruct (H1 _ Hi (proj1 Hkn)) as (Hrel & _); [by rewrite Hid|].
      destruct (decide (k = 0%nat)) as [->|H0]; [|by rewrite (ev_stay _ _ _ Hev' Hkn H0) in Hrel].
      unfold id_of in *. rewrite (ev_gen _ _ _ Hev'). split; [done|]. destruct (ev_known _ _ _ Hev' eq_refl Hkn); [done|congruence].
    + destruct (pi_current _ _ _ _ _ Hp e He) as (Hi & Hg & _ & Hkn). split; [done|].
      assert (Hid : id_of r' (cid_slot (ev_conn e)) = ev_conn e) by (unfold id_of; rewrite Hg; by destruct (ev_conn e)).
      split; [done|]. destruct Hkn as [|Hrel]; [done|]. destruct (Hflags _ Hi) as [Hx _]; [|by rewrite Hid|congruence].
      intros Hge. apply (pi_source _ _ _ _ _ Hp e He). by rewrite <- Hge.
Qed.
End owed.
