(* ===== verification/EchoServer.v ===== *)
(** * The echo server is an echo server

    The invariant of the composed server, kept by every turn of either thread,
    and what it says of any schedule: every byte a peer sent comes back, in
    order and once, until its connection dies or the server is stopped; a
    connection is closed once, after its bytes; no mbuf is lost. *)

From Stdlib Require Import Sorted.
From S2P Require Import Prelude Probing FlowTable Dpdk DpdkSim Packet Headers Segment SegmentWire SeqArith TcpState TcpReceiver.
From S2P Require Import TcpConn TcpInv TcpPoll TcpSender TcpValues TcpSystem TcpSetup Scenario Echo TcpIds EchoLoop EchoInv.

(** ** The queue's other fields *)

Lemma enqueue_gens s it : released_gen_ (enqueue s it) = released_gen_ s.
Proof. unfold enqueue. by repeat case_match. Qed.
Lemma drain_gens s : released_gen_ (drain_overflow s) = released_gen_ s.
Proof. unfold drain_overflow. by destruct (drain_loop _ _). Qed.

Lemma handle_data_keeps fuel conn data junk off s q s' : pending s q → Z.of_nat (length junk) = item_capacity →
  handle_data fuel conn data junk off s = Some s' →
  released_gen_ s' = released_gen_ s ∧ (front_item s ≠ None → front_item s' ≠ None).
Proof.
  intros Hp Hj. revert off s q Hp. induction fuel as [|f IH]; intros off s q Hp; [done|]. cbn [handle_data].
  destruct (off <? length data)%nat eqn:Hlt; [|by intros [= ->]]. apply Nat.ltb_lt in Hlt.
  change (Z.to_nat item_capacity) with 2048%nat. set (n := Nat.min _ _). set (it := Item _ _ _ _). intros Hx.
  assert (Hn : (n <= 2048 ∧ off + n <= length data)%nat) by (unfold n; lia). clearbody n.
  assert (Hok : item_ok it).
  { unfold item_capacity in *. unfold it. rewrite u16_id by mlia. split; cbn; [unfold item_capacity; lia|]. rewrite length_wr; [done|]. rewrite length_sub; lia. }
  destruct (IH _ _ _ (enqueue_spec s q it Hp Hok) Hx) as [H1 H2]. rewrite enqueue_gens in H1. split; [done|].
  intros Hf. apply H2. by apply (enqueue_front s q).
Qed.

Lemma handle_keeps junk s q ev : pending s q → Z.of_nat (length junk) = item_capacity →
  released_gen_ (handle junk s ev) = released_gen_ s ∧ (front_item s ≠ None → front_item (handle junk s ev) ≠ None).
Proof.
  intros Hp Hj. unfold handle. destruct (ev_type ev); cbn [released_gen_]; try done.
  - destruct (handle_data_spec (S (length (ev_bytes ev))) (ev_conn ev) (ev_bytes ev) junk 0 s q Hp Hj) as (items & s' & Hx & _); [lia|].
    rewrite Hx. by eapply handle_data_keeps.
  - rewrite enqueue_gens. split; [done|]. by apply (enqueue_front s q).
  - rewrite enqueue_gens. split; [done|]. by apply (enqueue_front s q).
Qed.

(** What [handle] does to the entries. *)
Lemma handle_entries junk s q ev : pending s q → Z.of_nat (length junk) = item_capacity →
  ∃ items, pending (handle junk s ev) (q ++ items) ∧
    (queued_entry <$> items = event_entry ev ∨
     ∃ bss, queued_entry <$> items = (λ bs, (ev_conn ev, Some bs)) <$> bss ∧ event_entry ev = [(ev_conn ev, Some (concat bss))]).
Proof.
  intros Hp Hj. destruct (handle_spec junk s q ev Hp Hj) as (items & Hp' & Hi). exists items. split; [done|]. unfold event_entry.
  destruct (ev_type ev); try (subst items; by left). right. destruct Hi as [Hc Hf]. exists (items.*2). rewrite Hc. split; [|done].
  clear Hp' Hc. induction Hf as [|[[k c] bs] items [Hx _] _ IH]; [done|]. cbn in *. injection Hx as -> ->. cbn. by rewrite IH.
Qed.

(** ** What is still to be sent *)

(** [k] bytes of the front entry have been sent. *)
Definition unsent (a : conn_id) (k : nat) (Q : list entry) : list Z :=
  match Q with [] => [] | x :: Q => drop k (entry_bytes a x) ++ bytes_for a Q end.

Lemma unsent_0 a Q : unsent a 0 Q = bytes_for a Q.
Proof. by destruct Q. Qed.
Lemma unsent_app a k Q X : (Q = [] → k = 0%nat) → unsent a k (Q ++ X) = unsent a k Q ++ bytes_for a X.
Proof.
  intros H0. destruct Q as [|x Q]; [rewrite (H0 eq_refl), unsent_0; done|]. cbn. by rewrite bytes_for_app, app_assoc.
Qed.
Lemma unsent_swap a k A B B' : bytes_for a B = bytes_for a B' → (A = [] → k = 0%nat) → unsent a k (A ++ B) = unsent a k (A ++ B').
Proof. intros He H0. by rewrite !unsent_app, He. Qed.

(** The bytes of an item are those its entry holds. *)
Lemma item_view it : item_ok it → what it = wk_data → queued_entry (view it) = (item_conn it, Some (take (Z.to_nat (item_len it)) (item_bytes it))) ∧
  Z.of_nat (length (take (Z.to_nat (item_len it)) (item_bytes it))) = item_len it.
Proof. intros [H1 H2] Hw. unfold queued_entry, view. cbn. rewrite Hw. split; [done|]. rewrite length_take. lia. Qed.

Section server.
Context {E : Type} `{DpdkOps E} `{!DpdkLaws E} `{!DpdkAccount E} `{!DpdkWire E}.
Context (stack : tcp_stack) (rxqs : list queue) (control_txq data_txq : queue).
Abbreviation n := (max_connections (params_ stack)).
Abbreviation echo_turn := (echo_turn stack rxqs control_txq data_txq).
Abbreviation echo_run := (echo_run stack rxqs control_txq data_txq).
Abbreviation turn_ok := (turn_ok stack control_txq).
Abbreviation run_ok := (run_ok stack rxqs control_txq data_txq).

Definition sent_of (pc : outbound_pc) : nat := match pc with Out_item k => Z.to_nat k | _ => 0 end.
Definition in_scope (pc : inbound_pc) : packet_burst := match pc with In_events _ b _ => b | _ => [] end.

(** Bytes for [a] are dropped: its connection was reset, or the outbound thread
    has given up on [stop]. *)
Definition lost (a : conn_id) (tr : list obs) (st : echo_state E) : Prop :=
  dead stack (rx_ st) a ∧ was_reset a tr ∨ stop st = true ∧ ∀ k, outbound st ≠ Out_item k.

Record echo_inv (h0 : Z) (tr : list obs) (st : echo_state E) (q : list (work_kind * conn_id * list Z)) : Prop := {
  k_sys : sys_inv stack (rx_ st);
  k_pend : pending (srv st) q;
  k_busy : ∀ k, outbound st = Out_item k → front_item (srv st) ≠ None ∧ 0 <= k ∧
    ∃ x q', q = x :: q' ∧ k <= Z.of_nat (length (default [] (queued_entry x).2));
  k_ids : ids_inv stack tr (rx_ st) (released_gen_ (srv st)) (entries q (inbound st));
  k_bytes : ∀ a, received a tr = echoed a tr ++ unsent a (sent_of (outbound st)) (entries q (inbound st)) ∨
    echoed a tr `prefix_of` received a tr ∧ lost a tr st;
  k_open : open_inv stack tr (rx_ st);
  k_held : held (env (rx_ st)) = h0 + owned (in_scope (inbound st)) }.

Lemma busy_entries h0 tr st q : echo_inv h0 tr st q → queued_entry <$> q = [] → sent_of (outbound st) = 0%nat.
Proof using.
  intros [_ _ Hb _ _ _ _] Hq. destruct (outbound st) as [|k|]; [done| |done]. destruct (Hb k eq_refl) as (_ & _ & x & q' & -> & _). done.
Qed.

(** The environment and the slots seen through [set_env]. *)
Lemma sys_env (r : impl E) w : sys_inv stack r → sys_inv stack (set_env r w).
Proof using. intros Hs. exact (sys_nop stack r w Hs). Qed.

Lemma ids_env tr (r : impl E) w gens Q : ids_inv stack tr r gens Q → ids_inv stack tr (set_env r w) gens Q.
Proof using. apply ids_moved. intros i _. apply moves_refl. Qed.

Lemma open_env tr (r r' : impl E) : slots r' = slots r → open_inv stack tr r → open_inv stack tr r'.
Proof using.
  intros Hs Ho. rewrite <- (app_nil_r tr). apply (open_same stack tr [] r r'); [done|done| |done]. intros i _. unfold slot. by rewrite Hs.
Qed.

(** *** The inbound thread *)

Lemma inv_drain h0 tr st q : echo_inv h0 tr st q → inbound st = In_loop →
  echo_inv h0 tr (set_inbound st (rx_ st) (drain_overflow (srv st)) (In_queues rxqs)) q.
Proof using.
  intros [] Hin. rewrite Hin in *. split; cbn; try done.
  - by apply drain_spec.
  - intros k Hk. destruct (k_busy0 k Hk) as (Hf & Hx). split; [by apply (drain_front _ q)|done].
  - by rewrite drain_gens.
Qed.

(** An event goes into the queue: [items] are all it asks for. *)
Definition carries_event (ev : tcp_event) (items : list (work_kind * conn_id * list Z)) : Prop :=
  queued_entry <$> items = event_entry ev ∨
  ∃ bss, queued_entry <$> items = (λ bs, (ev_conn ev, Some bs)) <$> bss ∧ event_entry ev = [(ev_conn ev, Some (concat bss))].

Lemma inv_queue h0 tr st q rest burst ev evs s items : echo_inv h0 tr st q → inbound st = In_events rest burst (ev :: evs) →
  pending s (q ++ items) → released_gen_ s = released_gen_ (srv st) → (front_item (srv st) ≠ None → front_item s ≠ None) → carries_event ev items →
  echo_inv h0 tr (set_inbound st (rx_ st) s (In_events rest burst evs)) (q ++ items).
Proof using.
  intros Hinv Hin Hp Hg Hf Hi. pose proof (busy_entries _ _ _ _ Hinv) as H0. destruct Hinv. rewrite Hin in *.
  set (B := evs ≫= event_entry). unfold entries in *. cbn [inbox] in *. rewrite bind_cons in k_ids0, k_bytes0. fold B in k_ids0, k_bytes0.
  assert (HB : ids_inv stack tr (rx_ st) (released_gen_ (srv st)) ((queued_entry <$> q) ++ (queued_entry <$> items) ++ B) ∧
    ∀ a, bytes_for a (event_entry ev ++ B) = bytes_for a ((queued_entry <$> items) ++ B)).
  { destruct Hi as [->|(bss & -> & He)]; [done|]. rewrite He in *. split; [by eapply ids_cut|].
    intros a. rewrite !bytes_for_app, bytes_for_cut. f_equal. unfold bytes_for. cbn. apply app_nil_r. }
  destruct HB as [Hids Hby]. split; cbn [set_inbound rx_ srv inbound outbound stop]; try done.
  - intros k Hk. destruct (k_busy0 k Hk) as (Hfr & Hk0 & x & q' & -> & Hx). split_and!; [auto|done|]. by exists x, (q' ++ items).
  - unfold entries. cbn [inbox]. by rewrite Hg, fmap_app, <- app_assoc.
  - intros a. unfold entries. cbn [inbox]. fold B. rewrite fmap_app, <- app_assoc.
    rewrite <- (unsent_swap a _ _ _ _ (Hby a) H0). destruct (k_bytes0 a) as [?|[? Hl]]; [by left|right]. split; [done|exact Hl].
Qed.

Lemma inv_handle h0 tr st q rest burst ev evs junk : echo_inv h0 tr st q → inbound st = In_events rest burst (ev :: evs) →
  Z.of_nat (length junk) = item_capacity →
  ∃ q', echo_inv h0 tr (set_inbound st (rx_ st) (handle junk (srv st) ev) (In_events rest burst evs)) q'.
Proof using.
  intros Hinv Hin Hj. pose proof (k_pend _ _ _ _ Hinv) as Hp. destruct (handle_entries junk (srv st) q ev Hp Hj) as (items & Hp' & Hi).
  destruct (handle_keeps junk (srv st) q ev Hp Hj) as [Hg Hf]. exists (q ++ items). by eapply inv_queue.
Qed.

(** A step of the thread that touches nothing. *)
Lemma inv_pc h0 tr st q pc : echo_inv h0 tr st q → inbox pc = inbox (inbound st) → in_scope pc = in_scope (inbound st) →
  echo_inv h0 tr (set_inbound st (rx_ st) (srv st) pc) q.
Proof using.
  intros [] Hb Hs. assert (He : entries q pc = entries q (inbound st)) by (unfold entries; by rewrite Hb).
  split; cbn [set_inbound rx_ srv inbound outbound stop]; rewrite ?He, ?Hs; done.
Qed.

(** Only the queue, the generations and whether there is a front count. *)
Lemma inv_swap h0 tr st q s : echo_inv h0 tr st q → pending s q → released_gen_ s = released_gen_ (srv st) →
  (front_item (srv st) ≠ None → front_item s ≠ None) → echo_inv h0 tr (EchoState (rx_ st) s (inbound st) (outbound st) (stop st)) q.
Proof using.
  intros [] Hp Hg Hf. split; cbn [rx_ srv inbound outbound stop]; rewrite ?Hg; try done.
  intros k Hk. destruct (k_busy0 k Hk) as (Hx & Hy). auto.
Qed.

Lemma inv_stop h0 tr st q : echo_inv h0 tr st q → echo_inv h0 tr (EchoState (rx_ st) (srv st) (inbound st) (outbound st) true) q.
Proof using.
  intros []. split; cbn; try done. intros a.
  destruct (k_bytes0 a) as [?|[? [?|[? ?]]]]; [by left|right; split; [done|by left]|right; split; [done|by right]].
Qed.

Lemma inv_release h0 tr st q rest burst : echo_inv h0 tr st q → inbound st = In_events rest burst [] →
  echo_inv h0 tr (set_inbound st (set_env (rx_ st) (burst_dtor burst (env (rx_ st)))) (srv st) (In_queues rest)) q.
Proof using.
  intros [] Hin. rewrite Hin in *. split; cbn [set_inbound rx_ srv inbound outbound stop]; try done.
  - by apply sys_env.
  - by apply ids_env.
  - by apply (open_env tr (rx_ st)).
  - cbn [env set_env in_scope]. rewrite held_burst_dtor, k_held0. cbn. unfold owned. cbn. lia.
Qed.

Lemma received_burst q (w : E) : let '(burst, w') := receive_burst q burst_max_size w in
  Z.of_nat (length (omap id burst)) <= burst_max_size ∧ held w' = held w + owned burst.
Proof using DpdkLaws0.
  unfold receive_burst. replace (u16 _) with burst_max_size by done. destruct (rte_eth_rx_burst _ _ _ w) as [raw w'] eqn:Er.
  pose proof (rx_count _ _ _ _ _ _ Er) as Hc. pose proof (held_rx (q_port q) (q_id q) burst_max_size w) as Hh. rewrite Er in Hh. cbn [fst snd] in Hh.
  rewrite burst_push_all. cbn [app]. change (get_packet ∘ Some <$> raw) with (Some <$> raw : list packet). rewrite omap_some, owned_some.
  unfold burst_max_size in *. lia.
Qed.

Lemma inv_poll h0 tr st q rxq rest : stack_ok stack → echo_inv h0 tr st q → inbound st = In_queues (rxq :: rest) →
  turn_ok st (Inbound []) → let p := run_inbound stack rxqs control_txq [] st in echo_inv h0 (tr ++ p.2) p.1 q.
Proof using DpdkLaws0.
  intros Hcfg Hinv Hin Hok. pose proof (busy_entries _ _ _ _ Hinv) as H0. destruct Hinv. unfold turn_ok in Hok. unfold run_inbound.
  rewrite Hin in *. pose proof (received_burst rxq (env (rx_ st))) as Hrb. destruct (receive_burst rxq burst_max_size (env (rx_ st))) as [burst w].
  destruct Hrb as [Hlen Hheld], Hok as [Hwf Hgen]. set (r0 := set_env (rx_ st) w) in *. pose proof (sys_env (rx_ st) w k_sys0) as Hs0. fold r0 in Hs0.
  pose proof Hs0 as [[m Hi0] Hq0 Hsl0]. assert (Hl31 : Z.of_nat (length (omap id burst)) < 2 ^ 31) by (unfold burst_max_size in Hlen; lia).
  pose proof (poll_ids stack control_txq m r0 (omap id burst) Hcfg Hi0 Hq0 Hsl0 Hwf Hl31) as Hpi.
  pose proof (poll_moved stack control_txq r0 (omap id burst) Hcfg Hs0 Hl31 Hpi Hgen) as Hm.
  pose proof (poll_held stack control_txq m r0 (omap id burst) Hi0 Hq0) as Hph. 
  destruct (poll_inv stack control_txq m r0 (omap id burst) Hi0 Hq0 (proj2 (ck_n _ Hcfg)) Hwf) as (m' & Hi' & Hq').
  pose proof (poll_slots stack control_txq m r0 (omap id burst) Hcfg Hi0 Hq0 Hsl0 Hwf) as Hsl'.
  assert (Hpos : ∀ i, inr n i → 0 <= generation (slot r0 i))
    by (intros i Hi; apply (ty_gen _ (proj1 (slots_ok_slot stack r0 i Hsl0 (inv_table stack m r0 i Hi0 Hi))))).
  pose proof (ids_poll stack tr r0 _ _ _ _ _ Hpi Hm (ids_env _ _ w _ _ k_ids0) Hpos) as Hids.
  destruct (poll stack control_txq r0 (omap id burst)) as [evs r'] eqn:Ep. cbn [fst snd] in *.
  unfold entries in *. cbn [inbox] in *. rewrite app_nil_r in *.
  split; cbn [set_inbound rx_ srv inbound outbound stop]; try done.
  - split; [by exists m'|done|done].
  - intros a. unfold entries. cbn [inbox]. rewrite received_app, echoed_app, (proj2 (no_other evs)), app_nil_r.
    rewrite unsent_app by exact H0. rewrite bytes_for_events. destruct (k_bytes0 a) as [->|[Hpre Hl]]; [left; by rewrite app_assoc|right].
    split; [by apply prefix_app_r|]. destruct Hl as [[Hd Hw]|Hd]; [left|by right]. split; [by apply (dead_moved stack r0)|by apply was_reset_app].
  - apply (open_poll stack tr r0 r' (omap id burst)); [done|done|done|]. by apply (open_env tr (rx_ st)).
  - cbn [in_scope] in *. rewrite Hph; [|apply Hcfg|done|done]. unfold r0. cbn [env set_env]. rewrite Hheld, k_held0. change (owned []) with 0. lia.
Qed.

(** *** The outbound thread *)

Lemma inv_out h0 tr st q pc : echo_inv h0 tr st q → (∀ k, outbound st ≠ Out_item k) → (∀ k, pc ≠ Out_item k) →
  echo_inv h0 tr (set_outbound st (rx_ st) (srv st) pc) q.
Proof using.
  intros [] Ho Hn. assert (Hz : ∀ p, (∀ k, p ≠ Out_item k) → sent_of p = 0%nat) by (intros [|k|] Hp; [done|by destruct (Hp k)|done]).
  split; cbn [set_outbound rx_ srv inbound outbound stop]; try done.
  - intros k Hk. by destruct (Hn k).
  - intros a. rewrite (Hz pc Hn). rewrite (Hz _ Ho) in k_bytes0. destruct (k_bytes0 a) as [?|[? Hl]]; [by left|right]. split; [done|].
    destruct Hl as [?|[? _]]; [by left|by right].
Qed.

Lemma inv_begin h0 tr st q it : echo_inv h0 tr st q → outbound st = Out_loop → stop st = false → front_item (srv st) = Some it →
  echo_inv h0 tr (set_outbound st (rx_ st) (srv st) (Out_item 0)) q.
Proof using.
  intros [] Ho Hs Hf. pose proof (front_item_spec _ q k_pend0) as Hq. rewrite Hf in Hq. destruct Hq as (q' & -> & _).
  split; cbn [set_outbound rx_ srv inbound outbound stop]; try done.
  - intros k [= <-]. split_and!; [by rewrite Hf|done|]. eexists _, q'. split; [done|]. lia.
  - intros a. rewrite Ho in k_bytes0. destruct (k_bytes0 a) as [?|[? Hl]]; [by left|right]. split; [done|].
    destruct Hl as [?|[? _]]; [by left|congruence].
Qed.

(** A data item in its slot: what it holds, and how far it is sent. *)
Lemma at_data h0 tr st q it sent : echo_inv h0 tr st q → outbound st = Out_item sent → front_item (srv st) = Some it → what it = wk_data →
  let bs := take (Z.to_nat (item_len it)) (item_bytes it) in
  item_ok it ∧ Z.of_nat (length bs) = item_len it ∧ 0 <= sent <= item_len it ∧
  ∃ q', q = view it :: q' ∧ pending (pop_item (srv st)) q' ∧
    entries q (inbound st) = (item_conn it, Some bs) :: entries q' (inbound st).
Proof using.
  intros [] Ho Hf Hw bs. pose proof (front_item_spec _ q k_pend0) as Hq. rewrite Hf in Hq. destruct Hq as (q' & -> & Hok & Hp).
  destruct (item_view it Hok Hw) as [Hv Hl]. destruct (k_busy0 sent Ho) as (_ & H0 & x & q1 & Hx & Hk). injection Hx as <- <-.
  rewrite Hv in Hk. cbn in Hk. split_and!; [done|done|done|unfold bs in *; lia|]. exists q'. split; [done|]. split; [done|].
  unfold entries. rewrite fmap_cons, Hv. done.
Qed.

Lemma entry_other a b bs : b ≠ a → entry_bytes a (b, bs) = [].
Proof using. intros Hn. unfold entry_bytes. by rewrite decide_False. Qed.
Lemma entry_same a bs : entry_bytes a (a, Some bs) = bs.
Proof using. unfold entry_bytes. by rewrite decide_True. Qed.
Lemma echoed_one a b bs : echoed a [O_sent b bs] = if decide (b = a) then bs else [].
Proof using. apply app_nil_r. Qed.

Lemma inv_send h0 tr st q it sent k s w : stack_ok stack → echo_inv h0 tr st q → outbound st = Out_item sent → front_item (srv st) = Some it →
  what it = wk_data → sent < item_len it → sendable stack (slots (rx_ st)) (item_conn it) = true →
  let rest := sub (item_bytes it) (Z.to_nat sent) (Z.to_nat (item_len it - sent)) in
  send stack data_txq (slots (rx_ st)) (item_conn it) rest (env (rx_ st)) = Some (k, s, w) →
  echo_inv h0 (tr ++ [O_sent (item_conn it) (take (Z.to_nat k) rest)]) (set_outbound st (store (rx_ st) s w) (srv st) (Out_item (sent + k))) q.
Proof using All.
  intros Hcfg Hinv Ho Hf Hw Hlt Hsd rest Hs. destruct (at_data h0 tr st q it sent Hinv Ho Hf Hw) as (Hok & Hl & Hb & q' & -> & Hp & Hent).
  set (bs := take _ _) in *. assert (Hrest : rest = drop (Z.to_nat sent) bs).
  { unfold rest, sub, bs. rewrite skipn_firstn_comm. f_equal. lia. }
  destruct Hinv. assert (Hid : id_ok stack (rx_ st) (item_conn it)).
  { apply (v_ids _ _ _ _ _ k_ids0 (item_conn it, Some bs)). rewrite Hent. by left. }
  pose proof (id_ok_permitted stack _ _ Hid) as Hperm.
  pose proof (send_moved stack data_txq _ _ _ _ _ _ Hcfg k_sys0 Hperm Hs) as Hm.
  pose proof (sys_send stack data_txq _ _ _ _ _ _ Hcfg k_sys0 Hperm Hs) as Hsys.
  destruct (sys_send_spec stack data_txq (rx_ st) (item_conn it) rest Hcfg k_sys0 Hperm) as (segs & d & w' & Hr & _ & Hcar & _ & Hh).
  rewrite Hs in Hr. injection Hr as <- _ <-. destruct (carries_le _ _ _ _ _ _ _ _ _ _ Hcar) as [Hd1 Hd2].
  pose proof (window_space_range (send_window (slot (rx_ st) (cid_slot (item_conn it)))) (snd_nxt (slot (rx_ st) (cid_slot (item_conn it))))) as Hws.
  assert (Hk : 0 <= k <= Z.of_nat (length rest)) by lia. rewrite Hrest, length_drop in Hk.
  split; cbn [set_outbound rx_ srv inbound outbound stop]; try done.
  - intros k' [= <-]. split_and!; [by rewrite Hf|lia|]. eexists _, q'. split; [done|].
    destruct (item_view it Hok Hw) as [-> _]. cbn. fold bs. lia.
  - apply ids_quiet; [done|done|]. by apply (ids_moved stack _ (rx_ st)).
  - intros a. rewrite received_app, echoed_app, echoed_one. change (received a [O_sent _ _]) with ([] : list Z). rewrite app_nil_r.
    rewrite Hent in *. specialize (k_bytes0 a). rewrite Ho in k_bytes0. cbn [sent_of unsent] in *.
    destruct (decide (item_conn it = a)) as [Ha|Ha]; [|rewrite entry_other in * by done; rewrite drop_nil in *; rewrite app_nil_r].
    + rewrite <- Ha in *. rewrite entry_same in *. destruct k_bytes0 as [->|[_ Hl']].
      * left. rewrite Hrest, <- !app_assoc. f_equal. rewrite app_assoc. f_equal.
        rewrite Z2Nat.inj_add, <- drop_drop by lia. symmetry. apply take_drop.
      * destruct Hl' as [[(_ & _ & Hx) _]|[_ Hx]]; [congruence|by destruct (Hx sent)].
    + destruct k_bytes0 as [->|[Hpre [[Hl' Hr']|[_ Hx]]]]; [by left| |by destruct (Hx sent)]. right. split; [done|]. left.
      split; [by apply (dead_moved stack (rx_ st))|by apply was_reset_app].
  - apply (open_same stack tr _ (rx_ st)); [done|done| |done]. by eapply (send_slots stack data_txq).
  - cbn. by rewrite Hh.
Qed.

Lemma inv_end_data h0 tr st q it sent : echo_inv h0 tr st q → outbound st = Out_item sent → front_item (srv st) = Some it →
  what it = wk_data → (sent <? item_len it) && sendable stack (slots (rx_ st)) (item_conn it) && negb (stop st) = false →
  ∃ q', q = view it :: q' ∧ echo_inv h0 tr (end_item st (rx_ st) (srv st)) q'.
Proof using.
  intros Hinv Ho Hf Hw Hg. destruct (at_data h0 tr st q it sent Hinv Ho Hf Hw) as (Hok & Hl & Hb & q' & -> & Hp & Hent).
  set (bs := take _ _) in *. exists q'. split; [done|]. destruct Hinv. rewrite Hent in *.
  assert (Hid : id_ok stack (rx_ st) (item_conn it)) by (apply (v_ids _ _ _ _ _ k_ids0 (item_conn it, Some bs)); by left).
  split; cbn [end_item set_outbound rx_ srv inbound outbound stop]; try done.
  - by eapply ids_pop; [|exact k_ids0].
  - intros a. rewrite Ho in k_bytes0. specialize (k_bytes0 a). cbn [sent_of unsent] in *. rewrite unsent_0.
    destruct k_bytes0 as [Hby|[Hpre [Hl'|[_ Hx]]]]; [|right; split; [done|by left]|by destruct (Hx sent)].
    destruct (decide (item_conn it = a)) as [Ha|Ha]; [|left; by rewrite entry_other, drop_nil in Hby by done].
    rewrite <- Ha in *. rewrite entry_same in Hby. destruct (Z.ltb_spec sent (item_len it)) as [Hlt|Hge].
    + right. split; [rewrite Hby; by apply prefix_app_r|]. cbn in Hg. apply andb_false_iff in Hg as [Hg|Hg].
      * left. assert (Hd : dead stack (rx_ st) (item_conn it)) by (split; [apply Hid|]; split; [apply Hid|exact Hg]).
        split; [exact Hd|]. destruct (v_ids _ _ _ _ _ k_ids0 (item_conn it, Some bs) ltac:(by left)) as (_ & _ & e & He & Hc & _).
        apply (dead_was_reset stack tr (rx_ st)); [done|done|by exists e| |done].
        intros Hcl. destruct (v_closed _ _ _ _ _ k_ids0 _ Hcl) as (_ & Hnd & _). apply (Hnd bs). by left.
      * right. split; [by apply negb_false_iff in Hg|done].
    + left. by rewrite drop_ge, app_nil_l in Hby by lia.
Qed.

(** The end of a connection at the front: all its bytes are behind it. *)
Lemma at_end h0 tr st q it sent : echo_inv h0 tr st q → outbound st = Out_item sent → front_item (srv st) = Some it → what it ≠ wk_data →
  sent = 0 ∧ ∃ q', q = view it :: q' ∧ pending (pop_item (srv st)) q' ∧
    entries q (inbound st) = (item_conn it, None) :: entries q' (inbound st).
Proof using.
  intros [] Ho Hf Hw. pose proof (front_item_spec _ q k_pend0) as Hq. rewrite Hf in Hq. destruct Hq as (q' & -> & Hok & Hp).
  assert (Hv : queued_entry (view it) = (item_conn it, None)) by (unfold queued_entry, view; cbn; by destruct (what it)).
  destruct (k_busy0 sent Ho) as (_ & H0 & x & q1 & Hx & Hk). injection Hx as <- <-.
  rewrite Hv in Hk. cbn in Hk. split; [lia|]. exists q'. split; [done|]. split; [done|]. unfold entries. by rewrite fmap_cons, Hv.
Qed.

Lemma closing_done h0 tr st q it sent a : echo_inv h0 tr st q → outbound st = Out_item sent → front_item (srv st) = Some it → what it ≠ wk_data →
  a = item_conn it → received a tr = echoed a tr ∨ echoed a tr `prefix_of` received a tr ∧ was_reset a tr.
Proof using.
  intros Hinv Ho Hf Hw ->. destruct (at_end h0 tr st q it sent Hinv Ho Hf Hw) as (-> & q' & -> & _ & Hent). destruct Hinv. rewrite Hent in *.
  specialize (k_bytes0 (item_conn it)). rewrite Ho in k_bytes0. cbn [sent_of unsent] in k_bytes0.
  pose proof (v_sorted _ _ _ _ _ k_ids0) as Hs. apply sorting.StronglySorted_cons in Hs as [Hs _]. rewrite Forall_forall in Hs.
  rewrite bytes_for_none in k_bytes0.
  - unfold entry_bytes in k_bytes0. rewrite decide_True in k_bytes0 by done. cbn in k_bytes0. rewrite app_nil_r in k_bytes0.
    destruct k_bytes0 as [?|[? [[_ ?]|[_ Hx]]]]; [by left|by right|by destruct (Hx 0)].
  - intros bs Hb. destruct (Hs _ Hb) as [_ Hn]. by specialize (Hn eq_refl eq_refl).
Qed.

Lemma inv_end_close h0 tr st q it sent : stack_ok stack → echo_inv h0 tr st q → outbound st = Out_item sent → front_item (srv st) = Some it →
  what it ≠ wk_data → let p := run_outbound stack data_txq st in ∃ q', q = view it :: q' ∧ echo_inv h0 (tr ++ p.2) p.1 q'.
Proof using All.
  intros Hcfg Hinv Ho Hf Hw p. pose proof (closing_done h0 tr st q it sent _ Hinv Ho Hf Hw eq_refl) as Hdone.
  destruct (at_end h0 tr st q it sent Hinv Ho Hf Hw) as (-> & q' & -> & Hp & Hent). exists q'. split; [done|]. destruct Hinv. rewrite Hent in *.
  set (a := item_conn it) in *. set (gens := released_gen_ (srv st)) in *.
  assert (Hid : id_ok stack (rx_ st) a) by (apply (v_ids _ _ _ _ _ k_ids0 (a, None)); by left).
  pose proof (id_ok_permitted stack _ _ Hid) as Hperm.
  assert (Hpp : p = let '(gens', (s, w)) := close_once stack data_txq a gens (slots (rx_ st)) (env (rx_ st)) in
      (end_item st (store (rx_ st) s w) (set_released (srv st) gens'),
       if negb (gens !!! Z.to_nat (cid_slot a) =? cid_generation a) then [O_close a] else [])).
  { subst p. unfold run_outbound. rewrite Ho, Hf. by destruct (what it). }
  unfold close_once in Hpp. clearbody p. destruct (Z.eqb_spec (gens !!! Z.to_nat (cid_slot a)) (cid_generation a)) as [Hg|Hg]; cbn [negb] in Hpp; subst p.
  - assert (Hcl : a ∈ closes tr) by (apply (v_rel _ _ _ _ _ k_ids0); [apply Hid|apply Hid|done]).
    cbn [fst snd]. rewrite app_nil_r. split; cbn [end_item set_outbound set_released pop_item set_ring rx_ srv inbound outbound stop released_gen_]; try done.
    + by apply sys_nop.
    + apply (ids_moved stack _ (rx_ st)); [apply nop_moved|]. by eapply ids_pop; [|exact k_ids0].
    + intros b. specialize (k_bytes0 b). rewrite Ho in k_bytes0. cbn [sent_of unsent] in *. rewrite unsent_0, drop_0 in *.
      destruct k_bytes0 as [Hby|[Hpre [Hl|[_ Hx]]]]; [left; unfold entry_bytes in Hby; by destruct (decide _) in Hby|right; split; [done|by left]|by destruct (Hx 0)].
    + by apply (open_env tr (rx_ st)).
  - destruct (close stack data_txq (slots (rx_ st)) a (env (rx_ st))) as [s w] eqn:Ec. cbn [fst snd].
    pose proof (close_moved stack data_txq _ _ _ _ Hcfg k_sys0 Hperm Ec) as Hm. pose proof (sys_close stack data_txq _ _ _ _ Hcfg k_sys0 Hperm Ec) as Hsys.
    destruct (sys_close_spec stack data_txq (rx_ st) a Hcfg k_sys0 Hperm) as (out & w' & Hx & _ & Hh & _). rewrite Ec in Hx. injection Hx as _ <-.
    destruct (ids_close stack tr (rx_ st) gens a _ Hg k_ids0) as [_ Hids].
    split; cbn [end_item set_outbound set_released pop_item set_ring rx_ srv inbound outbound stop released_gen_]; try done.
    + by apply (pending_keep (pop_item (srv st))).
    + by apply (ids_moved stack _ (rx_ st)).
    + intros b. rewrite received_app, echoed_app. change (received b [O_close a]) with ([] : list Z). change (echoed b [O_close a]) with ([] : list Z).
      rewrite !app_nil_r. specialize (k_bytes0 b). rewrite Ho in k_bytes0. cbn [sent_of unsent] in *. rewrite unsent_0, drop_0 in *.
      destruct k_bytes0 as [Hby|[Hpre [Hl|[_ Hx]]]]; [left; unfold entry_bytes in Hby; by destruct (decide _) in Hby|right; split; [done|]|by destruct (Hx 0)].
      left. split; [apply (dead_moved stack (rx_ st)); [done|apply Hl]|apply was_reset_app, Hl].
    + by apply (open_close stack data_txq).
    + cbn. by rewrite Hh.
Qed.

(** *** Every turn, every schedule *)

Lemma turn_inv h0 tr st q t : stack_ok stack → echo_inv h0 tr st q → turn_ok st t →
  ∃ q', echo_inv h0 (tr ++ (echo_turn st t).2) (echo_turn st t).1 q'.
Proof using All.
  intros Hcfg Hinv Hok. destruct t as [junk| |]; cbn [EchoLoop.echo_turn].
  - destruct (inbound st) as [|[|rxq rest]|rest burst [|ev evs]|] eqn:Hin.
    + unfold run_inbound. rewrite Hin. destruct (stop st); cbn [fst snd]; rewrite app_nil_r; exists q; [|by apply inv_drain].
      by apply inv_pc; rewrite ?Hin.
    + unfold run_inbound. rewrite Hin. cbn [fst snd]. rewrite app_nil_r. exists q. by apply inv_pc; rewrite ?Hin.
    + exists q. pose proof (inv_poll h0 tr st q rxq rest Hcfg Hinv Hin) as Hp. unfold EchoLoop.turn_ok, run_inbound in *. rewrite Hin in *. by apply Hp.
    + unfold run_inbound. rewrite Hin. cbn [fst snd]. rewrite app_nil_r. exists q. by apply inv_release.
    + unfold run_inbound, EchoLoop.turn_ok in *. rewrite Hin in *. cbn [fst snd]. rewrite app_nil_r. by eapply inv_handle.
    + unfold run_inbound. rewrite Hin. cbn [fst snd]. rewrite app_nil_r. by exists q.
  - destruct (outbound st) as [|sent|] eqn:Ho.
    + unfold run_outbound. rewrite Ho. destruct (stop st) eqn:Hs.
      { cbn [fst snd]. rewrite app_nil_r. exists q. apply inv_out; [done|by rewrite Ho|done]. }
      destruct (front_item (srv st)) as [it|] eqn:Hf; cbn [fst snd]; rewrite app_nil_r; exists q; [by eapply inv_begin|done].
    + destruct (front_item (srv st)) as [it|] eqn:Hf.
      2: { exfalso. by destruct (k_busy _ _ _ _ Hinv sent Ho). }
      destruct (decide (what it = wk_data)) as [Hw|Hw]; [|destruct (inv_end_close h0 tr st q it sent Hcfg Hinv Ho Hf Hw) as (q' & _ & Hx); by exists q'].
      unfold run_outbound. rewrite Ho, Hf, Hw. destruct (_ && _ && _) eqn:Hg.
      * apply andb_prop in Hg as [[H1%Z.ltb_lt H2]%andb_prop _]. destruct (send _ _ _ _ _ _) as [[[k s] w]|] eqn:Es; [|cbn; rewrite app_nil_r; by exists q].
        exists q. cbn [fst snd]. by eapply inv_send.
      * cbn [fst snd]. rewrite app_nil_r. destruct (inv_end_data h0 tr st q it sent Hinv Ho Hf Hw Hg) as (q' & _ & Hx). by exists q'.
    + unfold run_outbound. rewrite Ho. cbn [fst snd]. rewrite app_nil_r. by exists q.
  - cbn [fst snd]. rewrite app_nil_r. exists q. by apply inv_stop.
Qed.

Lemma run_inv h0 tr st q ts : stack_ok stack → echo_inv h0 tr st q → run_ok st ts →
  ∃ q', echo_inv h0 (echo_run st tr ts).2 (echo_run st tr ts).1 q'.
Proof using All.
  intros Hcfg. revert tr st q. induction ts as [|t ts IH]; intros tr st q Hinv Hok; [by exists q|]. destruct Hok as [Ht Hok].
  destruct (turn_inv h0 tr st q t Hcfg Hinv Ht) as [q' Hinv']. cbn [EchoLoop.echo_run]. destruct (echo_turn st t) as [st' o]. by eapply IH.
Qed.

Lemma new_inv (w : E) : stack_ok stack → echo_inv (held w) [] (echo_new stack w) [].
Proof using All.
  intros Hcfg. pose proof (ck_n _ Hcfg) as Hn.
  assert (Hs : ∀ i, inr n i → slot (rx_ (echo_new stack w)) i = new_connection).
  { intros i Hi. unfold slot. cbn. apply lookup_total_replicate_2. unfold inr in Hi. lia. }
  split; cbn [echo_new rx_ srv inbound outbound stop]; try done.
  - by apply sys_new.
  - apply idle_pending.
  - split; cbn; try (by intros ? ?%not_elem_of_nil).
    + constructor.
    + constructor.
    + rewrite length_replicate. lia.
    + intros a Ha H1 Hg. rewrite lookup_total_replicate_2 in Hg by (unfold inr in Ha; lia). lia.
  - intros a. by left.
  - split; [|by intros ? ?%not_elem_of_nil]. intros i Hi Hnf. exfalso. apply Hnf. change (state (slot (rx_ (echo_new stack w)) i) = st_free). by rewrite Hs.
  - cbn. unfold owned. cbn. lia.
Qed.

Lemma reached_inv (w : E) ts : stack_ok stack → run_ok (echo_new stack w) ts →
  let '(st, tr) := echo_run (echo_new stack w) [] ts in ∃ q, echo_inv (held w) tr st q.
Proof using All.
  intros Hcfg Hok. destruct (run_inv (held w) [] _ [] ts Hcfg (new_inv w Hcfg) Hok) as [q Hq].
  destruct (echo_run _ _ _) as [st tr]. by exists q.
Qed.

(** *** What leaves the server *)

Abbreviation on_wire w := (wire (q_port data_txq) (q_id data_txq) w).

(** The TCP payload of a frame without options. *)
Definition payload_of (m : rte_mbuf) : list Z := drop 54 (m_data m).
Definition payloads (ms : list rte_mbuf) : list Z := concat (payload_of <$> ms).
Definition sent_in (o : list obs) : list Z := concat ((λ x, match x with O_sent _ bs => bs | _ => [] end) <$> o).

Lemma frame_payload a seq ack flags win p : mac_ok (src_mac a) → mac_ok (dst_mac a) → drop 54 (frame (E := E) a seq ack flags win p 0) = p.
Proof using.
  intros H1 H2. unfold frame, mss_bytes. cbn [Z.eqb app]. rewrite !app_assoc. apply drop_app_length'.
  rewrite !length_app, length_eth_bytes by done. unfold ip_header, tcp_header. by rewrite length_ip_bytes, length_tcp_bytes by done.
Qed.

Lemma carries_payload mss a base ack bytes limit off segs off' : mac_ok (src_mac a) → mac_ok (dst_mac a) → 0 <= off → limit <= Z.of_nat (length bytes) →
  carries stack mss a base ack bytes limit off segs off' → off <= limit →
  payloads segs.*1 = sub bytes (Z.to_nat off) (Z.to_nat (off' - off)).
Proof using.
  intros H1 H2 H0 Hlim Hc. revert H0. induction Hc as [off|off m len segs off' Hlen Hle Hm Hc IH]; intros H0 Hl.
  { rewrite Z.sub_diag. done. }
  destruct (carries_le _ _ _ _ _ _ _ _ _ _ Hc) as [Hx _]. cbn [fmap list_fmap fst]. unfold payloads in *. cbn [fmap list_fmap concat].
  rewrite IH by lia. unfold payload_of. rewrite Hm. unfold data_frame. rewrite frame_payload by done. unfold sub.
  replace (Z.to_nat (off' - off)) with (Z.to_nat len + Z.to_nat (off' - (off + len)))%nat by lia.
  rewrite Z2Nat.inj_add by lia. rewrite <- drop_drop. apply take_take_drop.
Qed.

Lemma send_wire st q h0 tr it sent rest k s w : stack_ok stack → echo_inv h0 tr st q → outbound st = Out_item sent →
  front_item (srv st) = Some it → what it = wk_data → sendable stack (slots (rx_ st)) (item_conn it) = true →
  send stack data_txq (slots (rx_ st)) (item_conn it) rest (env (rx_ st)) = Some (k, s, w) →
  ∃ out, on_wire w = on_wire (env (rx_ st)) ++ out ∧ payloads out = take (Z.to_nat k) rest.
Proof using All.
  intros Hcfg Hinv Ho Hf Hw Hsd Hs. destruct (at_data h0 tr st q it sent Hinv Ho Hf Hw) as (_ & _ & _ & q' & -> & _ & Hent).
  destruct Hinv. rewrite Hent in *. assert (Hid : id_ok stack (rx_ st) (item_conn it)) by (eapply (v_ids _ _ _ _ _ k_ids0 (item_conn it, _)); by left).
  pose proof (id_ok_permitted stack _ _ Hid) as Hperm.
  destruct (sys_send_spec stack data_txq (rx_ st) (item_conn it) rest Hcfg k_sys0 Hperm) as (segs & d & w' & Hr & _ & Hcar & Hwire & _).
  rewrite Hs in Hr. injection Hr as <- _ <-. exists segs.*1. split; [done|].
  destruct Hperm as [Hno|Hn]; [by destruct (lookup_none_send stack data_txq (rx_ st) (item_conn it) rest Hno); congruence|].
  destruct (sys_conn stack (rx_ st) (item_conn it) k_sys0 Hn) as [_ [Hwk _]].
  pose proof (window_space_range (send_window (slot (rx_ st) (cid_slot (item_conn it)))) (snd_nxt (slot (rx_ st) (cid_slot (item_conn it))))) as Hws.
  pose proof (λ Hl, carries_payload _ (conn_addr stack (slot (rx_ st) (cid_slot (item_conn it)))) _ _ _ _ _ _ _
    (ck_mac _ Hcfg) (co_mac _ _ Hwk) (Z.le_refl 0) Hl Hcar) as Hpay. rewrite Hpay by lia.
  by rewrite Z.sub_0_r.
Qed.

Lemma outbound_wire st q h0 tr : stack_ok stack → echo_inv h0 tr st q → let p := run_outbound stack data_txq st in
  ∃ out, on_wire (env (rx_ p.1)) = on_wire (env (rx_ st)) ++ out ∧ payloads out = sent_in p.2.
Proof using All.
  intros Hcfg Hinv p.
  assert (Hnone : ∀ st' o, env (rx_ st') = env (rx_ st) → sent_in o = [] →
    ∃ out, on_wire (env (rx_ (st', o).1)) = on_wire (env (rx_ st)) ++ out ∧ payloads out = sent_in (st', o).2).
  { intros st' o He Hs. exists []. cbn [fst snd]. by rewrite He, Hs, app_nil_r. }
  subst p. unfold run_outbound. destruct (outbound st) as [|sent|] eqn:Ho; [|destruct (front_item (srv st)) as [it|] eqn:Hf; [|by apply Hnone]|by apply Hnone].
  { destruct (stop st), (front_item (srv st)); by apply Hnone. }
  destruct (decide (what it = wk_data)) as [Hw|Hw].
  - rewrite Hw. destruct (_ && _ && _) eqn:Hg; [|by apply Hnone]. apply andb_prop in Hg as [[_ H2]%andb_prop _].
    destruct (send _ _ _ _ _ _) as [[[k s] w]|] eqn:Es; [|by apply Hnone]. cbn [fst snd set_outbound rx_ store env set_env].
    destruct (send_wire st q h0 tr it sent _ k s w Hcfg Hinv Ho Hf Hw H2 Es) as (out & H3 & H4). exists out. split; [exact H3|].
    rewrite H4. unfold sent_in. cbn. by rewrite app_nil_r.
  - destruct (at_end _ _ _ _ _ _ Hinv Ho Hf Hw) as (_ & q' & -> & _ & Hent). destruct Hinv. rewrite Hent in *.
    assert (Hid : id_ok stack (rx_ st) (item_conn it)) by (eapply (v_ids _ _ _ _ _ k_ids0 (item_conn it, _)); by left).
    destruct (sys_close_spec stack data_txq (rx_ st) (item_conn it) Hcfg k_sys0 (id_ok_permitted stack _ _ Hid)) as (out & w' & Hc & Hwire & _ & Hout).
    destruct (close stack data_txq (slots (rx_ st)) (item_conn it) (env (rx_ st))) as [s w] eqn:Ec. injection Hc as _ ->.
    assert (Hpay : payloads out = []).
    { destruct Hout as [->|(El & _ & _ & m & -> & Hm)]; [done|]. destruct (id_ok_permitted stack _ _ Hid) as [Hno|Hn]; [congruence|].
      destruct (sys_conn stack (rx_ st) (item_conn it) k_sys0 Hn) as [_ [Hwk _]]. unfold payloads, payload_of. cbn. rewrite Hm. unfold fin_frame.
      rewrite frame_payload; [done|apply Hcfg|apply (co_mac _ _ Hwk)]. }
    unfold close_once. rewrite Ec. destruct (what it); [done|..]; destruct (_ =? _); cbn [negb]; try (by apply Hnone); exists out; split; (exact Hwire || exact Hpay).
Qed.

(** Every state of the server is one the theorems about the stack speak of. *)
Lemma turn_reach h0 tr st q t : stack_ok stack → echo_inv h0 tr st q → turn_ok st t →
  reachable stack control_txq data_txq (rx_ st) → reachable stack control_txq data_txq (rx_ (echo_turn st t).1).
Proof using All.
  intros Hcfg Hinv Hok Hr. destruct t as [junk| |]; cbn [EchoLoop.echo_turn]; [| |done].
  - unfold EchoLoop.turn_ok, run_inbound in *. destruct (inbound st) as [|[|rxq rest]|rest burst [|ev evs]|]; try done; [by destruct (stop st)| |].
    + pose proof (received_burst rxq (env (rx_ st))) as Hb. destruct (receive_burst _ _ _) as [burst w]. destruct Hok as [Hwf _], Hb as [Hl _].
      destruct (poll _ _ _ _) as [evs r'] eqn:Ep. cbn. eapply reachable_step; [eapply reachable_step; [exact Hr|apply (ws_env _ _ _ _ w)]|].
      apply ws_call. replace r' with (poll stack control_txq (set_env (rx_ st) w) (omap id burst)).2 by (by rewrite Ep). by apply step_poll.
    + cbn. eapply reachable_step; [exact Hr|apply ws_env].
  - unfold run_outbound. destruct (outbound st) as [|sent|] eqn:Ho; [by destruct (stop st), (front_item (srv st))| |done].
    destruct (front_item (srv st)) as [it|] eqn:Hf; [|done]. pose proof (k_ids _ _ _ _ Hinv) as Hids.
    pose proof (front_item_spec _ q (k_pend _ _ _ _ Hinv)) as Hq. rewrite Hf in Hq. destruct Hq as (q' & -> & _).
    assert (Hid : id_ok stack (rx_ st) (item_conn it)) by (apply (v_ids _ _ _ _ _ Hids (queued_entry (view it))); by left).
    apply id_ok_permitted in Hid. assert (Hcl : reachable stack control_txq data_txq (rx_
      (let '(gens', (s, w)) := close_once stack data_txq (item_conn it) (released_gen_ (srv st)) (slots (rx_ st)) (env (rx_ st)) in
       (end_item st (store (rx_ st) s w) (set_released (srv st) gens'),
        if negb (released_gen_ (srv st) !!! Z.to_nat (cid_slot (item_conn it)) =? cid_generation (item_conn it)) then [O_close (item_conn it)] else [])).1)).
    { unfold close_once. destruct (negb _); cbn.
      - destruct (close _ _ _ _ _) as [s w] eqn:Ec. cbn. eapply reachable_step; [exact Hr|]. apply ws_call. by eapply step_close.
      - eapply reachable_step; [exact Hr|]. apply (ws_env _ _ _ (rx_ st) (env (rx_ st))). }
    destruct (what it); [|exact Hcl|exact Hcl]. destruct (_ && _ && _); [|done].
    destruct (send _ _ _ _ _ _) as [[[k s] w]|] eqn:Es; [|done]. cbn. eapply reachable_step; [exact Hr|]. apply ws_call. by eapply step_send.
Qed.

Lemma run_reach h0 tr st q ts : stack_ok stack → echo_inv h0 tr st q → run_ok st ts →
  reachable stack control_txq data_txq (rx_ st) → reachable stack control_txq data_txq (rx_ (echo_run st tr ts).1).
Proof using All.
  intros Hcfg. revert tr st q. induction ts as [|t ts IH]; intros tr st q Hinv Hok Hr; [done|]. destruct Hok as [Ht Hok].
  destruct (turn_inv h0 tr st q t Hcfg Hinv Ht) as [q' Hinv']. pose proof (turn_reach h0 tr st q t Hcfg Hinv Ht Hr) as Hr'.
  cbn [EchoLoop.echo_run]. destruct (echo_turn st t) as [st' o]. by eapply IH.
Qed.

(** C3. The echo server echoes: in any schedule of its two threads,
    for every connection, the bytes the stack reported as received are exactly
    the bytes handed back to [tcp_sender::send] and taken by it, followed by
    those still queued between the threads, in order, none lost, repeated or
    mixed up with another connection's, unless the peer reset the connection
    or the server was stopped: then what was echoed is a prefix.  What [send]
    takes goes out: each outbound turn adds to the data queue frames whose
    payloads are the bytes it reports.  And the stack below is in a state
    reachable by its own calls. *)
Theorem echo_returns_stream (w : E) ts : stack_ok stack → run_ok (echo_new stack w) ts →
  let '(st, tr) := echo_run (echo_new stack w) [] ts in
  reachable stack control_txq data_txq (rx_ st) ∧
  (∃ q, pending (srv st) q ∧ ∀ a,
    received a tr = echoed a tr ++ unsent a (sent_of (outbound st)) (entries q (inbound st)) ∨
    echoed a tr `prefix_of` received a tr ∧ (was_reset a tr ∨ stop st = true)) ∧
  let '(st', o) := echo_turn st Outbound in
  ∃ out, on_wire (env (rx_ st')) = on_wire (env (rx_ st)) ++ out ∧ payloads out = sent_in o.
Proof using All.
  intros Hcfg Hok. pose proof (reached_inv w ts Hcfg Hok) as Hr.
  pose proof (run_reach (held w) [] _ [] ts Hcfg (new_inv w Hcfg) Hok ltac:(exists w; constructor)) as Hreach.
  destruct (echo_run _ _ _) as [st tr]. destruct Hr as [q Hq]. split; [exact Hreach|]. split.
  - exists q. split; [apply Hq|]. intros a. destruct (k_bytes _ _ _ _ Hq a) as [?|[? [[_ ?]|[? _]]]]; auto.
  - pose proof (outbound_wire st q (held w) tr Hcfg Hq) as Hw. cbn [EchoLoop.echo_turn]. by destruct (run_outbound _ _ st).
Qed.

(** C18. The echo server closes every connection exactly once and
    not too early: in any schedule, no id is closed twice; every connection
    whose peer closed or reset it has been closed or has its close queued; and
    when the outbound thread is about to close one, the peer's end of stream
    has been reported, every byte of it has been echoed or the peer reset the
    connection, and it has not been closed before. *)
Theorem echo_closes_once (w : E) ts : stack_ok stack → run_ok (echo_new stack w) ts →
  let '(st, tr) := echo_run (echo_new stack w) [] ts in
  NoDup (closes tr) ∧
  (∃ q, pending (srv st) q ∧ ∀ e, e ∈ events_in tr → owes_close (ev_type e) →
     ev_conn e ∈ closes tr ∨ (ev_conn e, None) ∈ entries q (inbound st)) ∧
  ∀ a, O_close a ∈ (echo_turn st Outbound).2 →
    (a ∉ closes tr) ∧ ended a tr ∧ (received a tr = echoed a tr ∨ was_reset a tr).
Proof using All.
  intros Hcfg Hok. pose proof (reached_inv w ts Hcfg Hok) as Hr. destruct (echo_run _ _ _) as [st tr]. destruct Hr as [q Hq].
  split; [apply (k_ids _ _ _ _ Hq)|]. split; [exists q; split; [apply Hq|apply (k_ids _ _ _ _ Hq)]|]. intros a Ha.
  assert (Hit : ∃ sent it, outbound st = Out_item sent ∧ front_item (srv st) = Some it ∧ what it ≠ wk_data ∧ a = item_conn it ∧
            released_gen_ (srv st) !!! Z.to_nat (cid_slot a) ≠ cid_generation a).
  { cbn [EchoLoop.echo_turn] in Ha. unfold run_outbound in Ha. destruct (outbound st) as [|sent|], (front_item (srv st)) as [it|], (stop st);
      try (by apply not_elem_of_nil in Ha). all: destruct (what it) eqn:Ew; [repeat case_match; cbn in Ha; rewrite ?list_elem_of_singleton in Ha; try done; by apply not_elem_of_nil in Ha|..].
    all: unfold close_once in Ha; destruct (Z.eqb_spec (released_gen_ (srv st) !!! Z.to_nat (cid_slot (item_conn it))) (cid_generation (item_conn it)));
      cbn [negb] in Ha; [by apply not_elem_of_nil in Ha|]. all: destruct (close _ _ _ _ _); cbn in Ha; apply list_elem_of_singleton in Ha as [= ->]; exists sent, it; by rewrite Ew. }
  destruct Hit as (sent & it & Ho & Hf & Hw & -> & Hg). destruct (at_end _ _ _ _ _ _ Hq Ho Hf Hw) as (_ & q' & -> & _ & Hent).
  pose proof (k_ids _ _ _ _ Hq) as Hids. rewrite Hent in Hids. destruct (ids_close _ _ _ _ _ _ Hg Hids) as [Hn _]. split; [done|]. split.
  - apply (seen_ended (item_conn it, None)); [|done]. apply (v_ids _ _ _ _ _ Hids). by left.
  - destruct (closing_done _ _ _ _ _ _ _ Hq Ho Hf Hw eq_refl) as [?|[_ ?]]; auto.
Qed.

(** The echo server neither leaks nor double-frees mbufs: in any
    schedule it holds, beyond what it held at the start, exactly the packets of
    the burst the inbound thread has in scope. *)
Theorem echo_balances_mbufs (w : E) ts : stack_ok stack → run_ok (echo_new stack w) ts →
  let '(st, _) := echo_run (echo_new stack w) [] ts in held (env (rx_ st)) = held w + owned (in_scope (inbound st)).
Proof using All.
  intros Hcfg Hok. pose proof (reached_inv w ts Hcfg Hok) as Hr. destruct (echo_run _ _ _) as [st tr]. destruct Hr as [q Hq]. apply Hq.
Qed.
End server.

(** ** A run: a peer connects, says "hi" and closes *)

Section echo_demo.
#[local] Existing Instances sim.ops sim.laws sim.account sim.wires.
Abbreviation rxqs := [ {| q_port := 0; q_id := 0 |} ].

(** The conditions on a turn, by evaluation. *)
Definition turn_okb (st : echo_state sim.env) (t : tick) : bool :=
  match t, inbound st with
  | Inbound _, In_queues (rxq :: _) =>
    let '(burst, w) := receive_burst rxq burst_max_size (env (rx_ st)) in
    forallb demo.wfb (omap id burst) &&
    forallb (λ i, generation (slot (rx_ st) i) <=?
               generation (slot (poll demo.stack demo.control_txq (set_env (rx_ st) w) (omap id burst)).2 i)) [0; 1]
  | Inbound junk, _ => Z.of_nat (length junk) =? item_capacity
  | _, _ => true
  end.
Fixpoint run_okb (st : echo_state sim.env) (ts : list tick) : bool :=
  match ts with
  | [] => true
  | t :: ts => turn_okb st t && run_okb (echo_turn demo.stack rxqs demo.control_txq demo.data_txq st t).1 ts
  end.
Lemma run_okb_ok st ts : run_okb st ts = true → run_ok demo.stack rxqs demo.control_txq demo.data_txq st ts.
Proof.
  revert st. induction ts as [|t ts IH]; intros st; [done|]. cbn [run_okb run_ok]. intros [Ht Hr]%andb_prop. split; [|by apply IH].
  unfold turn_okb in Ht. unfold turn_ok. destruct t as [junk| |]; [|done..]. destruct (inbound st) as [|[|rxq rest]| |]; try (by apply Z.eqb_eq).
  destruct (receive_burst _ _ _) as [burst w]. apply andb_prop in Ht as [Hw Hg]. split; [by apply demo.wfb_all|].
  intros i Hi. cbn in Hi. cbn [forallb] in Hg. apply andb_prop in Hg as [H0 [H1 _]%andb_prop].
  assert (Hc : i = 0 ∨ i = 1) by lia. destruct Hc as [-> | ->]; by apply Z.leb_le.
Qed.

Definition arrivals : sim.env := sim.Env 2048 64 [] [] [demo.syn; demo.ack_hi; demo.fin] [] 0.
Definition schedule : list tick := replicate 6 (Inbound (replicate 2048 7)) ++ replicate 4 Outbound.
Lemma schedule_ok : run_ok demo.stack rxqs demo.control_txq demo.data_txq (echo_new demo.stack arrivals) schedule.
Proof. apply run_okb_ok. vm_compute. reflexivity. Qed.

Definition outcome : echo_state sim.env * list obs :=
  echo_run demo.stack rxqs demo.control_txq demo.data_txq (echo_new demo.stack arrivals) [] schedule.

(** "hi" is received and sent back; the close comes next. *)
Lemma echo_returns_stream_witness : ∃ q, received demo.conn outcome.2 = [104; 105] ∧ echoed demo.conn outcome.2 = [104; 105] ∧
  (received demo.conn outcome.2 = echoed demo.conn outcome.2 ++ unsent demo.conn 0 (entries q (In_queues [])) ∨
   was_reset demo.conn outcome.2 ∨ stop outcome.1 = true).
Proof.
  assert (Hr : received demo.conn outcome.2 = [104; 105]) by (vm_compute; reflexivity).
  assert (He : echoed demo.conn outcome.2 = [104; 105]) by (vm_compute; reflexivity).
  assert (Ho : outbound outcome.1 = Out_item 0) by (vm_compute; reflexivity).
  assert (Hi : inbound outcome.1 = In_queues []) by (vm_compute; reflexivity).
  pose proof (echo_returns_stream demo.stack rxqs demo.control_txq demo.data_txq arrivals schedule demo_ok schedule_ok) as Hx.
  revert Hr He Ho Hi Hx. unfold outcome. destruct (echo_run _ _ _ _ _ _ _) as [st tr]. cbn [fst snd]. intros Hr He -> -> (_ & (q & _ & Hq) & _).
  exists q. split; [exact Hr|]. split; [exact He|]. destruct (Hq demo.conn) as [Hq'|[_ Hq']]; [left; exact Hq'|right; exact Hq'].
Defined.

Lemma echo_closes_once_witness :
  O_close demo.conn ∈ (echo_turn demo.stack rxqs demo.control_txq demo.data_txq outcome.1 Outbound).2 ∧
  (demo.conn ∉ closes outcome.2) ∧ ended demo.conn outcome.2.
Proof.
  assert (He : (echo_turn demo.stack rxqs demo.control_txq demo.data_txq outcome.1 Outbound).2 = [O_close demo.conn]) by (vm_compute; reflexivity).
  pose proof (echo_closes_once demo.stack rxqs demo.control_txq demo.data_txq arrivals schedule demo_ok schedule_ok) as Hx.
  revert He Hx. unfold outcome. destruct (echo_run _ _ _ _ _ _ _) as [st tr]. cbn [fst snd]. intros He (_ & _ & Hx).
  assert (Hc : O_close demo.conn ∈ (echo_turn demo.stack rxqs demo.control_txq demo.data_txq st Outbound).2) by (rewrite He; by left).
  destruct (Hx demo.conn Hc) as (H1 & H2 & _). split; [exact Hc|]. split; [exact H1|exact H2].
Defined.

Lemma echo_balances_mbufs_witness : held (env (rx_ outcome.1)) = 0.
Proof.
  assert (Hi : inbound outcome.1 = In_queues []) by (vm_compute; reflexivity).
  pose proof (echo_balances_mbufs demo.stack rxqs demo.control_txq demo.data_txq arrivals schedule demo_ok schedule_ok) as Hx.
  revert Hi Hx. unfold outcome. destruct (echo_run _ _ _ _ _ _ _) as [st tr]. cbn [fst snd]. intros -> Hx. exact Hx.
Defined.
End echo_demo.
