(* ===== verification/EchoFine.v ===== *)
(** * The echo server, access by access (examples/tcp_echo_server.h, lines 105-259)

    The two threads of the echo server where each access to the ring is a step
    of its own: while the inbound thread is inside [handle] or [drain_overflow],
    half way through copying an item, the outbound thread looks at the ring,
    works on an item in its slot, or pops it.  Loads of the other thread's
    counter and of [stop] may return old values.  The calls into the stack are
    whole steps, as in EchoLoop.  The theorem says that nothing the application
    sees changes: the server still returns every byte, in order, and closes
    every connection once. *)

From S2P Require Import Prelude Probing FlowTable Dpdk DpdkSim Packet Headers Segment SegmentWire SeqArith TcpState TcpReceiver.
From S2P Require Import TcpConn TcpInv TcpPoll TcpSender TcpValues TcpSystem TcpSetup Scenario Echo RingThreads TcpIds EchoLoop EchoInv EchoServer.

(** A relaxed load of [stop] by a thread: once it has seen the request it keeps
    seeing it; until then it may miss it. *)
Definition load_stop (seen saw stop : bool) : bool := stop && (saw || seen).

(** One step of a thread: [n] chooses the store a load of the other's counter
    reads, [seen] whether a load of [stop] sees a request just made. *)
Inductive fine_tick := Fine_inbound (n : nat) (seen : bool) (junk : list Z) | Fine_outbound (n : nat) (seen : bool) | Fine_stop.

Section fine.
Context {E : Type} `{DpdkOps E} `{!DpdkLaws E} `{!DpdkAccount E} `{!DpdkWire E}.
Context (stack : tcp_stack) (rxqs : list queue) (control_txq data_txq : queue).

(** [f_ring]: ring and overflow queue, with where each thread is inside a call on
    them; [f_in]: where the inbound thread goes on after that; [f_sent]: bytes of
    the item the outbound thread holds that are sent; [f_returned]: it has left
    its loop; [saw_in], [saw_out]: the thread has seen [stop]. *)
Record echo_fine := EchoFine {
  f_rx : impl E; f_ring : ring_threads; f_gens : list Z; f_in : inbound_pc; f_sent : Z; f_returned : bool;
  f_stop : bool; saw_in : bool; saw_out : bool }.

Definition inbound_at (st : echo_fine) (r : impl E) (g : ring_threads) (pc : inbound_pc) (saw : bool) : echo_fine :=
  EchoFine r g (f_gens st) pc (f_sent st) (f_returned st) (f_stop st) saw (saw_out st).
Definition outbound_at (st : echo_fine) (r : impl E) (g : ring_threads) (gens : list Z) (sent : Z) (returned saw : bool) : echo_fine :=
  EchoFine r g gens (f_in st) sent returned (f_stop st) (saw_in st) saw.

(** [run_inbound]: one access of the call it is in, or the next step of its loop. *)
Definition fine_inbound (n : nat) (seen : bool) (junk : list Z) (st : echo_fine) : echo_fine * list obs :=
  match job (f_ring st), f_in st with
  | Some _, pc => (inbound_at st (f_rx st) (produce n (f_ring st)) pc (saw_in st), [])
  | None, In_loop =>
    let saw := load_stop seen (saw_in st) (f_stop st) in
    if saw then (inbound_at st (f_rx st) (f_ring st) In_done saw, [])
    else (inbound_at st (f_rx st) (enter (f_ring st) (drain_prog ring_capacity)) (In_queues rxqs) saw, [])
  | None, In_queues [] => (inbound_at st (f_rx st) (f_ring st) In_loop (saw_in st), [])
  | None, In_queues (rxq :: rest) =>
    let '(burst, w) := receive_burst rxq burst_max_size (env (f_rx st)) in
    let '(evs, r) := poll stack control_txq (set_env (f_rx st) w) (omap id burst) in
    (inbound_at st r (f_ring st) (In_events rest burst evs) (saw_in st), O_event <$> evs)
  | None, In_events rest burst (ev :: evs) =>
    (inbound_at st (f_rx st) (enter (f_ring st) (λ over, handle_prog junk over ev)) (In_events rest burst evs) (saw_in st), [])
  | None, In_events rest burst [] =>
    (inbound_at st (set_env (f_rx st) (burst_dtor burst (env (f_rx st)))) (f_ring st) (In_queues rest) (saw_in st), [])
  | None, In_done => (st, [])
  end.

(** Whether the loop around [send] gets to load [stop]. *)
Definition asks_stop (item : work_item) (sent : Z) (r : impl E) : bool :=
  match what item with wk_data => (sent <? item_len item) && sendable stack (slots r) (item_conn item) | _ => false end.

(** The [switch] on an item, up to one [send]: how much is sent then, or that it
    is done with. *)
Definition work_on (item : work_item) (sent : Z) (stopped : bool) (r : impl E) (gens : list Z)
    : impl E * list Z * option Z * list obs :=
  match what item with
  | wk_data =>
    if (sent <? item_len item) && sendable stack (slots r) (item_conn item) && negb stopped then
      let rest := sub (item_bytes item) (Z.to_nat sent) (Z.to_nat (item_len item - sent)) in
      match send stack data_txq (slots r) (item_conn item) rest (env r) with
      | None => (r, gens, Some sent, [])
      | Some (k, s, w) => (store r s w, gens, Some (sent + k), [O_sent (item_conn item) (take (Z.to_nat k) rest)])
      end
    else (r, gens, None, [])
  | wk_peer_closed | wk_reset =>
    let conn := item_conn item in
    let '(gens', (s, w)) := close_once stack data_txq conn gens (slots r) (env r) in
    (store r s w, gens', None, if negb (gens !!! Z.to_nat (cid_slot conn) =? cid_generation conn) then [O_close conn] else [])
  end.

(** [run_outbound]: one access of [front] or [pop], the loop's condition, or one
    round of work on the item it holds, read from its slot. *)
Definition fine_outbound (n : nat) (seen : bool) (st : echo_fine) : echo_fine * list obs :=
  let r := f_rx st in
  match taker (f_ring st) with
  | Fronting _ => (outbound_at st r (consume n (f_ring st)) (f_gens st) 0 (f_returned st) (saw_out st), [])
  | Popping _ => (outbound_at st r (consume n (f_ring st)) (f_gens st) (f_sent st) (f_returned st) (saw_out st), [])
  | Idle =>
    if f_returned st then (st, []) else
    let saw := load_stop seen (saw_out st) (f_stop st) in
    if saw then (outbound_at st r (f_ring st) (f_gens st) (f_sent st) true saw, [])
    else (outbound_at st r (begin (f_ring st)) (f_gens st) (f_sent st) false saw, [])
  | Holding _ =>
    match examine (f_ring st) with
    | (_, None) => (st, [])
    | (g, Some item) =>
      let saw := if asks_stop item (f_sent st) r then load_stop seen (saw_out st) (f_stop st) else saw_out st in
      let '(r', gens, sent, o) := work_on item (f_sent st) saw r (f_gens st) in
      (match sent with
       | Some k => outbound_at st r' g gens k (f_returned st) saw
       | None => outbound_at st r' (finish g) gens (f_sent st) (f_returned st) saw
       end, o)
    end
  end.

Definition fine_turn (st : echo_fine) (t : fine_tick) : echo_fine * list obs :=
  match t with
  | Fine_inbound n seen junk => fine_inbound n seen junk st
  | Fine_outbound n seen => fine_outbound n seen st
  | Fine_stop => (EchoFine (f_rx st) (f_ring st) (f_gens st) (f_in st) (f_sent st) (f_returned st) true (saw_in st) (saw_out st), [])
  end.
Fixpoint fine_run (st : echo_fine) (tr : list obs) (ts : list fine_tick) : echo_fine * list obs :=
  match ts with
  | [] => (st, tr)
  | t :: ts => let '(st, o) := fine_turn st t in fine_run st (tr ++ o) ts
  end.

(** What a step takes from outside, as in EchoLoop. *)
Definition fine_ok (st : echo_fine) (t : fine_tick) : Prop :=
  match t, job (f_ring st), f_in st with
  | Fine_inbound _ _ _, None, In_queues (rxq :: _) =>
    let '(burst, w) := receive_burst rxq burst_max_size (env (f_rx st)) in
    Forall pkt_wf (omap id burst) ∧
    ∀ i, 0 <= i < max_connections (params_ stack) →
      generation (slot (f_rx st) i) <= generation (slot (poll stack control_txq (set_env (f_rx st) w) (omap id burst)).2 i)
  | Fine_inbound _ _ junk, None, In_events _ _ (_ :: _) => Z.of_nat (length junk) = item_capacity
  | _, _, _ => True
  end.
Fixpoint fine_run_ok (st : echo_fine) (ts : list fine_tick) : Prop :=
  match ts with [] => True | t :: ts => fine_ok st t ∧ fine_run_ok (fine_turn st t).1 ts end.

(** The server after its constructor; [items] is the memory of the ring. *)
Definition fine_new (items : list work_item) (w : E) : echo_fine :=
  EchoFine (impl_new stack (replicate (Z.to_nat (max_connections (params_ stack))) new_connection) w) (new_ring items)
    (replicate (Z.to_nat (max_connections (params_ stack))) 0) In_loop 0 false false false false.

(** ** The invariant *)

(** Where the outbound thread is, seen from outside the ring. *)
Definition out_pc (st : echo_fine) : outbound_pc :=
  if f_returned st then Out_done else match taker (f_ring st) with Holding _ => Out_item (f_sent st) | _ => Out_loop end.
(** The server of EchoLoop that [st] stands for, with its queue in [s]. *)
Definition coarse (st : echo_fine) (s : server) : echo_state E := EchoState (f_rx st) s (f_in st) (out_pc st) (saw_out st).

(** [T]: all items queued so far, [k] of them finished with.  [s] holds the rest,
    and its front is in sight. *)
Record fine_inv (h0 : Z) (tr : list obs) (st : echo_fine) (T : views) (k : nat) (s : server) : Prop := {
  i_threads : (k <= length T)%nat ∧ ∃ h t, threads_ok T k (f_ring st) h t;
  i_echo : EchoServer.echo_inv stack h0 tr (coarse st s) (drop k T);
  i_gens : released_gen_ s = f_gens st;
  i_front : drop k T ≠ [] → front_item s ≠ None;
  i_taker : (f_returned st = true → taker (f_ring st) = Idle) ∧ (∀ p, taker (f_ring st) = Fronting p → saw_out st = false);
  i_stop : (saw_out st = true → f_stop st = true) ∧ (saw_in st = true → f_stop st = true) }.

(** Draining brings the front in sight. *)
Lemma drain_sight s q : pending s q → q ≠ [] → front_item (drain_overflow s) ≠ None.
Proof using.
  intros Hp Hq. destruct (drain_spec s q Hp) as [[(l & Hr & Hl & _) _ _] Hor]. destruct ring_params as [Hk Hc]. unfold front_item.
  rewrite (spsc_ring.front_spec ring_capacity 12 Hk Hc _ _ Hr). destruct l as [|x l]; [|done]. exfalso. destruct Hor as [Ho|Hn].
  - by rewrite Ho in Hl.
  - rewrite (spsc_ring.reserve_spec ring_capacity 12 Hk Hc _ _ Hr) in Hn. done.
Qed.

(** From an invariant of the whole calls to one of single accesses. *)
Lemma fine_intro h0 tr st T k s : ((k <= length T)%nat ∧ ∃ h t, threads_ok T k (f_ring st) h t) → EchoServer.echo_inv stack h0 tr (coarse st s) (drop k T) → released_gen_ s = f_gens st →
  ((f_returned st = true → taker (f_ring st) = Idle) ∧ (∀ p, taker (f_ring st) = Fronting p → saw_out st = false)) →
  ((saw_out st = true → f_stop st = true) ∧ (saw_in st = true → f_stop st = true)) → fine_inv h0 tr st T k (drain_overflow s).
Proof using.
  intros Ht Hi Hg H1 H2. pose proof (k_pend _ _ _ _ _ Hi) as Hp. split; try done.
  - apply (inv_swap stack h0 tr (coarse st s)); [done|by apply drain_spec|apply drain_gens|by apply (drain_front s (drop k T))].
  - by rewrite drain_gens.
  - by apply drain_sight.
Qed.

(** *** Items of an event *)

Lemma enqueue_all items : ∀ s q, pending s q → Forall item_ok items →
  pending (foldl enqueue s items) (q ++ (view <$> items)) ∧ released_gen_ (foldl enqueue s items) = released_gen_ s ∧
  (front_item s ≠ None → front_item (foldl enqueue s items) ≠ None).
Proof using.
  induction items as [|it items IH]; intros s q Hp Hok; [cbn; by rewrite app_nil_r|]. apply Forall_cons in Hok as [Hi Hok]. cbn [foldl].
  destruct (IH _ _ (enqueue_spec s q it Hp Hi) Hok) as (H1 & H2 & H3). rewrite <- app_assoc in H1. split; [exact H1|].
  split; [by rewrite H2, enqueue_gens|]. intros Hf. by apply H3, (enqueue_front s q).
Qed.

Lemma data_items_view fuel conn data junk : ∀ off, Z.of_nat (length junk) = item_capacity → (length data - off < fuel)%nat →
  Forall item_ok (data_items fuel conn data junk off) ∧
  ∃ bss, queued_entry <$> (view <$> data_items fuel conn data junk off) = (λ bs, (conn, Some bs)) <$> bss ∧ concat bss = drop off data.
Proof using.
  induction fuel as [|f IH]; intros off Hj Hf; [lia|]. cbn [data_items].
  destruct (Nat.ltb_spec off (length data)) as [Hlt|Hge]; [|split; [done|]; exists []; by rewrite drop_ge].
  pose proof (data_item_ok conn data junk off Hj Hlt) as Hok. cbv zeta in Hok |- *. set (n := Nat.min _ _) in *. set (it := Item _ _ _ _) in *.
  assert (Hn : (0 < n <= 2048 ∧ off + n <= length data)%nat) by (unfold n; change (Z.to_nat item_capacity) with 2048%nat; lia). clearbody n.
  destruct (IH (off + n)%nat Hj ltac:(lia)) as (H1 & bss & H2 & H3). split; [by constructor|]. exists (sub data off n :: bss). split.
  - rewrite !fmap_cons, H2. f_equal. unfold queued_entry, view, it. cbn -[wr]. do 2 f_equal. rewrite u16_id by mlia. rewrite Nat2Z.id.
    unfold wr. rewrite take_0, app_nil_l. apply take_app_length'. symmetry. apply length_sub. lia.
  - cbn. rewrite H3. unfold sub. rewrite <- drop_drop. apply take_drop.
Qed.

Lemma event_items_carry junk ev : Z.of_nat (length junk) = item_capacity →
  Forall item_ok (event_items junk ev) ∧ carries_event ev (view <$> event_items junk ev).
Proof using.
  intros Hj. assert (Hok : ∀ w, item_ok (Item w (ev_conn ev) 0 junk)) by (intros w; split; unfold item_capacity in *; cbn; lia).
  unfold carries_event, event_items, event_entry. destruct (ev_type ev); (split; [|]); try (by constructor); try (by left); try (constructor; [done|constructor]).
  - by apply data_items_view; [|lia].
  - right. destruct (data_items_view (S (length (ev_bytes ev))) (ev_conn ev) (ev_bytes ev) junk 0 Hj ltac:(lia)) as (_ & bss & H1 & H2).
    exists bss. by rewrite H1, H2.
Qed.

(** *** One round of work on an item *)

Abbreviation reachable := (reachable stack control_txq data_txq).
Abbreviation echo_inv := (EchoServer.echo_inv stack).

Definition after_work (st : echo_state E) (p : impl E * list Z * option Z * list obs) : echo_state E * list obs :=
  let '(r, gens, o, obs) := p in
  (match o with
   | Some k => set_outbound st r (set_released (srv st) gens) (Out_item k)
   | None => end_item st r (set_released (srv st) gens)
   end, obs).

(** It is the outbound thread's turn in EchoLoop. *)
Lemma run_outbound_work st it sent : outbound st = Out_item sent → front_item (srv st) = Some it →
  run_outbound stack data_txq st = after_work st (work_on it sent (stop st) (rx_ st) (released_gen_ (srv st))).
Proof using.
  intros Ho Hf. assert (Hsame : set_released (srv st) (released_gen_ (srv st)) = srv st) by (by destruct (srv st)).
  unfold run_outbound, work_on, after_work. rewrite Ho, Hf. destruct (what it).
  - destruct (_ && _ && _); [|by rewrite Hsame]. destruct (send _ _ _ _ _ _) as [[[k s] w]|]; rewrite Hsame; [done|].
    destruct st. cbn in *. by subst.
  - by destruct (close_once _ _ _ _ _ _) as [gens [s w]].
  - by destruct (close_once _ _ _ _ _ _) as [gens [s w]].
Qed.

(** It depends on what is used of the item only. *)
Lemma work_view it it' sent b r gens : view it = view it' → item_ok it → item_ok it' → 0 <= sent →
  work_on it sent b r gens = work_on it' sent b r gens ∧ asks_stop it sent r = asks_stop it' sent r.
Proof using.
  intros Hv [Hl Hb] [Hl' Hb'] H0. unfold view in Hv. injection Hv as Hw Hc Ht.
  assert (Hlen : item_len it = item_len it') by (apply (f_equal length) in Ht; rewrite !length_take in Ht; lia).
  assert (Hsub : ∀ i : work_item, sub (item_bytes i) (Z.to_nat sent) (Z.to_nat (item_len i - sent)) =
    drop (Z.to_nat sent) (take (Z.to_nat (item_len i)) (item_bytes i))) by (intros i; unfold sub; rewrite skipn_firstn_comm; f_equal; lia).
  unfold work_on, asks_stop. by rewrite !Hsub, Ht, Hw, Hc, Hlen.
Qed.

Lemma inv_item h0 tr st q it sent : stack_ok stack → echo_inv h0 tr st q → reachable (rx_ st) → outbound st = Out_item sent → front_item (srv st) = Some it →
  let '(r, gens, o, obs) := work_on it sent (stop st) (rx_ st) (released_gen_ (srv st)) in
  reachable r ∧
  match o with
  | Some k => echo_inv h0 (tr ++ obs) (set_outbound st r (set_released (srv st) gens) (Out_item k)) q
  | None => ∃ q', q = view it :: q' ∧ echo_inv h0 (tr ++ obs) (end_item st r (set_released (srv st) gens)) q'
  end.
Proof using All.
  intros Hcfg Hinv Hr Ho Hf. pose proof (run_outbound_work st it sent Ho Hf) as Hrun.
  pose proof (turn_reach stack rxqs control_txq data_txq h0 tr st q Outbound Hcfg Hinv I Hr) as Hr'. cbn [echo_turn] in Hr'. rewrite Hrun in Hr'.
  assert (Hsame : set_released (srv st) (released_gen_ (srv st)) = srv st) by (by destruct (srv st)).
  destruct (decide (what it = wk_data)) as [Hw|Hw].
  - unfold work_on, after_work in *. rewrite Hw in *. destruct (_ && _ && _) eqn:Hg.
    + pose proof Hg as Hg'. apply andb_prop in Hg' as [[H1%Z.ltb_lt H2]%andb_prop _].
      destruct (send _ _ _ _ _ _) as [[[k s] w]|] eqn:Es; rewrite Hsame; (split; [exact Hr'|]); [by eapply inv_send|].
      rewrite app_nil_r. destruct st. cbn in *. by subst.
    + split; [exact Hr'|]. rewrite Hsame, app_nil_r. by eapply inv_end_data.
  - destruct (inv_end_close stack rxqs control_txq data_txq h0 tr st q it sent Hcfg Hinv Ho Hf Hw) as (q' & -> & Hx). rewrite Hrun in Hx.
    assert (Hnone : (work_on it sent (stop st) (rx_ st) (released_gen_ (srv st))).1.2 = None)
      by (unfold work_on; destruct (what it); [done|..]; by destruct (close_once _ _ _ _ _ _) as [gens [s w]]).
    destruct (work_on _ _ _ _ _) as [[[r gens] o] obs]. cbn in Hnone. subst o. split; [exact Hr'|]. by exists q'.
Qed.

(** *** Every step *)

Lemma produce_taker n g : taker (produce n g) = taker g.
Proof using. unfold produce. repeat case_match; done. Qed.
Lemma enter_taker g p : taker (enter g p) = taker g.
Proof using. unfold enter. by case_match. Qed.
Lemma consume_fronting n g p : taker g = Fronting p → ∀ p', taker (consume n g) ≠ Popping p'.
Proof using. intros Hg p'. unfold consume. rewrite Hg. repeat case_match; cbn; congruence. Qed.
Lemma consume_popping n g p : taker g = Popping p → taker (consume n g) = Idle ∨ ∃ p', taker (consume n g) = Popping p'.
Proof using. intros Hg. unfold consume. rewrite Hg. repeat case_match; cbn; eauto. Qed.

(** A step of the inbound thread that leaves the outbound thread alone. *)
Lemma inbound_intro h0 tr tr' st T k s X r g pc saw s' : fine_inv h0 tr st T k s → (∃ h t, threads_ok (T ++ X) k g h t) → taker g = taker (f_ring st) →
  released_gen_ s' = f_gens st → (saw = true → f_stop st = true) →
  echo_inv h0 tr' (set_inbound (coarse st s) r s' pc) (drop k T ++ X) →
  fine_inv h0 tr' (inbound_at st r g pc saw) (T ++ X) k (drain_overflow s').
Proof using.
  intros [[Hl _] _ _ _ Ht Hs] Hth Hg Hgen Hsaw Hi. apply fine_intro; cbn [f_ring inbound_at f_gens f_returned saw_out saw_in f_stop].
  - split; [rewrite length_app; lia|done].
  - rewrite drop_app_le by done. unfold coarse, set_inbound, out_pc in *. cbn in *. by rewrite Hg.
  - done.
  - by rewrite Hg.
  - split; [apply Hs|done].
Qed.

(** The same, and the queue with it. *)
Lemma inbound_same h0 tr tr' st T k s r g pc saw : fine_inv h0 tr st T k s → (∃ h t, threads_ok T k g h t) → taker g = taker (f_ring st) →
  (saw = true → f_stop st = true) → echo_inv h0 tr' (set_inbound (coarse st s) r s pc) (drop k T) →
  fine_inv h0 tr' (inbound_at st r g pc saw) T k (drain_overflow s).
Proof using.
  intros Hf Hth Hg Hsaw Hi. pose proof (inbound_intro h0 tr tr' st T k s [] r g pc saw s Hf) as Hx. rewrite !app_nil_r in Hx.
  apply Hx; try done. apply Hf.
Qed.

Lemma load_stop_true seen saw b : load_stop seen saw b = true → b = true.
Proof using. unfold load_stop. by intros [? _]%andb_prop. Qed.

Lemma fine_inbound_inv h0 tr st T k s n seen junk : stack_ok stack → fine_inv h0 tr st T k s → reachable (f_rx st) → fine_ok st (Fine_inbound n seen junk) →
  let p := fine_inbound n seen junk st in ∃ T' k' s', fine_inv h0 (tr ++ p.2) p.1 T' k' s' ∧ reachable (f_rx p.1).
Proof using All.
  intros Hcfg Hf Hr Hok. pose proof Hf as [[Hl (h & t & Hth)] Hi Hg _ _ [_ Hs]]. unfold fine_inbound, fine_ok in *.
  destruct (job (f_ring st)) as [p|] eqn:Hj.
  { cbn zeta. cbn [fst snd]. rewrite app_nil_r. exists T, k, (drain_overflow s). split; [|done].
    destruct (produce_ok T k (f_ring st) h t n Hth) as (h' & _ & Hth').
    apply (inbound_same h0 tr); [done|by exists h', t|apply produce_taker|done|]. by apply inv_pc. }
  destruct (f_in st) as [|[|rxq rest]|rest burst [|ev evs]|] eqn:Hin; cbn zeta.
  - destruct (load_stop seen (saw_in st) (f_stop st)) eqn:Hb; cbn [fst snd]; rewrite app_nil_r; exists T, k, (drain_overflow s); (split; [|done]);
      (apply (inbound_same h0 tr); [done| | |first [done|intros _; by eapply load_stop_true]|apply inv_pc; [done|by cbn; rewrite Hin|by cbn; rewrite Hin]]).
    + by exists h, t.
    + done.
    + exists h, t. rewrite <- (app_nil_r T). by apply enter_ok; [|done|apply drain_call].
    + apply enter_taker.
  - cbn [fst snd]. rewrite app_nil_r. exists T, k, (drain_overflow s). split; [|done]. apply (inbound_same h0 tr); [done|by exists h, t|done|done|].
    apply inv_pc; [done|by cbn; rewrite Hin|by cbn; rewrite Hin].
  - assert (Ht : turn_ok stack control_txq (coarse st s) (Inbound [])) by (unfold turn_ok; cbn [coarse inbound rx_]; rewrite Hin; exact Hok).
    pose proof (inv_poll stack rxqs control_txq h0 tr (coarse st s) (drop k T) rxq rest Hcfg Hi Hin Ht) as Hp. cbv zeta in Hp.
    pose proof (turn_reach stack rxqs control_txq data_txq h0 tr (coarse st s) _ (Inbound []) Hcfg Hi Ht Hr) as Hr'.
    cbn [echo_turn] in Hr'. unfold run_inbound in Hp, Hr'. cbn [coarse inbound rx_] in Hp, Hr'. rewrite Hin in Hp, Hr'.
    destruct (receive_burst rxq burst_max_size (env (f_rx st))) as [burst w]. destruct (poll _ _ _ _) as [evs r']. cbn [fst snd] in *.
    exists T, k, (drain_overflow s). split; [|exact Hr']. apply (inbound_same h0 tr); [done|by exists h, t|done|done|exact Hp].
  - cbn [fst snd]. rewrite app_nil_r. exists T, k, (drain_overflow s). split; [|eapply reachable_step; [exact Hr|apply ws_env]].
    apply (inbound_same h0 tr); [done|by exists h, t|done|done|]. apply (inv_release stack h0 tr (coarse st s)); done.
  - cbn [fst snd]. rewrite app_nil_r. destruct (event_items_carry junk ev Hok) as [Hio Hca].
    destruct (enqueue_all (event_items junk ev) s _ (k_pend _ _ _ _ _ Hi) Hio) as (Hp & Hgen & Hfr).
    eexists _, k, _. split; [|exact Hr]. apply (inbound_intro h0 tr tr st T k s (view <$> event_items junk ev) _ _ _ _ (foldl enqueue s (event_items junk ev))); [done| | | |done|].
    + exists h, t. by apply enter_ok; [|done|apply handle_call].
    + apply enter_taker.
    + by rewrite Hgen.
    + by apply (inv_queue stack h0 tr (coarse st s) _ rest burst ev).
  - cbn [fst snd]. rewrite app_nil_r. by exists T, k, s.
Qed.

Lemma load_stop_keeps seen saw b : (saw = true → b = true) → saw = true → load_stop seen saw b = true.
Proof using. intros Hb Hs. unfold load_stop. by rewrite (Hb Hs), Hs. Qed.

(** The outbound thread looks at [stop]. *)
Lemma inv_saw h0 tr st q b : echo_inv h0 tr st q → (stop st = true → b = true) → echo_inv h0 tr (EchoState (rx_ st) (srv st) (inbound st) (outbound st) b) q.
Proof using.
  intros Hi Hb. destruct b; [by apply inv_stop|]. destruct (stop st) eqn:Hs; [by discriminate Hb|]. destruct st. cbn in *. by subst.
Qed.

(** It goes from the head of its loop into [front] and back, or to an item. *)
Lemma fine_front_inv h0 tr st T k s n p : fine_inv h0 tr st T k s → taker (f_ring st) = Fronting p →
  ∃ s', fine_inv h0 tr (outbound_at st (f_rx st) (consume n (f_ring st)) (f_gens st) 0 (f_returned st) (saw_out st)) T k s'.
Proof using.
  intros [[Hl (h & t & Hth)] Hi Hg Hsight [Ht1 Ht2] Hs] Hk. destruct (consume_ok T k (f_ring st) h t n Hth) as (t' & _ & Hth').
  assert (Hret : f_returned st = false) by (destruct (f_returned st); [by rewrite Ht1 in Hk|done]). specialize (Ht2 p Hk). rewrite Hret, Ht2 in *.
  pose proof (consume_fronting n (f_ring st) p Hk) as Hnp. exists (drain_overflow s). apply fine_intro; cbn [f_ring outbound_at f_gens f_returned saw_out saw_in f_stop].
  - split; [done|by exists h, t'].
  - unfold coarse, out_pc in *. cbn [f_rx f_in f_returned f_ring f_sent saw_out outbound_at]. rewrite Hret, Hk, Ht2 in Hi.
    destruct (taker (consume n (f_ring st))) as [| |i|] eqn:Hc; [exact Hi|exact Hi| |exact Hi].
    assert (Hne : drop k T ≠ []).
    { destruct Hth' as [Hring _ Hcons]. unfold consumer_ok in Hcons. rewrite Hc in Hcons. destruct Hcons as (-> & _ & Hlt).
      pose proof (g_order _ _ _ _ _ Hring). pose proof (g_given _ _ _ _ _ Hring). intros Hd%(f_equal length). rewrite length_drop in Hd. cbn in Hd. lia. }
    specialize (Hsight Hne). destruct (front_item s) as [it|] eqn:Hf; [|done].
    exact (inv_begin stack h0 tr _ (drop k T) it Hi eq_refl eq_refl Hf).
  - done.
  - split; [done|]. done.
  - done.
Qed.

(** One round of work on the item it holds. *)
Lemma fine_item_inv h0 tr st T k s seen i n : stack_ok stack → fine_inv h0 tr st T k s → reachable (f_rx st) → taker (f_ring st) = Holding i →
  let p := fine_outbound n seen st in ∃ k' s', fine_inv h0 (tr ++ p.2) p.1 T k' s' ∧ reachable (f_rx p.1).
Proof using All.
  intros Hcfg [[Hl (h & t & Hth)] Hi Hg Hsight [Ht1 _] Hs] Hr Hk. unfold fine_outbound. rewrite Hk. cbv zeta.
  destruct (examine_ok T k (f_ring st) h t i Hth Hk) as (Hth' & it & He & Hok & HT).
  assert (Htk : taker (examine (f_ring st)).1 = Holding i) by (unfold examine; rewrite Hk; exact Hk).
  destruct (examine (f_ring st)) as [g o]. cbn [fst snd] in *. subst o.
  assert (Hret : f_returned st = false) by (destruct (f_returned st); [by rewrite Ht1 in Hk|done]).
  assert (Hd : drop k T = view it :: drop (S k) T) by (by apply drop_S).
  set (saw := if asks_stop it (f_sent st) (f_rx st) then _ else _).
  assert (Hsaw : (saw_out st = true → saw = true) ∧ (saw = true → f_stop st = true)).
  { unfold saw. destruct (asks_stop _ _ _); [|by split; [|apply Hs]]. split; [apply load_stop_keeps, Hs|apply load_stop_true]. }
  clearbody saw. destruct Hsaw as [Hsaw1 Hsaw2]. pose proof (inv_saw h0 tr (coarse st s) _ saw Hi Hsaw1) as Hi1. clear Hi.
  unfold coarse, out_pc in Hi1. cbn [rx_ srv inbound outbound] in Hi1. rewrite Hret, Hk in Hi1.
  destruct (k_busy _ _ _ _ _ Hi1 (f_sent st) eq_refl) as (_ & H0 & _).
  specialize (Hsight ltac:(by rewrite Hd)). destruct (front_item s) as [it'|] eqn:Hf; [|done].
  pose proof (front_item_spec s _ (k_pend _ _ _ _ _ Hi1)) as Hq. rewrite Hf in Hq. destruct Hq as (rest & Hq & Hok' & _).
  assert (Hv : view it = view it') by congruence.
  pose proof (inv_item h0 tr _ _ it' (f_sent st) Hcfg Hi1 Hr eq_refl Hf) as Hit. cbn [stop rx_ srv] in Hit. rewrite Hg in Hit.
  rewrite <- (proj1 (work_view it it' (f_sent st) saw (f_rx st) (f_gens st) Hv Hok Hok' H0)) in Hit.
  destruct (work_on it (f_sent st) saw (f_rx st) (f_gens st)) as [[[r gens] [k'|]] obs]; cbn [fst snd]; destruct Hit as [Hr' Hit].
  - eexists k, _. split; [|exact Hr']. apply (fine_intro h0 _ _ T k (set_released s gens)); cbn [f_ring outbound_at f_gens f_returned saw_out saw_in f_stop];
      [split; [done|by exists h, t]| |done|rewrite Hret, Htk; done|by split; [|apply Hs]].
    unfold coarse, out_pc. cbn [f_rx f_in f_returned f_ring f_sent saw_out outbound_at]. rewrite Hret, Htk. exact Hit.
  - destruct Hit as (q' & Hq' & Hit). assert (q' = drop (S k) T) as -> by congruence.
    assert (Hfin : taker (finish g) = Popping pop_prog) by (unfold finish; by rewrite Htk).
    eexists (S k), _. split; [|exact Hr']. apply (fine_intro h0 _ _ T (S k) (pop_item (set_released s gens)));
      cbn [f_ring outbound_at f_gens f_returned saw_out saw_in f_stop];
      [split; [by apply lookup_lt_Some in HT|exists h, t; by apply (finish_ok _ _ _ _ _ i)]| |done|rewrite Hret, Hfin; done|by split; [|apply Hs]].
    unfold coarse, out_pc. cbn [f_rx f_in f_returned f_ring f_sent saw_out outbound_at]. rewrite Hret, Hfin. exact Hit.
Qed.

Lemma fine_outbound_inv h0 tr st T k s n seen : stack_ok stack → fine_inv h0 tr st T k s → reachable (f_rx st) →
  let p := fine_outbound n seen st in ∃ k' s', fine_inv h0 (tr ++ p.2) p.1 T k' s' ∧ reachable (f_rx p.1).
Proof using All.
  intros Hcfg Hf Hr. destruct (taker (f_ring st)) as [|p|i|p] eqn:Hk; [| |by eapply fine_item_inv|].
  - pose proof Hf as [[Hl (h & t & Hth)] Hi Hg _ [Ht1 _] Hs]. unfold fine_outbound. rewrite Hk. destruct (f_returned st) eqn:Hret.
    { cbn zeta. cbn [fst snd]. rewrite app_nil_r. by exists k, s. }
    unfold coarse, out_pc in Hi. rewrite Hret, Hk in Hi. cbn zeta.
    destruct (load_stop seen (saw_out st) (f_stop st)) eqn:Hb; cbn [fst snd]; rewrite app_nil_r; exists k, (drain_overflow s); (split; [|exact Hr]);
      apply fine_intro; cbn [f_ring outbound_at f_gens f_returned saw_out saw_in f_stop]; try done.
    + split; [done|by exists h, t].
    + unfold coarse, out_pc. cbn [f_rx f_in f_returned f_ring f_sent saw_out outbound_at].
      exact (inv_out stack h0 tr _ _ Out_done (inv_stop stack h0 tr _ _ Hi) ltac:(done) ltac:(done)).
    + split; [done|]. by rewrite Hk.
    + split; [by intros _; eapply load_stop_true|apply Hs].
    + split; [done|]. exists h, t. by apply begin_ok.
    + unfold coarse, out_pc. cbn [f_rx f_in f_returned f_ring f_sent saw_out outbound_at].
      assert (Ho : saw_out st = false).
      { destruct (saw_out st); [|done]. by rewrite (load_stop_keeps seen true (f_stop st) (proj1 Hs) eq_refl) in Hb. }
      unfold begin. rewrite Hk. cbn [taker set_taker]. by rewrite Ho in Hi.
    + by split; [|apply Hs].
  - destruct (fine_front_inv h0 tr st T k s n p Hf Hk) as [s' Hx]. unfold fine_outbound. rewrite Hk. cbn zeta. cbn [fst snd]. rewrite app_nil_r. by exists k, s'.
  - pose proof Hf as [[Hl (h & t & Hth)] Hi Hg _ [Ht1 _] Hs]. unfold fine_outbound. rewrite Hk. cbn zeta. cbn [fst snd]. rewrite app_nil_r.
    assert (Hret : f_returned st = false) by (destruct (f_returned st); [by rewrite Ht1 in Hk|done]).
    destruct (consume_ok T k (f_ring st) h t n Hth) as (t' & _ & Hth'). exists k, (drain_overflow s). split; [|exact Hr].
    pose proof (consume_popping n (f_ring st) p Hk) as Hc. unfold coarse, out_pc in Hi. rewrite Hret, Hk in Hi.
    apply fine_intro; cbn [f_ring outbound_at f_gens f_returned saw_out saw_in f_stop]; try done.
    + split; [done|by exists h, t'].
    + unfold coarse, out_pc. cbn [f_rx f_in f_returned f_ring f_sent saw_out outbound_at]. rewrite Hret. by destruct Hc as [->|[p' ->]].
    + rewrite Hret. split; [done|]. by destruct Hc as [->|[p' ->]].
Qed.

Lemma fine_turn_inv h0 tr st T k s t : stack_ok stack → fine_inv h0 tr st T k s → reachable (f_rx st) → fine_ok st t →
  ∃ T' k' s', fine_inv h0 (tr ++ (fine_turn st t).2) (fine_turn st t).1 T' k' s' ∧ reachable (f_rx (fine_turn st t).1).
Proof using All.
  intros Hcfg Hf Hr Hok. destruct t as [n seen junk|n seen|]; cbn [fine_turn].
  - by apply (fine_inbound_inv h0 tr st T k s).
  - exists T. by apply (fine_outbound_inv h0 tr st T k s).
  - cbn [fst snd]. rewrite app_nil_r. exists T, k, s. split; [|done]. destruct Hf as [H1 H2 H3 H4 H5 [H6 H7]]. by split.
Qed.

Lemma fine_run_inv h0 ts : stack_ok stack → ∀ tr st T k s, fine_inv h0 tr st T k s → reachable (f_rx st) → fine_run_ok st ts →
  ∃ T' k' s', fine_inv h0 (fine_run st tr ts).2 (fine_run st tr ts).1 T' k' s' ∧ reachable (f_rx (fine_run st tr ts).1).
Proof using All.
  intros Hcfg. induction ts as [|t ts IH]; intros tr st T k s Hf Hr Hok; [by exists T, k, s|]. destruct Hok as [Ht Hok].
  destruct (fine_turn_inv h0 tr st T k s t Hcfg Hf Hr Ht) as (T' & k' & s' & Hf' & Hr'). cbn [fine_run]. destruct (fine_turn st t) as [st' o].
  by eapply IH.
Qed.

Lemma fine_new_inv items (w : E) : stack_ok stack → length items = Z.to_nat ring_capacity → Forall bytes_ok items →
  fine_inv (held w) [] (fine_new items w) [] 0 (idle_server (Z.to_nat (max_connections (params_ stack)))).
Proof using All.
  intros Hcfg Hl Hb. split; try done.
  - split; [done|]. exists 0%nat, 0%nat. by apply new_ring_ok.
  - exact (new_inv stack rxqs control_txq data_txq w Hcfg).
Qed.

(** C4. The echo server echoes at the grain of single ring accesses:
    however each access of [handle] and [drain_overflow] to the ring's counters
    and slots falls among the outbound thread's accesses in [front] and [pop]
    and its work on items in their slots, and whichever old values of the
    other's counter and of [stop] the loads return, no slot is raced on; for
    every connection the bytes reported as received are those taken by
    [tcp_sender::send] followed by those still queued (between calls: in the
    ring, then in the overflow queue), unless the peer reset the connection or
    the server was stopped, and then they are a prefix; every connection is
    closed at most once, and one whose peer ended it is closed or queued for
    it; no mbuf is lost; and the stack is in a state its own calls reach. *)
Theorem echo_fine_returns_stream items (w : E) ts : stack_ok stack → length items = Z.to_nat ring_capacity → Forall bytes_ok items →
  fine_run_ok (fine_new items w) ts →
  let '(st, tr) := fine_run (fine_new items w) [] ts in
  racy (mem (f_ring st)) = false ∧
  reachable (f_rx st) ∧
  held (env (f_rx st)) = held w + owned (in_scope (f_in st)) ∧
  NoDup (closes tr) ∧
  ∃ q, (between_calls (f_ring st) → q = in_ring (mem (f_ring st)) ++ (view <$> overflow (f_ring st))) ∧
    (∀ e, e ∈ events_in tr → owes_close (ev_type e) → ev_conn e ∈ closes tr ∨ (ev_conn e, None) ∈ entries q (f_in st)) ∧
    ∀ a, received a tr = echoed a tr ++ unsent a (sent_of (out_pc st)) (entries q (f_in st)) ∨
         echoed a tr `prefix_of` received a tr ∧ (was_reset a tr ∨ f_stop st = true).
Proof using All.
  intros Hcfg Hl Hb Hok.
  destruct (fine_run_inv (held w) ts Hcfg [] _ [] 0%nat _ (fine_new_inv items w Hcfg Hl Hb) ltac:(exists w; constructor) Hok) as (T & k & s & Hf & Hr).
  destruct (fine_run _ _ _) as [st tr]. cbn [fst snd] in *. destruct Hf as [[_ (h & t & Hth)] Hi _ _ _ [Hs _]].
  pose proof (k_ids _ _ _ _ _ Hi) as Hids. split; [apply (th_ring _ _ _ _ _ Hth)|]. split; [exact Hr|]. split; [apply (k_held _ _ _ _ _ Hi)|].
  split; [apply Hids|]. exists (drop k T). split; [by apply threads_queue with (1 := Hth)|]. split; [apply Hids|].
  intros a. destruct (k_bytes _ _ _ _ _ Hi a) as [?|[? [[_ ?]|[? _]]]]; [by left|right..]; (split; [done|]); [by left|right; by apply Hs].
Qed.
End fine.

(** ** A run: a peer connects, says "hi" and closes, while the outbound thread
    keeps looking at the ring *)

Section fine_demo.
#[local] Existing Instances sim.ops sim.laws sim.account sim.wires.
Abbreviation rxqs := [ {| q_port := 0; q_id := 0 |} ].
Abbreviation fine_turn := (fine_turn demo.stack rxqs demo.control_txq demo.data_txq).
Abbreviation fine_run := (fine_run demo.stack rxqs demo.control_txq demo.data_txq).

Definition fine_okb (st : echo_fine (E := sim.env)) (t : fine_tick) : bool :=
  match t, job (f_ring st), f_in st with
  | Fine_inbound _ _ _, None, In_queues (rxq :: _) =>
    let '(burst, w) := receive_burst rxq burst_max_size (env (f_rx st)) in
    forallb demo.wfb (omap id burst) &&
    forallb (λ i, generation (slot (f_rx st) i) <=?
               generation (slot (poll demo.stack demo.control_txq (set_env (f_rx st) w) (omap id burst)).2 i)) [0; 1]
  | Fine_inbound _ _ junk, None, In_events _ _ (_ :: _) => Z.of_nat (length junk) =? item_capacity
  | _, _, _ => true
  end.
Fixpoint fine_run_okb (st : echo_fine) (ts : list fine_tick) : bool :=
  match ts with [] => true | t :: ts => fine_okb st t && fine_run_okb (fine_turn st t).1 ts end.
Lemma fine_run_okb_ok st ts : fine_run_okb st ts = true → fine_run_ok demo.stack rxqs demo.control_txq demo.data_txq st ts.
Proof.
  revert st. induction ts as [|t ts IH]; intros st; [done|]. cbn [fine_run_okb fine_run_ok]. intros [Ht Hr]%andb_prop. split; [|by apply IH].
  unfold fine_okb in Ht. unfold fine_ok. destruct t as [n seen junk| |]; [|done..]. destruct (job (f_ring st)); [done|].
  destruct (f_in st) as [|[|rxq rest]|rest burst [|ev evs]|]; try done; [|by apply Z.eqb_eq].
  destruct (receive_burst _ _ _) as [burst w]. apply andb_prop in Ht as [Hw Hg]. split; [by apply demo.wfb_all|].
  intros i Hi. cbn in Hi. cbn [forallb] in Hg. apply andb_prop in Hg as [H0 [H1 _]%andb_prop].
  assert (Hc : i = 0 ∨ i = 1) by lia. destruct Hc as [-> | ->]; by apply Z.leb_le.
Qed.

Definition fine_schedule : list fine_tick :=
  concat (replicate 25 [Fine_inbound 0 false (replicate 2048 7); Fine_outbound 1 false]) ++ replicate 11 (Fine_outbound 2 false).
Definition fine_outcome : echo_fine * list obs := fine_run (fine_new demo.stack ring_demo.before arrivals) [] fine_schedule.
Lemma fine_schedule_ok : fine_run_ok demo.stack rxqs demo.control_txq demo.data_txq (fine_new demo.stack ring_demo.before arrivals) fine_schedule.
Proof. apply fine_run_okb_ok. vm_compute. reflexivity. Qed.

(** "hi" is received, comes back, and the connection is closed; the queue is
    empty then. *)
Lemma echo_fine_returns_stream_witness :
  received demo.conn fine_outcome.2 = [104; 105] ∧ echoed demo.conn fine_outcome.2 = [104; 105] ∧ closes fine_outcome.2 = [demo.conn] ∧
  racy (mem (f_ring fine_outcome.1)) = false ∧
  ∃ q, q = in_ring (mem (f_ring fine_outcome.1)) ++ (view <$> overflow (f_ring fine_outcome.1)) ∧
    (received demo.conn fine_outcome.2 = echoed demo.conn fine_outcome.2 ++ unsent demo.conn 0 (entries q (f_in fine_outcome.1)) ∨
     was_reset demo.conn fine_outcome.2 ∨ f_stop fine_outcome.1 = true).
Proof.
  assert (Hr : received demo.conn fine_outcome.2 = [104; 105]) by (vm_compute; reflexivity).
  assert (He : echoed demo.conn fine_outcome.2 = [104; 105]) by (vm_compute; reflexivity).
  assert (Hc : closes fine_outcome.2 = [demo.conn]) by (vm_compute; reflexivity).
  assert (Hj : job (f_ring fine_outcome.1) = None) by (vm_compute; reflexivity).
  assert (Ht : taker (f_ring fine_outcome.1) = Idle) by (vm_compute; reflexivity).
  assert (Hl : length ring_demo.before = Z.to_nat ring_capacity) by (exact (length_replicate 4096 (ring_demo.it 99))).
  assert (Hb : Forall bytes_ok ring_demo.before) by (apply Forall_replicate, ring_demo.it_ok).
  pose proof (echo_fine_returns_stream demo.stack rxqs demo.control_txq demo.data_txq ring_demo.before arrivals fine_schedule demo_ok Hl Hb fine_schedule_ok) as Hx.
  revert Hr He Hc Hj Ht Hx. unfold fine_outcome. destruct (fine_run _ _ _) as [st tr]. cbn [fst snd].
  intros Hr He Hc Hj Ht (H1 & _ & _ & _ & q & H2 & _ & H3). split; [exact Hr|]. split; [exact He|]. split; [exact Hc|]. split; [exact H1|].
  exists q. split; [apply H2; split; [exact Hj|left; exact Ht]|]. unfold out_pc in H3. rewrite Ht in H3.
  assert (Hz : sent_of (if f_returned st then Out_done else Out_loop) = 0%nat) by (by destruct (f_returned st)). rewrite Hz in H3.
  destruct (H3 demo.conn) as [Hq|[_ Hq]]; [left; exact Hq|right; exact Hq].
Defined.
End fine_demo.
