(* ===== verification/EchoStop.v ===== *)
(** * The echo server stops

    What a [stop] request does (examples/tcp_echo_server.h, lines 108-153;
    examples/tcp_echo.cpp joins both threads after it): however long a peer
    keeps its window closed and however much keeps arriving, each thread leaves
    its loop after a bounded number of its own turns, and nothing is held then. *)

From S2P Require Import Prelude Probing FlowTable Dpdk DpdkSim Packet Headers Segment SegmentWire SeqArith TcpState TcpReceiver.
From S2P Require Import TcpConn TcpInv TcpPoll TcpSender TcpValues TcpSystem TcpSetup Scenario Echo TcpIds EchoLoop EchoInv EchoServer.

(** Turns left after the request: a queue takes one poll, one turn for each of
    at most 96 events, and one to let the burst go. *)
Definition turns_per_queue : nat := 98.
Definition inbound_left (pc : inbound_pc) : nat :=
  match pc with
  | In_done => 0
  | In_loop => 1
  | In_queues rest => 2 + length rest * turns_per_queue
  | In_events rest _ evs => 3 + length evs + length rest * turns_per_queue
  end.
Definition outbound_left (pc : outbound_pc) : nat := match pc with Out_done => 0 | Out_loop => 1 | Out_item _ => 2 end.

Fixpoint inbound_turns (ts : list tick) : nat :=
  match ts with [] => 0 | Inbound _ :: ts => S (inbound_turns ts) | _ :: ts => inbound_turns ts end.
Fixpoint outbound_turns (ts : list tick) : nat :=
  match ts with [] => 0 | Outbound :: ts => S (outbound_turns ts) | _ :: ts => outbound_turns ts end.

Section stop.
Context {E : Type} `{DpdkOps E} `{!DpdkLaws E} `{!DpdkAccount E} `{!DpdkWire E}.
Context (stack : tcp_stack) (rxqs : list queue) (control_txq data_txq : queue).
Abbreviation echo_turn := (echo_turn stack rxqs control_txq data_txq).
Abbreviation echo_run := (echo_run stack rxqs control_txq data_txq).
Abbreviation turn_ok := (turn_ok stack control_txq).
Abbreviation run_ok := (run_ok stack rxqs control_txq data_txq).
Abbreviation echo_inv := (echo_inv stack).
Abbreviation all_turns := (2 + length rxqs * turns_per_queue)%nat.

Lemma echo_run_app st tr ts ts' : echo_run st tr (ts ++ ts') = echo_run (echo_run st tr ts).1 (echo_run st tr ts).2 ts'.
Proof using.
  revert st tr. induction ts as [|t ts IH]; intros st tr; [done|]. cbn [app EchoLoop.echo_run]. destruct (echo_turn st t) as [st' o]. apply IH.
Qed.
Lemma run_ok_app st tr ts ts' : run_ok st (ts ++ ts') → run_ok st ts ∧ run_ok (echo_run st tr ts).1 ts'.
Proof using.
  revert st tr. induction ts as [|t ts IH]; intros st tr Hok; [done|]. cbn [app EchoLoop.run_ok EchoLoop.echo_run] in *. destruct Hok as [Ht Hok].
  destruct (echo_turn st t) as [st' o]. destruct (IH st' (tr ++ o) Hok). done.
Qed.

(** A turn of the inbound thread brings it nearer to the head of its loop, and
    out of it from there once [stop] is set. *)
Lemma inbound_nearer h0 tr st q junk : stack_ok stack → echo_inv h0 tr st q → turn_ok st (Inbound junk) →
  let pc := inbound (echo_turn st (Inbound junk)).1 in
  inbound st = In_loop ∧ stop st = false ∧ pc = In_queues rxqs ∨ (inbound_left pc <= pred (inbound_left (inbound st)))%nat.
Proof using All.
  intros Hcfg Hinv Hok. cbn [EchoLoop.echo_turn]. unfold EchoLoop.turn_ok, run_inbound in *.
  destruct (inbound st) as [|[|rxq rest]|rest burst [|ev evs]|] eqn:Hin; cbn [fst set_inbound inbound inbound_left length]; try (right; lia).
  - destruct (stop st); [right; done|by left].
  - right. pose proof (received_burst rxq (env (rx_ st))) as Hb. destruct (receive_burst rxq burst_max_size (env (rx_ st))) as [burst w].
    destruct Hok as [Hwf _], Hb as [Hlen _]. destruct (sys_env stack (rx_ st) w (k_sys _ _ _ _ _ Hinv)) as [[m Hi] Hq _].
    pose proof (poll_events_bound stack control_txq m (set_env (rx_ st) w) (omap id burst) Hi Hq (proj2 (ck_n _ Hcfg)) Hwf) as He.
    destruct (poll _ _ _ _) as [evs r']. cbn [fst set_inbound inbound inbound_left] in *. unfold burst_max_size, turns_per_queue in *. lia.
  - rewrite Hin. right. done.
Qed.

Lemma inbound_bounded h0 tr st q t : stack_ok stack → echo_inv h0 tr st q → turn_ok st t → (inbound_left (inbound st) <= all_turns)%nat →
  (inbound_left (inbound (echo_turn st t).1) <= all_turns)%nat.
Proof using All.
  intros Hcfg Hinv Hok Hb. destruct t as [junk| |].
  - destruct (inbound_nearer h0 tr st q junk Hcfg Hinv Hok) as [(_ & _ & ->)|Hl]; [done|lia].
  - cbn [EchoLoop.echo_turn]. unfold run_outbound. repeat case_match; try done; cbn; done.
  - done.
Qed.

Lemma outbound_nearer h0 tr st q : echo_inv h0 tr st q → stop st = true →
  (outbound_left (outbound (echo_turn st Outbound).1) <= pred (outbound_left (outbound st)))%nat.
Proof using.
  intros Hinv Hs. cbn [EchoLoop.echo_turn]. destruct (outbound st) as [|sent|] eqn:Ho.
  - unfold run_outbound. rewrite Ho, Hs. by destruct (front_item (srv st)).
  - destruct (k_busy _ _ _ _ _ Hinv sent Ho) as [Hf _]. destruct (front_item (srv st)) as [it|] eqn:Ef; [|done].
    unfold run_outbound. rewrite Ho, Ef, Hs, andb_false_r. destruct (what it); [done|..]; by destruct (close_once _ _ _ _ _ _) as [gens [s w]].
  - unfold run_outbound. rewrite Ho. destruct (front_item (srv st)); cbn; by rewrite ?Ho.
Qed.

(** Neither thread moves the other, and [stop] stays. *)
Lemma others_stay st t : (∀ junk, t ≠ Inbound junk) → inbound (echo_turn st t).1 = inbound st.
Proof using. intros Ht. destruct t as [junk| |]; [by destruct (Ht junk)| |done]. cbn. unfold run_outbound. repeat case_match; try done; by cbn. Qed.
Lemma outbound_stays st t : t ≠ Outbound → outbound (echo_turn st t).1 = outbound st.
Proof using. intros Ht. destruct t as [junk| |]; [|done|done]. cbn. unfold run_inbound. repeat case_match; done. Qed.
Lemma stop_stays st t : stop st = true → stop (echo_turn st t).1 = true.
Proof using. intros Hs. destruct t as [junk| |]; [| |done]; cbn; unfold run_inbound, run_outbound; repeat case_match; try done; by cbn. Qed.

Lemma run_stops h0 ts : stack_ok stack → ∀ tr st q, echo_inv h0 tr st q → stop st = true → run_ok st ts →
  let st' := (echo_run st tr ts).1 in
  (inbound_left (inbound st') <= inbound_left (inbound st) - inbound_turns ts)%nat ∧
  (outbound_left (outbound st') <= outbound_left (outbound st) - outbound_turns ts)%nat.
Proof using All.
  intros Hcfg. induction ts as [|t ts IH]; intros tr st q Hinv Hs Hok; [cbn; lia|]. destruct Hok as [Ht Hok].
  destruct (turn_inv stack rxqs control_txq data_txq h0 tr st q t Hcfg Hinv Ht) as [q' Hinv']. pose proof (stop_stays st t Hs) as Hs'.
  assert (Hin : (inbound_left (inbound (echo_turn st t).1) <= inbound_left (inbound st) - inbound_turns [t])%nat).
  { destruct t as [junk| |]; [|by rewrite others_stay; [cbn; lia|done]..].
    destruct (inbound_nearer h0 tr st q junk Hcfg Hinv Ht) as [(_ & Hf & _)|Hl]; [congruence|]. cbn [inbound_turns]. lia. }
  assert (Hout : (outbound_left (outbound (echo_turn st t).1) <= outbound_left (outbound st) - outbound_turns [t])%nat).
  { destruct t as [junk| |]; [by rewrite outbound_stays; [cbn; lia|done]| |by rewrite outbound_stays; [cbn; lia|done]].
    pose proof (outbound_nearer h0 tr st q Hinv Hs). cbn [outbound_turns]. lia. }
  specialize (IH (tr ++ (echo_turn st t).2) (echo_turn st t).1 q' Hinv' Hs' Hok). cbn [EchoLoop.echo_run]. destruct (echo_turn st t) as [st' o].
  cbn [fst snd] in *. destruct t; cbn [inbound_turns outbound_turns] in *; lia.
Qed.

Lemma run_bounded h0 ts : stack_ok stack → ∀ tr st q, echo_inv h0 tr st q → run_ok st ts → (inbound_left (inbound st) <= all_turns)%nat →
  (inbound_left (inbound (echo_run st tr ts).1) <= all_turns)%nat.
Proof using All.
  intros Hcfg. induction ts as [|t ts IH]; intros tr st q Hinv Hok Hb; [done|]. destruct Hok as [Ht Hok].
  destruct (turn_inv stack rxqs control_txq data_txq h0 tr st q t Hcfg Hinv Ht) as [q' Hinv'].
  pose proof (inbound_bounded h0 tr st q t Hcfg Hinv Ht Hb) as Hb'. cbn [EchoLoop.echo_run]. destruct (echo_turn st t) as [st' o]. by eapply IH.
Qed.

(** C6. The echo server stops: whatever happened before and whatever
    arrives afterwards, also while a peer keeps its window closed, once [stop]
    is set the inbound thread leaves its loop within two turns and 98 for every
    receive queue, the outbound thread within two, however their turns fall;
    both can be joined, and the server then holds no mbuf it did not hold at
    the start. *)
Theorem echo_stops (w : E) ts ts' : stack_ok stack → run_ok (echo_new stack w) (ts ++ Stop :: ts') →
  (2 + 98 * length rxqs <= inbound_turns ts')%nat → (2 <= outbound_turns ts')%nat →
  let '(st, _) := echo_run (echo_new stack w) [] (ts ++ Stop :: ts') in
  inbound st = In_done ∧ outbound st = Out_done ∧ held (env (rx_ st)) = held w.
Proof using All.
  intros Hcfg Hok Hin Hout. pose proof (reached_inv stack rxqs control_txq data_txq w _ Hcfg Hok) as Hend.
  rewrite echo_run_app in *. destruct (run_ok_app (echo_new stack w) [] ts (Stop :: ts') Hok) as [Hok1 [_ Hok2]].
  destruct (run_inv stack rxqs control_txq data_txq (held w) [] _ [] ts Hcfg (new_inv stack rxqs control_txq data_txq w Hcfg) Hok1) as [q1 Hinv1].
  assert (Hb : (inbound_left (inbound (echo_run (echo_new stack w) [] ts).1) <= all_turns)%nat).
  { apply (run_bounded (held w) ts Hcfg [] _ []); [by apply (new_inv stack rxqs control_txq data_txq)|done|cbn; lia]. }
  destruct (echo_run (echo_new stack w) [] ts) as [st1 tr1]. cbn [fst snd EchoLoop.echo_run EchoLoop.echo_turn] in *. rewrite app_nil_r in *.
  pose proof (inv_stop stack (held w) tr1 st1 q1 Hinv1) as Hinv2.
  destruct (run_stops (held w) ts' Hcfg tr1 _ q1 Hinv2 eq_refl Hok2) as [H1 H2].
  destruct (echo_run _ tr1 ts') as [st tr]. cbn [fst inbound outbound] in H1, H2. destruct Hend as [q Hq].
  assert (Hdone : inbound st = In_done) by (unfold turns_per_queue in *; destruct (inbound st); cbn in H1; (done || lia)).
  split; [exact Hdone|]. split.
  - destruct (outbound st), (outbound st1); cbn in H2; (done || lia).
  - rewrite (k_held _ _ _ _ _ Hq), Hdone. change (in_scope In_done) with ([] : packet_burst). change (owned []) with 0. lia.
Qed.
End stop.

(** ** A run *)

Section stop_demo.
#[local] Existing Instances sim.ops sim.laws sim.account sim.wires.
Abbreviation rxqs := [ {| q_port := 0; q_id := 0 |} ].

(** A peer connects and sends "hi"; [stop] comes while the item is in the ring. *)
Definition stop_after : list tick := replicate 100 (Inbound (replicate 2048 7)) ++ replicate 2 Outbound.
Definition stop_schedule : list tick := replicate 4 (Inbound (replicate 2048 7)) ++ Outbound :: Stop :: stop_after.
Definition stopped : echo_state sim.env * list obs :=
  echo_run demo.stack rxqs demo.control_txq demo.data_txq (echo_new demo.stack arrivals) [] stop_schedule.

Lemma stop_schedule_ok : run_ok demo.stack rxqs demo.control_txq demo.data_txq (echo_new demo.stack arrivals) stop_schedule.
Proof. apply run_okb_ok. vm_compute. reflexivity. Qed.

Lemma echo_stops_witness : received demo.conn stopped.2 = [104; 105] ∧ echoed demo.conn stopped.2 = [] ∧
  inbound stopped.1 = In_done ∧ outbound stopped.1 = Out_done ∧ held (env (rx_ stopped.1)) = 0.
Proof.
  assert (Hr : received demo.conn stopped.2 = [104; 105]) by (vm_compute; reflexivity).
  assert (He : echoed demo.conn stopped.2 = []) by (vm_compute; reflexivity).
  assert (Hi : (2 + 98 * length rxqs <= inbound_turns stop_after)%nat) by (apply Nat.leb_le; vm_compute; reflexivity).
  assert (Ho : (2 <= outbound_turns stop_after)%nat) by (apply Nat.leb_le; vm_compute; reflexivity).
  pose proof (echo_stops demo.stack rxqs demo.control_txq demo.data_txq arrivals (replicate 4 (Inbound (replicate 2048 7)) ++ [Outbound]) stop_after demo_ok) as Hx.
  rewrite <- app_assoc in Hx. specialize (Hx stop_schedule_ok Hi Ho). revert Hr He Hx. unfold stopped, stop_schedule. cbn [app].
  destruct (echo_run _ _ _ _ _ _ _) as [st tr]. cbn [fst snd]. intros Hr He (H1 & H2 & H3). split; [exact Hr|]. split; [exact He|].
  split; [exact H1|]. split; [exact H2|exact H3].
Defined.
End stop_demo.
