(* ===== verification/EchoMain.v ===== *)
(** * The echo program (examples/tcp_echo.cpp) and the server's constructor

    The option loop of [main] with [std::stoi] as the C++ standard has it; the
    constructor of [echo::server] on a port; and [main]'s set-up sequence, with
    every error exit and the unwinding that follows.  [inet_pton], the number of
    devices, the creation of a thread and the DPDK and system calls are
    parameters.  What the two threads do is the subject of Echo.v and the files
    on top of it; they make none of the calls recorded here. *)

From Stdlib Require Import Ascii.
From stdpp Require Import strings pretty.
From S2P Require Import Prelude Dpdk Packet Port Runtime Pool Tap TcpState TcpReceiver TcpSystem TcpSetup.

#[local] Open Scope string_scope.
#[local] Open Scope list_scope.
#[local] Open Scope Z_scope.

(** ** std::stoi *)

Definition is_space (c : ascii) : bool := let n := N_of_ascii c in (n =? 32)%N || ((9 <=? n)%N && (n <=? 13)%N).
Definition digit (c : ascii) : option Z :=
  let n := Z.of_N (N_of_ascii c) in if (48 <=? n) && (n <=? 57) then Some (n - 48) else None.

Fixpoint skip_space (s : string) : string :=
  match s with String c r => if is_space c then skip_space r else s | EmptyString => s end.
(** The digits at the front, as a number after [acc]. *)
Fixpoint read_digits (acc : Z) (s : string) : Z :=
  match s with
  | String c r => match digit c with Some x => read_digits (acc * 10 + x) r | None => acc end
  | EmptyString => acc
  end.
Definition starts_with_digit (s : string) : bool :=
  match s with String c _ => bool_decide (digit c ≠ None) | EmptyString => false end.

(** [None]: it throws [std::invalid_argument] or [std::out_of_range]. *)
Definition stoi (s : string) : option Z :=
  let s := skip_space s in
  let '(neg, s) := match s with
                   | String c r => if bool_decide (c = "-"%char) then (true, r) else if bool_decide (c = "+"%char) then (false, r) else (false, s)
                   | EmptyString => (false, s) end in
  if starts_with_digit s then
    let v := if neg : bool then - read_digits 0 s else read_digits 0 s in
    if (- 2 ^ 31 <=? v) && (v <? 2 ^ 31) then Some v else None
  else None.

(** ** The options *)

Record settings := Settings { iface : string; kernel_ip : string; dpdk_ip : string; listen_port : Z }.
Definition default_settings : settings := Settings "dpdktap0" "10.77.0.1" "10.77.0.2" 9000.

Inductive args_result := args_ok (s : settings) | unknown_option | uncaught_exception.

(** [for (int i = 1; i + 1 < argc; i += 2)]: an odd last word is ignored. *)
Fixpoint parse_args (argv : list string) (s : settings) : args_result :=
  match argv with
  | flag :: value :: rest =>
    if bool_decide (flag = "--iface") then parse_args rest (Settings value (kernel_ip s) (dpdk_ip s) (listen_port s))
    else if bool_decide (flag = "--kernel-ip") then parse_args rest (Settings (iface s) value (dpdk_ip s) (listen_port s))
    else if bool_decide (flag = "--ip") then parse_args rest (Settings (iface s) (kernel_ip s) value (listen_port s))
    else if bool_decide (flag = "--port") then
      match stoi value with
      | Some v => parse_args rest (Settings (iface s) (kernel_ip s) (dpdk_ip s) (u16 v))
      | None => uncaught_exception
      end
    else unknown_option
  | _ => args_ok s
  end.

(** *** Numbers come back *)

Lemma digit_pretty x : (x < 10)%N → digit (pretty_N_char x) = Some (Z.of_N x).
Proof.
  intros Hx. assert (Hc : x = 0%N ∨ x = 1%N ∨ x = 2%N ∨ x = 3%N ∨ x = 4%N ∨ x = 5%N ∨ x = 6%N ∨ x = 7%N ∨ x = 8%N ∨ x = 9%N) by lia.
  repeat (destruct Hc as [->|Hc]; [reflexivity|]). by subst x.
Qed.

(** The digits of [x] shift the accumulator. *)
Lemma read_go x s : ∃ k, 0 <= k ∧ ∀ acc, read_digits acc (pretty_N_go x s) = read_digits (acc * 10 ^ k + Z.of_N x) s.
Proof.
  revert s. induction (N.lt_wf_0 x) as [x _ IH]; intros s. destruct (decide (0 < x)%N) as [Hx|Hx].
  - rewrite pretty_N_go_step by done. destruct (IH (x `div` 10)%N ltac:(by apply N.div_lt) (String (pretty_N_char (x `mod` 10)) s)) as (k & Hk & He).
    exists (k + 1). split; [lia|]. intros acc. rewrite He. cbn [read_digits]. rewrite digit_pretty by (by apply N.mod_lt). f_equal.
    rewrite Z.pow_add_r, N2Z.inj_div, N2Z.inj_mod by lia. pose proof (Z.div_mod (Z.of_N x) 10 ltac:(lia)). lia.
  - assert (x = 0%N) as -> by lia. exists 0. split; [lia|]. intros acc. rewrite pretty_N_go_0. f_equal. lia.
Qed.

Lemma pretty_go_first x s : (0 < x)%N → ∃ c r, pretty_N_go x s = String c r ∧ digit c ≠ None ∧ is_space c = false ∧ c ≠ "-"%char ∧ c ≠ "+"%char.
Proof.
  revert s. induction (N.lt_wf_0 x) as [x _ IH]; intros s Hx. rewrite pretty_N_go_step by done.
  destruct (decide (0 < x `div` 10)%N) as [Hd|Hd]; [apply IH; [by apply N.div_lt|done]|].
  assert (x `div` 10 = 0)%N as -> by (apply N.le_0_r, N.nlt_ge; exact Hd). rewrite pretty_N_go_0. do 2 eexists. split; [done|].
  assert (Hm : (x `mod` 10 < 10)%N) by (by apply N.mod_lt). rewrite digit_pretty by done. split; [done|].
  unfold pretty_N_char. by repeat case_match.
Qed.

Lemma stoi_pretty n : Z.of_N n < 2 ^ 31 → stoi (pretty n) = Some (Z.of_N n).
Proof.
  intros Hn. unfold pretty, pretty_N. destruct (decide (n = 0)%N) as [->|Hne]; [reflexivity|].
  destruct (pretty_go_first n "" ltac:(lia)) as (c & r & Hs & Hd & Hsp & Hm & Hp). destruct (read_go n "") as (k & _ & Hr). specialize (Hr 0).
  unfold stoi. rewrite Hs in *. cbn [skip_space]. rewrite Hsp, !bool_decide_false by done. cbn [starts_with_digit]. rewrite bool_decide_true by done.
  rewrite Hr. cbn [read_digits]. rewrite Z.mul_0_l, Z.add_0_l. rewrite (proj2 (Z.leb_le _ _)), (proj2 (Z.ltb_lt _ _)) by lia. done.
Qed.

(** A command line, as a user means it. *)
Inductive option_word := W_iface (s : string) | W_kernel_ip (s : string) | W_ip (s : string) | W_port (n : N).
Definition words (o : option_word) : list string :=
  match o with W_iface s => ["--iface"; s] | W_kernel_ip s => ["--kernel-ip"; s] | W_ip s => ["--ip"; s] | W_port n => ["--port"; pretty n] end.
Definition apply_word (s : settings) (o : option_word) : settings :=
  match o with
  | W_iface x => Settings x (kernel_ip s) (dpdk_ip s) (listen_port s)
  | W_kernel_ip x => Settings (iface s) x (dpdk_ip s) (listen_port s)
  | W_ip x => Settings (iface s) (kernel_ip s) x (listen_port s)
  | W_port n => Settings (iface s) (kernel_ip s) (dpdk_ip s) (Z.of_N n)
  end.

(** The option loop reads back any command line: options in any order
    and number, ports in decimal, give the settings in which the last value of
    each option counts and the others keep their defaults; a word left over at
    the end changes nothing. *)
Theorem parse_args_roundtrip (opts : list option_word) (extra : list string) : Forall (λ o, match o with W_port n => is_u16 (Z.of_N n) | _ => True end) opts →
  (length extra <= 1)%nat →
  parse_args ((opts ≫= words) ++ extra) default_settings = args_ok (foldl apply_word default_settings opts).
Proof.
  intros Ho He. generalize default_settings. induction Ho as [|o opts Hw _ IH]; intros s.
  { destruct extra as [|? [|? ?]]; cbn in *; done || lia. }
  rewrite bind_cons, <- app_assoc. destruct o as [x|x|x|n]; cbn [words app parse_args]; rewrite ?bool_decide_false, ?bool_decide_true by done; try apply IH.
  rewrite stoi_pretty by (unfold is_u16 in Hw; lia). rewrite u16_id by done. apply IH.
Qed.

Lemma parse_args_roundtrip_witness :
  parse_args ["--port"; "8080"; "--ip"; "10.0.0.9"; "--port"; "7"] default_settings = args_ok (Settings "dpdktap0" "10.77.0.1" "10.0.0.9" 7).
Proof.
  apply (parse_args_roundtrip [W_port 8080; W_ip "10.0.0.9"; W_port 7] []); [|cbn; lia].
  repeat apply Forall_cons_2; try apply Forall_nil_2; cbn; unfold is_u16; lia || done.
Defined.

(** ** The server's constructor *)

Inductive echo_error := from_port (e : port_error) | from_stack (e : TcpState.dpdk_error).

(** What the constructor builds; a claimed queue that was taken is a null
    pointer in [rxqs_]. *)
Record server_parts := Parts {
  sp_stack : tcp_stack; sp_slots : list tcp_connection; sp_control : queue; sp_data : queue; sp_rxqs : list (option queue) }.

(** [for (uint16_t q = 0; q < n_queues; ++q) rxqs_.push_back(p.claim_rx_queue(q));] *)
Fixpoint claim_rx_loop (todo q : nat) (s : queue_set) (rxqs : list (option queue)) : (port_error + list (option queue)) * queue_set :=
  match todo with
  | O => (inr rxqs, s)
  | S todo =>
    match claim_by_id s q with
    | inl e => (inl e, s)
    | inr (got, s) => claim_rx_loop todo (S q) s (rxqs ++ [got])
    end
  end.

Section server_new.
Context {D : Type} `{EthDev D}.

(** The port is returned also when the constructor throws: claims stay. *)
Definition server_new (p : port) (mtu : option Z) (n_queues listen_port : Z) (params : tcp_params) (d : D) : (echo_error + server_parts) * port :=
  match port_mac_address p d with
  | inl e => (inl (from_port e), p)
  | inr mac =>
    match tcp_stack_new (default 0 (port_pool_ p)) mac (ipv4_addr_ p) mtu params with
    | inl e => (inl (from_stack e), p)
    | inr (stack, slots) =>
      match claim_by_id (port_tx p) 0 with
      | inl e => (inl (from_port e), p)
      | inr (q0, tx) =>
        let p := set_port_tx p tx in
        match take_receiver stack q0 with
        | inl e => (inl (from_stack e), p)
        | inr (stack, control) =>
          match claim_by_id (port_tx p) 1 with
          | inl e => (inl (from_port e), p)
          | inr (q1, tx) =>
            let p := set_port_tx p tx in
            match take_sender stack q1 with
            | inl e => (inl (from_stack e), p)
            | inr (stack, data) =>
              match listen stack listen_port with
              | inl e => (inl (from_stack e), p)
              | inr stack =>
                let '(rxqs, rx) := claim_rx_loop (Z.to_nat n_queues) 0 (port_rx p) [] in
                let p := set_port_rx p rx in
                match rxqs with
                | inl e => (inl (from_port e), p)
                | inr rxqs => (inr (Parts stack slots control data rxqs), p)
                end
              end
            end
          end
        end
      end
    end
  end.

(** *** On a port that has just been added *)

Lemma fresh_claim qs q x : qs !! q = Some x → claim_by_id (fresh_queues qs) q = inr (Some x, QueueSet qs (<[q := true]> (replicate (length qs) false)) 0).
Proof using.
  intros Hq. pose proof (lookup_lt_Some _ _ _ Hq) as Hlt. unfold claim_by_id, fresh_queues. cbn [qs_queues qs_claimed qs_cursor].
  rewrite (proj2 (Nat.leb_gt _ _) Hlt), lookup_total_replicate_2, Hq by done. done.
Qed.

Lemma fresh_claims todo q qs claimed acc : length claimed = length qs → (todo + q <= length qs)%nat →
  (∀ j, (q <= j)%nat → (j < length qs)%nat → claimed !! j = Some false) →
  ∃ s, claim_rx_loop todo q (QueueSet qs claimed 0) acc = (inr (acc ++ (Some <$> take todo (drop q qs))), s).
Proof using.
  revert q claimed acc. induction todo as [|todo IH]; intros q claimed acc Hl Hq Hc; cbn [claim_rx_loop]; [rewrite app_nil_r; by eexists|].
  unfold claim_by_id. cbn [qs_queues qs_claimed qs_cursor]. rewrite (proj2 (Nat.leb_gt _ _)) by lia.
  rewrite (list_lookup_total_correct claimed q false) by (apply Hc; lia). destruct (lookup_lt_is_Some_2 qs q ltac:(lia)) as [x Hx]. rewrite Hx.
  destruct (IH (S q) (<[q := true]> claimed) (acc ++ [Some x])) as [s Hs]; [by rewrite length_insert|lia| |].
  - intros j Hj Hjl. rewrite list_lookup_insert_ne by lia. apply Hc; lia.
  - exists s. rewrite Hs, <- app_assoc, (drop_S qs x q Hx). done.
Qed.

(** On a port with at least two fresh queue pairs and an address the
    constructor succeeds and gives the threads what they need. *)
Lemma server_new_fresh (p : port) id (n : nat) addr mac mtu port params (d : D) :
  port_id_ p = id → port_rx p = fresh_queues (ids id 0 n) → port_tx p = fresh_queues (ids id 0 n) → ipv4_addr_ p = Some addr →
  dev_macaddr_get id d = Some mac → mac_ok mac → (2 <= n)%nat → is_u16 (max_connections params) → is_u16 (p_mss params) →
  1 <= max_connections params → 1 <= p_mss params → 41 <= default RTE_ETHER_MTU mtu <= 65521 →
  ∃ sp p', server_new p mtu (Z.of_nat n) port params d = (inr sp, p') ∧ owns_device_ p' = owns_device_ p ∧ stack_ok (sp_stack sp) ∧
    sp_control sp = {| q_port := id; q_id := 0 |} ∧ sp_data sp = {| q_port := id; q_id := 1 |} ∧ sp_rxqs sp = Some <$> ids id 0 n ∧
    listening_ (sp_stack sp) = [port] ∧ receiver_taken_ (sp_stack sp) = true ∧ sender_taken_ (sp_stack sp) = true ∧
    params_ (sp_stack sp) = params ∧ local_ip_ (sp_stack sp) = addr ∧
    sp_slots sp = replicate (Z.to_nat (max_connections params)) new_connection.
Proof using.
  intros Hid Hrx Htx Hip Hmac Hm Hn Hmc Hmss H1 H2 Hmtu. unfold server_new, port_mac_address. rewrite Hid, Hmac, Hip, Htx.
  pose proof (tcp_stack_new_spec (default 0 (port_pool_ p)) mac (Some addr) mtu params Hm Hmc Hmss Hmtu) as Hst.
  destruct (tcp_stack_new _ mac (Some addr) mtu params) as [e|[s slots]]; [naive_solver lia|].
  destruct Hst as (Hok & [= ->] & Hpar & _ & Hlis & Hrt & Hsn & Hsl).
  assert (Hl : length (ids id 0 n) = n) by (unfold ids; by rewrite length_fmap, length_seq).
  assert (Hat : ∀ j, (j < n)%nat → ids id 0 n !! j = Some {| q_port := id; q_id := Z.of_nat j |})
    by (intros j Hj; unfold ids; rewrite list_lookup_fmap, lookup_seq_lt by done; done).
  rewrite (fresh_claim _ 0 _ (Hat 0%nat ltac:(lia))). unfold take_receiver. rewrite Hrt. cbn [set_port_tx port_tx].
  unfold claim_by_id. cbn [qs_queues qs_claimed qs_cursor]. rewrite Hl, (proj2 (Nat.leb_gt _ _)) by lia.
  rewrite list_lookup_total_insert_ne, lookup_total_replicate_2, (Hat 1%nat) by lia. unfold take_sender. cbn [sender_taken_]. rewrite Hsn.
  unfold listen. cbn [listening_]. rewrite Hlis. cbn [listen_set_contains existsb length]. cbn [Z.of_nat Z.eqb max_ports set_port_tx port_rx].
  rewrite Nat2Z.id, Hrx. unfold fresh_queues. destruct (fresh_claims n 0 (ids id 0 n) (replicate (length (ids id 0 n)) false) []) as [rx Hloop].
  { by rewrite length_replicate. } { lia. } { intros j _ Hj. by apply lookup_replicate_2. }
  rewrite drop_0, take_ge in Hloop by lia. rewrite Hloop. do 2 eexists. split; [reflexivity|]. cbn. split_and!; try done. by destruct Hok.
Qed.

(** Whatever it does, it leaves the device and the pool with their owner. *)
Definition same_device (p p' : port) : Prop := owns_device_ p' = owns_device_ p ∧ port_id_ p' = port_id_ p ∧ port_pool_ p' = port_pool_ p.
Lemma server_new_owner (p : port) mtu n port params (d : D) : same_device p (server_new p mtu n port params d).2.
Proof using. unfold server_new, same_device. repeat (case_match; try done). Qed.
End server_new.

(** ** main *)

Definition default_params : tcp_params := {| max_connections := 64; p_mss := 1460; receive_window := 65535; verify_checksums := true |}.
Definition kQueues : Z := 2.
Definition default_elt_size : Z := 2048.

Definition echo_params (argv0 iface : string) : runtime_params :=
  Params argv0 None None None (Some 256%N) None None None (Some "tcp_echo") None None None (Some true) (Some true) None
    [] [] [String.append "net_tap0,iface=" iface] [].

(** [std::terminate] is called for an exception nobody catches, and by the
    destructor of a thread that is still to be joined. *)
Inductive exit := exited (code : Z) | terminated_uncaught | terminated_joinable.

Section main.
Context {D K : Type} `{EthDev D} `{EalOps D} `{MempoolOps D} `{KernelOps K} `{FlowOps K}.
(** [std::thread]'s constructor: [false] if it throws. *)
Context (spawn : K → bool * K).
Context (dev_count_avail : D → Z) (dev_get_mtu : Z → D → option Z) (inet_pton : string → option (list Z)).

(** [None]: it throws. *)
Definition parse_ip (s : string) : option Z := match inet_pton s with Some b => Some (rd32 b 0) | None => None end.

(** From the live runtime to the server: the exit code of a way out, or the
    parts of a server to run; the runtime as it is then. *)
Definition set_up (s : settings) (rt : runtime) (d : D) (k : K) : (Z + server_parts) * runtime * D * K :=
  if dev_count_avail d =? 0 then (inl 1, rt, d, k)
  else
    let '(added, d) := add_port_default rt [] 0 kQueues kQueues default_elt_size d in
    match added with
    | inl _ => (inl 1, rt, d, k)
    | inr rt =>
      match last (ports_ rt) with
      | None => (inl 1, rt, d, k)
      | Some tap =>
        let '(_, k) := steer_rx_to_queue tap 0 k in
        match parse_ip (kernel_ip s) with
        | None => (inl 1, rt, d, k)
        | Some kip =>
          let '(err, k) := configure_kernel_interface (iface s) kip 24 k in
          match err, parse_ip (dpdk_ip s) with
          | Some _, _ | None, None => (inl 1, rt, d, k)
          | None, Some ip =>
            let '(made, tap) := server_new (set_ipv4_address tap ip) (dev_get_mtu 0 d) kQueues (listen_port s) default_params d in
            let rt := Runtime (owns_eal_ rt) (<[pred (length (ports_ rt)) := tap]> (ports_ rt)) in
            (match made with inl _ => inl 1 | inr sp => inr sp end, rt, d, k)
          end
        end
      end
    end.

(** The program: how it ends, the server it ran if it came to that, and the
    process and kernel at the end.  If the second thread cannot be made, the
    unwinding meets the first, which is to be joined, and goes no further. *)
Definition main (argv0 : string) (argv : list string) (st : bool * D) (k : K) : exit * option server_parts * (bool * D) * K :=
  match parse_args argv default_settings with
  | unknown_option => (exited 2, None, st, k)
  | uncaught_exception => (terminated_uncaught, None, st, k)
  | args_ok s =>
    let '(rt, (g, d)) := runtime_new (echo_params argv0 (iface s)) st in
    match rt with
    | inl _ => (exited 1, None, (g, d), k)
    | inr rt =>
      let '(res, rt, d, k) := set_up s rt d k in
      match res with
      | inl code => (exited code, None, runtime_dtor rt [] (g, d), k)
      | inr sp =>
        let '(inbound, k) := spawn k in
        if negb inbound then (exited 1, None, runtime_dtor rt [] (g, d), k)
        else
          let '(outbound, k) := spawn k in
          if negb outbound then (terminated_joinable, None, (g, d), k)
          else (exited 0, Some sp, runtime_dtor rt [] (g, d), k)
      end
    end
  end.
End main.

(** *** What is left behind *)

Section main_proofs.
Context {D K : Type} `{EthDev D} `{!EthTrace D} `{EalOps D} `{!EalTrace D} `{MempoolOps D} `{!MempoolTrace D} `{KernelOps K} `{FlowOps K}.
Context (spawn : K → bool * K).
Context (dev_count_avail : D → Z) (dev_get_mtu : Z → D → option Z) (inet_pton : string → option (list Z)).
(** What rte_ethdev.h says of these two calls, for the devices in question. *)
Context (macaddr_ok : ∀ id d mac, dev_macaddr_get id d = Some mac → mac_ok mac).
Context (mtu_ok : ∀ id d, 41 <= default RTE_ETHER_MTU (dev_get_mtu id d) <= 65521).

(** The parts of a server that can run. *)
Record ready (s : settings) (sp : server_parts) : Prop := {
  rd_stack : stack_ok (sp_stack sp);
  rd_queues : sp_control sp = {| q_port := 0; q_id := 0 |} ∧ sp_data sp = {| q_port := 0; q_id := 1 |} ∧ sp_rxqs sp = Some <$> ids 0 0 2;
  rd_listen : listening_ (sp_stack sp) = [listen_port s];
  rd_slots : sp_slots sp = replicate (Z.to_nat (max_connections (params_ (sp_stack sp)))) new_connection }.

(** The pool of the port that is added on [d], if there is memory for it. *)
Definition default_pool (d : D) : option Z := match (make_default_pool 0 default_elt_size d).1 with inr pool => Some pool | inl _ => None end.

(** The calls of a set-up that ends without a port: none, a pool refused, or
    those up to the one that failed and the pool freed. *)
Inductive no_port : option Z → list dev_call → Prop :=
  | nothing_made p : no_port p []
  | pool_refused : no_port None [c_pool_create]
  | port_gone pool : no_port (Some pool) [c_pool_create; c_pool_free pool]
  | bring_up_failed pool pre c post : Port.bring_up 0 kQueues kQueues = pre ++ c :: post →
    no_port (Some pool) (c_pool_create :: pre ++ [failed c; c_pool_free pool]).

(** The runtime after [add_port], and the calls: with the port, or without. *)
Definition port_up (pool : option Z) (ps : list port) (t : list dev_call) : Prop :=
  t = c_pool_create :: Port.bring_up 0 kQueues kQueues ∧
  ∃ p, ps = [p] ∧ owns_device_ p = true ∧ port_id_ p = 0 ∧ port_pool_ p = pool ∧ is_Some pool.

Lemma added_port rt (d : D) : ports_ rt = [] → ∃ t,
  calls (add_port_default rt [] 0 kQueues kQueues default_elt_size d).2 = calls d ++ t ∧
  match (add_port_default rt [] 0 kQueues kQueues default_elt_size d).1 with
  | inl _ => no_port (default_pool d) t
  | inr rt' => owns_eal_ rt' = owns_eal_ rt ∧ port_up (default_pool d) (ports_ rt') t ∧
    Forall (λ p, port_rx p = fresh_queues (ids 0 0 2) ∧ port_tx p = fresh_queues (ids 0 0 2)) (ports_ rt')
  end.
Proof using EthTrace0 EalTrace0 MempoolTrace0.
  intros Hrt. unfold add_port_default, default_pool, make_default_pool, create_pool, pool_new.
  destruct (dev_is_valid_port 0 d); cbn [negb fst snd]; [|exists []; rewrite app_nil_r; split; [done|constructor]].
  set (nm := String.append _ _). pose proof (calls_pool nm kDefaultNumMbufs 256 default_elt_size (u32 (dev_socket_id 0 d)) d) as Cp.
  destruct (pool_create nm _ _ _ _ d) as [[pool|] d1]; cbn [fst snd] in *; [|exists [c_pool_create]; split; [done|constructor]].
  unfold add_port. rewrite Hrt. pose proof (port_new_ran 0 kQueues kQueues pool d1) as Hr. cbv zeta in Hr.
  pose proof (port_new_pool 0 kQueues kQueues pool d1) as Hpool. destruct (dev_is_valid_port 0 d1).
  2: { rewrite Hr. cbn [fst snd]. exists [c_pool_create; c_pool_free pool]. rewrite drop_calls, Cp, <- app_assoc. split; [done|constructor]. }
  unfold ran in Hr. destruct (port_new 0 kQueues kQueues pool d1) as [[e|p] d2]; cbn [fst snd app] in *.
  - destruct Hr as (pre & c & post & Hpp & Hc & _). eexists. rewrite drop_calls, Hc, Cp, <- !app_assoc.
    split; [reflexivity|]. cbn [app]. by eapply bring_up_failed.
  - destruct Hr as (Hc & Hid & Ho & _ & Hrx & Htx). exists (c_pool_create :: Port.bring_up 0 kQueues kQueues). rewrite Cp, <- app_assoc in Hc.
    split; [exact Hc|]. split; [done|]. split; [|by apply Forall_singleton]. split; [done|]. exists p. split_and!; try done. by eapply Hpool.
Qed.

(** The calls of a set-up, and the server if it got that far. *)
Lemma set_up_spec s (d : D) (k : K) :
  let '(res, rt', d', _) := set_up dev_count_avail dev_get_mtu inet_pton s (Runtime true []) d k in
  owns_eal_ rt' = true ∧ ∃ t, calls d' = calls d ++ t ∧
  match res with
  | inl code => code = 1 ∧ (ports_ rt' = [] ∧ no_port (default_pool d) t ∨ port_up (default_pool d) (ports_ rt') t)
  | inr sp => ready s sp ∧ port_up (default_pool d) (ports_ rt') t
  end.
Proof using macaddr_ok mtu_ok EthTrace0 EalTrace0 MempoolTrace0.
  destruct (added_port (Runtime true []) d eq_refl) as (t & Ht & Hadd). unfold set_up. set (pool := default_pool d) in *.
  destruct (dev_count_avail d =? 0).
  { split; [done|]. exists []. rewrite app_nil_r. split_and!; [done..|]. left. split; [done|constructor]. }
  destruct (add_port_default _ [] 0 kQueues kQueues default_elt_size d) as [[e|rt1] d1]; cbn [fst snd] in *.
  { split; [done|]. exists t. split_and!; [done..|]. by left. }
  destruct Hadd as (Hown & [-> (p & Hp & Hpo & Hpid & Hpp & Hsome)] & Hq). rewrite Hp in *. apply Forall_singleton in Hq as [Hrx Htx]. cbn [last owns_eal_] in *.
  set (t := c_pool_create :: _) in *.
  assert (Hup : ∀ p', same_device p p' → port_up pool [p'] t) by (intros p' (H1' & H2' & H3'); split; [done|]; exists p'; by rewrite H1', H2', H3').
  assert (Hout : ∀ rt', owns_eal_ rt' = true → port_up pool (ports_ rt') t → owns_eal_ rt' = true ∧ ∃ t, calls d1 = calls d ++ t ∧ 1 = 1 ∧ (ports_ rt' = [] ∧ no_port pool t ∨ port_up pool (ports_ rt') t))
    by (intros rt' Ho Hu; split; [done|]; exists t; by split_and!; [..|right]).
  assert (Hrt1 : port_up pool (ports_ rt1) t) by (rewrite Hp; by apply Hup).
  destruct (steer_rx_to_queue p 0 k) as [? k1]. destruct (parse_ip inet_pton (kernel_ip s)) as [kip|]; [|by apply Hout].
  destruct (configure_kernel_interface (iface s) kip 24 k1) as [[err|] k2]; [by apply Hout|].
  destruct (parse_ip inet_pton (dpdk_ip s)) as [ip|]; [|by apply Hout].
  pose proof (server_new_owner (set_ipv4_address p ip) (dev_get_mtu 0 d1) kQueues (listen_port s) default_params d1) as Hso.
  assert (Hready : ∀ sp p', server_new (set_ipv4_address p ip) (dev_get_mtu 0 d1) kQueues (listen_port s) default_params d1 = (inr sp, p') → ready s sp).
  { intros sp p' Hsn. destruct (dev_macaddr_get 0 d1) as [mac|] eqn:Em.
    - destruct (server_new_fresh (set_ipv4_address p ip) 0 2 ip mac (dev_get_mtu 0 d1) (listen_port s) default_params d1)
        as (sp' & p'' & Hx & _ & R1 & R2 & R3 & R4 & R5 & _ & _ & R6 & _ & R7); try done; [by apply (macaddr_ok 0 d1)|].
      change (Z.of_nat 2) with kQueues in Hx. rewrite Hsn in Hx. injection Hx as <- _. split; [done|done|done|by rewrite R6].
    - unfold server_new, port_mac_address in Hsn. cbn [set_ipv4_address port_id_] in Hsn. rewrite Hpid, Em in Hsn. done. }
  destruct (server_new _ _ _ _ _ d1) as [[e|sp] p']; cbn [fst snd length pred list_insert] in *; specialize (Hup p' Hso).
  - by apply (Hout (Runtime (owns_eal_ rt1) [p'])).
  - split; [done|]. exists t. split_and!; try done. by apply (Hready sp p').
Qed.

(** The runtime goes, with the port or without it. *)
Lemma end_with_port rt p t (d : D) : owns_eal_ rt = true → port_up p (ports_ rt) t →
  (runtime_dtor rt [] (true, d)).1 = false ∧ ∃ pool, p = Some pool ∧
  calls (runtime_dtor rt [] (true, d)).2 = calls d ++ [c_stop 0; c_close 0; c_pool_free pool; c_eal_cleanup].
Proof using EthTrace0 EalTrace0 MempoolTrace0.
  intros Ho (_ & q & Hp & Hpo & Hid & Hpp & [pool Hs]). subst p.  unfold runtime_dtor, tear_down. rewrite Ho, Hp. split; [done|]. exists pool. split; [done|].
  cbn [fst snd ports_ clear_ports]. rewrite calls_cleanup. unfold port_end, port_dtor. by rewrite Hpo, Hs, Hid, drop_calls, calls_close, calls_stop, <- !app_assoc.
Qed.
Lemma end_without_port rt (d : D) : owns_eal_ rt = true → ports_ rt = [] →
  (runtime_dtor rt [] (true, d)).1 = false ∧ calls (runtime_dtor rt [] (true, d)).2 = calls d ++ [c_eal_cleanup].
Proof using EalTrace0. intros Ho Hp. unfold runtime_dtor, tear_down. rewrite Ho, Hp. split; [done|]. apply calls_cleanup. Qed.

(** The calls of a program from its start to its end, with the port and
    whatever happened until then. *)
Definition device_run (pool : Z) : list dev_call :=
  ([c_eal_init true; c_pool_create] ++ Port.bring_up 0 kQueues kQueues) ++ [c_stop 0; c_close 0; c_pool_free pool; c_eal_cleanup].
Inductive whole_run : option Z → list dev_call → Prop :=
  | no_eal p : whole_run p [c_eal_init false]
  | without_port p mid : no_port p mid → whole_run p (c_eal_init true :: mid ++ [c_eal_cleanup])
  | with_device pool : whole_run (Some pool) (device_run pool).

(** C35. What the echo program leaves behind, call by call.  Bad options end it
    before any call, with exit code 2 or an uncaught exception.  Otherwise,
    whichever call fails, it exits with 1 (or 0, exactly if it ran the server)
    after one of these sequences of DPDK calls: an initialization that failed;
    an initialization, the calls of a port that could not be made, its pool
    freed if there was one, and the clean-up; or initialization, pool and port,
    then the device stopped, the device closed, the pool freed and the EAL
    cleaned up, in this order.  Serving ends in the last one.  The one way out
    that cleans nothing up is that the second thread cannot be created while
    the first runs: the program is terminated with the port up.  The server it
    runs has a stack fit to run, its own control and data transmit queues, both
    receive queues, and listens on the port asked for. *)
Theorem main_cleans_up argv0 argv (d : D) (k : K) :
  let '(how, served, (g', d'), k') := main spawn dev_count_avail dev_get_mtu inet_pton argv0 argv (false, d) k in
  match parse_args argv default_settings with
  | unknown_option => how = exited 2 ∧ served = None ∧ g' = false ∧ d' = d ∧ k' = k
  | uncaught_exception => how = terminated_uncaught ∧ served = None ∧ g' = false ∧ d' = d ∧ k' = k
  | args_ok s => ∃ t, calls d' = calls d ++ t ∧
    let p := default_pool (eal_init (build_eal_args (echo_params argv0 (iface s))) d).2 in
    match how, served with
    | exited 0, Some sp => g' = false ∧ ready s sp ∧ ∃ pool, p = Some pool ∧ t = device_run pool
    | exited 1, None => g' = false ∧ whole_run p t
    | terminated_joinable, None => g' = true ∧ t = [c_eal_init true; c_pool_create] ++ Port.bring_up 0 kQueues kQueues ∧
      ∃ k1 k2, spawn k1 = (true, k2) ∧ spawn k2 = (false, k')
    | _, _ => False
    end
  end.
Proof using macaddr_ok mtu_ok EthTrace0 EalTrace0 MempoolTrace0.
  unfold main. destruct (parse_args argv default_settings) as [s| |]; [|by split_and!..]. unfold runtime_new.
  pose proof (calls_init (build_eal_args (echo_params argv0 (iface s))) d) as Ci.
  destruct (eal_init _ d) as [ret d1]. cbn [fst snd] in *.
  destruct (ret <? 0); cbn [negb] in Ci; [by exists [c_eal_init false]; split_and!; [| |constructor]|].
  pose proof (set_up_spec s d1 k) as Hs. destruct (set_up _ _ _ s _ d1 k) as [[[res rt] d2] k2]. set (p := default_pool d1) in *.
  destruct Hs as (Ho & t & Ht & Hres). rewrite Ci, <- app_assoc in Ht.
  assert (Hend : port_up p (ports_ rt) t → (runtime_dtor rt [] (true, d2)).1 = false ∧
    ∃ pool, p = Some pool ∧ calls (runtime_dtor rt [] (true, d2)).2 = calls d ++ device_run pool).
  { intros Hup. destruct (end_with_port rt p t d2 Ho Hup) as (Hg & pool & Hp & Hc). split; [done|]. exists pool. split; [done|].
    rewrite Hc, Ht. destruct Hup as [-> _]. unfold device_run. by rewrite <- !app_assoc. }
  destruct res as [code|sp].
  - destruct Hres as [-> [[Hp Hno]|Hup]].
    + destruct (end_without_port rt d2 Ho Hp) as [Hg Hc]. destruct (runtime_dtor rt [] (true, d2)) as [g3 d3]. cbn [fst snd] in *.
      eexists. rewrite Hc, Ht, <- !app_assoc. split; [reflexivity|]. split; [done|]. by apply without_port.
    + destruct (Hend Hup) as (Hg & pool & Hp & Hc). destruct (runtime_dtor rt [] (true, d2)) as [g3 d3]. cbn [fst snd] in *.
      eexists. split; [exact Hc|]. split; [done|]. rewrite Hp. constructor.
  - destruct Hres as [Hready Hup]. destruct (Hend Hup) as (Hg & pool & Hp & Hc). destruct (spawn k2) as [b1 k3] eqn:E1. destruct b1; cbn [negb].
    + destruct (spawn k3) as [b2 k4] eqn:E2. destruct b2; cbn [negb].
      * destruct (runtime_dtor rt [] (true, d2)) as [g3 d3]. cbn [fst snd] in *. eexists. split; [exact Hc|]. split_and!; [done..|by exists pool].
      * eexists. split; [exact Ht|]. split_and!; [done| |by exists k2, k3]. by destruct Hup as [-> _].
    + destruct (runtime_dtor rt [] (true, d2)) as [g3 d3]. cbn [fst snd] in *.
      eexists. split; [exact Hc|]. split; [done|]. rewrite Hp. constructor.
Qed.
End main_proofs.

(** ** A host on which everything works *)

Module host.
#[local] Existing Instances traced_eal.ops kernel.ops.
Definition eth : EthDev traced.dev := {|
  dev_is_valid_port := @dev_is_valid_port _ traced.ops; dev_configure := @dev_configure _ traced.ops;
  dev_adjust_nb_rx_tx_desc := @dev_adjust_nb_rx_tx_desc _ traced.ops; dev_info_get := @dev_info_get _ traced.ops;
  dev_socket_id := @dev_socket_id _ traced.ops; dev_rx_queue_setup := @dev_rx_queue_setup _ traced.ops;
  dev_tx_queue_setup := @dev_tx_queue_setup _ traced.ops; dev_start := @dev_start _ traced.ops;
  dev_stop := @dev_stop _ traced.ops; dev_close := @dev_close _ traced.ops;
  dev_macaddr_get _ _ := Some [2; 0; 0; 0; 0; 1] |}.
#[local] Existing Instance eth.
Definition eth_trace : EthTrace traced.dev.
Proof. refine (@Build_EthTrace traced.dev eth traced.log _ _ _ _ _ _ _ _); try done. intros p d. cbn. by case_match. Defined.
#[local] Existing Instance eth_trace.
Definition eal_trace : EalTrace traced.dev.
Proof. split; intros; cbn; repeat case_match; simplify_eq; done. Defined.
#[local] Existing Instance traced_eal.pool.
Definition pool_trace : MempoolTrace traced.dev.
Proof. by split. Defined.
Definition flows : FlowOps kernel.state := {| flow_create _ _ k := (true, k) |}.
Definition pton (s : string) : option (list Z) := Some [10; 77; 0; 2].
End host.

Section main_run.
#[local] Existing Instances host.eth host.eth_trace traced_eal.ops host.eal_trace traced_eal.pool host.pool_trace kernel.ops host.flows.

Abbreviation run_main spawn := (main spawn (λ _, 1) (λ _ _, Some 1500) host.pton "tcp_echo" ["--port"; "7"] (false, traced.Dev [] []) (kernel.State [] None)).

(** The server runs on port 7; the last DPDK calls close the port and the EAL. *)
Lemma main_cleans_up_witness :
  (listening_ ∘ sp_stack <$> (run_main (pair true)).1.1.2) = Some [7] ∧
  calls (run_main (pair true)).1.2.2 = device_run 7.
Proof.
  split; [vm_compute; reflexivity|].
  pose proof (main_cleans_up (pair true) (λ _, 1) (λ _ _, Some 1500) host.pton) as Hm.
  specialize (Hm ltac:(intros id d mac [= <-]; split; [reflexivity|]; repeat constructor; unfold is_u8; lia) ltac:(intros; cbn; lia)
    "tcp_echo" ["--port"; "7"] (traced.Dev [] []) (kernel.State [] None)).
  assert (Hw : (run_main (pair true)).1.1.1 = exited 0 ∧ is_Some (run_main (pair true)).1.1.2) by (vm_compute; eauto).
  destruct (run_main (pair true)) as [[[how served] [g' d']] k']. cbn [fst snd] in *. destruct Hw as [-> [sp ->]].
  destruct Hm as (t & Hc & _ & _ & pool & [= <-] & ->). exact Hc.
Defined.

(** One thread and no second: terminated with the port up. *)
Lemma second_thread_refused :
  let one (k : kernel.state) := match kernel.refuses k with None => (true, kernel.State (kernel.log k) (Some SIOCSIFADDR)) | Some _ => (false, k) end in
  (run_main one).1.1 = (terminated_joinable, None) ∧ (run_main one).1.2.1 = true ∧ last (calls (run_main one).1.2.2) = Some (c_start 0 true).
Proof. vm_compute. done. Qed.

(** A port number is cut to 16 bits, and one that is no number ends the program
    outside its handler. *)
Lemma port_option_unchecked :
  parse_args ["--port"; "70000"] default_settings = args_ok (Settings "dpdktap0" "10.77.0.1" "10.77.0.2" 4464) ∧
  parse_args ["--port"; "http"] default_settings = uncaught_exception.
Proof. split; vm_compute; reflexivity. Qed.
End main_run.
