(* ===== verification/TcpTheorems.v ===== *)
(** * The running stack

    What holds of a [tcp_stack] with its receiver and sender in every state
    reachable from the constructor, for any packets, any order of calls and any
    answers of DPDK: the connection table, the values in the slots, the fixed
    buffers of [poll], the mbuf balance, what [send] and [close] put on the
    wire, the life of an id, and the stream the application reads. *)

From S2P Require Import Prelude Probing FlowTable Dpdk DpdkSim Packet Segment SegmentWire SeqArith Arp TcpState TcpReceiver.
From S2P Require Import TcpConn TcpDiagram TcpInv TcpPoll TcpSender TcpLive TcpValues TcpSystem TcpSetup TcpStream Scenario.

Section running.
Context {E : Type} `{DpdkOps E} `{!DpdkLaws E} `{!DpdkAccount E} `{!DpdkWire E}.
Context (stack : tcp_stack) (control_txq data_txq : queue).
Abbreviation n := (max_connections (params_ stack)).

Abbreviation reachable := (reachable stack control_txq data_txq).
Abbreviation reachable_sys := (reachable_sys stack control_txq data_txq).

(** C2. In every reachable state the connection table is consistent: the
    flow table finds slot [i] for a 4-tuple exactly when [i] holds a live
    connection with that tuple, so no two live connections share one; every
    slot is on the free list iff its state is free; slots waiting for the
    application's close are closed; no list holds a slot twice and nothing is
    lost: live, free and waiting slots add up to the table; and between two
    calls no ACK, finalization or control packet is left over. *)
Theorem connection_table_consistent r : stack_ok stack → reachable r →
  (∀ k i, k ≠ 0 → inr n i → flow_table.find (flows r) k = i ↔
     state (slot r i) ≠ st_free ∧ (i ∉ awaiting_release r) ∧ flow_key (slot r i) = k) ∧
  (∀ i, i ∈ free_slots r ↔ inr n i ∧ state (slot r i) = st_free) ∧
  (∀ i, i ∈ awaiting_release r ↔ inr n i ∧ state (slot r i) = st_closed) ∧
  NoDup (free_slots r) ∧ NoDup (awaiting_release r) ∧
  ack_list r = [] ∧ finalize_list r = [] ∧ control r = [].
Proof using All.
  intros Hcfg Hr. destruct (reachable_sys r Hcfg Hr) as [[m Hinv] (Ha & Hf & Hc) _].
  split_and!; try apply Hinv; try done.
  - intros k i Hk Hi. rewrite (flow_table.find_spec _ _ _ _ (i_flows _ _ _ Hinv) Hk). split.
    + intros Hd. destruct (m !! k) as [j|] eqn:Em; simpl in Hd; subst; [|unfold inr, flow_table.npos in Hi; pose proof (ck_n _ Hcfg); lia].
      by destruct (i_map _ _ _ Hinv _ _ Em) as (_ & -> & ? & ?).
    + intros (Hnf & Hna & <-). by rewrite (i_live _ _ _ Hinv i Hi Hnf Hna).
  - intros i. split; [intros Hin; by destruct (i_await _ _ _ Hinv i Hin) as (? & ? & _)|]. intros [Hi Hs].
    destruct (i_closed _ _ _ Hinv i Hi Hs) as [|Hx]; [done|]. rewrite Hf in Hx. by apply not_elem_of_nil in Hx.
Qed.

(** C16. As long as no two calls overlap ([poll], [send] and [close] run one
    at a time, in any order), for every connection, whenever no call is under
    way: what the two threads publish to each other is what the owner last
    computed; the unacknowledged bytes never exceed the largest window, 65535, plus the FIN;
    the segment size lies between 1 and the stack's; an id a connection hands
    out has a nonzero generation; [terminated] is set exactly in [closed];
    and the states of an active close are entered only after our FIN.  When
    calls overlap all of this but the bound on the unacknowledged bytes still
    holds ([TcpFine.interleaved_state_consistent]); that bound does not: an
    ACK that [poll] takes in while [send] has published a [snd_nxt] it then
    pulls back overtakes it ([TcpFine.ack_overtakes_send]). *)
Theorem connection_values_consistent r i : stack_ok stack → reachable r → inr n i → state (slot r i) ≠ st_free →
  let c := slot r i in
  rcv_nxt c = rcv_nxt_local c ∧ send_window c = pack_window (snd_una c) (snd_wnd c) ∧
  0 <= flight c <= 65535 + (if flag (out_flags c) out_fin_sent then 1 else 0) ∧
  1 <= send_mss c <= mss_ stack ∧ 1 <= generation c < 2 ^ 32 ∧
  (terminated c = 1 ↔ state c = st_closed) ∧ (fin_state (state c) → flag (out_flags c) out_fin_sent = true).
Proof using All.
  intros Hcfg Hr Hi Hnf c. pose proof (reachable_sys r Hcfg Hr) as Hsys.
  destruct (sys_conn stack r {| cid_slot := i; cid_generation := 0 |} Hsys (conj Hi Hnf)) as [_ [Hwk Hp]].
  cbn [cid_slot] in *. fold c in Hwk, Hp. pose proof (flight_bound stack c Hwk) as Hfl. destruct Hwk.
  split_and!; try done; try lia. rewrite co_term. by case_decide.
Qed.

(** C17. Every field of every slot, free or in use, stays within its
    declared type, by value and not only by wrap-around: in every reachable
    state a 32-bit address, 16-bit ports, a six-byte MAC, a 16-bit segment
    size and window, 32-bit generation and sequence numbers, a 64-bit packed
    window, a [terminated] of 0 or 1, and only the two defined output flags.
    A slot in use has moreover a nonzero address and a nonzero generation. *)
Theorem slots_well_typed r i : stack_ok stack → reachable r → inr n i →
  let c := slot r i in
  is_u32 (generation c) ∧ is_u32 (peer_ip c) ∧ is_u16 (peer_port c) ∧ is_u16 (local_port c) ∧ mac_ok (peer_mac c) ∧
  is_u16 (send_mss c) ∧ Forall is_u32 [iss c; irs c; rcv_nxt_local c; rcv_nxt c; snd_una c; snd_nxt c; snd_wl1 c; snd_wl2 c] ∧
  is_u16 (snd_wnd c) ∧ is_u64 (send_window c) ∧ (terminated c = 0 ∨ terminated c = 1) ∧ 0 <= out_flags c <= 3 ∧
  (state c ≠ st_free → peer_ip c ≠ 0 ∧ generation c ≠ 0).
Proof using All.
  intros Hcfg Hr Hi c. destruct (reachable_sys r Hcfg Hr) as [[m Hinv] _ Hs].
  destruct (slots_ok_slot stack r i Hs (inv_table stack m r i Hinv Hi)) as [[] Hc]. subst c. destruct_and!.
  unfold flags_ok in *. split_and!; try done; try lia. intros Hnf. split.
  - by destruct (i_addr _ _ _ Hinv i Hi Hnf) as (? & ? & ? & ?).
  - destruct Hc as [?|[[] _]]; [done|]. lia.
Qed.

(** C19. The fixed arrays inside [poll] never overflow: whatever a burst
    of at most 32 packets contains, the events fit the 96 entries the code
    reserves, the ACK and finalize lists hold at most one entry per packet,
    and the control packets of the whole call fit their 64 slots, so none is
    dropped for want of room. *)
Theorem poll_buffers_suffice r burst : stack_ok stack → reachable r → Forall pkt_wf burst →
  Z.of_nat (length burst) <= burst_max_size →
  Z.of_nat (length (poll stack control_txq r burst).1) <= max_events ∧
  Z.of_nat (length (ack_list (after_packets stack r burst))) <= burst_max_size ∧ NoDup (ack_list (after_packets stack r burst)) ∧
  Z.of_nat (length (finalize_list (after_packets stack r burst))) <= burst_max_size ∧
  Z.of_nat (length (control (after_acks stack r burst))) <= max_control.
Proof using All.
  intros Hcfg Hr Hb Hlen. destruct (reachable_sys r Hcfg Hr) as [[m Hinv] Hq _]. pose proof (proj2 (ck_n _ Hcfg)) as Hn.
  destruct (after_packets_inv stack m r burst Hinv Hq Hn Hb) as ([m1 H1] & B1 & B2 & B3).
  pose proof (poll_events_bound stack control_txq m r burst Hinv Hq Hn Hb) as He.
  unfold max_events, max_control, burst_max_size in *. split_and!; [lia|lia|apply H1|lia|].
  - pose proof (packets_emit stack m r burst Hinv Hq) as [Hc _]. lia.
Qed.

(** C20. No call leaks or double-frees an mbuf: after any [poll], [send]
    or [close], whichever packets the pool refused or the transmit queue did
    not take, the library holds exactly as many mbufs as before. *)
Theorem calls_balance_mbufs r r' : stack_ok stack → reachable r → sys_step stack control_txq data_txq r r' →
  held (env r') = held (env r).
Proof using All.
  intros Hcfg Hr Hstep. pose proof (reachable_sys r Hcfg Hr) as Hsys. pose proof Hsys as [[m Hinv] Hq _].
  destruct Hstep as [burst Hb Hl|conn bytes k s w Hp Hs|conn s w Hp Hs].
  - apply (poll_held stack control_txq m); try done. apply Hcfg.
  - destruct (sys_send_spec stack data_txq r conn bytes Hcfg Hsys Hp) as (segs & d & w' & Hx & _ & _ & _ & Hh).
    rewrite Hs in Hx. by injection Hx as _ _ ->.
  - destruct (sys_close_spec stack data_txq r conn Hcfg Hsys Hp) as (out & w' & Hx & _ & Hh & _).
    rewrite Hs in Hx. by injection Hx as _ ->.
Qed.

(** C7. [send] in every reachable state: it returns, and the [k] bytes it
    reports are exactly the first [k] of the caller's, on the wire in order
    after whatever was sent before, in segments of exactly the connection's
    MSS (the one that reaches the limit has the rest) with consecutive sequence
    numbers from [snd_nxt], PSH exactly on the one that reaches the limit; [k]
    exceeds neither the caller's bytes nor the peer's window; [snd_nxt] moves by
    [k] and nothing else changes; an id that is not sendable sends nothing.  And if the pool and the queue have the means, all
    that window and caller allow is sent. *)
Theorem send_transmits_prefix r conn bytes : stack_ok stack → reachable r → permitted stack r conn →
  let c := slot r (cid_slot conn) in
  let limit := Z.min (Z.of_nat (length bytes)) (window_space (send_window c) (snd_nxt c)) in
  ∃ segs k w', send stack data_txq (slots r) conn bytes (env r) =
      Some (k, if sendable stack (slots r) conn then put_conn (slots r) (cid_slot conn) (set_snd_nxt c (u32 (snd_nxt c + k)))
               else slots r, w') ∧
    carries stack (send_mss c) (conn_addr stack c) (snd_nxt c) (rcv_nxt c) bytes limit 0 segs k ∧
    wire (q_port data_txq) (q_id data_txq) w' = wire (q_port data_txq) (q_id data_txq) (env r) ++ segs.*1 ∧
    (if sendable stack (slots r) conn
     then ∀ ready, means stack data_txq ready → ready (Z.to_nat limit) (env r) → k = limit
     else k = 0).
Proof using All.
  intros Hcfg Hr Hp c limit. pose proof (reachable_sys r Hcfg Hr) as Hsys.
  destruct (sys_send_spec stack data_txq r conn bytes Hcfg Hsys Hp) as (segs & k & w' & Hs & H0 & Hc & Hw & _).
  exists segs, k, w'. split_and!; [exact Hs|exact Hc|exact Hw|]. destruct (sendable stack (slots r) conn) eqn:Es; [|auto].
  intros ready Hm Hrd. destruct Hp as [Hno|Hn]; [unfold sendable in Es; by rewrite Hno in Es|].
  destruct (sys_conn stack r conn Hsys Hn) as [_ [Hwk _]]. destruct Hsys as [[m Hinv] _ _].
  destruct (send_all stack data_txq ready Hm (slots r) conn bytes (env r)) as (s' & w2 & Hx); try done;
    [apply (i_len _ _ _ Hinv)|apply Hn|apply Hcfg|apply Hwk|apply Hwk|apply Hcfg|].
  rewrite Hs in Hx. by injection Hx.
Qed.

(** C1. The application reads the peer's byte stream, in order and
    without loss, duplication or mixing: if the peer of connection [i] sends a
    stream [S] cut into segments that arrive in any order, overlapping,
    repeated or not at all, and interleaved with any other traffic, then the
    data events of one [poll] for [i] are exactly the next bytes [S[pos, pos')],
    the end is reported only once all of [S] has been delivered, and unless
    the connection is over the next [poll] continues at [pos'].  This holds from
    the peer's SYN on, when [pos] is 0: as long as the connection is half
    open and the peer does not reset it, nothing is reported before the
    connection itself. *)
Theorem poll_delivers_stream r i S pos burst : stack_ok stack → reachable r → live stack r i →
  Forall pkt_wf burst → Z.of_nat (length S) < 2 ^ 31 - 1 → stream_inv S (slot r i) pos →
  Forall (λ seg, ∃ off, peer_seg S (irs (slot r i)) seg off) (segs_for (E := E) stack (flow_key (slot r i)) burst) →
  kept (slot r i) (segs_for (E := E) stack (flow_key (slot r i)) burst) →
  let evs := events_of i (poll stack control_txq r burst).1 in
  let r' := (poll stack control_txq r burst).2 in
  ∃ pos', pos <= pos' <= Z.of_nat (length S) ∧
    delivered evs = sub S (Z.to_nat pos) (Z.to_nat (pos' - pos)) ∧
    Forall (λ e, ev_conn e = {| cid_slot := i; cid_generation := generation (slot r i) |}) evs ∧
    (state (slot r i) = st_syn_received → evs = [] ∨ head (ev_type <$> evs) = Some ev_accepted) ∧
    (ev_peer_closed ∈ ev_type <$> evs ∨ ev_closed ∈ ev_type <$> evs → pos' = Z.of_nat (length S)) ∧
    (ev_closed ∉ ev_type <$> evs → ev_reset ∉ ev_type <$> evs →
       live stack r' i ∧ generation (slot r' i) = generation (slot r i) ∧ stream_inv S (slot r' i) pos').
Proof using All.
  intros Hcfg Hr Hlv Hb HS Hst Hsegs Hkept evs r'. destruct (reachable_sys r Hcfg Hr) as [[m Hinv] Hq _].
  destruct (poll_demux stack control_txq m r i burst Hinv Hq (proj2 (ck_n _ Hcfg)) Hb Hlv Hkept) as [Hev Hlive].
  destruct (run_delivers stack S (slot r i) pos _ Hst HS Hsegs) as (pos' & Hle & Hst' & Hirs & Hd & Hend).
  set (p := run_conn stack (slot r i) _) in *. fold evs in Hev. fold r' in Hlive. pose proof (si_pos _ _ _ Hst') as Hp'.
  exists pos'. rewrite Hev, delivered_stamp, types_stamp. split_and!; [lia|lia|done| | |by rewrite <- ends_types|].
  - apply Forall_fmap. by apply Forall_forall.
  - intros Hs. destruct (run_opens stack (slot r i) (segs_for stack (flow_key (slot r i)) burst) Hs) as [Hx|[l Hx]]; fold p in Hx; rewrite Hx; auto.
  - intros Hc Hx. destruct Hlv as (Hi & Hnf & Hna).
    destruct Hlive as [Ha Hv].
    { apply run_over; [|done..]. intros Hcl. destruct (i_closed _ _ _ Hinv i Hi Hcl) as [|Hfin]; [done|].
      destruct Hq as (_ & Hq & _). rewrite Hq in Hfin. by apply not_elem_of_nil in Hfin. }
    injection Hv as V1 V2 V3 _ V5. split_and!; [done| |].
    + rewrite V5. apply run_generation.
    + eapply stream_same; [exact Hst'|done|done|by rewrite V3..].
Qed.

(** C25. A segment that continues the stream is delivered to its end:
    on a connection that still receives, an acceptable segment that starts at
    or before the next byte and ends after it yields exactly the bytes from
    [pos] to the end of its payload, in the same [poll]. *)
Theorem in_order_segment_delivered r i S pos pkt seg off : stack_ok stack → reachable r → live stack r i →
  pkt_wf pkt → Z.of_nat (length S) < 2 ^ 31 - 1 → stream_inv S (slot r i) pos →
  can_receive (state (slot r i)) → seg_for (E := E) stack (flow_key (slot r i)) pkt = Some seg →
  peer_seg S (irs (slot r i)) seg off → off <= pos < off + seg_len seg →
  plain_ack seg → seq_gt (seg_ack seg) (snd_nxt (slot r i)) = false →
  delivered (events_of i (poll stack control_txq r [pkt]).1) = sub S (Z.to_nat pos) (Z.to_nat (off + seg_len seg - pos)).
Proof using All.
  intros Hcfg Hr Hacc Hw HS Hst Hrc Hseg Hps Hpos Hpa Hack. destruct (reachable_sys r Hcfg Hr) as [[m Hinv] Hq _].
  destruct (poll_demux stack control_txq m r i [pkt] Hinv Hq (proj2 (ck_n _ Hcfg)) ltac:(by constructor) Hacc) as [Hev _];
    [intros Hx; rewrite Hx in Hrc; by destruct Hrc as [?|[?|?]]|].
  rewrite Hev, delivered_stamp. unfold segs_for. cbn [omap list_omap]. rewrite Hseg. unfold run_conn. cbn [foldl run_step fst snd app].
  pose proof (segment_progress stack S (slot r i) pos seg off Hst Hps HS Hrc Hpos Hpa Hack) as Hlen.
  destruct (segment_delivers stack S (slot r i) pos seg off Hst Hps HS) as (pos' & Hle & Hst' & _ & Hd & _).
  rewrite Hd in Hlen |- *. pose proof (si_pos _ _ _ Hst') as [? ?]. pose proof (si_pos _ _ _ Hst) as [? ?].
  rewrite length_sub in Hlen by lia. do 2 f_equal. lia.
Qed.

(** C21. [close] in every reachable state: a FIN with the next sequence
    number leaves on the wire at most once, and only if none was sent before
    and the connection is not over; if the pool and the queue have the means
    it does leave; the slot is marked released and, with the FIN, [snd_nxt]
    moves past it; from then on the id is refused: a second [close] and any
    [send] do nothing. *)
Theorem close_sends_one_fin r conn i : stack_ok stack → reachable r → permitted stack r conn →
  lookup stack (slots r) conn = Some i →
  let c := slot r i in
  ∃ out w', close stack data_txq (slots r) conn (env r) = (put_conn (slots r) i (closed_by_us c), w') ∧
    wire (q_port data_txq) (q_id data_txq) w' = wire (q_port data_txq) (q_id data_txq) (env r) ++ out ∧
    (out = [] ∨ flag (out_flags c) out_fin_sent = false ∧ terminated c = 0 ∧
                ∃ m, out = [m] ∧ m_data m = fin_frame stack c (snd_nxt c)) ∧
    (flag (out_flags c) out_fin_sent = false → terminated c = 0 →
       ∀ ready, means stack data_txq ready → ready 1%nat (env r) → out ≠ []) ∧
    let s' := put_conn (slots r) i (closed_by_us c) in
    (flag (out_flags (closed_by_us c)) out_fin_sent = true ↔ flag (out_flags c) out_fin_sent = true ∨ terminated c = 0) ∧
    (∀ w, close stack data_txq s' conn w = (s', w)) ∧
    (∀ bytes w, send stack data_txq s' conn bytes w = Some (0, s', w)).
Proof using All.
  intros Hcfg Hr Hp El c. pose proof (reachable_sys r Hcfg Hr) as Hsys.
  destruct (sys_close_spec stack data_txq r conn Hcfg Hsys Hp) as (out & w' & Hc & Hw & _ & Ho). rewrite El in Hc, Ho.
  destruct (lookup_some stack _ _ _ El) as [-> Hlt]. fold c in Hc, Ho.
  destruct Hp as [Hno|Hn]; [congruence|]. destruct (sys_conn stack r conn Hsys Hn) as [Ht [Hwk _]]. fold c in Hwk.
  assert (Hdead : lookup stack (put_conn (slots r) (cid_slot conn) (closed_by_us c)) conn = None).
  { apply lookup_closed; [done|exact Ht|apply Hwk]. }
  exists out, w'. cbv zeta. split; [exact Hc|]. split; [exact Hw|]. split; [|split; [|split; [|split]]].
  - destruct Ho as [?|(_ & ? & ? & ?)]; [by left|by right].
  - intros Hf Htm ready Hm Hrd Hout. destruct (close_sends_fin stack data_txq ready Hm 0 (slots r) conn (cid_slot conn) (env r) El)
      as (pkt & Hx & _); try done; [apply Hcfg|apply Hwk|pose proof (ck_mss _ Hcfg); lia|].
    rewrite Hc in Hx. cbn [snd] in Hx. rewrite Hw, Hout in Hx. apply (f_equal length) in Hx. rewrite !length_app in Hx. simpl in Hx. lia.
  - apply closed_by_us_flags, Hwk.
  - intros w. unfold close. by rewrite Hdead.
  - intros bytes w. unfold send, sendable. rewrite Hdead. by rewrite orb_true_r.
Qed.

(** C22. A slot that is reused never answers to the ids of its earlier
    connection: a SYN that takes a free slot gives it the next generation,
    skipping 0 on wrap-around, and [lookup] accepts exactly the new id. *)
Theorem reopened_slot_refuses_old_ids r seg i rest : stack_ok stack → reachable r → free_slots r = i :: rest →
  let r' := open stack r seg in
  generation (slot r' i) = (if generation (slot r i) =? 2 ^ 32 - 1 then 1 else generation (slot r i) + 1) ∧
  generation (slot r' i) ≠ generation (slot r i) ∧
  ∀ g, lookup stack (slots r') {| cid_slot := i; cid_generation := g |} = if g =? generation (slot r' i) then Some i else None.
Proof using All.
  intros Hcfg Hr Hf. pose proof (reachable_sys r Hcfg Hr) as [[m Hinv] _ Hsl].
  destruct (proj1 (i_free _ _ _ Hinv i)) as [Hi _]; [rewrite Hf; by left|]. pose proof (inv_table stack m r i Hinv Hi) as Ht.
  destruct (slots_ok_slot stack r i Hsl Ht) as [[Hg _] _]. cbv zeta. unfold open. rewrite Hf. destruct (rte_rand _) as [rnd w].
  change (slot (set_free_slots r rest) i) with (slot r i). set (c := opened stack (slot r i) seg (u32 rnd)).
  match goal with |- context [send_syn_ack stack ?r1 c] => set (r2 := r1); pose proof (send_syn_ack_silent stack r2 c) as (Hs & _) end.
  assert (Hslot : slots (send_syn_ack stack r2 c) = <[Z.to_nat i := c]> (slots r)) by exact Hs.
  assert (Hc : slot (send_syn_ack stack r2 c) i = c).
  { unfold slot, in_table in *. rewrite Hslot. apply list_lookup_total_insert_eq. lia. }
  assert (Hgen : generation c = if generation (slot r i) =? 2 ^ 32 - 1 then 1 else generation (slot r i) + 1) by (by apply opened_generation).
  rewrite Hc. split; [done|]. split; [rewrite Hgen; case_match; lia|]. intros g. unfold lookup. cbn [cid_slot cid_generation].
  rewrite (proj2 (Z.leb_gt n i)) by (unfold inr in Hi; lia). rewrite Hslot.
  change (<[Z.to_nat i := c]> (slots r)) with (put_conn (slots r) i c). rewrite conn_at_put by exact Ht.
  rewrite (Z.eqb_sym g). destruct (generation c =? g); cbn [negb orb]; done.
Qed.

(** Slots come back: the first thing [poll] does is to put every slot
    whose connection is over and whose application has called [close] on the
    free list, ready for a new connection, and to leave the others waiting. *)
Theorem released_slots_are_recycled r i : stack_ok stack → reachable r → i ∈ awaiting_release r →
  let r' := reap_released r in
  if flag (out_flags (slot r i)) out_released then i ∈ free_slots r' ∧ i ∉ awaiting_release r'
  else i ∈ awaiting_release r' ∧ slot r' i = slot r i.
Proof using All.
  intros Hcfg Hr Hin r'. pose proof (reachable_sys r Hcfg Hr) as [[m Hinv] (Hack & Hfin & _) _].
  destruct (reap_spec stack m r Hinv Hack) as (Hinv' & _ & Hf' & _ & _ & _ & Hall). fold r' in Hinv', Hf', Hall.
  destruct (i_await _ _ _ Hinv i Hin) as (Hi & Hs & _). rewrite Forall_forall in Hall.
  destruct (reap_slot stack m r i Hinv Hack Hi) as [Hk|[Hrel Hk]]; fold r' in Hk.
  - rewrite <- Hk. destruct (flag (out_flags (slot r' i)) out_released) eqn:Ef.
    + exfalso. destruct (i_closed _ _ _ Hinv' i Hi) as [Hx|Hx]; [congruence|by rewrite Hall in Ef|].
      rewrite Hf', Hfin in Hx. by apply not_elem_of_nil in Hx.
    + split; [|done]. destruct (i_closed _ _ _ Hinv' i Hi) as [Hx|Hx]; [congruence|done|].
      rewrite Hf', Hfin in Hx. by apply not_elem_of_nil in Hx.
  - rewrite Hrel. assert (Hfr : state (slot r' i) = st_free) by (by rewrite Hk). split; [by apply (i_free _ _ _ Hinv')|].
    intros Hx. destruct (i_await _ _ _ Hinv' i Hx) as (_ & ? & _). congruence.
Qed.

(** Building and queueing a control segment when the pool has room. *)
Lemma build_queued (r : impl E) a seq ack flags win mss m w' : mac_ok (src_mac a) → mac_ok (dst_mac a) →
  rte_pktmbuf_alloc (pool_ stack) (env r) = (Some m, w') → 58 <= m_tailroom m →
  ∃ pkt, build stack r a seq ack flags win [] mss = (Some pkt, set_env r w') ∧ m_data pkt = frame a seq ack flags win [] mss.
Proof using DpdkLaws0.
  intros H1 H2 Ha Hroom. assert (Hl : frame_len [] mss <= 58) by (unfold frame_len; rewrite length_mss_bytes; case_match; simpl; lia).
  destruct (build_segment_ok (pool_ stack) a seq ack flags win [] mss (env r) m w' H1 H2 Ha) as (pkt & Hb & Hd & _); [lia..|].
  exists pkt. unfold build. by rewrite Hb.
Qed.

Lemma open_queues (r : impl E) seg i rest m w' : mac_ok (local_mac_ stack) → seg_ok seg → control r = [] → free_slots r = i :: rest →
  rte_pktmbuf_alloc (pool_ stack) (rte_rand (env r)).2 = (Some m, w') → 58 <= m_tailroom m →
  ∃ pkt c, let r' := open stack r seg in
    slots r' = <[Z.to_nat i := c]> (slots r) ∧ free_slots r' = rest ∧ events r' = events r ∧ awaiting_release r' = awaiting_release r ∧
    c = opened stack (slot r i) seg (u32 (rte_rand (env r)).1) ∧ control r' = [pkt] ∧ env r' = w' ∧
    ack_list r' = ack_list r ∧ finalize_list r' = finalize_list r ∧
    m_data pkt = frame (reply_addr stack c) (u32 (rte_rand (env r)).1) (u32 (seg_seq seg + 1)) (Z.lor RTE_TCP_SYN_FLAG RTE_TCP_ACK_FLAG)
                   (receive_window (params_ stack)) [] (mss_ stack).
Proof using DpdkLaws0.
  intros Hmac Hseg Hctl Hfree Halloc Hroom. unfold open. rewrite Hfree. change (env (set_free_slots r rest)) with (env r).
  destruct (rte_rand (env r)) as [rnd w]. cbn [fst snd] in *.
  change (slot (set_free_slots r rest) i) with (slot r i). set (c := opened stack (slot r i) seg (u32 rnd)).
  set (r2 := set_flows _ _). unfold send_syn_ack.
  destruct (build_queued r2 (reply_addr stack c) (iss c) (rcv_nxt_local c) (Z.lor RTE_TCP_SYN_FLAG RTE_TCP_ACK_FLAG)
    (receive_window (params_ stack)) (mss_ stack) m w') as (pkt & -> & Hd); [done|apply Hseg|done|done|].
  unfold queue_control. change (control (set_env r2 w')) with (control r). rewrite Hctl. exists pkt, c. by split_and!.
Qed.

(** A SYN taken in by [process_tcp]. *)
Lemma syn_queued m0 r seg i rest m w' : stack_ok stack → inv stack m0 r → control r = [] → seg_ok seg →
  has seg RTE_TCP_SYN_FLAG = true → has seg RTE_TCP_ACK_FLAG = false → has seg RTE_TCP_RST_FLAG = false →
  seg_dst_port seg ∈ listening_ stack → flow_table.find (flows r) (seg_key seg) = flow_table.npos → free_slots r = i :: rest →
  rte_pktmbuf_alloc (pool_ stack) (rte_rand (env r)).2 = (Some m, w') → 58 <= m_tailroom m →
  let r' := process_tcp stack r seg in
  let c := opened stack (slot r i) seg (u32 (rte_rand (env r)).1) in
  ∃ pkt, slot r' i = c ∧ events r' = events r ∧ ack_list r' = ack_list r ∧ finalize_list r' = finalize_list r ∧
    flow_table.find (flows r') (seg_key seg) = i ∧ control r' = [pkt] ∧ env r' = w' ∧
    m_data pkt = frame (reply_addr stack c) (iss c) (rcv_nxt c) (Z.lor RTE_TCP_SYN_FLAG RTE_TCP_ACK_FLAG) (receive_window (params_ stack)) [] (mss_ stack).
Proof using All.
  intros Hcfg Hinv Hctl Hseg Hsyn Hack Hrst Hport Hnone Hfree Halloc Hroom.
  cbv zeta. assert (Hl : listen_set_contains (listening_ stack) (seg_dst_port seg) = true).
  { unfold listen_set_contains. apply existsb_exists. exists (seg_dst_port seg). split; [by apply list_elem_of_In|apply Z.eqb_refl]. }
  assert (Hp : process_tcp stack r seg = open stack r seg).
  { unfold process_tcp. fold (seg_key seg). rewrite Hnone, Hsyn, Hack, Hrst, Hl. reflexivity. }
  destruct (open_inv stack m0 r seg Hinv Hseg) as [m1 Hinv']; [by eapply find_none; [|apply seg_key_nonzero|apply Hcfg|]|].
  rewrite Hp. assert (Hi : inr n i) by (apply (i_free _ _ _ Hinv); rewrite Hfree; by left).
  destruct (open_queues r seg i rest m w' (ck_mac _ Hcfg) Hseg Hctl Hfree Halloc Hroom)
    as (pkt & c & Hs & Hfr & He & Haw & Hc & Hct & Henv & Ha & Hf & Hd). exists pkt. rewrite <- Hc.
  assert (Hslot : slot (open stack r seg) i = c).
  { unfold slot. rewrite Hs. apply list_lookup_total_insert_eq. pose proof (i_len _ _ _ Hinv). unfold inr in Hi. lia. }
  split_and!; try done; [|by rewrite Hd, Hc].
  pose proof (i_live _ _ _ Hinv' i Hi) as Hlive. rewrite Hslot, Haw, Hc in Hlive.
  rewrite (flow_table.find_spec _ _ _ _ (i_flows _ _ _ Hinv') (seg_key_nonzero seg Hseg)).
  change (flow_key (opened stack (slot r i) seg (u32 (rte_rand (env r)).1))) with (seg_key seg) in Hlive. rewrite Hlive; [done|done|].
  intros Hx. destruct (i_await _ _ _ Hinv i Hx) as (_ & Hcl & _). destruct (proj1 (i_free _ _ _ Hinv i)) as [_ Hst]; [rewrite Hfree; by left|]. congruence.
Qed.

(** *** A poll with one packet that asks for no ACK and ends no connection *)

Abbreviation on_control w := (wire (q_port control_txq) (q_id control_txq) w).
(** What the control queue takes of one packet. *)
Definition taken (reply : rte_mbuf) (w : E) : list rte_mbuf :=
  take (Z.to_nat (rte_eth_tx_burst (q_port control_txq) (q_id control_txq) [reply] w).1) [reply].

Lemma flush_one (r : impl E) reply : control r = [reply] → on_control (env (flush_control control_txq r)) = on_control (env r) ++ taken reply (env r).
Proof using DpdkWire0.
  intros Hc. unfold flush_control, taken. rewrite Hc. unfold send_burst. change (take _ [reply]) with [reply] at 1.
  pose proof (wire_tx (q_port control_txq) (q_id control_txq) [reply] (env r)) as Hw. destruct (rte_eth_tx_burst _ _ [reply] (env r)) as [k w].
  cbn [fst snd env set_control set_env bump set_stats] in *. by rewrite wire_burst_dtor, Hw.
Qed.

Lemma poll_one (r : impl E) pkt : let r1 := process stack (reap_released (set_events r [])) pkt in
  ack_list r1 = [] → finalize_list r1 = [] →
  let r' := (poll stack control_txq r [pkt]).2 in
  (poll stack control_txq r [pkt]).1 = events r1 ∧ slots r' = slots r1 ∧ flows r' = flows r1 ∧ free_slots r' = free_slots r1 ∧
  env r' = env (flush_control control_txq r1).
Proof using.
  intros r1 Ha Hf. rewrite poll_unfold. unfold after_acks, after_packets, flush_acks. cbn [foldl]. fold r1. rewrite Ha. cbn [foldl fst snd].
  destruct (flush_control_lists control_txq (set_ack_list r1 [])) as [Hs _].
  assert (He : env (flush_control control_txq (set_ack_list r1 [])) = env (flush_control control_txq r1)).
  { unfold flush_control. cbn [control env set_ack_list]. destruct (control r1); [done|]. by destruct (send_burst _ _ _) as [[? ?] ?]. }
  destruct Hs as (S1 & _ & S3 & S4 & _ & _ & S7 & S8). unfold finalize. rewrite S7. change (finalize_list (set_ack_list r1 [])) with (finalize_list r1).
  rewrite Hf. by cbn.
Qed.

(** C26. A SYN for a listening port is answered, and opens a stream: in every
    reachable state with a slot free or released, a [poll] that receives a SYN
    that belongs to no live connection takes the slot on top of the free list,
    records the peer and both initial sequence numbers, enters the flow table
    and reports nothing yet; from here on the connection stands at the first
    byte of whatever stream the peer sends.  The control queue is offered
    a SYN,ACK to the sender that acknowledges the SYN, carries our ISS and
    advertises our MSS, and nothing else. *)
Theorem syn_is_answered r pkt seg i rest m w' : stack_ok stack → reachable r → pkt_wf pkt →
  parse_frame (E := E) (verify_checksums (params_ stack)) (local_ip_ stack) pkt = V_tcp seg →
  has seg RTE_TCP_SYN_FLAG = true → has seg RTE_TCP_ACK_FLAG = false → has seg RTE_TCP_RST_FLAG = false →
  seg_dst_port seg ∈ listening_ stack →
  let r0 := reap_released (set_events r []) in
  flow_table.find (flows r0) (seg_key seg) = flow_table.npos → free_slots r0 = i :: rest →
  rte_pktmbuf_alloc (pool_ stack) (rte_rand (env r)).2 = (Some m, w') → 58 <= m_tailroom m →
  let isn := u32 (rte_rand (env r)).1 in
  let r' := (poll stack control_txq r [pkt]).2 in
  let c := slot r' i in
  (poll stack control_txq r [pkt]).1 = [] ∧ flow_table.find (flows r') (seg_key seg) = i ∧
  live stack r' i ∧ (∀ S, stream_inv S c 0) ∧
  state c = st_syn_received ∧ iss c = isn ∧ irs c = seg_seq seg ∧ rcv_nxt c = u32 (seg_seq seg + 1) ∧ snd_nxt c = u32 (isn + 1) ∧
  send_mss c = Z.min (parse_mss_option (seg_options seg)) (mss_ stack) ∧
  ∃ reply, on_control (env r') = on_control (env r) ++ taken reply w' ∧
    m_data reply = frame {| src_mac := local_mac_ stack; dst_mac := seg_src_mac seg; src_ip := local_ip_ stack;
                            dst_ip := seg_src_ip seg; src_port := seg_dst_port seg; dst_port := seg_src_port seg |}
                     isn (u32 (seg_seq seg + 1)) (Z.lor RTE_TCP_SYN_FLAG RTE_TCP_ACK_FLAG) (receive_window (params_ stack)) [] (mss_ stack).
Proof using All.
  intros Hcfg Hr Hw Hparse Hsyn Hack Hrst Hport r0 Hnone Hfree Halloc Hroom isn r' c.
  destruct (reachable_sys r Hcfg Hr) as [[m0 Hinv] Hq _]. pose proof Hq as (Ha0 & Hf0 & Hc0).
  assert (Hinv0 : inv stack m0 (set_events r [])) by (by eapply inv_quiet; [|exact Hinv]).
  destruct (reap_spec stack m0 (set_events r []) Hinv0 Ha0) as (Hinvr & Har & Hfr & Hcr & Her & Henv & _). fold r0 in Hinvr, Har, Hfr, Hcr, Her, Henv.
  pose proof (parse_frame_ok _ _ _ _ Hw Hparse) as Hseg. change (env (set_events r [])) with (env r) in Henv. rewrite <- Henv in Halloc.
  destruct (syn_queued m0 r0 seg i rest m w' Hcfg Hinvr ltac:(by rewrite Hcr) Hseg Hsyn Hack Hrst Hport Hnone Hfree Halloc Hroom)
    as (reply & Hs & He & Ha & Hf & Hfind & Hct & Hw' & Hd). rewrite Henv in Hs, Hd. fold isn in Hs, Hd.
  assert (Hproc : process stack r0 pkt = process_tcp stack r0 seg) by (unfold process; by rewrite Hparse).
  destruct (poll_one r pkt) as (P1 & P2 & P3 & _ & P5); fold r0; rewrite ?Hproc; [by rewrite Ha|by rewrite Hf, Hfr|].
  fold r0 in P1, P2, P3, P5. rewrite Hproc in P1, P2, P3, P5. fold r' in P2, P3, P5.
  assert (Hc : c = opened stack (slot r0 i) seg isn) by (subst c; unfold slot; rewrite P2; exact Hs).
  assert (Hi : inr n i) by (apply (i_free _ _ _ Hinvr); rewrite Hfree; by left).
  destruct (poll_inv stack control_txq m0 r [pkt] Hinv Hq (proj2 (ck_n _ Hcfg)) ltac:(by constructor)) as (m' & Hinv' & _). fold r' in Hinv'.
  split_and!; try (by rewrite Hc).
  - by rewrite P1, He, Her.
  - by rewrite P3.
  - split; [done|]. change (slot r' i) with c. rewrite Hc. split; [done|]. intros Hx. destruct (i_await _ _ _ Hinv' i Hx) as (_ & Hcl & _).
    change (slot r' i) with c in Hcl. by rewrite Hc in Hcl.
  - intros S. rewrite Hc. split; [lia|intros _; cbn; by rewrite Z.add_0_r|]. cbn. intros [?|[?|?]]; done.
  - exists reply. split; [|exact Hd]. rewrite P5, (flush_one _ reply Hct), Hw'. f_equal.
    pose proof (wire_alloc (q_port control_txq) (q_id control_txq) (pool_ stack) (rte_rand (env r)).2) as Hwa. rewrite <- Henv, Halloc in Hwa.
    cbn [snd] in Hwa. by rewrite Hwa, Henv, wire_rand.
Qed.

(** What a segment occupies of the sequence space. *)
Definition occupies (seg : segment) : Z :=
  seg_len seg + (if has seg RTE_TCP_SYN_FLAG then 1 else 0) + (if has seg RTE_TCP_FIN_FLAG then 1 else 0).

Lemma rst_queued (r : impl E) seg m w' : mac_ok (local_mac_ stack) → seg_ok seg → control r = [] → has seg RTE_TCP_RST_FLAG = false →
  rte_pktmbuf_alloc (pool_ stack) (env r) = (Some m, w') → 58 <= m_tailroom m →
  ∃ pkt, control (send_rst_for stack r seg) = [pkt] ∧ env (send_rst_for stack r seg) = w' ∧
    m_data pkt = frame {| src_mac := local_mac_ stack; dst_mac := seg_src_mac seg; src_ip := local_ip_ stack;
                          dst_ip := seg_src_ip seg; src_port := seg_dst_port seg; dst_port := seg_src_port seg |}
                   (if has seg RTE_TCP_ACK_FLAG then seg_ack seg else 0)
                   (if has seg RTE_TCP_ACK_FLAG then 0 else u32 (seg_seq seg + occupies seg))
                   (if has seg RTE_TCP_ACK_FLAG then RTE_TCP_RST_FLAG else Z.lor RTE_TCP_RST_FLAG RTE_TCP_ACK_FLAG) 0 [] 0.
Proof using DpdkLaws0.
  intros Hmac Hseg Hctl Hrst Halloc Hroom. unfold send_rst_for. rewrite Hrst.
  set (a := {| src_mac := _ |}).
  destruct (has seg RTE_TCP_ACK_FLAG);
    [destruct (build_queued r a (seg_ack seg) 0 RTE_TCP_RST_FLAG 0 0 m w') as (pkt & -> & Hd)
    |destruct (build_queued r a 0 (u32 (seg_seq seg + u32 (occupies seg))) (Z.lor RTE_TCP_RST_FLAG RTE_TCP_ACK_FLAG) 0 0 m w') as (pkt & Hb & Hd);
     [..|unfold occupies in Hb; rewrite Hb]];
    try done; try apply Hseg; unfold queue_control; cbn [control set_env bump set_stats]; rewrite Hctl; exists pkt; split_and!; try done.
  by rewrite Hd, (Z.add_comm (seg_seq seg)), u32_add_l, (Z.add_comm (occupies seg)).
Qed.

(** A segment refused by [process_tcp]. *)
Lemma refusal_queued (r : impl E) seg m w' : mac_ok (local_mac_ stack) → control r = [] → seg_ok seg →
  flow_table.find (flows r) (seg_key seg) = flow_table.npos →
  has seg RTE_TCP_SYN_FLAG = false ∨ has seg RTE_TCP_ACK_FLAG = true ∨ has seg RTE_TCP_RST_FLAG = true ∨
    seg_dst_port seg ∉ listening_ stack ∨ free_slots r = [] →
  rte_pktmbuf_alloc (pool_ stack) (env r) = (Some m, w') → 58 <= m_tailroom m →
  let r' := process_tcp stack r seg in
  ∃ r0 : impl E, r' = send_rst_for stack r0 seg ∧ silent r r' ∧ control r0 = [] ∧ env r0 = env r.
Proof using.
  intros Hmac Hctl Hseg Hnone Hwhy Halloc Hroom r'.
  assert (Hp : ∃ r0 : impl E, r' = send_rst_for stack r0 seg ∧ silent r r0 ∧ control r0 = [] ∧ env r0 = env r).
  { subst r'. unfold process_tcp. fold (seg_key seg). rewrite Hnone. cbn [negb Z.eqb flow_table.npos].
    destruct (_ && _) eqn:Ec; [|by exists r]. apply andb_prop in Ec as [Ec Hl]. apply andb_prop in Ec as [Ec Hx]. apply andb_prop in Ec as [Hs Ha].
    apply negb_true_iff in Ha, Hx. destruct Hwhy as [?|[?|[?|[Hp|Hf]]]]; [congruence..| |unfold open; rewrite Hf; by exists (bump r (add_no_free_slot 1))].
    exfalso. apply Hp. unfold listen_set_contains in Hl. apply existsb_exists in Hl as (x & Hin & ->%Z.eqb_eq). by apply list_elem_of_In. }
  destruct Hp as (r0 & -> & E1 & E2 & E3). exists r0. split_and!; try done. eapply silent_trans; [exact E1|apply send_rst_silent].
Qed.

(** C27. A segment no connection wants is refused as RFC 793 asks: when a
    [poll] receives one that belongs to no live connection and is not a SYN the
    table can take, the connections, the table and the free list stay as
    reaping left them, nothing is reported, and the control queue is offered a
    reset to the sender: it takes its sequence number from an ACK, otherwise it
    has sequence number 0 and acknowledges all the segment occupies, SYN and
    FIN included; a reset itself is never answered. *)
Theorem unwanted_segment_is_reset r pkt seg m w' : stack_ok stack → reachable r → pkt_wf pkt →
  parse_frame (E := E) (verify_checksums (params_ stack)) (local_ip_ stack) pkt = V_tcp seg →
  let r0 := reap_released (set_events r []) in
  flow_table.find (flows r0) (seg_key seg) = flow_table.npos →
  has seg RTE_TCP_SYN_FLAG = false ∨ has seg RTE_TCP_ACK_FLAG = true ∨ has seg RTE_TCP_RST_FLAG = true ∨
    seg_dst_port seg ∉ listening_ stack ∨ free_slots r0 = [] →
  rte_pktmbuf_alloc (pool_ stack) (env r) = (Some m, w') → 58 <= m_tailroom m →
  let r' := (poll stack control_txq r [pkt]).2 in
  (poll stack control_txq r [pkt]).1 = [] ∧ slots r' = slots r0 ∧ flows r' = flows r0 ∧ free_slots r' = free_slots r0 ∧
  if has seg RTE_TCP_RST_FLAG then on_control (env r') = on_control (env r) else
  ∃ reply, on_control (env r') = on_control (env r) ++ taken reply w' ∧
    m_data reply = frame {| src_mac := local_mac_ stack; dst_mac := seg_src_mac seg; src_ip := local_ip_ stack;
                            dst_ip := seg_src_ip seg; src_port := seg_dst_port seg; dst_port := seg_src_port seg |}
                   (if has seg RTE_TCP_ACK_FLAG then seg_ack seg else 0)
                   (if has seg RTE_TCP_ACK_FLAG then 0 else u32 (seg_seq seg + occupies seg))
                   (if has seg RTE_TCP_ACK_FLAG then RTE_TCP_RST_FLAG else Z.lor RTE_TCP_RST_FLAG RTE_TCP_ACK_FLAG) 0 [] 0.
Proof using All.
  intros Hcfg Hr Hw Hparse r0 Hnone Hwhy Halloc Hroom r'. destruct (reachable_sys r Hcfg Hr) as [[m0 Hinv] (Ha0 & Hf0 & Hc0) _].
  assert (Hinv0 : inv stack m0 (set_events r [])) by (by eapply inv_quiet; [|exact Hinv]).
  destruct (reap_spec stack m0 (set_events r []) Hinv0 Ha0) as (_ & Har & Hfr & Hcr & Her & Henv & _). fold r0 in Har, Hfr, Hcr, Her, Henv.
  change (env (set_events r [])) with (env r) in Henv. pose proof (parse_frame_ok _ _ _ _ Hw Hparse) as Hseg.
  assert (Hproc : process stack r0 pkt = process_tcp stack r0 seg) by (unfold process; by rewrite Hparse).
  destruct (refusal_queued r0 seg m w' (ck_mac _ Hcfg) ltac:(by rewrite Hcr) Hseg Hnone Hwhy ltac:(by rewrite Henv) Hroom) as (r2 & Hp & Hs & Hc2 & He2).
  pose proof Hs as (S1 & _ & S3 & S4 & _ & S6 & S7 & S8).
  destruct (poll_one r pkt) as (P1 & P2 & P3 & P4 & P5); fold r0; rewrite ?Hproc; [by rewrite S6|by rewrite S7, Hfr|].
  fold r0 in P1, P2, P3, P4, P5. rewrite Hproc in P1, P2, P3, P4, P5. fold r' in P2, P3, P4, P5.
  split_and!; [by rewrite P1, S8, Her|congruence..|]. rewrite P5, Hp. destruct (has seg RTE_TCP_RST_FLAG) eqn:Er.
  - unfold send_rst_for, flush_control. rewrite Er, Hc2. congruence.
  - rewrite <- Henv, <- He2 in Halloc. destruct (rst_queued r2 seg m w' (ck_mac _ Hcfg) Hseg Hc2 Er Halloc Hroom) as (reply & Hct & Hw' & Hd).
    exists reply. split; [|exact Hd]. rewrite (flush_one _ reply Hct), Hw'. f_equal.
    pose proof (wire_alloc (q_port control_txq) (q_id control_txq) (pool_ stack) (env r2)) as Hwa. rewrite Halloc in Hwa. cbn [snd] in Hwa.
    by rewrite Hwa, He2, Henv.
Qed.
End running.

(** ** The theorems at work on the exchange of Scenario.v *)

Section run.
#[local] Existing Instances sim.ops sim.laws sim.account sim.wires.

Abbreviation reached := (reachable demo.stack demo.control_txq demo.data_txq).

Lemma reached_boot : reached demo.boot.
Proof. exists (sim.start 64 2048). constructor. Qed.
Lemma reached_poll r burst : reached r → forallb demo.wfb burst = true → Z.of_nat (length burst) <= burst_max_size →
  reached (demo.poll r burst).
Proof.
  intros Hr Hb Hl. eapply reachable_step; [exact Hr|]. apply ws_call, step_poll; [by apply demo.wfb_all|done].
Qed.
Lemma reached_half : reached demo.half_open.
Proof. apply reached_poll; [exact reached_boot|vm_compute; reflexivity|vm_compute; discriminate]. Qed.
Lemma reached_open : reached demo.open.
Proof. apply reached_poll; [exact reached_half|vm_compute; reflexivity|vm_compute; discriminate]. Qed.

Lemma connection_table_consistent_witness :
  reached demo.open ∧ flow_table.find (flows demo.open) (flow_key (slot demo.open 0)) = 0.
Proof.
  split; [exact reached_open|].
  destruct (connection_table_consistent demo.stack demo.control_txq demo.data_txq demo.open demo_ok reached_open) as (Hf & _).
  apply Hf.
  - vm_compute. discriminate.
  - split; [discriminate|reflexivity].
  - split; [vm_compute; discriminate|]. split; [|reflexivity]. apply (bool_decide_unpack _). vm_compute. exact I.
Defined.

Lemma connection_values_consistent_witness : state (slot demo.open 0) ≠ st_free ∧ 0 <= flight (slot demo.open 0) <= 65536.
Proof.
  assert (Hs : state (slot demo.open 0) ≠ st_free) by (vm_compute; discriminate). split; [exact Hs|].
  destruct (connection_values_consistent demo.stack demo.control_txq demo.data_txq demo.open 0 demo_ok reached_open) as (_ & _ & [Hl Hu] & _);
    [split; [discriminate|reflexivity]|exact Hs|]. split; [exact Hl|]. destruct (flag _ _); lia.
Defined.

Lemma slots_well_typed_witness : is_u64 (send_window (slot demo.open 0)) ∧ is_u32 (generation (slot demo.open 1)).
Proof.
  split.
  - apply (slots_well_typed demo.stack demo.control_txq demo.data_txq demo.open 0 demo_ok reached_open).
    split; [discriminate|reflexivity].
  - apply (slots_well_typed demo.stack demo.control_txq demo.data_txq demo.open 1 demo_ok reached_open).
    split; [discriminate|reflexivity].
Defined.

Lemma poll_buffers_suffice_witness :
  Z.of_nat (length (poll demo.stack demo.control_txq demo.open [demo.fin; demo.syn; demo.ack_hi]).1) <= 96.
Proof.
  destruct (poll_buffers_suffice demo.stack demo.control_txq demo.data_txq demo.open [demo.fin; demo.syn; demo.ack_hi] demo_ok reached_open)
    as [Hx _]; [apply demo.wfb_all; vm_compute; reflexivity|vm_compute; discriminate|exact Hx].
Defined.

Lemma calls_balance_mbufs_witness : held (env demo.open) = held (env demo.half_open).
Proof.
  apply (calls_balance_mbufs demo.stack demo.control_txq demo.data_txq demo.half_open demo.open demo_ok reached_half).
  apply (step_poll _ _ _ demo.half_open [demo.ack_hi]); [apply demo.wfb_all; vm_compute; reflexivity|vm_compute; discriminate].
Defined.

Lemma open_permitted : permitted demo.stack demo.open demo.conn.
Proof. right. split; [split; [discriminate|reflexivity]|vm_compute; discriminate]. Qed.
Lemma open_ready k : (k <= 60)%nat → sim_ready k (env demo.open).
Proof. intros Hk. split; [|split; [vm_compute; reflexivity|vm_compute; discriminate]].
  assert (He : sim.e_pool (env demo.open) = 62) by (vm_compute; reflexivity). rewrite He. lia. Qed.

(** All five bytes go out at once. *)
Lemma send_transmits_prefix_witness : ∃ s w, send demo.stack demo.data_txq (slots demo.open) demo.conn [1; 2; 3; 4; 5] (env demo.open) = Some (5, s, w).
Proof.
  destruct (send_transmits_prefix demo.stack demo.control_txq demo.data_txq demo.open demo.conn [1; 2; 3; 4; 5] demo_ok reached_open open_permitted)
    as (segs & k & w' & Hs & _ & _ & Hk).
  assert (Hd : sendable demo.stack (slots demo.open) demo.conn = true) by (vm_compute; reflexivity). rewrite Hd in Hs, Hk.
  assert (Hl : Z.min (Z.of_nat (length [1; 2; 3; 4; 5])) (window_space (send_window (slot demo.open (cid_slot demo.conn)))
             (snd_nxt (slot demo.open (cid_slot demo.conn)))) = 5) by (vm_compute; reflexivity).
  rewrite Hl in Hk. rewrite (Hk sim_ready) in Hs; [|apply sim_means; cbn; lia|apply open_ready; lia].
  eexists _, w'. exact Hs.
Defined.

Lemma close_sends_one_fin_witness : ∃ m w', close demo.stack demo.data_txq (slots demo.open) demo.conn (env demo.open) =
    (put_conn (slots demo.open) 0 (closed_by_us (slot demo.open 0)), w') ∧
  wire 0 1 w' = wire 0 1 (env demo.open) ++ [m] ∧ m_data m = fin_frame demo.stack (slot demo.open 0) (snd_nxt (slot demo.open 0)).
Proof.
  destruct (close_sends_one_fin demo.stack demo.control_txq demo.data_txq demo.open demo.conn 0 demo_ok reached_open open_permitted)
    as (out & w' & Hc & Hw & Ho & Hp & _); [vm_compute; reflexivity|].
  destruct Ho as [Hx|(_ & _ & m & -> & Hd)].
  - exfalso. apply (Hp ltac:(vm_compute; reflexivity) ltac:(vm_compute; reflexivity) sim_ready); [apply sim_means; cbn; lia|apply open_ready; lia|exact Hx].
  - exists m, w'. split; [exact Hc|]. split; [exact Hw|exact Hd].
Defined.

(** The peer's stream is "hi!"; "hi" came with the handshake. *)
Definition more : rte_mbuf := demo.from_peer 1003 1 0x10 [33].
Lemma open_stream : stream_inv [104; 105; 33] (slot demo.open 0) 2.
Proof.
  split; [cbn; lia|intros _; vm_compute; reflexivity|].
  assert (Hs : state (slot demo.open 0) = st_established) by (vm_compute; reflexivity). rewrite Hs. intros [|[|]]; discriminate.
Qed.
Lemma is_peer_seg S isn seg flags off len : isn = 1000 → seg_seq seg = 1001 + off → seg_len seg = len → seg_flags seg = flags →
  seg_payload seg = sub S (Z.to_nat off) (Z.to_nat len) → Z.land flags RTE_TCP_FIN_FLAG = 0 →
  0 <= off < 2 ^ 16 → 0 <= len → off + len <= Z.of_nat (length S) → peer_seg S isn seg off.
Proof.
  intros -> Es El Ef Ep Hf Ho Hl He. split; rewrite ?El, ?Es; try lia; [mlia|done|]. unfold has. rewrite Ef, Hf. discriminate.
Qed.
Lemma more_seg : peer_seg [104; 105; 33] (irs (slot demo.open 0)) (demo_seg more) 2.
Proof. apply (is_peer_seg _ _ _ 0x10 2 1); (lia || (vm_compute; reflexivity) || (vm_compute; discriminate)). Qed.
Lemma again_seg : peer_seg [104; 105; 33] (irs (slot demo.open 0)) (demo_seg demo.ack_hi) 0.
Proof. apply (is_peer_seg _ _ _ 0x10 0 2); (lia || (vm_compute; reflexivity) || (vm_compute; discriminate)). Qed.
Lemma open_live : live demo.stack demo.open 0.
Proof.
  split; [split; [discriminate|reflexivity]|]. split; [vm_compute; discriminate|].
  apply (bool_decide_unpack _). vm_compute. exact I.
Qed.

Lemma half_stream S : stream_inv S (slot demo.half_open 0) 0.
Proof.
  split; [lia|intros _; vm_compute; reflexivity|].
  assert (Hs : state (slot demo.half_open 0) = st_syn_received) by (vm_compute; reflexivity). rewrite Hs. intros [|[|]]; discriminate.
Qed.

(** A byte that comes too early, then the end of the handshake with two. *)
Lemma poll_delivers_stream_witness : ∃ pos', 0 <= pos' <= 3 ∧
  delivered (events_of 0 (poll demo.stack demo.control_txq demo.half_open [more; demo.ack_hi]).1) = sub [104; 105; 33] 0 (Z.to_nat (pos' - 0)) ∧
  head (ev_type <$> events_of 0 (poll demo.stack demo.control_txq demo.half_open [more; demo.ack_hi]).1) = Some ev_accepted.
Proof.
  assert (Hl : segs_for (E := sim.env) demo.stack (flow_key (slot demo.half_open 0)) [more; demo.ack_hi] =
                 [demo_seg more; demo_seg demo.ack_hi]) by (vm_compute; reflexivity).
  destruct (poll_delivers_stream demo.stack demo.control_txq demo.data_txq demo.half_open 0 [104; 105; 33] 0 [more; demo.ack_hi]
    demo_ok reached_half) as (pos' & Hp & Hd & _ & Ho & _).
  - split; [split; [discriminate|reflexivity]|]. split; [vm_compute; discriminate|]. apply (bool_decide_unpack _). vm_compute. exact I.
  - apply demo.wfb_all. vm_compute. reflexivity.
  - cbn. lia.
  - apply half_stream.
  - rewrite Hl. assert (Hi : irs (slot demo.half_open 0) = irs (slot demo.open 0)) by (vm_compute; reflexivity). rewrite Hi.
    constructor; [exists 2; exact more_seg|]. constructor; [|constructor]. exists 0. exact again_seg.
  - intros _. rewrite Hl. constructor; [vm_compute; reflexivity|]. constructor; [vm_compute; reflexivity|constructor].
  - exists pos'. split; [exact Hp|]. split; [exact Hd|]. destruct Ho as [He|Ho]; [vm_compute; reflexivity|vm_compute in He; discriminate He|exact Ho].
Defined.

Lemma in_order_segment_delivered_witness :
  delivered (events_of 0 (poll demo.stack demo.control_txq demo.open [more]).1) = [33].
Proof.
  apply (in_order_segment_delivered demo.stack demo.control_txq demo.data_txq demo.open 0 [104; 105; 33] 2 more (demo_seg more) 2
    demo_ok reached_open open_live).
  - apply demo.wfb_ok. vm_compute. reflexivity.
  - cbn. lia.
  - exact open_stream.
  - left. vm_compute. reflexivity.
  - vm_compute. reflexivity.
  - exact more_seg.
  - vm_compute. split; [discriminate|reflexivity].
  - repeat split.
  - vm_compute. reflexivity.
Defined.

Lemma reopened_slot_refuses_old_ids_witness :
  lookup demo.stack (slots (TcpReceiver.open demo.stack demo.boot (demo_seg demo.syn))) null_id = None.
Proof.
  destruct (reopened_slot_refuses_old_ids demo.stack demo.control_txq demo.data_txq demo.boot (demo_seg demo.syn) 0 [1] demo_ok reached_boot)
    as (Hg & _ & Hl); [reflexivity|].
  unfold null_id. rewrite Hl, Hg. reflexivity.
Defined.

(** The connection is reset, then the application closes it. *)
Definition was_reset : impl sim.env := demo.poll demo.open [demo.from_peer 1003 1 0x14 []].
Definition was_closed : impl sim.env :=
  let p := close demo.stack demo.data_txq (slots was_reset) demo.conn (env was_reset) in store was_reset p.1 p.2.
Lemma reached_closed : reached was_closed.
Proof.
  pose proof (reached_poll demo.open [demo.from_peer 1003 1 0x14 []] reached_open
    ltac:(vm_compute; reflexivity) ltac:(vm_compute; discriminate)) as Hw. fold was_reset in Hw. eapply reachable_step; [exact Hw|].
  apply ws_call, (step_close _ _ _ _ demo.conn); [|unfold was_closed; by destruct (close _ _ _ _ _)].
  right. split; [split; [discriminate|reflexivity]|vm_compute; discriminate].
Qed.

Lemma released_slots_are_recycled_witness : awaiting_release was_closed = [0] ∧ 0 ∈ free_slots (reap_released was_closed).
Proof.
  assert (Ha : awaiting_release was_closed = [0]) by (vm_compute; reflexivity). split; [exact Ha|].
  pose proof (released_slots_are_recycled demo.stack demo.control_txq demo.data_txq was_closed 0 demo_ok reached_closed) as Hx.
  rewrite Ha in Hx. specialize (Hx ltac:(by left)). cbv zeta in Hx.
  assert (Hf : flag (out_flags (slot was_closed 0)) out_released = true) by (vm_compute; reflexivity). rewrite Hf in Hx. apply Hx.
Defined.

Lemma demo_seg_ok pkt : forallb demo.wfb [pkt] = true → (∃ s, parse_frame true 0x0a000001 pkt = V_tcp s) → seg_ok (demo_seg pkt).
Proof.
  intros Hw [s Hs]. unfold demo_seg. rewrite Hs. eapply parse_frame_ok; [|exact Hs]. apply demo.wfb_ok.
  by apply andb_prop in Hw as [? _].
Qed.

Lemma syn_is_answered_witness : state (slot (demo.poll demo.boot [demo.syn]) 0) = st_syn_received ∧
  ∃ reply, wire 0 (q_id demo.control_txq) (env (demo.poll demo.boot [demo.syn])) = [reply] ∧
  m_data reply = frame {| src_mac := [2; 0; 0; 0; 0; 1]; dst_mac := [2; 0; 0; 0; 0; 2]; src_ip := 0x0a000001; dst_ip := 0x0a000002;
                          src_port := 80; dst_port := 40000 |} 0 1001 0x12 65535 [] 1460.
Proof.
  destruct (rte_pktmbuf_alloc (pool_ demo.stack) (rte_rand (env demo.boot)).2) as [[m|] w'] eqn:Ha; [|discriminate].
  destruct (syn_is_answered demo.stack demo.control_txq demo.data_txq demo.boot demo.syn (demo_seg demo.syn) 0 [1] m w' demo_ok reached_boot)
    as (_ & _ & _ & _ & Hs & _ & _ & _ & _ & _ & reply & Hwire & Hd); try (vm_compute; reflexivity).
  - apply demo.wfb_ok. vm_compute. reflexivity.
  - by left.
  - exact Ha.
  - injection Ha as <- _. vm_compute. discriminate.
  - split; [exact Hs|]. exists reply. split; [|exact Hd]. injection Ha as _ <-. exact Hwire.
Defined.

(** An ACK out of nowhere. *)
Lemma unwanted_segment_is_reset_witness : (poll demo.stack demo.control_txq demo.boot [demo.ack_hi]).1 = [] ∧
  ∃ reply, wire 0 (q_id demo.control_txq) (env (demo.poll demo.boot [demo.ack_hi])) = [reply] ∧
  m_data reply = frame {| src_mac := [2; 0; 0; 0; 0; 1]; dst_mac := [2; 0; 0; 0; 0; 2]; src_ip := 0x0a000001; dst_ip := 0x0a000002;
                          src_port := 80; dst_port := 40000 |} 1 0 RTE_TCP_RST_FLAG 0 [] 0.
Proof.
  destruct (rte_pktmbuf_alloc (pool_ demo.stack) (env demo.boot)) as [[m|] w'] eqn:Ha; [|discriminate].
  destruct (unwanted_segment_is_reset demo.stack demo.control_txq demo.data_txq demo.boot demo.ack_hi (demo_seg demo.ack_hi) m w' demo_ok reached_boot)
    as (He & _ & _ & _ & Hx).
  - apply demo.wfb_ok. vm_compute. reflexivity.
  - vm_compute. reflexivity.
  - vm_compute. reflexivity.
  - left. vm_compute. reflexivity.
  - exact Ha.
  - injection Ha as <- _. vm_compute. discriminate.
  - assert (Hrst : has (demo_seg demo.ack_hi) RTE_TCP_RST_FLAG = false) by (vm_compute; reflexivity). rewrite Hrst in Hx.
    destruct Hx as (reply & Hwire & Hd). split; [exact He|]. exists reply. injection Ha as _ <-. split; [exact Hwire|exact Hd].
Defined.
End run.
