(* ===== verification/TcpFineStream.v ===== *)
(** * The byte stream under interference

    TcpStream.v shows what a [poll] delivers when it runs alone.  Here the sender
    moves between its steps: it may send, announce a FIN in the middle of the
    burst or release a connection.  What the application reads stays the peer's
    stream. *)

From S2P Require Import Prelude Probing FlowTable Dpdk DpdkSim Packet Segment SegmentWire SeqArith Arp TcpState TcpReceiver.
From S2P Require Import TcpConn TcpDiagram TcpInv TcpPoll TcpSender TcpValues TcpSystem TcpStream TcpIds TcpSetup TcpThreads TcpRely TcpCalls.
From S2P Require Import Scenario TcpFine TcpRaces TcpTheorems.

Section fine_stream.
Context {E : Type} `{DpdkOps E} `{!DpdkLaws E} `{!DpdkAccount E} `{!DpdkWire E}.
Context (stack : tcp_stack) (control_txq data_txq : queue).
Abbreviation n := (max_connections (params_ stack)).

(** A step that does not begin another [poll]. *)
Inductive poll_move : threads E → threads E → Prop :=
  | pm_in r pc out pc' r' : pc ≠ In_idle → in_step stack control_txq pc r = (pc', r') →
      poll_move (Threads r pc out) (Threads r' pc' (witnesses r' <$> out))
  | pm_out st st' : out_move stack data_txq st st' → poll_move st st'.

Lemma poll_move_fine st st' : poll_move st st' → fine_step stack control_txq data_txq st st'.
Proof using. intros [r pc out pc' r' Hne Hs|s s' Hm]; [by apply fs_in|by apply fs_out]. Qed.

(** The packets still to come. *)
Definition pending (pc : in_pc) : list rte_mbuf := match pc with In_reap _ b | In_packets b => b | _ => [] end.
Definition before_acks (pc : in_pc) : Prop := match pc with In_reap _ _ | In_packets _ => True | _ => False end.

(** The connection: slot [i] with generation [g], flow [k] and the peer's [isn]. *)
Context (S : list Z) (i g k isn pos : Z) (half_open : Prop).

(** What has been reported of it so far. *)
Record reported (evs : list tcp_event) (pos' : Z) : Prop := {
  rp_pos : 0 <= pos ∧ pos <= pos' <= Z.of_nat (length S);
  rp_data : delivered evs = sub S (Z.to_nat pos) (Z.to_nat (pos' - pos));
  rp_conn : Forall (λ e, ev_conn e = {| cid_slot := i; cid_generation := g |}) evs;
  rp_open : half_open → evs = [] ∨ head (ev_type <$> evs) = Some ev_accepted;
  rp_end : ev_peer_closed ∈ ev_type <$> evs ∨ ev_closed ∈ ev_type <$> evs → pos' = Z.of_nat (length S) }.

(** The slot of a stream that goes on at [pos']. *)
Record ongoing (r : impl E) (pos' : Z) : Prop := {
  og_live : live stack r i;
  og_id : generation (slot r i) = g ∧ flow_key (slot r i) = k ∧ irs (slot r i) = isn;
  og_stream : stream_inv S (slot r i) pos' }.

Definition over_reported (evs : list tcp_event) : Prop := ev_closed ∈ ev_type <$> evs ∨ ev_reset ∈ ev_type <$> evs.

Record streaming (st : threads E) (pos' : Z) : Prop := {
  sm_reported : reported (events_of i (events (t_impl st))) pos';
  sm_segs : Forall (λ seg, ∃ off, peer_seg S isn seg off) (segs_for (E := E) stack k (pending (t_in st)));
  sm_open : before_acks (t_in st) → ongoing (t_impl st) pos' ∧ kept (slot (t_impl st) i) (segs_for (E := E) stack k (pending (t_in st))) ∧
    (half_open → events_of i (events (t_impl st)) = [] → state (slot (t_impl st) i) = st_syn_received);
  sm_over : ¬ over_reported (events_of i (events (t_impl st))) → ongoing (t_impl st) pos' ∧ state (slot (t_impl st) i) ≠ st_closed }.

(** ** Steps that report nothing *)

Lemma ongoing_same (r r' : impl E) pos' : ongoing r pos' → rx_view (slot r' i) = rx_view (slot r i) → i ∉ awaiting_release r' → ongoing r' pos'.
Proof using.
  intros [(Hi & Hnf & _) (Hg & Hk & Hisn) Hst] Hv Ha. injection Hv as V1 V2 V3 V4 V5.
  split; [split_and!; [done|by rewrite V3|done]|split_and!; congruence|]. eapply stream_same; [exact Hst|done|done|by rewrite V3..].
Qed.

(** A move that keeps the events, the rest of the burst and, of a connection that
    is not over, the receive side. *)
Lemma streaming_same st st' pos' : streaming st pos' → events (t_impl st') = events (t_impl st) →
  pending (t_in st') = pending (t_in st) → (before_acks (t_in st') → before_acks (t_in st)) →
  (before_acks (t_in st') ∨ state (slot (t_impl st) i) ≠ st_closed → i ∉ awaiting_release (t_impl st) →
     rx_view (slot (t_impl st') i) = rx_view (slot (t_impl st) i) ∧ i ∉ awaiting_release (t_impl st')) → streaming st' pos'.
Proof using.
  intros [Hrep Hsegs Hopen Hover] He Hp Hb Hkeep. split; rewrite ?He, ?Hp; [done|done| |].
  - intros Hba. destruct (Hopen (Hb Hba)) as (Hog & Hkept & Hho). pose proof Hog as [(_ & _ & Hna) _ _].
    destruct (Hkeep (or_introl Hba) Hna) as [Hv Ha]. split_and!; [by eapply ongoing_same| |].
    + unfold kept. injection Hv as _ _ -> _ _. exact Hkept.
    + injection Hv as _ _ -> _ _. exact Hho.
  - intros Hno. destruct (Hover Hno) as [Hog Hnc]. pose proof Hog as [(_ & _ & Hna) _ _].
    destruct (Hkeep (or_intror Hnc) Hna) as [Hv Ha]. split; [by eapply ongoing_same|]. injection Hv as _ _ -> _ _. exact Hnc.
Qed.

Lemma out_move_rest st st' : out_move stack data_txq st st' → t_in st' = t_in st ∧ events (t_impl st') = events (t_impl st) ∧
  awaiting_release (t_impl st') = awaiting_release (t_impl st).
Proof using.
  intros [r pc conn j Hu|r pc c p r' Hs|r pc c res Hres|r pc out w Hw]; cbn; try done. split; [done|]. by destruct Hs.
Qed.

Lemma sender_store_rx c c' : sender_store c c' → rx_view c' = rx_view c.
Proof using. by intros []. Qed.

Lemma streaming_out st st' pos' : fine_inv stack data_txq st → inr n i → streaming st pos' → out_move stack data_txq st st' → streaming st' pos'.
Proof using.
  intros Hinv Hi Hst Hm. destruct (out_move_rest st st' Hm) as (Ep & Ee & Ea).
  apply (streaming_same st); [done|done|by rewrite Ep|by rewrite Ep|]. rewrite Ea. intros _ Hna. split; [|done].
  apply sender_store_rx. by eapply out_move_store.
Qed.

(** ** A packet *)

Lemma reported_more evs pos1 c p : reported evs pos1 → generation c = g → delivers S c pos1 p → stream_inv S c pos1 →
  (half_open → evs = [] → p.2 = [] ∨ ∃ l, p.2 = (ev_accepted, []) :: l) →
  ∃ pos2, pos1 <= pos2 ∧ stream_inv S p.1 pos2 ∧ irs p.1 = irs c ∧ reported (evs ++ (stamp i c <$> p.2)) pos2.
Proof using.
  intros [Rp Rd Rc Ro Re] Hg (pos2 & Hle & Hst & Hirs & Hd & Hends) Hst0 Hho. exists pos2. split_and!; [done|done|done|].
  destruct Hst as [[P1 P2] _ _]. split.
  - lia.
  - unfold delivered. rewrite omap_app, concat_app. fold (delivered evs) (delivered (stamp i c <$> p.2)). rewrite Rd, delivered_stamp, Hd.
    unfold sub. replace (Z.to_nat pos1) with (Z.to_nat pos + Z.to_nat (pos1 - pos))%nat by lia. rewrite <- drop_drop, take_take_drop.
    f_equal. lia.
  - apply Forall_app. split; [done|]. apply Forall_fmap, Forall_forall. intros h _. cbn. by rewrite Hg.
  - intros Hh. destruct (Ro Hh) as [->|Hx].
    + cbn [app]. destruct (Hho Hh eq_refl) as [->|[l ->]]; [by left|by right].
    + right. destruct evs; [done|exact Hx].
  - rewrite fmap_app, types_stamp, !elem_of_app. intros Hx.
    assert (Hc : (ev_peer_closed ∈ ev_type <$> evs ∨ ev_closed ∈ ev_type <$> evs) ∨ (ev_peer_closed ∈ p.2.*1 ∨ ev_closed ∈ p.2.*1)) by tauto.
    destruct Hc as [Hc|Hc]; [specialize (Re Hc); lia|]. apply Hends. by apply ends_types.
Qed.
Lemma segment_opens c seg : state c = st_syn_received →
  (conn_segment stack c seg).2 = [] ∧ (conn_segment stack c seg).1 = c ∨ ∃ l, (conn_segment stack c seg).2 = (ev_accepted, []) :: l.
Proof using.
  intros Hs. destruct (sync_state c) as [_ Sy]. unfold conn_segment. rewrite Sy, Hs by (rewrite Hs; by intros (_ & ? & _)).
  destruct (_ || _); [by left|]. destruct (conn_data _ _) as [c' evs]. right. by eexists.
Qed.

Lemma events_of_app (e1 e2 : list tcp_event) : events_of i (e1 ++ e2) = events_of i e1 ++ events_of i e2.
Proof using. apply filter_app. Qed.

Lemma streaming_packet r pkt b out out' pos1 : stack_ok stack → in_inv stack (In_packets (pkt :: b)) r → Z.of_nat (length S) < 2 ^ 31 - 1 →
  streaming (Threads r (In_packets (pkt :: b)) out) pos1 →
  ∃ pos2, streaming (Threads (process stack r pkt) (In_packets b) out') pos2.
Proof using.
  intros Hcfg [[m Hinv] Hpc _] HS [Hrep Hsegs Hopen Hover]. cbn [t_impl t_in pending before_acks core pc_ok] in *.
  destruct (Hopen I) as (Hog & Hkept & Hho). pose proof Hog as [(Hi & Hnf & Hna) (Hg & Hk & Hisn) Hst].
  pose proof (process_demux stack m r i pkt Hinv (proj2 (ck_n _ Hcfg)) (Forall_inv Hpc) (conj Hi (conj Hnf Hna))) as Hd. rewrite Hk in Hd.
  unfold segs_for in Hsegs, Hkept. cbn [omap list_omap] in Hsegs, Hkept. destruct (seg_for stack k pkt) as [seg|] eqn:Eseg.
  - specialize (Hd (λ Es, ltac:(constructor; [exact (Forall_inv (Hkept Es))|constructor]))). apply Forall_cons in Hsegs as [[off Hseg] Hsegs].
    destruct (local_slot _ _ _ _ _ Hd (inv_table stack m r i Hinv Hi)) as [Hs1 _]. set (r1 := process stack r pkt) in *. set (c := slot r i) in *.
    destruct (conn_segment_id stack c seg) as (G1 & G2 & G3 & G4). pose proof (inv_phase stack m r i Hinv Hi) as Hph.
    destruct (segment_live stack c seg Hph Hnf) as [A1 _]. rewrite <- Hisn in Hseg.
    assert (He : events_of i (events r1) = events_of i (events r) ++ (stamp i c <$> (conn_segment stack c seg).2)).
    { rewrite (l_events _ _ _ _ _ Hd), events_of_app, stamps_of, decide_True by done. done. }
    destruct (reported_more (events_of i (events r)) pos1 c (conn_segment stack c seg)) as (pos2 & Hle & Hst2 & Hirs2 & Hrep2);
      [done|done|by eapply segment_delivers|done| |].
    { intros Hh Hn. destruct (segment_opens c seg (Hho Hh Hn)) as [[? _]|?]; auto. }
    assert (Hog2 : ongoing r1 pos2).
    { split; [split_and!; [done|by rewrite Hs1|by rewrite (l_await _ _ _ _ _ Hd)]| |by rewrite Hs1].
      rewrite Hs1. split_and!; [congruence|unfold flow_key; rewrite G2, G3, G4; exact Hk|congruence]. }
    exists pos2. split; cbn [t_impl t_in pending before_acks]; rewrite ?He; [done|done| |].
    + intros _. split_and!; [done|rewrite Hs1; by apply segment_kept|]. intros Hh [E1 E2]%app_nil. apply fmap_nil_inv in E2. rewrite Hs1.
      specialize (Hho Hh E1). destruct (segment_opens c seg Hho) as [[_ ->]|[l Hx]]; [done|congruence].
    + intros Hno. unfold over_reported in Hno. rewrite fmap_app, types_stamp, !elem_of_app in Hno. split; [done|]. rewrite Hs1.
      destruct Hover as [_ Hnc]; [unfold over_reported; tauto|].
      intros Hx. destruct (segment_over stack c seg Hnc Hx); tauto.
  - destruct (Hd (λ _, Forall_nil_2 _)) as (Hs1 & Ha1 & He1). exists pos1.
    split; cbn [t_impl t_in pending before_acks]; rewrite ?He1, ?Hs1; [done|done| |].
    + intros _. split_and!; [|done|done]. eapply ongoing_same; [done|by rewrite Hs1|by rewrite Ha1].
    + intros Hno. destruct (Hover Hno) as [_ Hnc]. split; [|done]. eapply ongoing_same; [done|by rewrite Hs1|by rewrite Ha1].
Qed.

(** ** The other steps of [poll] *)

Lemma streaming_in pc r pc' r' out out' pos1 : stack_ok stack → in_inv stack pc r → Z.of_nat (length S) < 2 ^ 31 - 1 → inr n i →
  streaming (Threads r pc out) pos1 → in_step stack control_txq pc r = (pc', r') → ∃ pos2, streaming (Threads r' pc' out') pos2.
Proof using.
  intros Hcfg Hin HS Hi Hst Hs. pose proof Hin as [[m Hinv] Hpc Hsl]. pose proof (in_inv_len _ _ _ Hin) as Hl.
  destruct pc as [|kk burst|[|p burst]|[|j todo]| |[|j todo]]; cbn [in_step core pc_ok] in *;
    try (injection Hs as <- <-; exists pos1; apply (streaming_same _ _ _ Hst); [done|done|by cbn|by intros]).
  - destruct (Nat.ltb_spec kk (length (awaiting_release r))) as [Hk|]; [destruct (flag _ _) eqn:Ef|].
    2,3: injection Hs as <- <-; exists pos1; apply (streaming_same _ _ _ Hst); [done|done|by cbn|by intros].
    injection Hs as <- <-. exists pos1. apply (streaming_same _ _ _ Hst); [done|done|by cbn|]. cbn [t_impl t_in]. intros _ Hna.
    set (j := awaiting_release r !!! kk) in *. assert (Hj : j ∈ awaiting_release r) by (by apply list_elem_of_lookup_total_2).
    destruct (i_await _ _ _ Hinv j Hj) as (Hjr & _). assert (Hne : j ≠ i) by (by intros <-).
    destruct (swap_remove_spec _ kk Hk (i_await_nd _ _ _ Hinv)) as (_ & Hsw & _). split.
    + f_equal. refine (eq_trans (slot_put stack r j i _ Hl Hjr Hi) _). by rewrite decide_False.
    + cbn [awaiting_release set_awaiting_release release_slot set_free_slots put_slot set_slots]. rewrite Hsw. tauto.
  - injection Hs as <- <-. by eapply streaming_packet.
  - injection Hs as <- <-. exists pos1. assert (Hj : inr n j) by (apply (i_acks _ _ _ Hinv); by left).
    pose proof (flush_ack_silent stack r j (in_inv_table _ _ _ _ Hin Hj)) as Hsil.
    apply (streaming_same _ _ _ Hst); cbn [t_impl t_in]; [by destruct Hsil as (_ & _ & _ & _ & _ & _ & _ & ->)|done|by cbn|].
    intros _ Hna. split; [|by destruct Hsil as (_ & _ & _ & _ & -> & _)]. rewrite (silent_slot _ _ i Hsil), (slot_put stack) by done.
    case_decide; [by subst j|done].
  - injection Hs as <- <-. exists pos1. destruct (flush_control_lists control_txq r) as [Hsil _].
    apply (streaming_same _ _ _ Hst); cbn [t_impl t_in]; [by destruct Hsil as (_ & _ & _ & _ & _ & _ & _ & ->)|done|by cbn|].
    intros _ Hna. split; [|by destruct Hsil as (_ & _ & _ & _ & -> & _)]. by rewrite (silent_slot _ _ i Hsil).
  - injection Hs as <- <-. exists pos1. destruct (proj1 (i_fin _ _ _ Hinv j) ltac:(by left)) as [Hj Hfp].
    pose proof (i_finp _ _ _ Hinv j Hj Hfp) as Hcl.
    apply (streaming_same _ _ _ Hst); cbn [t_impl t_in]; [by destruct (finalize_one_rest r j)|done|by cbn|].
    intros [[]|Hnc] Hna. assert (Hne : j ≠ i) by (intros ->; done). split.
    + f_equal. unfold finalize_one, release_slot. cbv zeta. unfold inr in *.
      case_match; unfold slot; cbn; rewrite ?list_insert_insert_eq; apply list_lookup_total_insert_ne; lia.
    + unfold finalize_one. cbv zeta. case_match; cbn; [done|]. rewrite elem_of_app, list_elem_of_singleton. intros [?|?]; [done|congruence].
Qed.
End fine_stream.

Section fine_stream_theorem.
Context {E : Type} `{DpdkOps E} `{!DpdkLaws E} `{!DpdkAccount E} `{!DpdkWire E}.
Context (stack : tcp_stack) (control_txq data_txq : queue).
Abbreviation n := (max_connections (params_ stack)).

Lemma poll_moves_stream S i g k isn pos half_open st st' pos1 : stack_ok stack → own_queues control_txq data_txq →
  Z.of_nat (length S) < 2 ^ 31 - 1 → inr n i → fine_inv stack data_txq st → rtc (poll_move stack control_txq data_txq) st st' →
  streaming stack S i g k isn pos half_open st pos1 → ∃ pos2, streaming stack S i g k isn pos half_open st' pos2.
Proof using DpdkLaws0 DpdkAccount0.
  intros Hcfg Hq HS Hi Hinv Hr. revert pos1 Hinv. induction Hr as [|s1 s2 s3 Hs _ IH]; intros pos1 Hinv Hst; [by exists pos1|].
  assert (H2 : ∃ pos2, streaming stack S i g k isn pos half_open s2 pos2).
  { destruct Hs as [r pc out pc' r' Hne Hs|s s' Hm].
    - destruct Hinv as [Hin _]. by eapply streaming_in.
    - exists pos1. by eapply streaming_out. }
  destruct H2 as [pos2 H2]. eapply IH; [|exact H2]. eapply fine_step_inv; [done|done|exact Hinv|by apply poll_move_fine].
Qed.

(** C9. What the application reads is the peer's stream, also when the outbound
    thread runs: from the moment [poll] is called to the moment it returns the
    sender may be anywhere in its calls, send, announce a FIN between two packets
    of the burst or release connections.  The data events of connection [i] are
    still exactly the next bytes of its stream, all carry its id, the end is
    reported only after the last byte, and unless the connection is over the
    next [poll] continues where this one stopped. *)
Theorem stream_under_interference r out burst st i S pos : stack_ok stack → own_queues control_txq data_txq →
  fine_reachable stack control_txq data_txq (Threads r In_idle out) → live stack r i →
  Forall pkt_wf burst → Z.of_nat (length burst) <= burst_max_size →
  Z.of_nat (length S) < 2 ^ 31 - 1 → stream_inv S (slot r i) pos →
  Forall (λ seg, ∃ off, peer_seg S (irs (slot r i)) seg off) (segs_for (E := E) stack (flow_key (slot r i)) burst) →
  kept (slot r i) (segs_for (E := E) stack (flow_key (slot r i)) burst) →
  rtc (poll_move stack control_txq data_txq) (Threads (in_start burst r).2 (in_start burst r).1 out) st → t_in st = In_idle →
  let evs := events_of i (events (t_impl st)) in
  ∃ pos', pos <= pos' <= Z.of_nat (length S) ∧
    delivered evs = sub S (Z.to_nat pos) (Z.to_nat (pos' - pos)) ∧
    Forall (λ e, ev_conn e = {| cid_slot := i; cid_generation := generation (slot r i) |}) evs ∧
    (state (slot r i) = st_syn_received → evs = [] ∨ head (ev_type <$> evs) = Some ev_accepted) ∧
    (ev_peer_closed ∈ ev_type <$> evs ∨ ev_closed ∈ ev_type <$> evs → pos' = Z.of_nat (length S)) ∧
    (ev_closed ∉ ev_type <$> evs → ev_reset ∉ ev_type <$> evs →
       live stack (t_impl st) i ∧ generation (slot (t_impl st) i) = generation (slot r i) ∧ stream_inv S (slot (t_impl st) i) pos').
Proof using DpdkLaws0 DpdkAccount0.
  intros Hcfg Hq Hr Hlv Hb Hlen HS Hst Hsegs Hkept Hrun Hidle evs. pose proof (fine_reachable_inv stack control_txq data_txq _ Hcfg Hq Hr) as Hinv.
  pose proof (fine_step_inv stack control_txq data_txq _ _ Hcfg Hq Hinv (fs_poll stack control_txq data_txq r out burst Hb Hlen)) as Hinv1.
  pose proof Hinv as [[[m Htab] Hquiet _] _]. cbn [t_in t_impl core pc_ok] in Htab, Hquiet. pose proof Hlv as (Hi & Hnf & Hna).
  assert (Hog : ongoing stack S i (generation (slot r i)) (flow_key (slot r i)) (irs (slot r i)) (set_events r []) pos) by (split; [done|done|done]).
  destruct (poll_moves_stream S i (generation (slot r i)) (flow_key (slot r i)) (irs (slot r i)) pos (state (slot r i) = st_syn_received)
    _ st pos Hcfg Hq HS Hi Hinv1 Hrun) as [pos' [[Rp Rd Rc Ro Re] _ _ Hover]].
  - pose proof (si_pos _ _ _ Hst) as Hpos. split; cbn [t_impl t_in in_start fst snd pending before_acks events set_events]; [|done| |].
    + split; cbn; [lia|by rewrite Z.sub_diag|constructor|by left|intros [Hx|Hx]; by apply not_elem_of_nil in Hx].
    + intros _. split_and!; [done|done|by intros].
    + intros _. split; [done|]. intros Hcl. destruct (i_closed _ _ _ Htab i Hi Hcl) as [|Hfin]; [done|].
      destruct Hquiet as (_ & Hf & _). rewrite Hf in Hfin. by apply not_elem_of_nil in Hfin.
  - exists pos'. split_and!; [lia|lia|done..|]. intros Hc Hx. destruct Hover as [[Hl (Hg & _) Hs] _]; [intros [?|?]; done|]. done.
Qed.
End fine_stream_theorem.

(** ** A run *)

Section streamed.
#[local] Existing Instances sim.ops sim.laws sim.account sim.wires.

(** The connection is open, without a call; the peer goes on with "!" while we
    close. *)
Definition racing_close : list tick := K_in :: K_call demo.conn J_close :: replicate 9 K_out ++ replicate 6 K_in ++ replicate 5 K_out.

(** A schedule that begins no [poll] consists of poll moves. *)
Definition no_poll (t : tick) : bool := match t with K_poll _ => false | _ => true end.
Lemma tick_idle r out t (st : threads sim.env) : no_poll t = true →
  tick_step demo.stack demo.control_txq demo.data_txq (Threads r In_idle out) t = Some st → t_in st = In_idle.
Proof.
  intros Hn. destruct t as [burst| |conn j| |]; [done|done|..]; destruct out as [c|]; cbn; try done.
  - destruct (usableb _ _ _); [|done]. by intros [= <-].
  - destruct (out_exec _ _ _) as [[p r']|]; [|done]. cbn. destruct (cl_since c); [done|]. by intros [= <-].
  - destruct (cl_prog c); try done. by intros [= <-].
Qed.

Lemma play_moves ts (st st' : threads sim.env) : forallb no_poll ts = true →
  play demo.stack demo.control_txq demo.data_txq ts st = Some st' → rtc (poll_move demo.stack demo.control_txq demo.data_txq) st st'.
Proof.
  unfold play. revert st. induction ts as [|t ts IH]; intros st Hn; cbn; [by intros [= <-]|]. cbn in Hn. apply andb_prop in Hn as [Ht Hn].
  destruct (tick_step _ _ _ st t) as [st1|] eqn:Et; cbn.
  - intros Hp. eapply rtc_l; [|by apply IH]. pose proof (tick_step_fine _ _ _ st t st1 Et) as Hf.
    destruct Hf as [r out burst Hb Hl|r pc out pc' r' Hne Hs|s s' Hm]; [|by apply pm_in|by apply pm_out].
    discriminate (tick_idle _ _ _ _ Ht Et).
  - assert (Hx : ∀ l, foldl (λ st t, st ≫= λ st, tick_step demo.stack demo.control_txq demo.data_txq st t) None l = None) by (intros l; by induction l).
    by rewrite Hx.
Qed.
Lemma open_fine : fine_reachable demo.stack demo.control_txq demo.data_txq (Threads demo.open In_idle None).
Proof.
  assert (Ho : played [] handshake = Threads demo.open In_idle None) by (vm_compute; reflexivity). rewrite <- Ho. apply played_reached.
Qed.

Lemma stream_under_interference_witness : ∃ st,
  play demo.stack demo.control_txq demo.data_txq racing_close (Threads (in_start [more] demo.open).2 (in_start [more] demo.open).1 None) = Some st ∧
  flag (out_flags (slot (t_impl st) 0)) out_fin_sent = true ∧
  ∃ pos', 2 <= pos' <= 3 ∧ delivered (events_of 0 (events (t_impl st))) = sub [104; 105; 33] 2 (Z.to_nat (pos' - 2)).
Proof.
  set (st0 := Threads _ _ _).
  assert (Hp : (λ st, (t_in st, flag (out_flags (slot (t_impl st) 0)) out_fin_sent)) <$>
    play demo.stack demo.control_txq demo.data_txq racing_close st0 = Some (In_idle, true)) by (vm_compute; reflexivity).
  destruct (play demo.stack demo.control_txq demo.data_txq racing_close st0) as [st|] eqn:Ep; [|discriminate Hp].
  injection Hp as Hin Hf. exists st. split; [reflexivity|]. split; [exact Hf|].
  assert (Hl : segs_for (E := sim.env) demo.stack (flow_key (slot demo.open 0)) [more] = [demo_seg more]) by (vm_compute; reflexivity).
  destruct (stream_under_interference demo.stack demo.control_txq demo.data_txq demo.open None [more] st 0 [104; 105; 33] 2
    demo_ok demo_queues open_fine open_live) as (pos' & Hpos & Hd & _).
  - apply demo.wfb_all. vm_compute. reflexivity.
  - vm_compute. discriminate.
  - cbn. lia.
  - exact open_stream.
  - rewrite Hl. constructor; [|constructor]. exists 2. exact more_seg.
  - rewrite Hl. intros _. constructor; [vm_compute; reflexivity|constructor].
  - exact (play_moves racing_close st0 st eq_refl Ep).
  - exact Hin.
  - exists pos'. split; [exact Hpos|exact Hd].
Defined.
End streamed.
