(* ===== verification/Tests.v ===== *)
(** * The repository's own tests (tests/tcp_test.cpp, arp_test.cpp, port_helpers_test.cpp)

    The unit tests that need no second thread and no privileges, translated call
    by call and run on the model: a check that the definitions do what the
    program's authors ask of the program.  [craft] and [parse] are the fixture's;
    net_ring, which loops a transmit queue back into the receive queue of the
    same number, is played by the simulated environment of DpdkSim.v. *)

From stdpp Require Import strings.
From S2P Require Import Prelude Dpdk DpdkSim Packet Headers Segment Arp Port TcpState TcpReceiver TcpSender.

Module tcp_test.
#[local] Existing Instance sim.ops.

Definition peer_q : queue := {| q_port := 0; q_id := 0 |}.
Definition control_q : queue := {| q_port := 0; q_id := 1 |}.
Definition data_q : queue := {| q_port := 0; q_id := 2 |}.

Definition local_ip : Z := 0x0a4d0002.
Definition peer_ip : Z := 0x0a4d0001.
Definition listen_port : Z := 9000.
Definition peer_port : Z := 40000.
Definition peer_mac : list Z := [2; 0; 0; 0; 0; 1].
Definition local_mac : list Z := [0; 0; 0; 0; 0; 0].
Definition peer_isn : Z := 0xfffffff0.

Abbreviation SYN := RTE_TCP_SYN_FLAG.
Abbreviation ACK := RTE_TCP_ACK_FLAG.
Abbreviation FIN := RTE_TCP_FIN_FLAG.
Abbreviation RST := RTE_TCP_RST_FLAG.
Abbreviation PSH := RTE_TCP_PSH_FLAG.

Definition text (s : string) : list Z := (λ c, Z.of_N (Ascii.N_of_ascii c)) <$> String.list_ascii_of_string s.

(** A segment the stack sent, read back off the wire. *)
Record seen_segment := Seen {
  s_src_port : Z; s_dst_port : Z; s_seq : Z; s_ack : Z; s_flags : Z; s_window : Z; s_mss_option : option Z;
  s_payload : list Z; s_checksums_ok : bool; s_eth_dst : list Z }.

Definition checksums_ok (ip l4 : list Z) : bool :=
  (rte_ipv4_cksum ip =? 0) && (rte_raw_cksum_reduce (rte_raw_cksum l4 (rte_ipv4_phdr_cksum ip)) =? 0xffff).

Definition parse (pkt : rte_mbuf) : seen_segment :=
  let d := m_data pkt in
  let ip := sizeof_ether_hdr in
  let th := (ip + Z.to_nat (ip_hdr_len_at d ip))%nat in
  let doff := Z.to_nat (Z.shiftr (rd8 d (th + 12)) 4 * 4) in
  let l4_len := Z.to_nat (l4_len_at d ip) in
  let opt := (th + sizeof_tcp_hdr)%nat in
  Seen (rd16 d th) (rd16 d (th + 2)) (rd32 d (th + 4)) (rd32 d (th + 8)) (rd8 d (th + 13)) (rd16 d (th + 14))
    (if (24 <=? doff)%nat && (rd8 d opt =? 2) && (rd8 d (opt + 1) =? 4) then Some (rd16 d (opt + 2)) else None)
    (sub d (th + doff) (l4_len - doff)) (checksums_ok (ipv4_hdr_at d ip) (sub d th l4_len)) (sub d 0 6).

(** The frame the peer sends; [None] if the buffer is too small. *)
Definition craft (seq ack flags : Z) (payload : list Z) (window : Z) (mss : option Z) (from_port to_port : Z) (pkt : rte_mbuf) : option rte_mbuf :=
  '(_, pkt) ← build_ethernet_header pkt local_mac peer_mac RTE_ETHER_TYPE_IPV4;
  '(ip, pkt) ← build_ipv4_header pkt peer_ip local_ip IPPROTO_TCP 64 0;
  '(th, pkt) ← build_tcp_header pkt from_port to_port seq ack flags window;
  pkt ← match mss with
        | None => Some pkt
        | Some mss =>
          '(opt, pkt) ← packet_append pkt 8;
          Some (mbuf_write (mbuf_write pkt opt [1; 1; 2; 4; u8 (Z.shiftr mss 8); u8 mss; 1; 1]) (th + 12) [Z.shiftl 7 4])
        end;
  '(_, pkt) ← packet_append_payload pkt payload;
  Some (finalize_tcp_header (finalize_ipv4_header pkt ip) ip th).

(** ** Tests: state, expectations, result *)

Record fixture := Fixture { fx_stack : tcp_stack; fx_impl : impl sim.env }.
Definition test (A : Type) : Type := fixture → fixture * list bool * A.
#[local] Instance test_ret : MRet test := λ A a fx, (fx, [], a).
#[local] Instance test_bind : MBind test := λ A B k m fx,
  let '(fx, ok, a) := m fx in let '(fx, ok', b) := k a fx in (fx, ok ++ ok', b).
Definition expect (b : bool) : test unit := λ fx, (fx, [b], tt).
Definition expect_eq {A} `{EqDecision A} (a b : A) : test unit := expect (bool_decide (a = b)).

Record seen_event := SeenEvent { e_type : tcp_event_type; e_conn : conn_id; e_data : list Z }.

Definition poll : test (list seen_event) := λ fx,
  let r := fx_impl fx in
  let '(burst, w) := receive_burst peer_q burst_max_size (env r) in
  let '(evs, r) := TcpReceiver.poll (fx_stack fx) control_q (set_env r w) (omap id burst) in
  (Fixture (fx_stack fx) (set_env r (burst_dtor burst (env r))), [], (λ ev, SeenEvent (ev_type ev) (ev_conn ev) (ev_bytes ev)) <$> evs).

(** The peer's frames reach the receive queue. *)
Definition inject (ms : list rte_mbuf) : test unit := λ fx,
  let w := env (fx_impl fx) in
  (Fixture (fx_stack fx) (set_env (fx_impl fx)
     (sim.Env (sim.e_room w) (sim.e_pool w) (sim.e_limits w) (sim.e_tx w) (sim.e_rx w ++ ms) (sim.e_rand w) (sim.e_held w))), [], tt).
Definition fresh : rte_mbuf := Mbuf [] 0 1 2048 0 0.
Definition corrupted (m : rte_mbuf) : rte_mbuf :=
  mbuf_write m (Z.to_nat (packet_length m - 1)) [Z.lxor (rd8 (m_data m) (Z.to_nat (packet_length m - 1))) 0xff].

Definition peer_sends_full (seq ack flags : Z) (payload : list Z) (window : Z) (mss : option Z) (from_port to_port : Z) (corrupt : bool)
    : test (list seen_event) :=
  match craft seq ack flags payload window mss from_port to_port fresh with
  | None => _ ← expect false; mret []
  | Some m => _ ← inject [if corrupt then corrupted m else m]; poll
  end.
Definition peer_sends (seq ack flags : Z) (payload : list Z) (window : Z) (mss : option Z) : test (list seen_event) :=
  peer_sends_full (u32 seq) (u32 ack) flags payload window mss peer_port listen_port false.

(** Everything the stack sent on one of its queues since the last call. *)
Definition frames_on (q : queue) : test (list rte_mbuf) := λ fx,
  let w := env (fx_impl fx) in
  (Fixture (fx_stack fx) (set_env (fx_impl fx)
     (sim.Env (sim.e_room w) (sim.e_pool w) (sim.e_limits w) (filter (λ x, x.1 ≠ q_id q) (sim.e_tx w)) (sim.e_rx w) (sim.e_rand w) (sim.e_held w))),
   [], (filter (λ x, x.1 = q_id q) (sim.e_tx w)).*2).
Definition sent_on (q : queue) : test (list seen_segment) := ms ← frames_on q; mret (parse <$> ms).

(** [xs.at(0)], a failed expectation if there is none. *)
Definition first {A} `{Inhabited A} (xs : list A) : test A :=
  match xs with [] => _ ← expect false; mret inhabitant | x :: _ => mret x end.
#[local] Instance seen_inhabited : Inhabited seen_segment := populate (Seen 0 0 0 0 0 0 None [] false []).
Definition no_conn : conn_id := {| cid_slot := 0; cid_generation := 0 |}.
#[local] Instance event_inhabited : Inhabited seen_event := populate (SeenEvent ev_closed no_conn []).

Definition tx_send (conn : conn_id) (bs : list Z) : test Z := λ fx,
  match send (fx_stack fx) data_q (slots (fx_impl fx)) conn bs (env (fx_impl fx)) with
  | None => (fx, [false], 0)
  | Some (k, s, w) => (Fixture (fx_stack fx) (set_env (set_slots (fx_impl fx) s) w), [], k)
  end.
Definition tx_close (conn : conn_id) : test unit := λ fx,
  let '(s, w) := close (fx_stack fx) data_q (slots (fx_impl fx)) conn (env (fx_impl fx)) in
  (Fixture (fx_stack fx) (set_env (set_slots (fx_impl fx) s) w), [], tt).
Definition tx_send_space (conn : conn_id) : test Z := λ fx, (fx, [], send_space (fx_stack fx) (slots (fx_impl fx)) conn).
Definition tx_sendable (conn : conn_id) : test bool := λ fx, (fx, [], sendable (fx_stack fx) (slots (fx_impl fx)) conn).
Definition rx_stats : test tcp_stats := λ fx, (fx, [], stats (fx_impl fx)).
Definition stack_mss : test Z := λ fx, (fx, [], mss_ (fx_stack fx)).

(** The three-way handshake; the accepted connection and our first number. *)
Definition handshake (window : Z) (mss : option Z) : test (conn_id * Z) :=
  ev ← peer_sends peer_isn 0 SYN [] 65535 mss; _ ← expect (bool_decide (length ev = 0%nat));
  syn_ack ← sent_on control_q; _ ← expect_eq (length syn_ack) 1%nat;
  s ← first syn_ack; _ ← expect_eq (s_flags s) (Z.lor SYN ACK); _ ← expect_eq (s_ack s) (u32 (peer_isn + 1));
  ev ← peer_sends (peer_isn + 1) (s_seq s + 1) ACK [] window None; _ ← expect_eq (length ev) 1%nat;
  e ← first ev; _ ← expect_eq (e_type e) ev_accepted;
  out ← sent_on control_q; _ ← expect_eq (length out) 0%nat;
  mret (e_conn e, s_seq s).

Definition params : tcp_params := {| max_connections := 64; p_mss := 1460; receive_window := 65535; verify_checksums := true |}.
Definition with_slots (n : Z) : tcp_params := {| max_connections := n; p_mss := 1460; receive_window := 65535; verify_checksums := true |}.

(** [make_stack] and the test's body: whether every expectation was met. *)
Definition passes (p : tcp_params) (body : test unit) : bool :=
  match tcp_stack_new 0 local_mac (Some local_ip) (Some 1500) p with
  | inl _ => false
  | inr (s, conns) =>
    match listen s listen_port with
    | inl _ => false
    | inr s => forallb id (body (Fixture s (impl_new s conns (sim.Env 2048 256 [] [] [] (replicate 8 0x12345678) 0)))).1.2
    end
  end.

(** ** tcp_test.cpp *)

Definition syn_ack_is_well_formed : test unit :=
  ev ← peer_sends peer_isn 0 SYN [] 65535 (Some 1460); _ ← expect_eq (length ev) 0%nat;
  out ← sent_on control_q; _ ← expect_eq (length out) 1%nat; o ← first out; mss ← stack_mss;
  _ ← expect_eq (s_flags o) (Z.lor SYN ACK); _ ← expect_eq (s_ack o) (u32 (peer_isn + 1));
  _ ← expect_eq (s_src_port o) listen_port; _ ← expect_eq (s_dst_port o) peer_port;
  _ ← expect_eq (s_mss_option o) (Some mss); _ ← expect (s_checksums_ok o);
  _ ← expect_eq (s_eth_dst o) peer_mac; expect_eq (s_payload o) [].

Definition duplicate_syn_resends_syn_ack : test unit :=
  _ ← peer_sends peer_isn 0 SYN [] 65535 (Some 1460); out ← sent_on control_q; one ← first out;
  _ ← peer_sends peer_isn 0 SYN [] 65535 (Some 1460); again ← sent_on control_q; _ ← expect_eq (length again) 1%nat; two ← first again;
  _ ← expect_eq (s_flags two) (Z.lor SYN ACK); expect_eq (s_seq two) (s_seq one).

Definition handshake_data_both_ways_then_passive_close : test unit :=
  '(conn, iss) ← handshake 65535 (Some 1460);
  let pseq := peer_isn + 1 in
  ev ← peer_sends pseq (iss + 1) (Z.lor ACK PSH) (text "hello") 65535 None; _ ← expect_eq (length ev) 1%nat; e ← first ev;
  _ ← expect_eq (e_type e) ev_data; _ ← expect_eq (e_conn e) conn; _ ← expect_eq (e_data e) (text "hello");
  let pseq := pseq + 5 in
  acks ← sent_on control_q; _ ← expect_eq (length acks) 1%nat; a ← first acks;
  _ ← expect_eq (s_flags a) ACK; _ ← expect_eq (s_ack a) (u32 pseq); _ ← expect_eq (s_seq a) (u32 (iss + 1)); _ ← expect (s_checksums_ok a);
  k ← tx_send conn (text "world"); _ ← expect_eq k 5;
  data ← sent_on data_q; _ ← expect_eq (length data) 1%nat; d ← first data;
  _ ← expect_eq (s_seq d) (u32 (iss + 1)); _ ← expect_eq (s_ack d) (u32 pseq); _ ← expect_eq (s_flags d) (Z.lor ACK PSH);
  _ ← expect_eq (s_payload d) (text "world"); _ ← expect (s_checksums_ok d);
  ev ← peer_sends pseq (iss + 6) (Z.lor ACK FIN) [] 65535 None; _ ← expect_eq (length ev) 1%nat; e ← first ev; _ ← expect_eq (e_type e) ev_peer_closed;
  acks ← sent_on control_q; _ ← expect_eq (length acks) 1%nat; a ← first acks; _ ← expect_eq (s_ack a) (u32 (pseq + 1));
  k ← tx_send conn (text "bye"); _ ← expect_eq k 3; out ← sent_on data_q; _ ← expect_eq (length out) 1%nat;
  _ ← tx_close conn; fin ← sent_on data_q; _ ← expect_eq (length fin) 1%nat; f ← first fin;
  _ ← expect_eq (s_flags f) (Z.lor FIN ACK); _ ← expect_eq (s_seq f) (u32 (iss + 9)); _ ← expect_eq (s_ack f) (u32 (pseq + 1));
  ev ← peer_sends (pseq + 1) (iss + 10) ACK [] 65535 None; _ ← expect_eq (length ev) 1%nat; e ← first ev; _ ← expect_eq (e_type e) ev_closed;
  out ← sent_on control_q; _ ← expect_eq (length out) 0%nat;
  _ ← peer_sends (pseq + 1) (iss + 10) ACK [] 65535 None; rst ← sent_on control_q; _ ← expect_eq (length rst) 1%nat; r ← first rst;
  _ ← expect_eq (s_flags r) RST; expect_eq (s_seq r) (u32 (iss + 10)).

Definition active_close : test unit :=
  '(conn, iss) ← handshake 65535 (Some 1460);
  let pseq := peer_isn + 1 in
  _ ← tx_close conn; fin ← sent_on data_q; _ ← expect_eq (length fin) 1%nat; f ← first fin;
  _ ← expect_eq (s_flags f) (Z.lor FIN ACK); _ ← expect_eq (s_seq f) (u32 (iss + 1));
  ev ← peer_sends pseq (iss + 2) ACK [] 65535 None; _ ← expect_eq (length ev) 0%nat;
  ev ← peer_sends pseq (iss + 2) ACK (text "late") 65535 None; _ ← expect_eq (length ev) 1%nat; e ← first ev; _ ← expect_eq (e_data e) (text "late");
  _ ← sent_on control_q;
  ev ← peer_sends (pseq + 4) (iss + 2) (Z.lor ACK FIN) [] 65535 None; _ ← expect_eq (length ev) 1%nat; e ← first ev; _ ← expect_eq (e_type e) ev_closed;
  ack ← sent_on control_q; _ ← expect_eq (length ack) 1%nat; a ← first ack;
  _ ← expect_eq (s_ack a) (u32 (pseq + 5)); expect_eq (s_seq a) (u32 (iss + 2)).

Definition simultaneous_close : test unit :=
  '(conn, iss) ← handshake 65535 (Some 1460);
  let pseq := peer_isn + 1 in
  _ ← tx_close conn; _ ← sent_on data_q;
  ev ← peer_sends pseq (iss + 1) (Z.lor ACK FIN) [] 65535 None; _ ← expect_eq (length ev) 0%nat;
  out ← sent_on control_q; a ← first out; _ ← expect_eq (s_ack a) (u32 (pseq + 1));
  ev ← peer_sends (pseq + 1) (iss + 2) ACK [] 65535 None; _ ← expect_eq (length ev) 1%nat; e ← first ev; expect_eq (e_type e) ev_closed.

Definition final_ack_carrying_data_and_fin : test unit :=
  _ ← peer_sends peer_isn 0 SYN [] 65535 (Some 1460); out ← sent_on control_q; s ← first out;
  ev ← peer_sends (peer_isn + 1) (s_seq s + 1) (Z.lor ACK (Z.lor PSH FIN)) (text "x") 65535 None;
  _ ← expect_eq (e_type <$> ev) [ev_accepted; ev_data; ev_peer_closed]; _ ← expect_eq (e_data <$> ev !! 1%nat) (Some (text "x"));
  ack ← sent_on control_q; _ ← expect_eq (length ack) 1%nat; a ← first ack; expect_eq (s_ack a) (u32 (peer_isn + 1 + 1 + 1)).

Definition acks_are_coalesced_per_poll : test unit :=
  '(_, iss) ← handshake 65535 (Some 1460);
  let pseq := peer_isn + 1 in
  let pkt i := craft (u32 (pseq + 4 * i)) (u32 (iss + 1)) ACK (text "abcd") 65535 None peer_port listen_port fresh in
  let pkts := omap id [pkt 0; pkt 1; pkt 2] in
  _ ← expect_eq (length pkts) 3%nat; _ ← inject pkts; ev ← poll; _ ← expect_eq (length ev) 3%nat;
  acks ← sent_on control_q; _ ← expect_eq (length acks) 1%nat; a ← first acks; expect_eq (s_ack a) (u32 (pseq + 12)).

Definition reset_tears_down_and_send_stops : test unit :=
  '(conn, iss) ← handshake 65535 (Some 1460);
  let pseq := peer_isn + 1 in
  ev ← peer_sends (pseq + 100000) 0 RST [] 65535 None; _ ← expect_eq (length ev) 0%nat; k ← tx_send_space conn; _ ← expect (0 <? k);
  ev ← peer_sends pseq 0 RST [] 65535 None; _ ← expect_eq (length ev) 1%nat; e ← first ev;
  _ ← expect_eq (e_type e) ev_reset; _ ← expect_eq (e_conn e) conn; st ← rx_stats; _ ← expect_eq (rst_received st) 1;
  out ← sent_on control_q; _ ← expect_eq (length out) 0%nat;
  k ← tx_send conn (text "nope"); _ ← expect_eq k 0; k ← tx_send_space conn; _ ← expect_eq k 0; b ← tx_sendable conn; _ ← expect (negb b);
  _ ← tx_close conn; out ← sent_on data_q; expect_eq (length out) 0%nat.

Definition rst_in_syn_received_recycles_silently : test unit :=
  _ ← peer_sends peer_isn 0 SYN [] 65535 (Some 1460); _ ← sent_on control_q;
  ev ← peer_sends (peer_isn + 1) 0 RST [] 65535 None; _ ← expect_eq (length ev) 0%nat;
  _ ← peer_sends_full (u32 (peer_isn + 50)) 0 SYN [] 65535 (Some 1460) (peer_port + 1) listen_port false;
  out ← sent_on control_q; _ ← expect_eq (length out) 1%nat; o ← first out; expect_eq (s_flags o) (Z.lor SYN ACK).

Definition unknown_connections_get_rst : test unit :=
  _ ← peer_sends 123 456 ACK (text "zz") 65535 None; out ← sent_on control_q; _ ← expect_eq (length out) 1%nat; o ← first out;
  _ ← expect_eq (s_flags o) RST; _ ← expect_eq (s_seq o) 456; _ ← expect (s_checksums_ok o);
  _ ← peer_sends_full 1000 0 SYN [] 65535 (Some 1460) peer_port 9999 false; out ← sent_on control_q; _ ← expect_eq (length out) 1%nat; o ← first out;
  _ ← expect_eq (s_flags o) (Z.lor RST ACK); _ ← expect_eq (s_ack o) 1001; _ ← expect_eq (s_src_port o) 9999;
  _ ← peer_sends 1 0 RST [] 65535 None; out ← sent_on control_q; _ ← expect_eq (length out) 0%nat; st ← rx_stats; expect_eq (rst_sent st) 2.

Definition full_table_refuses_with_rst : test unit :=
  _ ← handshake 65535 (Some 1460); _ ← peer_sends_full 5000 0 SYN [] 65535 (Some 1460) (peer_port + 1) listen_port false;
  out ← sent_on control_q; _ ← expect_eq (length out) 1%nat; o ← first out; _ ← expect_eq (s_flags o) (Z.lor RST ACK);
  st ← rx_stats; expect_eq (no_free_slot st) 1.

Definition segments_to_peer_mss : test unit :=
  '(conn, iss) ← handshake 65535 (Some 100);
  let msg := replicate 350 109 in
  k ← tx_send conn msg; _ ← expect_eq k 350; segs ← sent_on data_q;
  _ ← expect_eq (length <$> (s_payload <$> segs)) [100; 100; 100; 50]%nat;
  _ ← expect_eq (s_seq <$> segs) ((λ d, u32 (iss + 1 + d)) <$> [0; 100; 200; 300]);
  _ ← expect_eq ((λ s, negb (Z.land (s_flags s) PSH =? 0)) <$> segs) [false; false; false; true];
  _ ← expect (forallb s_checksums_ok segs); expect_eq (concat (s_payload <$> segs)) msg.

Definition missing_mss_option_defaults_to_536 : test unit :=
  '(conn, _) ← handshake 65535 None; k ← tx_send conn (replicate 600 113); _ ← expect_eq k 600;
  segs ← sent_on data_q; _ ← expect_eq (length segs) 2%nat; s ← first segs; expect_eq (length (s_payload s)) 536%nat.

Definition our_mss_caps_a_larger_peer_mss : test unit :=
  '(conn, _) ← handshake 65535 (Some 1460); k ← tx_send conn (replicate 450 122); _ ← expect_eq k 450;
  segs ← sent_on data_q; _ ← expect_eq (length segs) 3%nat; s ← first segs; expect_eq (length (s_payload s)) 200%nat.

Definition sending_is_limited_by_peer_window : test unit :=
  '(conn, iss) ← handshake 1000 (Some 1460);
  let pseq := peer_isn + 1 in
  let msg := replicate 3000 119 in
  k ← tx_send_space conn; _ ← expect_eq k 1000; k ← tx_send conn msg; _ ← expect_eq k 1000; k ← tx_send_space conn; _ ← expect_eq k 0;
  k ← tx_send conn (drop 1000 msg); _ ← expect_eq k 0;
  out ← sent_on data_q; _ ← expect_eq (length (concat (s_payload <$> out))) 1000%nat;
  _ ← peer_sends pseq (iss + 1 + 500) ACK [] 1000 None; k ← tx_send_space conn; _ ← expect_eq k 500;
  _ ← peer_sends pseq (iss + 1 + 500) ACK [] 4000 None; k ← tx_send_space conn; _ ← expect_eq k 3500;
  k ← tx_send conn (drop 1000 msg); _ ← expect_eq k 2000; rest ← sent_on data_q; r ← first rest; _ ← expect_eq (s_seq r) (u32 (iss + 1 + 1000));
  _ ← peer_sends pseq (iss + 1 + 3000) ACK [] 0 None; k ← tx_send_space conn; _ ← expect_eq k 0; k ← tx_send conn (text "x"); _ ← expect_eq k 0;
  b ← tx_sendable conn; expect b.

Definition out_of_order_is_dropped_and_rcv_nxt_reacked : test unit :=
  '(conn, iss) ← handshake 65535 (Some 1460);
  let pseq := peer_isn + 1 in
  ev ← peer_sends (pseq + 10) (iss + 1) ACK (text "later") 65535 None; _ ← expect_eq (length ev) 0%nat; st ← rx_stats; _ ← expect_eq (out_of_order st) 1;
  ack ← sent_on control_q; _ ← expect_eq (length ack) 1%nat; a ← first ack; _ ← expect_eq (s_ack a) (u32 pseq);
  ev ← peer_sends pseq (iss + 1) ACK (text "abcde") 65535 None; _ ← expect_eq (length ev) 1%nat; e ← first ev; _ ← expect_eq (e_data e) (text "abcde");
  _ ← sent_on control_q;
  ev ← peer_sends (pseq + 3) (iss + 1) ACK (text "deFGH") 65535 None; _ ← expect_eq (length ev) 1%nat; e ← first ev;
  _ ← expect_eq (e_conn e) conn; _ ← expect_eq (e_data e) (text "FGH"); out ← sent_on control_q; a ← first out; _ ← expect_eq (s_ack a) (u32 (pseq + 8));
  ev ← peer_sends pseq (iss + 1) ACK (text "abcde") 65535 None; _ ← expect_eq (length ev) 0%nat;
  out ← sent_on control_q; a ← first out; expect_eq (s_ack a) (u32 (pseq + 8)).

Definition bad_checksum_is_dropped : test unit :=
  '(_, iss) ← handshake 65535 (Some 1460);
  ev ← peer_sends_full (u32 (peer_isn + 1)) (u32 (iss + 1)) ACK (text "oops") 65535 None peer_port listen_port true;
  _ ← expect_eq (length ev) 0%nat; st ← rx_stats; _ ← expect_eq (bad_checksum st) 1; out ← sent_on control_q; expect_eq (length out) 0%nat.

Definition ack_of_unsent_data_is_dropped : test unit :=
  '(_, iss) ← handshake 65535 (Some 1460);
  ev ← peer_sends (peer_isn + 1) (iss + 500) ACK (text "data") 65535 None; _ ← expect_eq (length ev) 0%nat;
  ack ← sent_on control_q; _ ← expect_eq (length ack) 1%nat; a ← first ack; expect_eq (s_ack a) (u32 (peer_isn + 1)).

Definition slot_reuse_rejects_stale_ids : test unit :=
  '(one, _) ← handshake 65535 (Some 1460); _ ← peer_sends (peer_isn + 1) 0 RST [] 65535 None; _ ← tx_close one;
  '(two, _) ← handshake 65535 (Some 1460); _ ← expect_eq (cid_slot two) (cid_slot one);
  _ ← expect (negb (cid_generation two =? cid_generation one));
  k ← tx_send one (text "stale"); _ ← expect_eq k 0; _ ← tx_close one; out ← sent_on data_q; _ ← expect_eq (length out) 0%nat;
  k ← tx_send two (text "fresh"); _ ← expect_eq k 5; k ← tx_send no_conn (text "x"); _ ← expect_eq k 0;
  k ← tx_send {| cid_slot := 7; cid_generation := 1 |} (text "x"); expect_eq k 0.

Definition answers_arp : test unit :=
  match (build_arp_request 0 peer_mac peer_ip local_ip (sim.start 1 2048)).1 with
  | None => expect false
  | Some req =>
    _ ← inject [req]; ev ← poll; _ ← expect_eq (length ev) 0%nat; out ← frames_on control_q;
    match out with
    | [m] => _ ← expect_eq (rd16 (m_data m) 12) RTE_ETHER_TYPE_ARP; expect_eq (sub (m_data m) 0 6) peer_mac
    | _ => expect false
    end
  end.

(** [stack_setup_errors]. *)
Definition refused {A} (x : dpdk_error + A) : bool := match x with inl _ => true | inr _ => false end.
Definition stack_setup_errors : bool :=
  refused (tcp_stack_new 0 local_mac (Some local_ip) (Some 1500) (with_slots 0)) &&
  match tcp_stack_new 0 local_mac (Some local_ip) (Some 1500) params with
  | inl _ => false
  | inr (s, _) =>
    refused (take_receiver s None) &&
    match take_receiver s (Some control_q) with
    | inl _ => false
    | inr (s, _) =>
      refused (take_receiver s (Some control_q)) &&
      match take_sender s (Some data_q) with
      | inl _ => false
      | inr (s, _) =>
        refused (take_sender s (Some data_q)) &&
        match foldl (λ s p, match s with inr s => listen s p | inl e => inl e end) (inr s) (seqZ 1 16) with
        | inl _ => false
        | inr s => negb (refused (listen s 1)) && refused (listen s 17)
        end
      end
    end
  end.

Definition suite : list bool := [
  passes params syn_ack_is_well_formed; passes params duplicate_syn_resends_syn_ack;
  passes params handshake_data_both_ways_then_passive_close; passes params active_close; passes params simultaneous_close;
  passes params final_ack_carrying_data_and_fin; passes params acks_are_coalesced_per_poll; passes params reset_tears_down_and_send_stops;
  passes (with_slots 1) rst_in_syn_received_recycles_silently; passes params unknown_connections_get_rst;
  passes (with_slots 1) full_table_refuses_with_rst; passes params segments_to_peer_mss; passes params missing_mss_option_defaults_to_536;
  passes {| max_connections := 64; p_mss := 200; receive_window := 65535; verify_checksums := true |} our_mss_caps_a_larger_peer_mss;
  passes params sending_is_limited_by_peer_window; passes params out_of_order_is_dropped_and_rcv_nxt_reacked;
  passes params bad_checksum_is_dropped; passes params ack_of_unsent_data_is_dropped; passes (with_slots 1) slot_reuse_rejects_stale_ids;
  passes params answers_arp; stack_setup_errors].
End tcp_test.

(** ** arp_test.cpp *)

Module arp_test.
#[local] Existing Instance sim.ops.
Import tcp_test.
Definition local_mac : list Z := [2; 0; 0; 0; 0; 2].
Definition start : sim.env := sim.start 16 2048.
Definition table : neighbor_table.neighbor_table := neighbor_table.make 256.
#[local] Instance arp_result_eq_dec : EqDecision arp_result.
Proof. solve_decision. Defined.

Definition request (target_ip : Z) : rte_mbuf := default fresh (build_arp_request 0 peer_mac peer_ip target_ip start).1.
Definition handled (m : rte_mbuf) (t : neighbor_table.neighbor_table) : arp_result * neighbor_table.neighbor_table * packet :=
  (handle_arp m local_mac local_ip t 0 None start).1.

Definition request_for_us_is_answered_and_sender_learned : bool :=
  match handled (request local_ip) table with
  | (replied, t, Some reply) =>
    let d := m_data reply in
    bool_decide (packet_length reply = 42) && bool_decide (sub d 0 6 = peer_mac) && bool_decide (sub d 6 6 = local_mac) &&
    bool_decide (rd16 d 12 = RTE_ETHER_TYPE_ARP) && bool_decide (rd16 d 20 = RTE_ARP_OP_REPLY) && bool_decide (sub d 22 6 = local_mac) &&
    bool_decide (rd32 d 28 = local_ip) && bool_decide (sub d 32 6 = peer_mac) && bool_decide (rd32 d 38 = peer_ip) &&
    bool_decide (neighbor_table.lookup t peer_ip = Some peer_mac)
  | _ => false
  end.
Definition request_for_another_host_is_not_answered_or_learned : bool :=
  match handled (request 0x0a4d0063) table with
  | (ignored, t, None) => bool_decide (neighbor_table.lookup t peer_ip = None)
  | _ => false
  end.
Definition traffic_for_others_refreshes_a_known_neighbor : bool :=
  match handled (request peer_ip) (neighbor_table.learn table peer_ip [2; 0; 0; 0; 0; 0xee]).2 with
  | (learned, t, None) => bool_decide (neighbor_table.lookup t peer_ip = Some peer_mac)
  | _ => false
  end.
(** A frame of zeros but for its EtherType. *)
Definition zeros (ether_type : Z) (body : nat) : rte_mbuf :=
  let d := wr (replicate (14 + body) 0) 12 (be16 ether_type) in Mbuf d (Z.of_nat (length d)) 1 1024 0 0.
Definition non_arp_and_malformed_frames : bool :=
  bool_decide ((handled (zeros RTE_ETHER_TYPE_IPV4 20) table).1.1 = not_arp) &&
  bool_decide ((handled (zeros RTE_ETHER_TYPE_ARP 8) table).1.1 = ignored) &&
  let '(res, _, reply) := handled (mbuf_write (request local_ip) 16 (be16 0x86dd)) table in
  bool_decide (res = ignored) && match reply with None => true | Some _ => false end.

Definition capacity_and_zero_address : bool :=
  let m := [2; 0; 0; 0; 0; 1] in
  let learn t ip := neighbor_table.learn t ip m in
  let '(b0, t) := learn (neighbor_table.make 2) 0 in let '(b1, t) := learn t 1 in let '(b2, t) := learn t 2 in
  let '(b3, t) := learn t 3 in let '(b4, t) := learn t 2 in
  let '(b5, t') := neighbor_table.update_if_present t 3 m in
  let addr i := 0x0a000000 + i in
  let big := foldl (λ '(ok, t) i, let '(b, t) := neighbor_table.learn t (addr i) [2; 0; 0; 0; 0; u8 i] in (ok && b, t))
               (true, neighbor_table.make 200) (seqZ 1 200) in
  bool_decide ([b0; b1; b2; b3; b4; b5] = [false; true; true; false; true; false]) &&
  bool_decide (neighbor_table.size_ t = 2) && bool_decide (neighbor_table.lookup t 3 = None) &&
  big.1 && forallb (λ i, bool_decide (neighbor_table.lookup big.2 (addr i) = Some [2; 0; 0; 0; 0; u8 i])) (seqZ 1 200).

Definition suite : list bool := [
  request_for_us_is_answered_and_sender_learned; request_for_another_host_is_not_answered_or_learned;
  traffic_for_others_refreshes_a_known_neighbor; non_arp_and_malformed_frames; capacity_and_zero_address].
End arp_test.

(** ** port_helpers_test.cpp *)

Module port_test.
#[local] Existing Instance sim.ops.

Definition maps_low_23_bits : bool :=
  bool_decide (ipv4_multicast_mac 0xef010203 = [0x01; 0x00; 0x5e; 0x01; 0x02; 0x03]) &&
  bool_decide (ipv4_multicast_mac 0xe0810203 = ipv4_multicast_mac 0xe0010203) &&
  Z.testbit (ipv4_multicast_mac 0xe0810203 !!! 0%nat) 0.
Definition ipv4_address_is_unset_until_set : bool :=
  let p := Port 1 (Some 0) (fresh_queues []) (fresh_queues []) None true in
  bool_decide (ipv4_addr_ p = None) && bool_decide (ipv4_addr_ (set_ipv4_address p 0x0a000002) = Some 0x0a000002).
Definition append_empty_payload_is_a_no_op : bool :=
  match packet_append_payload tcp_test.fresh [] with Some (_, m) => packet_length m =? 0 | None => false end.
Definition append_payload_over_64k_is_rejected : bool :=
  match packet_append_payload tcp_test.fresh (replicate (Z.to_nat 65540) 0) with None => true | Some _ => false end.

Definition ids (qs : list (option queue)) : list (option Z) := map (option_map q_id) qs.
Definition claim_by_id_and_next_unclaimed_never_overlap : bool :=
  let s := fresh_queues ((λ i, {| q_port := 1; q_id := i |}) <$> seqZ 0 4) in
  let '(rx, _) := claim_all s [by_id 2; by_id 2; next_unclaimed; next_unclaimed; next_unclaimed; next_unclaimed; by_id 0] in
  let '(tx, _) := claim_all s [next_unclaimed; by_id 0; by_id 3] in
  bool_decide (ids rx = [Some 2; None; Some 0; Some 1; Some 3; None; None]) &&
  match claim_by_id s 4 with inl _ => true | inr _ => false end && bool_decide (ids tx = [Some 0; None; Some 3]).

Definition suite : list bool := [
  maps_low_23_bits; ipv4_address_is_unset_until_set; append_empty_payload_is_a_no_op; append_payload_over_64k_is_rejected;
  claim_by_id_and_next_unclaimed_never_overlap].
End port_test.

(** The model passes the repository's tests. *)
Example unit_tests_pass : Forall (λ b, b = true) (tcp_test.suite ++ arp_test.suite ++ port_test.suite).
Proof. vm_compute. repeat constructor. Qed.
